(* ===== verification/_CoqProject ===== *)
-Q . S2P
Prelude.v
Text.v
OvpnConfig.v
Replay.v
Keys.v
DataCipher.v
Packet.v
Framing.v
Credentials.v
TlsChannel.v
Control.v
ControlDelivery.v
ControlTermination.v
ControlData.v
Sorting.v
Pool.v
RequestPath.v
Exit.v
Routing.v
Server.v
Upstream.v
Geo.v
Forward.v
Socks.v
VpnAccount.v
VpnProvider.v
VpnMod.v
VpnAccounts.v
Ossh.v
OsshStream.v
SshAccount.v
SshManager.v
SshSession.v
Provider.v
Build.v
Confined.v
Program.v
Served.v
Stack.v
StackRun.v
Tunnel.v
