(* ===== verification/Prelude.v ===== *)
(** * unroxy: a verification development of the proxy

    unroxy (src/src/, Rust) is a forward proxy. A client sends an absolute-form request, a request
    under a rewrite path such as /us/vpn/https://host/, or a CONNECT; the region and the protocol it
    names (in the path, or as the user name of its proxy credentials) choose a pool of tunnels; a
    tunnel is a pool of SSH sessions or an OpenVPN connection; the request leaves through one of
    them with the client's headers stripped. All of it is one process of cooperating tasks.

    ** The parts, and the file that models each

    - Prelude (this file): the result monad [res] ([Err] is a Rust error, [Panic] a panic, [NoFuel]
      the exhausted fuel of a loop), the state-and-error monad [SE], bytes and big-endian integers,
      wrapping arithmetic at 16, 32 and 64 bits, checked slices, the list facts used everywhere, the
      rewrite database [unroxy] for lengths and the tactics [len] and [case_cmp].
    - Text: Rust's [str] operations and the address parsers of core::net. Sorting: stable sorts,
      rotation, deduplication and the sorted association lists that stand for BTreeMap.
    - openvpn/: OvpnConfig (config.rs, error.rs); Replay (crypto/replay.rs); Keys (crypto/keys.rs);
      DataCipher (crypto/aes.rs); Packet (the wire formats of control.rs); Framing (framing.rs);
      Credentials and TlsChannel (tls.rs); Control (control.rs: the reliability layer, the key
      exchange, the data path, over a socket and a clock), with its properties in ControlDelivery,
      ControlTermination and ControlData; Tunnel (tunnel.rs); Stack and StackRun (stack.rs).
    - vpn/: VpnAccount (account.rs), VpnProvider (provider.rs: one account), VpnMod (mod.rs:
      attaching and supervising), VpnAccounts (all accounts: loading, the reaper, and an account
      among its users, the reaper and the supervisor).
    - ssh/: SshAccount (account.rs), SshManager (mod.rs: the sessions of a region), SshSession
      (session.rs), Ossh and OsshStream (ossh.rs), Socks (socks.rs and the bridge of
      vpn/provider.rs).
    - proxy/: Pool (pool.rs), Exit (exit.rs), RequestPath, Routing and Server (server.rs: its pure
      half, its tables, its handlers), Provider (provider.rs).
    - The way out: Upstream (upstream.rs, emulation.rs), Geo (geo.rs), Forward (forward.rs).
      Build (config.rs) sets it up.
    - The program: Confined labels every pool with whose exits it holds and shows that everything
      keeps to the labels; Program (main.rs) puts server, forwarder, transport and supervisor over
      one store and runs them on a list of events; Served follows an account from the supervisor to
      the answer of a request.

    A definition has the name of the Rust function or type it translates; a function that is split
    (a loop and its set-up, the halves around an await) has a name for each part with a comment that
    says which.

    ** How they interact

    Pools are shared objects: they live in a store ([gmap nat ProxyPool]) and are named by their
    place in it, so that a push through one handle is seen through every parent; Routing, Provider,
    VpnMod, Build, Server and Upstream all thread this store. A pool sees a tunnel through the
    interface [Pool.Tunnel], and a user of one relies on [Pool.TunnelLaws] (a ready tunnel has a
    connection and a proxy); Provider has the instances for the SSH manager, VpnAccounts those for a
    VPN account, and Pool that of the sum of two kinds. Server calls the route
    it selects through the forwarder that is a parameter there and is Forward; Forward calls
    Upstream, the exit cache and Geo; Program puts them together. Control calls Packet, Framing,
    TlsChannel, Keys, DataCipher and Replay; Tunnel calls Control and hands the result to Stack. Where tasks interleave
    (VpnProvider, VpnAccounts, SshManager, Stack, StackRun, TlsChannel) a component is a step
    function on its shared state and a list of events, one for each part of a task between two
    points at which others can run.

    Code that is not in the repository is a class of operations with a class of laws where the
    sources rely on any: AES, HMAC and hashes ([CryptoLib], [CryptoLaws]), the TLS engine
    ([TlsLib], [TlsLaws]), certificates ([BtlsLib]), smoltcp ([SmolTcp]), the lru crate ([LruLib],
    [LruLaws]), HTTP headers ([HeaderLib], [HeaderLaws]), the HTTP client ([HttpLib]) and JSON
    ([JsonLib]). Every class has a concrete instance, and theorems with hypotheses have a witness
    at a concrete input, named after the theorem.

    ** What is shown

    - The program. [Program.exits_as_named]: whatever happens, what is sent for a request leaves
      through exits of the region and protocol it names. [Program.program_answers]: every request
      gets a response and nothing panics. [Served.usable_account_serves]: an account whose bridge is
      ready serves its region after one round of the supervisor.
    - Tunnels. [ControlDelivery.control_reassembly]: the TLS stream is reassembled in order whatever
      the network does. [ControlData.data_delivery], [nonces_unique], [session_keys]: what is sent
      is received at most once and unchanged, no nonce repeats below 2^32 packets, and both
      directions are keyed from the exchanged secrets. [Replay.replay_refines]: the window is the
      set of ids it has seen. [Keys.prf_is_rfc]: key derivation is the PRF of RFC 2246.
      [DataCipher], [Framing] and [Packet]: round trips, authentication, and the exact inputs that
      panic. [ControlTermination]: every wait and loop ends by its deadline.
      [Tunnel.tunnel_connect_spec]: the whole set-up on every path. [Stack.stack_fifo] and
      [StackRun.stack_streams]: bytes in order and without loss, and every stream owned once.
    - Accounts. [VpnProvider.account_reachable], [reap_is_safe], [generation_names_bridge]: counts,
      ports and generations agree in every interleaving. [VpnMod.supervise_converges],
      [VpnAccounts.reaper_closes_idle] and [bridged_account_lost]: pools follow the bridges, idle
      accounts are closed in time, and an account used only through its bridge is lost.
      [SshManager.pool_bounded], [pool_fills], [generation_names_sessions], [dial_spec]: the size of
      a region's pool, that it fills, and what callers see. [OsshStream.write_wire], [read_wire]:
      what the obfuscation puts on the wire, and that the reader undoes it, for any fragmentation.
    - Requests. [RequestPath.parse_path_sound], [parse_path_complete]: which paths are accepted and
      as what. [Server.handle_plain], [handle_connect_spec]: the answer to every request.
      [Pool.candidates_complete], [rotation_is_fair], [pool_operations]; [Routing.add_region_spec];
      [Build.build_spec]: after start-up, who is reachable by which route.
      [Upstream.request_sends], [no_upstream_unsent], [Forward.forward_no_leak], [forward_response]:
      how often a request is sent, what an error says of it, that no header of the client's
      connection leaves, and what comes back.

    ** Fuel and bounds

    Loops that wait for the network recurse on fuel that is computed from the backlog of arrivals
    and the time left ([Control], [backlog]); [ControlTermination] proves it is enough. Loops over a
    buffer (chunks, frames, key-exchange packets, flushes) have the buffer's length as fuel, since
    each round that goes on takes a byte; [SshManager.PICK_LOOKS] is the ten seconds of looks that
    [pick_session] has. [Pool]'s search is bounded by the depth of the pool graph, which
    well-formedness bounds by a rank; in Program the labels give the bound 2. Results that could be
    [NoFuel] are shown not to be, except that of a CONNECT, which in the code, too, goes on looking
    while there are exits and none is ready.

    ** Not modelled

    The set-up of logging in main.rs, and the module files with re-exports only; memcheck.rs, testserver.rs and the test modules; the relay of bytes once two streams are
    joined (tokio's copy), hyper's HTTP/1 parser, logging. The release of large buffers in ossh.rs
    changes no byte. A task that is dropped in the middle of an await is modelled where the code
    does it (the cancelled read of Framing). Program runs each request to its answer: other tasks
    act on the pools while it waits, but do not use the client cache or the exit cache in between. Times are milliseconds on one clock that never runs
    backwards; the clock of [Instant] and that of [SystemTime] are not told apart. *)

(** * Bytes, integers, results and lists *)
From Stdlib Require Export ZArith Lia.
From Stdlib Require Import Strings.Byte Strings.String.
From stdpp Require Export base option list numbers gmap.

From Corelib Require Export Init.Byte.
Export Strings.String.StringSyntax.
Open Scope Z_scope.

(** * Results: Rust's [Result], plus the panic of an out-of-range access and the
    exhausted fuel of a loop (which the termination theorems exclude) *)

Inductive res (E A : Type) : Type :=
| Ok (a : A)
| Err (e : E)
| Panic
| NoFuel.
Arguments Ok {E A} a.
Arguments Err {E A} e.
Arguments Panic {E A}.
Arguments NoFuel {E A}.

#[export] Instance res_ret E : MRet (res E) := fun A a => Ok a.
#[export] Instance res_bind E : MBind (res E) := fun A B f c =>
  match c with Ok a => f a | Err e => Err e | Panic => Panic | NoFuel => NoFuel end.
#[export] Instance res_fmap E : FMap (res E) := fun A B f c =>
  match c with Ok a => Ok (f a) | Err e => Err e | Panic => Panic | NoFuel => NoFuel end.

(** * Stateful fallible code: the state survives an error, as in Rust *)

Definition SE (S E A : Type) : Type := S → res E A * S.

#[export] Instance se_ret S E : MRet (SE S E) := fun A a s => (Ok a, s).
#[export] Instance se_bind S E : MBind (SE S E) := fun A B f c s =>
  match c s with
  | (Ok a, s') => f a s'
  | (Err e, s') => (Err e, s')
  | (Panic, s') => (Panic, s')
  | (NoFuel, s') => (NoFuel, s')
  end.

Definition get_st {S E} : SE S E S := fun s => (Ok s, s).
Definition modify_st {S E} (f : S → S) : SE S E () := fun s => (Ok (), f s).
Definition lift_res {S E A} (r : res E A) : SE S E A := fun s => (r, s).
Definition fail_st {S E A} (e : E) : SE S E A := fun s => (Err e, s).

Lemma se_bind_ok {S E A B} (c : SE S E A) (f : A → SE S E B) s b s'' :
  (c ≫= f) s = (Ok b, s'') → ∃ a s', c s = (Ok a, s') ∧ f a s' = (Ok b, s'').
Proof.
  unfold mbind, se_bind. destruct (c s) as [[a|e| |] s'] eqn:Ec; [|discriminate..]. eauto.
Qed.

Lemma se_bind_eq {S E A B} (c : SE S E A) (f : A → SE S E B) s a s' : c s = (Ok a, s') → (c ≫= f) s = f a s'.
Proof. unfold mbind, se_bind. by intros ->. Qed.

Lemma res_bind_ok {E A B} (c : res E A) (f : A → res E B) (b : B) :
  c ≫= f = Ok b → ∃ a, c = Ok a ∧ f a = Ok b.
Proof. destruct c; simpl; [eauto|discriminate..]. Qed.

(** [std::task::Poll] *)
Inductive poll (A : Type) := Ready (a : A) | Pending.
Arguments Ready {A} a.
Arguments Pending {A}.

(** [Option::ok_or] *)
Definition ok_or {E A} (o : option A) (e : E) : res E A :=
  match o with Some a => Ok a | None => Err e end.

(** * Bytes *)

#[export] Instance byte_eq_dec : EqDecision byte := Byte.byte_eq_dec.

Definition b2z (b : byte) : Z := Z.of_N (Byte.to_N b).

(** [z as u8]: truncation to the low eight bits. *)
Definition u8 (z : Z) : byte := default x00 (Byte.of_N (Z.to_N (z mod 256))).

Lemma b2z_range b : 0 <= b2z b < 256.
Proof. unfold b2z. pose proof (Byte.to_N_bounded b). lia. Qed.

Lemma u8_b2z b : u8 (b2z b) = b.
Proof. destruct b; reflexivity. Qed.

Lemma b2z_u8 z : b2z (u8 z) = z mod 256.
Proof.
  unfold u8, b2z. pose proof (Z.mod_pos_bound z 256 eq_refl).
  destruct (Byte.of_N (Z.to_N (z mod 256))) as [b|] eqn:E.
  - apply Byte.to_of_N in E. simpl. rewrite E. lia.
  - apply Byte.of_N_None_iff in E. lia.
Qed.

#[export] Instance b2z_inj : Inj (=) (=) b2z.
Proof. intros x y H. rewrite <- (u8_b2z x), <- (u8_b2z y). congruence. Qed.

#[export] Program Instance byte_countable : Countable byte :=
  inj_countable Byte.to_N Byte.of_N _.
Next Obligation. intros b. apply Byte.of_to_N. Qed.

Definition byte_xor (a b : byte) : byte := u8 (Z.lxor (b2z a) (b2z b)).
Definition byte_or (a b : byte) : byte := u8 (Z.lor (b2z a) (b2z b)).

(** A byte operation on Z that stays within eight bits commutes with [u8]. *)
Lemma lxor_range a b n : 0 <= n → 0 <= a < 2 ^ n → 0 <= b < 2 ^ n → 0 <= Z.lxor a b < 2 ^ n.
Proof.
  intros Hn Ha Hb. split; [apply Z.lxor_nonneg; lia|].
  destruct (decide (Z.lxor a b = 0)) as [->|Hne]; [lia|].
  apply Z.log2_lt_pow2; [pose proof (Z.lxor_nonneg a b); lia|].
  assert (0 <= Z.lxor a b) by (apply Z.lxor_nonneg; lia).
  pose proof (Z.log2_lxor a b ltac:(lia) ltac:(lia)).
  assert (∀ x, 0 <= x < 2 ^ n → Z.log2 x < n ∨ x = 0).
  { intros x Hx. destruct (decide (x = 0)); [by right|left].
    apply Z.log2_lt_pow2; lia. }
  destruct (decide (n = 0)) as [->|]; [exfalso; change (2^0) with 1 in *;
    assert (a = 0) by lia; assert (b = 0) by lia; subst; done|].
  destruct (H1 a Ha) as [?| ->], (H1 b Hb) as [?| ->]; simpl in *; lia.
Qed.

Lemma b2z_byte_xor a b : b2z (byte_xor a b) = Z.lxor (b2z a) (b2z b).
Proof.
  unfold byte_xor. rewrite b2z_u8. apply Z.mod_small.
  apply (lxor_range _ _ 8); [lia|apply b2z_range..].
Qed.

Lemma byte_xor_cancel a k : byte_xor (byte_xor a k) k = a.
Proof.
  apply (inj b2z). rewrite !b2z_byte_xor, Z.lxor_assoc, Z.lxor_nilpotent.
  apply Z.lxor_0_r.
Qed.

Lemma byte_xor_eq0 a b : byte_xor a b = x00 ↔ a = b.
Proof.
  split.
  - intros H. apply (f_equal b2z) in H. rewrite b2z_byte_xor in H.
    change (b2z x00) with 0 in H. apply Z.lxor_eq in H. by apply (inj b2z).
  - intros ->. apply (inj b2z). rewrite b2z_byte_xor. apply Z.lxor_nilpotent.
Qed.

(** * String literals are their UTF-8 bytes, as in Rust *)

Abbreviation str := (list byte).
Definition Lit (s : String.string) : str := String.list_byte_of_string s.
Arguments Lit s%_string.

(** * Machine integers *)

Definition wrap32 (z : Z) : Z := z mod 2 ^ 32.
Definition wrap64 (z : Z) : Z := z mod 2 ^ 64.
Definition is_u32 (z : Z) : Prop := 0 <= z < 2 ^ 32.
Definition is_u16 (z : Z) : Prop := 0 <= z < 2 ^ 16.

Lemma wrap32_range z : is_u32 (wrap32 z).
Proof. apply Z.mod_pos_bound. lia. Qed.

(** [wrapping_add] on u32. *)
Definition wadd32 (a b : Z) : Z := wrap32 (a + b).

Lemma wadd32_small a b : 0 <= a → 0 <= b → a + b < 2 ^ 32 → wadd32 a b = a + b.
Proof. intros. unfold wadd32, wrap32. apply Z.mod_small. lia. Qed.

(** [n.saturating_sub(m)] and [usize] arithmetic use [nat], whose subtraction saturates. *)

(** * Big-endian integers *)

(** [uN::to_be_bytes] *)
Fixpoint be_bytes (n : nat) (z : Z) : list byte :=
  match n with
  | O => []
  | S n => u8 (Z.shiftr z (8 * Z.of_nat n)) :: be_bytes n z
  end.

(** [uN::from_be_bytes] *)
Definition from_be (l : list byte) : Z := foldl (fun acc b => acc * 256 + b2z b) 0 l.

Abbreviation be16 := (be_bytes 2).
Abbreviation be32 := (be_bytes 4).

Lemma be_bytes_length n z : length (be_bytes n z) = n.
Proof. induction n; simpl; congruence. Qed.

Lemma from_be_acc l a :
  foldl (fun acc b => acc * 256 + b2z b) a l = a * 256 ^ Z.of_nat (length l) + from_be l.
Proof.
  unfold from_be. revert a. induction l as [|b l IH]; intros a; cbn [foldl length].
  - rewrite Z.pow_0_r. lia.
  - rewrite IH, (IH (0 * 256 + b2z b)). rewrite Nat2Z.inj_succ, Z.pow_succ_r by lia. ring.
Qed.

Lemma from_be_cons b l : from_be (b :: l) = b2z b * 256 ^ Z.of_nat (length l) + from_be l.
Proof. unfold from_be at 1. cbn [foldl]. rewrite from_be_acc. ring. Qed.

Lemma from_be_range l : 0 <= from_be l < 256 ^ Z.of_nat (length l).
Proof.
  induction l as [|b l IH]; [unfold from_be; simpl; lia|].
  rewrite from_be_cons. simpl length. rewrite Nat2Z.inj_succ, Z.pow_succ_r by lia.
  pose proof (b2z_range b). nia.
Qed.

Lemma from_be_be_bytes n z : from_be (be_bytes n z) = z mod 256 ^ Z.of_nat n.
Proof.
  induction n as [|n IH]; [by rewrite Z.mod_1_r|].
  simpl be_bytes. rewrite from_be_cons, be_bytes_length, IH, b2z_u8.
  rewrite Nat2Z.inj_succ, Z.pow_succ_r by lia.
  rewrite Z.shiftr_div_pow2 by lia.
  replace (2 ^ (8 * Z.of_nat n)) with (256 ^ Z.of_nat n)
    by (change 256 with (2 ^ 8); rewrite <- Z.pow_mul_r; [done|lia..]).
  rewrite (Z.mul_comm 256), Z.rem_mul_r by lia. lia.
Qed.

Lemma from_be_be_bytes_small n z : 0 <= z < 256 ^ Z.of_nat n → from_be (be_bytes n z) = z.
Proof. intros H. rewrite from_be_be_bytes. by apply Z.mod_small. Qed.

Lemma from_be32 z : is_u32 z → from_be (be32 z) = z.
Proof. intros H. apply from_be_be_bytes_small. unfold is_u32 in H. simpl. lia. Qed.

Lemma from_be16 z : is_u16 z → from_be (be16 z) = z.
Proof. intros H. apply from_be_be_bytes_small. unfold is_u16 in H. simpl. lia. Qed.

Lemma be_bytes_inj n a b :
  0 <= a < 256 ^ Z.of_nat n → 0 <= b < 256 ^ Z.of_nat n → be_bytes n a = be_bytes n b → a = b.
Proof.
  intros Ha Hb H. apply (f_equal from_be) in H.
  by rewrite !from_be_be_bytes_small in H.
Qed.

Lemma be_bytes_from_be l : be_bytes (length l) (from_be l) = l.
Proof.
  assert (∀ n z, be_bytes n (z mod 256 ^ Z.of_nat n) = be_bytes n z) as Hmod.
  { intros n. induction n as [|n IH]; intros z; [done|].
    simpl be_bytes. f_equal.
    - apply (inj b2z). rewrite !b2z_u8, !Z.shiftr_div_pow2 by lia.
      replace (2 ^ (8 * Z.of_nat n)) with (256 ^ Z.of_nat n)
        by (change 256 with (2 ^ 8); rewrite <- Z.pow_mul_r; [done|lia..]).
      rewrite Nat2Z.inj_succ, Z.pow_succ_r, Z.mul_comm, Z.rem_mul_r by lia.
      rewrite Z.mul_comm, Z.div_add by lia.
      rewrite (Z.div_small (z mod _)) by (apply Z.mod_pos_bound; lia).
      by rewrite Z.add_0_l, Z.mod_mod by lia.
    - rewrite <- IH. rewrite <- (IH z). f_equal.
      rewrite Nat2Z.inj_succ, Z.pow_succ_r, (Z.mul_comm 256), Z.rem_mul_r by lia.
      rewrite Z.mul_comm, Z.mod_add by lia. by rewrite Z.mod_mod by lia. }
  induction l as [|b l IH]; [done|].
  pose proof (from_be_range l). pose proof (b2z_range b).
  simpl length. simpl be_bytes. rewrite from_be_cons. f_equal.
  - rewrite Z.shiftr_div_pow2 by lia.
    replace (2 ^ (8 * Z.of_nat (length l))) with (256 ^ Z.of_nat (length l))
      by (change 256 with (2 ^ 8); rewrite <- Z.pow_mul_r; [done|lia..]).
    rewrite Z.add_comm, Z.div_add by lia. rewrite Z.div_small by lia.
    apply u8_b2z.
  - rewrite <- (Hmod (length l)), Z.add_comm, Z.mod_add by lia.
    rewrite Z.mod_small by lia. exact IH.
Qed.

Lemma take_be_bytes n z l : take n (be_bytes n z ++ l) = be_bytes n z.
Proof. rewrite <- (be_bytes_length n z) at 1. apply take_app_length. Qed.
Lemma drop_be_bytes n z l : drop n (be_bytes n z ++ l) = l.
Proof. rewrite <- (be_bytes_length n z) at 1. apply drop_app_length. Qed.

(** Kept folded in goals: the lemmas above are their interface. *)
#[global] Opaque be_bytes from_be.

(** * Slices: [&l[a..b]] and [&l[a..]] panic out of range *)

Definition slice {E A} (a b : nat) (l : list A) : res E (list A) :=
  if (a <=? b)%nat && (b <=? length l)%nat then Ok (take (b - a) (drop a l)) else Panic.
Definition slice_from {E A} (a : nat) (l : list A) : res E (list A) :=
  if (a <=? length l)%nat then Ok (drop a l) else Panic.
Definition slice_to {E A} (b : nat) (l : list A) : res E (list A) := slice 0 b l.

Lemma slice_ok {E A} a b (l : list A) :
  (a <= b <= length l)%nat → slice (E:=E) a b l = Ok (take (b - a) (drop a l)).
Proof.
  intros [H1 H2]. unfold slice. by rewrite (proj2 (Nat.leb_le _ _) H1), (proj2 (Nat.leb_le _ _) H2).
Qed.

Lemma slice_to_ok {E A} b (l : list A) :
  (b <= length l)%nat → slice_to (E:=E) b l = Ok (take b l).
Proof. intros H. unfold slice_to. rewrite slice_ok by lia. by rewrite Nat.sub_0_r. Qed.

Lemma slice_from_ok {E A} a (l : list A) :
  (a <= length l)%nat → slice_from (E:=E) a l = Ok (drop a l).
Proof. intros H. unfold slice_from. by rewrite (proj2 (Nat.leb_le _ _) H). Qed.

Lemma slice_Ok {E A} a b (l x : list A) :
  slice (E:=E) a b l = Ok x → x = take (b - a) (drop a l) ∧ (a <= b <= length l)%nat.
Proof.
  unfold slice. destruct (Nat.leb_spec a b), (Nat.leb_spec b (length l)); simpl; try done.
  intros [= <-]. lia || done.
Qed.

Lemma slice_to_Ok {E A} b (l x : list A) :
  slice_to (E:=E) b l = Ok x → x = take b l ∧ (b <= length l)%nat.
Proof. intros [-> ?]%slice_Ok. rewrite Nat.sub_0_r. split; [done|lia]. Qed.

(** [copy_from_slice] of a shorter source into the front of a zeroed array. *)
Definition pad_zero (n : nat) (l : list byte) : list byte := take n (l ++ replicate n x00).

Lemma pad_zero_length n l : length (pad_zero n l) = n.
Proof. unfold pad_zero. rewrite length_take, length_app, length_replicate. lia. Qed.

(** * Shared automation *)

Create HintDb unroxy.
Create Rewrite HintDb unroxy.
#[export] Hint Rewrite @length_app @length_take @length_drop @length_map @length_fmap
  @length_replicate be_bytes_length pad_zero_length : unroxy.

(** Arithmetic on list lengths. *)
Ltac len := autorewrite with unroxy in *; simpl in *; lia.

(** Case analysis on the boolean comparisons of the code. *)
Ltac case_cmp :=
  match goal with
  | |- context [(?a <=? ?b)%nat] => destruct (Nat.leb_spec a b)
  | |- context [(?a <? ?b)%nat] => destruct (Nat.ltb_spec a b)
  | |- context [(?a =? ?b)%nat] => destruct (Nat.eqb_spec a b)
  | |- context [?a <=? ?b] => destruct (Z.leb_spec a b)
  | |- context [?a <? ?b] => destruct (Z.ltb_spec a b)
  | |- context [?a =? ?b] => destruct (Z.eqb_spec a b)
  end.

(** A sublist of an image is the image of a sublist. *)
Lemma sublist_fmap_inv {A B} (f : A → B) k l : sublist l (f <$> k) → ∃ k', l = f <$> k' ∧ sublist k' k.
Proof.
  revert l. induction k as [|x k IH]; intros l; simpl.
  - intros H%sublist_nil_r. exists []. by subst.
  - intros [H|(l' & -> & H)]%sublist_cons_r.
    + destruct (IH _ H) as (k' & -> & Hk). exists k'. split; [done|by apply sublist_cons].
    + destruct (IH _ H) as (k' & -> & Hk). exists (x :: k'). split; [done|by apply sublist_skip].
Qed.

(** * Loops over a list with a state *)

(** [for x in l { acc = f(acc, x)?; }] *)
Fixpoint fold_m {S E A B} (f : A → B → SE S E A) (a : A) (l : list B) : SE S E A :=
  match l with
  | [] => mret a
  | b :: l => a ← f a b; fold_m f a l
  end.
