(* ===== verification/Text.v ===== *)
(** Rust's [str] operations on UTF-8 bytes: ASCII case, trimming, splitting,
    integer parsing and printing, lossy UTF-8 decoding and the address parsers
    of [core::net] the sources rely on. *)
From S2P Require Import Prelude.

(** * Prefixes *)

Definition starts_with (p l : str) : bool := bool_decide (take (length p) l = p).
Definition ends_with (p l : str) : bool :=
  bool_decide (drop (length l - length p) l = p).
Definition strip_prefix (p l : str) : option str :=
  if starts_with p l then Some (drop (length p) l) else None.

Lemma starts_with_app p l : starts_with p (p ++ l) = true.
Proof. apply bool_decide_eq_true. by rewrite take_app_length. Qed.

Lemma starts_with_true p l : starts_with p l = true ↔ ∃ r, l = p ++ r.
Proof.
  unfold starts_with. rewrite bool_decide_eq_true. split.
  - intros H. exists (drop (length p) l). rewrite <- H at 1. by rewrite take_drop.
  - intros [r ->]. by rewrite take_app_length.
Qed.

Lemma strip_prefix_Some p l r : strip_prefix p l = Some r ↔ l = p ++ r.
Proof.
  unfold strip_prefix. destruct (starts_with p l) eqn:E.
  - apply starts_with_true in E as [r' ->]. rewrite drop_app_length.
    split; [naive_solver|]. intros H. apply app_inv_head in H. by subst.
  - split; [done|]. intros ->. by rewrite starts_with_app in E.
Qed.

Lemma strip_prefix_app p r : strip_prefix p (p ++ r) = Some r.
Proof. by apply strip_prefix_Some. Qed.

(** * ASCII case *)

Definition is_upper (b : byte) : bool := (65 <=? b2z b) && (b2z b <=? 90).
Definition is_lower (b : byte) : bool := (97 <=? b2z b) && (b2z b <=? 122).
Definition is_digit (b : byte) : bool := (48 <=? b2z b) && (b2z b <=? 57).
Definition is_alnum (b : byte) : bool := is_upper b || is_lower b || is_digit b.
Definition upper (b : byte) : byte := if is_lower b then u8 (b2z b - 32) else b.
Definition lower (b : byte) : byte := if is_upper b then u8 (b2z b + 32) else b.
Definition to_ascii_uppercase (l : str) : str := map upper l.
Definition to_ascii_lowercase (l : str) : str := map lower l.
Definition eq_ignore_ascii_case (a b : str) : bool :=
  bool_decide (to_ascii_lowercase a = to_ascii_lowercase b).

Lemma upper_idemp b : upper (upper b) = upper b.
Proof. by destruct b. Qed.
Lemma upper_lower b : upper (lower b) = upper b.
Proof. by destruct b. Qed.
Lemma lower_idemp b : lower (lower b) = lower b.
Proof. by destruct b. Qed.
Lemma lower_upper b : lower (upper b) = lower b.
Proof. by destruct b. Qed.

Lemma eq_ignore_case_upper a b :
  eq_ignore_ascii_case a b = true ↔ to_ascii_uppercase a = to_ascii_uppercase b.
Proof.
  unfold eq_ignore_ascii_case, to_ascii_lowercase, to_ascii_uppercase.
  rewrite bool_decide_eq_true. split; intros H.
  - apply (f_equal (map upper)) in H. rewrite !map_map in H.
    by rewrite !(map_ext _ _ upper_lower) in H.
  - apply (f_equal (map lower)) in H. rewrite !map_map in H.
    by rewrite !(map_ext _ _ lower_upper) in H.
Qed.

Lemma eq_ignore_case_refl a : eq_ignore_ascii_case a a = true.
Proof. by apply bool_decide_eq_true. Qed.
Lemma eq_ignore_case_sym a b : eq_ignore_ascii_case a b = eq_ignore_ascii_case b a.
Proof. apply bool_decide_ext. split; congruence. Qed.
Lemma eq_ignore_case_trans a b c :
  eq_ignore_ascii_case a b = true → eq_ignore_ascii_case b c = true →
  eq_ignore_ascii_case a c = true.
Proof. unfold eq_ignore_ascii_case. rewrite !bool_decide_eq_true. congruence. Qed.

(** * Trimming: [char::is_whitespace] as its UTF-8 encodings *)

Definition ws_encodings : list str :=
  [[x09]; [x0a]; [x0b]; [x0c]; [x0d]; [x20]; [xc2; x85]; [xc2; xa0]; [xe1; x9a; x80];
   [xe2; x80; x80]; [xe2; x80; x81]; [xe2; x80; x82]; [xe2; x80; x83]; [xe2; x80; x84];
   [xe2; x80; x85]; [xe2; x80; x86]; [xe2; x80; x87]; [xe2; x80; x88]; [xe2; x80; x89];
   [xe2; x80; x8a]; [xe2; x80; xa8]; [xe2; x80; xa9]; [xe2; x80; xaf]; [xe2; x81; x9f];
   [xe3; x80; x80]].

Fixpoint strip_any (encs : list str) (l : str) : option str :=
  match encs with
  | [] => None
  | e :: encs => match strip_prefix e l with Some r => Some r | None => strip_any encs l end
  end.

Fixpoint trim_fuel (n : nat) (encs : list str) (l : str) : str :=
  match n with
  | O => l
  | S n => match strip_any encs l with Some r => trim_fuel n encs r | None => l end
  end.

Definition trim_start (l : str) : str := trim_fuel (length l) ws_encodings l.
Definition trim_end (l : str) : str :=
  reverse (trim_fuel (length l) (reverse <$> ws_encodings) (reverse l)).
Definition trim (l : str) : str := trim_end (trim_start l).

(** [split_whitespace] *)
Fixpoint split_ws_fuel (n : nat) (cur l : str) : list str :=
  match n with
  | O => [reverse cur]
  | S n => match l with
           | [] => [reverse cur]
           | b :: r => match strip_any ws_encodings l with
                       | Some r' => reverse cur :: split_ws_fuel n [] r'
                       | None => split_ws_fuel n (b :: cur) r
                       end
           end
  end.
Definition split_whitespace (l : str) : list str :=
  filter (fun p => p ≠ []) (split_ws_fuel (S (length l)) [] l).

(** [trim_start_matches(c)] and [trim_matches([c, d])] *)
Fixpoint drop_while (f : byte → bool) (l : str) : str :=
  match l with [] => [] | b :: r => if f b then drop_while f r else l end.
Definition trim_start_matches (c : byte) (l : str) : str :=
  drop_while (fun b => bool_decide (b = c)) l.
Definition trim_matches (f : byte → bool) (l : str) : str :=
  reverse (drop_while f (reverse (drop_while f l))).

(** * Splitting at a separator *)

Fixpoint split_on (c : byte) (l : str) : list str :=
  match l with
  | [] => [[]]
  | b :: r => if decide (b = c) then [] :: split_on c r
              else match split_on c r with
                   | p :: ps => (b :: p) :: ps
                   | [] => [[b]]
                   end
  end.

Fixpoint split_once (c : byte) (l : str) : option (str * str) :=
  match l with
  | [] => None
  | b :: r => if decide (b = c) then Some ([], r)
              else match split_once c r with
                   | Some (p, q) => Some (b :: p, q)
                   | None => None
                   end
  end.

Definition rsplit_once (c : byte) (l : str) : option (str * str) :=
  match split_once c (reverse l) with
  | Some (q, p) => Some (reverse p, reverse q)
  | None => None
  end.

(** [l.rsplit(c).next()]: what follows the last separator. *)
Definition rsplit_first (c : byte) (l : str) : str :=
  match rsplit_once c l with Some (_, q) => q | None => l end.

Lemma split_once_app c p q : c ∉ p → split_once c (p ++ c :: q) = Some (p, q).
Proof.
  induction p as [|b p IH]; intros Hp; simpl.
  - by rewrite decide_True.
  - apply not_elem_of_cons in Hp as [Hb Hp]. rewrite decide_False by done. by rewrite IH.
Qed.

Lemma split_once_None c l : c ∉ l ↔ split_once c l = None.
Proof.
  induction l as [|b l IH]; simpl; [split; [done|intros _; apply not_elem_of_nil]|].
  rewrite not_elem_of_cons. destruct (decide (b = c)) as [->|Hne]; [naive_solver|].
  destruct (split_once c l) as [[]|]; naive_solver.
Qed.

Lemma split_once_Some c l p q : split_once c l = Some (p, q) → l = p ++ c :: q ∧ c ∉ p.
Proof.
  revert p q. induction l as [|b l IH]; intros p q; simpl; [done|].
  destruct (decide (b = c)) as [->|Hne].
  - intros [= <- <-]. split; [done|]. apply not_elem_of_nil.
  - destruct (split_once c l) as [[p' q']|]; [|done]. intros [= <- <-].
    destruct (IH p' q' eq_refl) as [-> Hp]. split; [done|].
    by apply not_elem_of_cons.
Qed.

Lemma rsplit_once_app c p q : c ∉ q → rsplit_once c (p ++ c :: q) = Some (p, q).
Proof.
  intros Hq. unfold rsplit_once. rewrite reverse_app, reverse_cons, <- app_assoc. simpl.
  rewrite split_once_app by (by rewrite elem_of_reverse). by rewrite !reverse_involutive.
Qed.

Lemma rsplit_once_None c l : c ∉ l → rsplit_once c l = None.
Proof.
  intros H. unfold rsplit_once.
  assert (split_once c (reverse l) = None) as ->; [|done].
  apply split_once_None. by rewrite elem_of_reverse.
Qed.

Lemma rsplit_once_Some c l p q : rsplit_once c l = Some (p, q) → l = p ++ c :: q ∧ c ∉ q.
Proof.
  unfold rsplit_once. destruct (split_once c (reverse l)) as [[q' p']|] eqn:E; [|done].
  intros [= <- <-]. apply split_once_Some in E as [E Hq].
  split; [|by rewrite elem_of_reverse].
  apply (f_equal reverse) in E. rewrite reverse_involutive, reverse_app, reverse_cons in E.
  by rewrite <- app_assoc in E.
Qed.

Lemma split_on_nonempty c l : split_on c l ≠ [].
Proof. destruct l; simpl; [done|]. case_decide; [done|]. by destruct (split_on c l). Qed.

Lemma split_on_no_sep c l : c ∉ l → split_on c l = [l].
Proof.
  induction l as [|b l IH]; intros H; [done|]. apply not_elem_of_cons in H as [? ?].
  simpl. rewrite decide_False by done. by rewrite IH.
Qed.

Lemma split_on_app c p q : c ∉ p → split_on c (p ++ c :: q) = p :: split_on c q.
Proof.
  induction p as [|b p IH]; intros H; simpl.
  - by rewrite decide_True.
  - apply not_elem_of_cons in H as [? ?]. rewrite decide_False by done. by rewrite IH.
Qed.

(** * Decimal integers *)

Definition digit_val (b : byte) : option Z :=
  if is_digit b then Some (b2z b - 48) else None.

Fixpoint parse_digits (max acc : Z) (l : str) : option Z :=
  match l with
  | [] => Some acc
  | b :: r => match digit_val b with
              | None => None
              | Some d => let a := acc * 10 + d in
                          if a <=? max then parse_digits max a r else None
              end
  end.

(** [str::parse::<uN>()]: an optional leading plus sign, at least one digit, no overflow. *)
Definition parse_uint (max : Z) (l : str) : option Z :=
  let digits := match l with
                | b :: r => if decide (b = "+"%byte) then r else l
                | [] => []
                end in
  match digits with [] => None | _ => parse_digits max 0 digits end.

Definition parse_u16 := parse_uint (2 ^ 16 - 1).
Definition parse_u32 := parse_uint (2 ^ 32 - 1).

Fixpoint show_fuel (n : nat) (z : Z) (acc : str) : str :=
  match n with
  | O => acc
  | S n => let acc := u8 (48 + z mod 10) :: acc in
           if z <? 10 then acc else show_fuel n (z / 10) acc
  end.
(** [format!("{}")] of an unsigned integer below 10^20 (every u64). *)
Definition show_uint (z : Z) : str := show_fuel 20 z [].

Lemma digit_val_show d : 0 <= d < 10 → digit_val (u8 (48 + d)) = Some d.
Proof.
  intros H. unfold digit_val, is_digit. rewrite b2z_u8, Z.mod_small by lia.
  rewrite !(proj2 (Z.leb_le _ _)) by lia. simpl. f_equal. lia.
Qed.

Lemma parse_digits_app max acc l1 l2 :
  parse_digits max acc (l1 ++ l2) = parse_digits max acc l1 ≫= fun a => parse_digits max a l2.
Proof.
  revert acc. induction l1 as [|b l1 IH]; intros acc; simpl; [done|].
  destruct (digit_val b); [|done]. case_match; [apply IH|done].
Qed.

Lemma show_fuel_spec n z acc :
  0 <= z < 10 ^ Z.of_nat n → (0 < n)%nat →
  ∃ ds, show_fuel n z acc = ds ++ acc ∧ ds ≠ [] ∧ Forall (fun b => is_digit b = true) ds ∧
        ∀ max, z <= max → parse_digits max 0 ds = Some z.
Proof.
  revert z acc. induction n as [|n IH]; intros z acc Hz Hn; [lia|]. simpl.
  rewrite Nat2Z.inj_succ, Z.pow_succ_r in Hz by lia.
  pose proof (Z.mod_pos_bound z 10 eq_refl) as Hm.
  assert (is_digit (u8 (48 + z mod 10)) = true) as Hdig.
  { unfold is_digit. rewrite b2z_u8, Z.mod_small by lia. apply andb_true_intro; split; lia. }
  destruct (Z.ltb_spec z 10).
  - exists [u8 (48 + z mod 10)]. repeat split; [done|by constructor|].
    intros max Hmax. cbn [parse_digits]. rewrite digit_val_show by lia.
    rewrite Z.mod_small by lia. cbv zeta. rewrite Z.mul_0_l, Z.add_0_l.
    by rewrite (proj2 (Z.leb_le _ _)).
  - assert (0 < n)%nat as Hn'. { destruct n; [|lia]. change (10 ^ Z.of_nat 0) with 1 in Hz. lia. }
    destruct (IH (z / 10) (u8 (48 + z mod 10) :: acc)) as (ds & Heq & Hne & Hall & Hp).
    { split; [apply Z.div_pos; lia|]. apply Z.div_lt_upper_bound; lia. }
    { done. }
    exists (ds ++ [u8 (48 + z mod 10)]). rewrite Heq, <- app_assoc.
    repeat split; [by destruct ds|apply Forall_app; split; [done|by constructor]|].
    intros max Hmax. rewrite parse_digits_app, Hp by (pose proof (Z.div_le_upper_bound z 10 max); nia).
    cbn [mbind option_bind parse_digits]. rewrite digit_val_show by lia. cbv zeta.
    rewrite Z.mul_comm, <- Z.div_mod by lia. by rewrite (proj2 (Z.leb_le _ _)).
Qed.

Lemma show_uint_digits z : 0 <= z < 10 ^ 20 →
  show_uint z ≠ [] ∧ Forall (fun b => is_digit b = true) (show_uint z).
Proof.
  intros H. destruct (show_fuel_spec 20 z [] H ltac:(lia)) as (ds & Heq & Hne & Hall & _).
  unfold show_uint. rewrite Heq, app_nil_r. done.
Qed.

Lemma parse_show_uint max z : 0 <= z <= max → max < 10 ^ 20 → parse_uint max (show_uint z) = Some z.
Proof.
  intros Hz Hmax.
  destruct (show_fuel_spec 20 z []) as (ds & Heq & Hne & Hall & Hp); [split; lia|lia|].
  unfold show_uint, parse_uint. rewrite Heq, app_nil_r.
  destruct ds as [|b ds]; [done|]. rewrite decide_False; [apply Hp; lia|].
  intros ->. by apply Forall_inv in Hall.
Qed.

(** * [String::from_utf8_lossy] *)

Definition in_range (lo hi : Z) (b : option byte) : bool :=
  match b with Some b => (lo <=? b2z b) && (b2z b <=? hi) | None => false end.
Definition replacement : str := [xef; xbf; xbd].

(** One chunk: the bytes emitted and how many input bytes it consumes (the
    maximal-subpart rule of [core::str::Utf8Chunks]). *)
Definition utf8_step (b : byte) (r : str) : str * nat :=
  let z := b2z b in
  let n1 := r !! 0%nat in let n2 := r !! 1%nat in let n3 := r !! 2%nat in
  let cont := in_range 128 191 in
  if z <? 128 then ([b], 1%nat)
  else if (194 <=? z) && (z <=? 223) then
    if cont n1 then (b :: take 1 r, 2%nat) else (replacement, 1%nat)
  else if (224 <=? z) && (z <=? 239) then
    let ok := in_range (if z =? 224 then 160 else 128) (if z =? 237 then 159 else 191) n1 in
    if negb ok then (replacement, 1%nat)
    else if cont n2 then (b :: take 2 r, 3%nat) else (replacement, 2%nat)
  else if (240 <=? z) && (z <=? 244) then
    let ok := in_range (if z =? 240 then 144 else 128) (if z =? 244 then 143 else 191) n1 in
    if negb ok then (replacement, 1%nat)
    else if negb (cont n2) then (replacement, 2%nat)
    else if cont n3 then (b :: take 3 r, 4%nat) else (replacement, 3%nat)
  else (replacement, 1%nat).

Fixpoint utf8_lossy_fuel (n : nat) (l : list byte) : str :=
  match n, l with
  | S n, b :: r => let '(out, k) := utf8_step b r in
                   out ++ utf8_lossy_fuel n (drop k l)
  | _, _ => []
  end.
Definition from_utf8_lossy (l : list byte) : str := utf8_lossy_fuel (length l) l.

Lemma from_utf8_lossy_ascii l : Forall (fun b => b2z b < 128) l → from_utf8_lossy l = l.
Proof.
  unfold from_utf8_lossy. induction 1 as [|b l Hb _ IH]; [done|].
  simpl. unfold utf8_step. rewrite (proj2 (Z.ltb_lt _ _)) by done. simpl.
  unfold drop. by rewrite IH.
Qed.

(** * Address parsers of [core::net] *)

Fixpoint span_digits (val : byte → option Z) (l : str) : list Z * str :=
  match l with
  | [] => ([], [])
  | b :: r => match val b with
              | Some d => let '(ds, r') := span_digits val r in (d :: ds, r')
              | None => ([], l)
              end
  end.

Definition hex_val (b : byte) : option Z :=
  if is_digit b then Some (b2z b - 48)
  else if (97 <=? b2z b) && (b2z b <=? 102) then Some (b2z b - 87)
  else if (65 <=? b2z b) && (b2z b <=? 70) then Some (b2z b - 55)
  else None.

(** [Parser::read_number(radix, Some(max_digits), allow_zero_prefix)] into an integer
    bounded by [max]. *)
Definition read_number (radix : Z) (max_digits : nat) (allow_zero : bool) (max : Z) (l : str)
    : option (Z * str) :=
  let val := if radix =? 10 then digit_val else hex_val in
  let '(ds, r) := span_digits val l in
  let v := foldl (fun acc d => acc * radix + d) 0 ds in
  if (max_digits <? length ds)%nat then None
  else if (length ds =? 0)%nat then None
  else if negb allow_zero && bool_decide (hd_error l = Some "0"%byte) && (1 <? length ds)%nat
  then None
  else if v <=? max then Some (v, r) else None.

Definition read_char (c : byte) (l : str) : option str :=
  match l with b :: r => if decide (b = c) then Some r else None | [] => None end.

(** [read_separator(sep, index, inner)]: the separator is expected before every group but the first. *)
Definition read_separator {A} (sep : byte) (i : nat) (inner : str → option (A * str)) (l : str)
    : option (A * str) :=
  match i with
  | O => inner l
  | S _ => read_char sep l ≫= inner
  end.

Definition read_ipv4 (l : str) : option ((Z * Z * Z * Z) * str) :=
  let octet i := read_separator "."%byte i (read_number 10 3 false 255) in
  '(a, l) ← octet 0%nat l; '(b, l) ← octet 1%nat l;
  '(c, l) ← octet 2%nat l; '(d, l) ← octet 3%nat l;
  Some ((a, b, c, d), l).

(** [read_groups]: up to [limit] 16-bit groups, the last two possibly an embedded IPv4 address. *)
Fixpoint read_groups (fuel limit i : nat) (l : str) : list Z * bool * str :=
  match fuel with
  | O => ([], false, l)
  | S fuel =>
      let v4 := if (i <? limit - 1)%nat then read_separator ":"%byte i read_ipv4 l else None in
      match v4 with
      | Some ((a, b, c, d), r) => ([a * 256 + b; c * 256 + d], true, r)
      | None => match read_separator ":"%byte i (read_number 16 4 true 65535) l with
                | Some (g, r) => let '(gs, v4, r) := read_groups fuel limit (S i) r in (g :: gs, v4, r)
                | None => ([], false, l)
                end
      end
  end.

(** [read_ipv6_addr]: the eight groups and the unread input. *)
Definition read_ipv6 (l : str) : option (list Z * str) :=
  let '(head, v4, r) := read_groups 8 8 0 l in
  if (length head =? 8)%nat then Some (head, r)
  else if v4 then None
  else r ← read_char ":"%byte r; r ← read_char ":"%byte r;
       let limit := (8 - (length head + 1))%nat in
       let '(tail, _, r) := read_groups limit limit 0 r in
       Some (head ++ replicate (8 - length head - length tail) 0 ++ tail, r).

Definition parse_ipv4 (l : str) : option (Z * Z * Z * Z) :=
  if (15 <? length l)%nat then None
  else match read_ipv4 l with Some (a, []) => Some a | _ => None end.

(** [IpAddr]: an IPv6 address as its eight groups *)
Inductive IpAddr := Ipv4 (a : Z * Z * Z * Z) | Ipv6 (groups : list Z).
(** [l.parse::<IpAddr>()] *)
Definition parse_ip_addr (l : str) : option IpAddr :=
  match read_ipv4 l with
  | Some (a, r) => if bool_decide (r = []) then Some (Ipv4 a) else None
  | None => '(gs, r) ← read_ipv6 l; if bool_decide (r = []) then Some (Ipv6 gs) else None
  end.
Definition is_ip_addr (l : str) : bool := match parse_ip_addr l with Some _ => true | None => false end.

Example ipv4_ok : parse_ipv4 (Lit "10.8.0.6") = Some (10, 8, 0, 6).
Proof. reflexivity. Qed.
Example ipv4_leading_zero : parse_ipv4 (Lit "10.08.0.6") = None.
Proof. reflexivity. Qed.
Example ipv6_forms : map is_ip_addr
  [Lit "::1"; Lit "fe80::1:2"; Lit "1:2:3:4:5:6:7:8"; Lit "::ffff:1.2.3.4"; Lit "1::2::3"; Lit "1.2.3"]
  = [true; true; true; true; false; false].
Proof. vm_compute. reflexivity. Qed.
Example ipv6_values : parse_ip_addr <$> [Lit "::1"; Lit "2001:db8::2a"; Lit "::ffff:10.0.0.1"; Lit "10.8.0.6"]
  = [Some (Ipv6 [0; 0; 0; 0; 0; 0; 0; 1]); Some (Ipv6 [8193; 3512; 0; 0; 0; 0; 0; 42]);
     Some (Ipv6 [0; 0; 0; 0; 0; 65535; 2560; 1]); Some (Ipv4 (10, 8, 0, 6))].
Proof. vm_compute. reflexivity. Qed.
Example trim_examples : trim (Lit "  AES ") = Lit "AES" ∧ split_whitespace (Lit " a  bc d") = [Lit "a"; Lit "bc"; Lit "d"].
Proof. vm_compute. done. Qed.

(** * Trimming leaves text that starts and ends in visible ASCII alone *)

Definition graphic (b : byte) : bool := (33 <=? b2z b) && (b2z b <=? 126).

Lemma strip_any_cons_None encs b l :
  Forall (fun e => match e with c :: _ => c ≠ b | [] => False end) encs →
  strip_any encs (b :: l) = None.
Proof.
  induction 1 as [|e encs He _ IH]; simpl; [done|].
  destruct e as [|c e]; [done|]. unfold strip_prefix, starts_with. simpl.
  rewrite bool_decide_eq_false_2; [done|]. intros [= Hc _]. congruence.
Qed.

Lemma ws_not_graphic b : graphic b = true →
  Forall (fun e => match e with c :: _ => c ≠ b | [] => False end) ws_encodings ∧
  Forall (fun e => match e with c :: _ => c ≠ b | [] => False end) (reverse <$> ws_encodings).
Proof. intros H. split; repeat constructor; intros <-; discriminate H. Qed.

Lemma trim_fuel_stop n encs b l :
  Forall (fun e => match e with c :: _ => c ≠ b | [] => False end) encs →
  trim_fuel n encs (b :: l) = b :: l.
Proof. intros H. destruct n; simpl; [done|]. by rewrite strip_any_cons_None. Qed.

Lemma trim_graphic_ends l b c r :
  l = b :: r ∨ l = [] → graphic b = true → last l = Some c ∨ l = [] → graphic c = true →
  trim l = l.
Proof.
  intros [-> | ->] Hb Hc Hgc; [|reflexivity].
  unfold trim, trim_start. rewrite trim_fuel_stop by (by apply ws_not_graphic).
  destruct Hc as [Hc|]; [|done]. apply last_Some in Hc as [l' Hl'].
  unfold trim_end. rewrite Hl', reverse_app. simpl.
  rewrite trim_fuel_stop by (by apply ws_not_graphic).
  change ([c] ++ reverse l') with (c :: reverse l'). by rewrite reverse_cons, reverse_involutive.
Qed.

(** A string whose every byte is visible ASCII is its own trim. *)
Lemma trim_graphic l : Forall (fun b => graphic b = true) l → trim l = l.
Proof.
  intros H. destruct l as [|b r]; [reflexivity|].
  destruct (last (b :: r)) as [c|] eqn:E; [|by apply last_None in E].
  pose proof (Forall_inv H) as Hb.
  eapply (trim_graphic_ends (b :: r) b c r); auto.
  apply last_Some in E as [l' E]. rewrite E in H. apply Forall_app in H as [_ H].
  by apply Forall_inv in H.
Qed.

Lemma digit_graphic b : is_digit b = true → graphic b = true.
Proof. unfold is_digit, graphic. rewrite !andb_true_iff, !Z.leb_le. lia. Qed.

(** * More facts about trimming and numbers *)

Lemma drop_while_none f l : Forall (fun b => f b = false) l → drop_while f l = l.
Proof. intros H. destruct H as [|b l Hb _]; [done|]. simpl. by rewrite Hb. Qed.

Lemma trim_matches_none f l : Forall (fun b => f b = false) l → trim_matches f l = l.
Proof.
  intros H. unfold trim_matches. rewrite (drop_while_none f l H), drop_while_none.
  - apply reverse_involutive.
  - by apply Forall_reverse.
Qed.

Lemma trim_matches_wrap f l b c : f b = true → f c = true → Forall (fun b => f b = false) l →
  trim_matches f (b :: l ++ [c]) = l.
Proof.
  intros Hb Hc H. unfold trim_matches. cbn [drop_while]. rewrite Hb.
  assert (drop_while f (reverse (l ++ [c])) = reverse l) as Hr.
  { rewrite reverse_app. cbn. rewrite Hc. apply drop_while_none. by apply Forall_reverse. }
  destruct l as [|a l].
  - cbn. by rewrite Hc.
  - assert (drop_while f ((a :: l) ++ [c]) = (a :: l) ++ [c]) as ->.
    { simpl. apply Forall_cons in H as [Ha _]. by rewrite Ha. }
    rewrite Hr. apply reverse_involutive.
Qed.

Lemma parse_digits_nondigit max acc l c : digit_val c = None → c ∈ l → parse_digits max acc l = None.
Proof.
  intros Hc. revert acc. induction l as [|b l IH]; intros acc Hin; [by apply elem_of_nil in Hin|].
  simpl. apply elem_of_cons in Hin as [->|Hin]; [by rewrite Hc|].
  destruct (digit_val b); [|done]. case_match; [by apply IH|done].
Qed.

Lemma parse_uint_nondigit max l c : digit_val c = None → c ≠ "+"%byte → c ∈ l → parse_uint max l = None.
Proof.
  intros Hc Hp Hin. unfold parse_uint. destruct l as [|b l]; [done|].
  case_decide as Hb.
  - subst b. apply elem_of_cons in Hin as [->|Hin]; [done|].
    destruct l as [|a l]; [done|]. by apply (parse_digits_nondigit _ _ _ c).
  - by apply (parse_digits_nondigit _ _ _ c).
Qed.

Lemma digit_val_range b d : digit_val b = Some d → 0 <= d < 10.
Proof.
  unfold digit_val, is_digit. destruct (Z.leb_spec 48 (b2z b)), (Z.leb_spec (b2z b) 57); simpl;
    intros ?; simplify_eq; lia.
Qed.

Lemma parse_digits_range max acc l z : 0 <= acc <= max → parse_digits max acc l = Some z → 0 <= z <= max.
Proof.
  revert acc. induction l as [|b l IH]; intros acc Hacc; simpl; [naive_solver|].
  destruct (digit_val b) as [d|] eqn:Ed; [|done]. apply digit_val_range in Ed.
  case_cmp; [|done]. apply IH. lia.
Qed.

Lemma parse_uint_range max l z : 0 <= max → parse_uint max l = Some z → 0 <= z <= max.
Proof.
  intros Hm. unfold parse_uint. set (ds := match l with [] => [] | _ => _ end).
  destruct ds as [|b ds]; [done|]. apply parse_digits_range. lia.
Qed.

Lemma elem_of_split_on c l part b : part ∈ split_on c l → b ∈ part → b ∈ l.
Proof.
  revert part. induction l as [|a l IH]; intros part; simpl.
  - intros [->|Hn]%elem_of_cons Hb; [done|by apply elem_of_nil in Hn].
  - case_decide as Ha.
    + intros [->|Hp]%elem_of_cons Hb; [by apply elem_of_nil in Hb|]. right. by eapply IH.
    + destruct (split_on c l) as [|p ps] eqn:E; [by apply split_on_nonempty in E|].
      intros [->|Hp]%elem_of_cons Hb.
      * apply elem_of_cons in Hb as [->|Hb]; [by left|]. right. apply (IH p); [by left|done].
      * right. apply (IH part); [by right|done].
Qed.

(** The pieces with the separators in between are the whole text. *)
Lemma split_on_Forall (P : byte → Prop) c l :
  P c → (∀ part, part ∈ split_on c l → Forall P part) → Forall P l.
Proof.
  intros Hc. induction l as [|a l IH]; intros H; [constructor|]. simpl in H.
  destruct (decide (a = c)) as [->|Hne].
  - constructor; [done|]. apply IH. intros part Hp. apply H. by right.
  - destruct (split_on c l) as [|p ps] eqn:E; [by apply split_on_nonempty in E|].
    pose proof (H (a :: p) ltac:(by left)) as [Ha Hp]%Forall_cons. constructor; [done|].
    apply IH. intros part [->|Hq]%elem_of_cons; [done|]. apply H. by right.
Qed.

(** * What the address parsers accept *)

Definition ip_char (b : byte) : bool := is_alnum b || bool_decide (b = "."%byte) || bool_decide (b = ":"%byte).

(** [r] is what is left of [l] after reading address characters only. *)
Definition consumes (l r : str) : Prop := ∃ p, l = p ++ r ∧ Forall (fun b => ip_char b = true) p.

#[local] Instance consumes_preorder : PreOrder consumes.
Proof.
  split.
  - intros l. by exists [].
  - intros l1 l2 l3 (p & -> & Hp) (q & -> & Hq). exists (p ++ q).
    by rewrite <- app_assoc, Forall_app.
Qed.

Lemma span_digits_consumes val l ds r : (∀ b d, val b = Some d → ip_char b = true) →
  span_digits val l = (ds, r) → consumes l r.
Proof.
  intros Hv. revert ds r. induction l as [|b l IH]; intros ds r; simpl; [by intros [= <- <-]|].
  destruct (val b) as [d|] eqn:Eb; [|by intros [= <- <-]].
  destruct (span_digits val l) as [ds' r'] eqn:E. intros [= <- <-].
  destruct (IH ds' r' eq_refl) as (p & -> & Hp). exists (b :: p). split; [done|].
  constructor; [by eapply Hv|done].
Qed.

Lemma digit_val_char b d : digit_val b = Some d → ip_char b = true.
Proof.
  unfold digit_val, ip_char, is_alnum. destruct (is_digit b); [by rewrite !orb_true_r|done].
Qed.

Lemma hex_val_char b d : hex_val b = Some d → ip_char b = true.
Proof. destruct b; (vm_compute; done). Qed.

Lemma read_number_consumes radix n z max l v r : read_number radix n z max l = Some (v, r) → consumes l r.
Proof.
  unfold read_number. set (val := if radix =? 10 then digit_val else hex_val).
  destruct (span_digits val l) as [ds r'] eqn:E. intros H.
  assert (r' = r) as <- by (repeat (case_match; try done); by simplify_eq).
  eapply span_digits_consumes; [|exact E]. intros b d. unfold val.
  destruct (radix =? 10); [apply digit_val_char|apply hex_val_char].
Qed.

Lemma read_char_consumes c l r : ip_char c = true → read_char c l = Some r → consumes l r.
Proof.
  intros Hc. destruct l as [|b l]; simpl; [done|]. case_decide; [|done]. intros [= <-]. subst b.
  exists [c]. split; [done|]. by constructor.
Qed.

Lemma read_separator_consumes {A} c i (inner : str → option (A * str)) l v r :
  ip_char c = true → (∀ l v r, inner l = Some (v, r) → consumes l r) →
  read_separator c i inner l = Some (v, r) → consumes l r.
Proof.
  intros Hc Hi. unfold read_separator. destruct i; [apply Hi|].
  intros (m & Hm & Hr)%bind_Some. etrans; [by apply (read_char_consumes c)|by eapply Hi].
Qed.

Lemma separated_number_consumes c i radix n z max l v r : ip_char c = true →
  read_separator c i (read_number radix n z max) l = Some (v, r) → consumes l r.
Proof. intros Hc. apply read_separator_consumes; [done|]. intros ???. apply read_number_consumes. Qed.

Lemma read_ipv4_consumes l v r : read_ipv4 l = Some (v, r) → consumes l r.
Proof.
  unfold read_ipv4. intros H.
  do 4 (apply bind_Some in H as ([? ?] & Hc & H); apply separated_number_consumes in Hc; [|done];
        etrans; [exact Hc|clear Hc]).
  by simplify_eq.
Qed.

Lemma read_groups_consumes fuel limit i l gs v4 r : read_groups fuel limit i l = (gs, v4, r) → consumes l r.
Proof.
  revert i l gs v4. induction fuel as [|fuel IH]; intros i l gs v4; cbn [read_groups]; [by intros [= _ _ <-]|].
  set (v := if (i <? limit - 1)%nat then _ else _).
  assert (∀ w r', v = Some (w, r') → consumes l r') as Hv.
  { intros w r'. unfold v. case_match; [|done].
    apply read_separator_consumes; [done|apply read_ipv4_consumes]. }
  destruct v as [[[[[a b] c] d] r']|]; [intros [= _ _ <-]; by eapply Hv|].
  destruct (read_separator ":"%byte i (read_number 16 4 true 65535) l) as [[w r']|] eqn:En;
    [|by intros [= _ _ <-]].
  destruct (read_groups fuel limit (S i) r') as [[gs' v4'] r''] eqn:Er. intros [= _ _ <-].
  apply separated_number_consumes in En; [|done]. etrans; [exact En|by eapply IH].
Qed.

Lemma is_ip_addr_chars l : is_ip_addr l = true → Forall (fun b => ip_char b = true) l.
Proof.
  assert (consumes l [] → Forall (fun b => ip_char b = true) l) as Hfin
    by (intros (p & -> & Hp); by rewrite app_nil_r).
  unfold is_ip_addr, parse_ip_addr. destruct (read_ipv4 l) as [[v r]|] eqn:E4.
  - case_bool_decide as Hr; [|done]. intros _. apply Hfin. rewrite <- Hr. by eapply read_ipv4_consumes.
  - destruct (read_ipv6 l) as [[gs r]|] eqn:E6; [|done]. cbn [mbind option_bind]. case_bool_decide as Hr; [|done].
    intros _. apply Hfin. subst r.
    unfold read_ipv6 in E6. destruct (read_groups 8 8 0 l) as [[n v4] r'] eqn:Eg.
    apply read_groups_consumes in Eg. case_match; [by simplify_eq|]. case_match; [done|].
    apply bind_Some in E6 as (r1 & H1%read_char_consumes & E6); [|done].
    apply bind_Some in E6 as (r2 & H2%read_char_consumes & E6); [|done].
    destruct (read_groups _ _ 0 r2) as [[n2 v2] r3] eqn:Eg2. apply read_groups_consumes in Eg2.
    simplify_eq. by repeat (etrans; [eassumption|]).
Qed.
