(* ===== verification/OvpnConfig.v ===== *)
(** openvpn/config.rs and openvpn/error.rs: the tunnel profile, the cipher and
    digest enumerations with their parsers and sizes, and the error type. *)
From S2P Require Import Prelude Text.

(** [enum Error]; the io variant carries the rendered [std::io::Error]. *)
Inductive Error :=
| Account (msg : str)
| Tls (msg : str)
| Control (msg : str)
| Data (msg : str)
| Timeout
| AuthErr
| Transport (msg : str)
| Io (msg : str).

Inductive Protocol := Udp | Tcp.
#[export] Instance protocol_eq_dec : EqDecision Protocol.
Proof. solve_decision. Defined.

Inductive Auth := Sha1 | Sha256 | Sha512.
#[export] Instance auth_eq_dec : EqDecision Auth.
Proof. solve_decision. Defined.

Inductive Cipher := Aes256Gcm | Aes128Gcm | Aes256Cbc | Aes128Cbc.
#[export] Instance cipher_eq_dec : EqDecision Cipher.
Proof. solve_decision. Defined.

Module Protocol.
Definition as_str (p : Protocol) : str :=
  match p with Udp => Lit "udp" | Tcp => Lit "tcp" end.
End Protocol.

Module Auth.
Definition parse (name : str) : option Auth :=
  let n := to_ascii_uppercase (trim name) in
  if decide (n = Lit "SHA1") then Some Sha1
  else if decide (n = Lit "SHA256") then Some Sha256
  else if decide (n = Lit "SHA512") then Some Sha512
  else None.

Definition size (a : Auth) : nat :=
  match a with Sha1 => 20 | Sha256 => 32 | Sha512 => 64 end.

Definition as_str (a : Auth) : str :=
  match a with Sha1 => Lit "SHA1" | Sha256 => Lit "SHA256" | Sha512 => Lit "SHA512" end.
End Auth.

Module Cipher.
Definition parse (name : str) : option Cipher :=
  let n := to_ascii_uppercase (trim name) in
  if decide (n = Lit "AES-256-GCM") then Some Aes256Gcm
  else if decide (n = Lit "AES-128-GCM") then Some Aes128Gcm
  else if decide (n = Lit "AES-256-CBC") then Some Aes256Cbc
  else if decide (n = Lit "AES-128-CBC") then Some Aes128Cbc
  else None.

Definition is_aead (c : Cipher) : bool :=
  match c with Aes256Gcm | Aes128Gcm => true | _ => false end.

Definition key_len (c : Cipher) : nat :=
  match c with Aes256Gcm | Aes256Cbc => 32 | Aes128Gcm | Aes128Cbc => 16 end.

Definition iv_len (c : Cipher) : nat := if is_aead c then 12 else 16.

(** [Display] *)
Definition fmt (c : Cipher) : str :=
  match c with
  | Aes256Gcm => Lit "AES-256-GCM"
  | Aes128Gcm => Lit "AES-128-GCM"
  | Aes256Cbc => Lit "AES-256-CBC"
  | Aes128Cbc => Lit "AES-128-CBC"
  end.
End Cipher.

Record Server := mkServer { host : str; port : Z; protocol : Protocol }.
Record Credentials := mkCredentials { ca : str; cert : str; key : str }.
Record Profile := mkProfile {
  servers : list Server;
  cipher : Cipher;
  auth : Auth;
  credentials : Credentials
}.

#[export] Instance server_eq_dec : EqDecision Server.
Proof. solve_decision. Defined.

(** * The names are a partial inverse of the parsers *)

Lemma cipher_fmt_inj c d : Cipher.fmt c = Cipher.fmt d → c = d.
Proof. by destruct c, d. Qed.

Lemma cipher_fmt_upper c : to_ascii_uppercase (Cipher.fmt c) = Cipher.fmt c.
Proof. by destruct c. Qed.

Lemma cipher_parse_fmt_iff name c :
  Cipher.parse name = Some c ↔ to_ascii_uppercase (trim name) = Cipher.fmt c.
Proof.
  unfold Cipher.parse. split.
  - repeat case_decide; intros [= <-]; done.
  - intros ->. by destruct c; vm_compute.
Qed.

Lemma auth_parse_as_str_iff name a :
  Auth.parse name = Some a ↔ to_ascii_uppercase (trim name) = Auth.as_str a.
Proof.
  unfold Auth.parse. split.
  - repeat case_decide; intros [= <-]; done.
  - intros ->. by destruct a; vm_compute.
Qed.

(** The exact language of cipher names: a name parses as [c] exactly when, blanks
    trimmed, it equals the displayed name up to ASCII case; so at most one cipher matches. *)
Theorem cipher_parse_spec name c :
  Cipher.parse name = Some c ↔ eq_ignore_ascii_case (trim name) (Cipher.fmt c) = true.
Proof.
  by rewrite cipher_parse_fmt_iff, eq_ignore_case_upper, cipher_fmt_upper.
Qed.
