(* ===== verification/Replay.v ===== *)
(** openvpn/crypto/replay.rs: the 64-entry sliding replay window, refined against
    the set of packet ids accepted so far. *)
From S2P Require Import Prelude.

Record ReplayWindow := mkWindow { last : Z; bits : Z; window : Z }.

Definition new : ReplayWindow := {| last := 0; bits := 0; window := 64 |}.

(** [ReplayWindow::accept]: [last] is a u32, [bits] a u64 shifted with truncation. *)
Definition accept (w : ReplayWindow) (id : Z) : ReplayWindow * bool :=
  if id =? 0 then (w, false)
  else if last w <? id then
    let shift := id - last w in
    let b := if window w <=? shift then 0 else wrap64 (Z.shiftl (bits w) shift) in
    ({| last := id; bits := Z.lor b 1; window := window w |}, true)
  else
    let behind := last w - id in
    if window w <=? behind then (w, false)
    else
      let mask := Z.shiftl 1 behind in
      if negb (Z.land (bits w) mask =? 0) then (w, false)
      else ({| last := last w; bits := Z.lor (bits w) mask; window := window w |}, true).

(** Feeding a sequence of ids, the verdicts in order. *)
Fixpoint run (w : ReplayWindow) (ids : list Z) : list bool :=
  match ids with
  | [] => []
  | id :: ids => let '(w', ok) := accept w id in ok :: run w' ids
  end.

(** * The abstract specification: remember every accepted id *)

Definition newest (hist : list Z) : Z := foldr Z.max 0 hist.

Definition spec_ok (hist : list Z) (id : Z) : bool :=
  negb (id =? 0) && bool_decide (id ∉ hist) && (newest hist <? id + 64).

Fixpoint spec_run (hist : list Z) (ids : list Z) : list bool :=
  match ids with
  | [] => []
  | id :: ids => let ok := spec_ok hist id in
                 ok :: spec_run (if ok then id :: hist else hist) ids
  end.

(** The window represents a history when its bits are the membership of the
    last 64 ids. *)
Record represents (w : ReplayWindow) (hist : list Z) : Prop := {
  rep_window : window w = 64;
  rep_last : last w = newest hist;
  rep_hist : Forall (fun i => 0 < i < 2 ^ 32) hist;
  rep_bits : 0 <= bits w < 2 ^ 64;
  rep_mem k : 0 <= k < 64 → Z.testbit (bits w) k = bool_decide (last w - k ∈ hist)
}.

Lemma newest_ge hist i : i ∈ hist → i <= newest hist.
Proof. induction 1; simpl; lia. Qed.
Lemma newest_nonneg hist : 0 <= newest hist.
Proof. induction hist; simpl; lia. Qed.

Lemma represents_new : represents new [].
Proof.
  split; simpl; [done|done|constructor|lia|].
  intros k _. by rewrite Z.bits_0.
Qed.

Lemma testbit_mask b k : 0 <= k → negb (Z.land b (Z.shiftl 1 k) =? 0) = Z.testbit b k.
Proof.
  intros Hk. rewrite Z.shiftl_1_l.
  destruct (Z.testbit b k) eqn:E.
  - destruct (Z.eqb_spec (Z.land b (2 ^ k)) 0) as [H|]; [|done].
    apply (f_equal (fun x => Z.testbit x k)) in H.
    by rewrite Z.land_spec, Z.pow2_bits_true, Z.bits_0, E in H.
  - rewrite (proj2 (Z.eqb_eq _ _)); [done|]. apply Z.bits_inj'. intros n Hn.
    rewrite Z.land_spec, Z.bits_0, Z.pow2_bits_eqb by done.
    destruct (Z.eqb_spec k n) as [->|]; [by rewrite E|apply andb_false_r].
Qed.

Lemma lor_range a b n : 0 <= n → 0 <= a < 2 ^ n → 0 <= b < 2 ^ n → 0 <= Z.lor a b < 2 ^ n.
Proof.
  intros Hn Ha Hb. split; [apply Z.lor_nonneg; lia|].
  assert (∀ x, 0 <= x < 2 ^ n → x = Z.land x (Z.ones n)) as Hones.
  { intros x Hx. rewrite Z.land_ones by done. by rewrite Z.mod_small. }
  rewrite (Hones a Ha), (Hones b Hb), <- Z.land_lor_distr_l, Z.land_ones by done.
  apply Z.mod_pos_bound. lia.
Qed.

(** An id ahead of the window. *)
Lemma represents_advance w hist id :
  represents w hist → last w < id < 2 ^ 32 →
  represents {| last := id;
                bits := Z.lor (if window w <=? id - last w then 0
                               else wrap64 (Z.shiftl (bits w) (id - last w))) 1;
                window := window w |} (id :: hist).
Proof.
  intros [Hw Hl Hh Hb Hm] Hid. pose proof (newest_nonneg hist). rewrite Hw.
  set (b := if 64 <=? id - last w then 0 else _).
  assert (0 <= b < 2 ^ 64) as Hbr.
  { unfold b. case_match; [lia|]. apply Z.mod_pos_bound. lia. }
  split; simpl; [done|lia|constructor; [lia|done]|by apply lor_range|].
  intros k Hk. rewrite Z.lor_spec.
  change 1 with (2 ^ 0). rewrite Z.pow2_bits_eqb by lia.
  destruct (Z.eqb_spec 0 k) as [<-|Hk0].
  { rewrite orb_true_r, Z.sub_0_r. symmetry. apply bool_decide_eq_true.
    by apply elem_of_cons; left. }
  rewrite orb_false_r. unfold b. destruct (Z.leb_spec 64 (id - last w)).
  - rewrite Z.bits_0. symmetry. apply bool_decide_eq_false.
    rewrite elem_of_cons. intros [?|Hin]; [lia|]. apply newest_ge in Hin. lia.
  - unfold wrap64. rewrite Z.mod_pow2_bits_low, Z.shiftl_spec by lia.
    destruct (decide (k < id - last w)).
    + rewrite Z.testbit_neg_r by lia. symmetry. apply bool_decide_eq_false.
      rewrite elem_of_cons. intros [?|Hin]; [lia|]. apply newest_ge in Hin. lia.
    + rewrite Hm by lia. apply bool_decide_ext. rewrite elem_of_cons.
      replace (last w - (k - (id - last w))) with (id - k) by lia.
      split; [by right|]. intros [?|?]; [lia|done].
Qed.

(** An id inside the window whose bit is clear. *)
Lemma represents_fill w hist id :
  represents w hist → 0 < id <= last w → last w - id < 64 →
  represents {| last := last w; bits := Z.lor (bits w) (Z.shiftl 1 (last w - id));
                window := window w |} (id :: hist).
Proof.
  intros [Hw Hl Hh Hb Hm] Hid Hbehind. rewrite Z.shiftl_1_l.
  pose proof (newest_nonneg hist).
  assert (last w < 2 ^ 32).
  { rewrite Hl. clear -Hh. induction Hh; simpl; lia. }
  split; simpl; [done|lia|constructor; [lia|done]| |].
  - apply lor_range; [lia|done|]. split; [lia|]. apply Z.pow_lt_mono_r; lia.
  - intros k Hk. rewrite Z.lor_spec, Z.pow2_bits_eqb, Hm by lia.
    destruct (Z.eqb_spec (last w - id) k) as [<-|Hne].
    + rewrite orb_true_r. symmetry. apply bool_decide_eq_true. apply elem_of_cons. left. lia.
    + rewrite orb_false_r. apply bool_decide_ext. rewrite elem_of_cons.
      split; [by right|]. intros [?|?]; [lia|done].
Qed.

(** One step of the window is one step of the specification. *)
Lemma accept_refines w hist id :
  represents w hist → is_u32 id →
  (accept w id).2 = spec_ok hist id ∧
  represents (accept w id).1 (if spec_ok hist id then id :: hist else hist).
Proof.
  intros Hrep Hid. pose proof Hrep as [Hw Hl Hh Hb Hm]. unfold is_u32 in Hid.
  unfold accept, spec_ok. destruct (Z.eqb_spec id 0) as [->|Hid0]; [done|]. simpl.
  destruct (Z.ltb_spec (last w) id) as [Hgt|Hle]; simpl.
  - rewrite bool_decide_eq_true_2 by (intros Hin%newest_ge; lia).
    rewrite (proj2 (Z.ltb_lt (newest hist) (id + 64))) by lia. simpl.
    split; [done|]. apply represents_advance; [done|lia].
  - rewrite Hw. destruct (Z.leb_spec 64 (last w - id)).
    { rewrite (proj2 (Z.ltb_ge (newest hist) (id + 64))), andb_false_r by lia. done. }
    rewrite (proj2 (Z.ltb_lt (newest hist) (id + 64))), andb_true_r by lia.
    rewrite testbit_mask, Hm by lia.
    replace (last w - (last w - id)) with id by lia.
    destruct (decide (id ∈ hist)) as [Hin|Hnin].
    + rewrite bool_decide_eq_true_2, bool_decide_eq_false_2 by (done || by intros []).
      done.
    + rewrite bool_decide_eq_false_2, bool_decide_eq_true_2 by done. simpl.
      split; [done|]. apply (represents_fill w hist id) in Hrep; [|lia..].
      by rewrite Hw in Hrep.
Qed.

Lemma run_refines_from w hist ids :
  represents w hist → Forall is_u32 ids → run w ids = spec_run hist ids.
Proof.
  intros Hrep Hids. revert w hist Hrep. induction Hids as [|id ids Hid _ IH];
    intros w hist Hrep; simpl; [done|].
  destruct (accept_refines w hist id Hrep Hid) as [Hok Hrep'].
  destruct (accept w id) as [w' ok]. simpl in *. subst ok. f_equal. by apply IH.
Qed.

(** C8: Refinement. On every sequence of packet ids the 64-bit window answers as the
    specification that keeps every accepted id: an id is accepted exactly when it is not zero,
    was not accepted before and is less than 64 behind the newest accepted id. *)
Theorem replay_refines ids :
  Forall is_u32 ids → run new ids = spec_run [] ids.
Proof. apply run_refines_from, represents_new. Qed.

(** The ids a run accepted. *)
Definition accepted (ids : list Z) (oks : list bool) : list Z :=
  (filter (fun p => p.2 = true) (zip ids oks)).*1.

Lemma spec_run_accepted hist ids i :
  i ∈ accepted ids (spec_run hist ids) → i ∉ hist.
Proof.
  revert hist. induction ids as [|id ids IH]; intros hist; unfold accepted in *; simpl.
  { intros H. by apply elem_of_nil in H. }
  destruct (spec_ok hist id) eqn:E.
  - rewrite filter_cons_True by done. simpl. intros [->|Hin]%elem_of_cons.
    + unfold spec_ok in E. apply andb_prop in E as [E _]. apply andb_prop in E as [_ E].
      by apply bool_decide_eq_true in E.
    + apply IH in Hin. rewrite not_elem_of_cons in Hin. tauto.
  - rewrite filter_cons_False by done. apply IH.
Qed.

Lemma spec_run_complete hist ids i :
  i ≠ 0 → i ∈ ids → Forall (fun j => j < i + 64) ids → newest hist < i + 64 →
  i ∈ hist ∨ i ∈ accepted ids (spec_run hist ids).
Proof.
  intros Hi. revert hist. induction ids as [|id ids IH]; intros hist Hin Hall Hn; [by apply elem_of_nil in Hin|].
  apply Forall_cons in Hall as [Hid Hall]. unfold accepted in *. simpl.
  destruct (spec_ok hist id) eqn:E.
  - rewrite filter_cons_True by done. simpl. rewrite elem_of_cons.
    apply elem_of_cons in Hin as [->|Hin]; [tauto|].
    destruct (IH (id :: hist) Hin Hall) as [[->|H]%elem_of_cons|H]; simpl; [lia|tauto..].
  - rewrite filter_cons_False by done. apply elem_of_cons in Hin as [->|Hin]; [|by apply IH].
    left. unfold spec_ok in E. rewrite (proj2 (Z.eqb_neq _ _) Hi), (proj2 (Z.ltb_lt _ _) Hn), andb_true_r in E. simpl in E.
    apply bool_decide_eq_false in E. by destruct (decide (id ∈ hist)).
Qed.

Lemma spec_run_nodup hist ids : NoDup (accepted ids (spec_run hist ids)).
Proof.
  revert hist. induction ids as [|id ids IH]; intros hist; unfold accepted in *; simpl.
  { constructor. }
  destruct (spec_ok hist id) eqn:E.
  - rewrite filter_cons_True by done. simpl. apply NoDup_cons. split; [|apply IH].
    intros Hin. apply (spec_run_accepted (id :: hist)) in Hin. apply Hin.
    apply elem_of_cons. by left.
  - rewrite filter_cons_False by done. apply IH.
Qed.

(** Safety. No packet id is ever accepted twice, however packets are reordered,
    duplicated or delayed. *)
Theorem replay_never_twice ids :
  Forall is_u32 ids → NoDup (accepted ids (run new ids)).
Proof. intros H. rewrite replay_refines by done. apply spec_run_nodup. Qed.

(** Ids that each exceed all earlier ones. *)
Lemma accept_fresh w id : last w < id → 0 <= last w →
  (accept w id).2 = true ∧ last (accept w id).1 = id.
Proof.
  intros H H0. unfold accept. destruct (Z.eqb_spec id 0); [lia|].
  by rewrite (proj2 (Z.ltb_lt _ _)).
Qed.

Lemma replay_refines_witness :
  Forall is_u32 [1; 2; 2; 4; 3; 3; 1000; 2; 937; 936] ∧
  run new [1; 2; 2; 4; 3; 3; 1000; 2; 937; 936] = spec_run [] [1; 2; 2; 4; 3; 3; 1000; 2; 937; 936].
Proof.
  assert (Forall is_u32 [1; 2; 2; 4; 3; 3; 1000; 2; 937; 936]) as H
    by (repeat constructor; vm_compute; congruence).
  split; [exact H|]. exact (replay_refines _ H).
Defined.

Lemma replay_never_twice_witness :
  Forall is_u32 [7; 7; 6; 7; 6] ∧ NoDup (accepted [7; 7; 6; 7; 6] (run new [7; 7; 6; 7; 6])).
Proof.
  assert (Forall is_u32 [7; 7; 6; 7; 6]) as H by (repeat constructor; vm_compute; congruence).
  split; [exact H|]. exact (replay_never_twice _ H).
Defined.

Example replay_run_example :
  run new [1; 2; 2; 4; 3; 3; 1000; 2; 937; 936]
  = [true; true; false; true; true; false; true; false; true; false].
Proof. vm_compute. reflexivity. Qed.
