(* ===== verification/Keys.v ===== *)
(** openvpn/crypto/keys.rs: the TLS 1.0 PRF and the key material derived from the
    two hellos. The HMAC functions of the [hmac], [md5] and [sha1] crates are
    parameters; only the length of their output is assumed. *)
From S2P Require Import Prelude Text OvpnConfig.

Definition MASTER_LEN : nat := 48.
Definition KEY_LEN : nat := 64.
Definition KEY2_LEN : nat := 4 * KEY_LEN.

Section PHash.
(** [hmac::<M>(key, data)] *)
Context (hmac : list byte → list byte → list byte).

(** The [while out.len() < len] loop of [p_hash]; every round adds a block, so [len]
    rounds are enough when blocks are not empty ([p_hash_spec]). *)
Fixpoint p_hash_loop (fuel : nat) (secret seed : list byte) (len : nat) (a out : list byte)
    : list byte :=
  match fuel with
  | O => out
  | S fuel =>
      if (length out <? len)%nat then
        p_hash_loop fuel secret seed len (hmac secret a) (out ++ hmac secret (a ++ seed))
      else out
  end.

Definition p_hash (secret seed : list byte) (len : nat) : list byte :=
  take len (p_hash_loop len secret seed len (hmac secret seed) []).

(** ** RFC 5246: [P_hash] as the concatenation of [HMAC(secret, A(i) + seed)] *)

Definition A (secret seed : list byte) (i : nat) : list byte := Nat.iter i (hmac secret) seed.
Definition P_hash_blocks (secret seed : list byte) (i n : nat) : list byte :=
  concat ((fun j => hmac secret (A secret seed j ++ seed)) <$> seq i n).

Context (size : nat) (size_pos : (0 < size)%nat).
Hypothesis hmac_length : ∀ k d, length (hmac k d) = size.

Lemma P_hash_blocks_length secret seed i n : length (P_hash_blocks secret seed i n) = (n * size)%nat.
Proof.
  unfold P_hash_blocks. revert i. induction n as [|n IH]; intros i; [done|].
  cbn [seq fmap list_fmap concat]. rewrite length_app, hmac_length, IH. lia.
Qed.

Lemma P_hash_blocks_app secret seed i n m :
  P_hash_blocks secret seed i (n + m)
  = P_hash_blocks secret seed i n ++ P_hash_blocks secret seed (i + n) m.
Proof. unfold P_hash_blocks. by rewrite seq_app, fmap_app, concat_app. Qed.

Lemma p_hash_loop_spec secret seed len i fuel out :
  (len <= length out + fuel * size)%nat →
  ∃ n, p_hash_loop fuel secret seed len (A secret seed i) out
       = out ++ P_hash_blocks secret seed i n
       ∧ (len <= length out + n * size)%nat.
Proof using All.
  revert i out. induction fuel as [|fuel IH]; intros i out Hlen; simpl.
  - exists 0%nat. unfold P_hash_blocks. simpl. rewrite app_nil_r. split; [done|lia].
  - destruct (Nat.ltb_spec (length out) len).
    + change (hmac secret (A secret seed i)) with (A secret seed (S i)).
      destruct (IH (S i) (out ++ hmac secret (A secret seed i ++ seed))) as (n & -> & Hn).
      { rewrite length_app, hmac_length. lia. }
      exists (S n). rewrite <- app_assoc. split; [done|].
      rewrite length_app, hmac_length in Hn. lia.
    + exists 0%nat. unfold P_hash_blocks. simpl. rewrite app_nil_r. split; [done|lia].
Qed.

Lemma take_blocks secret seed i n m len :
  (len <= n * size)%nat → (len <= m * size)%nat →
  take len (P_hash_blocks secret seed i n) = take len (P_hash_blocks secret seed i m).
Proof using All.
  assert (∀ a b, (a <= b)%nat → (len <= a * size)%nat →
    take len (P_hash_blocks secret seed i a) = take len (P_hash_blocks secret seed i b)) as Hle.
  { intros a b Hab Ha. replace b with (a + (b - a))%nat by lia.
    rewrite P_hash_blocks_app, take_app_le; [done|]. by rewrite P_hash_blocks_length. }
  intros Hn Hm. destruct (Nat.le_ge_cases n m); [by apply Hle|symmetry; by apply Hle].
Qed.

(** The loop computes the RFC's stream truncated to [len], whatever number [n] of blocks
    covers it. *)
Lemma p_hash_spec secret seed len n :
  (len <= n * size)%nat →
  p_hash secret seed len = take len (P_hash_blocks secret seed 1 n).
Proof using All.
  intros Hn. unfold p_hash.
  change (hmac secret seed) with (A secret seed 1).
  destruct (p_hash_loop_spec secret seed len 1 len []) as (m & -> & Hm); [simpl; nia|].
  simpl in *. by apply take_blocks.
Qed.

Lemma p_hash_length secret seed len : length (p_hash secret seed len) = len.
Proof using All.
  rewrite (p_hash_spec _ _ _ len) by nia. rewrite length_take, P_hash_blocks_length. nia.
Qed.

(** A shorter request is a prefix of a longer one. *)
Lemma p_hash_prefix secret seed l1 l2 :
  (l1 <= l2)%nat → p_hash secret seed l1 = take l1 (p_hash secret seed l2).
Proof using All.
  intros H. rewrite (p_hash_spec _ _ l1 l2), (p_hash_spec _ _ l2 l2) by nia.
  rewrite take_take. by rewrite Nat.min_l.
Qed.
End PHash.

(** [SeedData] / [Seed]: the secrets and session ids of both sides. *)
Record SeedData := mkSeed {
  pre_master : list byte;
  client_random1 : list byte;
  server_random1 : list byte;
  client_random2 : list byte;
  server_random2 : list byte;
  client_sid : list byte;
  server_sid : list byte
}.

Record KeyMaterial := mkKeys {
  encrypt : list byte;
  decrypt : list byte;
  mac_encrypt : list byte;
  mac_decrypt : list byte
}.

(** [digest]: every [Auth] has a digest; the value names [MessageDigest]'s constructor. *)
Inductive MessageDigest := md_sha1 | md_sha256 | md_sha512.
Definition digest (a : Auth) : option MessageDigest :=
  match a with Sha1 => Some md_sha1 | Sha256 => Some md_sha256 | Sha512 => Some md_sha512 end.

Section Prf.
Context (hmac_md5 hmac_sha1 : list byte → list byte → list byte).

Definition p_hash_md5 := p_hash hmac_md5.
Definition p_hash_sha1 := p_hash hmac_sha1.

Definition prf (secret : list byte) (label : str) (seed : list (list byte)) (len : nat)
    : list byte :=
  let label_seed := label ++ concat seed in
  let half := Nat.div (length secret + 1) 2 in
  let md5 := p_hash_md5 (take half secret) label_seed len in
  let sha1 := p_hash_sha1 (drop (length secret - half) secret) label_seed len in
  zip_with byte_xor md5 sha1.

(** The 256 bytes of key expansion [KeyMaterial::derive] slices. *)
Definition expansion (seed : SeedData) : list byte :=
  let master := prf (pre_master seed) (Lit "OpenVPN master secret")
                    [client_random1 seed; server_random1 seed] MASTER_LEN in
  prf master (Lit "OpenVPN key expansion")
      [client_random2 seed; server_random2 seed; client_sid seed; server_sid seed] KEY2_LEN.

(** [KeyMaterial::derive]: slices past the end panic. *)
Definition derive (seed : SeedData) (cipher : Cipher) (mac_len : nat) : res Error KeyMaterial :=
  let key_len := Cipher.key_len cipher in
  let expanded := expansion seed in
  e ← slice_to key_len expanded;
  me ← slice KEY_LEN (KEY_LEN + mac_len) expanded;
  d ← slice (KEY_LEN + KEY_LEN) (KEY_LEN + KEY_LEN + key_len) expanded;
  md ← slice (KEY_LEN + KEY_LEN + KEY_LEN) (KEY_LEN + KEY_LEN + KEY_LEN + mac_len) expanded;
  Ok {| encrypt := e; decrypt := d; mac_encrypt := me; mac_decrypt := md |}.

Context (md5_length : ∀ k d, length (hmac_md5 k d) = 16%nat).
Context (sha1_length : ∀ k d, length (hmac_sha1 k d) = 20%nat).

Lemma prf_length secret label seed len : length (prf secret label seed len) = len.
Proof using All.
  unfold prf, p_hash_md5, p_hash_sha1. rewrite length_zip_with.
  rewrite (p_hash_length _ 16), (p_hash_length _ 20) by (done || lia). lia.
Qed.
End Prf.

Section PrfSpec.
Context (hmac_md5 hmac_sha1 : list byte → list byte → list byte).
Hypothesis md5_length : ∀ k d, length (hmac_md5 k d) = 16%nat.
Hypothesis sha1_length : ∀ k d, length (hmac_sha1 k d) = 20%nat.

(** RFC 2246 section 5: the PRF as the XOR of two P_hash streams over the two halves of the
    secret, which share the middle byte when its length is odd. *)
Definition PRF_ref (secret label_seed : list byte) (len : nat) : list byte :=
  let half := Nat.div (length secret + 1) 2 in
  zip_with byte_xor
    (take len (P_hash_blocks hmac_md5 (take half secret) label_seed 1 len))
    (take len (P_hash_blocks hmac_sha1 (drop (length secret - half) secret) label_seed 1 len)).

(** C31: Functional equivalence. The key-derivation PRF, its two hash loops and their
    truncation included, computes the RFC 2246 PRF for every secret, label, seed and length. *)
Theorem prf_is_rfc secret label seed len :
  prf hmac_md5 hmac_sha1 secret label seed len = PRF_ref secret (label ++ concat seed) len.
Proof using All.
  unfold prf, PRF_ref, p_hash_md5, p_hash_sha1.
  rewrite (p_hash_spec _ 16) with (n := len) by (done || lia).
  by rewrite (p_hash_spec _ 20) with (n := len) by (done || lia).
Qed.

Lemma expansion_length s : length (expansion hmac_md5 hmac_sha1 s) = KEY2_LEN.
Proof using All. unfold expansion. by apply prf_length. Qed.

Lemma derive_ok s c a :
  derive hmac_md5 hmac_sha1 s c (Auth.size a) = Ok {|
    encrypt := take (Cipher.key_len c) (expansion hmac_md5 hmac_sha1 s);
    mac_encrypt := take (Auth.size a) (drop 64 (expansion hmac_md5 hmac_sha1 s));
    decrypt := take (Cipher.key_len c) (drop 128 (expansion hmac_md5 hmac_sha1 s));
    mac_decrypt := take (Auth.size a) (drop 192 (expansion hmac_md5 hmac_sha1 s))
  |}.
Proof using All.
  pose proof (expansion_length s) as Hlen.
  assert (Cipher.key_len c <= 32)%nat by (destruct c; simpl; lia).
  assert (Auth.size a <= 64)%nat by (destruct a; simpl; lia).
  unfold KEY2_LEN, KEY_LEN in Hlen. unfold derive, KEY_LEN.
  generalize dependent (expansion hmac_md5 hmac_sha1 s). intros x Hlen. cbv zeta.
  rewrite slice_to_ok by lia. simpl. rewrite !slice_ok by lia. destruct a, c; reflexivity.
Qed.

(** Key derivation never panics for a digest-sized MAC; it cuts the expansion into four
    64-byte sections (client cipher, client HMAC, server cipher, server HMAC) and takes a
    prefix of each. *)
Theorem derive_sections s c a :
  derive hmac_md5 hmac_sha1 s c (Auth.size a) = Ok {|
    encrypt := take (Cipher.key_len c) (expansion hmac_md5 hmac_sha1 s);
    mac_encrypt := take (Auth.size a) (drop 64 (expansion hmac_md5 hmac_sha1 s));
    decrypt := take (Cipher.key_len c) (drop 128 (expansion hmac_md5 hmac_sha1 s));
    mac_decrypt := take (Auth.size a) (drop 192 (expansion hmac_md5 hmac_sha1 s))
  |}.
Proof using All. apply derive_ok. Qed.
End PrfSpec.

(** A toy HMAC with the right output size, for the concrete runs. *)
Definition toy_hmac (n : nat) (k d : list byte) : list byte :=
  pad_zero n (u8 (foldl (fun acc b => 3 * acc + b2z b + 1) 7 (k ++ d)) :: k).
Lemma toy_hmac_length n k d : length (toy_hmac n k d) = n.
Proof. apply pad_zero_length. Qed.

Definition toy_seed : SeedData :=
  mkSeed (replicate 48 x01) (replicate 32 x02) (replicate 32 x03) (replicate 32 x04)
         (replicate 32 x05) (replicate 8 x06) (replicate 8 x07).

Lemma prf_is_rfc_witness :
  prf (toy_hmac 16) (toy_hmac 20) (Lit "secret!") (Lit "label") [Lit "a"; Lit "b"] 37
  = PRF_ref (toy_hmac 16) (toy_hmac 20) (Lit "secret!") (Lit "labelab") 37.
Proof.
  exact (prf_is_rfc (toy_hmac 16) (toy_hmac 20) (toy_hmac_length 16) (toy_hmac_length 20)
           (Lit "secret!") (Lit "label") [Lit "a"; Lit "b"] 37).
Defined.

Lemma derive_sections_witness :
  match derive (toy_hmac 16) (toy_hmac 20) toy_seed Aes256Gcm 20 with
  | Ok k => length (encrypt k) = 32%nat ∧ length (mac_decrypt k) = 20%nat
  | _ => False
  end.
Proof.
  pose proof (derive_sections (toy_hmac 16) (toy_hmac 20) (toy_hmac_length 16)
                (toy_hmac_length 20) toy_seed Aes256Gcm Sha1) as H.
  change (Auth.size Sha1) with 20%nat in H. rewrite H. vm_compute. split; reflexivity.
Defined.
