(* ===== verification/DataCipher.v ===== *)
(** openvpn/crypto/aes.rs: the data-channel cipher. AES-GCM, AES-CBC with PKCS#7 and HMAC
    come from the [aes-gcm], [cbc] and [btls] crates and are the operations of an interface
    whose laws are their documented behaviour. *)
From S2P Require Import Prelude Text OvpnConfig Keys.

Definition TAG_LEN : nat := 16.

(** * The interface of the cryptography crates *)

Class CryptoLib := {
  gcm_key_ok : nat → list byte → bool;            (* new_from_slice, by key size *)
  gcm_seal : list byte → list byte → list byte → list byte → option (list byte);
  gcm_open : list byte → list byte → list byte → list byte → option (list byte);
  cbc_key_ok : nat → list byte → list byte → bool; (* new_from_slices(key, iv) *)
  cbc_encrypt : list byte → list byte → list byte → list byte;
  cbc_decrypt : list byte → list byte → list byte → option (list byte);
  hmac : MessageDigest → list byte → list byte → option (list byte)
}.

Definition md_size (d : MessageDigest) : nat :=
  match d with md_sha1 => 20 | md_sha256 => 32 | md_sha512 => 64 end.

Class CryptoLaws (L : CryptoLib) := {
  gcm_key_ok_length n k : gcm_key_ok n k = true ↔ length k = n;
  (** sealing appends a 16-byte tag and fails only above the mode's message limit *)
  gcm_seal_total k n a m : Z.of_nat (length m) < 2 ^ 36 - 32 → is_Some (gcm_seal k n a m);
  gcm_seal_length k n a m s : gcm_seal k n a m = Some s → length s = (length m + TAG_LEN)%nat;
  gcm_open_seal k n a m s : gcm_seal k n a m = Some s → gcm_open k n a s = Some m;
  cbc_key_ok_length n k iv : cbc_key_ok n k iv = true ↔ length k = n ∧ length iv = 16%nat;
  cbc_encrypt_length k iv m : (16 <= length (cbc_encrypt k iv m))%nat;
  cbc_decrypt_encrypt k iv m : cbc_decrypt k iv (cbc_encrypt k iv m) = Some m;
  hmac_total d k m : ∃ t, hmac d k m = Some t ∧ length t = md_size d
}.

(** * Byte shuffling *)

Definition aead_nonce (implicit_iv : list byte) (packet_id : Z) : list byte :=
  be32 packet_id ++ pad_zero 8 (take (Nat.min (length implicit_iv) 8) implicit_iv).

Definition tag_first (sealed : list byte) (tag_len : nat) : res Error (list byte) :=
  if (length sealed <? tag_len)%nat then Panic
  else let split := (length sealed - tag_len)%nat in
       Ok (drop split sealed ++ take split sealed).

Definition tag_last (body : list byte) : res Error (list byte) :=
  tail ← slice_from TAG_LEN body; head ← slice_to TAG_LEN body; Ok (tail ++ head).

Definition constant_time_eq (a b : list byte) : bool :=
  if negb (length a =? length b)%nat then false
  else bool_decide (foldl (fun diff p => byte_or diff (byte_xor p.1 p.2)) x00 (zip a b) = x00).

(** * The cipher *)

Record DataCipher := mkDataCipher {
  dc_cipher : Cipher;
  dc_auth : Auth;
  dc_digest : MessageDigest;
  dc_key : list byte;
  dc_mac : list byte;
  dc_implicit_iv : list byte
}.

Definition new (cipher : Cipher) (auth : Auth) (key mac : list byte) : res Error DataCipher :=
  if (length key <? Cipher.key_len cipher)%nat then Err (Data (Lit "short key"))
  else if negb (Cipher.is_aead cipher) && (length mac <? Auth.size auth)%nat
  then Err (Data (Lit "short mac key"))
  else
    d ← ok_or (digest auth) (Data (Lit "unknown digest"));
    let implicit_iv :=
      if Cipher.is_aead cipher then
        let n := (Cipher.iv_len cipher - 4)%nat in
        pad_zero n (take (Nat.min n (length mac)) mac)
      else [] in
    Ok {| dc_cipher := cipher; dc_auth := auth; dc_digest := d;
          dc_key := take (Cipher.key_len cipher) key; dc_mac := mac;
          dc_implicit_iv := implicit_iv |}.

Section Ops.
Context {L : CryptoLib}.

(** [aead]: the key-size check of the selected AES-GCM. *)
Definition aead (c : DataCipher) : res Error (list byte) :=
  match dc_cipher c with
  | Aes256Gcm => if gcm_key_ok 32 (dc_key c) then Ok (dc_key c) else Err (Data (Lit "gcm key"))
  | Aes128Gcm => if gcm_key_ok 16 (dc_key c) then Ok (dc_key c) else Err (Data (Lit "gcm key"))
  | _ => Err (Data (Lit "not an aead cipher"))
  end.

Definition encrypt_aead (c : DataCipher) (header : list byte) (packet_id : Z)
    (plaintext : list byte) : res Error (list byte) :=
  let iv := aead_nonce (dc_implicit_iv c) packet_id in
  k ← aead c;
  sealed ← ok_or (gcm_seal k iv header plaintext) (Data (Lit "gcm encrypt"));
  tag_first sealed TAG_LEN.

Definition decrypt_aead (c : DataCipher) (header body : list byte)
    : res Error (Z * list byte) :=
  if (length body <? TAG_LEN)%nat then Err (Data (Lit "short gcm packet"))
  else if (length header <? 4)%nat then Panic
  else
    let packet_id := from_be (drop (length header - 4) header) in
    sealed ← tag_last body;
    let iv := aead_nonce (dc_implicit_iv c) packet_id in
    k ← aead c;
    plaintext ← ok_or (gcm_open k iv header sealed) (Data (Lit "gcm decrypt"));
    Ok (packet_id, plaintext).

Definition cbc_size (c : Cipher) : nat := match c with Aes256Cbc => 32 | _ => 16 end.

(** [iv] is the random initialisation vector drawn by [rand::fill]. *)
Definition encrypt_cbc (c : DataCipher) (iv : list byte) (packet_id : Z)
    (plaintext : list byte) : res Error (list byte) :=
  let input := be32 packet_id ++ plaintext in
  if negb (cbc_key_ok (cbc_size (dc_cipher c)) (dc_key c) iv) then Err (Data (Lit "cbc key"))
  else
    let ciphertext := cbc_encrypt (dc_key c) iv input in
    mk ← slice_to (Auth.size (dc_auth c)) (dc_mac c);
    tag ← ok_or (hmac (dc_digest c) mk (iv ++ ciphertext)) (Data (Lit "hmac"));
    Ok (tag ++ iv ++ ciphertext).

Definition decrypt_cbc (c : DataCipher) (body : list byte) : res Error (Z * list byte) :=
  let mac_len := Auth.size (dc_auth c) in
  if (length body <? mac_len + 16 + 16)%nat then Err (Data (Lit "short cbc packet"))
  else
    let tag := take mac_len body in
    let rest := drop mac_len body in
    let iv := take 16 rest in
    let ciphertext := drop 16 rest in
    mk ← slice_to mac_len (dc_mac c);
    expected ← ok_or (hmac (dc_digest c) mk (iv ++ ciphertext)) (Data (Lit "hmac"));
    if negb (constant_time_eq expected tag) then Err (Data (Lit "hmac mismatch"))
    else if negb (cbc_key_ok (cbc_size (dc_cipher c)) (dc_key c) iv)
    then Err (Data (Lit "cbc key"))
    else
      plaintext ← ok_or (cbc_decrypt (dc_key c) iv ciphertext) (Data (Lit "cbc padding"));
      if (length plaintext <? 4)%nat then Err (Data (Lit "short cbc payload"))
      else Ok (from_be (take 4 plaintext), drop 4 plaintext).

Definition encrypt (c : DataCipher) (iv nonce : list byte) (packet_id : Z)
    (plaintext : list byte) : res Error (list byte) :=
  if Cipher.is_aead (dc_cipher c) then encrypt_aead c nonce packet_id plaintext
  else encrypt_cbc c iv packet_id plaintext.

Definition decrypt (c : DataCipher) (header body : list byte) : res Error (Z * list byte) :=
  if Cipher.is_aead (dc_cipher c) then decrypt_aead c header body
  else decrypt_cbc c body.
End Ops.

(** * Properties of the shuffling helpers *)

Lemma aead_nonce_length iv id : length (aead_nonce iv id) = 12%nat.
Proof. unfold aead_nonce. len. Qed.

Lemma aead_nonce_inj iv id1 id2 :
  is_u32 id1 → is_u32 id2 → aead_nonce iv id1 = aead_nonce iv id2 → id1 = id2.
Proof.
  unfold aead_nonce, is_u32. intros H1 H2 H. apply app_inj_1 in H as [H _]; [|by rewrite !be_bytes_length].
  by apply be_bytes_inj in H.
Qed.

Lemma tag_last_first sealed :
  (TAG_LEN <= length sealed)%nat →
  ∃ body, tag_first sealed TAG_LEN = Ok body ∧ tag_last body = Ok sealed ∧
          length body = length sealed.
Proof.
  intros H. unfold tag_first. case_cmp; [lia|]. eexists. split; [done|].
  set (a := drop _ sealed). set (b := take _ sealed).
  assert (length a = TAG_LEN) as Ha by (unfold a; rewrite length_drop; lia).
  unfold tag_last. rewrite slice_from_ok, slice_to_ok by (rewrite length_app; lia). simpl.
  rewrite <- Ha, drop_app_length, take_app_length, length_app. unfold a, b.
  rewrite take_drop, length_drop, length_take. split; [done|lia].
Qed.

Lemma byte_or_eq0 a b : byte_or a b = x00 ↔ a = x00 ∧ b = x00.
Proof.
  split; [|by intros [-> ->]]. intros H. apply (f_equal b2z) in H.
  unfold byte_or in H. rewrite b2z_u8 in H. change (b2z x00) with 0 in H.
  pose proof (b2z_range a). pose proof (b2z_range b).
  rewrite Z.mod_small in H.
  - apply Z.lor_eq_0_iff in H as [? ?]. by split; apply (inj b2z).
  - split; [apply Z.lor_nonneg; lia|]. destruct (decide (Z.lor (b2z a) (b2z b) = 0)); [lia|].
    change 256 with (2 ^ 8). assert (0 <= Z.lor (b2z a) (b2z b)) by (apply Z.lor_nonneg; lia).
    apply Z.log2_lt_pow2; [lia|]. rewrite Z.log2_lor by lia.
    apply Z.max_lub_lt.
    + destruct (decide (b2z a = 0)) as [->|]; [done|]. apply Z.log2_lt_pow2; lia.
    + destruct (decide (b2z b = 0)) as [->|]; [done|]. apply Z.log2_lt_pow2; lia.
Qed.

Lemma fold_diff_zero l d :
  foldl (fun diff p => byte_or diff (byte_xor p.1 p.2)) d l = x00
  ↔ d = x00 ∧ Forall (fun p => p.1 = p.2) l.
Proof.
  revert d. induction l as [|[x y] l IH]; intros d; simpl.
  - split; [by intros ->|by intros [-> _]].
  - rewrite IH, byte_or_eq0, byte_xor_eq0, Forall_cons. simpl. tauto.
Qed.

(** The constant-time comparison is equality. *)
Lemma constant_time_eq_spec a b : constant_time_eq a b = true ↔ a = b.
Proof.
  unfold constant_time_eq. destruct (Nat.eqb_spec (length a) (length b)) as [Hl|Hl]; simpl.
  - rewrite bool_decide_eq_true, fold_diff_zero. split.
    + intros [_ H]. clear -H Hl. revert b Hl H.
      induction a as [|x a IH]; intros [|y b] Hl H; try done.
      simpl in *. apply Forall_cons in H as [Hxy H]. simpl in Hxy. subst.
      f_equal. apply IH; [lia|done].
    + intros ->. split; [done|]. clear. induction b; simpl; constructor; done.
  - split; [done|]. intros ->. done.
Qed.

(** The shape [new] establishes and every operation relies on. *)
Record wf (c : DataCipher) : Prop := {
  wf_key : length (dc_key c) = Cipher.key_len (dc_cipher c);
  wf_mac : Cipher.is_aead (dc_cipher c) = false → (Auth.size (dc_auth c) <= length (dc_mac c))%nat;
  wf_digest : digest (dc_auth c) = Some (dc_digest c)
}.

Lemma digest_size a d : digest a = Some d → md_size d = Auth.size a.
Proof. by destruct a; intros [= <-]. Qed.

(** Construction. [DataCipher::new] fails exactly on a short key or, outside AEAD modes, a
    short MAC key; otherwise it yields a cipher whose key has the cipher's size and whose MAC key
    is long enough, for which no later operation can slice out of range. *)
Theorem new_wf cipher auth key mac :
  match new cipher auth key mac with
  | Ok c => wf c ∧ dc_cipher c = cipher ∧ dc_auth c = auth
  | Err _ => (length key < Cipher.key_len cipher)%nat ∨
             (Cipher.is_aead cipher = false ∧ (length mac < Auth.size auth)%nat)
  | Panic | NoFuel => False
  end.
Proof.
  unfold new. case_cmp; [by left|].
  destruct (Cipher.is_aead cipher) eqn:Ea; simpl.
  - destruct auth; simpl; (split; [split; simpl|done]); try done;
      try (rewrite length_take; lia); rewrite Ea; done.
  - case_cmp; [by right|].
    destruct auth; simpl; (split; [split; simpl|done]); try done; rewrite length_take; lia.
Qed.

Section Correct.
Context {L : CryptoLib} {Laws : CryptoLaws L}.

Lemma aead_ok c : wf c → Cipher.is_aead (dc_cipher c) = true → aead c = Ok (dc_key c).
Proof.
  intros [Hk _ _] Ha. unfold aead.
  destruct (dc_cipher c) eqn:E; simpl in *; try done;
    by rewrite (proj2 (gcm_key_ok_length _ _) Hk).
Qed.

Lemma aead_roundtrip c pre id pt :
  wf c → Cipher.is_aead (dc_cipher c) = true → is_u32 id → Z.of_nat (length pt) < 2 ^ 36 - 32 →
  ∃ body, encrypt_aead c (pre ++ be32 id) id pt = Ok body ∧
          decrypt_aead c (pre ++ be32 id) body = Ok (id, pt) ∧
          length body = (length pt + TAG_LEN)%nat.
Proof.
  intros Hwf Ha Hid Hpt. unfold encrypt_aead, decrypt_aead. rewrite aead_ok by done. simpl.
  destruct (gcm_seal_total (dc_key c) (aead_nonce (dc_implicit_iv c) id) (pre ++ be32 id) pt Hpt)
    as [s Hs]. rewrite Hs. simpl.
  pose proof (gcm_seal_length _ _ _ _ _ Hs) as Hlen.
  destruct (tag_last_first s) as (body & -> & Hlast & Hbl); [lia|].
  exists body. split; [done|]. split; [|lia].
  case_cmp; [lia|]. rewrite length_app. rewrite be_bytes_length.
  case_cmp; [lia|]. rewrite Nat.add_sub, drop_app_length, from_be32 by done.
  rewrite Hlast. simpl. by rewrite (gcm_open_seal _ _ _ _ _ Hs).
Qed.

Lemma cbc_key_ok_wf c iv :
  wf c → Cipher.is_aead (dc_cipher c) = false → length iv = 16%nat →
  cbc_key_ok (cbc_size (dc_cipher c)) (dc_key c) iv = true.
Proof.
  intros [Hk _ _] Ha Hiv. apply cbc_key_ok_length. split; [|done].
  by destruct (dc_cipher c).
Qed.

Lemma cbc_roundtrip c iv id pt :
  wf c → Cipher.is_aead (dc_cipher c) = false → length iv = 16%nat → is_u32 id →
  ∃ body, encrypt_cbc c iv id pt = Ok body ∧ decrypt_cbc c body = Ok (id, pt).
Proof.
  intros Hwf Ha Hiv Hid. unfold encrypt_cbc. rewrite cbc_key_ok_wf by done. simpl.
  set (ct := cbc_encrypt _ _ _).
  rewrite slice_to_ok by (by apply wf_mac). simpl.
  destruct (hmac_total (dc_digest c) (take (Auth.size (dc_auth c)) (dc_mac c)) (iv ++ ct))
    as (t & Ht & Htl).
  rewrite Ht. simpl. eexists. split; [done|]. unfold decrypt_cbc.
  rewrite (digest_size _ _ (wf_digest _ Hwf)) in Htl.
  rewrite !length_app. assert (16 <= length ct)%nat as Hct by apply cbc_encrypt_length.
  case_cmp; [lia|].
  rewrite <- Htl, drop_app_length, take_app_length, <- Hiv, drop_app_length, take_app_length.
  rewrite slice_to_ok by (rewrite Htl; by apply wf_mac). simpl.
  rewrite Htl, Ht. simpl. rewrite (proj2 (constant_time_eq_spec t t) eq_refl). simpl.
  rewrite cbc_key_ok_wf by done. simpl. unfold ct. rewrite cbc_decrypt_encrypt.
  unfold ok_or, mbind, res_bind.
  rewrite length_app, be_bytes_length. case_cmp; [lia|].
  by rewrite take_be_bytes, drop_be_bytes, from_be32.
Qed.
End Correct.

Section Properties.
Context {L : CryptoLib} {Laws : CryptoLaws L}.

Lemma data_cipher_ok c iv pre id pt :
  wf c → length iv = 16%nat → is_u32 id → Z.of_nat (length pt) < 2 ^ 36 - 32 →
  ∃ body, encrypt c iv (pre ++ be32 id) id pt = Ok body ∧
          decrypt c (pre ++ be32 id) body = Ok (id, pt).
Proof.
  intros Hwf Hiv Hid Hpt. unfold encrypt, decrypt.
  destruct (Cipher.is_aead (dc_cipher c)) eqn:Ha.
  - destruct (aead_roundtrip c pre id pt) as (body & ? & ? & _); eauto.
  - by apply cbc_roundtrip.
Qed.

(** C29: Round trip. A well-formed data cipher opens what it sealed, in every mode: the
    packet id and the plaintext come back, for any header that ends in the packet id and any
    random IV. *)
Theorem data_cipher_roundtrip c iv pre id pt :
  wf c → length iv = 16%nat → is_u32 id → Z.of_nat (length pt) < 2 ^ 36 - 32 →
  ∃ body, encrypt c iv (pre ++ be32 id) id pt = Ok body ∧
          decrypt c (pre ++ be32 id) body = Ok (id, pt).
Proof. apply data_cipher_ok. Qed.

(** C30: Authenticity of CBC mode. Whatever [decrypt_cbc] accepts carries, in front of its
    IV and ciphertext, the HMAC of exactly those bytes under the negotiated MAC key: a packet
    with any other tag is rejected. *)
Theorem cbc_authenticated c body id pt :
  decrypt_cbc c body = Ok (id, pt) →
  ∃ tag rest, body = tag ++ rest ∧ length tag = Auth.size (dc_auth c) ∧
    hmac (dc_digest c) (take (Auth.size (dc_auth c)) (dc_mac c)) rest = Some tag.
Proof using L.
  unfold decrypt_cbc. case_cmp; [done|]. intros Hd.
  set (n := Auth.size (dc_auth c)) in *.
  apply res_bind_ok in Hd as (mk & Hmk & Hd).
  apply res_bind_ok in Hd as (expected & Hexp & Hd).
  destruct (constant_time_eq _ _) eqn:Heq; [|done].
  apply constant_time_eq_spec in Heq. subst expected.
  exists (take n body), (drop n body).
  split; [by rewrite take_drop|]. split; [rewrite length_take; lia|].
  rewrite take_drop in Hexp.
  apply slice_to_Ok in Hmk as [-> _].
  destruct (hmac _ _ _) eqn:Eh; simpl in Hexp; congruence.
Qed.

(** No panic. On a well-formed cipher, decryption of arbitrary bytes from the network
    never slices out of range or underflows: it returns a packet or an error. (In AEAD modes
    the header has the four id bytes that the packet parser guarantees.) *)
Theorem decrypt_no_panic c header body :
  wf c → (Cipher.is_aead (dc_cipher c) = true → (4 <= length header)%nat) →
  decrypt c header body ≠ Panic.
Proof.
  intros Hwf Hh. unfold decrypt. destruct (Cipher.is_aead (dc_cipher c)) eqn:Ha.
  - unfold decrypt_aead. case_cmp; [done|]. specialize (Hh eq_refl). case_cmp; [lia|].
    unfold tag_last. rewrite slice_from_ok, slice_to_ok by lia. simpl.
    rewrite aead_ok by done. simpl. by destruct (gcm_open _ _ _ _).
  - unfold decrypt_cbc. case_cmp; [done|].
    rewrite slice_to_ok by (by apply wf_mac). simpl.
    destruct (hmac _ _ _); simpl; [|done]. repeat (case_match; try done).
    destruct (cbc_decrypt _ _ _); simpl; [|done]. by case_match.
Qed.
End Properties.

(** * A toy instance of the interface, for concrete runs *)

Definition checksum (n : nat) (l : list byte) : list byte :=
  pad_zero n (be32 (foldl (fun acc b => (31 * acc + b2z b + 1) mod 2 ^ 32) 7 l)).

#[export] Instance toy_crypto : CryptoLib := {|
  gcm_key_ok n k := (length k =? n)%nat;
  gcm_seal k n a m := if Z.of_nat (length m) <? 2 ^ 36 - 32
                      then Some (m ++ checksum TAG_LEN (k ++ n ++ a ++ m)) else None;
  gcm_open k n a s := let m := take (length s - TAG_LEN) s in
                      if decide (s = m ++ checksum TAG_LEN (k ++ n ++ a ++ m)) then Some m else None;
  cbc_key_ok n k iv := (length k =? n)%nat && (length iv =? 16)%nat;
  cbc_encrypt k iv m := replicate 16 x10 ++ m;
  cbc_decrypt k iv s := Some (drop 16 s);
  hmac d k m := Some (checksum (md_size d) (k ++ m))
|}.

Lemma checksum_length n l : length (checksum n l) = n.
Proof. apply pad_zero_length. Qed.
#[export] Hint Rewrite checksum_length : unroxy.

#[export] Instance toy_crypto_laws : CryptoLaws toy_crypto.
Proof.
  split; simpl.
  - intros n k. apply Nat.eqb_eq.
  - intros k n a m H. rewrite (proj2 (Z.ltb_lt _ _) H). eauto.
  - intros k n a m s. case_match; [|done]. intros [= <-]. len.
  - intros k n a m s. case_match; [|done]. intros [= <-].
    rewrite length_app, checksum_length, Nat.add_sub, take_app_length.
    by rewrite decide_True.
  - intros n k iv. rewrite andb_true_iff. by rewrite !Nat.eqb_eq.
  - intros k iv m. len.
  - done.
  - intros d k m. eexists. split; [done|]. apply checksum_length.
Qed.

Definition toy_cipher : DataCipher :=
  mkDataCipher Aes128Cbc Sha1 md_sha1 (replicate 16 x01) (replicate 20 x02) [].
Lemma toy_cipher_wf : wf toy_cipher.
Proof. split; simpl; [done|lia|done]. Qed.

Lemma data_cipher_roundtrip_witness :
  ∃ body, encrypt toy_cipher (replicate 16 x09) (Lit "H" ++ be32 7) 7 (Lit "payload") = Ok body ∧
          decrypt toy_cipher (Lit "H" ++ be32 7) body = Ok (7, Lit "payload").
Proof.
  apply (data_cipher_roundtrip toy_cipher (replicate 16 x09) (Lit "H") 7 (Lit "payload"));
    [exact toy_cipher_wf|reflexivity|vm_compute; split; congruence|vm_compute; reflexivity].
Defined.

Definition toy_body : list byte :=
  match encrypt_cbc toy_cipher (replicate 16 x09) 7 (Lit "payload") with Ok b => b | _ => [] end.

Lemma cbc_authenticated_witness :
  ∃ tag rest, toy_body = tag ++ rest ∧ length tag = 20%nat ∧
    hmac md_sha1 (replicate 20 x02) rest = Some tag.
Proof.
  apply (cbc_authenticated toy_cipher toy_body 7 (Lit "payload")).
  vm_compute. reflexivity.
Defined.

Lemma decrypt_no_panic_witness : decrypt toy_cipher [] (Lit "short") ≠ Panic.
Proof. apply (decrypt_no_panic toy_cipher [] (Lit "short") toy_cipher_wf). discriminate. Defined.
