(* ===== verification/Packet.v ===== *)
(** openvpn/control.rs, the wire formats: control, acknowledgement, reset and data packets,
    the length-prefixed strings, the message framing inside the TLS channel and the
    PUSH_REPLY options; openvpn/crypto/packet.rs. *)
From S2P Require Import Prelude Text OvpnConfig.

Definition P_CONTROL_HARD_RESET_CLIENT_V2 : Z := 7.
Definition P_CONTROL_HARD_RESET_SERVER_V2 : Z := 8.
Definition P_CONTROL_V1 : Z := 4.
Definition P_ACK_V1 : Z := 5.
Definition P_DATA_V1 : Z := 6.
Definition P_DATA_V2 : Z := 9.
Definition SID_SIZE : nat := 8.
Definition MAX_ACKS : nat := 4.

(** [struct PeerId(pub u32)] *)
Definition PeerId : Type := Z.
Definition NONE : PeerId := 0.

Record Packet := mkPacket {
  opcode : Z;
  session_id : list byte;
  packet_id : Z;
  header : list byte;
  payload : list byte
}.

(** [Packet::parse]: [Panic] is the out-of-range [raw\[offset..\]] slice. *)
Definition parse (raw : list byte) : res Error (option Packet) :=
  match raw with
  | [] => Ok None
  | byte0 :: _ =>
      let opcode := Z.shiftr (b2z byte0) 3 in
      if (opcode =? P_DATA_V1) || (opcode =? P_DATA_V2) then
        let header_len := if opcode =? P_DATA_V2 then 4%nat else 1%nat in
        if (length raw <? header_len + 4)%nat then Ok None
        else Ok (Some {| opcode := opcode; session_id := []; packet_id := 0;
                         header := take (header_len + 4) raw;
                         payload := drop (header_len + 4) raw |})
      else if (length raw <? 1 + SID_SIZE + 1)%nat then Ok None
      else
        let session_id := take SID_SIZE (drop 1 raw) in
        let count := Z.to_nat (b2z (nth (1 + SID_SIZE) raw x00)) in
        let offset := (1 + SID_SIZE + 1)%nat in
        if (length raw <? offset + count * 4)%nat then Ok None
        else
          let offset := (offset + count * 4)%nat in
          let offset := if (0 <? count)%nat then (offset + SID_SIZE)%nat else offset in
          let id_off :=
            if opcode =? P_ACK_V1 then Some (0, offset)
            else if (length raw <? offset + 4)%nat then None
            else Some (from_be (take 4 (drop offset raw)), (offset + 4)%nat) in
          match id_off with
          | None => Ok None
          | Some (packet_id, offset) =>
              rest ← slice_from offset raw;
              Ok (Some {| opcode := opcode; session_id := session_id; packet_id := packet_id;
                          header := []; payload := rest |})
          end
  end.

Definition opcode_byte (op : Z) : byte := u8 (Z.shiftl op 3).

Definition reset_packet (session_id : list byte) : list byte :=
  opcode_byte P_CONTROL_HARD_RESET_CLIENT_V2 :: session_id ++ [x00] ++ be32 0.

Definition encode_acks (packet_ids : list Z) (remote_session_id : list byte) : list byte :=
  let count := Nat.min (length packet_ids) MAX_ACKS in
  u8 (Z.of_nat count) :: concat (be32 <$> take count packet_ids)
    ++ (if (0 <? count)%nat then remote_session_id else []).

(** The bytes [send_control] writes. *)
Definition control_bytes (session_id : list byte) (acked : list Z) (remote : list byte)
    (packet_id : Z) (payload : list byte) : list byte :=
  opcode_byte P_CONTROL_V1 :: session_id ++ encode_acks acked remote ++ be32 packet_id ++ payload.

(** The bytes [send_ack] writes. *)
Definition ack_bytes (session_id : list byte) (acked : list Z) (remote : list byte) : list byte :=
  opcode_byte P_ACK_V1 :: session_id ++ encode_acks acked remote.

(** The bytes [retransmit_control] writes: an empty acknowledgement block. *)
Definition retransmit_bytes (session_id : list byte) (packet_id : Z) (payload : list byte)
    : list byte :=
  opcode_byte P_CONTROL_V1 :: session_id ++ [x00] ++ be32 packet_id ++ payload.

Definition data_header (cipher : Cipher) (key_id : Z) (peer_id : PeerId) : list byte :=
  if Cipher.is_aead cipher
  then u8 (Z.lor (Z.shiftl P_DATA_V2 3) (Z.land key_id 7)) :: take 3 (drop 1 (be32 peer_id))
  else [u8 (Z.lor (Z.shiftl P_DATA_V1 3) (Z.land key_id 7))].

Definition write_string (out value : list byte) : res Error (list byte) :=
  if 2 ^ 16 - 1 <? Z.of_nat (length value) then Err (Control (Lit "string too long"))
  else Ok (out ++ be16 (Z.of_nat (length value)) ++ value).

(** * [Reader] *)

Record Reader := mkReader { rdata : list byte; roffset : nat }.
Module Reader.
Definition new (data : list byte) : Reader := {| rdata := data; roffset := 0 |}.
Definition u8 (r : Reader) : byte * Reader :=
  (default x00 (rdata r !! roffset r), {| rdata := rdata r; roffset := S (roffset r) |}).
Definition u32 (r : Reader) : Z * Reader :=
  if (length (rdata r) <? roffset r + 4)%nat then (0, r)
  else (from_be (take 4 (drop (roffset r) (rdata r))),
        {| rdata := rdata r; roffset := roffset r + 4 |}).
Definition take (r : Reader) (len : nat) : option (list byte * Reader) :=
  if (length (rdata r) <? roffset r + len)%nat then None
  else Some (list.take len (drop (roffset r) (rdata r)),
             {| rdata := rdata r; roffset := roffset r + len |}).
End Reader.

(** * Messages inside the TLS channel *)

(** [buffer.windows(prefix.len()).position(|w| w == prefix)] *)
Fixpoint find_sub (prefix l : list byte) : option nat :=
  if starts_with prefix l then Some 0%nat
  else match l with [] => None | _ :: r => S <$> find_sub prefix r end.

Fixpoint find_byte (c : byte) (l : list byte) : option nat :=
  match l with
  | [] => None
  | b :: r => if decide (b = c) then Some 0%nat else S <$> find_byte c r
  end.

(** [take_message]: the buffer is mutated, [drain(..=end)] also drops what precedes the message. *)
Definition take_message (buffer prefix : list byte) : list byte * option str :=
  match find_sub prefix buffer with
  | None => (buffer, None)
  | Some start =>
      match find_byte x00 (drop start buffer) with
      | None => (buffer, None)
      | Some offset =>
          let stop := (start + offset)%nat in
          (drop (S stop) buffer,
           Some (from_utf8_lossy (take (stop - start) (drop start buffer))))
      end
  end.

(** * PUSH_REPLY *)

Record Pushed := mkPushed {
  pushed_cipher : option Cipher;
  pushed_peer_id : option PeerId;
  pushed_local : option (Z * Z * Z * Z);
  pushed_remote : option (Z * Z * Z * Z)
}.
Definition pushed_default : Pushed := mkPushed None None None None.

Fixpoint first_cipher (names : list str) : option Cipher :=
  match names with
  | [] => None
  | n :: ns => match Cipher.parse n with Some c => Some c | None => first_cipher ns end
  end.

Definition push_line (p : Pushed) (line : str) : Pushed :=
  let line := trim line in
  match strip_prefix (Lit "peer-id ") line with
  | Some peer =>
      match parse_u32 (trim peer) with
      | Some id => mkPushed (pushed_cipher p) (Some id) (pushed_local p) (pushed_remote p)
      | None => p
      end
  | None =>
  match strip_prefix (Lit "cipher ") line with
  | Some name =>
      match Cipher.parse name with
      | Some c => mkPushed (Some c) (pushed_peer_id p) (pushed_local p) (pushed_remote p)
      | None => p
      end
  | None =>
  match strip_prefix (Lit "data-ciphers ") line with
  | Some names =>
      match first_cipher (split_on ":"%byte names) with
      | Some c => mkPushed (Some c) (pushed_peer_id p) (pushed_local p) (pushed_remote p)
      | None => p
      end
  | None =>
  match strip_prefix (Lit "ifconfig ") line with
  | Some rest =>
      let parts := split_whitespace rest in
      mkPushed (pushed_cipher p) (pushed_peer_id p)
               (parts !! 0%nat ≫= parse_ipv4) (parts !! 1%nat ≫= parse_ipv4)
  | None => p
  end end end end.

Definition parse_push (reply : str) : Pushed :=
  foldl push_line pushed_default (split_on ","%byte reply).

Example parses_push_reply :
  parse_push (Lit "PUSH_REPLY,route-gateway 10.8.0.1,ifconfig 10.8.0.6 255.255.255.0,peer-id 3,data-ciphers AES-256-CBC:AES-128-GCM,cipher AES-256-GCM")
  = mkPushed (Some Aes256Gcm) (Some 3) (Some (10, 8, 0, 6)) (Some (255, 255, 255, 0)).
Proof. vm_compute. reflexivity. Qed.

(** * What the client writes, the parser reads back *)

Lemma opcode_byte_op op : 0 <= op < 32 → Z.shiftr (b2z (opcode_byte op)) 3 = op.
Proof.
  intros H. unfold opcode_byte. rewrite b2z_u8, Z.shiftl_mul_pow2, Z.shiftr_div_pow2 by lia.
  rewrite Z.mod_small by lia. by apply Z.div_mul.
Qed.

Lemma encode_acks_length acks remote :
  length remote = SID_SIZE →
  length (encode_acks acks remote)
  = (1 + Nat.min (length acks) MAX_ACKS * 4 +
     if (0 <? Nat.min (length acks) MAX_ACKS)%nat then SID_SIZE else 0)%nat.
Proof.
  intros Hr. unfold encode_acks. set (n := Nat.min _ _). simpl. rewrite length_app.
  assert (∀ l : list Z, length (concat (be32 <$> l)) = (length l * 4)%nat) as Hc.
  { induction l as [|x l IH]; [done|]. rewrite fmap_cons. simpl.
    rewrite length_app, be_bytes_length, IH. done. }
  rewrite Hc, length_take. replace (Nat.min n (length acks)) with n by lia.
  destruct (0 <? n)%nat; simpl; lia.
Qed.

(** The parser's view of a header that starts with [opcode, session id, acks]. *)
Lemma parse_control_prefix op sid acks remote rest :
  op ≠ P_DATA_V1 → op ≠ P_DATA_V2 → 0 <= op < 32 →
  length sid = SID_SIZE → length remote = SID_SIZE →
  parse (opcode_byte op :: sid ++ encode_acks acks remote ++ rest)
  = if op =? P_ACK_V1 then
      Ok (Some {| opcode := op; session_id := sid; packet_id := 0; header := []; payload := rest |})
    else if (length rest <? 4)%nat then Ok None
    else Ok (Some {| opcode := op; session_id := sid; packet_id := from_be (take 4 rest);
                     header := []; payload := drop 4 rest |}).
Proof.
  intros H1 H2 Hop Hs Hr. unfold parse, SID_SIZE. rewrite opcode_byte_op by done.
  rewrite (proj2 (Z.eqb_neq _ _) H1), (proj2 (Z.eqb_neq _ _) H2). cbn [orb].
  pose proof (encode_acks_length acks remote Hr) as Hlen.
  set (acksb := encode_acks acks remote) in *. set (n := Nat.min (length acks) MAX_ACKS) in *.
  assert (n <= 4)%nat as Hn4 by (unfold n, MAX_ACKS; lia).
  set (raw := opcode_byte op :: sid ++ acksb ++ rest).
  assert (length raw = (9 + length acksb + length rest)%nat) as Hraw.
  { unfold raw. cbn [length]. rewrite !length_app. unfold SID_SIZE in Hs. lia. }
  unfold SID_SIZE in Hs, Hr, Hlen. case_cmp; [lia|].
  replace (nth (1 + 8) raw x00) with (u8 (Z.of_nat n)).
  2:{ unfold raw. change (1 + 8)%nat with (S 8). cbn [nth]. rewrite app_nth2 by lia.
      rewrite Hs, Nat.sub_diag. done. }
  rewrite b2z_u8, Z.mod_small, Nat2Z.id by lia.
  assert (take 8 (drop 1 raw) = sid) as ->.
  { change (take 8 (sid ++ acksb ++ rest) = sid). by rewrite <- Hs, take_app_length. }
  case_cmp; [lia|]. cbv zeta.
  set (off := if (0 <? n)%nat then _ else _).
  assert (off = (9 + length acksb)%nat) as ->.
  { unfold off. revert Hlen. destruct (0 <? n)%nat; lia. }
  assert (drop (9 + length acksb) raw = rest) as Hdrop.
  { unfold raw. change (opcode_byte op :: sid ++ acksb ++ rest)
      with ((opcode_byte op :: sid) ++ acksb ++ rest).
    rewrite app_assoc. apply drop_app_length'. rewrite length_app. cbn [length]. lia. }
  destruct (op =? P_ACK_V1).
  - rewrite slice_from_ok by lia. by rewrite Hdrop.
  - rewrite Hraw. destruct (Nat.ltb_spec (length rest) 4) as [Hl|Hl].
    + rewrite (proj2 (Nat.ltb_lt _ _)) by lia. done.
    + rewrite (proj2 (Nat.ltb_ge _ _)) by lia.
      rewrite slice_from_ok by lia.
      rewrite <- (drop_drop raw 4 (9 + length acksb)). by rewrite Hdrop.
Qed.

(** Round trip. Every packet the client writes on the control channel (data-bearing
    control packet with its acknowledgements, retransmission, pure acknowledgement, reset) is
    parsed back to its opcode, session id, packet id and payload. *)
Theorem control_packets_roundtrip sid acks remote id data :
  length sid = SID_SIZE → length remote = SID_SIZE → is_u32 id →
  parse (control_bytes sid acks remote id data) = Ok (Some (mkPacket P_CONTROL_V1 sid id [] data)) ∧
  parse (retransmit_bytes sid id data) = Ok (Some (mkPacket P_CONTROL_V1 sid id [] data)) ∧
  parse (ack_bytes sid acks remote) = Ok (Some (mkPacket P_ACK_V1 sid 0 [] [])) ∧
  parse (reset_packet sid) = Ok (Some (mkPacket P_CONTROL_HARD_RESET_CLIENT_V2 sid 0 [] [])).
Proof.
  intros Hs Hr Hid.
  assert (∀ id data, is_u32 id → (length (be32 id ++ data) <? 4)%nat = false) as Hlen.
  { intros i d _. apply Nat.ltb_ge. rewrite length_app, be_bytes_length. lia. }
  assert ([x00] = encode_acks [] remote) as Hnil by done.
  repeat split.
  - unfold control_bytes. rewrite parse_control_prefix by done. simpl.
    by rewrite Hlen, take_be_bytes, drop_be_bytes, from_be32.
  - unfold retransmit_bytes. rewrite Hnil, parse_control_prefix by done. simpl.
    by rewrite Hlen, take_be_bytes, drop_be_bytes, from_be32.
  - unfold ack_bytes. rewrite <- (app_nil_r (encode_acks _ _)).
    by rewrite parse_control_prefix.
  - unfold reset_packet. rewrite Hnil. rewrite <- (app_nil_r (be32 0)).
    rewrite parse_control_prefix by done. simpl.
    by rewrite Hlen, take_be_bytes, drop_be_bytes, from_be32.
Qed.

Lemma data_header_cases cipher peer :
  data_header cipher 0 peer
  = if Cipher.is_aead cipher then opcode_byte P_DATA_V2 :: take 3 (drop 1 (be32 peer))
    else [opcode_byte P_DATA_V1].
Proof. by destruct cipher. Qed.

(** A data packet: what [send_data] prepends is what the parser calls the header. *)
Lemma parse_data_packet cipher peer id body :
  parse (data_header cipher 0 peer ++ be32 id ++ body)
  = Ok (Some (mkPacket (if Cipher.is_aead cipher then P_DATA_V2 else P_DATA_V1) [] 0
                       (data_header cipher 0 peer ++ be32 id) body)).
Proof.
  rewrite data_header_cases. destruct (Cipher.is_aead cipher).
  - assert (length (opcode_byte P_DATA_V2 :: take 3 (drop 1 (be32 peer))) = 4%nat) as Hl.
    { simpl. rewrite length_take, length_drop, be_bytes_length. done. }
    change ((opcode_byte P_DATA_V2 :: take 3 (drop 1 (be32 peer))) ++ be32 id ++ body)
      with (opcode_byte P_DATA_V2 :: (take 3 (drop 1 (be32 peer)) ++ be32 id ++ body)).
    unfold parse. rewrite opcode_byte_op by (unfold P_DATA_V2; lia). simpl (_ || _). cbv iota.
    change (P_DATA_V2 =? P_DATA_V2) with true. cbv iota zeta.
    change (opcode_byte P_DATA_V2 :: (take 3 (drop 1 (be32 peer)) ++ be32 id ++ body))
      with ((opcode_byte P_DATA_V2 :: take 3 (drop 1 (be32 peer))) ++ be32 id ++ body).
    set (h := opcode_byte P_DATA_V2 :: _) in *. rewrite app_assoc.
    assert (length (h ++ be32 id) = (4 + 4)%nat) as Hl2 by (rewrite length_app, be_bytes_length; lia).
    rewrite length_app, Hl2. case_cmp; [lia|].
    by rewrite <- Hl2, take_app_length, drop_app_length.
  - change ([opcode_byte P_DATA_V1] ++ be32 id ++ body) with (opcode_byte P_DATA_V1 :: be32 id ++ body).
    change ([opcode_byte P_DATA_V1] ++ be32 id) with (opcode_byte P_DATA_V1 :: be32 id).
    unfold parse. rewrite opcode_byte_op by (unfold P_DATA_V1; lia).
    change ((P_DATA_V1 =? P_DATA_V1) || (P_DATA_V1 =? P_DATA_V2)) with true.
    change (P_DATA_V1 =? P_DATA_V2) with false. cbv iota zeta.
    change (opcode_byte P_DATA_V1 :: be32 id ++ body) with ((opcode_byte P_DATA_V1 :: be32 id) ++ body).
    assert (length (opcode_byte P_DATA_V1 :: be32 id) = (1 + 4)%nat) as Hl2 by (simpl; by rewrite be_bytes_length).
    rewrite length_app, Hl2. case_cmp; [lia|].
    by rewrite <- Hl2, take_app_length, drop_app_length.
Qed.

(** C28: Bounds. The parser accesses its input out of range (and so panics) on exactly one
    family of datagrams: acknowledgements (opcode 5) that announce some packet ids and carry
    them, but end before the eight bytes of the remote session id. Every other byte string,
    whatever its length and opcode, is parsed or rejected. *)
Theorem parse_panics_iff raw :
  parse raw = Panic ↔
  let count := Z.to_nat (b2z (nth 9 raw x00)) in
  (10 <= length raw)%nat ∧ Z.shiftr (b2z (nth 0 raw x00)) 3 = P_ACK_V1 ∧
  (0 < count)%nat ∧ (10 + 4 * count <= length raw < 18 + 4 * count)%nat.
Proof.
  unfold parse. destruct raw as [|b0 r]; [split; [done|simpl; lia]|].
  change (nth 0 (b0 :: r) x00) with b0. unfold SID_SIZE. change (1 + 8)%nat with 9%nat.
  set (raw := b0 :: r) in *. set (op := Z.shiftr (b2z b0) 3) in *.
  set (count := Z.to_nat (b2z (nth 9 raw x00))). cbv zeta.
  destruct (Z.eqb_spec op P_DATA_V1) as [->|Hd1].
  { simpl. case_cmp; split; (done || (unfold P_DATA_V1, P_ACK_V1; lia)). }
  destruct (Z.eqb_spec op P_DATA_V2) as [->|Hd2].
  { simpl. case_cmp; split; (done || (unfold P_DATA_V2, P_ACK_V1; lia)). }
  cbn [orb]. case_cmp; [split; [done|lia]|]. case_cmp; [split; [done|lia]|].
  set (off := if (0 <? count)%nat then _ else _).
  destruct (Z.eqb_spec op P_ACK_V1) as [->|Hack].
  - unfold slice_from. case_cmp; cbn [mbind res_bind].
    + split; [done|]. intros (_ & _ & ? & ?). unfold off in *.
      destruct (Nat.ltb_spec 0 count); lia.
    + split; [|done]. intros _. unfold off in *. destruct (Nat.ltb_spec 0 count); lia.
  - case_cmp; [split; [done|lia]|]. rewrite slice_from_ok by lia. simpl. split; [done|lia].
Qed.

(** The smallest such datagram: one acknowledged id, nothing after it. *)
Definition truncated_ack : list byte := opcode_byte P_ACK_V1 :: replicate 8 x09 ++ [x01] ++ be32 5.

(** The parser takes four bytes after the opcode (or the peer id) as the packet id of an AEAD
    packet, also from a CBC packet, whose body starts there with its HMAC tag. *)
Lemma data_body_loses_four op peer body : b2z op / 8 = P_DATA_V2 → length peer = 3%nat → (4 <= length body)%nat →
  ∃ p, parse (op :: peer ++ body) = Ok (Some p) ∧ payload p = drop 4 body.
Proof.
  intros Hop Hp Hb. destruct peer as [|a [|b [|c [|]]]]; try done. cbn [app].
  unfold parse. rewrite Z.shiftr_div_pow2 by lia. change (2 ^ 3) with 8. rewrite Hop.
  cbv zeta. rewrite Z.eqb_refl, orb_true_r, (proj2 (Nat.ltb_ge _ _)) by (cbn [length]; lia).
  eexists. split; [reflexivity|]. done.
Qed.

Example truncated_ack_panics : parse truncated_ack = Panic.
Proof. vm_compute. reflexivity. Qed.

(** Round trip. A data packet framed by the client is parsed into the header the cipher
    authenticates and the sealed body, for every cipher, peer id and packet counter. *)
Theorem data_packet_roundtrip cipher peer id body :
  parse (data_header cipher 0 peer ++ be32 id ++ body)
  = Ok (Some (mkPacket (if Cipher.is_aead cipher then P_DATA_V2 else P_DATA_V1) [] 0
                       (data_header cipher 0 peer ++ be32 id) body)).
Proof. apply parse_data_packet. Qed.

(** * The message framing *)

Lemma find_sub_spec prefix l n :
  find_sub prefix l = Some n →
  (n <= length l)%nat ∧ starts_with prefix (drop n l) = true ∧
  ∀ m, (m < n)%nat → starts_with prefix (drop m l) = false.
Proof.
  revert n. induction l as [|b l IH]; intros n; simpl.
  - destruct (starts_with prefix []) eqn:E; [|done]. intros [= <-].
    split; [lia|]. split; [done|]. intros m Hm. lia.
  - destruct (starts_with prefix (b :: l)) eqn:E.
    + intros [= <-]. split; [lia|]. split; [done|]. intros m Hm. lia.
    + intros (k & Hk & ->)%fmap_Some. destruct (IH k Hk) as (Hle & Hs & Hm).
      split; [lia|]. split; [done|]. intros [|m] Hlt; [done|]. apply Hm. lia.
Qed.

Lemma find_sub_app prefix pre msg :
  (∀ m, (m < length pre)%nat → starts_with prefix (drop m (pre ++ msg)) = false) →
  starts_with prefix msg = true → find_sub prefix (pre ++ msg) = Some (length pre).
Proof.
  induction pre as [|b pre IH]; intros Hno Hs; simpl.
  - destruct msg; simpl; by rewrite Hs.
  - pose proof (Hno 0%nat ltac:(simpl; lia)) as H0. simpl in H0. rewrite H0.
    rewrite IH; [done| |done]. intros m Hm. apply (Hno (S m)). simpl. lia.
Qed.

Lemma find_byte_app c p q : c ∉ p → find_byte c (p ++ c :: q) = Some (length p).
Proof.
  induction p as [|b p IH]; intros Hp; simpl; [by rewrite decide_True|].
  apply not_elem_of_cons in Hp as [? ?]. rewrite decide_False by done. by rewrite IH.
Qed.

(** Message framing. A NUL-terminated message that starts with the wanted prefix is taken
    whole from the TLS plaintext buffer, once: it is returned, the bytes before it and its
    terminator are dropped, and what follows stays for the next call. *)
Theorem take_message_spec pre prefix msg tail :
  (∀ m, (m < length pre)%nat → starts_with prefix (drop m (pre ++ msg ++ x00 :: tail)) = false) →
  starts_with prefix (msg ++ x00 :: tail) = true → x00 ∉ msg →
  take_message (pre ++ msg ++ x00 :: tail) prefix = (tail, Some (from_utf8_lossy msg)).
Proof.
  intros Hno Hs Hz. unfold take_message. rewrite find_sub_app by done.
  rewrite drop_app_length, find_byte_app by done. cbv zeta.
  rewrite Nat.add_sub_swap, Nat.sub_diag by lia. simpl (0 + _)%nat.
  rewrite take_app_length. f_equal.
  rewrite app_assoc.
  replace (S (length pre + length msg)) with (length (pre ++ msg) + 1)%nat by (rewrite length_app; lia).
  by rewrite <- drop_drop, drop_app_length.
Qed.

Lemma take_message_spec_witness :
  take_message (Lit "xyAUTH_FAILED,bad" ++ x00 :: Lit "tail") (Lit "AUTH_FAILED")
  = (Lit "tail", Some (Lit "AUTH_FAILED,bad")).
Proof.
  apply (take_message_spec (Lit "xy") (Lit "AUTH_FAILED") (Lit "AUTH_FAILED,bad") (Lit "tail")).
  - intros [|[|m]] Hm; [vm_compute; reflexivity..|simpl in Hm; lia].
  - vm_compute; reflexivity.
  - apply (bool_decide_eq_true_1 _). vm_compute. reflexivity.
Defined.

(** An incomplete message leaves the buffer as it was. *)
Lemma take_message_none buffer prefix b :
  take_message buffer prefix = (b, None) → b = buffer.
Proof. unfold take_message. repeat case_match; naive_solver. Qed.

Lemma control_packets_roundtrip_witness :
  parse (control_bytes (replicate 8 x01) [3; 2; 1] (replicate 8 x02) 7 (Lit "tls"))
  = Ok (Some (mkPacket P_CONTROL_V1 (replicate 8 x01) 7 [] (Lit "tls"))).
Proof.
  refine (proj1 (control_packets_roundtrip (replicate 8 x01) [3; 2; 1] (replicate 8 x02) 7
                   (Lit "tls") eq_refl eq_refl _)).
  unfold is_u32. lia.
Defined.

(** * PUSH_REPLY options *)

Lemma show_uint_graphic id : 0 <= id < 10 ^ 20 → Forall (fun b => graphic b = true) (show_uint id).
Proof.
  intros H. destruct (show_uint_digits id H) as [_ Hd].
  eapply Forall_impl; [exact Hd|]. apply digit_graphic.
Qed.

Lemma trim_option name value b r :
  name = b :: r → graphic b = true → value ≠ [] → Forall (fun b => graphic b = true) value →
  trim (name ++ value) = name ++ value.
Proof.
  intros -> Hb Hne Hv. destruct (last value) as [c|] eqn:E; [|by apply last_None in E].
  apply last_Some in E as [v' ->]. apply Forall_app in Hv as [_ Hc]. apply Forall_inv in Hc.
  eapply (trim_graphic_ends _ b c (r ++ v' ++ [c])); [by left|done| |done].
  left. by rewrite app_assoc, last_snoc.
Qed.

Lemma digits_not_comma l : Forall (fun b => is_digit b = true) l → ","%byte ∉ l.
Proof. intros H Hin. by rewrite Forall_forall in H; apply H in Hin. Qed.

(** The options of a PUSH_REPLY. A pushed peer id (any u32) and a pushed cipher name are
    read back as the peer id and the cipher. *)
Theorem push_reply_roundtrip id c :
  is_u32 id →
  parse_push (Lit "PUSH_REPLY,peer-id " ++ show_uint id ++ Lit ",cipher " ++ Cipher.fmt c)
  = mkPushed (Some c) (Some id) None None.
Proof.
  unfold is_u32. intros Hid. assert (0 <= id < 10 ^ 20) as Hb by lia.
  destruct (show_uint_digits id Hb) as [Hne Hdig].
  unfold parse_push.
  change (Lit "PUSH_REPLY,peer-id " ++ show_uint id ++ Lit ",cipher " ++ Cipher.fmt c)
    with (Lit "PUSH_REPLY" ++ ","%byte ::
          (Lit "peer-id " ++ show_uint id ++ ","%byte :: (Lit "cipher " ++ Cipher.fmt c))).
  rewrite split_on_app by (apply (bool_decide_eq_true_1 _); vm_compute; reflexivity).
  rewrite (app_assoc (Lit "peer-id ")), split_on_app.
  2:{ rewrite elem_of_app. intros [Hin|Hin]; [|by eapply digits_not_comma].
      revert Hin. apply (bool_decide_eq_true_1 _). vm_compute. reflexivity. }
  replace (split_on ","%byte (Lit "cipher " ++ Cipher.fmt c)) with [Lit "cipher " ++ Cipher.fmt c]
    by (destruct c; vm_compute; reflexivity).
  assert (push_line pushed_default (Lit "peer-id " ++ show_uint id)
          = mkPushed None (Some id) None None) as Hpeer.
  { unfold push_line. cbv zeta.
    rewrite (trim_option _ _ "p"%byte (Lit "eer-id ")) by (done || by apply show_uint_graphic).
    rewrite (proj2 (strip_prefix_Some (Lit "peer-id ") _ (show_uint id)) eq_refl).
    rewrite trim_graphic by (by apply show_uint_graphic).
    unfold parse_u32. by rewrite parse_show_uint by lia. }
  cbn [foldl].
  replace (push_line pushed_default (Lit "PUSH_REPLY")) with pushed_default
    by (vm_compute; reflexivity).
  rewrite Hpeer. destruct c; vm_compute; reflexivity.
Qed.

Lemma push_reply_roundtrip_witness :
  parse_push (Lit "PUSH_REPLY,peer-id 4294967295,cipher AES-128-CBC")
  = mkPushed (Some Aes128Cbc) (Some 4294967295) None None.
Proof.
  apply (push_reply_roundtrip 4294967295 Aes128Cbc). unfold is_u32. lia.
Defined.
