(* ===== verification/Framing.v ===== *)
(** openvpn/framing.rs: length-prefixed packets over a TCP byte stream, with the behaviour of
    tokio's [read_exact] when the bytes have not all arrived and the read is cancelled. *)
From S2P Require Import Prelude Text OvpnConfig.

Definition MAX_PACKET : Z := 65535.

(** The receiving half of a TCP connection: the bytes that have arrived and were not read,
    and whether the peer closed its side. *)
Record Stream := mkStream { arrived : list byte; eof : bool }.

(** Bytes arriving from the network. *)
Definition deliver (s : Stream) (bs : list byte) : Stream :=
  {| arrived := arrived s ++ bs; eof := eof s |}.

(** Polling a read until it would block: a pending read has already moved the arrived bytes into
    the buffer of its future. *)
Definition read_exact (n : nat) (s : Stream) : poll (res Error (list byte)) * Stream :=
  if (n <=? length (arrived s))%nat then
    (Ready (Ok (take n (arrived s))), {| arrived := drop n (arrived s); eof := eof s |})
  else if eof s then (Ready (Err (Io (Lit "early eof"))), {| arrived := []; eof := true |})
  else (Pending, {| arrived := []; eof := false |}).

(** [read_packet], polled once; when it is pending and its [timeout] fires, the future is dropped
    and the returned stream is what the next read sees. *)
Definition read_packet (s : Stream) : poll (res Error (list byte)) * Stream :=
  match read_exact 2 s with
  | (Ready (Ok length), s) =>
      let size := Z.to_nat (from_be length) in
      if (size =? 0)%nat then (Ready (Err (Transport (Lit "empty frame"))), s)
      else match read_exact size s with
           | (Ready (Ok payload), s) => (Ready (Ok payload), s)
           | (Ready (Err e), s) => (Ready (Err e), s)
           | (Ready Panic, s) => (Ready Panic, s)
           | (Ready NoFuel, s) => (Ready NoFuel, s)
           | (Pending, s) => (Pending, s)
           end
  | (Ready (Err e), s) => (Ready (Err e), s)
  | (Ready Panic, s) => (Ready Panic, s)
  | (Ready NoFuel, s) => (Ready NoFuel, s)
  | (Pending, s) => (Pending, s)
  end.

(** [write_packet]: the frame handed to [write_all]. *)
Definition write_packet (payload : list byte) : res Error (list byte) :=
  if MAX_PACKET <? Z.of_nat (length payload) then Err (Transport (Lit "packet too large"))
  else Ok (be16 (Z.of_nat (length payload)) ++ payload).

(** Reading packets until the stream has no complete one. *)
Fixpoint read_all (fuel : nat) (s : Stream) : list (list byte) * Stream :=
  match fuel with
  | O => ([], s)
  | S fuel => match read_packet s with
              | (Ready (Ok p), s') => let '(ps, s'') := read_all fuel s' in (p :: ps, s'')
              | _ => ([], s)
              end
  end.

Definition frame_ok (p : list byte) : Prop := 1 <= Z.of_nat (length p) <= MAX_PACKET.

Lemma write_packet_ok p : frame_ok p →
  write_packet p = Ok (be16 (Z.of_nat (length p)) ++ p).
Proof. intros [_ H]. unfold write_packet. case_cmp; [lia|done]. Qed.

Lemma frame_size p : frame_ok p → Z.to_nat (from_be (be16 (Z.of_nat (length p)))) = length p.
Proof.
  intros [? H]. unfold MAX_PACKET in H. rewrite from_be16, Nat2Z.id; [done|].
  unfold is_u16. lia.
Qed.

Lemma read_exact_app bs rest e :
  read_exact (length bs) (mkStream (bs ++ rest) e) = (Ready (Ok bs), mkStream rest e).
Proof.
  unfold read_exact. cbn [arrived eof]. rewrite length_app. case_cmp; [|lia].
  by rewrite take_app_length, drop_app_length.
Qed.

Lemma read_packet_frame p rest e : frame_ok p →
  read_packet (mkStream ((be16 (Z.of_nat (length p)) ++ p) ++ rest) e) = (Ready (Ok p), mkStream rest e).
Proof.
  intros Hp. unfold read_packet. rewrite <- app_assoc.
  rewrite <- (be_bytes_length 2 (Z.of_nat (length p))) at 1. rewrite read_exact_app.
  cbv zeta. rewrite frame_size by done. destruct Hp. case_cmp; [lia|].
  by rewrite read_exact_app.
Qed.

(** The frames [write_packet] produced for a list of payloads. *)
Definition frames (ps : list (list byte)) : list byte :=
  concat ((fun p => be16 (Z.of_nat (length p)) ++ p) <$> ps).

(** Round trip. Any sequence of packets of 1 to 65535 bytes written to a connection is
    read back packet by packet in the same order, and the reader stops exactly where the next
    frame begins. *)
Theorem framing_roundtrip ps rest e :
  Forall frame_ok ps →
  Forall (fun p => write_packet p = Ok (be16 (Z.of_nat (length p)) ++ p)) ps ∧
  read_all (length ps) (mkStream (frames ps ++ rest) e) = (ps, mkStream rest e).
Proof.
  intros H. split.
  - eapply Forall_impl; [exact H|]. apply write_packet_ok.
  - induction H as [|p ps Hp _ IH]; [done|].
    cbn [length read_all]. unfold frames. rewrite fmap_cons. cbn [concat].
    rewrite <- (app_assoc (be16 (Z.of_nat (length p)) ++ p)).
    change (concat ((λ p0 : list byte, be16 (Z.of_nat (length p0)) ++ p0) <$> ps)) with (frames ps).
    rewrite read_packet_frame by done. by rewrite IH.
Qed.

(** Errors. An oversized packet is refused before anything is written, a zero length and
    a stream that ends inside a frame are errors, and none of the three panics. *)
Theorem framing_errors payload k e :
  (MAX_PACKET < Z.of_nat (length payload) → write_packet payload = Err (Transport (Lit "packet too large"))) ∧
  (read_packet (mkStream (be16 0 ++ payload) e)).1 = Ready (Err (Transport (Lit "empty frame"))) ∧
  (frame_ok payload → (k < 2 + length payload)%nat →
   (read_packet (mkStream (take k (be16 (Z.of_nat (length payload)) ++ payload)) true)).1
   = Ready (Err (Io (Lit "early eof")))).
Proof.
  split; [|split].
  - intros H. unfold write_packet. case_cmp; [done|lia].
  - unfold read_packet. rewrite <- (be_bytes_length 2 0) at 1. by rewrite read_exact_app.
  - intros Hp Hk. unfold read_packet.
    destruct (decide (k < 2)%nat) as [H2|H2].
    + unfold read_exact. cbn [arrived eof]. rewrite length_take, length_app, be_bytes_length.
      case_cmp; [lia|done].
    + rewrite take_app_ge by (rewrite be_bytes_length; lia).
      rewrite <- (be_bytes_length 2 (Z.of_nat (length payload))) at 1. rewrite read_exact_app.
      cbv zeta. rewrite frame_size by done. destruct Hp. case_cmp; [lia|].
      unfold read_exact. cbn [arrived eof]. rewrite length_take, be_bytes_length. case_cmp; [lia|done].
Qed.

(** Cancellation. A read whose timeout fires after [k] bytes of a frame arrived (not none,
    not all) takes those bytes with it: the connection then continues in the middle of the frame,
    so the packet is never returned and what the next read sees is the frame without its first
    [k] bytes. *)
Theorem cancelled_read_loses_prefix payload k :
  frame_ok payload → (0 < k < 2 + length payload)%nat →
  let frame := be16 (Z.of_nat (length payload)) ++ payload in
  read_packet (mkStream (take k frame) false) = (Pending, mkStream [] false) ∧
  deliver (read_packet (mkStream (take k frame) false)).2 (drop k frame)
  = mkStream (drop k frame) false.
Proof.
  intros Hp Hk frame.
  assert (read_packet (mkStream (take k frame) false) = (Pending, mkStream [] false)) as ->; [|done].
  unfold read_packet, frame. destruct (decide (k < 2)%nat) as [H2|H2].
  - unfold read_exact. cbn [arrived eof]. rewrite length_take, length_app, be_bytes_length.
    case_cmp; [lia|done].
  - rewrite take_app_ge by (rewrite be_bytes_length; lia).
    rewrite <- (be_bytes_length 2 (Z.of_nat (length payload))) at 1. rewrite read_exact_app.
    cbv zeta. rewrite frame_size by done. destruct Hp. case_cmp; [lia|].
    unfold read_exact. cbn [arrived eof]. rewrite length_take, be_bytes_length. case_cmp; [lia|done].
Qed.

Lemma framing_roundtrip_witness :
  read_all 2 (mkStream (frames [Lit "hello"; Lit "x"] ++ Lit "more") false)
  = ([Lit "hello"; Lit "x"], mkStream (Lit "more") false).
Proof.
  refine (proj2 (framing_roundtrip [Lit "hello"; Lit "x"] (Lit "more") false _)).
  repeat constructor; vm_compute; congruence.
Defined.

Lemma framing_errors_witness :
  (read_packet (mkStream (take 4 (be16 5 ++ Lit "hello")) true)).1
  = Ready (Err (Io (Lit "early eof"))).
Proof.
  refine (proj2 (proj2 (framing_errors (Lit "hello") 4 true)) _ _).
  - split; vm_compute; congruence.
  - vm_compute; lia.
Defined.

Lemma cancelled_read_loses_prefix_witness :
  read_packet (mkStream (take 4 (be16 5 ++ Lit "hello")) false) = (Pending, mkStream [] false).
Proof.
  refine (proj1 (cancelled_read_loses_prefix (Lit "hello") 4 _ _)).
  - split; vm_compute; congruence.
  - split; vm_compute; lia.
Defined.
