(* ===== verification/Credentials.v ===== *)
(** openvpn/tls.rs, [CredentialStore]: the TLS context of a tunnel, from the PEM texts of its
    profile. The certificates, keys and the context builder are the btls library. *)
From S2P Require Import Prelude Text OvpnConfig.

(** What the library answers; an error is its text. *)
Class BtlsLib := {
  X509 : Type;
  PKey : Type;
  connector_builder : str + ();                           (* SslConnector::builder(SslMethod::tls()) *)
  store_builder : str + ();                               (* X509StoreBuilder::new() *)
  stack_from_pem : list byte → str + list X509;
  from_pem : list byte → str + X509;
  private_key_from_pem : list byte → str + PKey;
  add_cert : list X509 → X509 → str + ();                 (* to a store that holds the first *)
  set_certificate : X509 → str + ();
  set_private_key : PKey → str + ();
  check_private_key : X509 → PKey → str + ()
}.

Section Credentials.
Context {B : BtlsLib}.

Record CredentialStore := mkStore { s_cert : list byte; s_key : list byte; s_ca : list byte }.
Definition store_new (c : Credentials) : CredentialStore := mkStore (cert c) (OvpnConfig.key c) (ca c).

(** The parts of the context that the code sets. *)
Record SslContext := mkContext { verify_peer : bool; cert_store : list X509; certificate : X509; private_key : PKey }.

(** [map_err(|err| Error::Tls(format!("{err:?}")))] *)
Definition tls {A} (r : str + A) : res Error A := match r with inr a => Ok a | inl err => Err (Tls err) end.

Fixpoint add_certs (store anchors : list X509) : res Error (list X509) :=
  match anchors with
  | [] => Ok store
  | anchor :: anchors => _ ← tls (add_cert store anchor); add_certs (store ++ [anchor]) anchors
  end.

Definition context (s : CredentialStore) (host : str) : res Error SslContext :=
  _ ← tls connector_builder;
  _ ← tls store_builder;
  anchors ← tls (stack_from_pem (s_ca s));
  store ← add_certs [] anchors;
  cert ← tls (from_pem (s_cert s));
  key ← tls (private_key_from_pem (s_key s));
  _ ← tls (set_certificate cert);
  _ ← tls (set_private_key key);
  _ ← tls (check_private_key cert key);
  Ok (mkContext true store cert key).

(** * Properties *)

Lemma tls_ok {A} (r : str + A) a : tls r = Ok a ↔ r = inr a.
Proof using Type. destruct r; simpl; naive_solver. Qed.

Lemma add_certs_ok store anchors store' : add_certs store anchors = Ok store' → store' = store ++ anchors.
Proof using Type.
  revert store. induction anchors as [|a anchors IH]; intros store; cbn [add_certs]; [intros [= <-]; by rewrite app_nil_r|].
  intros (_ & _ & H)%res_bind_ok. rewrite (IH _ H). by rewrite <- app_assoc.
Qed.

(** Nothing but TLS errors. *)
Definition tls_only {A} (r : res Error A) : Prop := match r with Ok _ | Err (Tls _) => True | _ => False end.
Lemma tls_only_bind {A A'} (r : res Error A) (f : A → res Error A') : tls_only r → (∀ a, tls_only (f a)) → tls_only (r ≫= f).
Proof using Type. intros Hr Hf. destruct r as [a|e| |]; [apply Hf|done..]. Qed.
Lemma tls_only_tls {A} (r : str + A) : tls_only (tls r).
Proof using Type. by destruct r. Qed.
Lemma tls_only_certs store anchors : tls_only (add_certs store anchors).
Proof using Type.
  revert store. induction anchors as [|a anchors IH]; intros store; cbn [add_certs]; [done|]. apply tls_only_bind; [apply tls_only_tls|intros _; apply IH].
Qed.
Lemma context_errors s host : tls_only (context s host).
Proof using Type.
  unfold context. repeat (apply tls_only_bind; [first [apply tls_only_tls|apply tls_only_certs]|intros ?]). done.
Qed.

(** The trust of a tunnel. A context always verifies the server, trusts exactly the certificates of
    the profile's CA text, and carries the profile's certificate with the key that belongs to it;
    the host's name plays no part. Anything the library does not accept is a TLS error. *)
Theorem context_spec c host :
  match context (store_new c) host with
  | Ok x =>
      verify_peer x = true ∧ stack_from_pem (ca c) = inr (cert_store x) ∧ from_pem (cert c) = inr (certificate x) ∧
      private_key_from_pem (OvpnConfig.key c) = inr (private_key x) ∧ check_private_key (certificate x) (private_key x) = inr () ∧
      ∀ other, context (store_new c) other = Ok x
  | Err (Tls _) => True
  | _ => False
  end.
Proof using Type.
  pose proof (context_errors (store_new c) host) as Hr. destruct (context (store_new c) host) as [x|e| |] eqn:E; try exact Hr.
  pose proof E as E'. unfold context in E. cbn [store_new s_ca s_cert s_key] in E.
  apply res_bind_ok in E as (_ & _ & E). apply res_bind_ok in E as (_ & _ & E).
  apply res_bind_ok in E as (anchors & Ha%tls_ok & E). apply res_bind_ok in E as (store & Hs%add_certs_ok & E).
  apply res_bind_ok in E as (crt & Hc%tls_ok & E). apply res_bind_ok in E as (k & Hk%tls_ok & E).
  apply res_bind_ok in E as (_ & _ & E). apply res_bind_ok in E as (_ & _ & E). apply res_bind_ok in E as ([] & Hck%tls_ok & E).
  injection E as <-. cbn [app] in Hs. subst store. by split_and!.
Qed.
End Credentials.

(** * A concrete library: a PEM text is its own parse, and a certificate needs the key of its name *)

#[export] Instance toy_btls : BtlsLib := {|
  X509 := list byte;
  PKey := list byte;
  connector_builder := inr ();
  store_builder := inr ();
  stack_from_pem text := if bool_decide (text = []) then inl (Lit "no certificate") else inr [text];
  from_pem text := inr text;
  private_key_from_pem text := inr text;
  add_cert _ _ := inr ();
  set_certificate _ := inr ();
  set_private_key _ := inr ();
  check_private_key c k := if bool_decide (c = k) then inr () else inl (Lit "mismatch")
|}.

Example context_toy :
  context (store_new (OvpnConfig.mkCredentials (Lit "ca") (Lit "me") (Lit "me"))) (Lit "host")
    = Ok (mkContext true [Lit "ca"] (Lit "me") (Lit "me")) ∧
  context (store_new (OvpnConfig.mkCredentials (Lit "ca") (Lit "me") (Lit "you"))) (Lit "host") = Err (Tls (Lit "mismatch")) ∧
  context (store_new (OvpnConfig.mkCredentials [] (Lit "me") (Lit "me"))) (Lit "host") = Err (Tls (Lit "no certificate")).
Proof. vm_compute. done. Qed.
