(* ===== verification/TlsChannel.v ===== *)
(** openvpn/tls.rs: the in-memory transport under the TLS engine and the state machine that
    drives handshake, plaintext and pending writes. The engine itself (BoringSSL through the
    [btls] crate) is an interface. *)
From S2P Require Import Prelude Text OvpnConfig.

(** * [MemoryStream] *)

Record MemoryStream := mkMem { inbound : list byte; outbound : list byte }.

Module Mem.
Definition default : MemoryStream := {| inbound := []; outbound := [] |}.
Definition feed (m : MemoryStream) (data : list byte) : MemoryStream :=
  {| inbound := inbound m ++ data; outbound := outbound m |}.
Definition take_outbound (m : MemoryStream) : list byte * MemoryStream :=
  (outbound m, {| inbound := inbound m; outbound := [] |}).

(** [read] into a buffer of [size] bytes; [None] is [WouldBlock]. The deque is a ring whose
    contents are split after [split] elements ([as_slices]). *)
Definition read (split size : nat) (m : MemoryStream) : option (list byte) * MemoryStream :=
  match inbound m with
  | [] => (None, m)
  | _ =>
      let len := Nat.min size (length (inbound m)) in
      let head := take split (inbound m) in
      let tail := drop split (inbound m) in
      let taken := Nat.min len (length head) in
      let buf := take taken head ++ (if (taken <? len)%nat then take (len - taken) tail else []) in
      (Some buf, {| inbound := drop len (inbound m); outbound := outbound m |})
  end.

Definition write (m : MemoryStream) (buf : list byte) : nat * MemoryStream :=
  (length buf, {| inbound := inbound m; outbound := outbound m ++ buf |}).
End Mem.

(** The ring's layout is invisible and reads return a prefix of what is buffered. *)
Lemma mem_read_spec split size m :
  match Mem.read split size m with
  | (None, m') => inbound m = [] ∧ m' = m
  | (Some bs, m') => inbound m = bs ++ inbound m' ∧ outbound m' = outbound m ∧
                     length bs = Nat.min size (length (inbound m))
  end.
Proof.
  unfold Mem.read. destruct (inbound m) as [|b r] eqn:E; [done|]. rewrite <- E.
  set (len := Nat.min size (length (inbound m))). cbv zeta. simpl.
  assert (take (Nat.min len (length (take split (inbound m)))) (take split (inbound m)) ++
          (if (Nat.min len (length (take split (inbound m))) <? len)%nat
           then take (len - Nat.min len (length (take split (inbound m)))) (drop split (inbound m))
           else []) = take len (inbound m)) as ->.
  { rewrite length_take. destruct (decide (len <= split)%nat) as [Hle|Hgt].
    - replace (Nat.min len (Nat.min split (length (inbound m)))) with len by lia.
      case_cmp; [lia|]. rewrite app_nil_r, take_take. f_equal. lia.
    - replace (Nat.min len (Nat.min split (length (inbound m)))) with split by lia.
      case_cmp; [|lia]. rewrite take_take, Nat.min_id.
      rewrite <- (take_drop split (inbound m)) at 3.
      rewrite take_app_ge by (rewrite length_take; lia). f_equal. f_equal. rewrite length_take. lia. }
  split; [by rewrite take_drop|]. split; [done|]. rewrite length_take. lia.
Qed.

(** One side feeds, the other reads, in any interleaving. *)
Inductive mem_op := Feed (data : list byte) | Read (split size : nat).

Fixpoint mem_run (m : MemoryStream) (ops : list mem_op) : list byte * MemoryStream :=
  match ops with
  | [] => ([], m)
  | Feed d :: ops => mem_run (Mem.feed m d) ops
  | Read k n :: ops => let '(o, m') := Mem.read k n m in
                       let '(out, m'') := mem_run m' ops in
                       (default [] o ++ out, m'')
  end.

Definition fed (ops : list mem_op) : list byte :=
  concat ((fun o => match o with Feed d => d | Read _ _ => [] end) <$> ops).

(** The memory transport is a lossless FIFO. However feeds and reads of any size are
    interleaved and however the ring buffer is laid out, the bytes read followed by the bytes
    still buffered are exactly the bytes fed, in order. *)
Theorem memory_stream_fifo m ops :
  let '(out, m') := mem_run m ops in
  out ++ inbound m' = inbound m ++ fed ops.
Proof.
  revert m. induction ops as [|[d|k n] ops IH]; intros m.
  - unfold fed. simpl. by rewrite app_nil_r.
  - specialize (IH (Mem.feed m d)). cbn [mem_run]. destruct (mem_run _ ops) as [out m'].
    rewrite IH. unfold fed. simpl. by rewrite app_assoc.
  - cbn [mem_run]. pose proof (mem_read_spec k n m) as Hr.
    destruct (Mem.read k n m) as [[bs|] m1].
    + destruct Hr as (-> & _ & _). specialize (IH m1). destruct (mem_run m1 ops) as [out m'].
      simpl. rewrite <- app_assoc, IH. by rewrite app_assoc.
    + destruct Hr as [_ ->]. specialize (IH m). by destruct (mem_run m ops) as [out m'].
Qed.

(** * The TLS engine *)

Inductive handshake_result (mid ssl : Type) :=
| HsDone (s : ssl)
| HsWouldBlock (m : mid)
| HsFailure (msg : str)
| HsSetupFailure (msg : str).
Arguments HsDone {mid ssl}.
Arguments HsWouldBlock {mid ssl}.
Arguments HsFailure {mid ssl}.
Arguments HsSetupFailure {mid ssl}.

Class TlsLib := {
  mid : Type;                                       (* MidHandshakeSslStream<MemoryStream> *)
  ssl : Type;                                       (* SslStream<MemoryStream> *)
  mid_mem : mid → MemoryStream;                     (* get_mut *)
  mid_put : mid → MemoryStream → mid;
  ssl_mem : ssl → MemoryStream;
  ssl_put : ssl → MemoryStream → ssl;
  mid_handshake : mid → handshake_result mid ssl;
  ssl_read : ssl → nat → ssl * option (list byte);  (* None: any error, WANT_READ included *)
  ssl_write : ssl → list byte → ssl * option nat;
  ssl_avail : ssl → nat                             (* how much more [ssl_read] can return *)
}.

(** What the sources rely on: reading makes progress through the finite buffered records, and a
    write accepts at most what it was given. *)
Class TlsLaws (T : TlsLib) := {
  ssl_read_progress s n s' bs :
    ssl_read s n = (s', Some bs) → bs ≠ [] → (ssl_avail s' < ssl_avail s)%nat;
  ssl_write_bound s d s' n : ssl_write s d = (s', Some n) → (n <= length d)%nat
}.

Section TlsState.
Context {T : TlsLib}.

Record TlsState := mkTls {
  handshake : option mid;
  stream : option ssl;
  plaintext : list byte;
  offset : nat;
  pending : list byte
}.

Definition start (m : mid) : TlsState := mkTls (Some m) None [] 0 [].

Definition is_ready (t : TlsState) : bool := bool_decide (is_Some (stream t)).

Definition BUFFER : nat := Z.to_nat (16 * 1024).

(** The [ssl_read] loop of [pump]. *)
Fixpoint pump_loop (fuel : nat) (s : ssl) (acc : list byte) : res Error (ssl * list byte) :=
  match fuel with
  | O => NoFuel
  | S fuel => match ssl_read s BUFFER with
              | (s', Some []) => Ok (s', acc)
              | (s', Some bs) => pump_loop fuel s' (acc ++ bs)
              | (s', None) => Ok (s', acc)
              end
  end.

Definition pump : SE TlsState Error () := fun t =>
  match stream t with
  | None => (Ok (), t)
  | Some s => match pump_loop (S (ssl_avail s)) s (plaintext t) with
              | Ok (s', p) => (Ok (), mkTls (handshake t) (Some s') p (offset t) (pending t))
              | Err e => (Err e, t)
              | Panic => (Panic, t)
              | NoFuel => (NoFuel, t)
              end
  end.

Definition feed (ciphertext : list byte) : SE TlsState Error () := fun t =>
  match handshake t with
  | Some m => (Ok (), mkTls (Some (mid_put m (Mem.feed (mid_mem m) ciphertext)))
                            (stream t) (plaintext t) (offset t) (pending t))
  | None => match stream t with
            | Some s => pump (mkTls None (Some (ssl_put s (Mem.feed (ssl_mem s) ciphertext)))
                                    (plaintext t) (offset t) (pending t))
            | None => (Err (Tls (Lit "tls closed")), t)
            end
  end.

Definition drive : SE TlsState Error () := fun t =>
  match handshake t with
  | Some m =>
      match mid_handshake m with
      | HsDone s => pump (mkTls None (Some s) (plaintext t) (offset t) (pending t))
      | HsWouldBlock next => (Ok (), mkTls (Some next) (stream t) (plaintext t) (offset t) (pending t))
      | HsFailure msg => (Err (Tls msg), mkTls None (stream t) (plaintext t) (offset t) (pending t))
      | HsSetupFailure msg => (Err (Tls msg), mkTls None (stream t) (plaintext t) (offset t) (pending t))
      end
  | None => pump t
  end.

Definition take_outbound (t : TlsState) : list byte * TlsState :=
  match handshake t with
  | Some m => let '(o, mem) := Mem.take_outbound (mid_mem m) in
              (o, mkTls (Some (mid_put m mem)) (stream t) (plaintext t) (offset t) (pending t))
  | None => match stream t with
            | Some s => let '(o, mem) := Mem.take_outbound (ssl_mem s) in
                        (o, mkTls None (Some (ssl_put s mem)) (plaintext t) (offset t) (pending t))
            | None => ([], t)
            end
  end.

Definition take_plaintext (t : TlsState) : option (list byte) * TlsState :=
  if (length (plaintext t) <=? offset t)%nat then
    (None, mkTls (handshake t) (stream t) [] 0 (pending t))
  else
    let chunk := drop (offset t) (plaintext t) in
    (Some chunk, mkTls (handshake t) (stream t) [] 0 (pending t)).

(** [drain_pending]: [Vec::drain(..written)] panics past the end. *)
Fixpoint drain_loop (fuel : nat) (s : ssl) (p : list byte) : res Error () * (ssl * list byte) :=
  match fuel with
  | O => (NoFuel, (s, p))
  | S fuel =>
      match p with
      | [] => (Ok (), (s, p))
      | _ => match ssl_write s p with
             | (s', Some O) => (Ok (), (s', p))
             | (s', Some n) => if (length p <? n)%nat then (Panic, (s', p))
                               else drain_loop fuel s' (drop n p)
             | (s', None) => (Ok (), (s', p))
             end
      end
  end.

Definition drain_pending : SE TlsState Error () := fun t =>
  match pending t with
  | [] => (Ok (), t)
  | _ => match stream t with
         | None => (Err (Tls (Lit "handshake incomplete")), t)
         | Some s => let '(r, (s', p')) := drain_loop (S (length (pending t))) s (pending t) in
                     (r, mkTls (handshake t) (Some s') (plaintext t) (offset t) p')
         end
  end.

Definition write (data : list byte) : SE TlsState Error () := fun t =>
  match stream t with
  | None => (Err (Tls (Lit "handshake incomplete")), t)
  | Some _ => drain_pending (mkTls (handshake t) (stream t) (plaintext t) (offset t)
                                   (pending t ++ data))
  end.
End TlsState.
Arguments TlsState : clear implicits.
Arguments TlsState T : rename.

Section TlsProperties.
Context {T : TlsLib} {Laws : TlsLaws T}.

Lemma pump_loop_total fuel s acc :
  (ssl_avail s < fuel)%nat → ∃ s' more, pump_loop fuel s acc = Ok (s', acc ++ more).
Proof.
  revert s acc. induction fuel as [|fuel IH]; intros s acc H; [lia|]. simpl.
  destruct (ssl_read s BUFFER) as [s' [[|b bs]|]] eqn:E;
    [exists s', []; by rewrite app_nil_r| |exists s', []; by rewrite app_nil_r].
  destruct (IH s' (acc ++ b :: bs)) as (s'' & more & ->).
  - pose proof (ssl_read_progress _ _ _ _ E). specialize (H0 ltac:(done)). lia.
  - exists s'', (b :: bs ++ more). by rewrite <- app_assoc.
Qed.

Lemma pump_total (t : TlsState T) :
  ∃ t' more, pump t = (Ok (), t') ∧ plaintext t' = plaintext t ++ more ∧
             handshake t' = handshake t ∧ is_ready t' = is_ready t ∧
             offset t' = offset t ∧ pending t' = pending t.
Proof using All.
  unfold pump. destruct (stream t) as [s|] eqn:E.
  - destruct (pump_loop_total (S (ssl_avail s)) s (plaintext t)) as (s' & more & ->); [lia|].
    eexists _, more. split; [done|]. unfold is_ready. rewrite E. simpl.
    by repeat split.
  - exists t, []. by rewrite app_nil_r.
Qed.

Lemma drain_loop_total fuel s p :
  (length p < fuel)%nat →
  ∃ s' sent p', drain_loop fuel s p = (Ok (), (s', p')) ∧ p = sent ++ p'.
Proof using All.
  revert s p. induction fuel as [|fuel IH]; intros s p H; [lia|]. simpl.
  destruct p as [|b p]; [by exists s, [], []|].
  destruct (ssl_write s (b :: p)) as [s' [[|n]|]] eqn:E;
    [by exists s', [], (b :: p)| |by exists s', [], (b :: p)].
  pose proof (ssl_write_bound _ _ _ _ E) as Hn. rewrite (proj2 (Nat.ltb_ge _ _)) by done.
  destruct (IH s' (drop (S n) (b :: p))) as (s'' & sent & p' & Heq & Hp).
  - rewrite length_drop. lia.
  - exists s'', (take (S n) (b :: p) ++ sent), p'. split; [exact Heq|].
    by rewrite <- app_assoc, <- Hp, take_drop.
Qed.

Lemma drain_pending_ready (t : TlsState T) : is_ready t = true →
  ∃ t' sent, drain_pending t = (Ok (), t') ∧ pending t = sent ++ pending t' ∧
    is_ready t' = true ∧ handshake t' = handshake t ∧ plaintext t' = plaintext t ∧
    offset t' = offset t.
Proof using All.
  unfold drain_pending, is_ready. intros Hr. apply bool_decide_eq_true in Hr as [s Hs].
  destruct (pending t) as [|b p] eqn:Ep.
  - exists t, []. rewrite Ep, Hs. by repeat split.
  - rewrite Hs. destruct (drain_loop_total (S (length (b :: p))) s (b :: p)) as (s' & sent & p' & -> & Hp);
      [lia|].
    eexists _, sent. split; [done|]. simpl. by repeat split.
Qed.

(** Operations the control channel performs on the TLS state. *)
Inductive tls_op := OFeed (d : list byte) | ODrive | OTakeOutbound | OTakePlaintext | OWrite (d : list byte).

Definition tls_step (t : TlsState T) (op : tls_op) : res Error () * TlsState T :=
  match op with
  | OFeed d => feed d t
  | ODrive => drive t
  | OTakeOutbound => (Ok (), (take_outbound t).2)
  | OTakePlaintext => (Ok (), (take_plaintext t).2)
  | OWrite d => write d t
  end.

Definition tls_reach (m : mid) : TlsState T → Prop :=
  rtc (fun t t' => ∃ op, t' = (tls_step t op).2) (start m).

(** The phases of the channel: handshaking, ready, or closed by a failed handshake. *)
Definition tls_inv (t : TlsState T) : Prop :=
  (handshake t = None ∨ stream t = None) ∧ offset t = 0%nat ∧
  (is_ready t = false → pending t = [] ∧ plaintext t = []).

Lemma not_ready_stream (t : TlsState T) : is_ready t = false ↔ stream t = None.
Proof using Type.
  unfold is_ready. by rewrite bool_decide_eq_false, eq_None_not_Some.
Qed.

Lemma pump_inv (t : TlsState T) : tls_inv t → tls_inv (pump t).2.
Proof using All.
  intros Hinv. pose proof Hinv as (Hx & Ho & Hp). destruct (stream t) as [s|] eqn:Es.
  - destruct (pump_total t) as (t' & more & -> & _ & Hh & Hr & Hof & _). simpl.
    split; [|split; [congruence|]].
    + left. destruct Hx; congruence.
    + intros Hnr. rewrite Hr, not_ready_stream in Hnr. congruence.
  - unfold pump. by rewrite Es.
Qed.

Lemma tls_step_inv t op : tls_inv t → tls_inv (tls_step t op).2.
Proof using All.
  intros Hinv. pose proof Hinv as (Hx & Ho & Hp). destruct op; simpl.
  - unfold feed. destruct (handshake t) eqn:Eh; simpl.
    + destruct Hx as [|Hs]; [done|]. split; [by right|]. split; [done|].
      intros _. apply Hp. by apply not_ready_stream.
    + destruct (stream t) eqn:Es; [|done]. apply pump_inv.
      split; [by left|]. split; [done|]. by rewrite not_ready_stream.
  - unfold drive. destruct (handshake t) eqn:Eh; [|by apply pump_inv].
    destruct Hx as [|Hs]; [done|].
    destruct (Hp (proj2 (not_ready_stream t) Hs)) as [Hp1 Hp2].
    destruct (mid_handshake m); simpl;
      try (split; [by (left + right)|split; [done|intros _; done]]).
    apply pump_inv. split; [by left|]. split; [done|]. by rewrite not_ready_stream.
  - unfold take_outbound. destruct (handshake t) eqn:Eh; simpl.
    + destruct Hx as [|Hs]; [done|]. split; [by right|]. split; [done|].
      intros _. apply Hp. by apply not_ready_stream.
    + destruct (stream t) eqn:Es; simpl; [|done].
      split; [by left|]. split; [done|]. by rewrite not_ready_stream.
  - unfold take_plaintext. destruct (_ <=? _)%nat; simpl; split; try done; split; try done;
      intros H; (split; [|done]); by apply Hp.
  - unfold write. destruct (stream t) eqn:Es; [|done].
    destruct (drain_pending_ready (mkTls (handshake t) (Some s) (plaintext t) (offset t)
                (pending t ++ d))) as (t' & sent & -> & _ & Hr & Hh & Hpl & Hof).
    { by apply bool_decide_eq_true; eauto. }
    simpl in *. split; [left; destruct Hx; congruence|]. split; [congruence|].
    intros; congruence.
Qed.

Lemma tls_reach_inv m t : tls_reach m t → tls_inv t.
Proof using All.
  intros H. unfold tls_reach in H. remember (start m) as s0 eqn:E.
  assert (tls_inv s0) as H0 by (subst; split; [by right|]; done).
  clear E. induction H as [|x y z [op ->] _ IH]; [done|]. apply IH. by apply tls_step_inv.
Qed.

(** C33: The TLS life cycle. In every reachable state at most one of the handshake and the
    established stream exists, no operation panics or loops forever, a ready channel stays
    ready, feeding fails exactly when a failed handshake closed the channel, and everything
    decrypted is handed out by the next [take_plaintext]. *)
Theorem tls_lifecycle m t op :
  tls_reach m t →
  (handshake t = None ∨ stream t = None) ∧
  (tls_step t op).1 ≠ Panic ∧ (tls_step t op).1 ≠ NoFuel ∧
  (is_ready t = true → is_ready (tls_step t op).2 = true) ∧
  (∀ d, (∃ e, (feed d t).1 = Err e) ↔ handshake t = None ∧ stream t = None) ∧
  default [] (take_plaintext t).1 = plaintext t ∧ plaintext (take_plaintext t).2 = [].
Proof using All.
  intros Hreach. pose proof (tls_reach_inv m t Hreach) as (Hx & Ho & Hp).
  assert (∀ t : TlsState T, (pump t).1 = Ok ()) as Hpump.
  { intros t0. by destruct (pump_total t0) as (t' & more & -> & _). }
  assert (∀ t : TlsState T, is_ready (pump t).2 = is_ready t) as Hpr.
  { intros t0. by destruct (pump_total t0) as (t' & more & -> & _ & _ & Hr & _). }
  assert (∀ t : TlsState T, is_ready t = true →
            (drain_pending t).1 = Ok () ∧ is_ready (drain_pending t).2 = true) as Hdrain.
  { intros t0 H0. by destruct (drain_pending_ready t0 H0) as (t' & sent & -> & _ & Hr & _). }
  assert (∀ d (s : ssl), stream t = Some s →
            (drain_pending (mkTls (handshake t) (Some s) (plaintext t) (offset t) (pending t ++ d))).1
              = Ok () ∧
            is_ready (drain_pending (mkTls (handshake t) (Some s) (plaintext t) (offset t)
                                           (pending t ++ d))).2 = true) as Hwr.
  { intros d s Hs. apply Hdrain. apply bool_decide_eq_true. simpl. eauto. }
  split; [done|]. split; [|split; [|split; [|split; [|split]]]].
  - destruct op; simpl; unfold feed, drive, write; repeat case_match; try done;
      rewrite ?Hpump; try done; by rewrite (proj1 (Hwr _ _ eq_refl)).
  - destruct op; simpl; unfold feed, drive, write; repeat case_match; try done;
      rewrite ?Hpump; try done; by rewrite (proj1 (Hwr _ _ eq_refl)).
  - intros Hr. unfold is_ready in Hr. apply bool_decide_eq_true in Hr as [s Hs].
    assert (handshake t = None) as Hh by (destruct Hx; congruence).
    destruct op; simpl; unfold feed, drive, take_outbound, take_plaintext, write;
      rewrite ?Hh, ?Hs; rewrite ?Hpr; try (case_match; simpl); unfold is_ready; simpl; rewrite ?Hs;
      try (apply bool_decide_eq_true; by eauto); try done.
    pose proof (proj2 (Hwr d s Hs)) as H. by rewrite Hh in H.
  - intros d. unfold feed. destruct (handshake t) as [m0|]; simpl; [naive_solver|].
    destruct (stream t) as [s|]; simpl; [rewrite Hpump; naive_solver|naive_solver].
  - unfold take_plaintext. rewrite Ho. case_cmp; [|done]. by destruct (plaintext t); [|simpl in *; lia].
  - unfold take_plaintext. by case_cmp.
Qed.
End TlsProperties.

(** * A toy engine, for concrete runs: the identity cipher after a one-byte handshake *)

#[export] Instance toy_tls : TlsLib := {|
  mid := MemoryStream;
  ssl := MemoryStream;
  mid_mem m := m;
  mid_put _ m := m;
  ssl_mem s := s;
  ssl_put _ s := s;
  mid_handshake m := match inbound m with
                     | [] => HsWouldBlock m
                     | x15 :: _ => HsFailure (Lit "alert")
                     | _ :: r => HsDone (mkMem r (outbound m))
                     end;
  ssl_read s n := match inbound s with
                  | [] => (s, None)
                  | l => (mkMem (drop n l) (outbound s), Some (take n l))
                  end;
  ssl_write s d := (mkMem (inbound s) (outbound s ++ d), Some (length d));
  ssl_avail s := length (inbound s)
|}.

#[export] Instance toy_tls_laws : TlsLaws toy_tls.
Proof.
  split.
  - intros s n s' bs. simpl. destruct (inbound s) as [|b l] eqn:E; [done|].
    intros [= <- <-] Hne. simpl. destruct n as [|n]; [done|]. simpl. rewrite length_drop. lia.
  - intros s d s' n. simpl. intros [= <- <-]. lia.
Qed.

Definition toy_ready : TlsState toy_tls := (tls_step (start Mem.default) (OFeed [x01; x41])).2.

Lemma tls_lifecycle_witness :
  tls_reach (T:=toy_tls) Mem.default toy_ready ∧ (tls_step toy_ready ODrive).1 ≠ Panic ∧
  is_ready (tls_step toy_ready ODrive).2 = true ∧
  (take_plaintext (tls_step toy_ready ODrive).2).1 = Some [x41].
Proof.
  assert (tls_reach (T:=toy_tls) Mem.default toy_ready) as H.
  { eapply rtc_l; [exists (OFeed [x01; x41]); reflexivity|apply rtc_refl]. }
  split; [exact H|]. split; [|split; vm_compute; reflexivity].
  exact (proj1 (proj2 (tls_lifecycle Mem.default toy_ready ODrive H))).
Defined.
