(* ===== verification/Control.v ===== *)
(** openvpn/control.rs: the control channel, its reliability layer (acknowledgements, ordered
    delivery, retransmission), the key exchange and the data path, over a model of the socket
    and the clock. *)
From S2P Require Import Prelude Text OvpnConfig Replay Keys DataCipher Packet Framing TlsChannel.

Definition HANDSHAKE_TIMEOUT : Z := 20000.
Definition MAX_CONTROL_PAYLOAD : nat := 1184.
Definition KEY_SOURCE_SERVER_LEN : nat := 32 + 32.

(** * The network and the clock *)

(** What the socket reports, and when (milliseconds): bytes (a datagram or a TCP segment), a
    receive error, or the end of a TCP stream. *)
Inductive arrival := Bytes (bs : list byte) | RecvError (msg : str) | Closed.

(** [enum Transport] with its socket: [rx] holds the bytes of a TCP stream that arrived and were
    not read. Sending fails with [link_error] when it is set. Time passes only while waiting. *)
Record Net := mkNet {
  kind : Protocol;
  now : Z;
  incoming : list (Z * arrival);
  rx : Stream;
  sent : list (list byte);
  link_error : option str
}.

(** Waiting for a datagram: [socket.recv] into a buffer of 2048 bytes. *)
Fixpoint udp_wait (deadline : Z) (n : Net) (evs : list (Z * arrival)) : res Error (option (list byte)) * Net :=
  match evs with
  | [] => (Ok None, mkNet (kind n) deadline [] (rx n) (sent n) (link_error n))
  | (t, ev) :: evs' =>
      if t <=? deadline then
        let n' := mkNet (kind n) (Z.max (now n) t) evs' (rx n) (sent n) (link_error n) in
        match ev with
        | Bytes bs => (Ok (Some (take 2048 bs)), n')
        | RecvError e => (Err (Io e), n')
        | Closed => udp_wait deadline n' evs'
        end
      else (Ok None, mkNet (kind n) deadline evs (rx n) (sent n) (link_error n))
  end.

(** Waiting for a whole frame: the read keeps its progress while it waits; when the timeout
    fires first, the future is dropped with the bytes it had taken (Framing). *)
Fixpoint tcp_wait (deadline : Z) (n : Net) (s : Stream) (evs : list (Z * arrival))
    : res Error (option (list byte)) * Net :=
  match read_packet s with
  | (Ready r, s') => (Some <$> r, mkNet (kind n) (now n) evs s' (sent n) (link_error n))
  | (Pending, s') =>
      match evs with
      | [] => (Ok None, mkNet (kind n) deadline [] s' (sent n) (link_error n))
      | (t, ev) :: evs' =>
          if t <=? deadline then
            let n' := mkNet (kind n) (Z.max (now n) t) evs' (rx n) (sent n) (link_error n) in
            match ev with
            | Bytes bs => tcp_wait deadline n' (deliver s bs) evs'
            | Closed => tcp_wait deadline n' (mkStream (arrived s) true) evs'
            | RecvError e => (Err (Io e), mkNet (kind n) (Z.max (now n) t) evs' s' (sent n) (link_error n))
            end
          else (Ok None, mkNet (kind n) deadline evs s' (sent n) (link_error n))
      end
  end.

(** [tokio::time::timeout(timeout, recv)]: [None] when the timer fires first. *)
Definition recv_raw (timeout : Z) (n : Net) : res Error (option (list byte)) * Net :=
  let deadline := now n + timeout in
  match kind n with
  | Udp => udp_wait deadline n (incoming n)
  | Tcp => tcp_wait deadline n (rx n) (incoming n)
  end.

Definition net_send (payload : list byte) (n : Net) : res Error () * Net :=
  let put bytes := match link_error n with
                   | Some e => (Err (Io e), n)
                   | None => (Ok (), mkNet (kind n) (now n) (incoming n) (rx n)
                                           (sent n ++ [bytes]) (link_error n))
                   end in
  match kind n with
  | Udp => put payload
  | Tcp => match write_packet payload with
           | Ok frame => put frame
           | Err e => (Err e, n)
           | Panic => (Panic, n)
           | NoFuel => (NoFuel, n)
           end
  end.

(** Every wait uses up an arrival, unread bytes or time: the fuel of the receive loops. *)
Definition arrival_size (a : Z * arrival) : nat :=
  match a.2 with Bytes bs => S (length bs) | _ => 1 end.
Definition backlog (n : Net) : nat :=
  (sum_list (arrival_size <$> incoming n) + length (arrived (rx n)))%nat.

(** * The control channel *)

(** The two directions of the data channel. *)
Record Keys := mkDataKeys { enc : DataCipher; dec : DataCipher }.

Section Control.
Context {T : TlsLib} {L : CryptoLib}.
Context (hmac_md5 hmac_sha1 : list byte → list byte → list byte).

Record Control := mkControl {
  transport : Net;
  tls : TlsState T;
  session_id : list byte;
  remote_session_id : list byte;
  next_packet_id : Z;
  cipher : Cipher;
  auth : Auth;
  keys : option Keys;
  seed : option SeedData;
  peer_id : PeerId;
  send_counter : Z;
  replay : ReplayWindow;
  acked : list Z;
  last_payload : list byte;
  recv_next : Z;
  reorder : gmap Z (list byte)
}.

Definition set_transport (v : Net) (c : Control) : Control :=
  mkControl v (tls c) (session_id c) (remote_session_id c) (next_packet_id c) (cipher c) (auth c) (keys c) (seed c) (peer_id c) (send_counter c) (replay c) (acked c) (last_payload c) (recv_next c) (reorder c).
Definition set_tls (v : TlsState T) (c : Control) : Control :=
  mkControl (transport c) v (session_id c) (remote_session_id c) (next_packet_id c) (cipher c) (auth c) (keys c) (seed c) (peer_id c) (send_counter c) (replay c) (acked c) (last_payload c) (recv_next c) (reorder c).
Definition set_session_id (v : list byte) (c : Control) : Control :=
  mkControl (transport c) (tls c) v (remote_session_id c) (next_packet_id c) (cipher c) (auth c) (keys c) (seed c) (peer_id c) (send_counter c) (replay c) (acked c) (last_payload c) (recv_next c) (reorder c).
Definition set_remote_session_id (v : list byte) (c : Control) : Control :=
  mkControl (transport c) (tls c) (session_id c) v (next_packet_id c) (cipher c) (auth c) (keys c) (seed c) (peer_id c) (send_counter c) (replay c) (acked c) (last_payload c) (recv_next c) (reorder c).
Definition set_next_packet_id (v : Z) (c : Control) : Control :=
  mkControl (transport c) (tls c) (session_id c) (remote_session_id c) v (cipher c) (auth c) (keys c) (seed c) (peer_id c) (send_counter c) (replay c) (acked c) (last_payload c) (recv_next c) (reorder c).
Definition set_cipher (v : Cipher) (c : Control) : Control :=
  mkControl (transport c) (tls c) (session_id c) (remote_session_id c) (next_packet_id c) v (auth c) (keys c) (seed c) (peer_id c) (send_counter c) (replay c) (acked c) (last_payload c) (recv_next c) (reorder c).
Definition set_auth (v : Auth) (c : Control) : Control :=
  mkControl (transport c) (tls c) (session_id c) (remote_session_id c) (next_packet_id c) (cipher c) v (keys c) (seed c) (peer_id c) (send_counter c) (replay c) (acked c) (last_payload c) (recv_next c) (reorder c).
Definition set_keys (v : option Keys) (c : Control) : Control :=
  mkControl (transport c) (tls c) (session_id c) (remote_session_id c) (next_packet_id c) (cipher c) (auth c) v (seed c) (peer_id c) (send_counter c) (replay c) (acked c) (last_payload c) (recv_next c) (reorder c).
Definition set_seed (v : option SeedData) (c : Control) : Control :=
  mkControl (transport c) (tls c) (session_id c) (remote_session_id c) (next_packet_id c) (cipher c) (auth c) (keys c) v (peer_id c) (send_counter c) (replay c) (acked c) (last_payload c) (recv_next c) (reorder c).
Definition set_peer_id (v : PeerId) (c : Control) : Control :=
  mkControl (transport c) (tls c) (session_id c) (remote_session_id c) (next_packet_id c) (cipher c) (auth c) (keys c) (seed c) v (send_counter c) (replay c) (acked c) (last_payload c) (recv_next c) (reorder c).
Definition set_send_counter (v : Z) (c : Control) : Control :=
  mkControl (transport c) (tls c) (session_id c) (remote_session_id c) (next_packet_id c) (cipher c) (auth c) (keys c) (seed c) (peer_id c) v (replay c) (acked c) (last_payload c) (recv_next c) (reorder c).
Definition set_replay (v : ReplayWindow) (c : Control) : Control :=
  mkControl (transport c) (tls c) (session_id c) (remote_session_id c) (next_packet_id c) (cipher c) (auth c) (keys c) (seed c) (peer_id c) (send_counter c) v (acked c) (last_payload c) (recv_next c) (reorder c).
Definition set_acked (v : list Z) (c : Control) : Control :=
  mkControl (transport c) (tls c) (session_id c) (remote_session_id c) (next_packet_id c) (cipher c) (auth c) (keys c) (seed c) (peer_id c) (send_counter c) (replay c) v (last_payload c) (recv_next c) (reorder c).
Definition set_last_payload (v : list byte) (c : Control) : Control :=
  mkControl (transport c) (tls c) (session_id c) (remote_session_id c) (next_packet_id c) (cipher c) (auth c) (keys c) (seed c) (peer_id c) (send_counter c) (replay c) (acked c) v (recv_next c) (reorder c).
Definition set_recv_next (v : Z) (c : Control) : Control :=
  mkControl (transport c) (tls c) (session_id c) (remote_session_id c) (next_packet_id c) (cipher c) (auth c) (keys c) (seed c) (peer_id c) (send_counter c) (replay c) (acked c) (last_payload c) v (reorder c).
Definition set_reorder (v : gmap Z (list byte)) (c : Control) : Control :=
  mkControl (transport c) (tls c) (session_id c) (remote_session_id c) (next_packet_id c) (cipher c) (auth c) (keys c) (seed c) (peer_id c) (send_counter c) (replay c) (acked c) (last_payload c) (recv_next c) v.

Abbreviation M A := (SE Control Error A).

Definition on_net {A} (f : Net → res Error A * Net) : M A := fun c =>
  let '(r, n) := f (transport c) in (r, set_transport n c).
Definition on_tls {A} (f : SE (TlsState T) Error A) : M A := fun c =>
  let '(r, t) := f (tls c) in (r, set_tls t c).
Definition tls_take_outbound : M (list byte) := fun c =>
  let '(o, t) := TlsChannel.take_outbound (tls c) in (Ok o, set_tls t c).
Definition tls_take_plaintext : M (option (list byte)) := fun c =>
  let '(o, t) := TlsChannel.take_plaintext (tls c) in (Ok o, set_tls t c).
Definition get_now : M Z := fun c => (Ok (now (transport c)), c).

Definition send_raw (payload : list byte) : M () := on_net (net_send payload).

(** [recv_packet]: an unparsable packet and a timeout are both [None]. *)
Definition recv_packet (timeout : Z) : M (option Packet) :=
  raw ← on_net (recv_raw timeout);
  match raw with
  | None => mret None
  | Some raw => lift_res (parse raw)
  end.

Definition record_ack (packet_id : Z) (c : Control) : Control :=
  if decide (packet_id ∈ acked c) then c
  else set_acked (take MAX_ACKS (packet_id :: acked c)) c.

Definition send_ack (packet_id : Z) : M () :=
  modify_st (record_ack packet_id);;
  c ← get_st;
  send_raw (ack_bytes (session_id c) (acked c) (remote_session_id c)).

Definition send_control (payload : list byte) : M () :=
  c ← get_st;
  let packet_id := next_packet_id c in
  modify_st (set_next_packet_id (wadd32 (next_packet_id c) 1));;
  let out := control_bytes (session_id c) (acked c) (remote_session_id c) packet_id payload in
  modify_st (set_last_payload payload);;
  send_raw out.

Definition retransmit_control : M () :=
  c ← get_st;
  let payload := last_payload c in
  match payload with
  | [] => mret ()
  | _ =>
      let packet_id := next_packet_id c in
      modify_st (set_next_packet_id (wadd32 (next_packet_id c) 1));;
      send_raw (retransmit_bytes (session_id c) packet_id payload)
  end.

(** The [while offset < data.len()] loop; each round sends at least one byte. *)
Fixpoint send_chunks_loop (fuel : nat) (data : list byte) : M () :=
  match data with
  | [] => mret ()
  | _ => match fuel with
         | O => fun c => (NoFuel, c)
         | S fuel => send_control (take MAX_CONTROL_PAYLOAD data);;
                     send_chunks_loop fuel (drop MAX_CONTROL_PAYLOAD data)
         end
  end.
Definition send_control_chunks (data : list byte) : M () := send_chunks_loop (length data) data.

Definition flush_tls : M () :=
  outbound ← tls_take_outbound;
  match outbound with [] => mret () | _ => send_control_chunks outbound end.

(** The [while let Some(payload) = reorder.remove(&recv_next)] loop. *)
Fixpoint deliver_loop (fuel : nat) : M () := fun c =>
  match reorder c !! recv_next c with
  | None => (Ok (), c)
  | Some payload =>
      match fuel with
      | O => (NoFuel, c)
      | S fuel =>
          (on_tls (TlsChannel.feed payload);;
           modify_st (fun c => set_recv_next (wadd32 (recv_next c) 1) c);;
           deliver_loop fuel) (set_reorder (delete (recv_next c) (reorder c)) c)
      end
  end.

Definition accept_control (packet_id : Z) (payload : list byte) : M () :=
  c ← get_st;
  if packet_id <? recv_next c then mret ()
  else if recv_next c <? packet_id then
    if (size (reorder c) <? 32)%nat
    then modify_st (fun c => set_reorder (<[packet_id := payload]> (reorder c)) c)
    else mret ()
  else
    on_tls (TlsChannel.feed payload);;
    modify_st (fun c => set_recv_next (wadd32 (recv_next c) 1) c);;
    deliver_loop (size (reorder c)).

(** The arm [P_CONTROL_V1] that [pump] and [recv_data] share. *)
Definition handle_control (p : Packet) : M () :=
  send_ack (packet_id p);;
  accept_control (packet_id p) (payload p);;
  on_tls TlsChannel.drive;;
  flush_tls.

Fixpoint pump_loop (fuel : nat) (deadline last_resend : Z) : M () :=
  match fuel with
  | O => fun c => (NoFuel, c)
  | S fuel =>
      t ← get_now;
      let remaining := Z.max 0 (deadline - t) in
      if remaining =? 0 then fail_st Timeout
      else
        let wait := Z.min remaining 500 in
        packet ← recv_packet wait;
        match packet with
        | None =>
            c ← get_st;
            t ← get_now;
            if negb (is_ready (tls c)) && (2000 <? t - last_resend) then
              retransmit_control;; pump_loop fuel deadline t
            else pump_loop fuel deadline last_resend
        | Some packet =>
            if opcode packet =? P_CONTROL_V1 then handle_control packet
            else pump_loop fuel deadline last_resend
        end
  end.

Definition pump (timeout : Z) : M () :=
  c ← get_st;
  t ← get_now;
  pump_loop (S (backlog (transport c) + Z.to_nat timeout)) (t + timeout) t.

(** * Data channel *)

Definition send_data (iv payload : list byte) : M () :=
  modify_st (fun c => set_send_counter (wadd32 (send_counter c) 1) c);;
  c ← get_st;
  let counter := send_counter c in
  let header := data_header (cipher c) 0 (peer_id c) in
  ks ← lift_res (ok_or (keys c) (OvpnConfig.Control (Lit "data keys missing")));
  let header := header ++ be32 counter in
  encrypted ← lift_res (DataCipher.encrypt (enc ks) iv header counter payload);
  send_raw (header ++ encrypted).

Fixpoint recv_data_loop (fuel : nat) (deadline : Z) : M (option (list byte)) :=
  match fuel with
  | O => fun c => (NoFuel, c)
  | S fuel =>
      t ← get_now;
      let remaining := Z.max 0 (deadline - t) in
      if remaining =? 0 then mret None
      else
        packet ← recv_packet remaining;
        match packet with
        | None => mret None
        | Some packet =>
            if (opcode packet =? P_DATA_V1) || (opcode packet =? P_DATA_V2) then
              c ← get_st;
              match keys c with
              | None => recv_data_loop fuel deadline
              | Some ks =>
                  '(counter, plaintext) ←
                    lift_res (DataCipher.decrypt (dec ks) (header packet) (payload packet));
                  let '(w, ok) := accept (replay c) counter in
                  modify_st (set_replay w);;
                  if negb ok then recv_data_loop fuel deadline else mret (Some plaintext)
              end
            else if opcode packet =? P_CONTROL_V1 then
              handle_control packet;; recv_data_loop fuel deadline
            else if opcode packet =? P_CONTROL_HARD_RESET_SERVER_V2 then
              send_ack (packet_id packet);; recv_data_loop fuel deadline
            else recv_data_loop fuel deadline
        end
  end.

Definition recv_data (timeout : Z) : M (option (list byte)) :=
  c ← get_st;
  t ← get_now;
  recv_data_loop (S (backlog (transport c) + Z.to_nat timeout)) (t + timeout).

(** * Session set-up *)

(** Loops that pump: every round handles at least one packet or fails, so the backlog bounds
    the rounds. *)
Fixpoint push_loop (fuel : nat) (deadline : Z) (buffer : list byte) : M str :=
  match fuel with
  | O => fun c => (NoFuel, c)
  | S fuel =>
      t ← get_now;
      let remaining := Z.max 0 (deadline - t) in
      if remaining =? 0 then fail_st Timeout
      else
        pump remaining;;
        chunk ← tls_take_plaintext;
        let buffer := buffer ++ default [] chunk in
        match take_message buffer (Lit "PUSH_REPLY") with
        | (_, Some reply) => mret reply
        | (buffer, None) =>
            match take_message buffer (Lit "AUTH_FAILED") with
            | (_, Some error) => fail_st AuthErr
            | (buffer, None) => push_loop fuel deadline buffer
            end
        end
  end.

Definition push_request : M str :=
  on_tls (TlsChannel.write (Lit "PUSH_REQUEST" ++ [x00]));;
  flush_tls;;
  c ← get_st;
  t ← get_now;
  push_loop (S (backlog (transport c))) (t + HANDSHAKE_TIMEOUT) [].

Definition apply_push (reply : str) (c : Control) : Control :=
  let pushed := parse_push reply in
  let c := match pushed_peer_id pushed with Some id => set_peer_id id c | None => c end in
  match pushed_cipher pushed with Some ci => set_cipher ci c | None => c end.

Definition install_keys : M () :=
  c ← get_st;
  modify_st (set_seed None);;
  sd ← lift_res (ok_or (seed c) (OvpnConfig.Control (Lit "keys already installed")));
  k ← lift_res (derive hmac_md5 hmac_sha1 sd (cipher c) (Auth.size (auth c)));
  e ← lift_res (DataCipher.new (cipher c) (auth c) (Keys.encrypt k) (mac_encrypt k));
  d ← lift_res (DataCipher.new (cipher c) (auth c) (Keys.decrypt k) (mac_decrypt k));
  modify_st (set_keys (Some (mkDataKeys e d))).

Definition options_string (p : Profile) : str :=
  Lit "V4,dev-type tun,link-mtu 1557,tun-mtu 1500,proto UDPv4,auth "
  ++ Auth.as_str (OvpnConfig.auth p) ++ Lit ",keysize "
  ++ show_uint (Z.of_nat (Cipher.key_len (OvpnConfig.cipher p)) * 8)
  ++ Lit ",key-method 2,tls-client".

Definition peer_info : str :=
  let nl := [x0a] in
  Lit "IV_VER=2.6.9" ++ nl ++ Lit "IV_PLAT=linux" ++ nl ++ Lit "IV_TCPNL=1" ++ nl ++ Lit "IV_NCP=2" ++ nl
  ++ Lit "IV_CIPHERS=AES-256-GCM:AES-128-GCM:AES-256-CBC:AES-128-CBC" ++ nl ++ Lit "IV_PROTO=2180" ++ nl
  ++ Lit "IV_MTU=1500" ++ nl ++ Lit "IV_SSL=OpenSSL" ++ nl ++ Lit "IV_HWADDR=00:00:00:00:00:00" ++ nl
  ++ Lit "IV_ACC=1,A:6,udp" ++ nl ++ Lit "IV_IPV6=1" ++ nl.

(** The key-method-2 message of the client. *)
Definition key_exchange_message (p : Profile) (pre_master random1 random2 : list byte)
    : res Error (list byte) :=
  let out := be32 0 ++ [x02] ++ pre_master ++ random1 ++ random2 in
  out ← write_string out (options_string p);
  out ← write_string out [];
  out ← write_string out [];
  write_string out peer_info.

(** The server's answer in the buffer: [None] until it is complete. *)
Definition read_server_randoms (buffer : list byte) : res Error (option (list byte * list byte)) :=
  if (length buffer <? 5 + KEY_SOURCE_SERVER_LEN)%nat then Ok None
  else
    let reader := Reader.new buffer in
    let '(_, reader) := Reader.u32 reader in
    let '(method, reader) := Reader.u8 reader in
    if decide (method = x02) then
      match Reader.take reader KEY_SOURCE_SERVER_LEN with
      | None => Ok None
      | Some (rest, _) => Ok (Some (take 32 rest, take 32 (drop 32 rest)))
      end
    else Err (OvpnConfig.Control (Lit "key method " ++ show_uint (b2z method))).

Fixpoint exchange_loop (fuel : nat) (deadline : Z) (buffer : list byte) : M (list byte * list byte) :=
  match fuel with
  | O => fun c => (NoFuel, c)
  | S fuel =>
      t ← get_now;
      let remaining := Z.max 0 (deadline - t) in
      if remaining =? 0 then fail_st Timeout
      else
        pump remaining;;
        chunk ← tls_take_plaintext;
        let buffer := buffer ++ default [] chunk in
        r ← lift_res (read_server_randoms buffer);
        match r with
        | None => exchange_loop fuel deadline buffer
        | Some rs => mret rs
        end
  end.

(** [exchange_keys]; the three secrets come from [rand::fill]. *)
Definition exchange_keys (p : Profile) (pre_master random1 random2 : list byte) : M () :=
  msg ← lift_res (key_exchange_message p pre_master random1 random2);
  on_tls (TlsChannel.write msg);;
  pending ← tls_take_outbound;
  send_control_chunks pending;;
  c ← get_st;
  t ← get_now;
  '(server_random1, server_random2) ←
    exchange_loop (S (backlog (transport c))) (t + HANDSHAKE_TIMEOUT) [];
  modify_st (fun c => set_seed (Some {|
    pre_master := pre_master; client_random1 := random1; server_random1 := server_random1;
    client_random2 := random2; server_random2 := server_random2;
    client_sid := session_id c; server_sid := remote_session_id c |}) c).

Fixpoint drive_loop (fuel : nat) (deadline : Z) : M () :=
  match fuel with
  | O => fun c => (NoFuel, c)
  | S fuel =>
      on_tls TlsChannel.drive;;
      outbound ← tls_take_outbound;
      (match outbound with [] => mret () | _ => send_control_chunks outbound end);;
      c ← get_st;
      if is_ready (tls c) then mret ()
      else
        t ← get_now;
        let remaining := Z.max 0 (deadline - t) in
        if remaining =? 0 then fail_st Timeout
        else pump remaining;; drive_loop fuel deadline
  end.

Definition drive_tls (timeout : Z) : M () :=
  c ← get_st;
  t ← get_now;
  drive_loop (S (S (backlog (transport c)))) (t + timeout).

(** [await_reset], on the bare transport. *)
Fixpoint await_reset_loop (fuel : nat) (deadline : Z) (n : Net) : res Error (list byte * Z) * Net :=
  match fuel with
  | O => (NoFuel, n)
  | S fuel =>
      let remaining := Z.max 0 (deadline - now n) in
      if remaining =? 0 then (Err Timeout, n)
      else
        match recv_raw remaining n with
        | (Ok None, n) => await_reset_loop fuel deadline n
        | (Ok (Some raw), n) =>
            match parse raw with
            | Ok (Some packet) =>
                if opcode packet =? P_CONTROL_HARD_RESET_SERVER_V2
                then (Ok (Packet.session_id packet, packet_id packet), n)
                else await_reset_loop fuel deadline n
            | Ok None => await_reset_loop fuel deadline n
            | Err e => (Err e, n)
            | Panic => (Panic, n)
            | NoFuel => (NoFuel, n)
            end
        | (Err e, n) => (Err e, n)
        | (Panic, n) => (Panic, n)
        | (NoFuel, n) => (NoFuel, n)
        end
  end.
Definition await_reset (timeout : Z) (n : Net) : res Error (list byte * Z) * Net :=
  await_reset_loop (S (backlog n + Z.to_nat timeout)) (now n + timeout) n.

(** The state [connect_to] builds once the reset arrived; [m] is the TLS handshake started from
    the credentials. *)
Definition new_control (n : Net) (m : mid) (session_id remote_session_id : list byte) (reset_id : Z)
    (p : Profile) : Control :=
  mkControl n (start m) session_id remote_session_id 1 (OvpnConfig.cipher p) (OvpnConfig.auth p)
            None None NONE 0 Replay.new [reset_id] [] (wadd32 reset_id 1) ∅.

(** The draws of [rand::fill] in one connection attempt. *)
Record Draws := mkDraws { d_session_id : list byte; d_pre_master : list byte;
                          d_random1 : list byte; d_random2 : list byte }.

(** [connect_to], from an open socket: [tls_start] is [credentials.context] followed by
    [TlsState::start]. *)
Definition connect_to (p : Profile) (d : Draws) (tls_start : res Error mid) (n : Net)
    : res Error Control :=
  match net_send (reset_packet (d_session_id d)) n with
  | (Ok _, n) =>
      match await_reset HANDSHAKE_TIMEOUT n with
      | (Ok (remote, reset_id), n) =>
          match tls_start with
          | Ok m =>
              let c := new_control n m (d_session_id d) remote reset_id p in
              match (drive_tls HANDSHAKE_TIMEOUT;;
                     exchange_keys p (d_pre_master d) (d_random1 d) (d_random2 d)) c with
              | (Ok _, c) => Ok c
              | (Err e, _) => Err e
              | (Panic, _) => Panic
              | (NoFuel, _) => NoFuel
              end
          | Err e => Err e
          | Panic => Panic
          | NoFuel => NoFuel
          end
      | (Err e, _) => Err e
      | (Panic, _) => Panic
      | (NoFuel, _) => NoFuel
      end
  | (Err e, _) => Err e
  | (Panic, _) => Panic
  | (NoFuel, _) => NoFuel
  end.

(** [connect]: the servers in turn until one works; [attempt] is [connect_to] with the sockets
    and draws of each attempt. *)
Fixpoint connect_servers (attempt : Server → res Error Control) (servers : list Server)
    (last : option Error) : res Error Control :=
  match servers with
  | [] => Err (default (Account (Lit "no remote")) last)
  | s :: servers => match attempt s with
                    | Ok c => Ok c
                    | Err e => connect_servers attempt servers (Some e)
                    | Panic => Panic
                    | NoFuel => NoFuel
                    end
  end.
Definition connect (attempt : Server → res Error Control) (p : Profile) : res Error Control :=
  connect_servers attempt (servers p) None.

End Control.
