(* ===== verification/ControlDelivery.v ===== *)
(** Properties of the reliability layer of openvpn/control.rs: the acknowledgement list, the
    in-order delivery of control packets to TLS, and the chunking of what TLS writes. *)
From S2P Require Import Prelude Text OvpnConfig Replay Keys DataCipher Packet Framing TlsChannel Control.

Section Delivery.
Context {T : TlsLib}.
Implicit Types c : Control.

Lemma control_ext c c' :
  transport c = transport c' → tls c = tls c' → session_id c = session_id c' →
  remote_session_id c = remote_session_id c' → next_packet_id c = next_packet_id c' →
  cipher c = cipher c' → auth c = auth c' → keys c = keys c' → seed c = seed c' →
  peer_id c = peer_id c' → send_counter c = send_counter c' → replay c = replay c' →
  acked c = acked c' → last_payload c = last_payload c' → recv_next c = recv_next c' →
  reorder c = reorder c' → c = c'.
Proof. destruct c, c'. simpl. intros. by subst. Qed.

(** * Acknowledgements *)

Lemma record_ack_acked id c :
  acked (record_ack id c) = if decide (id ∈ acked c) then acked c else take MAX_ACKS (id :: acked c).
Proof. unfold record_ack. by case_decide. Qed.

Lemma NoDup_take {A} n (l : list A) : NoDup l → NoDup (take n l).
Proof. intros H. rewrite <- (take_drop n l) in H. by apply NoDup_app in H as [? _]. Qed.

(** The acknowledgement block. Recording packet ids in any order keeps the block free of
    duplicates and within the four ids the packet format carries; the id just received is always
    in it, a new id is put first, and the block drops only its oldest entry. *)
Theorem acked_invariant ids id c :
  NoDup (acked c) → (length (acked c) <= MAX_ACKS)%nat →
  let c' := foldl (fun c i => record_ack i c) c ids in
  NoDup (acked c') ∧ (length (acked c') <= MAX_ACKS)%nat ∧
  id ∈ acked (record_ack id c') ∧
  (id ∉ acked c' → acked (record_ack id c') = take MAX_ACKS (id :: acked c')) ∧
  (id ∈ acked c' → record_ack id c' = c').
Proof.
  intros Hnd Hlen. cbv zeta.
  assert (∀ c i, NoDup (acked c) → (length (acked c) <= MAX_ACKS)%nat →
            NoDup (acked (record_ack i c)) ∧ (length (acked (record_ack i c)) <= MAX_ACKS)%nat) as Hstep.
  { intros c0 i H1 H2. rewrite record_ack_acked. case_decide; [done|].
    split; [apply NoDup_take; by constructor|]. rewrite length_take. lia. }
  revert c Hnd Hlen. induction ids as [|i ids IH]; intros c Hnd Hlen.
  - simpl. rewrite !record_ack_acked. split; [done|]. split; [done|]. split; [|split].
    + case_decide; [done|]. by left.
    + intros H. by rewrite decide_False.
    + intros H. unfold record_ack. by rewrite decide_True.
  - simpl. destruct (Hstep c i Hnd Hlen). by apply IH.
Qed.

(** * In-order delivery *)

(** Feeding TLS one payload after the other. *)
Fixpoint feed_all (ps : list (list byte)) : SE (TlsState T) Error () :=
  match ps with
  | [] => mret ()
  | p :: ps => TlsChannel.feed p;; feed_all ps
  end.

Lemma feed_all_app ps qs t :
  feed_all (ps ++ qs) t = (feed_all ps;; feed_all qs) t.
Proof.
  revert t. induction ps as [|p ps IH]; intros t; [done|].
  simpl. unfold mbind, se_bind in *. destruct (TlsChannel.feed p t) as [[[]|e| |] t']; [|done..].
  apply IH.
Qed.

(** What a control packet changes: the TLS state, the next expected id and the reorder buffer. *)
Definition with_rx (t : TlsState T) (k : Z) (m : gmap Z (list byte)) (c : Control) : Control :=
  set_tls t (set_recv_next k (set_reorder m c)).

Fixpoint accept_all (arrivals : list (Z * list byte)) : SE Control Error () :=
  match arrivals with
  | [] => mret ()
  | (id, p) :: arrivals => accept_control id p;; accept_all arrivals
  end.

Section Reassembly.
(** The sender's packets: ids [r .. r + n) with payloads [f]. *)
Context (c0 : Control) (f : Z → list byte) (r n : Z).
Context (Hr : 0 <= r) (Hn : 0 <= n <= 32) (Hwrap : r + n < 2 ^ 32).
Context (t' : TlsState T).
Context (Hfeed : feed_all (f <$> seqZ r n) (tls c0) = (Ok (), t')).

(** Feeding a prefix succeeds because feeding everything does. *)
Lemma feed_prefix k : r <= k <= r + n → ∃ t, feed_all (f <$> seqZ r (k - r)) (tls c0) = (Ok (), t).
Proof using All.
  intros Hk. replace n with ((k - r) + (n - (k - r))) in Hfeed by lia.
  rewrite seqZ_app, fmap_app, feed_all_app in Hfeed by lia.
  apply se_bind_ok in Hfeed as ([] & t & Ht & _). eauto.
Qed.

Lemma feed_next k t : r <= k < r + n →
  feed_all (f <$> seqZ r (k - r)) (tls c0) = (Ok (), t) →
  ∃ t1, TlsChannel.feed (f k) t = (Ok (), t1) ∧
        feed_all (f <$> seqZ r (k + 1 - r)) (tls c0) = (Ok (), t1).
Proof using All.
  intros Hk Ht. destruct (feed_prefix (k + 1)) as [t1 H1]; [lia|].
  exists t1. split; [|done]. replace (k + 1 - r) with ((k - r) + 1) in H1 by lia.
  rewrite seqZ_app, fmap_app, feed_all_app in H1 by lia.
  replace (r + (k - r)) with k in H1 by lia.
  unfold mbind, se_bind in H1. rewrite Ht in H1. simpl in H1.
  unfold mbind, se_bind in H1. simpl in H1.
  replace (Z.of_nat 0 + k) with k in H1 by lia.
  by destruct (TlsChannel.feed (f k) t) as [[[]|e| |] t2].
Qed.

(** After the arrivals in [S]: everything before [k] was fed in order, and the buffer holds
    exactly the later ids that arrived. *)
Record rx_inv (S : Z → Prop) (c : Control) (k : Z) (m : gmap Z (list byte)) : Prop := {
  ri_range : r <= k <= r + n;
  ri_state : ∃ t, c = with_rx t k m c0 ∧ feed_all (f <$> seqZ r (k - r)) (tls c0) = (Ok (), t);
  ri_before i : r <= i < k → S i;
  ri_reorder i p : m !! i = Some p ↔ S i ∧ k <= i ∧ p = f i
}.

Lemma rx_inv_bound S c k m : rx_inv S c k m → (∀ i, S i → i < r + n) →
  (size m <= Z.to_nat (r + n - k))%nat.
Proof using All.
  intros H HS. rewrite <- size_dom.
  assert (dom m ⊆ list_to_set (C:=gset Z) (seqZ k (r + n - k))) as Hsub.
  { intros i Hi. apply elem_of_dom in Hi as [p Hp]. apply (ri_reorder _ _ _ _ H) in Hp as (Hi & ? & _).
    apply elem_of_list_to_set, elem_of_seqZ. specialize (HS i Hi). lia. }
  apply subseteq_size in Hsub. rewrite size_list_to_set in Hsub by apply NoDup_seqZ.
  by rewrite length_seqZ in Hsub.
Qed.

(** The drain loop stops at the first missing id. *)
Lemma deliver_loop_inv fuel S c k m :
  rx_inv S c k m → (∀ i, S i → i < r + n) → (size m <= fuel)%nat →
  ∃ c1 k1 m1, deliver_loop fuel c = (Ok (), c1) ∧ rx_inv S c1 k1 m1 ∧ ¬ S k1 ∧ k <= k1.
Proof using All.
  revert c k m. induction fuel as [|fuel IH]; intros c k m Hinv HS Hsz.
  - assert (m = ∅) as -> by (apply map_size_empty_inv; lia).
    pose proof (ri_state _ _ _ _ Hinv) as (t & -> & Ht).
    exists (with_rx t k ∅ c0), k, ∅. split; [done|]. split; [done|]. split; [|lia].
    intros Hk. pose proof (proj2 (ri_reorder _ _ _ _ Hinv k (f k)) ltac:(split; [done|split; [lia|done]])).
    by rewrite lookup_empty in H.
  - pose proof (ri_state _ _ _ _ Hinv) as (t & -> & Ht). simpl.
    destruct (m !! k) as [p|] eqn:Em.
    + pose proof (proj1 (ri_reorder _ _ _ _ Hinv k p) Em) as (HSk & _ & ->).
      pose proof (HS k HSk) as Hkn. pose proof (ri_range _ _ _ _ Hinv) as Hrange.
      destruct (feed_next k t) as (t1 & Hf & Ht1); [lia|done|].
      unfold mbind, se_bind, on_tls. simpl. rewrite Hf. simpl.
      rewrite wadd32_small by lia.
      change (set_recv_next _ _) with (with_rx t1 (k + 1) (delete k m) c0).
      destruct (IH (with_rx t1 (k + 1) (delete k m) c0) (k + 1) (delete k m))
        as (c1 & k1 & m1 & Hd & Hi1 & Hk1 & Hle); [|done| |].
      * split; [lia|by eexists| |].
        -- intros i Hi. destruct (decide (i = k)) as [->|]; [done|].
           apply (ri_before _ _ _ _ Hinv). lia.
        -- intros i q. destruct (decide (i = k)) as [->|Hne].
           ++ rewrite lookup_delete_eq. split; [done|]. intros (_ & ? & _). lia.
           ++ rewrite lookup_delete_ne, (ri_reorder _ _ _ _ Hinv) by done.
              split; intros (? & ? & ?); repeat split; (done || lia).
      * rewrite map_size_delete_Some by eauto. lia.
      * exists c1, k1, m1. split_and!; [done|done|done|lia].
    + exists (with_rx t k m c0), k, m. split; [done|]. split; [done|]. split; [|lia].
      intros Hk. pose proof (proj2 (ri_reorder _ _ _ _ Hinv k (f k)) ltac:(split; [done|split; [lia|done]])).
      congruence.
Qed.

(** One arrival. *)
Lemma accept_control_inv S c k m id :
  rx_inv S c k m → ¬ S k → (∀ i, S i → i < r + n) → id < r + n →
  ∃ c1 k1 m1, accept_control id (f id) c = (Ok (), c1) ∧
    rx_inv (fun i => i = id ∨ S i) c1 k1 m1 ∧ ¬ (k1 = id ∨ S k1).
Proof using All.
  intros Hinv Hk HS Hid. pose proof (ri_state _ _ _ _ Hinv) as (t & -> & Ht).
  pose proof (ri_range _ _ _ _ Hinv) as Hrange.
  unfold accept_control, get_st, mbind, se_bind. simpl.
  destruct (Z.ltb_spec id k) as [Hlt|Hge].
  - exists (with_rx t k m c0), k, m. split; [done|]. split; [|intros [?|?]; [lia|done]].
    split; [done|by eexists| |].
    + intros i Hi. right. by apply (ri_before _ _ _ _ Hinv).
    + intros i q. rewrite (ri_reorder _ _ _ _ Hinv). split.
      * intros (? & ? & ?). by repeat split; [right| |].
      * intros ([?|?] & ? & ?); [lia|done].
  - destruct (Z.ltb_spec k id) as [Hgt|Hle].
    + pose proof (rx_inv_bound _ _ _ _ Hinv HS) as Hb.
      assert (size m <> 32)%nat as Hne.
      { intros Heq. assert (n = 32) by lia. assert (k = r) by lia. subst k.
        (* 32 ids from r on, r itself missing: at most 31 are buffered *)
        assert (dom m ⊆ list_to_set (C:=gset Z) (seqZ (r + 1) (n - 1))) as Hsub.
        { intros i Hi. apply elem_of_dom in Hi as [p Hp].
          apply (ri_reorder _ _ _ _ Hinv) in Hp as (Hi & ? & _).
          apply elem_of_list_to_set, elem_of_seqZ. specialize (HS i Hi).
          destruct (decide (i = r)) as [->|]; [done|]. lia. }
        apply subseteq_size in Hsub. rewrite size_list_to_set in Hsub by apply NoDup_seqZ.
        rewrite length_seqZ, size_dom in Hsub. lia. }
      rewrite (proj2 (Nat.ltb_lt _ _)) by lia. unfold modify_st. simpl.
      exists (with_rx t k (<[id:=f id]> m) c0), k, (<[id:=f id]> m).
      split; [done|]. split; [|intros [?|?]; [lia|done]].
      split; [done|by eexists| |].
      * intros i Hi. right. by apply (ri_before _ _ _ _ Hinv).
      * intros i q. destruct (decide (i = id)) as [->|Hne'].
        -- rewrite lookup_insert_eq. split; [intros [= <-]; repeat split; [by left|lia]|].
           by intros (_ & _ & ->).
        -- rewrite lookup_insert_ne, (ri_reorder _ _ _ _ Hinv) by done.
           split; intros (Hs & ? & ?); repeat split; try done; [by right|].
           by destruct Hs.
    + assert (id = k) as -> by lia. unfold on_tls. simpl.
      destruct (feed_next k t) as (t1 & -> & Ht1); [lia|done|]. simpl.
      rewrite wadd32_small by lia.
      change (set_recv_next _ _) with (with_rx t1 (k + 1) m c0).
      destruct (deliver_loop_inv (size m) (fun i => i = k ∨ S i) (with_rx t1 (k + 1) m c0) (k + 1) m)
        as (c1 & k1 & m1 & Hd & Hi1 & Hk1 & _).
      * split; [lia|by eexists| |].
        -- intros i Hi. destruct (decide (i = k)) as [->|]; [by left|].
           right. apply (ri_before _ _ _ _ Hinv). lia.
        -- intros i q. rewrite (ri_reorder _ _ _ _ Hinv). split.
           ++ intros (HSi & ? & ?). destruct (decide (i = k)) as [->|]; [done|].
              repeat split; [by right|lia|done].
           ++ intros ([?|?] & ? & ?); [lia|]. repeat split; [done|lia|done].
      * intros i [->|Hi]; [done|by apply HS].
      * done.
      * exists c1, k1, m1. by split_and!.
Qed.

Lemma accept_all_inv ids S c k m :
  rx_inv S c k m → ¬ S k → (∀ i, S i → i < r + n) → Forall (fun id => id < r + n) ids →
  ∃ c1 k1 m1, accept_all ((fun id => (id, f id)) <$> ids) c = (Ok (), c1) ∧
    rx_inv (fun i => i ∈ ids ∨ S i) c1 k1 m1 ∧ ¬ (k1 ∈ ids ∨ S k1).
Proof using All.
  intros Hinv Hk HS Hids. revert S c k m Hinv Hk HS.
  induction Hids as [|id ids Hid _ IH]; intros S c k m Hinv Hk HS.
  - exists c, k, m. split; [done|]. split; [|by intros [?%elem_of_nil|?]].
    destruct Hinv as [? ? Hb Hm]. split; [done..| |].
    + intros i Hi. right. by apply Hb.
    + intros i p. rewrite Hm. split; intros (Hs & ? & ?); repeat split; try done; [by right|].
      by destruct Hs as [?%elem_of_nil|].
  - destruct (accept_control_inv S c k m id) as (c1 & k1 & m1 & Ha & Hinv1 & Hk1); [done..|].
    destruct (IH (fun i => i = id ∨ S i) c1 k1 m1) as (c2 & k2 & m2 & Hb & Hinv2 & Hk2); [done|done| |].
    { intros i [->|?]; [done|by apply HS]. }
    exists c2, k2, m2. split.
    + rewrite fmap_cons. simpl. unfold mbind, se_bind. by rewrite Ha.
    + split.
      * destruct Hinv2 as [? ? Hb2 Hm2]. split; [done..| |].
        -- intros i Hi. rewrite elem_of_cons. specialize (Hb2 i Hi). tauto.
        -- intros i p. rewrite Hm2, elem_of_cons. tauto.
      * rewrite elem_of_cons. tauto.
Qed.
End Reassembly.

Lemma set_rx_id c : with_rx (tls c) (recv_next c) (reorder c) c = c.
Proof. by destruct c. Qed.

(** C3: Reliable in-order delivery. Let the peer's control packets carry the ids [r, r + n),
    with at most 32 of them in flight. Whatever the order in which they arrive, and however often
    each is duplicated (older packets included), TLS is fed exactly the payloads in the order of
    their ids, nothing stays buffered and the next expected id is [r + n]. *)
Theorem control_reassembly c f n ids t' :
  0 <= recv_next c → 0 <= n <= 32 → recv_next c + n < 2 ^ 32 → reorder c = ∅ →
  feed_all (f <$> seqZ (recv_next c) n) (tls c) = (Ok (), t') →
  (∀ i, recv_next c <= i < recv_next c + n → i ∈ ids) →
  Forall (fun i => i < recv_next c + n) ids →
  accept_all ((fun i => (i, f i)) <$> ids) c = (Ok (), with_rx t' (recv_next c + n) ∅ c).
Proof.
  intros Hr Hn Hw Hempty Hfeed Hall Hids.
  set (r := recv_next c) in *.
  destruct (accept_all_inv c f r n Hr Hn Hw t' Hfeed ids (fun _ => False) c r ∅)
    as (c1 & k1 & m1 & -> & Hinv & Hk1); [|tauto|done|done|].
  - split; [lia| |lia|].
    + exists (tls c). split; [by rewrite <- Hempty, set_rx_id|].
      by rewrite seqZ_nil by lia.
    + intros i p. rewrite lookup_empty. split; [done|by intros (? & _)].
  - destruct Hinv as [Hrange (t & -> & Ht) _ Hm].
    assert (k1 = r + n) as ->.
    { destruct (decide (k1 = r + n)) as [|Hne]; [done|]. destruct Hk1. left. apply Hall. lia. }
    replace (r + n - r) with n in Ht by lia. rewrite Hfeed in Ht. simplify_eq.
    assert (m1 = ∅) as ->; [|done].
    apply map_eq. intros i. rewrite lookup_empty. apply eq_None_not_Some. intros [p Hp].
    apply Hm in Hp as ([Hi|[]] & Hle & _).
    rewrite Forall_forall in Hids. specialize (Hids i Hi). lia.
Qed.

(** * Chunking *)

(** What the socket carries for one packet. *)
Definition wire (k : Protocol) (p : list byte) : list byte :=
  match k with Udp => p | Tcp => be16 (Z.of_nat (length p)) ++ p end.

Definition put_all (ps : list (list byte)) (n : Net) : Net :=
  mkNet (kind n) (now n) (incoming n) (rx n) (sent n ++ (wire (kind n) <$> ps)) (link_error n).

Lemma net_send_ok p n : link_error n = None → 1 <= Z.of_nat (length p) <= 65535 →
  net_send p n = (Ok (), put_all [p] n).
Proof.
  intros Hl Hp. unfold net_send, put_all, wire. rewrite Hl.
  destruct (kind n); [done|]. by rewrite write_packet_ok by (unfold frame_ok, MAX_PACKET; lia).
Qed.

Lemma put_all_app ps qs n : put_all qs (put_all ps n) = put_all (ps ++ qs) n.
Proof. unfold put_all. simpl. by rewrite fmap_app, app_assoc. Qed.

Lemma control_bytes_length sid acks remote id p :
  length sid = SID_SIZE → length remote = SID_SIZE → (length p <= MAX_CONTROL_PAYLOAD)%nat →
  1 <= Z.of_nat (length (control_bytes sid acks remote id p)) <= 65535.
Proof.
  intros Hs Hr Hp. unfold control_bytes. cbn [length app]. rewrite !length_app, be_bytes_length.
  rewrite encode_acks_length by done. unfold SID_SIZE, MAX_CONTROL_PAYLOAD, MAX_ACKS in *.
  case_cmp; lia.
Qed.

(** The state after the chunks [cs] were sent. *)
Definition sent_chunks (cs : list (list byte)) (c : Control) : Control :=
  set_transport (put_all (imap (fun i p => control_bytes (session_id c) (acked c) (remote_session_id c)
                                             (next_packet_id c + Z.of_nat i) p) cs) (transport c))
    (set_next_packet_id (next_packet_id c + Z.of_nat (length cs))
      (set_last_payload (default (last_payload c) (list.last cs)) c)).

Lemma sent_chunks_cons p cs c : sent_chunks cs (sent_chunks [p] c) = sent_chunks (p :: cs) c.
Proof.
  apply control_ext; try reflexivity.
  - change (put_all (imap (fun i p0 => control_bytes (session_id c) (acked c) (remote_session_id c)
                                        (next_packet_id c + Z.of_nat 1 + Z.of_nat i) p0) cs)
             (put_all [control_bytes (session_id c) (acked c) (remote_session_id c)
                         (next_packet_id c + Z.of_nat 0) p] (transport c))
            = transport (sent_chunks (p :: cs) c)).
    rewrite put_all_app. unfold sent_chunks. cbn [transport set_transport imap app]. f_equal. f_equal.
    apply imap_ext. intros i x _. simpl. f_equal. lia.
  - cbn [sent_chunks next_packet_id set_next_packet_id set_transport length]. lia.
  - change (default p (list.last cs) = default (last_payload c) (list.last (p :: cs))).
    rewrite last_cons. by destruct (list.last cs).
Qed.

Lemma send_chunks_loop_spec fuel data c :
  (length data <= fuel)%nat → link_error (transport c) = None →
  length (session_id c) = SID_SIZE → length (remote_session_id c) = SID_SIZE →
  0 <= next_packet_id c → next_packet_id c + Z.of_nat (length data) < 2 ^ 32 →
  ∃ cs, send_chunks_loop fuel data c = (Ok (), sent_chunks cs c) ∧ concat cs = data ∧
        Forall (fun p => 1 <= length p <= MAX_CONTROL_PAYLOAD)%nat cs.
Proof.
  revert data c. induction fuel as [|fuel IH]; intros data c Hf Hl Hs Hr H0 Hw;
    (destruct data as [|b data];
     [exists []; split; [|done]; unfold sent_chunks, put_all; simpl; rewrite app_nil_r, Z.add_0_r;
      by destruct c as [[]] |]); [simpl in Hf; lia|].
  set (d := b :: data) in *. set (p := take MAX_CONTROL_PAYLOAD d).
  assert (1 <= length d)%nat by (unfold d; simpl; lia).
  assert (1 <= length p <= MAX_CONTROL_PAYLOAD)%nat as Hp
    by (unfold p, MAX_CONTROL_PAYLOAD; rewrite length_take; lia).
  assert (length (drop MAX_CONTROL_PAYLOAD d) < length d)%nat as Hd
    by (unfold MAX_CONTROL_PAYLOAD; rewrite length_drop; lia).
  assert (send_control p c = (Ok (), sent_chunks [p] c)) as Hsend.
  { unfold send_control, get_st, modify_st, mbind, se_bind, send_raw, on_net. simpl.
    rewrite net_send_ok; [|done|apply control_bytes_length; (done || lia)].
    simpl. rewrite wadd32_small by lia. unfold sent_chunks. simpl. rewrite Z.add_0_r. done. }
  assert (next_packet_id (sent_chunks [p] c) = next_packet_id c + 1) as Hid by done.
  destruct (IH (drop MAX_CONTROL_PAYLOAD d) (sent_chunks [p] c)) as (cs & Hcs & Hcat & Hall);
    [lia|done..|lia|lia|].
  exists (p :: cs). split; [|split; [|by constructor]].
  - change (send_chunks_loop (S fuel) d) with
      (send_control p;; send_chunks_loop fuel (drop MAX_CONTROL_PAYLOAD d)).
    unfold mbind, se_bind. by rewrite Hsend, Hcs, sent_chunks_cons.
  - change (p ++ concat cs = d). rewrite Hcat. apply take_drop.
Qed.

(** Chunking. What TLS hands to the control channel is cut into non-empty payloads of at
    most 1184 bytes that concatenate to it and go out as control packets with consecutive packet
    ids, each of which the peer's parser reads back to its session id, packet id and payload. *)
Theorem send_control_chunks_spec data c :
  link_error (transport c) = None →
  length (session_id c) = SID_SIZE → length (remote_session_id c) = SID_SIZE →
  0 <= next_packet_id c → next_packet_id c + Z.of_nat (length data) < 2 ^ 32 →
  ∃ cs ps c', send_control_chunks data c = (Ok (), c') ∧
    concat cs = data ∧ Forall (fun p => 1 <= length p <= 1184)%nat cs ∧ length ps = length cs ∧
    sent (transport c') = sent (transport c) ++ (wire (kind (transport c)) <$> ps) ∧
    next_packet_id c' = next_packet_id c + Z.of_nat (length cs) ∧
    last_payload c' = default (last_payload c) (list.last cs) ∧
    (∀ (i : nat) p, cs !! i = Some p → ∃ raw, ps !! i = Some raw ∧
      parse raw = Ok (Some {| opcode := P_CONTROL_V1; Packet.session_id := session_id c;
                              packet_id := next_packet_id c + Z.of_nat i;
                              header := []; payload := p |})).
Proof.
  intros Hl Hs Hr H0 Hw.
  destruct (send_chunks_loop_spec (length data) data c) as (cs & Hsend & Hcat & Hall); try done.
  assert (length cs <= length data)%nat as Hlen.
  { rewrite <- Hcat. clear -Hall. induction Hall as [|p cs Hp _ IH]; [done|].
    simpl. rewrite length_app. lia. }
  eexists cs, _, _. split; [exact Hsend|]. split; [done|]. split; [exact Hall|].
  split; [|split; [done|split; [done|split; [done|]]]]; [by rewrite length_imap|].
  intros i p Hi. rewrite list_lookup_imap, Hi. simpl. eexists. split; [done|].
  pose proof (lookup_lt_Some _ _ _ Hi). unfold control_bytes.
  rewrite parse_control_prefix by done. simpl (P_CONTROL_V1 =? P_ACK_V1).
  rewrite length_app, be_bytes_length. rewrite (proj2 (Nat.ltb_ge _ _)) by lia.
  rewrite take_be_bytes, drop_be_bytes, from_be32 by (unfold is_u32; lia). done.
Qed.
End Delivery.

(** * A concrete channel *)

Definition toy_net : Net := mkNet Udp 0 [] (mkStream [] false) [] None.
Definition toy_control : Control (T:=toy_tls) :=
  mkControl toy_net (start (T:=toy_tls) Mem.default) (replicate 8 x0a) (replicate 8 x0b) 1
    Aes128Gcm Sha1 None None NONE 0 Replay.new [] [] 1 ∅.
Definition toy_payload (i : Z) : list byte := [u8 i].

Lemma acked_invariant_witness :
  acked (foldl (fun c i => record_ack i c) toy_control [3; 1; 3; 2; 9]) = [9; 2; 1; 3] ∧
  NoDup (acked (foldl (fun c i => record_ack i c) toy_control [3; 1; 3; 2; 9])).
Proof.
  split; [vm_compute; reflexivity|].
  apply (acked_invariant [3; 1; 3; 2; 9] 0 toy_control); [apply NoDup_nil_2|vm_compute; lia].
Defined.

Lemma control_reassembly_witness :
  (accept_all ((fun i => (i, toy_payload i)) <$> [3; 1; 3; 2; 1; 4]) toy_control).1 = Ok () ∧
  ∃ t, accept_all ((fun i => (i, toy_payload i)) <$> [3; 1; 3; 2; 1; 4]) toy_control
       = (Ok (), with_rx t 5 ∅ toy_control) ∧
       (handshake t ≫= fun m => Some (inbound m)) = Some [x01; x02; x03; x04].
Proof.
  split; [vm_compute; reflexivity|]. eexists. split.
  - apply (control_reassembly toy_control toy_payload 4 [3; 1; 3; 2; 1; 4]);
      [vm_compute; congruence|lia|vm_compute; reflexivity|reflexivity
      |vm_compute; reflexivity| |].
    + simpl. intros i Hi. assert (i = 1 ∨ i = 2 ∨ i = 3 ∨ i = 4) as Hc by lia.
      rewrite !elem_of_cons. tauto.
    + simpl. repeat constructor.
  - vm_compute. reflexivity.
Defined.

Lemma send_control_chunks_spec_witness :
  ∃ cs ps c', send_control_chunks (replicate 1200 x07) toy_control = (Ok (), c') ∧
    concat cs = replicate 1200 x07 ∧ length ps = length cs ∧
    sent (transport c') = sent (transport toy_control) ++ (wire Udp <$> ps) ∧
    next_packet_id c' = 1 + Z.of_nat (length cs).
Proof.
  destruct (send_control_chunks_spec (replicate 1200 x07) toy_control)
    as (cs & ps & c' & H1 & H2 & _ & H4 & H5 & H6 & _);
    [reflexivity|reflexivity|reflexivity|vm_compute; congruence|vm_compute; reflexivity|].
  exists cs, ps, c'. repeat split; assumption.
Defined.
