(* ===== verification/ControlTermination.v ===== *)
(** openvpn/control.rs: every wait and every loop of the control and data channel ends. Each round
    of a receive loop uses up an arrival or time, so the backlog and the time left bound the
    rounds; time never runs backwards. *)
From S2P Require Import Prelude Text OvpnConfig Replay Keys DataCipher Packet Framing TlsChannel Control ControlDelivery.

(** * The socket *)

Lemma read_packet_progress s r s' : read_packet s = (r, s') →
  (length (arrived s') <= length (arrived s))%nat ∧
  (∀ p, r = Ready (Ok p) → (length (arrived s') < length (arrived s))%nat) ∧
  r ≠ Ready NoFuel ∧ r ≠ Ready Panic.
Proof.
  unfold read_packet, read_exact. intros H. repeat (case_match; simplify_eq/=);
    repeat match goal with
      | H : (_ <=? _)%nat = true |- _ => apply Nat.leb_le in H
      end; rewrite ?length_drop; (split; [lia|]); (split; [intros p Hp; simplify_eq; lia|]); (split; congruence).
Qed.

(** What waiting does to the socket: time passes and arrivals are used up. *)
Record later (n n' : Net) : Prop := {
  later_now : now n <= now n';
  later_backlog : (backlog n' <= backlog n)%nat
}.
#[local] Instance later_preorder : PreOrder later.
Proof.
  split; [intros n; split; lia|]. intros x y z [] []. split; lia.
Qed.

(** The outcome of a wait that may last until [deadline]: nothing came and the time is up, or
    something came and the backlog shrank. *)
Definition waited (deadline : Z) (n : Net) (b : nat) (o : res Error (option (list byte)) * Net) : Prop :=
  now n <= now o.2 <= deadline ∧ (backlog o.2 <= b)%nat ∧ o.1 ≠ NoFuel ∧ o.1 ≠ Panic ∧
  (o.1 = Ok None → now o.2 = deadline) ∧ (∀ p, o.1 = Ok (Some p) → (backlog o.2 < b)%nat).

Ltac count_arrivals :=
  simpl; change (list_fmap (Z * arrival)%type nat arrival_size) with (fmap (M:=list) arrival_size) in *.
Ltac waiting := unfold waited, backlog; count_arrivals; split_and!; try done; try lia.

Lemma udp_wait_spec deadline n evs : now n <= deadline →
  waited deadline n (sum_list (arrival_size <$> evs) + length (arrived (rx n))) (udp_wait deadline n evs).
Proof.
  revert n. induction evs as [|[t ev] evs IH]; intros n Hn; simpl.
  { waiting. }
  assert (1 <= arrival_size (t, ev))%nat as H1 by (unfold arrival_size; destruct ev; simpl; lia).
  destruct (Z.leb_spec t deadline) as [Ht|Ht].
  - set (n' := mkNet _ _ _ _ _ _). assert (now n <= now n' <= deadline) by (simpl; lia).
    destruct ev; [| |].
    + waiting.
    + waiting.
    + destruct (IH n') as (G1 & G2 & G3 & G4 & G5 & G6); [lia|]. change (rx n') with (rx n) in *.
      unfold waited; count_arrivals; split_and!; try done; try lia; intros p Hp; specialize (G6 p Hp); lia.
  - waiting.
Qed.

Lemma tcp_wait_spec deadline n s evs : now n <= deadline →
  waited deadline n (sum_list (arrival_size <$> evs) + length (arrived s)) (tcp_wait deadline n s evs).
Proof.
  revert n s. induction evs as [|[t ev] evs IH]; intros n s Hn; simpl;
    destruct (read_packet s) as [r s'] eqn:Er;
    destruct (read_packet_progress _ _ _ Er) as (Hle & Hlt & Hnf & Hp); destruct r as [r|].
  - waiting; destruct r; simpl; try done.
    intros p' [= <-]. specialize (Hlt _ eq_refl). lia.
  - waiting.
  - waiting; destruct r; simpl; try done.
    intros p' [= <-]. specialize (Hlt _ eq_refl). lia.
  - destruct (Z.leb_spec t deadline) as [Ht|Ht].
    + set (n' := mkNet _ _ _ _ _ _). assert (now n <= now n' <= deadline) by (simpl; lia).
      destruct ev.
      * destruct (IH n' (deliver s bs)) as (G1 & G2 & G3 & G4 & G5 & G6); [lia|].
        simpl arrival_size. unfold deliver in *. simpl in *. rewrite length_app in *.
        unfold waited; count_arrivals; split_and!; try done; try lia; intros p0 Hp0; specialize (G6 p0 Hp0); lia.
      * waiting.
      * destruct (IH n' (mkStream (arrived s) true)) as (G1 & G2 & G3 & G4 & G5 & G6); [lia|].
        simpl in *. unfold waited; count_arrivals; split_and!; try done; try lia; intros p0 Hp0; specialize (G6 p0 Hp0); lia.
    + waiting.
Qed.

Lemma recv_raw_spec timeout n : 0 <= timeout → waited (now n + timeout) n (backlog n) (recv_raw timeout n).
Proof.
  intros H. unfold recv_raw. destruct (kind n); [apply udp_wait_spec|apply tcp_wait_spec]; lia.
Qed.

Lemma net_send_later p n : later n (net_send p n).2 ∧ now (net_send p n).2 = now n ∧ (net_send p n).1 ≠ NoFuel ∧ (net_send p n).1 ≠ Panic.
Proof.
  unfold net_send, write_packet. destruct (kind n), (link_error n); simpl; repeat case_match; simplify_eq; simpl;
    split_and!; try done; split; simpl; unfold backlog; simpl; lia.
Qed.

Lemma parse_returns raw : parse raw ≠ NoFuel ∧ ∀ e, parse raw ≠ Err e.
Proof.
  unfold parse, slice_from, slice, slice_to.
  destruct raw as [|b raw]; [split; done|]. repeat (case_match; simpl); split; done.
Qed.

(** * The operations of the channel *)

Section Termination.
Context {T : TlsLib} {Laws : TlsLaws T} {L : CryptoLib}.
Context (hmac_md5 hmac_sha1 : list byte → list byte → list byte).
Implicit Types c : Control (T:=T).

(** The operation returns at once: it may send, but takes no time. *)
Definition tame {A} (m : SE (Control (T:=T)) Error A) : Prop :=
  ∀ c, (m c).1 ≠ NoFuel ∧ later (transport c) (transport (m c).2) ∧ now (transport (m c).2) = now (transport c).

Lemma tame_bind {A B} (m : SE (Control (T:=T)) Error A) (f : A → SE (Control (T:=T)) Error B) :
  tame m → (∀ a, tame (f a)) → tame (m ≫= f).
Proof using Type.
  intros Hm Hf c. destruct (Hm c) as (H1 & H2 & H3). unfold mbind, se_bind.
  destruct (m c) as [[a|e| |] c']; simpl in *; try done.
  destruct (Hf a c') as (G1 & G2 & G3). split_and!; [done|by etransitivity|congruence].
Qed.

Lemma tame_modify f : (∀ c, transport (f c) = transport c) → tame (modify_st f).
Proof using Type. intros H c. simpl. by rewrite H. Qed.
Lemma tame_get : tame get_st.
Proof using Type. by intros c. Qed.
Lemma tame_ret {A} (a : A) : tame (mret a).
Proof using Type. by intros c. Qed.
Lemma tame_lift {A} (r : res Error A) : r ≠ NoFuel → tame (lift_res r).
Proof using Type. by intros H c. Qed.
Lemma tame_fail {A} e : tame (A:=A) (fail_st e).
Proof using Type. by intros c. Qed.

Lemma tame_send_raw p : tame (send_raw p).
Proof using Type.
  intros c. unfold send_raw, on_net. destruct (net_send_later p (transport c)) as (H1 & H3 & H2 & _).
  destruct (net_send p (transport c)). done.
Qed.

Lemma tame_on_tls {A} (f : SE (TlsState T) Error A) : (∀ t, (f t).1 ≠ NoFuel) → tame (on_tls f).
Proof using Type. intros H c. unfold on_tls. specialize (H (tls c)). by destruct (f (tls c)). Qed.

Lemma feed_returns p (t : TlsState T) : (TlsChannel.feed p t).1 ≠ NoFuel.
Proof using Laws.
  unfold TlsChannel.feed. destruct (handshake t); [done|]. destruct (stream t); [|done].
  match goal with |- (TlsChannel.pump ?t).1 ≠ _ => by destruct (pump_total t) as (? & ? & -> & _) end.
Qed.
Lemma drive_returns (t : TlsState T) : (TlsChannel.drive t).1 ≠ NoFuel.
Proof using Laws.
  unfold TlsChannel.drive. destruct (handshake t) as [m|];
    [destruct (mid_handshake m); try done|];
    match goal with |- (TlsChannel.pump ?t).1 ≠ _ => by destruct (pump_total t) as (? & ? & -> & _) end.
Qed.
Lemma write_returns p (t : TlsState T) : (TlsChannel.write p t).1 ≠ NoFuel.
Proof using Laws.
  unfold TlsChannel.write. destruct (stream t) eqn:E; [|done].
  match goal with |- (drain_pending ?t).1 ≠ _ =>
    destruct (drain_pending_ready t) as (? & ? & -> & _) end; [|done].
  unfold is_ready. apply bool_decide_eq_true. simpl. eauto.
Qed.

Lemma tame_outbound : tame tls_take_outbound.
Proof using Type. intros c. unfold tls_take_outbound. by destruct (TlsChannel.take_outbound (tls c)). Qed.
Lemma tame_plaintext : tame tls_take_plaintext.
Proof using Type. intros c. unfold tls_take_plaintext. by destruct (TlsChannel.take_plaintext (tls c)). Qed.

#[local] Create HintDb tame.
#[local] Hint Resolve tame_get tame_ret tame_fail tame_send_raw tame_outbound tame_plaintext : tame.
#[local] Hint Extern 2 (tame (_ ≫= _)) => apply tame_bind : tame.
#[local] Hint Extern 2 (tame (modify_st _)) => apply tame_modify : tame.
#[local] Hint Extern 2 (tame (on_tls _)) => apply tame_on_tls : tame.
#[local] Hint Extern 3 (_ ≠ NoFuel) => done : tame.

Lemma record_ack_transport i c : transport (record_ack i c) = transport c.
Proof using Type. unfold record_ack. by case_decide. Qed.
#[local] Hint Resolve record_ack_transport feed_returns drive_returns write_returns : tame.

Lemma tame_send_ack i : tame (send_ack i).
Proof using Type. unfold send_ack. auto 8 with tame. Qed.
Lemma tame_send_control p : tame (send_control p).
Proof using Type. unfold send_control. auto 8 with tame. Qed.
Lemma tame_retransmit : tame retransmit_control.
Proof using Type.
  unfold retransmit_control. apply tame_bind; [apply tame_get|]. intros c. destruct (last_payload c); auto 8 with tame.
Qed.
#[local] Hint Resolve tame_send_ack tame_send_control tame_retransmit : tame.

Lemma tame_chunks_loop fuel data : (length data <= fuel)%nat → tame (send_chunks_loop fuel data).
Proof using Type.
  revert data. induction fuel as [|fuel IH]; intros [|b data] Hf; try (simpl in *; lia); [apply tame_ret..|].
  set (d := b :: data) in *.
  change (tame (send_control (take MAX_CONTROL_PAYLOAD d);; send_chunks_loop fuel (drop MAX_CONTROL_PAYLOAD d))).
  apply tame_bind; [apply tame_send_control|]. intros _. apply IH.
  unfold d, MAX_CONTROL_PAYLOAD in *. rewrite length_drop. simpl length in *. lia.
Qed.
Lemma tame_chunks data : tame (send_control_chunks data).
Proof using Type. by apply tame_chunks_loop. Qed.
#[local] Hint Resolve tame_chunks : tame.

Lemma tame_flush : tame flush_tls.
Proof using Type. unfold flush_tls. apply tame_bind; [apply tame_outbound|]. intros [|b o]; auto with tame. Qed.
#[local] Hint Resolve tame_flush : tame.

Lemma deliver_loop_returns fuel c : (size (reorder c) <= fuel)%nat →
  (deliver_loop fuel c).1 ≠ NoFuel ∧ later (transport c) (transport (deliver_loop fuel c).2) ∧
  now (transport (deliver_loop fuel c).2) = now (transport c).
Proof using Laws.
  revert c. induction fuel as [|fuel IH]; intros c Hf; simpl;
    destruct (reorder c !! recv_next c) as [p|] eqn:E; try done.
  - assert (size (reorder c) = 0%nat) as H0 by lia. apply map_size_empty_inv in H0.
    rewrite H0, lookup_empty in E. done.
  - assert (size (delete (recv_next c) (reorder c)) < size (reorder c))%nat as Hs.
    { rewrite map_size_delete, E. assert (size (reorder c) ≠ 0%nat); [|simpl; lia].
      intros H0. apply map_size_empty_inv in H0. by rewrite H0, lookup_empty in E. }
    unfold mbind, se_bind, on_tls. simpl. set (c1 := set_reorder _ c).
    change (tls c1) with (tls c). pose proof (feed_returns p (tls c)) as Hfeed.
    destruct (TlsChannel.feed p (tls c)) as [[[]|e| |] t]; simpl; try done.
    destruct (IH (set_recv_next (wadd32 (recv_next c1) 1) (set_tls t c1))) as (H1 & H2 & H3); [simpl; lia|]. done.
Qed.

Lemma tame_accept i p : tame (accept_control i p).
Proof using Laws.
  intros c. unfold accept_control. unfold mbind, se_bind, get_st.
  case_match; [done|]. case_match; [by case_match|].
  unfold on_tls. pose proof (feed_returns p (tls c)) as Hfeed.
  destruct (TlsChannel.feed p (tls c)) as [[[]|e| |] t]; try done.
  by apply (deliver_loop_returns (size (reorder c)) (set_recv_next (wadd32 (recv_next c) 1) (set_tls t c))).
Qed.
#[local] Hint Resolve tame_accept : tame.

Lemma tame_handle p : tame (handle_control p).
Proof using Laws. unfold handle_control. auto 12 with tame. Qed.
#[local] Hint Resolve tame_handle : tame.

(** * Receive loops *)

(** The backlog and the milliseconds left: what a round uses up. *)
Definition left_over (deadline : Z) (n : Net) : nat := (backlog n + Z.to_nat (deadline - now n))%nat.

Lemma left_over_later d n n' : later n n' → (left_over d n' <= left_over d n)%nat.
Proof using Type. intros []. unfold left_over. lia. Qed.

Lemma recv_packet_returns w c : 0 < w →
  let o := recv_packet w c in
  o.1 ≠ NoFuel ∧ later (transport c) (transport o.2) ∧ now (transport o.2) <= now (transport c) + w ∧
  (∀ r, o.1 = Ok r → ∀ d, now (transport c) + w <= d →
     (left_over d (transport o.2) < left_over d (transport c))%nat) ∧
  (∀ p, o.1 = Ok (Some p) → (backlog (transport o.2) < backlog (transport c))%nat).
Proof using Type.
  intros Hw. cbv zeta. destruct (recv_raw_spec w (transport c) ltac:(lia)) as (H1 & H2 & H3 & H4 & H5 & H6).
  unfold recv_packet, mbind, se_bind, on_net. destruct (recv_raw w (transport c)) as [[[raw|]|e| |] n']; simpl in *; try done.
  all: split_and!; simpl; try done; try lia; try (split; lia).
  - by destruct (parse_returns raw).
  - specialize (H6 raw eq_refl). intros r _ d Hd. unfold left_over. lia.
  - intros p _. by apply (H6 raw).
  - specialize (H5 eq_refl). intros r _ d Hd. unfold left_over. lia.
Qed.

(** The operation returns, not after the deadline [d]. *)
Definition ends {A} (d : Z) c (o : res Error A * Control (T:=T)) : Prop :=
  o.1 ≠ NoFuel ∧ later (transport c) (transport o.2) ∧ now (transport o.2) <= Z.max d (now (transport c)).

Lemma ends_later {A} d c c' (o : res Error A * Control (T:=T)) :
  later (transport c) (transport c') → now (transport c') <= Z.max d (now (transport c)) → ends d c' o → ends d c o.
Proof using Type. intros H Hn (H1 & H2 & H3). split_and!; [done|by etransitivity|lia]. Qed.

Lemma tame_ends {A} d (m : SE (Control (T:=T)) Error A) c : tame m → ends d c (m c).
Proof using Type. intros H. destruct (H c) as (H1 & H2 & H3). split_and!; [done|done|lia]. Qed.

Lemma ends_bind {A B} d (m : SE (Control (T:=T)) Error A) (f : A → SE (Control (T:=T)) Error B) c :
  ends d c (m c) → (∀ a c', m c = (Ok a, c') → ends d c' (f a c')) → ends d c ((m ≫= f) c).
Proof using Type.
  intros (H1 & H2 & H3) Hf. unfold mbind, se_bind. destruct (m c) as [[a|e| |] c'] eqn:E; simpl in *; try done.
  apply (ends_later _ _ c'); [done|lia|]. by apply Hf.
Qed.

(** A pump ends, and when it succeeds it has used up an arrival. *)
Definition pumped d c (o : res Error () * Control (T:=T)) : Prop :=
  ends d c o ∧ (o.1 = Ok () → (backlog (transport o.2) < backlog (transport c))%nat).

Lemma pumped_later d c c' o : later (transport c) (transport c') → now (transport c') <= Z.max d (now (transport c)) →
  pumped d c' o → pumped d c o.
Proof using Type.
  intros H Hn [H1 H2]. split; [by apply (ends_later _ _ c')|]. intros Hok. specialize (H2 Hok). destruct H. lia.
Qed.

Lemma pump_loop_returns fuel d lr c : (left_over d (transport c) < fuel)%nat → pumped d c (pump_loop fuel d lr c).
Proof using Laws.
  revert lr c. induction fuel as [|fuel IH]; intros lr c Hf; [lia|]. cbn [pump_loop].
  rewrite (se_bind_eq get_now _ _ _ _ eq_refl). cbv zeta.
  destruct (Z.eqb_spec (Z.max 0 (d - now (transport c))) 0) as [H0|H0].
  { split; [|done]. apply tame_ends, tame_fail. }
  set (w := Z.min _ 500).
  destruct (recv_packet_returns w c ltac:(lia)) as (R1 & R2 & Rn & R3 & R4).
  unfold mbind at 1, se_bind at 1. destruct (recv_packet w c) as [[[p|]|e| |] c1]; try done; simpl fst in *; simpl snd in *.
  - specialize (R3 _ eq_refl d ltac:(lia)). specialize (R4 _ eq_refl).
    case_match; [|apply (pumped_later _ _ c1); [done|lia|apply IH; lia]].
    destruct (tame_handle p c1) as (H1 & H2 & H3). split; [split_and!; [done|by etransitivity|lia]|].
    destruct H2. lia.
  - specialize (R3 _ eq_refl d ltac:(lia)). apply (pumped_later _ _ c1); [done|lia|].
    rewrite (se_bind_eq get_st _ _ _ _ eq_refl), (se_bind_eq get_now _ _ _ _ eq_refl). case_match; [|apply IH; lia].
    unfold mbind, se_bind. destruct (tame_retransmit c1) as (H1 & H2 & H3).
    destruct (retransmit_control c1) as [[[]|e| |] c2]; simpl fst in *; simpl snd in *; try done;
      [|split; [split_and!; simpl; done || lia|done]..].
    apply (pumped_later _ _ c2); [done|lia|]. apply IH. pose proof (left_over_later d _ _ H2). lia.
  - split; [split_and!; simpl; done || lia|done].
  - split; [split_and!; simpl; done || lia|done].
Qed.

Lemma pump_returns timeout c : pumped (now (transport c) + timeout) c (pump timeout c).
Proof using Laws.
  unfold pump. rewrite (se_bind_eq get_st _ _ _ _ eq_refl), (se_bind_eq get_now _ _ _ _ eq_refl).
  apply pump_loop_returns. unfold left_over.
  replace (now (transport c) + timeout - now (transport c)) with timeout by lia. lia.
Qed.

(** * Session set-up and the data path *)

Lemma push_loop_returns fuel d buffer c : (backlog (transport c) < fuel)%nat → ends d c (push_loop fuel d buffer c).
Proof using Laws.
  revert buffer c. induction fuel as [|fuel IH]; intros buffer c Hf; [lia|]. cbn [push_loop].
  rewrite (se_bind_eq get_now _ _ _ _ eq_refl). cbv zeta. case_match; [apply tame_ends, tame_fail|].
  destruct (pump_returns (Z.max 0 (d - now (transport c))) c) as [He Hb].
  apply ends_bind; [destruct He as (? & ? & ?); split_and!; done || lia|].
  intros [] c1 E. rewrite E in Hb. specialize (Hb eq_refl). simpl in Hb.
  apply ends_bind; [apply tame_ends, tame_plaintext|]. intros chunk c2 E2.
  assert (backlog (transport c2) <= backlog (transport c1))%nat.
  { destruct (tame_plaintext c1) as (_ & [_ H2] & _). by rewrite E2 in H2. }
  repeat (case_match; simplify_eq); try (apply tame_ends; solve [auto with tame]); apply IH; lia.
Qed.

Lemma read_server_randoms_returns b : read_server_randoms b ≠ NoFuel.
Proof using Type. unfold read_server_randoms. repeat (case_match; try done). Qed.

Lemma exchange_loop_returns fuel d buffer c : (backlog (transport c) < fuel)%nat → ends d c (exchange_loop fuel d buffer c).
Proof using Laws.
  revert buffer c. induction fuel as [|fuel IH]; intros buffer c Hf; [lia|]. cbn [exchange_loop].
  rewrite (se_bind_eq get_now _ _ _ _ eq_refl). cbv zeta. case_match; [apply tame_ends, tame_fail|].
  destruct (pump_returns (Z.max 0 (d - now (transport c))) c) as [He Hb].
  apply ends_bind; [destruct He as (? & ? & ?); split_and!; done || lia|].
  intros [] c1 E. rewrite E in Hb. specialize (Hb eq_refl). simpl in Hb.
  apply ends_bind; [apply tame_ends, tame_plaintext|]. intros chunk c2 E2.
  assert (backlog (transport c2) <= backlog (transport c1))%nat.
  { destruct (tame_plaintext c1) as (_ & [_ H2] & _). by rewrite E2 in H2. }
  apply ends_bind; [apply tame_ends, tame_lift, read_server_randoms_returns|].
  intros [rs|] c3 E3; [apply tame_ends, tame_ret|]. apply IH. injection E3 as _ <-. lia.
Qed.

Lemma drive_loop_returns fuel d c : (backlog (transport c) < fuel)%nat → ends d c (drive_loop fuel d c).
Proof using Laws.
  revert c. induction fuel as [|fuel IH]; intros c Hf; [lia|]. cbn [drive_loop].
  assert (tame (on_tls TlsChannel.drive;; outbound ← tls_take_outbound;
                match outbound with [] => mret () | _ => send_control_chunks outbound end)) as Ht.
  { apply tame_bind; [auto with tame|]. intros _. apply tame_bind; [auto with tame|]. intros []; auto with tame. }
  set (first := (on_tls TlsChannel.drive;; outbound ← tls_take_outbound;
                match outbound with [] => mret () | _ => send_control_chunks outbound end)) in *.
  match goal with |- ends d c (?m c) => assert (m c = (first ;; (
      c ← get_st;
      if is_ready (tls c) then mret ()
      else
        t ← get_now;
        let remaining := Z.max 0 (d - t) in
        if remaining =? 0 then fail_st Timeout
        else pump remaining;; drive_loop fuel d)) c) as -> end.
  { unfold first, mbind, se_bind. repeat (case_match; simplify_eq); done. }
  destruct (Ht c) as (H1 & [H2 H2'] & H3).
  apply ends_bind; [by apply tame_ends|]. intros [] c1 E. rewrite E in *. simpl in *.
  rewrite (se_bind_eq get_st _ _ _ _ eq_refl). case_match; [apply tame_ends, tame_ret|].
  rewrite (se_bind_eq get_now _ _ _ _ eq_refl). cbv zeta. case_match; [apply tame_ends, tame_fail|].
  destruct (pump_returns (Z.max 0 (d - now (transport c1))) c1) as [He Hb].
  apply ends_bind; [destruct He as (? & ? & ?); split_and!; done || lia|].
  intros [] c2 E2. rewrite E2 in Hb. specialize (Hb eq_refl). simpl in Hb. apply IH. lia.
Qed.

Lemma decrypt_returns dc h b : DataCipher.decrypt dc h b ≠ NoFuel.
Proof using Type.
  unfold decrypt, decrypt_aead, decrypt_cbc, aead, tag_last, slice_to, slice_from, slice, ok_or.
  repeat (case_match; simpl; try done).
Qed.

Lemma recv_data_loop_returns fuel d c : (left_over d (transport c) < fuel)%nat → ends d c (recv_data_loop fuel d c).
Proof using Laws.
  revert c. induction fuel as [|fuel IH]; intros c Hf; [lia|]. cbn [recv_data_loop].
  rewrite (se_bind_eq get_now _ _ _ _ eq_refl). cbv zeta.
  destruct (Z.eqb_spec (Z.max 0 (d - now (transport c))) 0) as [H0|H0]; [apply tame_ends, tame_ret|].
  set (w := Z.max 0 _) in *.
  destruct (recv_packet_returns w c ltac:(lia)) as (R1 & R2 & Rn & R3 & R4).
  assert (ends d c (recv_packet w c)) as He by (split_and!; done || lia).
  apply ends_bind; [done|]. intros [p|] c1 E; [|apply tame_ends, tame_ret].
  rewrite E in *. simpl in *. specialize (R3 _ eq_refl d ltac:(lia)).
  assert (∀ A (m : SE (Control (T:=T)) Error A), tame m → ends d c1 ((m;; recv_data_loop fuel d) c1)) as Hthen.
  { intros A m Hm. destruct (Hm c1) as (_ & H2 & _). apply ends_bind; [by apply tame_ends|].
    intros a c2 E2. rewrite E2 in H2. apply IH. pose proof (left_over_later d _ _ H2). simpl in *. lia. }
  assert (ends d c1 (recv_data_loop fuel d c1)) as Hrest by (apply IH; lia).
  case_match; [|case_match; [|case_match; [|done]]]; [|apply Hthen; auto with tame..].
  rewrite (se_bind_eq get_st _ _ _ _ eq_refl). destruct (keys c1) as [ks|]; [|done].
  apply ends_bind; [apply tame_ends, tame_lift, decrypt_returns|]. intros [counter pt] c2 E2.
  injection E2 as _ <-. destruct (accept (replay c1) counter) as [rw ok].
  destruct ok; simpl; [apply tame_ends; apply tame_bind; auto with tame|].
  apply (Hthen unit (modify_st (set_replay rw))). auto with tame.
Qed.

Lemma await_reset_loop_returns fuel d n : (left_over d n < fuel)%nat →
  (await_reset_loop fuel d n).1 ≠ NoFuel ∧ later n (await_reset_loop fuel d n).2 ∧
  now (await_reset_loop fuel d n).2 <= Z.max d (now n).
Proof using Type.
  revert n. induction fuel as [|fuel IH]; intros n Hf; [lia|]. cbn [await_reset_loop]. cbv zeta.
  destruct (Z.eqb_spec (Z.max 0 (d - now n)) 0) as [H0|H0]; [split_and!; done || (simpl; lia)|].
  destruct (recv_raw_spec (Z.max 0 (d - now n)) n ltac:(lia)) as (R1 & R2 & R3 & R4 & R5 & R6).
  destruct (recv_raw _ n) as [r n1]. simpl in R1, R2, R3, R4, R5, R6.
  assert (later n n1) as Hl by (split; lia).
  assert (∀ m, (left_over d n1 < m)%nat → m = fuel → 
    (await_reset_loop fuel d n1).1 ≠ NoFuel ∧ later n (await_reset_loop fuel d n1).2 ∧
    now (await_reset_loop fuel d n1).2 <= Z.max d (now n)) as Hgo.
  { intros m Hm ->. destruct (IH n1 Hm) as (G1 & G2 & G3). split_and!; [done|by etransitivity|lia]. }
  unfold left_over in *.
  destruct r as [[raw|]|e| |]; try done; [|by apply (Hgo fuel); [specialize (R5 eq_refl); lia|]|split_and!; done || (simpl; lia)].
  specialize (R6 raw eq_refl). destruct (parse_returns raw) as [Hp _].
  destruct (parse raw) as [[p|]|e| |]; try done; [case_match|..];
    solve [apply (Hgo fuel); [lia|done] | split_and!; done || (simpl; lia)].
Qed.

(** The operation returns within [d] milliseconds. *)
Definition within {A} (d : Z) (m : SE (Control (T:=T)) Error A) c : Prop :=
  (m c).1 ≠ NoFuel ∧ now (transport c) <= now (transport (m c).2) <= now (transport c) + d.

Lemma ends_within {A} d d' (m : SE (Control (T:=T)) Error A) c :
  ends d' c (m c) → 0 <= d → d' = now (transport c) + d → within d m c.
Proof using Type. intros (H1 & [H2 _] & H3) Hd ->. split; [done|lia]. Qed.

Lemma send_data_tame iv p : tame (send_data iv p).
Proof using Type.
  unfold send_data. apply tame_bind; [auto with tame|]. intros _. apply tame_bind; [auto with tame|]. intros c. cbv zeta.
  apply tame_bind; [apply tame_lift; by destruct (keys c)|]. intros ks.
  apply tame_bind; [apply tame_lift|auto with tame].
  unfold encrypt, encrypt_aead, encrypt_cbc, aead, tag_first, slice_to, slice_from, slice, ok_or.
  repeat (case_match; simpl; try done).
Qed.

Lemma write_string_returns out v : write_string out v ≠ NoFuel.
Proof using Type. unfold write_string. by case_match. Qed.
Lemma res_bind_returns {E A B} (r : res E A) (f : A → res E B) :
  r ≠ NoFuel → (∀ a, f a ≠ NoFuel) → r ≫= f ≠ NoFuel.
Proof using Type. destruct r; naive_solver. Qed.

Lemma exchange_keys_ends p a r1 r2 c : ends (now (transport c) + HANDSHAKE_TIMEOUT) c (exchange_keys p a r1 r2 c).
Proof using Laws.
  unfold exchange_keys. apply ends_bind.
  { apply tame_ends, tame_lift. unfold key_exchange_message.
    repeat (apply res_bind_returns; [apply write_string_returns|intros ?]). apply write_string_returns. }
  intros msg c0 [= _ <-].
  assert (tame (on_tls (TlsChannel.write msg);; pending ← tls_take_outbound; send_control_chunks pending)) as Ht
    by (repeat (apply tame_bind; [auto with tame|intros ?]); auto with tame).
  match goal with |- ends ?d c (?m c) => assert (m c = (
    (on_tls (TlsChannel.write msg);; pending ← tls_take_outbound; send_control_chunks pending);; (
      c ← get_st; t ← get_now;
      '(server_random1, server_random2) ← exchange_loop (S (backlog (transport c))) (t + HANDSHAKE_TIMEOUT) [];
      modify_st (fun c => set_seed (Some {|
        pre_master := a; client_random1 := r1; server_random1 := server_random1;
        client_random2 := r2; server_random2 := server_random2;
        client_sid := session_id c; server_sid := remote_session_id c |}) c))) c) as -> end.
  { unfold mbind, se_bind. repeat (case_match; simplify_eq); done. }
  destruct (Ht c) as (H1 & H2 & H3).
  apply ends_bind; [by apply tame_ends|]. intros [] c1 E. rewrite E in *. simpl in H1, H2, H3.
  rewrite (se_bind_eq get_st _ _ _ _ eq_refl), (se_bind_eq get_now _ _ _ _ eq_refl).
  apply ends_bind; [rewrite <- H3; apply exchange_loop_returns; lia|].
  intros [s1 s2] c2 _. apply tame_ends. auto with tame.
Qed.

Lemma push_request_ends c : ends (now (transport c) + HANDSHAKE_TIMEOUT) c (push_request c).
Proof using Laws.
  unfold push_request. apply ends_bind; [apply tame_ends; auto with tame|]. intros [] c0 E0.
  destruct (tame_on_tls (TlsChannel.write (Lit "PUSH_REQUEST" ++ [x00])) ltac:(auto with tame) c) as (_ & _ & H0).
  rewrite E0 in H0. apply ends_bind; [apply tame_ends; auto with tame|]. intros [] c1 E1.
  destruct (tame_flush c0) as (_ & _ & H1). rewrite E1 in H1.
  rewrite (se_bind_eq get_st _ _ _ _ eq_refl), (se_bind_eq get_now _ _ _ _ eq_refl).
  simpl in H0, H1. rewrite <- H0, <- H1. apply push_loop_returns. lia.
Qed.


Definition clock (c : Control) : Z := now (transport c).

End Termination.

(** * A concrete handshake: the server's reset, its one-byte TLS answer, and its random bytes *)

Definition toy_hmac16 : list byte → list byte → list byte := toy_hmac 16.
Definition toy_hmac20 : list byte → list byte → list byte := toy_hmac 20.
Definition server_packet (id : Z) (payload : list byte) : list byte :=
  control_bytes (replicate 8 x0b) [] (replicate 8 x0a) id payload.
Definition toy_server_reset : list byte := opcode_byte P_CONTROL_HARD_RESET_SERVER_V2 :: replicate 8 x0b ++ [x00] ++ be32 0.
Definition toy_server_randoms : list byte := be32 0 ++ [x02] ++ replicate 64 x33.
Definition toy_handshake_net : Net :=
  mkNet Udp 0 [(5, Bytes toy_server_reset);
               (10, Bytes (Lit "noise")); (30, Bytes (server_packet 1 [x01]));
               (50, Bytes (server_packet 2 toy_server_randoms))] (mkStream [] false) [] None.
Definition toy_profile : Profile :=
  {| servers := [mkServer (Lit "h") 1194 Udp]; OvpnConfig.cipher := Aes128Gcm; OvpnConfig.auth := Sha1;
     credentials := {| ca := []; cert := []; key := [] |} |}.
Definition toy_draws : Draws := mkDraws (replicate 8 x0a) (replicate 48 x01) (replicate 32 x02) (replicate 32 x03).


