(* ===== verification/ControlData.v ===== *)
(** openvpn/control.rs: from the handshake to installed keys, and the data channel end to end: what
    one side sends is what the other side receives, however the network reorders, duplicates or
    loses datagrams. *)
From S2P Require Import Prelude Text OvpnConfig Replay Keys DataCipher Packet Framing TlsChannel Control ControlDelivery ControlTermination.

Section Data.
Context {T : TlsLib} {L : CryptoLib}.
Context (hmac_md5 hmac_sha1 : list byte → list byte → list byte).
Implicit Types c d : Control (T:=T).

(** * What the reliability layer leaves alone *)

Record same_session c c' : Prop := {
  ss_sid : session_id c' = session_id c;
  ss_remote : remote_session_id c' = remote_session_id c;
  ss_cipher : cipher c' = cipher c;
  ss_auth : auth c' = auth c;
  ss_keys : keys c' = keys c;
  ss_seed : seed c' = seed c;
  ss_peer : peer_id c' = peer_id c;
  ss_counter : send_counter c' = send_counter c;
  ss_replay : replay c' = replay c
}.
#[local] Instance same_session_preorder : PreOrder same_session.
Proof. split; [by intros c|]. intros x y z [] []. split; congruence. Qed.

Definition keeps {A} (m : SE (Control (T:=T)) Error A) : Prop := ∀ c, same_session c (m c).2.

Lemma keeps_bind {A B} (m : SE (Control (T:=T)) Error A) (f : A → SE (Control (T:=T)) Error B) :
  keeps m → (∀ a, keeps (f a)) → keeps (m ≫= f).
Proof using Type.
  intros Hm Hf c. specialize (Hm c). unfold mbind, se_bind. destruct (m c) as [[a|e| |] c']; try done.
  simpl in Hm. etransitivity; [exact Hm|apply Hf].
Qed.
Lemma keeps_modify f : (∀ c, same_session c (f c)) → keeps (modify_st f).
Proof using Type. intros H c. apply H. Qed.
Lemma keeps_get : keeps get_st.
Proof using Type. by intros c. Qed.
Lemma keeps_now : keeps get_now.
Proof using Type. by intros c. Qed.
Lemma keeps_const {A} (r : res Error A) : keeps (fun c => (r, c)).
Proof using Type. by intros c. Qed.
Lemma keeps_on_net {A} (f : Net → res Error A * Net) : keeps (on_net f).
Proof using Type. intros c. unfold on_net. by destruct (f (transport c)). Qed.
Lemma keeps_on_tls {A} (f : SE (TlsState T) Error A) : keeps (on_tls f).
Proof using Type. intros c. unfold on_tls. by destruct (f (tls c)). Qed.
Lemma keeps_outbound : keeps tls_take_outbound.
Proof using Type. intros c. unfold tls_take_outbound. by destruct (TlsChannel.take_outbound (tls c)). Qed.
Lemma keeps_plaintext : keeps tls_take_plaintext.
Proof using Type. intros c. unfold tls_take_plaintext. by destruct (TlsChannel.take_plaintext (tls c)). Qed.
Lemma keeps_ack i c : same_session c (record_ack i c).
Proof using Type. unfold record_ack. by case_decide. Qed.

#[local] Create HintDb keeps.
#[local] Hint Resolve keeps_get keeps_now keeps_const keeps_on_net keeps_on_tls keeps_outbound keeps_plaintext keeps_ack : keeps.
#[local] Hint Extern 1 (keeps (fun _ => (_, _))) => apply keeps_const : keeps.
#[local] Hint Extern 1 (keeps (mret _)) => apply keeps_const : keeps.
#[local] Hint Extern 1 (keeps (fail_st _)) => apply keeps_const : keeps.
#[local] Hint Extern 1 (keeps (lift_res _)) => apply keeps_const : keeps.
#[local] Hint Extern 2 (keeps (_ ≫= _)) => apply keeps_bind; [|intros ?] : keeps.
#[local] Hint Extern 2 (keeps (modify_st _)) => apply keeps_modify; intros ? : keeps.
#[local] Hint Extern 3 (keeps (if _ then _ else _)) => case_match : keeps.
#[local] Hint Extern 3 (keeps (match _ with _ => _ end)) => case_match : keeps.
#[local] Hint Extern 3 (same_session _ _) => done : keeps.

Lemma keeps_chunks_loop fuel data : keeps (send_chunks_loop fuel data).
Proof using Type.
  revert data. induction fuel as [|fuel IH]; intros [|b data]; cbn [send_chunks_loop]; try apply keeps_const.
  apply keeps_bind; [unfold send_control, send_raw; auto 10 with keeps|]. intros _. apply IH.
Qed.
Lemma keeps_chunks data : keeps (send_control_chunks data).
Proof using Type. apply keeps_chunks_loop. Qed.
#[local] Hint Resolve keeps_chunks : keeps.

Lemma keeps_deliver fuel : keeps (deliver_loop fuel).
Proof using Type.
  induction fuel as [|fuel IH]; intros c; cbn [deliver_loop]; case_match; try done.
  set (c1 := set_reorder _ c). transitivity c1; [done|]. clearbody c1. revert c1.
  change (keeps (on_tls (TlsChannel.feed l);; modify_st (fun c => set_recv_next (wadd32 (recv_next c) 1) c);; deliver_loop fuel)).
  auto 10 with keeps.
Qed.
#[local] Hint Resolve keeps_deliver : keeps.

Lemma keeps_handle p : keeps (handle_control p).
Proof using Type. unfold handle_control, send_ack, send_raw, accept_control, flush_tls. auto 15 with keeps. Qed.
#[local] Hint Resolve keeps_handle : keeps.

Lemma keeps_pump_loop fuel (d lr : Z) : keeps (pump_loop fuel d lr).
Proof using Type.
  revert lr. induction fuel as [|fuel IH]; intros lr; cbn [pump_loop]; [apply keeps_const|].
  unfold recv_packet, retransmit_control, send_raw. cbv zeta. auto 25 with keeps.
Qed.
Lemma keeps_pump timeout : keeps (pump timeout).
Proof using Type.
  unfold pump. pose proof keeps_pump_loop. auto with keeps.
Qed.
#[local] Hint Resolve keeps_pump : keeps.

Lemma keeps_drive timeout : keeps (drive_tls timeout).
Proof using Type.
  unfold drive_tls. apply keeps_bind; [auto with keeps|]. intros c. apply keeps_bind; [auto with keeps|]. intros t.
  generalize (S (S (backlog (transport c)))) (t + timeout). intros fuel d.
  induction fuel as [|fuel IH]; cbn [drive_loop]; [apply keeps_const|]. cbv zeta. auto 20 with keeps.
Qed.

Lemma keeps_exchange fuel (d : Z) buffer : keeps (exchange_loop fuel d buffer).
Proof using Type.
  revert buffer. induction fuel as [|fuel IH]; intros buffer; cbn [exchange_loop]; [apply keeps_const|]. cbv zeta.
  auto 20 with keeps.
Qed.

Lemma keeps_push_loop fuel (d : Z) buffer : keeps (push_loop fuel d buffer).
Proof using Type.
  revert buffer. induction fuel as [|fuel IH]; intros buffer; cbn [push_loop]; [apply keeps_const|]. cbv zeta.
  auto 20 with keeps.
Qed.
Lemma keeps_push : keeps push_request.
Proof using Type. unfold push_request, flush_tls. pose proof keeps_push_loop. auto 20 with keeps. Qed.

(** * Session set-up *)

Lemma read_server_randoms_length b s1 s2 : read_server_randoms b = Ok (Some (s1, s2)) →
  length s1 = 32%nat ∧ length s2 = 32%nat.
Proof using Type.
  unfold read_server_randoms. case_cmp; [done|]. destruct (Reader.u32 _) as [v r]. destruct (Reader.u8 r) as [m r'].
  case_decide; [|done]. destruct (Reader.take r' KEY_SOURCE_SERVER_LEN) as [[rest r'']|] eqn:E; [|done].
  intros [= <- <-]. unfold Reader.take in E. case_match; [done|]. simplify_eq.
  unfold KEY_SOURCE_SERVER_LEN in *. rewrite !length_take, !length_drop, !length_take, !length_drop.
  apply Nat.ltb_ge in H1. lia.
Qed.

Lemma exchange_loop_randoms fuel (dl : Z) buffer c s1 s2 c' :
  exchange_loop fuel dl buffer c = (Ok (s1, s2), c') → length s1 = 32%nat ∧ length s2 = 32%nat.
Proof using Type.
  revert buffer c. induction fuel as [|fuel IH]; intros buffer c; cbn [exchange_loop]; [done|].
  intros H. apply se_bind_ok in H as (t & c0 & _ & H). cbv zeta in H. case_match; [done|].
  apply se_bind_ok in H as ([] & c1 & _ & H). apply se_bind_ok in H as (chunk & c2 & _ & H).
  apply se_bind_ok in H as (r & c3 & Hr & H). injection Hr as Hr _.
  destruct r as [[x1 x2]|]; [|by eapply IH]. injection H as -> -> _. by eapply read_server_randoms_length.
Qed.

(** What a successful connection has established. *)
Lemma connect_to_session p dr start n c :
  connect_to p dr start n = Ok c →
  session_id c = d_session_id dr ∧ cipher c = OvpnConfig.cipher p ∧ auth c = OvpnConfig.auth p ∧ keys c = None ∧
  peer_id c = NONE ∧ send_counter c = 0 ∧ replay c = Replay.new ∧
  ∃ sd, seed c = Some sd ∧ pre_master sd = d_pre_master dr ∧ client_random1 sd = d_random1 dr ∧
    client_random2 sd = d_random2 dr ∧ client_sid sd = session_id c ∧ server_sid sd = remote_session_id c ∧
    length (server_random1 sd) = 32%nat ∧ length (server_random2 sd) = 32%nat.
Proof using Type.
  unfold connect_to. destruct (net_send _ n) as [[[]|e| |] n1]; try done.
  destruct (await_reset _ n1) as [[[remote id]|e| |] n2]; try done. destruct start as [m|e| |]; try done.
  set (c0 := new_control n2 m (d_session_id dr) remote id p).
  destruct ((drive_tls HANDSHAKE_TIMEOUT;; _) c0) as [[[]|e| |] c2] eqn:E; try done. intros [= <-].
  apply se_bind_ok in E as ([] & c1 & E1 & E2). pose proof (keeps_drive HANDSHAKE_TIMEOUT c0) as [K1 K2 K3 K4 K5 K6 K7 K8 K9].
  rewrite E1 in *. simpl in *. unfold exchange_keys in E2.
  apply se_bind_ok in E2 as (msg & c3 & Em & E2). injection Em as _ <-.
  apply se_bind_ok in E2 as ([] & c4 & E4 & E2). pose proof (keeps_on_tls (TlsChannel.write msg) c1) as G1. rewrite E4 in G1.
  apply se_bind_ok in E2 as (pend & c5 & E5 & E2). pose proof (keeps_outbound c4) as G2. rewrite E5 in G2.
  apply se_bind_ok in E2 as ([] & c6 & E6 & E2). pose proof (keeps_chunks pend c5) as G3. rewrite E6 in G3.
  apply se_bind_ok in E2 as (cc & c7 & E7 & E2). injection E7 as <- <-.
  apply se_bind_ok in E2 as (t & c7 & E7 & E2). injection E7 as _ <-.
  apply se_bind_ok in E2 as ([s1 s2] & c8 & E8 & E2). injection E2 as <-.
  pose proof (exchange_loop_randoms _ _ _ _ _ _ _ E8) as [Hs1 Hs2].
  pose proof (keeps_exchange (S (backlog (transport c6))) (t + HANDSHAKE_TIMEOUT) [] c6) as G4. rewrite E8 in G4.
  simpl in G1, G2, G3, G4.
  assert (same_session c1 c8) as [Z1 Z2 Z3 Z4 Z5 Z6 Z7 Z8 Z9]
    by (etransitivity; [exact G1|]; etransitivity; [exact G2|]; etransitivity; [exact G3|exact G4]).
  simpl. split_and!; try congruence. eexists. split; [reflexivity|]. simpl. split_and!; done.
Qed.

Context (md5_length : ∀ k x, length (hmac_md5 k x) = 16%nat).
Context (sha1_length : ∀ k x, length (hmac_sha1 k x) = 20%nat).

(** The data keys of a session. *)
Definition keys_ok c : Prop :=
  ∃ ks, keys c = Some ks ∧ wf (enc ks) ∧ wf (dec ks) ∧
    dc_cipher (enc ks) = cipher c ∧ dc_cipher (dec ks) = cipher c ∧
    dc_auth (enc ks) = auth c ∧ dc_auth (dec ks) = auth c.

Lemma new_cases ci au k m : (Cipher.key_len ci <= length k)%nat → (Auth.size au <= length m)%nat →
  ∃ dc, DataCipher.new ci au k m = Ok dc ∧ wf dc ∧ dc_cipher dc = ci ∧ dc_auth dc = au.
Proof using Type.
  intros Hk Hm. unfold new. case_cmp; [lia|]. rewrite (proj2 (Nat.ltb_ge _ _) Hm), andb_false_r.
  destruct au; simpl; (eexists; split; [reflexivity|]; split; [split; simpl|done]); try done; rewrite length_take; lia.
Qed.

Lemma install_keys_ok sd c : seed c = Some sd →
  ∃ c', install_keys hmac_md5 hmac_sha1 c = (Ok (), c') ∧ keys_ok c' ∧ seed c' = None ∧
    cipher c' = cipher c ∧ auth c' = auth c ∧ peer_id c' = peer_id c ∧ send_counter c' = send_counter c ∧
    replay c' = replay c ∧ transport c' = transport c ∧
    ∃ ks e, keys c' = Some ks ∧ e = expansion hmac_md5 hmac_sha1 sd ∧
      dc_key (enc ks) = take (Cipher.key_len (cipher c)) e ∧
      dc_key (dec ks) = take (Cipher.key_len (cipher c)) (drop 128 e).
Proof using md5_length sha1_length.
  intros Hs. unfold install_keys, mbind, se_bind, get_st, modify_st, lift_res. rewrite Hs. cbn [ok_or].
  pose proof (expansion_length hmac_md5 hmac_sha1 md5_length sha1_length sd) as Hlen.
  pose proof (derive_ok hmac_md5 hmac_sha1 md5_length sha1_length sd (cipher c) (auth c)) as Hd. rewrite Hd.
  cbn [Keys.encrypt Keys.decrypt mac_encrypt mac_decrypt].
  set (x := expansion hmac_md5 hmac_sha1 sd) in *. unfold KEY2_LEN, KEY_LEN in Hlen.
  assert (Cipher.key_len (cipher c) <= 32)%nat as Hkl by (destruct (cipher c); simpl; lia).
  assert (Auth.size (auth c) <= 64)%nat as Hal by (destruct (auth c); simpl; lia).
  destruct (new_cases (cipher c) (auth c) (take (Cipher.key_len (cipher c)) x) (take (Auth.size (auth c)) (drop 64 x)))
    as (e & He & We & Ce & Ae); [rewrite ?length_take, ?length_drop; lia..|].
  destruct (new_cases (cipher c) (auth c) (take (Cipher.key_len (cipher c)) (drop 128 x)) (take (Auth.size (auth c)) (drop 192 x)))
    as (d & Hdd & Wd & Cd & Ad); [rewrite ?length_take, ?length_drop; lia..|].
  assert (∀ k m dc, DataCipher.new (cipher c) (auth c) k m = Ok dc → dc_key dc = take (Cipher.key_len (cipher c)) k) as Hkey.
  { intros k m dc. unfold new. destruct (_ <? _)%nat; [done|]. destruct (_ && _); [done|].
    destruct (digest (auth c)); simpl; [|done]. by intros [= <-]. }
  change (cipher (set_seed None c)) with (cipher c).
  rewrite He, Hdd. eexists. split; [reflexivity|]. split; [exists (mkDataKeys e d); done|]. do 7 (split; [done|]).
  exists (mkDataKeys e d), x. split_and!; [done|done| |]; simpl.
  - rewrite (Hkey _ _ _ He), take_take. by rewrite Nat.min_id.
  - rewrite (Hkey _ _ _ Hdd), take_take. by rewrite Nat.min_id.
Qed.


(** * The data channel *)

Context {CL : CryptoLaws L}.

(** One datagram of data: [send_data] of the plaintext [p] under the counter [id]. *)
Record data_packet (dc : DataCipher) (id : Z) (p raw : list byte) : Prop := {
  dp_size : (length raw <= 2048)%nat;
  dp_parse : ∃ q, parse raw = Ok (Some q) ∧ (opcode q = P_DATA_V1 ∨ opcode q = P_DATA_V2) ∧
               DataCipher.decrypt dc (header q) (payload q) = Ok (id, p)
}.

(** The i-th packet sent from a state on: header, packet id and sealed body. *)
Definition data_id c (i : nat) : Z := send_counter c + 1 + Z.of_nat i.
Definition data_head c (i : nat) : list byte := data_header (cipher c) 0 (peer_id c) ++ be32 (data_id c i).
Definition framed c (i : nat) (body : list byte) : list byte := data_head c i ++ body.

Definition sealed dc c (i : nat) (x : list byte * list byte) (body : list byte) : Prop :=
  DataCipher.encrypt dc x.1 (data_head c i) (data_id c i) x.2 = Ok body ∧
  DataCipher.decrypt dc (data_head c i) body = Ok (data_id c i, x.2).

Lemma sealed_packet dc c i x body : sealed dc c i x body → (length (framed c i body) <= 2048)%nat →
  data_packet dc (data_id c i) x.2 (framed c i body).
Proof using Type.
  intros [_ Hd] Hlen. split; [exact Hlen|]. unfold framed, data_head. rewrite <- app_assoc, parse_data_packet.
  eexists. split; [reflexivity|]. split; [destruct (Cipher.is_aead (cipher c)); simpl; tauto|exact Hd].
Qed.

(** The state after the packets [raws] were sent. *)
Definition after_sending (raws : list (list byte)) c : Control (T:=T) :=
  set_transport (put_all raws (transport c)) (set_send_counter (send_counter c + Z.of_nat (length raws)) c).

(** What sending needs: matching keys, a working UDP socket. *)
Record can_send ks c : Prop := {
  cs_keys : keys c = Some ks;
  cs_wf : wf (enc ks);
  cs_cipher : dc_cipher (enc ks) = cipher c;
  cs_udp : kind (transport c) = Udp;
  cs_link : link_error (transport c) = None;
  cs_counter : 0 <= send_counter c
}.
(** A payload with its random IV. *)
Definition sendable (x : list byte * list byte) : Prop := length x.1 = 16%nat ∧ Z.of_nat (length x.2) < 2 ^ 36 - 32.

Lemma send_data_ok ks x c : can_send ks c → sendable x → send_counter c + 1 < 2 ^ 32 →
  ∃ body, send_data x.1 x.2 c = (Ok (), after_sending [framed c 0 body] c) ∧ sealed (enc ks) c 0 x body.
Proof using CL.
  intros [Hk Hwf Hci Hu Hl H0] [Hiv Hp] Hw.
  assert (data_id c 0 = send_counter c + 1) as Hid by (unfold data_id; lia).
  destruct (data_cipher_ok (enc ks) x.1 (data_header (cipher c) 0 (peer_id c)) (send_counter c + 1) x.2)
    as (body & He & Hd); [done|done|unfold is_u32; lia|done|].
  exists body. unfold sealed, framed, data_head. rewrite Hid. split; [|by split].
  unfold send_data, mbind, se_bind, get_st, modify_st, lift_res.
  cbn [cipher send_counter peer_id keys set_send_counter]. rewrite Hk. cbn [ok_or].
  rewrite wadd32_small by lia. rewrite He. unfold send_raw, on_net.
  assert (∀ bs, net_send bs (transport (set_send_counter (send_counter c + 1) c)) = (Ok (), put_all [bs] (transport c))) as ->.
  { intros bs. unfold net_send, put_all. simpl. by rewrite Hu, Hl. }
  reflexivity.
Qed.

(** Sending a run of payloads. *)
Definition send_all (ps : list (list byte * list byte)) : SE (Control (T:=T)) Error () :=
  fold_m (fun _ x => send_data x.1 x.2) () ps.

Lemma send_all_ok ks ps c : can_send ks c → Forall sendable ps → send_counter c + Z.of_nat (length ps) < 2 ^ 32 →
  ∃ bodies, send_all ps c = (Ok (), after_sending (imap (framed c) bodies) c) ∧
    Forall2 (fun ix body => sealed (enc ks) c ix.1 ix.2 body) (imap pair ps) bodies.
Proof using CL.
  unfold send_all. intros Hc Hf. revert c Hc. induction Hf as [|x ps Hx Hf IH]; intros c Hc Hw.
  - exists []. split; [|constructor]. simpl. unfold after_sending, put_all. simpl. rewrite Z.add_0_r, app_nil_r.
    by destruct c as [[]].
  - cbn [length] in Hw. destruct (send_data_ok ks x c) as (body & Hs & Hsl); [done|done|lia|].
    set (c1 := after_sending _ c) in Hs.
    assert (can_send ks c1) as Hc1 by (destruct Hc; split; try done; simpl; lia).
    destruct (IH c1) as (bodies & Hr & Hall); [done|simpl; lia|].
    assert (∀ i, data_id c1 i = data_id c (S i)) as Hid by (intros i; unfold data_id; simpl; lia).
    assert (∀ i b, framed c1 i b = framed c (S i) b) as Hfr by (intros i b; unfold framed, data_head; by rewrite Hid).
    exists (body :: bodies). split.
    + cbn [fold_m]. unfold mbind, se_bind. rewrite Hs, Hr. f_equal. apply control_ext; try done.
      * change (put_all (imap (framed c1) bodies) (put_all [framed c 0 body] (transport c))
                = put_all (imap (framed c) (body :: bodies)) (transport c)).
        rewrite put_all_app. f_equal. cbn [app imap]. f_equal. apply imap_ext. intros i b _. apply Hfr.
      * simpl. rewrite !length_imap. lia.
    + cbn [imap]. constructor; [done|]. change (imap (pair ∘ S) ps) with (imap (fun i x => (S i, x)) ps).
      replace (imap (fun i x => (S i, x)) ps) with ((fun ix => (S ix.1, ix.2)) <$> imap pair ps)
        by (rewrite fmap_imap; done).
      apply Forall2_fmap_l. eapply Forall2_impl; [exact Hall|]. intros [i y] b. unfold sealed, data_head. simpl.
      by rewrite Hid.
Qed.

(** A datagram on its way: when it arrives, and what it carries. *)
Record datagram := mkDatagram { dg_time : Z; dg_id : Z; dg_payload : list byte; dg_raw : list byte }.
Definition arrivals (ds : list datagram) : list (Z * arrival) := (fun g => (dg_time g, Bytes (dg_raw g))) <$> ds.

(** The receiver with those datagrams queued and the replay window [w]. *)
Definition receiver (ds : list datagram) (w : ReplayWindow) (t : Z) d : Control (T:=T) :=
  set_transport (mkNet (kind (transport d)) t (arrivals ds) (rx (transport d)) (sent (transport d)) (link_error (transport d)))
    (set_replay w d).

Fixpoint first_fresh (w : ReplayWindow) (ds : list datagram) : option (list byte) * ReplayWindow * list datagram :=
  match ds with
  | [] => (None, w, [])
  | g :: ds => let '(w, ok) := accept w (dg_id g) in
               if ok then (Some (dg_payload g), w, ds) else first_fresh w ds
  end.

Lemma recv_data_loop_spec kd fuel (dl t : Z) w ds d :
  keys d = Some kd → kind (transport d) = Udp → (length ds < fuel)%nat → t < dl →
  Forall (fun g => dg_time g <= t ∧ data_packet (dec kd) (dg_id g) (dg_payload g) (dg_raw g)) ds →
  recv_data_loop fuel dl (receiver ds w t d) =
  match first_fresh w ds with
  | (Some p, w', ds') => (Ok (Some p), receiver ds' w' t d)
  | (None, w', _) => (Ok None, receiver [] w' dl d)
  end.
Proof using Type.
  intros Hk Hu. revert fuel w. induction ds as [|g ds IH]; intros [|fuel] w Hf Ht Hall; try (simpl in Hf; lia);
    cbn [recv_data_loop]; rewrite (se_bind_eq get_now _ _ _ _ eq_refl); cbv zeta;
    change (now (transport (receiver ?x w t d))) with t; (destruct (Z.eqb_spec (Z.max 0 (dl - t)) 0); [lia|]).
  - unfold recv_packet, mbind, se_bind, on_net, recv_raw, receiver, first_fresh. simpl. rewrite Hu. simpl.
    replace (t + Z.max 0 (dl - t)) with dl by lia. done.
  - apply Forall_cons in Hall as [[Hg [Hsz (q & Hq & Hop & Hdec)]] Hall]. cbn [first_fresh].
    assert (recv_packet (Z.max 0 (dl - t)) (receiver (g :: ds) w t d) = (Ok (Some q), receiver ds w t d)) as Hrecv.
    { unfold recv_packet, mbind, se_bind, on_net, recv_raw, receiver. simpl. rewrite Hu. simpl.
      rewrite (proj2 (Z.leb_le _ _)) by lia. rewrite take_ge by done. unfold lift_res. rewrite Hq.
      replace (Z.max t (dg_time g)) with t by lia. done. }
    rewrite (se_bind_eq _ _ _ _ _ Hrecv). cbv beta iota.
    assert ((opcode q =? P_DATA_V1) || (opcode q =? P_DATA_V2) = true) as -> by (destruct Hop as [->| ->]; done).
    rewrite (se_bind_eq get_st _ _ _ _ eq_refl). change (keys (receiver ds w t d)) with (keys d). rewrite Hk.
    unfold lift_res at 1. rewrite Hdec. rewrite (se_bind_eq (fun c => (Ok (dg_id g, dg_payload g), c)) _ _ _ _ eq_refl).
    change (replay (receiver ds w t d)) with w. destruct (accept w (dg_id g)) as [w' ok].
    rewrite (se_bind_eq (modify_st (set_replay w')) _ (receiver ds w t d) () (receiver ds w' t d) eq_refl).
    destruct ok; simpl negb; cbv iota; [done|]. apply IH; [simpl in Hf; lia|done|done].
Qed.

(** Calling [recv_data] until it times out. *)
Fixpoint recv_all (k : nat) (timeout : Z) : SE (Control (T:=T)) Error (list (list byte)) :=
  match k with
  | O => mret []
  | S k => p ← recv_data timeout;
           match p with
           | None => mret []
           | Some p => ps ← recv_all k timeout; mret (p :: ps)
           end
  end.

(** The datagrams the window lets through. *)
Fixpoint fresh (w : ReplayWindow) (ds : list datagram) : list datagram :=
  match ds with
  | [] => []
  | g :: ds => let '(w, ok) := accept w (dg_id g) in if ok then g :: fresh w ds else fresh w ds
  end.

Lemma first_fresh_spec w ds :
  match first_fresh w ds with
  | (Some p, w', ds') => ∃ g, fresh w ds = g :: fresh w' ds' ∧ dg_payload g = p ∧ (length ds' < length ds)%nat ∧
                              (∀ P, Forall P ds → Forall P ds')
  | (None, _, _) => fresh w ds = []
  end.
Proof using Type.
  revert w. induction ds as [|g ds IH]; intros w; simpl; [done|].
  destruct (accept w (dg_id g)) as [w' [|]].
  - exists g. split; [done|]. split; [done|]. split; [lia|]. intros P H. by apply Forall_cons in H as [_ ?].
  - specialize (IH w'). destruct (first_fresh w' ds) as [[[p|] w''] ds']; [|done].
    destruct IH as (g' & H1 & H2 & H3 & H4). exists g'. split_and!; try done; [simpl; lia|].
    intros P H. apply Forall_cons in H as [_ H]. by apply H4.
Qed.

Lemma fresh_run w ds : fresh w ds = (filter (fun p => p.2 = true) (zip ds (run w (dg_id <$> ds)))).*1.
Proof using Type.
  revert w. induction ds as [|g ds IH]; intros w; [done|]. simpl. destruct (accept w (dg_id g)) as [w' [|]]; cbv beta iota zeta;
    [rewrite filter_cons_True by done; cbn [fmap list_fmap fst]; f_equal|rewrite filter_cons_False by done]; apply IH.
Qed.

Lemma arrivals_backlog ds : (length ds <= sum_list (arrival_size <$> arrivals ds))%nat.
Proof using Type.
  unfold arrivals. induction ds as [|g ds IH]; [done|]. rewrite !fmap_cons.
  change (S (length ds) <= S (length (dg_raw g)) + sum_list (arrival_size <$> ((fun g => (dg_time g, Bytes (dg_raw g))) <$> ds)))%nat.
  lia.
Qed.

Lemma recv_all_spec kd k timeout t w ds d :
  keys d = Some kd → kind (transport d) = Udp → (length ds < k)%nat → 0 < timeout →
  Forall (fun g => dg_time g <= t ∧ data_packet (dec kd) (dg_id g) (dg_payload g) (dg_raw g)) ds →
  ∃ d', recv_all k timeout (receiver ds w t d) = (Ok (dg_payload <$> fresh w ds), d').
Proof using Type.
  intros Hk Hu. revert w ds. induction k as [|k IH]; intros w ds Hlen Ht Hall; [lia|]. cbn [recv_all].
  assert (recv_data timeout (receiver ds w t d) = match first_fresh w ds with
    | (Some p, w', ds') => (Ok (Some p), receiver ds' w' t d)
    | (None, w', _) => (Ok None, receiver [] w' (t + timeout) d) end) as Hr.
  { unfold recv_data. rewrite (se_bind_eq get_st _ _ _ _ eq_refl), (se_bind_eq get_now _ _ _ _ eq_refl).
    change (now (transport (receiver ds w t d))) with t. apply (recv_data_loop_spec kd); try done; [|lia].
    assert (length ds <= backlog (transport (receiver ds w t d)))%nat; [|lia].
unfold backlog. simpl. pose proof (arrivals_backlog ds). lia. }
  pose proof (first_fresh_spec w ds) as Hff. destruct (first_fresh w ds) as [[[p|] w'] ds'].
  - destruct Hff as (g & Hg & Hp & Hl & Hsub). rewrite (se_bind_eq _ _ _ _ _ Hr). cbv beta iota.
    destruct (IH w' ds') as [d' Hd']; [lia|done|by apply Hsub|].
    exists d'. rewrite (se_bind_eq _ _ _ _ _ Hd'), Hg. by subst p.
  - rewrite (se_bind_eq _ _ _ _ _ Hr), Hff. eauto.
Qed.

(** The datagrams the network delivers: which of the sent ones arrives, and when. *)
Definition delivered (c : Control (T:=T)) (ps raws : list (list byte)) (picks : list (Z * nat)) : list datagram :=
  (fun p => mkDatagram p.1 (data_id c p.2) (ps !!! p.2) (raws !!! p.2)) <$> picks.

Lemma delivered_ids c ps raws picks : dg_id <$> delivered c ps raws picks = data_id c <$> picks.*2.
Proof using Type. unfold delivered. rewrite <- !list_fmap_compose. done. Qed.

(** A run of delivered datagrams, by the indices of what they carry. *)
Lemma picked_indices c ps raws picks ds : sublist ds (delivered c ps raws picks) →
  ∃ got, dg_id <$> ds = data_id c <$> got ∧ dg_payload <$> ds = (fun i => ps !!! i) <$> got ∧ sublist got picks.*2.
Proof using Type.
  unfold delivered. intros H. apply sublist_fmap_inv in H as (ks & -> & Hks).
  exists ks.*2. rewrite <- !list_fmap_compose. split; [done|]. split; [done|]. by apply fmap_sublist.
Qed.

Lemma picked_packet dc c ps bodies (i : nat) :
  Forall2 (fun ix body => sealed dc c ix.1 ix.2 body) (imap pair ps) bodies → (i < length ps)%nat →
  (length (imap (framed c) bodies !!! i) <= 2048)%nat →
  data_packet dc (data_id c i) (ps.*2 !!! i) (imap (framed c) bodies !!! i).
Proof using Type.
  intros Hall Hi. destruct (lookup_lt_is_Some_2 ps i Hi) as [x Hx].
  destruct (Forall2_lookup_l _ _ _ i (i, x) Hall) as (body & Hb & Hsl); [by rewrite list_lookup_imap, Hx|].
  rewrite (list_lookup_total_correct ps.*2 i x.2) by (by rewrite list_lookup_fmap, Hx).
  rewrite (list_lookup_total_correct (imap _ _) i (framed c i body)) by (by rewrite list_lookup_imap, Hb).
  by apply sealed_packet.
Qed.

Lemma fresh_spec w hist ds : represents w hist → Forall (fun g => is_u32 (dg_id g)) ds →
  dg_id <$> fresh w ds = accepted (dg_id <$> ds) (spec_run hist (dg_id <$> ds)) ∧ sublist (fresh w ds) ds.
Proof using Type.
  intros Hrep Hids. split.
  - rewrite <- (run_refines_from w) by (done || by apply Forall_fmap). clear. revert w.
    induction ds as [|g ds IH]; intros w; [done|]. cbn [fresh]. rewrite fmap_cons. cbn [run].
    destruct (accept w (dg_id g)) as [w' ok]. unfold accepted in *. simpl zip.
    destruct ok; [rewrite filter_cons_True by done|rewrite filter_cons_False by done]; cbn [fmap list_fmap fst];
      [f_equal|]; apply IH.
  - clear. revert w. induction ds as [|g ds IH]; intros w; simpl; [done|].
    destruct (accept w (dg_id g)) as [w' [|]]; [by apply sublist_skip|by apply sublist_cons].
Qed.

(** C2: End-to-end data delivery over UDP. One side sends payloads; the network may lose,
    duplicate and reorder the datagrams at will. The other side, whose keys match, receives exactly
    a subsequence of what arrives, every payload at most once, each intact; and a packet that is
    less than 64 behind every other arriving one is never dropped by the replay window. *)
Theorem data_delivery ks ps c :
  can_send ks c → Forall sendable ps → send_counter c + Z.of_nat (length ps) < 2 ^ 32 →
  ∃ raws c', send_all ps c = (Ok (), c') ∧ length raws = length ps ∧
    sent (transport c') = sent (transport c) ++ raws ∧
    ∀ d kd picks timeout,
      keys d = Some kd → dec kd = enc ks → replay d = Replay.new → kind (transport d) = Udp →
      incoming (transport d) = (fun p => (p.1, Bytes (raws !!! p.2))) <$> picks →
      Forall (fun p => p.1 <= now (transport d) ∧ (p.2 < length ps)%nat ∧ (length (raws !!! p.2) <= 2048)%nat) picks →
      0 < timeout →
      ∃ got d', recv_all (S (length picks)) timeout d = (Ok ((fun i : nat => (ps !!! i).2) <$> got), d') ∧
        NoDup got ∧ sublist got picks.*2 ∧
        (∀ i, i ∈ picks.*2 → Forall (fun j => j < i + 64)%nat picks.*2 → i ∈ got).
Proof using CL.
  intros Hc Hf Hw. destruct (send_all_ok ks ps c) as (bodies & Hs & Hall2); try done.
  set (raws := imap (framed c) bodies) in *.
  assert (length raws = length ps) as Hlen.
  { unfold raws. rewrite length_imap. apply Forall2_length in Hall2. by rewrite length_imap in Hall2. }
  exists raws, (after_sending raws c). split; [done|]. split; [done|]. split.
  { simpl. rewrite (cs_udp _ _ Hc). by rewrite list_fmap_id. }
  intros d kd picks timeout Hkd Hdk Hrep Hud Hin Hpicks Ht.
  pose proof (cs_counter _ _ Hc) as H0.
  set (ds := delivered c ps.*2 raws picks). set (f := data_id c).
  assert (receiver ds Replay.new (now (transport d)) d = d) as Hd.
  { unfold receiver, ds, delivered, arrivals. rewrite <- list_fmap_compose, <- Hrep.
    replace (_ <$> picks) with (incoming (transport d)) by (rewrite Hin; reflexivity). by destruct d as [[]]. }
  assert (Forall (fun g => dg_time g <= now (transport d) ∧ data_packet (dec kd) (dg_id g) (dg_payload g) (dg_raw g)) ds) as Hall.
  { apply Forall_fmap. eapply Forall_impl; [exact Hpicks|]. intros [t i] (Hti & Hi & Hsz). simpl in *. split; [done|].
    rewrite Hdk. by apply (picked_packet (enc ks) c ps bodies). }
  destruct (recv_all_spec kd (S (length picks)) timeout (now (transport d)) Replay.new ds d) as [d' Hr]; try done.
  { unfold ds, delivered. rewrite length_fmap. lia. }
  rewrite Hd in Hr.
  destruct (fresh_spec Replay.new [] ds) as [Hids Hsub]; [apply represents_new| |].
  { unfold ds, delivered. apply Forall_fmap. eapply Forall_impl; [exact Hpicks|]. intros [t i] (_ & Hi & _).
    unfold is_u32, data_id. simpl in *. lia. }
  unfold ds in Hids at 2 3. rewrite delivered_ids in Hids. fold f in Hids.
  destruct (picked_indices c ps.*2 raws picks (fresh Replay.new ds) Hsub) as (got & Hfg & Hpay & Hgsub).
  exists got, d'. split; [|split; [|split]].
  - rewrite Hr, Hpay. do 2 f_equal. apply list_fmap_ext. intros k i Hk.
    assert (i < length ps)%nat as Hlt.
    { assert (i ∈ picks.*2) as Hip by (apply (sublist_subseteq _ _ Hgsub), list_elem_of_lookup; eauto).
      apply list_elem_of_fmap in Hip as ([t i'] & -> & Hpi). rewrite Forall_forall in Hpicks. by destruct (Hpicks _ Hpi) as (_ & ? & _). }
    destruct (lookup_lt_is_Some_2 ps i Hlt) as [x Hx].
    rewrite (list_lookup_total_correct _ _ _ Hx). apply list_lookup_total_correct. by rewrite list_lookup_fmap, Hx.
  - apply (NoDup_fmap_1 f). fold f in Hfg. rewrite <- Hfg, Hids. apply spec_run_nodup.
  - done.
  - intros i Hi Hnear. destruct (spec_run_complete [] (f <$> picks.*2) (f i)) as [Hn|Hacc].
    + unfold f, data_id. lia.
    + apply list_elem_of_fmap. eauto.
    + apply Forall_fmap. eapply Forall_impl; [exact Hnear|]. intros j Hj. cbv beta in Hj. unfold compose, f, data_id. lia.
    + simpl. unfold f, data_id. lia.
    + by apply elem_of_nil in Hn.
    + fold f in Hfg. rewrite <- Hids, Hfg in Hacc. apply list_elem_of_fmap in Hacc as (j & Hj & Hjg). unfold f, data_id in Hj.
      by replace i with j by lia.
Qed.

(** C36: Nonces. Until the 32-bit packet counter wraps, the packets of a session carry consecutive
    packet ids starting after the counter, each sealed under its own id, so no two of them share a
    GCM nonce. *)
Theorem nonces_unique ks ps c :
  can_send ks c → Forall sendable ps → send_counter c + Z.of_nat (length ps) < 2 ^ 32 →
  ∃ bodies c', send_all ps c = (Ok (), c') ∧ length bodies = length ps ∧
    sent (transport c') = sent (transport c) ++ imap (framed c) bodies ∧
    send_counter c' = send_counter c + Z.of_nat (length ps) ∧
    (∀ i x body, ps !! i = Some x → bodies !! i = Some body →
       DataCipher.encrypt (enc ks) x.1 (data_head c i) (data_id c i) x.2 = Ok body) ∧
    NoDup ((fun i => aead_nonce (dc_implicit_iv (enc ks)) (data_id c i)) <$> seq 0 (length ps)).
Proof using CL.
  intros Hc Hf Hw. destruct (send_all_ok ks ps c) as (bodies & Hs & Hall); try done.
  pose proof (Forall2_length _ _ _ Hall) as Hlen. rewrite length_imap in Hlen.
  exists bodies, (after_sending (imap (framed c) bodies) c). split_and!; try done.
  - simpl. rewrite (cs_udp _ _ Hc). by rewrite list_fmap_id.
  - simpl. rewrite length_imap. lia.
  - intros i x body Hx Hb. destruct (Forall2_lookup_lr _ _ _ i (i, x) body Hall) as [He _]; [|done|done].
    by rewrite list_lookup_imap, Hx.
  - apply NoDup_fmap_2_strong; [|apply NoDup_seq]. pose proof (cs_counter _ _ Hc).
    intros i j Hi%elem_of_seq Hj%elem_of_seq Heq. apply aead_nonce_inj in Heq; unfold is_u32, data_id in *; lia.
Qed.
End Data.

(** * A concrete session *)

Definition toy_reply : str := Lit "PUSH_REPLY,peer-id 7,cipher AES-256-GCM".


Definition toy_gcm : DataCipher := mkDataCipher Aes128Gcm Sha1 md_sha1 (replicate 16 x01) [] (replicate 8 x05).
Definition toy_sender : Control (T:=toy_tls) := set_keys (Some (mkDataKeys toy_gcm toy_gcm)) toy_control.
Definition toy_data : list (list byte * list byte) :=
  (fun s => (replicate 16 x00, s)) <$> [Lit "one"; Lit "two"; Lit "three"].
Definition toy_raws : list (list byte) := sent (transport (send_all (L:=toy_crypto) toy_data toy_sender).2).
(** The second datagram is lost, the third comes first and twice. *)
Definition toy_picks : list (Z * nat) := [(0, 2%nat); (0, 0%nat); (0, 2%nat)].
Definition toy_receiver : Control (T:=toy_tls) :=
  set_transport (mkNet Udp 0 ((fun p => (p.1, Bytes (toy_raws !!! p.2))) <$> toy_picks) (mkStream [] false) [] None) toy_sender.

Lemma toy_can_send : can_send (mkDataKeys toy_gcm toy_gcm) toy_sender.
Proof. by repeat split. Qed.
Lemma toy_sendable : Forall sendable toy_data.
Proof. repeat constructor. Qed.

Lemma data_delivery_witness :
  ∃ got d', recv_all (L:=toy_crypto) 4 1000 toy_receiver = (Ok ((fun i : nat => (toy_data !!! i).2) <$> got), d') ∧
    NoDup got ∧ (0%nat ∈ got).
Proof.
  destruct (data_delivery (L:=toy_crypto) (mkDataKeys toy_gcm toy_gcm) toy_data toy_sender toy_can_send toy_sendable)
    as (raws & c' & H1 & H2 & H3 & H4); [vm_compute; reflexivity|].
  assert (raws = toy_raws) as ->.
  { unfold toy_raws. rewrite H1. cbn [snd]. rewrite H3. reflexivity. }
  destruct (H4 toy_receiver (mkDataKeys toy_gcm toy_gcm) toy_picks 1000) as (got & d' & G1 & G2 & _ & G4);
    [reflexivity|reflexivity|reflexivity|reflexivity|reflexivity| |reflexivity|].
  { repeat (apply Forall_cons; split; [split; [vm_compute; congruence|split; vm_compute; lia]|]). constructor. }
  exists got, d'. split; [exact G1|]. split; [exact G2|]. apply G4.
  - apply (bool_decide_eq_true_1 _). vm_compute. reflexivity.
  - repeat constructor; simpl; lia.
Defined.

Example delivery_example : (recv_all (L:=toy_crypto) 4 1000 toy_receiver).1 = Ok [Lit "three"; Lit "one"].
Proof. vm_compute. reflexivity. Qed.

Lemma nonces_unique_witness :
  ∃ (bodies : list (list byte)) c', send_all (L:=toy_crypto) toy_data toy_sender = (Ok (), c') ∧ length bodies = 3%nat ∧ send_counter c' = 3.
Proof.
  destruct (nonces_unique (L:=toy_crypto) (mkDataKeys toy_gcm toy_gcm) toy_data toy_sender toy_can_send toy_sendable)
    as (bodies & c' & H1 & H2 & _ & H3 & _); [vm_compute; reflexivity|].
  exists bodies, c'. split; [exact H1|]. split; [exact H2|exact H3].
Defined.
