(* ===== verification/Sorting.v ===== *)
(** Stable sorting ([slice::sort_by_key]), rotation ([slice::rotate_left]) and first-occurrence
    deduplication, as the pools and the account loader use them. *)
From Stdlib Require Import Sorting.Sorted.
From S2P Require Import Prelude.

Section Sorting.
Context {A : Type} (key : A → Z).

Fixpoint insert_sorted (x : A) (l : list A) : list A :=
  match l with
  | [] => [x]
  | y :: l' => if key x <=? key y then x :: l else y :: insert_sorted x l'
  end.

(** [sort_by_key]: stable, so equal keys keep their order. *)
Definition sort_by_key (l : list A) : list A := foldr insert_sorted [] l.

Definition ordered (l : list A) : Prop := ∀ i j x y, (i < j)%nat → l !! i = Some x → l !! j = Some y → key x <= key y.

Lemma insert_sorted_perm x l : insert_sorted x l ≡ₚ x :: l.
Proof.
  induction l as [|y l IH]; [done|]. simpl. case_cmp; [done|]. rewrite IH. apply Permutation_swap.
Qed.

Lemma sort_by_key_perm l : sort_by_key l ≡ₚ l.
Proof. induction l as [|x l IH]; [done|]. simpl. by rewrite insert_sorted_perm, IH. Qed.

Lemma ordered_cons x l : ordered (x :: l) ↔ (∀ y, y ∈ l → key x <= key y) ∧ ordered l.
Proof.
  split.
  - intros H. split.
    + intros y [i Hi]%list_elem_of_lookup. by apply (H 0%nat (S i) x y); [lia| |].
    + intros i j a b Hij Ha Hb. by apply (H (S i) (S j) a b); [lia| |].
  - intros [Hx Hl] [|i] [|j] a b Hij Ha Hb; try lia; simpl in *.
    + simplify_eq. apply Hx. by eapply list_elem_of_lookup_2.
    + apply (Hl i j); [lia|done..].
Qed.

Lemma insert_sorted_ordered x l : ordered l → ordered (insert_sorted x l).
Proof.
  induction l as [|y l IH]; intros Hl.
  - apply ordered_cons. split; [intros y Hy; by apply elem_of_nil in Hy|intros i j a b _ Ha; done].
  - pose proof (proj1 (ordered_cons y l) Hl) as [Hy Hl']. simpl. case_cmp.
    + apply ordered_cons. split; [|done]. intros z [->|Hz]%elem_of_cons; [done|].
      specialize (Hy z Hz). lia.
    + apply ordered_cons. split; [|by apply IH].
      intros z Hz. rewrite (insert_sorted_perm x l) in Hz.
      apply elem_of_cons in Hz as [->|Hz]; [lia|by apply Hy].
Qed.

Lemma sort_by_key_ordered l : ordered (sort_by_key l).
Proof.
  induction l as [|x l IH]; [intros i j a b _ Ha; done|]. by apply insert_sorted_ordered.
Qed.

(** Stability: the elements of one key keep their order. *)
Lemma insert_sorted_stable k x l :
  filter (fun y => key y = k) (insert_sorted x l) = filter (fun y => key y = k) (x :: l).
Proof.
  induction l as [|y l IH]; [done|]. simpl insert_sorted. case_cmp; [done|].
  rewrite !filter_cons, IH, filter_cons.
  destruct (decide (key x = k)), (decide (key y = k)); (done || lia).
Qed.

Lemma sort_by_key_stable k l :
  filter (fun y => key y = k) (sort_by_key l) = filter (fun y => key y = k) l.
Proof.
  induction l as [|x l IH]; [done|]. simpl. rewrite insert_sorted_stable, !filter_cons, IH. done.
Qed.

(** An already sorted list is left alone. *)
Lemma sort_by_key_id l : ordered l → sort_by_key l = l.
Proof.
  induction l as [|x l IH]; [done|]. intros [Hx Hl]%ordered_cons. simpl. rewrite IH by done.
  destruct l as [|y l]; [done|]. simpl. rewrite (proj2 (Z.leb_le _ _)); [done|]. apply Hx. by left.
Qed.

Lemma sort_by_key_length l : length (sort_by_key l) = length l.
Proof. by rewrite sort_by_key_perm. Qed.
End Sorting.

(** * Rotation *)

Definition rotate_left {A} (n : nat) (l : list A) : list A := drop n l ++ take n l.

Lemma rotate_left_perm {A} n (l : list A) : rotate_left n l ≡ₚ l.
Proof. unfold rotate_left. rewrite Permutation_app_comm. by rewrite take_drop. Qed.

Lemma rotate_left_length {A} n (l : list A) : length (rotate_left n l) = length l.
Proof. by rewrite rotate_left_perm. Qed.

Lemma rotate_left_head {A} n (l : list A) : (n < length l)%nat → head (rotate_left n l) = l !! n.
Proof.
  intros H. unfold rotate_left. destruct (lookup_lt_is_Some_2 l n H) as [x Hx].
  by rewrite (drop_S _ _ _ Hx).
Qed.

(** * Keeping the first element of each key *)

Section Dedup.
Context {A K : Type} `{EqDecision K} (key : A → K).

Definition push_new (acc : list A) (x : A) : list A :=
  if decide (key x ∈ key <$> acc) then acc else acc ++ [x].
Definition push_all (acc l : list A) : list A := foldl push_new acc l.

Lemma push_new_keys acc x k : k ∈ key <$> push_new acc x ↔ k ∈ key <$> acc ∨ k = key x.
Proof.
  unfold push_new. case_decide as H; [|rewrite fmap_app; set_solver].
  split; [by left|]. by intros [?| ->].
Qed.

Lemma push_all_keys acc l k : k ∈ key <$> push_all acc l ↔ k ∈ key <$> acc ∨ k ∈ key <$> l.
Proof.
  revert acc. induction l as [|x l IH]; intros acc; [set_solver|].
  change (push_all acc (x :: l)) with (push_all (push_new acc x) l).
  rewrite IH, push_new_keys, fmap_cons, elem_of_cons. tauto.
Qed.

Lemma push_new_nodup acc x : NoDup (key <$> acc) → NoDup (key <$> push_new acc x).
Proof.
  intros H. unfold push_new. case_decide; [done|]. rewrite fmap_app. apply NoDup_app.
  split; [done|]. split; [|apply NoDup_singleton]. intros k Hk [->|Hx]%elem_of_cons; [done|].
  by apply elem_of_nil in Hx.
Qed.

Lemma push_all_nodup acc l : NoDup (key <$> acc) → NoDup (key <$> push_all acc l).
Proof. revert acc. induction l as [|x l IH]; intros acc H; [done|]. by apply IH, push_new_nodup. Qed.

Lemma push_all_elem acc l x : x ∈ push_all acc l → x ∈ acc ∨ x ∈ l.
Proof.
  revert acc. induction l as [|y l IH]; intros acc; [by left|].
  intros [H|H]%IH; [|right; by right]. unfold push_new in H. case_decide; [by left|].
  apply elem_of_app in H as [?|[->|H]%elem_of_cons]; [by left|right; by left|by apply elem_of_nil in H].
Qed.

Lemma push_all_prefix acc l : acc `prefix_of` push_all acc l.
Proof.
  revert acc. induction l as [|y l IH]; intros acc; [done|].
  etrans; [|apply IH]. unfold push_new. case_decide; [done|]. by apply prefix_app_r.
Qed.

Lemma push_all_nodup_id acc l : NoDup (key <$> (acc ++ l)) → push_all acc l = acc ++ l.
Proof.
  revert acc. induction l as [|x l IH]; intros acc H; [by rewrite app_nil_r|].
  change (push_all acc (x :: l)) with (push_all (push_new acc x) l).
  unfold push_new. rewrite decide_False.
  - rewrite IH; [by rewrite <- app_assoc|by rewrite <- app_assoc].
  - rewrite fmap_app in H. apply NoDup_app in H as (_ & H & _). intros Hx. apply (H _ Hx).
    rewrite fmap_cons. by left.
Qed.
End Dedup.

(** * [BTreeMap<String, _>]: an association list in strict byte order of its keys *)

Fixpoint str_ltb (a b : str) : bool :=
  match a, b with
  | _, [] => false
  | [], _ :: _ => true
  | x :: a, y :: b => (b2z x <? b2z y) || (bool_decide (x = y) && str_ltb a b)
  end.

Lemma str_ltb_irrefl a : str_ltb a a = false.
Proof. induction a as [|x a IH]; [done|]. simpl. rewrite Z.ltb_irrefl, IH. by rewrite andb_false_r. Qed.

Lemma str_ltb_trans a b c : str_ltb a b = true → str_ltb b c = true → str_ltb a c = true.
Proof.
  revert b c. induction a as [|x a IH]; intros [|y b] [|z c]; simpl; try done.
  rewrite !orb_true_iff, !andb_true_iff, !Z.ltb_lt, !bool_decide_eq_true.
  intros [?|[-> ?]] [?|[-> ?]]; [left; lia|by left|by left|right; split; [done|by eapply IH]].
Qed.

Lemma str_ltb_total a b : str_ltb a b = false → a ≠ b → str_ltb b a = true.
Proof.
  revert b. induction a as [|x a IH]; intros [|y b]; simpl; try done.
  rewrite !orb_false_iff, orb_true_iff, andb_true_iff, andb_false_iff, Z.ltb_ge, Z.ltb_lt, bool_decide_eq_true,
    bool_decide_eq_false.
  intros [Hle Hor] Hne. destruct (decide (x = y)) as [->|Hxy].
  - right. split; [done|]. apply IH; [by destruct Hor|congruence].
  - left. assert (b2z x ≠ b2z y) by (intros H; apply Hxy; by apply (inj b2z)). lia.
Qed.

Section BTree.
Context {A : Type}.

Fixpoint bt_get (k : str) (m : list (str * A)) : option A :=
  match m with
  | [] => None
  | (k', v) :: m => if decide (k = k') then Some v else bt_get k m
  end.

Fixpoint bt_set (k : str) (v : A) (m : list (str * A)) : list (str * A) :=
  match m with
  | [] => [(k, v)]
  | (k', v') :: m' => if decide (k = k') then (k, v) :: m'
                      else if str_ltb k k' then (k, v) :: m else (k', v') :: bt_set k v m'
  end.

Lemma bt_get_set k v m k' : bt_get k' (bt_set k v m) = if decide (k' = k) then Some v else bt_get k' m.
Proof.
  induction m as [|[k0 v0] m IH]; simpl; [done|].
  destruct (decide (k = k0)) as [<-|Hne]; simpl; [by repeat case_decide|].
  destruct (str_ltb k k0); simpl; [done|]. rewrite IH. repeat case_decide; congruence.
Qed.

Definition bt_sorted (m : list (str * A)) : Prop := StronglySorted (fun a b => str_ltb a.1 b.1 = true) m.

Lemma bt_set_keys k v m x : x ∈ bt_set k v m → x = (k, v) ∨ x ∈ m.
Proof.
  induction m as [|[k0 v0] m IH]; simpl.
  - intros [->|H]%elem_of_cons; [by left|by apply elem_of_nil in H].
  - destruct (decide (k = k0)) as [<-|Hne]; [|destruct (str_ltb k k0)].
    + intros [->|H]%elem_of_cons; [by left|right; by right].
    + intros [->|H]%elem_of_cons; [by left|by right].
    + intros [->|H]%elem_of_cons; [right; by left|]. destruct (IH H); [by left|right; by right].
Qed.

Lemma bt_set_sorted k v m : bt_sorted m → bt_sorted (bt_set k v m).
Proof.
  unfold bt_sorted. induction 1 as [|[k0 v0] m Hm IH Hall]; simpl; [repeat constructor|].
  destruct (decide (k = k0)) as [<-|Hne]; [by constructor|]. destruct (str_ltb k k0) eqn:E.
  - constructor; [by constructor|]. constructor; [done|]. eapply Forall_impl; [exact Hall|].
    intros x Hx. simpl in *. by eapply str_ltb_trans.
  - constructor; [done|]. apply Forall_forall. intros x Hx. apply bt_set_keys in Hx as [->|Hx].
    + simpl. apply str_ltb_total; [done|congruence].
    + rewrite Forall_forall in Hall. by apply Hall.
Qed.

Lemma bt_get_elem k v m : bt_sorted m → bt_get k m = Some v ↔ (k, v) ∈ m.
Proof.
  unfold bt_sorted. induction 1 as [|[k0 v0] m Hm IH Hall]; simpl; [split; [done|intros H; by apply elem_of_nil in H]|].
  rewrite elem_of_cons. case_decide as Hk.
  - subst k0. split; [intros [= ->]; by left|]. intros [[= ->]|Hin]; [done|].
    rewrite Forall_forall in Hall. specialize (Hall _ Hin). simpl in Hall. by rewrite str_ltb_irrefl in Hall.
  - rewrite IH. split; [by right|]. intros [[= -> ->]|?]; done.
Qed.
End BTree.
