(* ===== verification/Pool.v ===== *)
(** proxy/pool.rs: pools of proxies that share children. Pools are shared objects ([Arc]): they
    live in a store and are named by their identity, so a pool pushed to through one handle is
    seen through every parent. *)
From S2P Require Import Prelude Text Sorting.

(** [trait Tunnel], as the pools and the forwarder read it. *)
Class Tunnel (T : Type) := {
  target_pool : T → nat;
  active_tunnels : T → nat;
  is_ready : T → bool;
  generation : T → Z;
  proxy_url : T → option str
}.
(** What the users of a tunnel rely on: a ready tunnel has a connection and a proxy. *)
Class TunnelLaws (T : Type) {TT : Tunnel T} := {
  ready_active t : is_ready t = true → (0 < active_tunnels t)%nat;
  ready_url t : is_ready t = true → is_Some (proxy_url t)
}.
(** An [Arc<dyn Tunnel>] over two kinds of tunnel. *)
#[export] Instance dyn_tunnel {A B : Type} {TA : Tunnel A} {TB : Tunnel B} : Tunnel (A + B) := {|
  target_pool t := match t with inl a => target_pool a | inr b => target_pool b end;
  active_tunnels t := match t with inl a => active_tunnels a | inr b => active_tunnels b end;
  is_ready t := match t with inl a => is_ready a | inr b => is_ready b end;
  generation t := match t with inl a => generation a | inr b => generation b end;
  proxy_url t := match t with inl a => proxy_url a | inr b => proxy_url b end
|}.
#[export] Instance dyn_tunnel_laws {A B : Type} {TA : Tunnel A} {TB : Tunnel B} : TunnelLaws A → TunnelLaws B → TunnelLaws (A + B).
Proof. intros LA LB. split; intros [a|b]; cbn; (apply ready_active || apply ready_url). Qed.

Inductive Protocol := Ssh | Vpn.
#[export] Instance protocol_eq_dec : EqDecision Protocol.
Proof. solve_decision. Defined.

Module Protocol.
Definition parse (value : str) : option Protocol :=
  if eq_ignore_ascii_case value (Lit "ssh") then Some Ssh
  else if eq_ignore_ascii_case value (Lit "vpn") then Some Vpn
  else None.
Definition as_str (p : Protocol) : str := match p with Ssh => Lit "ssh" | Vpn => Lit "vpn" end.
End Protocol.

Section Pool.
Context {T : Type} {TT : Tunnel T}.

Record PoolProxy := mkProxy { pp_key : str; pp_tunnel : T; pp_priority : nat; pp_protocol : Protocol }.

Record Candidate := mkCandidate { key : str; tunnel : T; priority : nat; protocol : Protocol }.

Definition candidate_ready (c : Candidate) : bool := is_ready (tunnel c).

(** [ProxyPool], its [Inner] and its rotation counter. *)
Abbreviation PoolId := nat.
Record ProxyPool := mkPool { proxies : list PoolProxy; children : list PoolId; rotation : Z }.

Abbreviation Store := (gmap PoolId ProxyPool).
Abbreviation M A := (SE Store Empty_set A).

(** Following an [Arc]: it cannot dangle, which the invariant below shows. *)
Definition get_pool (id : PoolId) : M ProxyPool := fun s =>
  match s !! id with Some p => (Ok p, s) | None => (Panic, s) end.
Definition put_pool (id : PoolId) (p : ProxyPool) : M () := modify_st (insert id p).

Definition new (ps : list PoolProxy) : M PoolId := fun s =>
  let id := fresh (dom s) in (Ok id, <[id := mkPool ps [] 0]> s).

Definition wanted (protocol : option Protocol) (p : PoolProxy) : bool :=
  match protocol with None => true | Some w => bool_decide (pp_protocol p = w) end.

Definition to_candidate (p : PoolProxy) : Candidate :=
  mkCandidate (pp_key p) (pp_tunnel p) (pp_priority p) (pp_protocol p).

Definition local (p : ProxyPool) (protocol : option Protocol) : list Candidate :=
  to_candidate <$> filter (fun x => wanted protocol x) (proxies p).

(** The rotation of [filtered]: the counter is a wrapping u64 and moves only when there is a
    choice. *)
Definition rotate (id : PoolId) (ready : list Candidate) : M (list Candidate) :=
  if (1 <? length ready)%nat then
    p ← get_pool id;
    put_pool id (mkPool (proxies p) (children p) (wrap64 (rotation p + 1)));;
    let offset := Z.to_nat (rotation p mod Z.of_nat (length ready)) in
    mret (rotate_left offset ready)
  else mret ready.

(** [filtered] descends into the children; [fuel] bounds the depth of the graph. *)
Fixpoint filtered (fuel : nat) (id : PoolId) (protocol : option Protocol) : M (list Candidate) :=
  match fuel with
  | O => fun s => (NoFuel, s)
  | S fuel =>
      p ← get_pool id;
      ready ← fold_m (fun ready child =>
                more ← filtered fuel child protocol; mret (push_all key ready more))
              (local p protocol) (children p);
      rotate id (sort_by_key (fun c => Z.of_nat (priority c)) ready)
  end.

Definition candidates (fuel : nat) (id : PoolId) : M (list Candidate) := filtered fuel id None.
Definition candidates_for (fuel : nat) (id : PoolId) (p : Protocol) : M (list Candidate) :=
  filtered fuel id (Some p).

Definition add_child (id child : PoolId) : M () :=
  p ← get_pool id;
  if decide (child ∈ children p) then mret ()
  else put_pool id (mkPool (proxies p) (children p ++ [child]) (rotation p)).

Definition push (id : PoolId) (proxy : PoolProxy) : M () :=
  p ← get_pool id;
  if decide (pp_key proxy ∈ pp_key <$> proxies p) then mret ()
  else put_pool id (mkPool (proxies p ++ [proxy]) (children p) (rotation p)).

Definition remove (id : PoolId) (k : str) : M () :=
  p ← get_pool id;
  put_pool id (mkPool (filter (fun x => pp_key x ≠ k) (proxies p)) (children p) (rotation p)).

Definition proxies_of (id : PoolId) : M (list PoolProxy) := p ← get_pool id; mret (proxies p).

Fixpoint all (fuel : nat) (id : PoolId) : M (list PoolProxy) :=
  match fuel with
  | O => fun s => (NoFuel, s)
  | S fuel =>
      p ← get_pool id;
      fold_m (fun ps child => more ← all fuel child; mret (push_all pp_key ps more))
             (proxies p) (children p)
  end.

Definition contains (fuel : nat) (id : PoolId) (k : str) : M bool :=
  ps ← all fuel id; mret (bool_decide (k ∈ pp_key <$> ps)).
Definition count (fuel : nat) (id : PoolId) : M nat := ps ← all fuel id; mret (length ps).
Definition tunnel_count (fuel : nat) (id : PoolId) : M nat :=
  ps ← all fuel id; mret (sum_list ((fun p => target_pool (pp_tunnel p)) <$> ps)).
Definition usable_count (fuel : nat) (id : PoolId) : M nat :=
  ps ← all fuel id; mret (sum_list ((fun p => active_tunnels (pp_tunnel p)) <$> ps)).

(** [select]: polls every 200 ms until a candidate is ready. [env] is what the other tasks do to
    the store between two polls. *)
Fixpoint select (polls : nat) (fuel : nat) (env : nat → Store → Store) (id : PoolId)
    (protocol : option Protocol) : M (option Candidate) :=
  match polls with
  | O => fun s => (NoFuel, s)
  | S polls =>
      cs ← filtered fuel id protocol;
      match cs with
      | [] => mret None
      | _ => match list_find candidate_ready cs with
             | Some (_, c) => mret (Some c)
             | None => modify_st (env polls);; select polls fuel env id protocol
             end
      end
  end.
Definition pick (polls fuel : nat) (env : nat → Store → Store) (id : PoolId) : M (option Candidate) :=
  select polls fuel env id None.

(** * What is visible from a pool *)

Definition child_of (s : Store) (p c : PoolId) : Prop := ∃ pool, s !! p = Some pool ∧ c ∈ children pool.

(** The proxies of the pool and of every pool below it. *)
Definition visible (s : Store) (id : PoolId) (x : PoolProxy) : Prop :=
  ∃ q pool, rtc (child_of s) id q ∧ s !! q = Some pool ∧ x ∈ proxies pool.

(** The invariant of the store: keys and children are unique in each pool, children exist, and
    [rank] shows that the graph has no cycle. *)
Record wf_store (rank : PoolId → nat) (s : Store) : Prop := {
  wf_keys id p : s !! id = Some p → NoDup (pp_key <$> proxies p);
  wf_children id p : s !! id = Some p → NoDup (children p);
  wf_closed id p c : s !! id = Some p → c ∈ children p → is_Some (s !! c);
  wf_rank id p c : s !! id = Some p → c ∈ children p → (rank c < rank id)%nat
}.

(** Looking only moves the rotation counters. *)
Definition same_shape (s s' : Store) : Prop :=
  ∀ id, (fun p => (proxies p, children p)) <$> s !! id = (fun p => (proxies p, children p)) <$> s' !! id.

#[export] Instance same_shape_equiv : Equivalence same_shape.
Proof.
  split; [by intros s id|by intros s s' H id|].
  intros s1 s2 s3 H1 H2 id. by rewrite (H1 id).
Qed.

Lemma same_shape_lookup s s' id p : same_shape s s' → s !! id = Some p →
  ∃ p', s' !! id = Some p' ∧ proxies p' = proxies p ∧ children p' = children p.
Proof.
  intros H Hp. specialize (H id). rewrite Hp in H. simpl in H.
  destruct (s' !! id) as [p'|]; simplify_eq/=. eauto.
Qed.

Lemma same_shape_child s s' p c : same_shape s s' → child_of s p c → child_of s' p c.
Proof.
  intros H (pool & Hp & Hc). destruct (same_shape_lookup _ _ _ _ H Hp) as (p' & ? & _ & Hch).
  exists p'. by rewrite Hch.
Qed.

Lemma same_shape_visible s s' id x : same_shape s s' → visible s id x → visible s' id x.
Proof.
  intros H (q & pool & Hq & Hpool & Hx).
  destruct (same_shape_lookup _ _ _ _ H Hpool) as (p' & ? & Hpx & _).
  exists q, p'. split; [|by rewrite Hpx].
  clear -Hq H. induction Hq; [done|]. eapply rtc_l; [by eapply same_shape_child|done].
Qed.

Lemma same_shape_wf rank s s' : same_shape s s' → wf_store rank s → wf_store rank s'.
Proof.
  intros H [W1 W2 W3 W4].
  assert (∀ id p', s' !! id = Some p' → ∃ p, s !! id = Some p ∧ proxies p' = proxies p ∧ children p' = children p) as Hb.
  { intros id p' Hp. destruct (same_shape_lookup s' s id p') as (p & ? & ? & ?); [by symmetry|done|].
    exists p. by rewrite H1, H2. }
  split.
  - intros id p' Hp. destruct (Hb id p' Hp) as (p & ? & -> & _). eauto.
  - intros id p' Hp. destruct (Hb id p' Hp) as (p & ? & _ & ->). eauto.
  - intros id p' c Hp. destruct (Hb id p' Hp) as (p & Hp' & _ & ->). intros Hc.
    destruct (W3 _ _ _ Hp' Hc) as [pc Hpc].
    destruct (same_shape_lookup _ _ _ _ H Hpc) as (? & ? & _). eauto.
  - intros id p' c Hp. destruct (Hb id p' Hp) as (p & Hp' & _ & ->). eauto.
Qed.

Lemma visible_unfold s id p x : s !! id = Some p →
  visible s id x ↔ x ∈ proxies p ∨ ∃ c, c ∈ children p ∧ visible s c x.
Proof.
  intros Hp. split.
  - intros (q & pool & Hq & Hpool & Hx). inversion Hq as [|a c b [pool' [Hp' Hc]] Hrest]; subst.
    + left. congruence.
    + right. exists c. split; [congruence|]. by exists q, pool.
  - intros [Hx|(c & Hc & q & pool & Hq & Hpool & Hx)].
    + by exists id, p.
    + exists q, pool. split; [|done]. eapply rtc_l; [|done]. by exists p.
Qed.

Lemma get_pool_ok id s p : s !! id = Some p → get_pool id s = (Ok p, s).
Proof. unfold get_pool. by intros ->. Qed.

Lemma rotate_ok id ready s p : s !! id = Some p →
  ∃ n s', rotate id ready s = (Ok (rotate_left n ready), s') ∧ same_shape s s'.
Proof.
  intros Hp. unfold rotate. case_cmp.
  - unfold mbind, se_bind. rewrite (get_pool_ok _ _ _ Hp). simpl.
    eexists _, _. split; [done|]. intros i. destruct (decide (i = id)) as [->|].
    + by rewrite lookup_insert_eq, Hp.
    + by rewrite lookup_insert_ne.
  - exists 0%nat, s. split; [|done]. unfold rotate_left. simpl. by rewrite app_nil_r.
Qed.

(** The specification that both descents ([filtered], [all]) meet: they return, and the list [l]
    has unique keys and represents exactly the proxies [P]. *)
Definition represents {X} (k : X → str) (back : X → PoolProxy → Prop) (l : list X)
    (P : PoolProxy → Prop) : Prop :=
  NoDup (k <$> l) ∧ (∀ x, x ∈ l → ∃ p, P p ∧ back x p ∧ k x = pp_key p) ∧
  (∀ p, P p → pp_key p ∈ k <$> l).

Lemma represents_push_all {X} (k : X → str) back l1 l2 P1 P2 P :
  represents k back l1 P1 → represents k back l2 P2 → (∀ p, P p ↔ P1 p ∨ P2 p) →
  represents k back (push_all k l1 l2) P.
Proof.
  intros (N1 & B1 & C1) (N2 & B2 & C2) HP. split; [by apply push_all_nodup|]. split.
  - intros x [Hx|Hx]%push_all_elem.
    + destruct (B1 x Hx) as (p & Hp & ?). exists p. by rewrite HP; split; [left|].
    + destruct (B2 x Hx) as (p & Hp & ?). exists p. by rewrite HP; split; [right|].
  - intros p [Hp|Hp]%HP; rewrite push_all_keys; eauto.
Qed.

Lemma represents_perm {X} (k : X → str) back l l' P :
  l ≡ₚ l' → represents k back l P → represents k back l' P.
Proof.
  intros Hl (N & B & C). split; [by rewrite <- Hl|]. split.
  - intros x Hx. apply B. by rewrite Hl.
  - intros p Hp. rewrite <- Hl. by apply C.
Qed.

Lemma represents_ext {X} (k : X → str) back l P P' :
  (∀ p, P p ↔ P' p) → represents k back l P → represents k back l P'.
Proof.
  intros HP (N & B & C). split; [done|]. split.
  - intros x Hx. destruct (B x Hx) as (p & Hp & ?). exists p. by rewrite <- HP.
  - intros p Hp%HP. by apply C.
Qed.

(** Visiting the children one after the other, for either descent. *)
Lemma visit_children {X} (k : X → str) back (f : PoolId → M (list X)) (P0 : PoolProxy → Prop)
    (Pc : PoolId → PoolProxy → Prop) s cs acc :
  (∀ c s', c ∈ cs → same_shape s s' →
     ∃ l s'', f c s' = (Ok l, s'') ∧ same_shape s' s'' ∧ represents k back l (Pc c)) →
  represents k back acc P0 →
  ∃ l s', fold_m (fun ready child => more ← f child; mret (push_all k ready more)) acc cs s = (Ok l, s') ∧
    same_shape s s' ∧ represents k back l (fun p => P0 p ∨ ∃ c, c ∈ cs ∧ Pc c p).
Proof.
  revert s acc P0. induction cs as [|c cs IH]; intros s acc P0 Hf Hacc.
  - exists acc, s. split; [done|]. split; [done|]. apply (represents_ext _ _ _ P0); [|done].
    intros p. split; [by left|]. intros [?|(c & Hc & _)]; [done|]. by apply elem_of_nil in Hc.
  - destruct (Hf c s) as (l & s1 & Hl & Hs1 & Hr); [by left|done|].
    destruct (IH s1 (push_all k acc l) (fun p => P0 p ∨ Pc c p)) as (l' & s2 & Hl' & Hs2 & Hr').
    + intros c' s' Hc' Hs'. apply Hf; [by right|by etrans].
    + by eapply represents_push_all.
    + exists l', s2. simpl. unfold mbind at 1, se_bind at 1. unfold mbind at 1, se_bind at 1.
      rewrite Hl. simpl. split; [exact Hl'|]. split; [by etrans|].
      eapply represents_ext; [|exact Hr']. intros p.
      setoid_rewrite elem_of_cons. naive_solver.
Qed.

Definition is_candidate (c : Candidate) (p : PoolProxy) : Prop := c = to_candidate p.

Lemma local_represents p protocol : NoDup (pp_key <$> proxies p) →
  represents key is_candidate (local p protocol) (fun x => x ∈ proxies p ∧ wanted protocol x = true).
Proof.
  intros Hnd. unfold local. split; [|split].
  - rewrite <- list_fmap_compose. change (key ∘ to_candidate) with pp_key.
    induction (proxies p) as [|x l IH]; [done|]. rewrite fmap_cons in Hnd.
    apply NoDup_cons in Hnd as [Hx Hnd]. rewrite filter_cons. case_decide; [|by apply IH].
    rewrite fmap_cons. apply NoDup_cons. split; [|by apply IH].
    intros (y & Hk & Hy%list_elem_of_filter)%list_elem_of_fmap. apply Hx.
    rewrite Hk. apply list_elem_of_fmap. exists y. by destruct Hy.
  - intros c (x & -> & [Hw Hx]%list_elem_of_filter)%list_elem_of_fmap. exists x.
    by destruct (wanted protocol x).
  - intros x [Hx Hw]. apply list_elem_of_fmap. exists (to_candidate x). split; [done|].
    apply list_elem_of_fmap. exists x. split; [done|]. apply list_elem_of_filter. by rewrite Hw.
Qed.

Lemma wf_visible_child rank s s' id p c : wf_store rank s → same_shape s s' → s !! id = Some p →
  c ∈ children p → wf_store rank s' ∧ is_Some (s' !! c) ∧ (rank c < rank id)%nat.
Proof.
  intros W Hs Hp Hc. pose proof (same_shape_wf _ _ _ Hs W) as W'. split; [done|].
  split; [|by apply (wf_rank _ _ W id p)].
  destruct (wf_closed _ _ W _ _ _ Hp Hc) as [pc Hpc].
  destruct (same_shape_lookup _ _ _ _ Hs Hpc) as (? & ? & _). eauto.
Qed.

Lemma filtered_spec rank fuel id protocol s :
  wf_store rank s → is_Some (s !! id) → (rank id < fuel)%nat →
  ∃ l s' n, filtered fuel id protocol s
            = (Ok (rotate_left n (sort_by_key (fun c => Z.of_nat (priority c)) l)), s') ∧
    same_shape s s' ∧
    represents key is_candidate l (fun x => visible s id x ∧ wanted protocol x = true).
Proof.
  revert id s. induction fuel as [|fuel IH]; intros id s W [p Hp] Hfuel; [lia|].
  destruct (visit_children key is_candidate (fun c => filtered fuel c protocol)
              (fun x => x ∈ proxies p ∧ wanted protocol x = true)
              (fun c x => visible s c x ∧ wanted protocol x = true) s (children p) (local p protocol))
    as (l & s1 & Hl & Hs1 & Hr).
  - intros c s' Hc Hs. destruct (wf_visible_child _ _ _ _ _ _ W Hs Hp Hc) as (W' & Hsome & Hrk).
    destruct (IH c s' W' Hsome) as (l & s'' & n & Hl & Hs' & Hr); [lia|].
    eexists _, s''. split; [exact Hl|]. split; [done|].
    eapply represents_perm; [symmetry; etrans; [apply rotate_left_perm|apply sort_by_key_perm]|].
    eapply represents_ext; [|exact Hr]. intros x.
    split; intros [? ?]; (split; [|done]); (eapply same_shape_visible; [|done]);
      [by symmetry|done].
  - apply local_represents. by eapply wf_keys.
  - destruct (same_shape_lookup _ _ _ _ Hs1 Hp) as (p' & Hp' & _).
    destruct (rotate_ok id (sort_by_key (fun c => Z.of_nat (priority c)) l) s1 p' Hp') as (n & s2 & Hrot & Hs2).
    exists l, s2, n. split; [|split; [by etrans|]].
    + cbn [filtered]. unfold mbind at 1, se_bind at 1. rewrite (get_pool_ok _ _ _ Hp).
      unfold mbind at 1, se_bind at 1. by rewrite Hl.
    + eapply represents_ext; [|exact Hr]. intros x.
      rewrite (visible_unfold s id p x Hp). naive_solver.
Qed.

Lemma all_spec rank fuel id s :
  wf_store rank s → is_Some (s !! id) → (rank id < fuel)%nat →
  ∃ l s', all fuel id s = (Ok l, s') ∧ same_shape s s' ∧
    represents pp_key eq l (visible s id).
Proof.
  revert id s. induction fuel as [|fuel IH]; intros id s W [p Hp] Hfuel; [lia|].
  destruct (visit_children pp_key eq (fun c => all fuel c) (fun x => x ∈ proxies p)
              (visible s) s (children p) (proxies p)) as (l & s1 & Hl & Hs1 & Hr).
  - intros c s' Hc Hs. destruct (wf_visible_child _ _ _ _ _ _ W Hs Hp Hc) as (W' & Hsome & Hrk).
    destruct (IH c s' W' Hsome) as (l & s'' & Hl & Hs' & Hr); [lia|].
    eexists _, s''. split; [exact Hl|]. split; [done|].
    eapply represents_ext; [|exact Hr]. intros x.
    split; intros ?; (eapply same_shape_visible; [|done]); [by symmetry|done].
  - split; [by eapply wf_keys|]. split; [naive_solver|]. intros x Hx.
    apply list_elem_of_fmap. eauto.
  - exists l, s1. split; [|split; [done|]].
    + cbn [all]. unfold mbind at 1, se_bind at 1. rewrite (get_pool_ok _ _ _ Hp). exact Hl.
    + eapply represents_ext; [|exact Hr]. intros x.
      by rewrite (visible_unfold s id p x Hp).
Qed.

(** C6: Candidate selection. On a well-formed store (unique keys, existing children, no
    cycles) [filtered] returns; the candidates are, without repetition, exactly the keys of the
    proxies visible from the pool (its own and those of every pool below it, live) that speak the
    wanted protocol; they come in priority order, stably, rotated; and looking changes nothing
    but the rotation counters. *)
Theorem candidates_complete rank fuel id protocol s :
  wf_store rank s → is_Some (s !! id) → (rank id < fuel)%nat →
  ∃ l s', filtered fuel id protocol s = (Ok l, s') ∧ same_shape s s' ∧
    NoDup (key <$> l) ∧
    (∀ k, k ∈ key <$> l ↔ ∃ x, visible s id x ∧ wanted protocol x = true ∧ pp_key x = k) ∧
    (∀ c, c ∈ l → ∃ x, visible s id x ∧ wanted protocol x = true ∧ c = to_candidate x) ∧
    (∃ n base, l = rotate_left n base ∧ ordered (fun c => Z.of_nat (priority c)) base).
Proof.
  intros W Hs Hf. destruct (filtered_spec rank fuel id protocol s W Hs Hf) as (l & s' & n & -> & Hsh & Hr).
  set (sorted := sort_by_key _ l).
  assert (represents key is_candidate (rotate_left n sorted) (fun x => visible s id x ∧ wanted protocol x = true))
    as (N & B & C).
  { eapply represents_perm; [|exact Hr]. symmetry.
    etrans; [apply rotate_left_perm|apply sort_by_key_perm]. }
  exists (rotate_left n sorted), s'. split; [done|]. split; [done|]. split; [done|]. split; [|split].
  - intros k. split.
    + intros (c & -> & Hc)%list_elem_of_fmap. destruct (B c Hc) as (x & [? ?] & _ & ?). eauto.
    + intros (x & Hv & Hw & <-). by apply C.
  - intros c Hc. destruct (B c Hc) as (x & [? ?] & ? & _). eauto.
  - exists n, sorted. split; [done|]. apply sort_by_key_ordered.
Qed.

(** The pool statistics. [count] is the number of distinct keys visible from the pool,
    [contains] decides visibility, and [tunnel_count] and [usable_count] sum over one proxy per
    visible key. *)
Theorem pool_statistics rank fuel id k s :
  wf_store rank s → is_Some (s !! id) → (rank id < fuel)%nat →
  ∃ l, NoDup (pp_key <$> l) ∧ (∀ x, x ∈ l → visible s id x) ∧
    (∀ x, visible s id x → pp_key x ∈ pp_key <$> l) ∧
    (count fuel id s).1 = Ok (length l) ∧
    (tunnel_count fuel id s).1 = Ok (sum_list ((fun p => target_pool (pp_tunnel p)) <$> l)) ∧
    (usable_count fuel id s).1 = Ok (sum_list ((fun p => active_tunnels (pp_tunnel p)) <$> l)) ∧
    ∃ b, (contains fuel id k s).1 = Ok b ∧ (b = true ↔ ∃ x, visible s id x ∧ pp_key x = k).
Proof.
  intros W Hs Hf. destruct (all_spec rank fuel id s W Hs Hf) as (l & s' & Hl & _ & N & B & C).
  exists l. split; [done|]. split; [|split; [done|]].
  { intros x Hx. destruct (B x Hx) as (y & ? & -> & _). done. }
  unfold count, tunnel_count, usable_count, contains, mbind, se_bind. rewrite Hl.
  split; [done|]. split; [done|]. split; [done|].
  exists (bool_decide (k ∈ pp_key <$> l)). split; [done|]. rewrite bool_decide_eq_true. split.
  - intros (x & -> & Hx)%list_elem_of_fmap. destruct (B x Hx) as (y & ? & -> & _). eauto.
  - intros (x & Hv & <-). by apply C.
Qed.

(** * The operations keep the invariant *)

Lemma wf_update rank s id p p' : wf_store rank s → s !! id = Some p →
  NoDup (pp_key <$> proxies p') → NoDup (children p') →
  (∀ c, c ∈ children p' → c ∈ children p ∨ is_Some (s !! c) ∧ (rank c < rank id)%nat) →
  wf_store rank (<[id:=p']> s).
Proof.
  intros W Hp Hk Hc Hch. pose proof W as [W1 W2 W3 W4].
  assert (∀ c, is_Some (s !! c) → is_Some (<[id:=p']> s !! c)) as Hex.
  { intros c. rewrite !lookup_insert_is_Some'. auto. }
  split.
  - intros i q [[<- <-]|[? Hq]]%lookup_insert_Some; eauto.
  - intros i q [[<- <-]|[? Hq]]%lookup_insert_Some; eauto.
  - intros i q c [[<- <-]|[? Hq]]%lookup_insert_Some Hin; apply Hex; [|eauto].
    destruct (Hch c Hin) as [?|[? _]]; eauto.
  - intros i q c [[<- <-]|[? Hq]]%lookup_insert_Some Hin; [|eauto].
    destruct (Hch c Hin) as [?|[_ ?]]; eauto.
Qed.

(** C38: The shared store. Creating a pool, pushing, removing and linking a child below a pool
    of higher rank all succeed and keep the store well-formed; pushing an existing key changes
    nothing, removing a key removes exactly it, and a child is linked once. *)
Theorem pool_operations rank s id p :
  wf_store rank s → s !! id = Some p →
  (∀ ps, NoDup (pp_key <$> ps) → ∃ i s', new ps s = (Ok i, s') ∧ wf_store rank s' ∧
     s !! i = None ∧ s' !! i = Some (mkPool ps [] 0)) ∧
  (∀ x, ∃ s', push id x s = (Ok (), s') ∧ wf_store rank s' ∧
     (pp_key x ∈ pp_key <$> proxies p → s' = s) ∧
     (pp_key x ∉ pp_key <$> proxies p → s' !! id = Some (mkPool (proxies p ++ [x]) (children p) (rotation p)))) ∧
  (∀ k, ∃ s' p', remove id k s = (Ok (), s') ∧ wf_store rank s' ∧ s' !! id = Some p' ∧
     children p' = children p ∧ ∀ x, x ∈ proxies p' ↔ x ∈ proxies p ∧ pp_key x ≠ k) ∧
  (∀ c, is_Some (s !! c) → (rank c < rank id)%nat → ∃ s', add_child id c s = (Ok (), s') ∧
     wf_store rank s' ∧ child_of s' id c ∧ (c ∈ children p → s' = s)).
Proof.
  intros W Hp. pose proof W as [W1 W2 W3 W4]. split; [|split; [|split]].
  - intros ps Hnd. unfold new. set (i := fresh (dom s)). exists i, (<[i:=mkPool ps [] 0]> s).
    assert (s !! i = None) as Hi by (apply not_elem_of_dom, is_fresh).
    split; [done|]. split; [|split; [done|apply lookup_insert_eq]].
    split.
    + intros j q [[<- <-]|[? Hq]]%lookup_insert_Some; eauto.
    + intros j q [[<- <-]|[? Hq]]%lookup_insert_Some; [constructor|eauto].
    + intros j q c [[<- <-]|[? Hq]]%lookup_insert_Some Hin; [by apply elem_of_nil in Hin|].
      rewrite lookup_insert_is_Some'. right. eauto.
    + intros j q c [[<- <-]|[? Hq]]%lookup_insert_Some Hin; [by apply elem_of_nil in Hin|eauto].
  - intros x. unfold push, mbind, se_bind. rewrite (get_pool_ok _ _ _ Hp). case_decide as Hx.
    + by exists s.
    + eexists. split; [done|]. split; [|split; [done|intros _; apply lookup_insert_eq]].
      apply (wf_update rank s id p); [done..| | |]; simpl; [|eauto|auto].
      rewrite fmap_app. apply NoDup_app. split; [eauto|]. split; [|apply NoDup_singleton].
      intros k Hk [->|Hn]%elem_of_cons; [done|by apply elem_of_nil in Hn].
  - intros k. unfold remove, mbind, se_bind. rewrite (get_pool_ok _ _ _ Hp).
    eexists _, _. split; [done|]. split; [|split; [apply lookup_insert_eq|split; [done|]]].
    + apply (wf_update rank s id p); [done..| | |]; simpl; [|eauto|auto].
      apply (sublist_NoDup _ (pp_key <$> proxies p)); [eauto|].
      apply fmap_sublist, sublist_filter.
    + intros x. simpl. rewrite list_elem_of_filter. tauto.
  - intros c Hc Hr. unfold add_child, mbind, se_bind. rewrite (get_pool_ok _ _ _ Hp). case_decide as Hin.
    + exists s. split; [done|]. split; [done|]. split; [by exists p|done].
    + eexists. split; [done|]. split; [|split; [|done]].
      * apply (wf_update rank s id p); [done..| | |]; simpl; [eauto| |].
        -- apply NoDup_app. split; [eauto|]. split; [|apply NoDup_singleton].
           intros k Hk [->|Hn]%elem_of_cons; [done|by apply elem_of_nil in Hn].
        -- intros k [?|[->|Hn]%elem_of_cons]%elem_of_app; [by left|by right|by apply elem_of_nil in Hn].
      * eexists. split; [apply lookup_insert_eq|]. simpl. apply elem_of_app. right. by left.
Qed.

(** * Round robin *)

(** The candidate tried first, over [n] consecutive requests. *)
Fixpoint first_choices (n fuel : nat) (id : PoolId) (protocol : option Protocol)
    : M (list (option Candidate)) :=
  match n with
  | O => mret []
  | S n => cs ← filtered fuel id protocol;
           rest ← first_choices n fuel id protocol;
           mret (head cs :: rest)
  end.

Definition leaf (p : ProxyPool) (r : Z) : ProxyPool := mkPool (proxies p) [] r.

Lemma filtered_leaf fuel id protocol s p :
  s !! id = Some p → children p = [] → 0 <= rotation p → rotation p + 1 < 2 ^ 64 →
  (1 < length (local p protocol))%nat →
  filtered (S fuel) id protocol s
  = (Ok (rotate_left (Z.to_nat (rotation p mod Z.of_nat (length (local p protocol))))
           (sort_by_key (fun c => Z.of_nat (priority c)) (local p protocol))),
     <[id := leaf p (rotation p + 1)]> s).
Proof.
  intros Hp Hc Hr Hw Hn. cbn [filtered]. unfold mbind at 1, se_bind at 1.
  rewrite (get_pool_ok _ _ _ Hp), Hc. cbn [fold_m]. unfold mbind, se_bind. simpl.
  unfold rotate. rewrite sort_by_key_length, (proj2 (Nat.ltb_lt _ _) Hn).
  unfold mbind, se_bind. rewrite (get_pool_ok _ _ _ Hp). unfold leaf. rewrite Hc.
  unfold wrap64. by rewrite (Z.mod_small (rotation p + 1)) by lia.
Qed.

Lemma first_choices_spec n fuel id protocol s p :
  s !! id = Some p → children p = [] → 0 <= rotation p → rotation p + Z.of_nat n < 2 ^ 64 →
  (1 < length (local p protocol))%nat →
  ∃ hs s', first_choices n (S fuel) id protocol s = (Ok hs, s') ∧ length hs = n ∧
    ∀ i, (i < n)%nat → hs !! i = Some (sort_by_key (fun c => Z.of_nat (priority c)) (local p protocol)
           !! Z.to_nat ((rotation p + Z.of_nat i) mod Z.of_nat (length (local p protocol)))).
Proof.
  revert s p. induction n as [|n IH]; intros s p Hp Hc Hr Hw Hn.
  - exists [], s. split; [done|]. split; [done|lia].
  - destruct (IH (<[id:=leaf p (rotation p + 1)]> s) (leaf p (rotation p + 1))) as (hs & s' & Hhs & Hlen & Hi);
      [by rewrite lookup_insert_eq|done|simpl; lia|simpl; lia|done|].
    eexists (_ :: hs), s'. split; [|split; [by simpl; rewrite Hlen|]].
    + cbn [first_choices]. unfold mbind, se_bind.
      rewrite (filtered_leaf _ _ _ _ _ Hp) by (done || lia). by rewrite Hhs.
    + intros [|i] Hlt.
      * simpl. f_equal. rewrite Z.add_0_r. apply rotate_left_head. rewrite sort_by_key_length.
        pose proof (Z.mod_pos_bound (rotation p) (Z.of_nat (length (local p protocol)))). lia.
      * cbn [lookup list_lookup]. rewrite Hi by lia. simpl. change (local (leaf p _)) with (local p).
        do 4 f_equal. lia.
Qed.

(** C37: Fair rotation. On a pool without children that holds [n] proxies of a protocol, each
    of them is the first candidate exactly once in any [n] consecutive requests (as long as the
    64-bit counter does not wrap around in between). *)
Theorem rotation_is_fair fuel id protocol s p :
  s !! id = Some p → children p = [] → 0 <= rotation p →
  rotation p + Z.of_nat (length (local p protocol)) < 2 ^ 64 →
  (1 < length (local p protocol))%nat →
  ∃ hs s', first_choices (length (local p protocol)) (S fuel) id protocol s = (Ok hs, s') ∧
    hs ≡ₚ Some <$> local p protocol.
Proof.
  intros Hp Hc Hr Hw Hn. set (n := length (local p protocol)) in *.
  destruct (first_choices_spec n fuel id protocol s p Hp Hc Hr Hw Hn) as (hs & s' & Hhs & Hlen & Hi).
  exists hs, s'. split; [done|]. set (base := sort_by_key (fun c => Z.of_nat (priority c)) (local p protocol)).
  set (k := Z.to_nat (rotation p mod Z.of_nat n)).
  assert (length base = n) as Hbase by apply sort_by_key_length.
  pose proof (Z.mod_pos_bound (rotation p) (Z.of_nat n) ltac:(lia)) as Hk.
  assert (hs = Some <$> rotate_left k base) as ->.
  { apply list_eq. intros i. rewrite list_lookup_fmap. destruct (decide (i < n)%nat) as [Hlt|Hge].
    - rewrite Hi by done. fold base n. symmetry. apply fmap_Some.
      destruct (lookup_lt_is_Some_2 (rotate_left k base) i) as [x Hx]; [by rewrite rotate_left_length, Hbase|].
      exists x. split; [done|]. rewrite <- Hx. unfold rotate_left.
      rewrite <- Z.add_mod_idemp_l by lia.
      destruct (decide (i < n - k)%nat) as [Hb|Hb].
      + rewrite lookup_app_l by (rewrite length_drop; lia). rewrite lookup_drop. f_equal.
        rewrite Z.mod_small by lia. lia.
      + rewrite lookup_app_r by (rewrite length_drop; lia). rewrite length_drop, lookup_take_lt by lia.
        f_equal. replace (rotation p mod Z.of_nat n + Z.of_nat i)
          with ((rotation p mod Z.of_nat n + Z.of_nat i - Z.of_nat n) + 1 * Z.of_nat n) by lia.
        rewrite Z.mod_add, Z.mod_small by lia. lia.
    - rewrite !lookup_ge_None_2; [done|rewrite rotate_left_length; lia|lia]. }
  apply fmap_Permutation. etrans; [apply rotate_left_perm|apply sort_by_key_perm].
Qed.

(** Picking a tunnel. One poll of [select] decides as documented: no visible proxy of the
    protocol gives nothing at once; a ready one is returned; when proxies exist but none is
    ready, nothing is decided and the next poll runs after the other tasks' changes. *)
Theorem select_poll rank polls fuel env id protocol s :
  wf_store rank s → is_Some (s !! id) → (rank id < fuel)%nat →
  let P x := visible s id x ∧ wanted protocol x = true in
  ((∀ x, ¬ P x) → (select (S polls) fuel env id protocol s).1 = Ok None) ∧
  ((∃ x, P x ∧ ∀ y, P y → pp_key y = pp_key x → is_ready (pp_tunnel y) = true) →
     ∃ c, (select (S polls) fuel env id protocol s).1 = Ok (Some c) ∧ candidate_ready c = true ∧
          ∃ x, P x ∧ c = to_candidate x) ∧
  ((∃ x, P x) → (∀ x, P x → is_ready (pp_tunnel x) = false) →
     ∃ s', same_shape s s' ∧
       select (S polls) fuel env id protocol s = select polls fuel env id protocol (env polls s')).
Proof.
  intros W Hs Hf P. destruct (filtered_spec rank fuel id protocol s W Hs Hf) as (l0 & s' & n & Hl & Hsh & Hr).
  set (l := rotate_left n _) in Hl.
  assert (represents key is_candidate l P) as (N & B & C).
  { eapply represents_perm; [|exact Hr]. symmetry.
    etrans; [apply rotate_left_perm|apply sort_by_key_perm]. }
  clearbody l. cbn [select]. unfold mbind, se_bind. rewrite Hl. split; [|split].
  - intros Hnone. destruct l as [|c l]; [done|].
    destruct (B c) as (x & Hx & _); [by left|]. by apply Hnone in Hx.
  - intros (x & Hx & Hkey). destruct l as [|c0 lr] eqn:El; [by apply C, elem_of_nil in Hx|].
    rewrite <- El in *. pose proof (C x Hx) as (d & Hk & Hd)%list_elem_of_fmap.
    destruct (list_find candidate_ready l) as [[i e]|] eqn:Ef.
    + apply list_find_Some in Ef as (Hi & He & _). apply list_elem_of_lookup_2 in Hi.
      exists e. split; [done|]. split; [by destruct (candidate_ready e)|].
      destruct (B e Hi) as (y & ? & ? & _). eauto.
    + apply list_find_None in Ef. rewrite Forall_forall in Ef. exfalso. apply (Ef d Hd).
      destruct (B d Hd) as (y & Hy & -> & Hky). unfold candidate_ready. simpl in *.
      by rewrite (Hkey y Hy).
  - intros [x Hx] Hno. exists s'. split; [done|].
    destruct l as [|c0 lr] eqn:El; [by apply C, elem_of_nil in Hx|]. rewrite <- El in *.
    destruct (list_find candidate_ready l) as [[i e]|] eqn:Ef; [|done].
    apply list_find_Some in Ef as (Hi & He & _). apply list_elem_of_lookup_2 in Hi.
    destruct (B e Hi) as (y & Hy & -> & _). unfold candidate_ready in He. simpl in He.
    by rewrite (Hno y Hy) in He.
Qed.
End Pool.

(** * A concrete store: a parent with two children that share a key *)

#[export] Instance toy_tunnel : Tunnel nat := {|
  target_pool n := n;
  active_tunnels n := Nat.pred n;
  is_ready n := (1 <? n)%nat;
  generation n := Z.of_nat n;
  proxy_url n := if (n =? 0)%nat then None else Some (Lit "socks5://127.0.0.1:1080")
|}.
#[export] Instance toy_tunnel_laws : TunnelLaws nat.
Proof. split; intros [|[|n]]; cbn; [done|done|lia|done|done|by eexists]. Qed.

Definition toy_proxy (k : str) (n prio : nat) (p : Protocol) : PoolProxy := mkProxy (T:=nat) k n prio p.

Definition toy_parent : ProxyPool := mkPool (T:=nat) [toy_proxy (Lit "a") 3 1 Ssh] [1%nat; 2%nat] 4.
Definition toy_left : ProxyPool := mkPool (T:=nat) [toy_proxy (Lit "b") 2 0 Vpn; toy_proxy (Lit "c") 1 0 Ssh] [] 7.
Definition toy_right : ProxyPool := mkPool (T:=nat) [toy_proxy (Lit "b") 9 0 Vpn; toy_proxy (Lit "d") 0 2 Ssh] [] 0.
Definition toy_store : gmap nat (ProxyPool (T:=nat)) :=
  <[0%nat := toy_parent]> (<[1%nat := toy_left]> (<[2%nat := toy_right]> ∅)).
Definition toy_rank (id : nat) : nat := if (id =? 0)%nat then 1 else 0.

Lemma toy_store_cases id p : toy_store !! id = Some p →
  id = 0%nat ∧ p = toy_parent ∨ id = 1%nat ∧ p = toy_left ∨ id = 2%nat ∧ p = toy_right.
Proof.
  unfold toy_store. rewrite !lookup_insert_Some, lookup_empty. naive_solver.
Qed.

Lemma toy_store_wf : wf_store toy_rank toy_store.
Proof.
  split; intros id p.
  - intros [[-> ->]|[[-> ->]|[-> ->]]]%toy_store_cases;
      apply (bool_decide_eq_true_1 _); vm_compute; reflexivity.
  - intros [[-> ->]|[[-> ->]|[-> ->]]]%toy_store_cases;
      apply (bool_decide_eq_true_1 _); vm_compute; reflexivity.
  - intros c [[-> ->]|[[-> ->]|[-> ->]]]%toy_store_cases; simpl;
      rewrite ?elem_of_cons, ?elem_of_nil; [intros [->|[->|[]]]; vm_compute; eauto|done..].
  - intros c [[-> ->]|[[-> ->]|[-> ->]]]%toy_store_cases; simpl;
      rewrite ?elem_of_cons, ?elem_of_nil; [intros [->|[->|[]]]; vm_compute; lia|done..].
Qed.

Example toy_candidates :
  (fun r => match r with Ok l => key (T:=nat) <$> l | _ => [] end) (candidates 2 0 toy_store).1
  = [Lit "c"; Lit "b"; Lit "a"; Lit "d"].
Proof. vm_compute. reflexivity. Qed.

Lemma candidates_complete_witness :
  ∃ l s', filtered (T:=nat) 2 0 (Some Ssh) toy_store = (Ok l, s') ∧ NoDup (key <$> l) ∧
    (Lit "d" ∈ key <$> l).
Proof.
  destruct (candidates_complete (T:=nat) toy_rank 2 0 (Some Ssh) toy_store toy_store_wf)
    as (l & s' & H & _ & N & K & _); [vm_compute; eauto|vm_compute; lia|].
  exists l, s'. split; [exact H|]. split; [exact N|]. apply K.
  exists (toy_proxy (Lit "d") 0 2 Ssh). split; [|split; reflexivity].
  exists 2%nat, toy_right. split; [|split; [reflexivity|right; left]].
  - eapply rtc_l; [|apply rtc_refl]. exists toy_parent. split; [reflexivity|]. right. left.
Defined.

Lemma pool_statistics_witness :
  (count (T:=nat) 2 0 toy_store).1 = Ok 4%nat ∧
  ∃ l, (count (T:=nat) 2 0 toy_store).1 = Ok (length l) ∧ NoDup (pp_key (T:=nat) <$> l).
Proof.
  split; [vm_compute; reflexivity|].
  destruct (pool_statistics (T:=nat) toy_rank 2 0 (Lit "d") toy_store toy_store_wf)
    as (l & N & _ & _ & Hc & _); [vm_compute; eauto|vm_compute; lia|].
  exists l. split; [exact Hc|exact N].
Defined.

Lemma pool_operations_witness :
  ∃ s', push (T:=nat) 1 (toy_proxy (Lit "e") 1 0 Ssh) toy_store = (Ok (), s') ∧ wf_store toy_rank s'.
Proof.
  destruct (pool_operations (T:=nat) toy_rank toy_store 1 toy_left toy_store_wf) as (_ & H & _);
    [reflexivity|].
  destruct (H (toy_proxy (Lit "e") 1 0 Ssh)) as (s' & ? & ? & _). exists s'. by split.
Defined.

Lemma rotation_is_fair_witness :
  ∃ hs s', first_choices (T:=nat) 2 1 1 None toy_store = (Ok hs, s') ∧
    hs ≡ₚ Some <$> local (T:=nat) toy_left None.
Proof.
  apply (rotation_is_fair (T:=nat) 0 1 None toy_store toy_left);
    [reflexivity|reflexivity|vm_compute; congruence|vm_compute; reflexivity|vm_compute; lia].
Defined.

Lemma select_poll_witness :
  (select (T:=nat) 1 1 (fun _ s => s) 1 (Some Vpn) toy_store).1
    = Ok (Some (to_candidate (toy_proxy (Lit "b") 2 0 Vpn))) ∧
  ((∀ x, ¬ (visible (T:=nat) toy_store 1 x ∧ wanted (Some Vpn) x = true)) →
     (select (T:=nat) 1 1 (fun _ s => s) 1 (Some Vpn) toy_store).1 = Ok None).
Proof.
  split; [vm_compute; reflexivity|].
  apply (select_poll (T:=nat) toy_rank 0 1 (fun _ s => s) 1 (Some Vpn) toy_store toy_store_wf);
    [vm_compute; eauto|vm_compute; lia].
Defined.
