(* ===== verification/RequestPath.v ===== *)
(** The pure half of proxy/server.rs: routes and targets, the rewrite path, authorities, domain
    validation, credentials and header stripping. *)
From S2P Require Import Prelude Text Pool.

(** [http::Method], as far as the proxy tells methods apart. *)
Inductive Method := CONNECT | GET | HEAD | OtherMethod (name : str).
#[export] Instance method_eq_dec : EqDecision Method.
Proof. solve_decision. Defined.

Record Target := mkTarget { scheme : str; host : str; path : str; query : str }.

(** [Target::uri], before the text is handed to the URI parser. *)
Definition uri_text (t : Target) : str :=
  scheme t ++ Lit "://" ++ host t ++ path t
  ++ (match query t with [] => [] | q => Lit "?" ++ q end).

Record Route := mkRoute { r_region : option str; r_protocol : option Protocol }.
Definition route_region (r : Route) : str := default [] (r_region r).

(** * Authorities *)

Definition is_bracket (b : byte) : bool := bool_decide (b = "["%byte) || bool_decide (b = "]"%byte).

Definition split_authority (authority scheme : str) : str * Z :=
  let default_port := if decide (scheme = Lit "https") then 443 else 80 in
  let fallback := (trim_matches is_bracket authority, default_port) in
  match rsplit_once ":"%byte authority with
  | Some (host, port) =>
      match parse_u16 port with
      | Some port =>
          if negb (bool_decide ("]"%byte ∈ host)) || ends_with (Lit "]") host
          then (trim_matches is_bracket host, port) else fallback
      | None => fallback
      end
  | None => fallback
  end.

(** * Domains *)

Definition is_valid_domain (domain : str) : bool :=
  if bool_decide (domain = []) || (253 <? length domain)%nat then false
  else if is_ip_addr domain then true
  else if negb (bool_decide ("."%byte ∈ domain)) then false
  else forallb (fun part =>
         negb (bool_decide (part = [])) && (length part <=? 63)%nat
         && negb (starts_with (Lit "-") part) && negb (ends_with (Lit "-") part)
         && forallb (fun c => is_alnum c || bool_decide (c = "-"%byte)) part)
       (split_on "."%byte domain).

(** * The rewrite path *)

(** One round of the [for _ in 0..2] loop; [None] is [break]. *)
Definition path_step (st : option Protocol * option str * str) : option (option Protocol * option str * str) :=
  let '(protocol, region, rest) := st in
  match split_once "/"%byte rest with
  | None => None
  | Some (head, tail) =>
      if bool_decide (head = []) || bool_decide ("."%byte ∈ head) || bool_decide (":"%byte ∈ head) then None
      else
        match (if decide (protocol = None) then Protocol.parse head else None) with
        | Some parsed => Some (Some parsed, region, tail)
        | None => if decide (region = None) then Some (protocol, Some (to_ascii_uppercase head), tail)
                  else None
        end
  end.

Fixpoint path_loop (n : nat) (st : option Protocol * option str * str) : option Protocol * option str * str :=
  match n with
  | O => st
  | S n => match path_step st with Some st => path_loop n st | None => st end
  end.

(** The scheme prefixes, longest first; the default is https. *)
Definition take_scheme (rest : str) : str * str :=
  let lower := to_ascii_lowercase rest in
  if starts_with (Lit "https://") lower then (Lit "https", drop 8 rest)
  else if starts_with (Lit "http://") lower then (Lit "http", drop 7 rest)
  else if starts_with (Lit "https:") lower then (Lit "https", drop 6 rest)
  else if starts_with (Lit "http:") lower then (Lit "http", drop 5 rest)
  else (Lit "https", rest).

(** [parse_path], on [uri.path()] and [uri.query()]. *)
Definition parse_path (uri_path : str) (uri_query : option str) : option (Route * Target) :=
  let rest := trim_start_matches "/"%byte uri_path in
  if decide (rest = []) then None
  else
    let '(protocol, region, rest) := path_loop 2 (None, None, rest) in
    let '(scheme, rest) := take_scheme rest in
    let rest := trim_start_matches "/"%byte rest in
    if decide (rest = []) then None
    else
      let '(domain, path) := match split_once "/"%byte rest with
                             | Some (d, p) => (d, "/"%byte :: p)
                             | None => (rest, Lit "/")
                             end in
      let domain := rsplit_first "@"%byte domain in
      if negb (is_valid_domain domain) then None
      else Some (mkRoute region protocol, mkTarget scheme domain path (default [] uri_query)).

Example parses_region_prefixed_path :
  parse_path (Lit "/SG/example.com/path") (Some (Lit "q=1"))
  = Some (mkRoute (Some (Lit "SG")) None, mkTarget (Lit "https") (Lit "example.com") (Lit "/path") (Lit "q=1")).
Proof. vm_compute. reflexivity. Qed.
Example parses_protocol_prefixed_paths :
  parse_path (Lit "/ssh/ca/example.com/a") None
  = Some (mkRoute (Some (Lit "CA")) (Some Ssh), mkTarget (Lit "https") (Lit "example.com") (Lit "/a") []).
Proof. vm_compute. reflexivity. Qed.
Example rejects_bad_paths :
  map (fun p => parse_path p None) [Lit "/"; Lit "/localhost/x"; Lit "/exa%20mple.com/x"; Lit "/example..com/x"; Lit "/ssh/ca/"]
  = [None; None; None; None; None].
Proof. vm_compute. reflexivity. Qed.

(** * Headers: the [http] crate's header map *)

Class HeaderLib := {
  HeaderMap : Type;
  HeaderValue : Type;
  hm_get : HeaderMap → str → option HeaderValue;      (* the first value of a name *)
  hm_remove : HeaderMap → str → HeaderMap;
  hm_insert : HeaderMap → str → HeaderValue → HeaderMap;  (* replaces every value of the name *)
  hv_to_str : HeaderValue → option str;
  hv_from_str : str → option HeaderValue;
  base64_decode : str → option (list byte)
}.

(** Documented behaviour: removing a name removes all its values and no other name's; inserting
    sets exactly the inserted name. *)
Class HeaderLaws (H : HeaderLib) := {
  hm_get_remove m n n' : hm_get (hm_remove m n) n' = if decide (n = n') then None else hm_get m n';
  hm_get_insert m n v n' : hm_get (hm_insert m n v) n' = if decide (n = n') then Some v else hm_get m n'
}.

Definition client_headers : list str :=
  [Lit "x-forwarded-for"; Lit "x-real-ip"; Lit "x-originating-ip"; Lit "true-client-ip"; Lit "client-ip";
   Lit "forwarded"; Lit "x-forwarded-host"; Lit "x-forwarded-proto"; Lit "cf-connecting-ip";
   Lit "proxy-authorization"].
Definition hop_headers : list str :=
  [Lit "connection"; Lit "proxy-connection"; Lit "keep-alive"; Lit "proxy-authenticate";
   Lit "proxy-authorization"; Lit "te"; Lit "trailer"; Lit "transfer-encoding"; Lit "upgrade"].

Section Headers.
Context {H : HeaderLib}.

Definition strip_client_headers (headers : HeaderMap) : HeaderMap := foldl hm_remove headers client_headers.
Definition strip_hop_headers (headers : HeaderMap) : HeaderMap := foldl hm_remove headers hop_headers.

Definition decode_username (encoded : str) : str :=
  match base64_decode encoded with
  | None => []
  | Some decoded => default [] (head (split_on ":"%byte (from_utf8_lossy decoded)))
  end.

Definition auth_username (headers : HeaderMap) : str :=
  let header := match hm_get headers (Lit "proxy-authorization") with
                | Some h => Some h
                | None => hm_get headers (Lit "authorization")
                end in
  match header ≫= hv_to_str with
  | None => []
  | Some header => match strip_prefix (Lit "Basic ") header with
                   | None => []
                   | Some encoded => decode_username (trim encoded)
                   end
  end.

Context {Laws : HeaderLaws H}.

Lemma hm_get_remove_all names headers n :
  hm_get (foldl hm_remove headers names) n = if decide (n ∈ names) then None else hm_get headers n.
Proof using Laws.
  revert headers. induction names as [|m names IH]; intros headers; cbn [foldl].
  - case_decide as Hn; [by apply elem_of_nil in Hn|done].
  - rewrite IH, hm_get_remove. repeat case_decide; rewrite elem_of_cons in *; naive_solver.
Qed.

Lemma get_stripped headers n :
  hm_get (strip_hop_headers (strip_client_headers headers)) n
  = if decide (n ∈ client_headers ++ hop_headers) then None else hm_get headers n.
Proof using Laws.
  unfold strip_hop_headers, strip_client_headers. rewrite !hm_get_remove_all.
  repeat case_decide; rewrite elem_of_app in *; tauto.
Qed.

(** What leaves the proxy. After both strips no header that identifies the client, carries
    the proxy's credentials or is hop-by-hop is left, and every other header is unchanged. *)
Theorem stripped_headers headers n :
  hm_get (strip_hop_headers (strip_client_headers headers)) n
  = if decide (n ∈ client_headers ++ hop_headers) then None else hm_get headers n.
Proof using Laws.
  apply get_stripped.
Qed.

(** Credentials. A Basic credential whose decoding is ASCII text gives the text before
    the first colon; the proxy's own header takes precedence over [Authorization], even when it
    is malformed; anything that is not a decodable Basic credential gives the empty name. *)
Theorem auth_username_spec headers hv value user secret encoded :
  hm_get headers (Lit "proxy-authorization") = Some hv → hv_to_str hv = Some value →
  (value = Lit "Basic " ++ encoded → trim encoded = encoded →
   base64_decode encoded = Some (user ++ ":"%byte :: secret) →
   Forall (fun b => b2z b < 128) (user ++ secret) → ":"%byte ∉ user →
   auth_username headers = user) ∧
  (strip_prefix (Lit "Basic ") value = None → auth_username headers = []) ∧
  (value = Lit "Basic " ++ encoded → base64_decode (trim encoded) = None → auth_username headers = []).
Proof using H.
  intros Hget Hstr. unfold auth_username. rewrite Hget. cbn [mbind option_bind]. rewrite Hstr. split; [|split].
  - intros -> Ht Hd Hall Hc. rewrite strip_prefix_app, Ht.
    unfold decode_username. rewrite Hd. rewrite from_utf8_lossy_ascii.
    + by rewrite split_on_app.
    + apply Forall_app in Hall as [? ?]. apply Forall_app. split; [done|].
      constructor; [by vm_compute|done].
  - by intros ->.
  - intros -> Hd. rewrite strip_prefix_app. unfold decode_username. by rewrite Hd.
Qed.
End Headers.

(** * Authorities: properties *)

Definition plain (h : str) : Prop := Forall (fun b => is_bracket b = false) h.

Lemma plain_not_in h : plain h → "]"%byte ∉ h.
Proof. unfold plain. intros H Hin. rewrite Forall_forall in H. by specialize (H _ Hin). Qed.

Lemma show_uint_no_colon p : 0 <= p < 10 ^ 20 → ":"%byte ∉ show_uint p.
Proof.
  intros Hp Hin. pose proof (proj2 (show_uint_digits p Hp)) as Hd. rewrite Forall_forall in Hd.
  by specialize (Hd _ Hin).
Qed.

(** Authorities. A host with a port, bracketed IPv6 hosts included, splits into exactly
    that host and port; without a port the scheme decides; and the port always fits 16 bits. *)
Theorem split_authority_spec h port scheme :
  is_u16 port → plain h →
  split_authority (h ++ ":"%byte :: show_uint port) scheme = (h, port) ∧
  split_authority (Lit "[" ++ h ++ Lit "]" ++ ":"%byte :: show_uint port) scheme = (h, port) ∧
  split_authority (Lit "[" ++ h ++ Lit "]") scheme = (h, if decide (scheme = Lit "https") then 443 else 80) ∧
  (":"%byte ∉ h → split_authority h scheme = (h, if decide (scheme = Lit "https") then 443 else 80)) ∧
  ∀ authority, is_u16 (split_authority authority scheme).2.
Proof.
  unfold is_u16. intros Hp Hh.
  assert (parse_u16 (show_uint port) = Some port) as Hparse by (apply parse_show_uint; lia).
  assert (":"%byte ∉ show_uint port) as Hcolon by (apply show_uint_no_colon; lia).
  assert (trim_matches is_bracket (Lit "[" ++ h ++ Lit "]") = h) as Hwrap by (by apply trim_matches_wrap).
  split; [|split; [|split; [|split]]]; unfold split_authority.
  - rewrite rsplit_once_app, Hparse by done.
    rewrite bool_decide_eq_false_2 by (by apply plain_not_in). simpl.
    by rewrite trim_matches_none.
  - rewrite (app_assoc h), (app_assoc (Lit "[")), rsplit_once_app, Hparse by done.
    replace (ends_with (Lit "]") (Lit "[" ++ h ++ Lit "]")) with true.
    + by rewrite orb_true_r, Hwrap.
    + unfold ends_with. symmetry. apply bool_decide_eq_true.
      rewrite (app_assoc (Lit "[")), length_app, Nat.add_sub. apply drop_app_length.
  - destruct (rsplit_once _ _) as [[q p]|] eqn:E; [|by rewrite Hwrap].
    apply rsplit_once_Some in E as [E Hp'].
    assert (parse_u16 p = None) as ->; [|by rewrite Hwrap].
    apply (parse_uint_nondigit _ _ "]"%byte); [done|done|].
    assert (list.last (Lit "[" ++ h ++ Lit "]") = Some "]"%byte) as Hlast
      by (rewrite (app_assoc (Lit "[")); apply last_snoc).
    rewrite E in Hlast. destruct p as [|b p] using rev_ind.
    + by rewrite last_snoc in Hlast.
    + rewrite app_comm_cons, app_assoc, last_snoc in Hlast. simplify_eq. apply elem_of_app. right. by left.
  - intros Hc. rewrite rsplit_once_None by done. by rewrite trim_matches_none.
  - intros authority. assert (0 <= (if decide (scheme = Lit "https") then 443 else 80) < 2 ^ 16)
      by (case_decide; lia).
    destruct (rsplit_once _ _) as [[q p]|]; [|done]. destruct (parse_u16 p) as [z|] eqn:Ez; [|done].
    apply (parse_uint_range (2 ^ 16 - 1)) in Ez; [|done]. destruct (_ || _); simpl; [lia|done].
Qed.

Lemma split_authority_spec_witness :
  split_authority (Lit "[::1]:1194") (Lit "https") = (Lit "::1", 1194) ∧
  split_authority (Lit "[" ++ Lit "::1" ++ Lit "]" ++ ":"%byte :: show_uint 1194) (Lit "https") = (Lit "::1", 1194).
Proof.
  split; [vm_compute; reflexivity|].
  apply (split_authority_spec (Lit "::1") 1194 (Lit "https")); [vm_compute; split; congruence|].
  repeat constructor.
Defined.

(** * Domains: properties *)

Definition domain_char (b : byte) : bool :=
  is_alnum b || bool_decide (b = "-"%byte) || bool_decide (b = "."%byte) || bool_decide (b = ":"%byte).

Lemma is_valid_domain_chars d : is_valid_domain d = true →
  Forall (fun b => domain_char b = true) d ∧ d ≠ [] ∧ (length d <= 253)%nat.
Proof.
  unfold is_valid_domain. case_bool_decide as Hne; [done|]. simpl. case_cmp; [done|].
  intros Hd. split; [|by split; [|lia]].
  destruct (is_ip_addr d) eqn:Eip.
  - apply is_ip_addr_chars in Eip. eapply Forall_impl; [exact Eip|]. intros b. simpl.
    unfold ip_char, domain_char. rewrite !orb_true_iff. tauto.
  - case_bool_decide; [|done]. simpl in Hd. rewrite forallb_forall in Hd.
    apply (split_on_Forall _ "."%byte); [done|]. intros part Hp%list_elem_of_In.
    specialize (Hd part Hp). rewrite !andb_true_iff, forallb_forall in Hd.
    destruct Hd as (_ & Hd). apply Forall_forall. intros b Hb%list_elem_of_In.
    specialize (Hd b Hb). unfold domain_char. rewrite !orb_true_iff in *. tauto.
Qed.

Definition clean_head (h : str) : Prop := h ≠ [] ∧ "."%byte ∉ h ∧ ":"%byte ∉ h ∧ "/"%byte ∉ h.

Lemma path_step_Some protocol region rest protocol' region' rest' :
  path_step (protocol, region, rest) = Some (protocol', region', rest') →
  ∃ h, rest = h ++ "/"%byte :: rest' ∧ clean_head h ∧
    ((protocol = None ∧ protocol' = Protocol.parse h ∧ protocol' ≠ None ∧ region' = region) ∨
     (protocol' = protocol ∧ region = None ∧ region' = Some (to_ascii_uppercase h))).
Proof.
  unfold path_step. destruct (split_once "/"%byte rest) as [[h t]|] eqn:E; [|done].
  apply split_once_Some in E as [-> Hh].
  destruct (bool_decide (h = []) || bool_decide ("."%byte ∈ h) || bool_decide (":"%byte ∈ h)) eqn:Eb; [done|].
  rewrite !orb_false_iff, !bool_decide_eq_false in Eb. destruct Eb as [[? ?] ?].
  destruct (if decide (protocol = None) then Protocol.parse h else None) as [p|] eqn:Ep.
  - intros [= <- <- <-]. exists h. split; [done|]. split; [done|]. left.
    case_decide; [|done]. rewrite Ep. by split_and!.
  - destruct (decide (region = None)); [|done]. intros [= <- <- <-]. exists h. split; [done|]. split; [done|]. by right.
Qed.

(** C21: Soundness of the rewrite path. Whatever client text becomes a target has the scheme
    http or https, a syntactically valid host made of letters, digits, hyphens, dots and colons
    only (so no path, credential or query can hide in it), an absolute path, the query of the
    request, and a region that is a non-empty upper-cased path segment without dots or colons. *)
Theorem parse_path_sound p q route target :
  parse_path p q = Some (route, target) →
  (scheme target = Lit "http" ∨ scheme target = Lit "https") ∧
  is_valid_domain (host target) = true ∧
  Forall (fun b => domain_char b = true) (host target) ∧ host target ≠ [] ∧
  (∃ rest, path target = "/"%byte :: rest) ∧ query target = default [] q ∧
  (∀ r, r_region route = Some r → ∃ h, clean_head h ∧ r = to_ascii_uppercase h) ∧
  route ≠ mkRoute (Some []) (r_protocol route).
Proof.
  unfold parse_path. case_decide; [done|].
  destruct (path_loop 2 _) as [[protocol region] rest] eqn:Eloop.
  destruct (take_scheme rest) as [sch rest'] eqn:Es.
  case_decide; [done|].
  match goal with |- (let '(_, _) := ?m in _) = _ → _ => destruct m as [domain pth] eqn:Ed end.
  destruct (is_valid_domain (rsplit_first "@"%byte domain)) eqn:Hv; [|done].
  intros [= <- <-]. cbn [scheme host path query r_region].
  assert (∀ r, region = Some r → ∃ h, clean_head h ∧ r = to_ascii_uppercase h) as Hreg.
  { intros r ->. cbn [path_loop] in Eloop.
    destruct (path_step _) as [[[p1 r1] s1]|] eqn:E1 in Eloop; [|by simplify_eq].
    apply path_step_Some in E1 as (h1 & _ & Hh1 & Hc1).
    destruct (path_step (p1, r1, s1)) as [[[p2 r2] s2]|] eqn:E2; simplify_eq.
    - apply path_step_Some in E2 as (h2 & _ & Hh2 & Hc2).
      destruct Hc1 as [(_ & _ & _ & ->)|(_ & _ & ->)], Hc2 as [(_ & _ & _ & ?)|(_ & ? & ?)]; simplify_eq; eauto.
    - destruct Hc1 as [(_ & _ & _ & ?)|(_ & _ & ?)]; simplify_eq; eauto. }
  split; [|split; [done|]].
  { unfold take_scheme in Es. repeat case_match; simplify_eq; auto. }
  destruct (is_valid_domain_chars _ Hv) as (? & ? & _). split; [done|]. split; [done|].
  split; [|split; [done|split; [exact Hreg|]]].
  - destruct (split_once _ _) as [[d t]|]; simplify_eq; eauto.
  - intros [= ->]. destruct (Hreg [] eq_refl) as ([|b h] & [Hh _] & Hr); done.
Qed.

Lemma parse_path_sound_witness :
  ∃ t, parse_path (Lit "/us/user:pw@example.com/a") None = Some (mkRoute (Some (Lit "US")) None, t) ∧
       is_valid_domain (host t) = true ∧ host t = Lit "example.com".
Proof.
  eexists. split; [vm_compute; reflexivity|]. split; [|reflexivity].
  apply (parse_path_sound (Lit "/us/user:pw@example.com/a") None (mkRoute (Some (Lit "US")) None)).
  vm_compute. reflexivity.
Defined.

(** * Building a rewrite path *)

Definition build_path (route : Route) (t : Target) : str :=
  Lit "/" ++ (match r_protocol route with Some p => Protocol.as_str p ++ Lit "/" | None => [] end)
  ++ (match r_region route with Some r => r ++ Lit "/" | None => [] end)
  ++ scheme t ++ Lit "://" ++ host t ++ path t.

Lemma path_step_head protocol region h tail :
  clean_head h →
  path_step (protocol, region, h ++ Lit "/" ++ tail)
  = match (if decide (protocol = None) then Protocol.parse h else None) with
    | Some p => Some (Some p, region, tail)
    | None => if decide (region = None) then Some (protocol, Some (to_ascii_uppercase h), tail) else None
    end.
Proof.
  intros (H1 & H2 & H3 & H4). change (Lit "/" ++ tail) with ("/"%byte :: tail).
  unfold path_step. rewrite split_once_app by done.
  by rewrite !bool_decide_eq_false_2.
Qed.

Lemma path_step_scheme protocol region sch tail : sch = Lit "http" ∨ sch = Lit "https" →
  path_step (protocol, region, sch ++ Lit "://" ++ tail) = None.
Proof.
  intros Hs. unfold path_step. change (Lit "://" ++ tail) with ([":"%byte] ++ "/"%byte :: "/"%byte :: tail).
  rewrite app_assoc, split_once_app.
  - rewrite (bool_decide_eq_true_2 (":"%byte ∈ _)); [by rewrite orb_true_r|].
    apply elem_of_app. right. by left.
  - destruct Hs as [-> | ->]; apply (bool_decide_eq_true_1 _); vm_compute; reflexivity.
Qed.

Lemma take_scheme_app sch tail : sch = Lit "http" ∨ sch = Lit "https" →
  take_scheme (sch ++ Lit "://" ++ tail) = (sch, tail).
Proof. by intros [-> | ->]. Qed.

Definition region_name (r : str) : Prop := clean_head r ∧ to_ascii_uppercase r = r ∧ Protocol.parse r = None.

Lemma protocol_parse_show p : Protocol.parse (Protocol.as_str p) = Some p.
Proof. by destruct p. Qed.
Lemma protocol_clean p : clean_head (Protocol.as_str p).
Proof. destruct p; split_and!; try done; apply (bool_decide_eq_true_1 _); vm_compute; reflexivity. Qed.

Lemma path_loop_build route sch tail :
  (sch = Lit "http" ∨ sch = Lit "https") → (∀ r, r_region route = Some r → region_name r) →
  path_loop 2 (None, None,
    (match r_protocol route with Some p => Protocol.as_str p ++ Lit "/" | None => [] end)
    ++ (match r_region route with Some r => r ++ Lit "/" | None => [] end) ++ sch ++ Lit "://" ++ tail)
  = (r_protocol route, r_region route, sch ++ Lit "://" ++ tail).
Proof.
  intros Hs Hr. destruct route as [[r|] [p|]]; cbn [r_region r_protocol] in *; rewrite <- ?app_assoc; cbn [path_loop].
  - destruct (Hr r eq_refl) as (Hc & Hu & Hp).
    rewrite path_step_head by apply protocol_clean. rewrite decide_True, protocol_parse_show by done.
    rewrite path_step_head by done. simpl. by rewrite Hu.
  - destruct (Hr r eq_refl) as (Hc & Hu & Hp). cbn [app].
    rewrite path_step_head by done. rewrite decide_True by done. rewrite Hp, Hu, decide_True by done.
    cbv beta match. by rewrite path_step_scheme.
  - cbn [app]. rewrite path_step_head by apply protocol_clean.
    rewrite decide_True, protocol_parse_show by done. by rewrite path_step_scheme.
  - cbn [app]. by rewrite path_step_scheme.
Qed.

Lemma domain_chars_no d b : Forall (fun b => domain_char b = true) d → domain_char b = false → b ∉ d.
Proof. intros Hd Hb Hin. rewrite Forall_forall in Hd. specialize (Hd b Hin). congruence. Qed.

Lemma trim_start_matches_head c b l : b ≠ c → trim_start_matches c (b :: l) = b :: l.
Proof. intros H. unfold trim_start_matches. simpl. by rewrite bool_decide_eq_false_2. Qed.

(** C22: Completeness of the rewrite path. Every route (protocol and region both optional) and
    every target with a valid host is reachable: the path that spells them out parses back to
    exactly that route and target. *)
Theorem parse_path_complete route t rest :
  (scheme t = Lit "http" ∨ scheme t = Lit "https") → is_valid_domain (host t) = true →
  path t = "/"%byte :: rest → (∀ r, r_region route = Some r → region_name r) →
  parse_path (build_path route t) (Some (query t)) = Some (route, t).
Proof.
  intros Hs Hv Hp Hr. destruct (is_valid_domain_chars _ Hv) as (Hchars & Hne & _).
  assert (∃ b tail, (match r_protocol route with Some p => Protocol.as_str p ++ Lit "/" | None => [] end)
    ++ (match r_region route with Some r => r ++ Lit "/" | None => [] end)
    ++ scheme t ++ Lit "://" ++ host t ++ path t = b :: tail ∧ b ≠ "/"%byte) as (b & tail & Hb & Hbs).
  { destruct route as [[r|] [p|]]; cbn [r_region r_protocol] in *.
    - destruct p; simpl; eexists _, _; (split; [reflexivity|done]).
    - destruct (Hr r eq_refl) as ((Hc & _ & _ & Hsl) & _). destruct r as [|b r]; [done|].
      simpl. eexists _, _. split; [reflexivity|]. intros ->. apply Hsl. by left.
    - destruct p; simpl; eexists _, _; (split; [reflexivity|done]).
    - destruct Hs as [-> | ->]; simpl; eexists _, _; (split; [reflexivity|done]). }
  unfold parse_path.
  assert (trim_start_matches "/"%byte (build_path route t) = b :: tail) as ->.
  { unfold build_path. rewrite Hb. change (Lit "/" ++ b :: tail) with ("/"%byte :: b :: tail).
    unfold trim_start_matches. cbn [drop_while]. rewrite bool_decide_eq_true_2 by done.
    by apply trim_start_matches_head. }
  rewrite decide_False by done. rewrite <- Hb, (path_loop_build _ _ _ Hs Hr), take_scheme_app by done.
  assert (trim_start_matches "/"%byte (host t ++ path t) = host t ++ path t) as ->.
  { destruct (host t) as [|c d] eqn:Eh; [done|]. apply trim_start_matches_head.
    intros ->. apply (domain_chars_no _ "/"%byte Hchars); [done|by left]. }
  rewrite decide_False by (intros Happ; by apply app_nil in Happ as [? _]).
  rewrite Hp, split_once_app by (by apply (domain_chars_no _ _ Hchars)).
  assert (rsplit_first "@"%byte (host t) = host t) as ->.
  { unfold rsplit_first. by rewrite rsplit_once_None by (by apply (domain_chars_no _ _ Hchars)). }
  rewrite Hv. simpl. rewrite <- Hp. by destruct route, t.
Qed.

Lemma parse_path_complete_witness :
  parse_path (build_path (mkRoute (Some (Lit "CA")) (Some Vpn))
                         (mkTarget (Lit "http") (Lit "a-1.example.org") (Lit "/x/y") (Lit "k=v"))) (Some (Lit "k=v"))
  = Some (mkRoute (Some (Lit "CA")) (Some Vpn),
          mkTarget (Lit "http") (Lit "a-1.example.org") (Lit "/x/y") (Lit "k=v")).
Proof.
  apply (parse_path_complete (mkRoute (Some (Lit "CA")) (Some Vpn))
           (mkTarget (Lit "http") (Lit "a-1.example.org") (Lit "/x/y") (Lit "k=v")) (Lit "x/y"));
    [left; reflexivity|vm_compute; reflexivity|reflexivity|].
  intros r [= <-]. split; [|split; vm_compute; reflexivity].
  split_and!; try discriminate; apply (bool_decide_eq_true_1 _); vm_compute; reflexivity.
Defined.

(** * A toy header map: an association list with lower-case names *)

#[export] Instance toy_headers : HeaderLib := {|
  HeaderMap := list (str * str);
  HeaderValue := str;
  hm_get m n := snd <$> head (filter (fun kv => kv.1 = n) m);
  hm_remove m n := filter (fun kv => kv.1 ≠ n) m;
  hm_insert m n v := (n, v) :: filter (fun kv => kv.1 ≠ n) m;
  hv_to_str v := Some v;
  hv_from_str v := Some v;
  base64_decode v := if decide (v = Lit "c2c6cHc=") then Some (Lit "sg:pw") else None
|}.

Lemma toy_get_remove (m : list (str * str)) n n' :
  head (filter (fun kv => kv.1 = n') (filter (fun kv => kv.1 ≠ n) m))
  = if decide (n = n') then None else head (filter (fun kv => kv.1 = n') m).
Proof.
  rewrite list_filter_filter. case_decide as Hn.
  - subst n'. induction m as [|kv m IH]; [done|]. rewrite filter_cons, decide_False; [exact IH|tauto].
  - f_equal. apply list_filter_iff. intros [k v]. simpl. split; [tauto|]. intros ->. by split.
Qed.

#[export] Instance toy_headers_laws : HeaderLaws toy_headers.
Proof.
  split; intros m n.
  - intros n'. transitivity (snd <$> (if decide (n = n') then None else head (filter (fun kv : str * str => kv.1 = n') m))).
    + exact (f_equal (fmap snd) (toy_get_remove m n n')).
    + by case_decide.
  - intros v n'. destruct (decide (n = n')) as [->|Hne].
    + simpl. by rewrite filter_cons_True.
    + transitivity (snd <$> (if decide (n = n') then None else head (filter (fun kv : str * str => kv.1 = n') m))).
      * rewrite <- toy_get_remove. simpl. by rewrite filter_cons_False.
      * by rewrite decide_False.
Qed.

Lemma auth_username_spec_witness :
  auth_username (H:=toy_headers) [(Lit "authorization", Lit "Basic x"); (Lit "proxy-authorization", Lit "Basic c2c6cHc=")]
  = Lit "sg".
Proof.
  apply (proj1 (auth_username_spec (H:=toy_headers)
    [(Lit "authorization", Lit "Basic x"); (Lit "proxy-authorization", Lit "Basic c2c6cHc=")]
    (Lit "Basic c2c6cHc=") (Lit "Basic c2c6cHc=") (Lit "sg") (Lit "pw") (Lit "c2c6cHc=") eq_refl eq_refl));
    [reflexivity|vm_compute; reflexivity|vm_compute; reflexivity| |].
  - repeat constructor.
  - apply (bool_decide_eq_true_1 _). vm_compute. reflexivity.
Defined.

Definition toy_request_headers : HeaderMap (HeaderLib:=toy_headers) :=
  [(Lit "te", Lit "gzip"); (Lit "accept", Lit "*/*"); (Lit "x-real-ip", Lit "1.2.3.4")].
Lemma stripped_headers_witness :
  hm_get (HeaderLib:=toy_headers) (strip_hop_headers (strip_client_headers toy_request_headers)) (Lit "accept")
  = Some (Lit "*/*").
Proof.
  rewrite (stripped_headers toy_request_headers (Lit "accept")). vm_compute. reflexivity.
Defined.
