(* ===== verification/Exit.v ===== *)
(** proxy/exit.rs: the cache of exit addresses, over the [lru] crate's map. *)
From S2P Require Import Prelude Text.

Definition EXIT_CACHE_ENTRIES : nat := Z.to_nat 4096.

Record Exit := mkExit { ip : str; region : str; protocol : str }.
Definition exit_default : Exit := mkExit [] [] [].
Definition is_empty (e : Exit) : bool := bool_decide (ip e = []).

(** The [lru] crate and [str::to_lowercase], which on ASCII text is ASCII lower-casing. *)
Class LruLib := {
  LruCache : Type → Type;
  lru_new {V} : nat → LruCache V;
  lru_put {V} : LruCache V → str → V → LruCache V;
  lru_peek {V} : LruCache V → str → option V;
  lru_get {V} : LruCache V → str → option V * LruCache V;  (* marks the entry as recently used *)
  to_lowercase : str → str
}.

(** Documented behaviour: a put entry is present, a put never invents or changes another entry,
    a get returns what a peek does and changes no entry, and a new cache is empty. *)
Class LruLaws (L : LruLib) := {
  lru_peek_new {V} n k : lru_peek (V:=V) (lru_new n) k = None;
  lru_peek_put {V} (c : LruCache V) k v : lru_peek (lru_put c k v) k = Some v;
  lru_peek_put_ne {V} (c : LruCache V) k k' v e :
    k ≠ k' → lru_peek (lru_put c k v) k' = Some e → lru_peek c k' = Some e;
  lru_get_peek {V} (c : LruCache V) k : (lru_get c k).1 = lru_peek c k;
  lru_peek_get {V} (c : LruCache V) k k' : lru_peek (lru_get c k).2 k' = lru_peek c k';
  to_lowercase_ascii l : Forall (fun b => b2z b < 128) l → to_lowercase l = to_ascii_lowercase l
}.

Section Exit.
Context {L : LruLib}.

Definition ExitCache : Type := LruCache Exit.
Definition exit_cache_default : ExitCache := lru_new EXIT_CACHE_ENTRIES.

Definition record (c : ExitCache) (host : str) (e : Exit) : ExitCache :=
  if is_empty e then c else lru_put c (to_lowercase host) e.

Definition get (c : ExitCache) (host : str) : option Exit := lru_peek c (to_lowercase host).

(** A run of [record]s. *)
Definition record_all (c : ExitCache) (es : list (str * Exit)) : ExitCache :=
  foldl (fun c p => record c p.1 p.2) c es.

Context {Laws : LruLaws L}.

Lemma get_record c h e h' x : get (record c h e) h' = Some x →
  get c h' = Some x ∨ to_lowercase h = to_lowercase h' ∧ x = e ∧ is_empty e = false.
Proof using Laws.
  unfold get, record. destruct (is_empty e) eqn:Ee; [by left|].
  destruct (decide (to_lowercase h = to_lowercase h')) as [Heq|Hne].
  - rewrite <- Heq, lru_peek_put. intros [= ->]. by right.
  - intros Hx. left. by eapply lru_peek_put_ne.
Qed.

(** The last non-empty exit recorded for a host. *)
Definition last_recorded (h : str) (es : list (str * Exit)) : option Exit :=
  list.last (snd <$> filter (fun p => to_lowercase p.1 = to_lowercase h ∧ is_empty p.2 = false) es).

(** The exit cache never lies. Whatever was recorded and evicted, a hit is the last
    non-empty exit recorded for that host under any capitalisation; and the exit recorded last
    is always hit. *)
Theorem exit_cache_sound es h e :
  (get (record_all exit_cache_default es) h = Some e → last_recorded h es = Some e) ∧
  (is_empty e = false → get (record (record_all exit_cache_default es) h e) h = Some e) ∧
  (Forall (fun b => b2z b < 128) h →
     get (record_all exit_cache_default es) (to_ascii_uppercase h) = get (record_all exit_cache_default es) h).
Proof using Laws.
  split; [|split].
  - induction es as [|[h0 e0] es IH] using rev_ind.
    + unfold record_all, get, exit_cache_default. simpl. by rewrite lru_peek_new.
    + unfold record_all, last_recorded. rewrite foldl_app. simpl. rewrite filter_app, fmap_app.
      rewrite filter_cons, filter_nil. cbn [fst snd].
      destruct (decide (to_lowercase h0 = to_lowercase h ∧ is_empty e0 = false)) as [[Hh He]|Hno].
      * intros Hg. unfold get, record in Hg. rewrite He, Hh, lru_peek_put in Hg. simplify_eq.
        apply last_snoc.
      * intros [Hg|(H1 & -> & H2)]%get_record; [|by destruct Hno].
        simpl. rewrite app_nil_r. by apply IH.
  - intros He. unfold get, record. by rewrite He, lru_peek_put.
  - intros Hh. unfold get. rewrite !to_lowercase_ascii; [|done|].
    + f_equal. unfold to_ascii_lowercase, to_ascii_uppercase. rewrite map_map. apply map_ext, lower_upper.
    + unfold to_ascii_uppercase. apply Forall_fmap. eapply Forall_impl; [exact Hh|]. clear.
      intros b. unfold compose. destruct b; (vm_compute; done).
Qed.
End Exit.

(** * A toy cache that never evicts *)

#[export] Instance toy_lru : LruLib := {|
  LruCache V := list (str * V);
  lru_new V _ := [];
  lru_put V c k v := (k, v) :: c;
  lru_peek V c k := snd <$> head (filter (fun p => p.1 = k) c);
  lru_get V c k := (snd <$> head (filter (fun p => p.1 = k) c), c);
  to_lowercase := to_ascii_lowercase
|}.
#[export] Instance toy_lru_laws : LruLaws toy_lru.
Proof.
  split; [done| | |done|done|done].
  - intros V c k v. simpl. by rewrite filter_cons_True.
  - intros V c k k' v e Hne. simpl. by rewrite filter_cons_False.
Qed.

Definition toy_exits : list (str * Exit) :=
  [(Lit "A.com", mkExit (Lit "1.1.1.1") (Lit "US") (Lit "ssh")); (Lit "a.COM", exit_default);
   (Lit "a.com", mkExit (Lit "2.2.2.2") (Lit "CA") (Lit "vpn"))].
Lemma exit_cache_sound_witness :
  last_recorded (L:=toy_lru) (Lit "A.COM") toy_exits = Some (mkExit (Lit "2.2.2.2") (Lit "CA") (Lit "vpn")).
Proof.
  apply (exit_cache_sound (L:=toy_lru) toy_exits). vm_compute. reflexivity.
Defined.
