(* ===== verification/Routing.v ===== *)
(** The routing tables of proxy/server.rs: regions with a variant per protocol and a merged pool,
    the per-protocol routes and the default route, over the shared pool store. *)
From S2P Require Import Prelude Text Sorting Pool.

Section Routing.
Context {T F : Type} {TT : Tunnel T}.

Abbreviation Store := (gmap nat (ProxyPool (T:=T))).
Abbreviation M A := (SE Store Empty_set A).

(** [F] is [Arc<dyn Forward>]. *)
Record Variant := mkVariant { v_protocol : Protocol; v_pool : nat; v_forward : option F }.
Record Region := mkRegion { name : str; username : str; variants : list Variant; merged : nat }.

Definition has_protocol (p : Protocol) (v : Variant) : Prop := v_protocol v = p.
#[local] Instance has_protocol_dec p v : Decision (has_protocol p v).
Proof. unfold has_protocol. apply _. Defined.
Definition find_variant (p : Protocol) (vs : list Variant) : option Variant :=
  head (filter (has_protocol p) vs).

Definition Region_new (name username : str) : M Region :=
  m ← Pool.new []; mret (mkRegion name username [] m).

(** The variants after [add]: an existing variant only gains a missing forward. *)
Fixpoint Region_add_variant (vs : list Variant) (p : Protocol) (pool : nat) (forward : option F) : list Variant :=
  match vs with
  | [] => [mkVariant p pool forward]
  | v :: vs => if decide (has_protocol p v)
               then match v_forward v with
                    | None => mkVariant (v_protocol v) (v_pool v) forward
                    | Some _ => v
                    end :: vs
               else v :: Region_add_variant vs p pool forward
  end.

Definition Region_add (r : Region) (p : Protocol) (pool : nat) (forward : option F) : M Region :=
  add_child (merged r) pool;;
  mret (mkRegion (name r) (username r) (Region_add_variant (variants r) p pool forward) (merged r)).

Definition Region_pool (r : Region) (p : option Protocol) : M nat :=
  match p with
  | Some wanted => match find_variant wanted (variants r) with
                   | Some v => mret (v_pool v)
                   | None => Pool.new []
                   end
  | None => mret (merged r)
  end.

Definition Region_forward (r : Region) (p : option Protocol) : option F :=
  match p with
  | Some wanted => find_variant wanted (variants r) ≫= v_forward
  | None => (match find_variant Ssh (variants r) with Some v => Some v | None => head (variants r) end)
            ≫= v_forward
  end.

Definition Region_protocols (r : Region) : list Protocol := v_protocol <$> variants r.

Record PoolStat := mkStat { s_name : str; s_protocols : list Protocol; s_proxies : nat; s_tunnels : nat; s_usable : nat }.

(** [Proxy], without its exit cache. *)
Record Proxy := mkRoutes {
  default_pool : nat;
  default_forward : option F;
  protocol_pools : list (Protocol * nat);
  protocol_forwards : list (Protocol * F);
  regions : list Region
}.

Definition Proxy_new (pool : nat) (forward : option F) : Proxy := mkRoutes pool forward [] [] [].

Definition set_protocol_route (x : Proxy) (p : Protocol) (pool : nat) (forward : F) : Proxy :=
  mkRoutes (default_pool x) (default_forward x)
    (filter (fun e => e.1 ≠ p) (protocol_pools x) ++ [(p, pool)])
    (filter (fun e => e.1 ≠ p) (protocol_forwards x) ++ [(p, forward)]) (regions x).

Definition named (u : str) (r : Region) : bool := eq_ignore_ascii_case (username r) u.

(** The [for protocol in region.protocols()] loop of [add_region]. *)
Definition merge_into (existing r : Region) : M Region :=
  fold_m (fun e p => pool ← Region_pool r (Some p);
                     Region_add e p pool (Region_forward r (Some p)))
         existing (Region_protocols r).

Fixpoint add_region_to (rs : list Region) (r : Region) : M (list Region) :=
  match rs with
  | [] => mret [r]
  | e :: rs => if named (username r) e then e' ← merge_into e r; mret (e' :: rs)
               else rs' ← add_region_to rs r; mret (e :: rs')
  end.
Definition add_region (x : Proxy) (r : Region) : M Proxy :=
  rs ← add_region_to (regions x) r;
  mret (mkRoutes (default_pool x) (default_forward x) (protocol_pools x) (protocol_forwards x) rs).

Definition region (x : Proxy) (u : str) : option Region :=
  if decide (u = []) then None else head (filter (fun r => named u r) (regions x)).

Definition assoc {A} (p : Protocol) (l : list (Protocol * A)) : option A :=
  snd <$> head (filter (fun e => e.1 = p) l).

Definition forward_for (x : Proxy) (u : str) (p : option Protocol) : option F :=
  match region x u ≫= fun r => Region_forward r p with
  | Some f => Some f
  | None => match p with
            | Some p => assoc p (protocol_forwards x)
            | None => default_forward x
            end
  end.

Definition pool_for (x : Proxy) (u : str) (p : option Protocol) : M nat :=
  match region x u with
  | Some r => Region_pool r p
  | None => match p with
            | Some p => match assoc p (protocol_pools x) with
                        | Some pool => mret pool
                        | None => Pool.new []
                        end
            | None => mret (default_pool x)
            end
  end.

Definition region_stat (fuel : nat) (r : Region) : M PoolStat :=
  pool ← Region_pool r None;
  n ← count fuel pool; t ← tunnel_count fuel pool; u ← usable_count fuel pool;
  mret (mkStat (name r) (Region_protocols r) n t u).

Fixpoint region_stats (fuel : nat) (rs : list Region) : M (list PoolStat) :=
  match rs with
  | [] => mret []
  | r :: rs => s ← region_stat fuel r; ss ← region_stats fuel rs; mret (s :: ss)
  end.
Definition stats (fuel : nat) (x : Proxy) : M (list PoolStat) := region_stats fuel (regions x).

(** * Properties *)

(** The pool graph of the tables: pools of variants are leaves, merged pools are one above, so
    two levels of fuel are enough everywhere. *)
Record wf_region (rank : nat → nat) (s : Store) (r : Region) : Prop := {
  wr_merged : is_Some (s !! merged r) ∧ rank (merged r) = 1%nat;
  wr_protocols : NoDup (v_protocol <$> variants r);
  wr_pools v : v ∈ variants r → is_Some (s !! v_pool v) ∧ rank (v_pool v) = 0%nat ∧ child_of s (merged r) (v_pool v)
}.

Record wf_proxy (rank : nat → nat) (s : Store) (x : Proxy) : Prop := {
  wp_store : wf_store rank s;
  wp_regions r : r ∈ regions x → wf_region rank s r;
  wp_names : NoDup (to_ascii_uppercase ∘ username <$> regions x)
}.

Lemma find_variant_Some p vs v : find_variant p vs = Some v → v ∈ vs ∧ v_protocol v = p.
Proof.
  unfold find_variant. intros H. assert (v ∈ filter (has_protocol p) vs) as Hv.
  { destruct (filter _ vs); simplify_eq/=. by left. }
  by apply list_elem_of_filter in Hv as [? ?].
Qed.

Lemma find_variant_is_Some p vs : is_Some (find_variant p vs) ↔ p ∈ v_protocol <$> vs.
Proof.
  unfold find_variant. split.
  - intros [v Hv]. destruct (find_variant_Some p vs v Hv) as [? <-]. apply list_elem_of_fmap. eauto.
  - intros (v & -> & Hv)%list_elem_of_fmap.
    assert (v ∈ filter (has_protocol (v_protocol v)) vs) as Hf by (by apply list_elem_of_filter).
    destruct (filter _ vs); [by apply elem_of_nil in Hf|]. eauto.
Qed.

Lemma add_variant_protocols vs p pool f q :
  q ∈ v_protocol <$> Region_add_variant vs p pool f ↔ q = p ∨ q ∈ v_protocol <$> vs.
Proof.
  induction vs as [|v vs IH]; simpl; [set_solver|].
  case_decide as Hv; unfold has_protocol in Hv.
  - rewrite !fmap_cons, !elem_of_cons. destruct (v_forward v); simpl; naive_solver.
  - rewrite !fmap_cons, !elem_of_cons, IH. naive_solver.
Qed.

Lemma add_variant_nodup vs p pool f :
  NoDup (v_protocol <$> vs) → NoDup (v_protocol <$> Region_add_variant vs p pool f).
Proof.
  induction vs as [|v vs IH]; intros H; simpl.
  - apply NoDup_singleton.
  - rewrite fmap_cons in H. apply NoDup_cons in H as [H1 H2]. case_decide as Hv.
    + rewrite fmap_cons. apply NoDup_cons. split; [|done]. by destruct (v_forward v).
    + rewrite fmap_cons. apply NoDup_cons. split; [|by apply IH].
      rewrite add_variant_protocols. unfold has_protocol in Hv. naive_solver.
Qed.

Lemma add_variant_elem vs p pool f v : v ∈ Region_add_variant vs p pool f →
  v_pool v = pool ∨ ∃ v', v' ∈ vs ∧ v_pool v' = v_pool v.
Proof.
  induction vs as [|w vs IH]; simpl.
  - intros [->|H]%elem_of_cons; [by left|by apply elem_of_nil in H].
  - case_decide.
    + intros [->|H']%elem_of_cons; right; [|exists v; by split; [right|]].
      exists w. split; [by left|]. by destruct (v_forward w).
    + intros [->|H']%elem_of_cons; [right; exists w; by split; [left|]|].
      destruct (IH H') as [?|(v' & ? & ?)]; [by left|right; exists v'; by split; [right|]].
Qed.

(** What adding to a region does to the store: the merged pool may gain a child. *)
Definition grows (s s' : Store) : Prop :=
  ∀ id p, s !! id = Some p → ∃ p', s' !! id = Some p' ∧ proxies p' = proxies p ∧ ∀ c, c ∈ children p → c ∈ children p'.

#[local] Instance grows_preorder : PreOrder grows.
Proof.
  split; [intros s id p H; eauto|].
  intros s1 s2 s3 H1 H2 id p Hp. destruct (H1 id p Hp) as (p' & Hp' & E1 & C1).
  destruct (H2 id p' Hp') as (p'' & Hp'' & E2 & C2). exists p''. rewrite E2. eauto.
Qed.

Lemma grows_child s s' p c : grows s s' → child_of s p c → child_of s' p c.
Proof. intros H (q & Hq & Hc). destruct (H p q Hq) as (q' & ? & _ & ?). exists q'. eauto. Qed.

Lemma grows_region rank s s' r : grows s s' → wf_region rank s r → wf_region rank s' r.
Proof.
  intros H [[[m Hm] Hr] H2 H3]. split; [|done|].
  - destruct (H _ _ Hm) as (m' & ? & _). eauto.
  - intros v Hv. destruct (H3 v Hv) as ([p Hp] & ? & ?). destruct (H _ _ Hp) as (p' & ? & _).
    split; [eauto|]. split; [done|]. by eapply grows_child.
Qed.

Lemma add_child_spec rank s id p c : wf_store rank s → s !! id = Some p → is_Some (s !! c) →
  (rank c < rank id)%nat →
  ∃ s', add_child id c s = (Ok (), s') ∧ wf_store rank s' ∧ grows s s' ∧ child_of s' id c.
Proof.
  intros W Hp Hc Hr. unfold add_child, mbind, se_bind. rewrite (get_pool_ok _ _ _ Hp). case_decide as Hin.
  - exists s. split; [done|]. split; [done|]. split; [done|]. by exists p.
  - eexists. split; [done|]. split; [|split].
    + apply (wf_update rank s id p); simpl; [done|done|by eapply wf_keys| |].
      * apply NoDup_app. split; [by eapply wf_children|]. split; [|apply NoDup_singleton].
        intros k Hk [->|Hn]%elem_of_cons; [done|by apply elem_of_nil in Hn].
      * intros k [?|[->|Hn]%elem_of_cons]%elem_of_app; [by left|by right|by apply elem_of_nil in Hn].
    + intros i q Hq. destruct (decide (i = id)) as [->|Hne].
      * rewrite lookup_insert_eq. eexists. split; [done|]. simplify_eq. split; [done|].
        intros k Hk. simpl. apply elem_of_app. by left.
      * rewrite lookup_insert_ne by done. eauto.
    + eexists. split; [apply lookup_insert_eq|]. simpl. apply elem_of_app. right. by left.
Qed.

Lemma region_add_spec rank s r p pool f :
  wf_store rank s → wf_region rank s r → is_Some (s !! pool) → rank pool = 0%nat →
  ∃ r' s', Region_add r p pool f s = (Ok r', s') ∧ wf_store rank s' ∧ wf_region rank s' r' ∧ grows s s' ∧
    name r' = name r ∧ username r' = username r ∧ merged r' = merged r ∧ child_of s' (merged r) pool ∧
    (∀ q, q ∈ Region_protocols r' ↔ q = p ∨ q ∈ Region_protocols r).
Proof.
  intros W Wr Hpool Hrank. pose proof Wr as [[[m Hm] Hmr] Hprot Hpools].
  destruct (add_child_spec rank s (merged r) m pool W Hm Hpool) as (s' & Hadd & W' & Hg & Hc); [lia|].
  eexists _, s'. unfold Region_add. unfold mbind, se_bind. rewrite Hadd.
  split; [done|]. split; [done|]. split; [|split; [done|]].
  - pose proof (grows_region _ _ _ _ Hg Wr) as [G1 G2 G3]. split; simpl; [done|by apply add_variant_nodup|].
    intros v Hv. destruct (add_variant_elem _ _ _ _ _ Hv) as [->|(v' & Hv' & <-)]; [|by apply G3].
    destruct Hpool as [pp Hpp]. destruct (Hg _ _ Hpp) as (pp' & ? & _). split; [eauto|done].
  - do 4 (split; [done|]). intros q. apply add_variant_protocols.
Qed.

Lemma find_variant_unique vs v : NoDup (v_protocol <$> vs) → v ∈ vs → find_variant (v_protocol v) vs = Some v.
Proof.
  intros Hnd Hv. destruct (proj2 (find_variant_is_Some (v_protocol v) vs)) as [w Hw];
    [apply list_elem_of_fmap; eauto|].
  rewrite Hw. f_equal. apply find_variant_Some in Hw as [Hin Hp].
  apply list_elem_of_lookup in Hin as [i Hi], Hv as [j Hj].
  assert (i = j) as ->.
  { apply (NoDup_lookup (v_protocol <$> vs) i j (v_protocol v) Hnd); rewrite list_lookup_fmap.
    - by rewrite Hi, <- Hp.
    - by rewrite Hj. }
  congruence.
Qed.

(** Merging one region into another, protocol by protocol. *)
Lemma merge_loop_spec rank s e r ps :
  wf_store rank s → wf_region rank s e → wf_region rank s r → (∀ p, p ∈ ps → p ∈ Region_protocols r) →
  ∃ e' s', fold_m (fun e p => pool ← Region_pool r (Some p);
                     Region_add e p pool (Region_forward r (Some p))) e ps s = (Ok e', s') ∧
    wf_store rank s' ∧ wf_region rank s' e' ∧ grows s s' ∧
    name e' = name e ∧ username e' = username e ∧ merged e' = merged e ∧
    (∀ q, q ∈ Region_protocols e' ↔ q ∈ ps ∨ q ∈ Region_protocols e) ∧
    (∀ v, v ∈ variants r → v_protocol v ∈ ps → child_of s' (merged e) (v_pool v)).
Proof.
  revert s e. induction ps as [|p ps IH]; intros s e W We Wr Hps.
  - exists e, s. split; [done|]. do 6 (split; [done|]). split; [set_solver|].
    intros v _ Hv. by apply elem_of_nil in Hv.
  - destruct (proj2 (find_variant_is_Some p (variants r))) as [w Hw]; [apply Hps; by left|].
    pose proof (find_variant_Some _ _ _ Hw) as [Hwin Hwp].
    destruct (wr_pools _ _ _ Wr w Hwin) as (Hex & Hrk & _).
    destruct (region_add_spec rank s e p (v_pool w) (Region_forward r (Some p)) W We Hex Hrk)
      as (e1 & s1 & H1 & W1 & We1 & G1 & N1 & U1 & M1 & C1 & P1).
    destruct (IH s1 e1 W1 We1) as (e2 & s2 & H2 & W2 & We2 & G2 & N2 & U2 & M2 & P2 & C2).
    { by eapply grows_region. }
    { intros q Hq. apply Hps. by right. }
    exists e2, s2. split.
    { cbn [fold_m]. unfold mbind at 1, se_bind at 1. unfold Region_pool at 1. rewrite Hw.
      unfold mbind at 1, se_bind at 1. unfold mret, se_ret. rewrite H1. exact H2. }
    split; [done|]. split; [done|]. split; [by etrans|].
    do 3 (split; [congruence|]). split.
    { intros q. rewrite P2, P1, elem_of_cons. tauto. }
    intros v Hv [Hvp|Hvp]%elem_of_cons.
    + assert (v = w) as ->.
      { pose proof (find_variant_unique _ _ (wr_protocols _ _ _ Wr) Hv). congruence. }
      by eapply grows_child.
    + rewrite <- M1. by apply C2.
Qed.

Lemma named_upper u r : named u r = true ↔ to_ascii_uppercase (username r) = to_ascii_uppercase u.
Proof. apply eq_ignore_case_upper. Qed.

Lemma add_region_to_spec rank s rs r :
  wf_store rank s → (∀ r, r ∈ rs → wf_region rank s r) → wf_region rank s r →
  ∃ rs' s' e, add_region_to rs r s = (Ok rs', s') ∧ wf_store rank s' ∧ grows s s' ∧
    (∀ r, r ∈ rs' → wf_region rank s' r) ∧
    e ∈ rs' ∧ named (username r) e = true ∧
    (∀ q, q ∈ Region_protocols r → q ∈ Region_protocols e) ∧
    (∀ v, v ∈ variants r → child_of s' (merged e) (v_pool v)) ∧
    (∀ r0, r0 ∈ rs → ∃ r1, r1 ∈ rs' ∧ name r1 = name r0 ∧ username r1 = username r0 ∧ merged r1 = merged r0 ∧
       ∀ q, q ∈ Region_protocols r0 → q ∈ Region_protocols r1) ∧
    (username <$> rs') = (if decide (to_ascii_uppercase (username r) ∈ (to_ascii_uppercase ∘ username <$> rs))
                          then username <$> rs else (username <$> rs) ++ [username r]).
Proof.
  revert s. induction rs as [|e rs IH]; intros s W Hrs Wr.
  - exists [r], s, r. split; [done|]. split; [done|]. split; [done|]. split.
    { intros r' [->|Hn]%elem_of_cons; [done|by apply elem_of_nil in Hn]. }
    split; [by left|]. split; [by apply named_upper|]. split; [done|]. split.
    { intros v Hv. by apply (wr_pools _ _ _ Wr). }
    split; [intros r0 Hn; by apply elem_of_nil in Hn|].
    rewrite decide_False; [done|apply not_elem_of_nil].
  - cbn [add_region_to]. rewrite !fmap_cons. destruct (named (username r) e) eqn:En.
    + destruct (merge_loop_spec rank s e r (Region_protocols r)) as (e' & s' & Hm & W' & We' & G & N & U & Mg & P & C);
        [done|by apply Hrs; left|done|done|].
      exists (e' :: rs), s', e'. split.
      { unfold mbind, se_bind. fold (merge_into e r). unfold merge_into at 1. by rewrite Hm. }
      split; [done|]. split; [done|]. split.
      { intros r' [->|Hr']%elem_of_cons; [done|]. eapply grows_region; [done|]. apply Hrs. by right. }
      split; [by left|]. split; [by rewrite named_upper, U, <- named_upper|]. split.
      { intros q Hq. apply P. by left. }
      split.
      { intros v Hv. rewrite Mg. apply C; [done|]. apply list_elem_of_fmap. eauto. }
      split.
      { intros r0 [->|Hr0]%elem_of_cons.
        - exists e'. split; [by left|]. do 3 (split; [done|]). intros q Hq. apply P. by right.
        - exists r0. split; [by right|]. done. }
      rewrite decide_True; [by rewrite fmap_cons, U|]. apply named_upper in En. simpl. rewrite En. by left.
    + destruct (IH s W) as (rs' & s' & e' & Ha & W' & G & Wrs & Hin & Hn & P & C & K & U);
        [intros; apply Hrs; by right|done|].
      exists (e :: rs'), s', e'. split; [unfold mbind, se_bind; by rewrite Ha|].
      split; [done|]. split; [done|]. split.
      { intros r' [->|Hr']%elem_of_cons; [|by apply Wrs]. eapply grows_region; [done|]. apply Hrs. by left. }
      split; [by right|]. split; [done|]. split; [done|]. split; [done|]. split.
      { intros r0 [->|Hr0]%elem_of_cons.
        - exists e. split; [by left|]. done.
        - destruct (K r0 Hr0) as (r1 & ? & ?). exists r1. split; [by right|done]. }
      assert (to_ascii_uppercase (username r) ≠ (to_ascii_uppercase ∘ username) e) as Hne.
      { simpl. intros Heq. apply not_true_iff_false in En. apply En. by apply named_upper. }
      rewrite fmap_cons, U.
      destruct (decide (to_ascii_uppercase (username r) ∈ to_ascii_uppercase ∘ username <$> rs)) as [Hd|Hd].
      * rewrite decide_True; [done|by right].
      * rewrite decide_False; [done|]. by apply not_elem_of_cons.
Qed.

Lemma region_lookup x u : NoDup (to_ascii_uppercase ∘ username <$> regions x) → u ≠ [] →
  ∀ e, e ∈ regions x → named u e = true → region x u = Some e.
Proof.
  intros Hnd Hu e He Hn. unfold region. rewrite decide_False by done.
  assert (∀ r, r ∈ filter (fun r => named u r) (regions x) → r = e) as Huniq.
  { intros r [Hr Hin]%list_elem_of_filter. apply Is_true_true in Hr.
    apply named_upper in Hr, Hn. apply list_elem_of_lookup in Hin as [i Hi], He as [j Hj].
    assert (i = j) as ->; [|congruence].
    apply (NoDup_lookup _ _ _ (to_ascii_uppercase u) Hnd); rewrite list_lookup_fmap; [rewrite Hi|rewrite Hj];
      simpl; congruence. }
  assert (e ∈ filter (fun r => named u r) (regions x)) as Hin.
  { apply list_elem_of_filter. split; [|done]. by apply Is_true_true. }
  destruct (filter _ (regions x)) as [|r l] eqn:E; [by apply elem_of_nil in Hin|].
  simpl. f_equal. apply Huniq. by left.
Qed.

Lemma add_region_full rank s x r :
  wf_proxy rank s x → wf_region rank s r →
  ∃ x' s' e, add_region x r s = (Ok x', s') ∧ wf_proxy rank s' x' ∧ grows s s' ∧
    e ∈ regions x' ∧ named (username r) e = true ∧
    (∀ q, q ∈ Region_protocols r → q ∈ Region_protocols e) ∧
    (∀ v, v ∈ variants r → child_of s' (merged e) (v_pool v)) ∧
    (∀ r0, r0 ∈ regions x → ∃ r1, r1 ∈ regions x' ∧ username r1 = username r0 ∧ merged r1 = merged r0 ∧
       ∀ q, q ∈ Region_protocols r0 → q ∈ Region_protocols r1) ∧
    default_pool x' = default_pool x ∧ protocol_pools x' = protocol_pools x ∧
    protocol_forwards x' = protocol_forwards x.
Proof.
  intros [W Wrs Hnd] Wr.
  destruct (add_region_to_spec rank s (regions x) r W Wrs Wr)
    as (rs' & s' & e & Ha & W' & G & Wrs' & Hin & Hn & P & C & K & U).
  eexists _, s', e. unfold add_region. unfold mbind, se_bind. rewrite Ha. split; [done|].
  assert (NoDup (to_ascii_uppercase ∘ username <$> rs')) as Hnd'.
  { rewrite (list_fmap_compose _ _ rs'). destruct (decide _) as [Hd|Hd] in U; rewrite U; rewrite list_fmap_compose in Hnd; [exact Hnd|].
    rewrite list_fmap_compose in Hd.
    rewrite fmap_app. apply NoDup_app. split; [done|]. split; [|by apply NoDup_singleton].
    intros k Hk [->|Hx]%elem_of_cons; [done|by apply elem_of_nil in Hx]. }
  split; [by split|]. split; [done|]. split; [done|]. split; [done|]. split; [done|]. split; [done|]. split; [|done].
  intros r0 Hr0. destruct (K r0 Hr0) as (r1 & ? & _ & ? & ? & ?). eauto 10.
Qed.

(** Registering a region. Adding a region keeps the routing tables well-formed (user names
    distinct ignoring case, protocols distinct, every variant pool linked below its region's
    merged pool) and loses nothing: every region stays under its name with all its protocols, and
    the new region's user name, in any capitalisation, now finds a region that offers its
    protocols and whose merged pool reaches every pool it brought. *)
Theorem add_region_spec rank s x r u :
  wf_proxy rank s x → wf_region rank s r → u ≠ [] →
  to_ascii_uppercase u = to_ascii_uppercase (username r) →
  ∃ x' s' e, add_region x r s = (Ok x', s') ∧ wf_proxy rank s' x' ∧ grows s s' ∧
    region x' u = Some e ∧
    (∀ q, q ∈ Region_protocols r → q ∈ Region_protocols e) ∧
    (∀ v y, v ∈ variants r → visible s' (v_pool v) y → visible s' (merged e) y) ∧
    (∀ r0, r0 ∈ regions x → ∃ r1, r1 ∈ regions x' ∧ username r1 = username r0 ∧ merged r1 = merged r0 ∧
       ∀ q, q ∈ Region_protocols r0 → q ∈ Region_protocols r1) ∧
    default_pool x' = default_pool x ∧ protocol_pools x' = protocol_pools x ∧
    protocol_forwards x' = protocol_forwards x.
Proof.
  intros Wx Wr Hu Heq.
  destruct (add_region_full rank s x r Wx Wr) as (x' & s' & e & Ha & Wx' & G & Hin & Hn & P & C & K & D).
  exists x', s', e. split; [done|]. split; [done|]. split; [done|]. split.
  { apply region_lookup; [apply Wx'|done|done|]. apply named_upper in Hn. apply named_upper. congruence. }
  split; [done|]. split; [|done].
  intros v y Hv (q & pool & Hq & Hpool & Hy). exists q, pool. split; [|done]. eapply rtc_l; [by apply C|done].
Qed.

Lemma assoc_set {A} p q (l : list (Protocol * A)) a :
  assoc q (filter (fun e => e.1 ≠ p) l ++ [(p, a)]) = if decide (q = p) then Some a else assoc q l.
Proof.
  unfold assoc. rewrite filter_app, list_filter_filter, filter_cons, filter_nil. cbn [fst].
  case_decide as Hq.
  - subst q. replace (filter _ l) with (@nil (Protocol * A)); [by rewrite decide_True|].
    symmetry. induction l as [|e l IH]; [done|]. rewrite filter_cons, decide_False; [exact IH|tauto].
  - rewrite decide_False, app_nil_r by naive_solver. f_equal. f_equal.
    apply list_filter_iff. intros e. naive_solver.
Qed.

(** Protocol routes. After [set_protocol_route] a request for that protocol whose user
    name is no region goes to the new pool and forwarder, other protocols and the default route
    are untouched; a protocol nobody registered yields a fresh empty pool and no forwarder. *)
Theorem protocol_route_spec x p pool f u s :
  region x u = None →
  let x' := set_protocol_route x p pool f in
  forward_for x' u (Some p) = Some f ∧ pool_for x' u (Some p) s = (Ok pool, s) ∧
  forward_for x' u None = default_forward x ∧ pool_for x' u None s = (Ok (default_pool x), s) ∧
  (∀ q, q ≠ p → forward_for x' u (Some q) = forward_for x u (Some q) ∧
                pool_for x' u (Some q) s = pool_for x u (Some q) s) ∧
  (∀ q, assoc q (protocol_pools x) = None → ∃ id s', pool_for x u (Some q) s = (Ok id, s') ∧
     s' !! id = Some (mkPool [] [] 0) ∧ (candidates 1 id s').1 = Ok []).
Proof.
  intros Hr x'. assert (region x' u = None) as Hr' by exact Hr.
  unfold forward_for, pool_for. rewrite Hr, Hr'. cbn [mbind option_bind].
  unfold x', set_protocol_route. cbn [protocol_pools protocol_forwards default_forward default_pool].
  rewrite !assoc_set. rewrite !decide_True by done. do 4 (split; [done|]). split.
  - intros q Hq. rewrite !assoc_set. by rewrite !decide_False by done.
  - intros q Hq. rewrite Hq. unfold Pool.new. eexists _, _. split; [done|].
    split; [apply lookup_insert_eq|]. unfold candidates. cbn [filtered].
    unfold mbind, se_bind. by rewrite (get_pool_ok _ _ _ (lookup_insert_eq _ _ _)).
Qed.
End Routing.

(** * Concrete tables *)

Definition toy_routes_store : gmap nat (ProxyPool (T:=nat)) := <[3%nat := mkPool [] [] 0]> toy_store.
Definition toy_routes_rank (id : nat) : nat := if (id =? 3)%nat then 1 else toy_rank id.
Definition toy_region : Region (F:=str) :=
  mkRegion (Lit "CA") (Lit "CA") [mkVariant Ssh 1 (Some (Lit "ssh-ca")); mkVariant Vpn 2 None] 0.
Definition toy_routes : Proxy (F:=str) :=
  mkRoutes 1 (Some (Lit "default")) [] [] [mkRegion (Lit "ca") (Lit "ca") [] 3].

Lemma toy_routes_wf : wf_proxy toy_routes_rank toy_routes_store toy_routes.
Proof.
  pose proof toy_store_wf as [W1 W2 W3 W4].
  assert (∀ id p, toy_routes_store !! id = Some p → id = 3%nat ∧ p = mkPool [] [] 0 ∨
            id ≠ 3%nat ∧ toy_store !! id = Some p) as Hcase.
  { intros id p. unfold toy_routes_store. rewrite lookup_insert_Some. naive_solver. }
  split.
  - split; [intros id p Hp|intros id p Hp|intros id p c Hp|intros id p c Hp]; destruct (Hcase id p Hp) as [[-> ->]|[Hne Hp']].
    + constructor.
    + by apply (W1 id).
    + constructor.
    + by apply (W2 id).
    + intros Hc. by apply elem_of_nil in Hc.
    + intros Hc. unfold toy_routes_store. apply lookup_insert_is_Some'. right. by apply (W3 id p).
    + intros Hc. by apply elem_of_nil in Hc.
    + intros Hc. pose proof (W4 id p _ Hp' Hc). unfold toy_routes_rank.
      rewrite (proj2 (Nat.eqb_neq id 3)) by done.
      destruct (Nat.eqb_spec c 3) as [->|]; [|done].
      destruct (W3 id p _ Hp' Hc) as [? H3]. by vm_compute in H3.
  - intros r [->|Hn]%elem_of_cons; [|by apply elem_of_nil in Hn].
    split; [split; [vm_compute; eauto|reflexivity]|constructor|]. intros v Hv. by apply elem_of_nil in Hv.
  - apply NoDup_singleton.
Qed.

Lemma toy_region_wf : wf_region toy_routes_rank toy_routes_store toy_region.
Proof.
  split; [split; [vm_compute; eauto|reflexivity]| |].
  - apply (bool_decide_eq_true_1 _). vm_compute. reflexivity.
  - intros v [->|[->|Hn]%elem_of_cons]%elem_of_cons; [| |by apply elem_of_nil in Hn];
      (split; [vm_compute; eauto|split; [reflexivity|]]); exists toy_parent; (split; [reflexivity|]);
      [left|right; left].
Qed.

Lemma add_region_spec_witness :
  ∃ x' s' e, add_region toy_routes toy_region toy_routes_store = (Ok x', s') ∧
    region x' (Lit "cA") = Some e ∧ merged e = 3%nat ∧ Region_protocols e = [Ssh; Vpn] ∧
    wf_proxy toy_routes_rank s' x'.
Proof.
  destruct (add_region_spec toy_routes_rank toy_routes_store toy_routes toy_region (Lit "cA")
              toy_routes_wf toy_region_wf) as (x' & s' & e & H & W & _ & R & _);
    [discriminate|vm_compute; reflexivity|].
  exists x', s', e. split; [exact H|]. split; [exact R|].
  assert (x' = mkRoutes 1 (Some (Lit "default")) [] []
            [mkRegion (Lit "ca") (Lit "ca") [mkVariant Ssh 1 (Some (Lit "ssh-ca")); mkVariant Vpn 2 None] 3]) as Hx.
  { assert ((add_region toy_routes toy_region toy_routes_store).1 = Ok x') as Hx by (rewrite H; reflexivity).
    vm_compute in Hx. injection Hx as <-. reflexivity. }
  subst x'. vm_compute in R. injection R as <-. split; [reflexivity|]. split; [reflexivity|exact W].
Defined.

Lemma protocol_route_spec_witness :
  forward_for (set_protocol_route toy_routes Vpn 2 (Lit "vpn")) (Lit "zz") (Some Vpn) = Some (Lit "vpn").
Proof.
  apply (protocol_route_spec toy_routes Vpn 2 (Lit "vpn") (Lit "zz") toy_store).
  vm_compute. reflexivity.
Defined.
