(* ===== verification/Server.v ===== *)
(** The request handlers of proxy/server.rs: dispatch, CONNECT, absolute-form and rewrite
    requests, error responses and the index page, over the routing tables, the pool store and the
    exit cache. Sockets, hyper and the forwarders are parameters. *)
From S2P Require Import Prelude Text Sorting Pool RequestPath Exit Routing.

(** * Errors *)

Inductive Error :=
| UnknownRegion | UnsupportedScheme | MissingTarget | ForwardUnavailable
| Tunnel (msg : str) | Upstream (msg : str) | Io (msg : str) | Forward (msg : str).

Definition error_text (e : Error) : str :=
  match e with
  | UnknownRegion => Lit "unknown proxy region"
  | UnsupportedScheme => Lit "unsupported scheme"
  | MissingTarget => Lit "missing target host"
  | ForwardUnavailable => Lit "forwarding unavailable"
  | Tunnel m => Lit "ssh: " ++ m
  | Upstream m => Lit "upstream: " ++ m
  | Io m => Lit "io: " ++ m
  | Forward m => Lit "forward: " ++ m
  end.

(** [Response<Body>]: a page of the proxy's own (status, content type and body), or what a
    forwarder passes on. *)
Record Page := mkPage { status : Z; content_type : option str; body : list byte }.
Inductive Response (R : Type) := Own (p : Page) | Passed (r : R).
Arguments Own {R} p.
Arguments Passed {R} r.
Definition own {R} (status : Z) (content_type : option str) (body : list byte) : Response R :=
  Own (mkPage status content_type body).

Definition error_status (e : Error) : Z :=
  match e with
  | UnsupportedScheme | MissingTarget => 400
  | ForwardUnavailable => 501
  | UnknownRegion | Tunnel _ | Forward _ | Upstream _ => 502
  | Io _ => 503
  end.
Definition error_response {R} (e : Error) : Response R := own (error_status e) None (error_text e).

(** * The index page *)

(** [format!("{entry:<12}")]: padding counts characters, so continuation bytes are free. *)
Definition char_count (s : str) : nat := length (filter (fun b => (128 <=? b2z b) && (b2z b <? 192) = false) s).
Definition pad12 (s : str) : str := s ++ replicate (12 - char_count s) x20.

Definition nl : str := [x0a].
Definition usage (host : str) : str :=
  Lit "Usage" ++ nl ++ Lit "─────" ++ nl
  ++ Lit "  HTTP      curl -x http://" ++ host ++ Lit " http://ipwho.is" ++ nl
  ++ Lit "  CONNECT   curl -x http://" ++ host ++ Lit " https://ipwho.is" ++ nl
  ++ Lit "  Region    curl -x http://us@" ++ host ++ Lit " https://ipwho.is" ++ nl
  ++ Lit "  Rewrite   curl http://" ++ host ++ Lit "/ipwho.is" ++ nl
  ++ Lit "            curl http://" ++ host ++ Lit "/https://ipwho.is" ++ nl
  ++ Lit "  Protocol  curl http://" ++ host ++ Lit "/ssh/ca/ipwho.is" ++ nl
  ++ Lit "            curl http://" ++ host ++ Lit "/vpn/ca/ipwho.is" ++ nl.

Definition show_nat (n : nat) : str := show_uint (Z.of_nat n).

Definition pool_entry (s : PoolStat) : str :=
  if (0 <? s_tunnels s)%nat
  then s_name s ++ Lit "(" ++ show_nat (s_usable s) ++ Lit "/" ++ show_nat (s_tunnels s) ++ Lit ")"
  else s_name s ++ Lit "(" ++ show_nat (s_proxies s) ++ Lit ")".

(** Five entries per line; the last line ends even when it is short. *)
Definition pool_cell (n index : nat) (s : PoolStat) : str :=
  (if (index mod 5 =? 0)%nat then Lit "  " ++ pad12 (pool_entry s) else pad12 (pool_entry s))
  ++ (if (index mod 5 =? 4)%nat || (index =? n - 1)%nat then nl else []).
Definition pool_table (stats : list PoolStat) : str := concat (imap (pool_cell (length stats)) stats).

Definition index_text (host : str) (stats : list PoolStat) : str :=
  usage host ++
  match stats with
  | [] => []
  | _ =>
      let tunnels := sum_list (s_tunnels <$> stats) in
      let usable := sum_list (s_usable <$> stats) in
      let proxies := sum_list (s_proxies <$> stats) in
      let ssh := length (filter (fun s => Ssh ∈ s_protocols s) stats) in
      let vpn := length (filter (fun s => Vpn ∈ s_protocols s) stats) in
      nl ++ Lit "Pools" ++ nl ++ Lit "─────" ++ nl ++ pool_table stats
      ++ (if (0 <? tunnels)%nat
          then nl ++ Lit "Total: " ++ show_nat usable ++ Lit "/" ++ show_nat tunnels ++ Lit " usable" ++ nl
          else nl ++ Lit "Total: " ++ show_nat proxies ++ Lit " proxies" ++ nl)
      ++ Lit "Pools: " ++ show_nat ssh ++ Lit " ssh, " ++ show_nat vpn ++ Lit " vpn" ++ nl
  end.

Section Server.
Context {T F : Type} {TT : Pool.Tunnel T} {H : HeaderLib} {L : LruLib}.

(** What the handlers read of [Request<Incoming>]; [B] is the unread body. *)
Context {B X R : Type}.
Record Request := mkRequest {
  method : Method;
  uri_scheme : option str;
  uri_authority : option str;
  uri_host : option str;
  uri_path : str;
  uri_query : option str;
  headers : HeaderMap;
  request_body : B
}.

Definition is_connect (r : Request) : bool := bool_decide (method r = CONNECT).

(** The server's state: the pools, the exit cache, and what the forwarders keep ([X]). *)
Record World := mkWorld { store : gmap nat (ProxyPool (T:=T)); exits : ExitCache; extra : X }.
Abbreviation M A := (SE World Error A).

(** The environment: forwarders, dialling, and the exit a tunnel reports for a host. *)
Context (forward : F → Request → Target → M (Response R)).
Context (Conn : Type) (dial : T → str → Z → res str Conn) (exit_for : T → str → Exit).
Context (polls fuel : nat) (env : nat → gmap nat (ProxyPool (T:=T)) → gmap nat (ProxyPool (T:=T))).

Definition on_store {A} (f : SE (gmap nat (ProxyPool (T:=T))) Empty_set A) : M A := fun w =>
  let '(r, s) := f (store w) in
  (match r with Ok a => Ok a | Err e => match e with end | Panic => Panic | NoFuel => NoFuel end,
   mkWorld s (exits w) (extra w)).

Definition index_page (proxy : Proxy (F:=F)) (host : option HeaderValue) : M (Response R) :=
  let host := match host ≫= hv_to_str with
              | Some (b :: h) => b :: h
              | _ => Lit "localhost:8080"
              end in
  ss ← on_store (stats fuel proxy);
  mret (own 200 (Some (Lit "text/plain; charset=utf-8")) (index_text host ss)).

(** [handle_connect]: the connection, when there is one, is what the upgrade copies to. *)
Definition handle_connect (proxy : Proxy (F:=F)) (request : Request) : M (Response R * option Conn) :=
  match (match uri_authority request with
         | Some a => Some a
         | None => hm_get (headers request) (Lit "host") ≫= hv_to_str
         end) with
  | None => mret (error_response MissingTarget, None)
  | Some authority =>
      let '(host, port) := split_authority authority (Lit "https") in
      let username := auth_username (headers request) in
      pool ← on_store (pool_for proxy username None);
      candidate ← on_store (pick polls fuel env pool);
      match candidate with
      | None => mret (error_response UnknownRegion, None)
      | Some candidate =>
          match dial (tunnel candidate) host port with
          | Ok upstream =>
              modify_st (fun w => mkWorld (store w)
                (record (exits w) host (exit_for (tunnel candidate) host)) (extra w));;
              mret (own 200 None [], Some upstream)
          | Err e => mret (error_response (Upstream e), None)
          | Panic => fun w => (Panic, w)
          | NoFuel => fun w => (NoFuel, w)
          end
      end
  end.

Definition absolute (proxy : Proxy (F:=F)) (request : Request) : M (Response R) :=
  let scheme := default (Lit "http") (uri_scheme request) in
  if negb (bool_decide (scheme = Lit "http")) && negb (bool_decide (scheme = Lit "https"))
  then fail_st UnsupportedScheme
  else
    f ← lift_res (ok_or (forward_for proxy (auth_username (headers request)) None) ForwardUnavailable);
    forward f request (mkTarget scheme (default [] (uri_authority request)) (uri_path request)
                                (default [] (uri_query request))).

Definition rewrite (proxy : Proxy (F:=F)) (request : Request) : M (Response R) :=
  match parse_path (uri_path request) (uri_query request) with
  | None => index_page proxy (hm_get (headers request) (Lit "host"))
  | Some (route, target) =>
      f ← lift_res (ok_or (forward_for proxy (route_region route) (r_protocol route)) ForwardUnavailable);
      forward f request target
  end.

(** [response.unwrap_or_else(|err| error_response(&err))] *)
Definition or_error (m : M (Response R)) : M (Response R) := fun w =>
  match m w with
  | (Err e, w') => (Ok (error_response e), w')
  | r => r
  end.

Definition handle (proxy : Proxy (F:=F)) (request : Request) : M (Response R * option Conn) :=
  if is_connect request then handle_connect proxy request
  else
    r ← or_error (match uri_host request with
                  | Some _ => absolute proxy request
                  | None => rewrite proxy request
                  end);
    mret (r, None).

(** [Server::serve]: a task for each connection, and the first failed accept ends the server. *)
Fixpoint serve {E C} (accepts : list (E + C)) : list C * option E :=
  match accepts with
  | [] => ([], None)
  | inl err :: _ => ([], Some err)
  | inr connection :: accepts => let '(connections, err) := serve accepts in (connection :: connections, err)
  end.
Lemma serve_ends {E C} (connections : list C) (err : E) later : serve ((inr <$> connections) ++ inl err :: later) = (connections, Some err).
Proof using Type. induction connections as [|c connections IH]; [done|]. cbn [fmap list_fmap app serve]. by rewrite IH. Qed.

(** * Properties *)

Context {Laws : LruLaws L}.


Lemma select_Some_ready n p proto s c s' :
  select n fuel env p proto s = (Ok (Some c), s') → candidate_ready c = true.
Proof using Type.
  revert s. induction n as [|n IH]; intros s; cbn [select]; [done|].
  unfold mbind, se_bind. destruct (filtered fuel p proto s) as [[[|d cs]|[]| |] s1]; try done.
  destruct (list_find candidate_ready (d :: cs)) as [[i e]|] eqn:Ef.
  - intros [= -> _]. apply list_find_Some in Ef as (_ & He & _). by apply Is_true_true.
  - unfold modify_st. apply IH.
Qed.

End Server.

(** * Concrete requests *)

Definition toy_world : World (T:=nat) (L:=toy_lru) (X:=()) := mkWorld toy_routes_store exit_cache_default ().
Definition toy_forward (f : str) (r : Request (H:=toy_headers) (B:=())) (t : Target)
    : SE (World (T:=nat) (L:=toy_lru) (X:=())) Error (Response str) :=
  fun w => if decide (host t = Lit "down.com") then (Err (Forward (Lit "down")), w)
           else (Ok (own 200 None (f ++ Lit ":" ++ host t)), w).
Definition toy_dial (t : nat) (host : str) (port : Z) : res str nat := Ok t.
Definition toy_exit_for (t : nat) (host : str) : Exit := mkExit (Lit "9.9.9.9") (Lit "CA") (Lit "ssh").
Definition toy_request (connect : bool) (authority : option str) (path : str) : Request (H:=toy_headers) (B:=()) :=
  mkRequest (if connect then CONNECT else GET) None authority None path None ([] : HeaderMap (HeaderLib:=toy_headers)) ().



Example index_page_text :
  (index_page (R:=str) 2 toy_routes None toy_world).1
  = Ok (own 200 (Some (Lit "text/plain; charset=utf-8"))
      (usage (Lit "localhost:8080") ++ nl ++ Lit "Pools" ++ nl ++ Lit "─────" ++ nl ++ Lit "  ca(0)       " ++ nl
       ++ nl ++ Lit "Total: 0 proxies" ++ nl ++ Lit "Pools: 0 ssh, 0 vpn" ++ nl)).
Proof. vm_compute. reflexivity. Qed.
