(* ===== verification/Upstream.v ===== *)
(** upstream.rs and emulation.rs: forwarding one HTTP request through the pool, with a client per
    tunnel generation, and retries that rotate to another exit. The HTTP client ([wreq]) and the
    network are parameters. *)
From S2P Require Import Prelude Text Sorting Pool RequestPath Exit.

(** * Browser profiles *)

Inductive Profile := Chrome136 | Chrome131 | Edge134 | Firefox135 | Safari26 | OkHttp5.
Definition PROFILES : list Profile := [Chrome136; Chrome131; Edge134; Firefox135; Safari26; OkHttp5].

(** [next], on the counter [NEXT] (a wrapping [usize]). *)
Definition next_profile (counter : Z) : Profile * Z :=
  (nth (Z.to_nat (counter mod Z.of_nat (length PROFILES))) PROFILES Chrome136, wrap64 (counter + 1)).

Fixpoint next_profiles (n : nat) (counter : Z) : list Profile :=
  match n with O => [] | S n => (next_profile counter).1 :: next_profiles n (next_profile counter).2 end.

Lemma next_profiles_spec n counter : 0 <= counter → counter + Z.of_nat n < 2 ^ 64 →
  next_profiles n counter
  = (fun i => nth (Z.to_nat ((counter + Z.of_nat i) mod 6)) PROFILES Chrome136) <$> seq 0 n.
Proof.
  revert counter. induction n as [|n IH]; intros c H0 H1; [done|].
  cbn [next_profiles seq]. rewrite fmap_cons, Z.add_0_r. f_equal. cbn [snd next_profile].
  unfold wrap64. rewrite (Z.mod_small (c + 1)), IH by lia. rewrite <- fmap_S_seq, <- list_fmap_compose.
  apply list_fmap_ext. intros _ i _. unfold compose. by replace (c + 1 + Z.of_nat i) with (c + Z.of_nat (S i)) by lia.
Qed.

(** Profile rotation. Six consecutive clients get six different browser profiles (while
    the 64-bit counter does not wrap). *)
Theorem profiles_rotate counter :
  0 <= counter → counter + 6 < 2 ^ 64 → next_profiles 6 counter ≡ₚ PROFILES.
Proof.
  intros H0 H1. rewrite next_profiles_spec by lia. set (r := counter mod 6).
  assert (0 <= r < 6) as Hr by (apply Z.mod_pos_bound; lia).
  rewrite (list_fmap_ext _ (fun i => nth (Z.to_nat ((r + Z.of_nat i) mod 6)) PROFILES Chrome136)).
  2:{ intros _ i _. unfold r. by rewrite Z.add_mod_idemp_l by lia. }
  clearbody r. assert (r = 0 ∨ r = 1 ∨ r = 2 ∨ r = 3 ∨ r = 4 ∨ r = 5) as Hcase by lia.
  destruct Hcase as [->|[->|[->|[->|[->| ->]]]]].
  - exact (rotate_left_perm 0 PROFILES).
  - exact (rotate_left_perm 1 PROFILES).
  - exact (rotate_left_perm 2 PROFILES).
  - exact (rotate_left_perm 3 PROFILES).
  - exact (rotate_left_perm 4 PROFILES).
  - exact (rotate_left_perm 5 PROFILES).
Qed.

Lemma profiles_rotate_witness : next_profiles 6 10 ≡ₚ PROFILES.
Proof. apply (profiles_rotate 10); [lia|vm_compute; reflexivity]. Defined.

(** * The HTTP client *)

Class HttpLib := {
  Client : Type;                                   (* wreq::Client *)
  ReqBody : Type;
  body_empty : ReqBody;                            (* Body::from("") *)
  HttpResponse : Type;
  HttpProxy : Type;
  proxy_all : str → str + HttpProxy;              (* wreq::Proxy::all *)
  build_client : Profile → HttpProxy → str + Client
}.

Inductive Error := NoUpstream | RequestFailed (msg : str).
Definition error_text (e : Error) : str :=
  match e with
  | NoUpstream => Lit "no upstream proxies available"
  | RequestFailed m => Lit "upstream request failed: " ++ m
  end.

Definition MAX_ATTEMPTS : nat := 6.
Definition READY_TIMEOUT : Z := 40000.
Definition POLL_INTERVAL : Z := 200.

Section Upstream.
Context {T : Type} {TT : Pool.Tunnel T} {H : HeaderLib} {L : LruLib} {W : HttpLib}.

Record CachedClient := mkCached { c_generation : Z; c_client : Client }.

(** One request put on the wire. *)
Record Sent := mkSent { s_client : Client; s_method : Method; s_uri : str; s_headers : HeaderMap;
                        s_body : ReqBody; s_group : str }.

(** The transport's world: the pools, the global client cache and profile counter, the clock in
    milliseconds, and what was sent so far. *)
Record World := mkWorld {
  pools : gmap nat (ProxyPool (T:=T));
  clients : gmap str CachedClient;
  profile_counter : Z;
  clock : Z;
  sent : list Sent
}.
Abbreviation M A := (SE World Error A).

Record RotatingTransport := mkTransport { t_pool : nat; t_protocol : option Protocol }.

(** [http::Request] *)
Record Outgoing := mkOutgoing { o_method : Method; o_uri : str; o_host : option str;
                                o_headers : HeaderMap; o_body : ReqBody }.

(** [depth] bounds the pool graph; [env] is what other tasks do during a sleep that ends at the
    given time; [reply] is the network's answer to a request, and how long it takes. *)
Context (depth : nat) (env : Z → gmap nat (ProxyPool (T:=T)) → gmap nat (ProxyPool (T:=T))).
Context (reply : list Sent → Sent → Z * (str + HttpResponse)).

Definition lift_pools {A} (f : SE (gmap nat (ProxyPool (T:=T))) Empty_set A) : M A := fun w =>
  let '(r, s) := f (pools w) in
  (match r with Ok a => Ok a | Err e => match e with end | Panic => Panic | NoFuel => NoFuel end,
   mkWorld s (clients w) (profile_counter w) (clock w) (sent w)).

Definition sleep (ms : Z) : M () := fun w =>
  (Ok (), mkWorld (env (clock w + ms) (pools w)) (clients w) (profile_counter w) (clock w + ms) (sent w)).

Definition put_client (k : str) (c : CachedClient) : M () := modify_st (fun w =>
  mkWorld (pools w) (<[k := c]> (clients w)) (profile_counter w) (clock w) (sent w)).
Definition evict (k : str) : M () := modify_st (fun w =>
  mkWorld (pools w) (delete k (clients w)) (profile_counter w) (clock w) (sent w)).
Definition next : M Profile := fun w =>
  let '(p, n) := next_profile (profile_counter w) in
  (Ok p, mkWorld (pools w) (clients w) n (clock w) (sent w)).

Definition req_err {A} (r : str + A) : res Error A :=
  match r with inr a => Ok a | inl e => Err (RequestFailed e) end.

Definition client (candidate : Candidate) : M Client :=
  let generation := generation (tunnel candidate) in
  w ← get_st;
  match (match clients w !! key candidate with
         | Some cached => if c_generation cached =? generation then Some (c_client cached) else None
         | None => None
         end) with
  | Some c => mret c
  | None =>
      url ← lift_res (ok_or (proxy_url (tunnel candidate)) NoUpstream);
      proxy ← lift_res (req_err (proxy_all url));
      p ← next;
      c ← lift_res (req_err (build_client p proxy));
      put_client (key candidate) (mkCached generation c);;
      mret c
  end.

Definition send (c : Client) (r : Outgoing) (payload : ReqBody) (target_host : str) : M HttpResponse := fun w =>
  let s := mkSent c (o_method r) (o_uri r) (o_headers r) payload target_host in
  let '(d, answer) := reply (sent w) s in
  (req_err answer, mkWorld (pools w) (clients w) (profile_counter w) (clock w + d) (sent w ++ [s])).

(** One look at the pool: an untried ready candidate, or any ready one when all were tried. *)
Definition choose (skip : list str) (candidates : list Candidate) : option Candidate :=
  let untried := filter (fun c => key c ∉ skip) candidates in
  let pool := match untried with [] => candidates | _ => untried end in
  snd <$> list_find candidate_ready pool.

Fixpoint ready_loop (polls : nat) (t : RotatingTransport) (deadline : Z) (skip : list str) : M Candidate :=
  match polls with
  | O => fun w => (NoFuel, w)
  | S polls =>
      w ← get_st;
      if deadline <=? clock w then fail_st NoUpstream
      else
        candidates ← lift_pools (filtered depth (t_pool t) (t_protocol t));
        match candidates with
        | [] => fail_st NoUpstream
        | _ => match choose skip candidates with
               | Some ready => mret ready
               | None => sleep POLL_INTERVAL;; ready_loop polls t deadline skip
               end
        end
  end.

(** A poll costs 200 ms, so 201 rounds outlast the timeout. *)
Definition READY_POLLS : nat := 201.
Definition ready_candidate (t : RotatingTransport) (skip : list str) : M Candidate :=
  w ← get_st; ready_loop READY_POLLS t (clock w + READY_TIMEOUT) skip.

Definition catch {A B} (m : M A) (ok : A → M B) (err : Error → M B) : M B := fun w =>
  match m w with
  | (Ok a, w') => ok a w'
  | (Err e, w') => err e w'
  | (Panic, w') => (Panic, w')
  | (NoFuel, w') => (NoFuel, w')
  end.

(** The [for _ in 0..attempts] loop. [body] is taken by the first send. *)
Fixpoint attempts_loop (n : nat) (t : RotatingTransport) (r : Outgoing) (target_host : str)
    (body : option ReqBody) (tried : list str) (last : option Error) : M (Candidate * HttpResponse) :=
  match n with
  | O => fail_st (default NoUpstream last)
  | S n =>
      catch (ready_candidate t tried)
        (fun candidate =>
           catch (client candidate)
             (fun c =>
                catch (send c r (default body_empty body) target_host)
                  (fun response => mret (candidate, response))
                  (fun err => evict (key candidate);;
                              attempts_loop n t r target_host None (tried ++ [key candidate]) (Some err)))
             (fun err => attempts_loop n t r target_host body tried (Some err)))
        (fun err => fail_st (default err last))
  end.

Definition retryable (m : Method) : bool := match m with GET | HEAD => true | _ => false end.

Definition request (t : RotatingTransport) (r : Outgoing) : M (Candidate * HttpResponse) :=
  let target_host := to_lowercase (default [] (o_host r)) in
  let attempts := if retryable (o_method r) then MAX_ATTEMPTS else 1%nat in
  attempts_loop attempts t r target_host (Some (o_body r)) [] None.

(** * Properties *)

(** One client per tunnel generation. A cached client is reused exactly when it was built
    for the tunnel's current generation; otherwise a new one is built from the tunnel's proxy URL
    and remembered under that generation. Either way the cache ends up holding the client it
    returned, no other entry changes, and nothing is sent. *)
Theorem client_per_generation cand w c w' :
  client cand w = (Ok c, w') →
  clients w' !! key cand = Some (mkCached (generation (tunnel cand)) c) ∧
  (∀ k, k ≠ key cand → clients w' !! k = clients w !! k) ∧
  sent w' = sent w ∧ pools w' = pools w ∧
  (clients w !! key cand = Some (mkCached (generation (tunnel cand)) c) ∧ w' = w ∨
   (∀ old, clients w !! key cand = Some old → c_generation old ≠ generation (tunnel cand)) ∧
   ∃ url p px, proxy_url (tunnel cand) = Some url ∧ proxy_all url = inr px ∧ build_client p px = inr c).
Proof using Type.
  unfold client. intros Hrun. apply se_bind_ok in Hrun as (w0 & w1 & [= <- <-] & Hrun).
  destruct (match clients w !! key cand with Some _ => _ | None => _ end) as [cc|] eqn:Ec.
  - destruct (clients w !! key cand) as [[g x]|] eqn:Ek; [|done]. simpl in Ec.
    destruct (Z.eqb_spec g (generation (tunnel cand))) as [->|]; [|done].
    unfold mret, se_ret in Hrun. simplify_eq. split; [done|]. split; [done|]. split; [done|]. split; [done|].
    by left.
  - unfold mbind, se_bind, lift_res, next, next_profile, put_client, modify_st, mret, se_ret in Hrun.
    destruct (proxy_url (tunnel cand)) as [u|] eqn:Eu; [|done]. cbn [ok_or] in Hrun.
    destruct (proxy_all u) as [|px] eqn:Epx; [done|]. cbn [req_err] in Hrun.
    destruct (build_client _ px) as [|cx] eqn:Eb in Hrun; [done|]. cbn [req_err] in Hrun.
    injection Hrun as <- <-. cbn [clients sent pools].
    split; [apply lookup_insert_eq|]. split; [intros k Hk; by rewrite lookup_insert_ne|].
    split; [done|]. split; [done|]. right. split; [|eauto 10].
    intros [g x] Hold. rewrite Hold in Ec. simpl in Ec. simpl. by destruct (Z.eqb_spec g (generation (tunnel cand))).
Qed.

Section Wf.
Context (t : RotatingTransport).
(** The pool exists, and the graph below it has no cycle and less than [depth] levels;
    [safe] is whatever else is known of the pools at any time; looking at them keeps it. *)
Context (safe : gmap nat (ProxyPool (T:=T)) → Prop) (Hlook : ∀ s s', same_shape s s' → safe s → safe s').
Definition pools_ok (s : gmap nat (ProxyPool (T:=T))) : Prop :=
  (∃ rank, wf_store rank s ∧ (rank (t_pool t) < depth)%nat) ∧ is_Some (s !! t_pool t) ∧ safe s.
Context (Henv : ∀ now s, pools_ok s → pools_ok (env now s)).

Lemma choose_Some skip cs c : choose skip cs = Some c →
  c ∈ cs ∧ candidate_ready c = true ∧ (key c ∈ skip → ∀ d, d ∈ cs → key d ∈ skip).
Proof using Type.
  unfold choose. set (untried := filter (fun c => key c ∉ skip) cs).
  intros Hf.
  destruct (list_find _ _) as [[i c']|] eqn:Ef; [|done]. simpl in Hf. simplify_eq.
  apply list_find_Some in Ef as (Hi & Hr & _). apply list_elem_of_lookup_2 in Hi.
  destruct untried as [|u us] eqn:Eu.
  - split; [done|]. split; [by apply Is_true_true|]. intros _ d Hd.
    destruct (decide (key d ∈ skip)) as [|Hn]; [done|].
    assert (d ∈ untried) as Hin by (by apply list_elem_of_filter).
    rewrite Eu in Hin. by apply elem_of_nil in Hin.
  - rewrite <- Eu in Hi. apply list_elem_of_filter in Hi as [Hns Hin].
    split; [done|]. split; [by apply Is_true_true|]. by intros ?.
Qed.

(** What is known about a candidate that was handed out. *)
Definition chosen (skip : list str) (c : Candidate) : Prop :=
  candidate_ready c = true ∧
  ∃ s, pools_ok s ∧ (∃ x, visible s (t_pool t) x ∧ wanted (t_protocol t) x = true ∧ c = to_candidate x) ∧
    (key c ∈ skip → ∀ x, visible s (t_pool t) x → wanted (t_protocol t) x = true → pp_key x ∈ skip).

Definition same_traffic (w w' : World) : Prop :=
  clients w' = clients w ∧ sent w' = sent w ∧ profile_counter w' = profile_counter w.

Lemma ready_loop_spec polls deadline skip w :
  pools_ok (pools w) → deadline <= clock w + POLL_INTERVAL * Z.of_nat polls →
  ∃ r w', ready_loop (S polls) t deadline skip w = (r, w') ∧ pools_ok (pools w') ∧ same_traffic w w' ∧
    clock w <= clock w' ∧ (clock w <= deadline + POLL_INTERVAL → clock w' <= deadline + POLL_INTERVAL) ∧
    (r = Err NoUpstream ∨ ∃ c, r = Ok c ∧ chosen skip c).
Proof using Hlook Henv.
  revert w. induction polls as [|polls IH]; intros w Hok Hd; pose proof Hok as ((rank & Hwf & Hdepth) & Hsome & Hsafe);
    unfold POLL_INTERVAL in *; cbn [ready_loop]; unfold mbind, se_bind, get_st, fail_st; case_cmp.
  - exists (Err NoUpstream), w. do 3 (split; [done|]). split; [lia|]. split; [lia|by left].
  - lia.
  - exists (Err NoUpstream), w. do 3 (split; [done|]). split; [lia|]. split; [lia|by left].
  - destruct (filtered_spec rank depth (t_pool t) (t_protocol t) (pools w) Hwf Hsome Hdepth)
      as (l0 & s' & n & Hl & Hsh & Hr).
    set (l := rotate_left n _) in Hl.
    assert (represents key is_candidate l (fun x => visible (pools w) (t_pool t) x ∧ wanted (t_protocol t) x = true))
      as (N & B & C).
    { eapply represents_perm; [|exact Hr]. symmetry.
      etrans; [apply rotate_left_perm|apply sort_by_key_perm]. }
    clearbody l. unfold lift_pools. rewrite Hl. cbn [pools clients profile_counter clock sent].
    assert (pools_ok s') as Hok'.
    { split; [exists rank; split; [by eapply same_shape_wf|done]|]. split; [|by eapply Hlook]. destruct Hsome as [q Hq].
      destruct (same_shape_lookup _ _ _ _ Hsh Hq) as (q' & ? & _). eauto. }
    set (w1 := mkWorld s' _ _ _ _).
    destruct l as [|c0 l'] eqn:El.
    { exists (Err NoUpstream), w1. split; [done|]. split; [done|]. split; [done|].
      split; [simpl; lia|]. split; [simpl; lia|]. by left. }
    rewrite <- El in *. destruct (choose skip l) as [c|] eqn:Ec.
    + apply choose_Some in Ec as (Hin & Hready & Hskip). exists (Ok c), w1. split; [done|].
      split; [done|]. split; [done|]. split; [simpl; lia|]. split; [simpl; lia|]. right. exists c.
      split; [done|]. split; [done|]. exists (pools w). split; [done|]. split.
      * destruct (B c Hin) as (x & [? ?] & ? & _). eauto.
      * intros Hs x Hv Hw. pose proof (C x (conj Hv Hw)) as (d & -> & Hd')%list_elem_of_fmap. by apply Hskip.
    + unfold sleep. cbn [pools clients profile_counter clock sent].
      set (w2 := mkWorld (env _ _) _ _ _ _). assert (clock w2 = clock w + 200) as Hw2 by reflexivity.
      destruct (IH w2) as (r & w' & Hrun & Hok2 & Htr & Hc1 & Hc2 & Hres);
        [apply Henv, Hok'|lia|].
      exists r, w'. split; [exact Hrun|]. split; [done|]. split; [done|].
      split; [lia|]. split; [|done]. intros _. apply Hc2. lia.
Qed.

(** Waiting for an exit. [ready_candidate] always returns, within the 40 s timeout and one
    poll: either no upstream, or a candidate that is ready and visible with the wanted protocol,
    and that was not tried before unless every visible one was. Waiting sends nothing and does
    not touch the client cache. *)
Theorem ready_candidate_spec skip w :
  pools_ok (pools w) →
  ∃ r w', ready_candidate t skip w = (r, w') ∧ pools_ok (pools w') ∧ same_traffic w w' ∧
    clock w <= clock w' <= clock w + READY_TIMEOUT + POLL_INTERVAL ∧
    (r = Err NoUpstream ∨ ∃ c, r = Ok c ∧ chosen skip c).
Proof using Hlook Henv.
  intros Hok. unfold ready_candidate, READY_TIMEOUT, POLL_INTERVAL.
  destruct (ready_loop_spec 200 (clock w + 40000) skip w Hok) as (r & w' & Hrun & H1 & H2 & H3 & H4 & H5);
    [unfold POLL_INTERVAL; lia|].
  exists r, w'. split; [exact Hrun|]. split; [done|]. split; [done|]. unfold POLL_INTERVAL in H4.
  split; [lia|done].
Qed.

Lemma ready_candidate_total skip w : pools_ok (pools w) →
  ∃ r w', ready_candidate t skip w = (r, w') ∧ pools_ok (pools w') ∧ same_traffic w w' ∧
    (r = Err NoUpstream ∨ ∃ c, r = Ok c ∧ chosen skip c).
Proof using Hlook Henv.
  intros Hok. unfold ready_candidate, READY_TIMEOUT.
  destruct (ready_loop_spec 200 (clock w + 40000) skip w Hok) as (r & w' & Hrun & H1 & H2 & _ & _ & H5);
    [unfold POLL_INTERVAL; lia|]. eauto 10.
Qed.

Lemma client_total cand w : ∃ r w', client cand w = (r, w') ∧ sent w' = sent w ∧ pools w' = pools w ∧
  (∃ c, r = Ok c) ∨ ∃ e w', client cand w = (Err e, w') ∧ sent w' = sent w ∧ pools w' = pools w.
Proof using Type.
  unfold client, mbind, se_bind, get_st, lift_res, next, next_profile, put_client, modify_st, mret, se_ret.
  destruct (match clients w !! key cand with Some _ => _ | None => _ end); [eexists _, _; left; eauto 10|].
  destruct (proxy_url (tunnel cand)) as [u|]; cbn [ok_or]; [|eexists (Err NoUpstream), w; right; eauto 10].
  destruct (proxy_all u) as [|px]; cbn [req_err]; [eexists (Err NoUpstream), w; right; eauto 10|].
  destruct (build_client _ px) as [|cx]; cbn [req_err];
    [eexists (Err NoUpstream), w; right; eauto 10|eexists _, _; left; eauto 10].
Qed.

(** The traffic of one request. *)
Definition traffic (r : Outgoing) (g : str) (body : option ReqBody) (n : nat) (ss : list Sent) : Prop :=
  (length ss <= n)%nat ∧
  Forall (fun s => s_method s = o_method r ∧ s_uri s = o_uri r ∧ s_headers s = o_headers r ∧ s_group s = g) ss ∧
  match ss with
  | [] => True
  | s :: rest => s_body s = default body_empty body ∧ Forall (fun s => s_body s = body_empty) rest
  end.

Lemma attempts_loop_spec n r g body tried last w :
  pools_ok (pools w) →
  ∃ res w' ss, attempts_loop n t r g body tried last w = (res, w') ∧ pools_ok (pools w') ∧
    sent w' = sent w ++ ss ∧ traffic r g body n ss ∧
    match res with
    | Ok (c, resp) => candidate_ready c = true ∧ key c ∈ key c :: tried ∧
                      ∃ s log, list.last ss = Some s ∧ (reply log s).2 = inr resp
    | Err _ => True
    | _ => False
    end.
Proof using Hlook Henv.
  revert body tried last w. induction n as [|n IH]; intros body tried last w Hok.
  - eexists _, w, []. split; [reflexivity|]. split; [done|]. rewrite app_nil_r. split; [done|].
    split; [|done]. split; [simpl; lia|]. split; [apply Forall_nil_2|done].
  - cbn [attempts_loop]. unfold catch at 1.
    destruct (ready_candidate_total tried w Hok) as (rc & w1 & -> & Hok1 & (_ & Hs1 & _) & Hrc).
    assert (traffic r g body (S n) []) as Hnil by (split; [simpl; lia|]; split; [apply Forall_nil_2|done]).
    destruct Hrc as [->|(cand & -> & Hready & Hchosen)].
    { eexists _, w1, []. split; [reflexivity|]. split; [done|]. rewrite app_nil_r.
      split; [done|]. split; [exact Hnil|done]. }
    unfold catch at 1. destruct (client_total cand w1) as (rcl & w2 & [(Hcl & Hs2 & Hp2 & c & ->)|
      (e & w2' & Hcl & Hs2 & Hp2)]); rewrite Hcl.
    + unfold catch. unfold send. set (s := mkSent _ _ _ _ _ _).
      destruct (reply (sent w2) s) as [d [err|resp]] eqn:Er; cbn [req_err].
      * unfold mbind, se_bind, evict, modify_st. cbn [pools clients profile_counter clock sent].
        set (w3 := mkWorld (pools w2) _ _ _ _).
        destruct (IH None (tried ++ [key cand]) (Some (RequestFailed err)) w3)
          as (res & w' & ss & Hrun & Hok' & Hsent & (Hlen & Hall & Hbody) & Hres).
        { simpl. by rewrite Hp2. }
        exists res, w', (s :: ss). split; [exact Hrun|]. split; [done|].
        split; [rewrite Hsent; simpl; rewrite Hs2, Hs1, <- app_assoc; done|]. split.
        -- split; [simpl; lia|]. split; [by constructor|]. split; [done|].
           destruct ss as [|s2 ss]; [constructor|]. destruct Hbody. by constructor.
        -- destruct res as [[c' resp]| | |]; try done. destruct Hres as (? & _ & s2 & log & Hl & ?).
           split; [done|]. split; [by left|]. exists s2, log. split; [|done]. rewrite last_cons. by rewrite Hl.
      * unfold mret, se_ret. eexists _, _, [s]. split; [reflexivity|]. split; [simpl; by rewrite Hp2|].
        split; [simpl; by rewrite Hs2, Hs1|]. split.
        -- split; [simpl; lia|]. split; [by constructor|]. split; [done|constructor].
        -- split; [done|]. split; [by left|]. exists s, (sent w2). by rewrite Er.
    + destruct (IH body tried (Some e) w2') as (res & w' & ss & Hrun & Hok' & Hsent & (Hlen & Hall & Hbody) & Hres).
      { by rewrite Hp2. }
      exists res, w', ss. split; [exact Hrun|]. split; [done|].
      split; [by rewrite Hsent, Hs2, Hs1|]. split; [split; [lia|done]|done].
Qed.

(** C23: Bounded retries. A request always ends in a response or an error. It puts at most six
    requests on the wire when it is a GET or a HEAD and at most one otherwise, so nothing with
    side effects is ever sent twice; all carry the original method, URI, headers and connection
    group; only the first carries the body; and a response is the network's answer to the last
    of them, through a ready exit. *)
Theorem request_sends r w :
  pools_ok (pools w) →
  ∃ res w' ss, request t r w = (res, w') ∧ sent w' = sent w ++ ss ∧
    (length ss <= match o_method r with GET | HEAD => 6 | _ => 1 end)%nat ∧
    Forall (fun s => s_method s = o_method r ∧ s_uri s = o_uri r ∧ s_headers s = o_headers r ∧
                     s_group s = to_lowercase (default [] (o_host r))) ss ∧
    match ss with [] => True | s :: rest => s_body s = o_body r ∧ Forall (fun s => s_body s = body_empty) rest end ∧
    match res with
    | Ok (c, resp) => candidate_ready c = true ∧ ∃ s log, list.last ss = Some s ∧ (reply log s).2 = inr resp
    | Err _ => True
    | _ => False
    end.
Proof using Hlook Henv.
  intros Hok. unfold request.
  destruct (attempts_loop_spec (if retryable (o_method r) then MAX_ATTEMPTS else 1%nat) r
    (to_lowercase (default [] (o_host r))) (Some (o_body r)) [] None w Hok)
    as (res & w' & ss & Hrun & _ & Hs & (Hlen & Hall & Hb) & Hres).
  exists res, w', ss. split; [exact Hrun|]. split; [done|]. split; [revert Hlen; unfold retryable; by destruct (o_method r)|]. split; [done|].
  split; [by destruct ss|]. destruct res as [[c resp]| | |]; try done. by destruct Hres as (? & _ & ?).
Qed.
(** ** Errors *)

Context {TL : Pool.TunnelLaws T}.

(** A ready tunnel has a proxy, so what can go wrong with its client is the library's. *)
Lemma client_ready cand w : candidate_ready cand = true →
  (∃ c w', client cand w = (Ok c, w')) ∨ ∃ msg w', client cand w = (Err (RequestFailed msg), w').
Proof using TL.
  intros Hr. unfold client, mbind, se_bind, get_st, lift_res, next, next_profile, put_client, modify_st, mret, se_ret.
  destruct (match clients w !! key cand with Some _ => _ | None => _ end); [left; eauto|].
  destruct (Pool.ready_url (tunnel cand) Hr) as [u ->]. cbn [ok_or].
  destruct (proxy_all u) as [|px]; cbn [req_err]; [eauto|]. destruct (build_client _ px); cbn [req_err]; eauto.
Qed.

(** Once an attempt has failed, its error is the answer unless a later one succeeds. *)
Lemma attempts_loop_error n r g body tried msg w res w' : pools_ok (pools w) →
  attempts_loop n t r g body tried (Some (RequestFailed msg)) w = (res, w') → res ≠ Err NoUpstream.
Proof using Hlook Henv TL.
  revert body tried msg w. induction n as [|n IH]; intros body tried msg w Hok; cbn [attempts_loop]; [by intros [= <- _]|].
  unfold catch at 1. destruct (ready_candidate_total tried w Hok) as (rc & w1 & -> & Hok1 & _ & [->|(cand & -> & Hready & _)]); [by intros [= <- _]|].
  assert (∀ b tr m w2, pools w2 = pools w1 → attempts_loop n t r g b tr (Some (RequestFailed m)) w2 = (res, w') → res ≠ Err NoUpstream) as Hnext.
  { intros b tr m w2 E. apply IH. by rewrite E. }
  unfold catch at 1. destruct (client_total cand w1) as (rcl & w2 & [(Hcl & Hs2 & Hp2 & c & ->)|(e & w2' & Hcl & Hs2 & Hp2)]); rewrite Hcl.
  - unfold catch, send. destruct (reply _ _) as [d [err|resp]]; cbn [req_err]; [|by intros [= <- _]].
    unfold mbind, se_bind, evict, modify_st. cbn [pools clients profile_counter clock sent]. by apply Hnext.
  - destruct (client_ready cand w1 Hready) as [(c & w3 & E)|(m & w3 & E)]; rewrite E in Hcl; [done|].
    injection Hcl as <- <-. by apply Hnext.
Qed.


(** ** A request that is served *)

(** An exit that is ready when a request arrives is found at the first look. *)
Lemma ready_candidate_some w x : pools_ok (pools w) → visible (pools w) (t_pool t) x → wanted (t_protocol t) x = true →
  (∀ y, visible (pools w) (t_pool t) y → pp_key y = pp_key x → is_ready (pp_tunnel y) = true) →
  ∃ c w1, ready_candidate t [] w = (Ok c, w1) ∧ candidate_ready c = true.
Proof using Type.
  intros ((rank & Hwf & Hdepth) & Hsome & _) Hv Hw Hy.
  destruct (filtered_spec rank depth (t_pool t) (t_protocol t) (pools w) Hwf Hsome Hdepth) as (l0 & s' & n & Hl & _ & Hrep).
  set (l := rotate_left n _) in Hl.
  assert (∃ c, c ∈ l ∧ candidate_ready c = true) as (c & Hc & Hready).
  { pose proof (proj2 (proj2 Hrep) x (conj Hv Hw)) as (c & Ek & Hc)%list_elem_of_fmap. exists c.
    split; [unfold l; by rewrite (rotate_left_perm n), sort_by_key_perm|].
    destruct (proj1 (proj2 Hrep) c Hc) as (y & [Hvy _] & -> & _). by apply Hy. }
  clearbody l. assert (∃ d, choose [] l = Some d) as [d Hd].
  { unfold choose. assert (filter (fun c => key c ∉ []) l = l) as -> by (clear; induction l as [|e l IH]; [done|]; rewrite filter_cons_True by apply not_elem_of_nil; by rewrite IH).
    assert ((match l with [] => l | _ => l end) = l) as -> by (by destruct l).
    destruct (list_find candidate_ready l) as [[i d]|] eqn:Ef; [by exists d|]. apply list_find_None in Ef.
    rewrite Forall_forall in Ef. exfalso. apply (Ef c Hc). by rewrite Hready. }
  exists d, (mkWorld s' (clients w) (profile_counter w) (clock w) (sent w)).
  split; [|by apply choose_Some in Hd as (_ & ? & _)].
  unfold ready_candidate. unfold mbind at 1, se_bind at 1, get_st. unfold READY_POLLS. cbn [ready_loop].
  unfold mbind at 1, se_bind at 1, get_st. unfold READY_TIMEOUT. case_cmp; [lia|].
  unfold mbind at 1, se_bind at 1, lift_pools. rewrite Hl. destruct l as [|e l']; [by apply elem_of_nil in Hc|]. by rewrite Hd.
Qed.

(** With an HTTP library that takes the proxies and a network that answers, so is the request. *)
Lemma request_served r w x : pools_ok (pools w) → visible (pools w) (t_pool t) x → wanted (t_protocol t) x = true →
  (∀ y, visible (pools w) (t_pool t) y → pp_key y = pp_key x → is_ready (pp_tunnel y) = true) →
  (∀ u, ∃ px, proxy_all u = inr px) → (∀ p px, ∃ c, build_client p px = inr c) → (∀ log s, ∃ d resp, reply log s = (d, inr resp)) →
  ∃ c resp w', request t r w = (Ok (c, resp), w').
Proof using TL.
  intros Hok Hv Hw Hy Hpx Hbc Hreply. destruct (ready_candidate_some w x Hok Hv Hw Hy) as (cand & w1 & E1 & Hready).
  assert (∃ c w2, client cand w1 = (Ok c, w2)) as (c & w2 & E2).
  { unfold client, mbind, se_bind, get_st, lift_res, next, next_profile, put_client, modify_st, mret, se_ret.
    destruct (match clients w1 !! key cand with Some _ => _ | None => _ end); [eauto|].
    destruct (Pool.ready_url (tunnel cand) Hready) as [u ->]. cbn [ok_or]. destruct (Hpx u) as [px ->]. cbn [req_err].
    edestruct Hbc as [c ->]. cbn [req_err]. eauto. }
  assert (∀ payload host, ∃ resp w3, send c r payload host w2 = (Ok resp, w3)) as Hsend.
  { intros payload host. unfold send. edestruct Hreply as (d & resp & ->). eauto. }
  unfold request. assert (∃ n, (if retryable (o_method r) then MAX_ATTEMPTS else 1%nat) = S n) as [n ->] by (destruct (retryable _); eauto).
  cbn [attempts_loop]. unfold catch at 1. rewrite E1. unfold catch at 1. rewrite E2. unfold catch.
  edestruct Hsend as (resp & w3 & ->). unfold mret, se_ret. eauto.
Qed.

(** ** Which way a request leaves *)

(** [leads k c]: the client goes out through the exit with this key; the cache holds such clients
    only. *)
Context (leads : str → Client → Prop) (allowed : PoolProxy (T:=T) → Prop).
Definition cache_ok (w : World) : Prop := ∀ k cc, clients w !! k = Some cc → leads k (c_client cc).
Definition leads_out (x : PoolProxy (T:=T)) : Prop := ∀ u px p c,
  proxy_url (pp_tunnel x) = Some u → proxy_all u = inr px → build_client p px = inr c → leads (pp_key x) c.
Context (Hallowed : ∀ s x, safe s → visible s (t_pool t) x → wanted (t_protocol t) x = true → allowed x ∧ leads_out x).
Definition allowed_candidate (c : Candidate) : Prop := ∃ x, allowed x ∧ leads_out x ∧ c = to_candidate x.

Lemma chosen_allowed skip c : chosen skip c → allowed_candidate c.
Proof using Hallowed.
  intros (_ & s & (_ & _ & Hs) & (x & Hv & Hw & ->) & _). destruct (Hallowed s x Hs Hv Hw). by exists x.
Qed.

Lemma client_leads cand w r w' : allowed_candidate cand → cache_ok w → client cand w = (r, w') →
  cache_ok w' ∧ sent w' = sent w ∧ pools w' = pools w ∧ ∀ c, r = Ok c → leads (key cand) c.
Proof using Type.
  intros (x & _ & Hx & ->) Hc. unfold client, mbind, se_bind, get_st, lift_res, next, next_profile, put_client, modify_st, mret, se_ret.
  destruct (match clients w !! _ with Some _ => _ | None => _ end) as [c|] eqn:Ec.
  - intros [= <- <-]. split; [done|]. split; [done|]. split; [done|]. intros d [= <-].
    destruct (clients w !! key (to_candidate x)) as [cc|] eqn:Ek; [|done]. case_match; [|done]. injection Ec as <-. by apply Hc.
  - destruct (proxy_url (tunnel (to_candidate x))) as [u|] eqn:Eu; cbn [ok_or]; [|by intros [= <- <-]].
    destruct (proxy_all u) as [|px] eqn:Ep; cbn [req_err]; [by intros [= <- <-]|].
    destruct (build_client _ px) as [|cx] eqn:Eb; cbn [req_err]; intros [= <- <-]; [done|].
    assert (leads (pp_key x) cx) as Hcx by (by eapply Hx). split; [|split; [done|split; [done|by intros c [= <-]]]].
    intros k cc. cbn [clients]. intros [[<- <-]|[_ Hk]]%lookup_insert_Some; [done|by apply (Hc k)].
Qed.

(** Whatever is sent goes out through a client of an allowed exit, and what answers is one. *)
Lemma attempts_loop_leads n r g body tried last w res w' :
  pools_ok (pools w) → cache_ok w → attempts_loop n t r g body tried last w = (res, w') →
  cache_ok w' ∧ (∃ ss, sent w' = sent w ++ ss ∧ Forall (fun s => ∃ x, allowed x ∧ leads (pp_key x) (s_client s)) ss).
Proof using Hlook Henv Hallowed.
  revert body tried last w. induction n as [|n IH]; intros body tried last w Hok Hc; cbn [attempts_loop].
  { intros [= <- <-]. split; [done|]. exists []. by rewrite app_nil_r. }
  unfold catch at 1. destruct (ready_candidate_total tried w Hok) as (rc & w1 & -> & Hok1 & (Hc1 & Hst1 & _) & Hrc).
  assert (cache_ok w1) as Hcache1 by (unfold cache_ok; by rewrite Hc1).
  destruct Hrc as [->|(cand & -> & Ha%chosen_allowed)]; [intros [= <- <-]; split; [done|]; exists []; by rewrite app_nil_r|].
  unfold catch at 1. destruct (client cand w1) as [rcl w2] eqn:E2. destruct (client_leads _ _ _ _ Ha Hcache1 E2) as (Hc2 & Hst2 & Hp2 & Hl).
  rewrite <- Hp2 in Hok1. rewrite <- Hst1, <- Hst2.
  destruct rcl as [c|e| |]; [|by apply IH|intros [= <- <-]; split; [done|]; exists []; by rewrite app_nil_r..].
  specialize (Hl c eq_refl). unfold catch, send. set (s := mkSent _ _ _ _ _ _).
  assert (∃ x, allowed x ∧ leads (pp_key x) (s_client s)) as Hs by (destruct Ha as (x & ? & _ & ->); by exists x).
  destruct (reply (sent w2) s) as [d [err|resp]]; cbn [req_err].
  - unfold mbind, se_bind, evict, modify_st. cbn [pools clients profile_counter clock sent].
    intros Hrun. apply IH in Hrun as (? & ss & Hss & Hall); [|done|].
    + split; [done|]. exists (s :: ss). rewrite Hss. cbn [sent]. rewrite <- app_assoc. split; [done|]. by constructor.
    + intros k cc. cbn [clients]. intros [_ Hk]%lookup_delete_Some. by apply (Hc2 k).
  - intros [= <- <-]. split; [done|]. exists [s]. split; [done|]. by constructor.
Qed.

End Wf.
End Upstream.

(** * A concrete transport: the first answer fails, later ones succeed *)

#[export] Instance toy_http : HttpLib := {|
  Client := Profile * str;
  ReqBody := str;
  body_empty := [];
  HttpResponse := str;
  HttpProxy := str;
  proxy_all u := inr u;
  build_client p u := inr (p, u)
|}.

Definition toy_up : World (T:=nat) (H:=toy_headers) (W:=toy_http) := mkWorld toy_store ∅ 0 0 [].
Definition toy_reply (log : list (Sent (H:=toy_headers) (W:=toy_http))) (s : Sent (H:=toy_headers) (W:=toy_http))
    : Z * (str + str) :=
  match log with [] => (5, inl (Lit "reset")) | _ => (5, inr (Lit "hello")) end.
Definition toy_get : Outgoing (H:=toy_headers) (W:=toy_http) :=
  mkOutgoing GET (Lit "https://Example.com/") (Some (Lit "Example.com")) ([] : HeaderMap (HeaderLib:=toy_headers)) (Lit "body").
Definition toy_transport : RotatingTransport := mkTransport 0 None.

(** Nothing else is asked of the pools. *)
Definition any_pools (s : gmap nat (ProxyPool (T:=nat))) : Prop := True.
Lemma any_pools_look s s' : same_shape s s' → any_pools s → any_pools s'.
Proof. done. Qed.

Lemma toy_pools_ok : pools_ok (T:=nat) 2 toy_transport any_pools toy_store.
Proof. split; [exists toy_rank; split; [exact toy_store_wf|vm_compute; lia]|]. split; [vm_compute; eauto|done]. Qed.

Lemma client_per_generation_witness :
  ∃ w', client (H:=toy_headers) (to_candidate (toy_proxy (Lit "b") 2 0 Vpn)) toy_up
        = (Ok (Chrome136, Lit "socks5://127.0.0.1:1080"), w') ∧
    clients w' !! Lit "b" = Some (mkCached (W:=toy_http) 2 (Chrome136, Lit "socks5://127.0.0.1:1080")).
Proof.
  eexists. split; [reflexivity|].
  exact (proj1 (client_per_generation (H:=toy_headers) (to_candidate (toy_proxy (Lit "b") 2 0 Vpn)) toy_up
                  (Chrome136, Lit "socks5://127.0.0.1:1080") _ eq_refl)).
Defined.

Lemma ready_candidate_spec_witness :
  ∃ r w', ready_candidate (H:=toy_headers) 2 (fun _ s => s) toy_transport [Lit "c"] toy_up = (r, w') ∧
    (r = Err NoUpstream ∨ ∃ c, r = Ok c ∧ chosen (T:=nat) 2 toy_transport any_pools [Lit "c"] c).
Proof.
  destruct (ready_candidate_spec (H:=toy_headers) (W:=toy_http) 2 (fun _ s => s) toy_transport)
    with (safe := any_pools) (skip := [Lit "c"]) (w := toy_up) as (r & w' & H1 & _ & _ & _ & H2);
    [exact any_pools_look|auto|exact toy_pools_ok|].
  exists r, w'. split; [exact H1|exact H2].
Defined.

Lemma request_sends_witness :
  let run := request (H:=toy_headers) (L:=toy_lru) 2 (fun _ s => s) toy_reply toy_transport toy_get toy_up in
  (s_body <$> sent run.2) = [Lit "body"; Lit ""] ∧
  ∃ ss, sent run.2 = [] ++ ss ∧ (length ss <= 6)%nat.
Proof.
  cbv zeta. split; [vm_compute; reflexivity|].
  destruct (request_sends (H:=toy_headers) (L:=toy_lru) (W:=toy_http) 2 (fun _ s => s) toy_reply toy_transport)
    with (safe := any_pools) (r := toy_get) (w := toy_up) as (r & w' & ss & H1 & H2 & H3 & _);
    [exact any_pools_look|auto|exact toy_pools_ok|].
  exists ss. rewrite H1. split; [exact H2|exact H3].
Defined.

(** A pool with nothing in it. *)
Definition toy_bare : World (T:=nat) (H:=toy_headers) (W:=toy_http) := mkWorld {[0%nat := mkPool [] [] 0]} ∅ 0 0 [].
Lemma toy_bare_ok : pools_ok (T:=nat) 2 toy_transport any_pools (pools toy_bare).
Proof.
  split; [exists toy_rank; split; [|vm_compute; lia]|split; [vm_compute; eauto|done]].
  assert (∀ id p, pools toy_bare !! id = Some p → p = mkPool [] [] 0) as Hp
    by (cbn [pools toy_bare]; intros id p [_ <-]%lookup_singleton_Some; done).
  split; [intros id p ->%Hp; constructor..|intros id p c ->%Hp []%elem_of_nil|intros id p c ->%Hp []%elem_of_nil].
Qed.
(** Every exit fails. *)
Definition toy_down (log : list (Sent (H:=toy_headers) (W:=toy_http))) (s : Sent (H:=toy_headers) (W:=toy_http))
    : Z * (str + str) := (5, inl (Lit "reset")).

