(* ===== verification/Geo.v ===== *)
(** geo.rs: looking up the operator and country of an exit address, with two caches. The HTTP
    client and the JSON parser are parameters. *)
From S2P Require Import Prelude Text Exit Upstream.

Record Lookup := mkLookup { isp : str; country : str }.
Definition lookup_default : Lookup := mkLookup [] [].
Definition LOOKUP_TIMEOUT : Z := 3000.
Definition DEFAULT_BASE : str := Lit "https://ipwho.is".

(** [serde_json]: indexing a missing member gives null, whose accessors give [None]. *)
Class JsonLib := {
  Json : Type;
  json_parse : str → option Json;
  json_index : Json → str → Json;
  json_str : Json → option str;
  json_bool : Json → option bool
}.

(** Two ASCII upper-case letters. *)
Definition is_country_code (c : str) : bool := (length c =? 2)%nat && forallb is_upper c.

Section Geo.
Context {L : LruLib} {J : JsonLib}.
Context (GeoClient : Type) (build : Profile → option GeoClient).
(** A GET: how long it takes, and the status and text when there is a response. *)
Context (http_get : GeoClient → str → Z * option (Z * option str)).

(** What the service's answer says. *)
Definition read_answer (body : Json) : Lookup :=
  let isp := default [] (json_str (json_index (json_index body (Lit "connection")) (Lit "isp"))) in
  let isp := if decide (isp = []) then default [] (json_str (json_index (json_index body (Lit "connection")) (Lit "org")))
             else isp in
  let country :=
    if default false (json_bool (json_index body (Lit "success"))) then
      let code := to_ascii_uppercase (trim (default [] (json_str (json_index body (Lit "country_code"))))) in
      if is_country_code code then code else []
    else [] in
  mkLookup isp country.

Definition fetch (client : GeoClient) (ip : str) : Z * option Lookup :=
  let '(d, response) := http_get client (DEFAULT_BASE ++ Lit "/" ++ ip) in
  (d, '(status, text) ← response;
      if status =? 200 then text ← text; body ← json_parse text; Some (read_answer body) else None).

(** [capacity] of the caches: config.rs, [EXIT_CACHE_ENTRIES]. *)
Definition capacity : nat := Z.to_nat 4096.

(** The caches and the profile counter. *)
Record GeoState := mkGeo { isp_cache : LruCache str; country_cache : LruCache str; geo_profile : Z }.

Definition fetch_uncached (ip : str) (g : GeoState) : (Z * option Lookup) * GeoState :=
  let '(p, n) := next_profile (geo_profile g) in
  let g := mkGeo (isp_cache g) (country_cache g) n in
  match build p with
  | None => ((0, None), g)
  | Some client => (fetch client ip, g)
  end.

Definition put_answer (ip : str) (l : Lookup) (g : GeoState) : GeoState :=
  mkGeo (if decide (isp l = []) then isp_cache g else lru_put (isp_cache g) ip (isp l))
        (if decide (country l = []) then country_cache g else lru_put (country_cache g) ip (country l))
        (geo_profile g).

Definition lookup_within (ip : str) (timeout : Z) (g : GeoState) : Lookup * GeoState :=
  if decide (ip = []) then (lookup_default, g)
  else
    let '(cached_isp, isps) := lru_get (isp_cache g) ip in
    let '(cached_country, countries) := lru_get (country_cache g) ip in
    let g := mkGeo isps countries (geo_profile g) in
    match cached_isp, cached_country with
    | Some isp, Some country => (mkLookup isp country, g)
    | _, _ =>
        match fetch_uncached ip g with
        | ((d, Some result), g) => if d <=? timeout then (result, put_answer ip result g) else (lookup_default, g)
        | (_, g) => (lookup_default, g)
        end
    end.

(** * Properties *)

Context {Laws : LruLaws L}.

Record geo_ok (g : GeoState) : Prop := {
  go_isp ip i : lru_peek (isp_cache g) ip = Some i → i ≠ [];
  go_country ip c : lru_peek (country_cache g) ip = Some c → is_country_code c = true
}.

Lemma read_answer_country body : country (read_answer body) = [] ∨ is_country_code (country (read_answer body)) = true.
Proof using Type.
  unfold read_answer. simpl. destruct (default false _); [|by left].
  destruct (is_country_code _) eqn:E; [by right|by left].
Qed.

Lemma put_peek {V} (c : LruCache V) k v k' e :
  lru_peek (lru_put c k v) k' = Some e → k' = k ∧ e = v ∨ lru_peek c k' = Some e.
Proof using Laws.
  destruct (decide (k' = k)) as [->|Hne].
  - rewrite lru_peek_put. intros [= ->]. by left.
  - intros H. right. by eapply lru_peek_put_ne.
Qed.

(** A lookup either answers from the caches, or makes one fetch and answers what it got in time. *)
Lemma lookup_cases ip timeout g : ip ≠ [] →
  let g0 := mkGeo (lru_get (isp_cache g) ip).2 (lru_get (country_cache g) ip).2 (geo_profile g) in
  (∃ i c, lru_peek (isp_cache g) ip = Some i ∧ lru_peek (country_cache g) ip = Some c ∧
     lookup_within ip timeout g = (mkLookup i c, g0)) ∨
  ((lru_peek (isp_cache g) ip = None ∨ lru_peek (country_cache g) ip = None) ∧
   ((∃ d l body, (fetch_uncached ip g0).1 = (d, Some l) ∧ d <= timeout ∧ l = read_answer body ∧
       lookup_within ip timeout g = (l, put_answer ip l (fetch_uncached ip g0).2)) ∨
    lookup_within ip timeout g = (lookup_default, (fetch_uncached ip g0).2))).
Proof using Laws.
  intros Hip. unfold lookup_within. rewrite decide_False by done.
  rewrite <- (lru_get_peek (isp_cache g) ip), <- (lru_get_peek (country_cache g) ip).
  destruct (lru_get (isp_cache g) ip) as [oi isps]. destruct (lru_get (country_cache g) ip) as [oc countries].
  cbv zeta. cbn [fst snd]. set (g0 := mkGeo isps countries (geo_profile g)).
  assert (∀ d l, (fetch_uncached ip g0).1 = (d, Some l) → ∃ body, l = read_answer body) as Hread.
  { intros d l. unfold fetch_uncached, next_profile. destruct (build _) as [cl|]; [|done]. cbn [fst].
    unfold fetch. destruct (http_get cl _) as [d' [[st tx]|]]; [|done]. cbn.
    case_match; [|done]. destruct tx as [tx|]; [|done]. cbn. destruct (json_parse tx) as [body|]; [|done]. cbn.
    intros [= _ <-]. eauto. }
  assert ((∃ d l body, (fetch_uncached ip g0).1 = (d, Some l) ∧ d <= timeout ∧ l = read_answer body ∧
       match fetch_uncached ip g0 with
       | ((d, Some result), g) => if d <=? timeout then (result, put_answer ip result g) else (lookup_default, g)
       | (_, g) => (lookup_default, g)
       end = (l, put_answer ip l (fetch_uncached ip g0).2)) ∨
       match fetch_uncached ip g0 with
       | ((d, Some result), g) => if d <=? timeout then (result, put_answer ip result g) else (lookup_default, g)
       | (_, g) => (lookup_default, g)
       end = (lookup_default, (fetch_uncached ip g0).2)) as Hfetch.
  { destruct (fetch_uncached ip g0) as [[d [l|]] g1] eqn:Ef; [|by right].
    destruct (Hread d l) as [body Hb]; [done|]. case_cmp; [|by right]. left. exists d, l, body. done. }
  destruct oi as [i|], oc as [c|]; [left; eauto|right; split; [by right|exact Hfetch]
    |right; split; [by left|exact Hfetch]|right; split; [by left|exact Hfetch]].
Qed.

Lemma fetch_uncached_caches ip g : isp_cache (fetch_uncached ip g).2 = isp_cache g ∧
  country_cache (fetch_uncached ip g).2 = country_cache g.
Proof using Type. unfold fetch_uncached, next_profile. by destruct (build _). Qed.

(** The geo caches. In every state reached by lookups, whatever the service answers and
    whatever the cache evicts, the country cache holds only two-letter upper-case codes and the
    operator cache no empty names; a lookup's country is empty or such a code. A failed or late
    lookup changes no entry, so it is retried, and an answer for an address whose operator and
    country are both cached needs no request. *)
Theorem geo_lookup_spec ip timeout g :
  geo_ok g →
  let '(l, g') := lookup_within ip timeout g in
  geo_ok g' ∧ (country l = [] ∨ is_country_code (country l) = true) ∧
  (l = lookup_default → ∀ k, lru_peek (isp_cache g') k = lru_peek (isp_cache g) k ∧
                             lru_peek (country_cache g') k = lru_peek (country_cache g) k) ∧
  (ip ≠ [] → isp l ≠ [] → lru_peek (isp_cache g') ip = Some (isp l)) ∧
  (ip ≠ [] → country l ≠ [] → lru_peek (country_cache g') ip = Some (country l)) ∧
  (∀ i c, ip ≠ [] → lru_peek (isp_cache g) ip = Some i → lru_peek (country_cache g) ip = Some c →
     l = mkLookup i c ∧ geo_profile g' = geo_profile g).
Proof using Laws.
  intros Hok. pose proof Hok as [Hi Hc]. destruct (decide (ip = [])) as [->|Hip].
  { unfold lookup_within. rewrite decide_True by done. split; [done|]. split; [by left|].
    split; [done|]. by repeat split. }
  pose proof (lookup_cases ip timeout g Hip) as Hcases. cbv zeta in Hcases.
  set (g0 := mkGeo _ _ _) in Hcases.
  assert (∀ k, lru_peek (isp_cache g0) k = lru_peek (isp_cache g) k) as Hpi by (intros; apply lru_peek_get).
  assert (∀ k, lru_peek (country_cache g0) k = lru_peek (country_cache g) k) as Hpc by (intros; apply lru_peek_get).
  destruct (fetch_uncached_caches ip g0) as [Hfi Hfc].
  destruct Hcases as [(i & c & Ei & Ec & ->)|[Hnone [(d & l & body & Hf & Hd & Hl & ->)| ->]]].
  - split; [split; intros k v; rewrite ?Hpi, ?Hpc; eauto|]. split; [right; by eapply Hc|].
    split; [intros [= -> _]; by apply Hi in Ei|]. cbn [isp country].
    split; [intros; by rewrite Hpi|]. split; [intros; by rewrite Hpc|].
    intros i' c' _ Hi' Hc'. simplify_eq. done.
  - assert (country l = [] ∨ is_country_code (country l) = true) as Hcl by (subst l; apply read_answer_country).
    split; [split; intros k v; unfold put_answer; cbn [isp_cache country_cache]|].
    + case_decide as He; [rewrite Hfi, Hpi; apply Hi|].
      intros [[-> ->]|Hp]%put_peek; [done|]. rewrite Hfi, Hpi in Hp. by eapply Hi.
    + case_decide as He; [rewrite Hfc, Hpc; apply Hc|].
      intros [[-> ->]|Hp]%put_peek; [by destruct Hcl|]. rewrite Hfc, Hpc in Hp. by eapply Hc.
    + split; [done|]. split; [|split; [|split]].
      * intros -> k. unfold put_answer. cbn [isp_cache country_cache isp country lookup_default].
        by rewrite !decide_True, Hfi, Hfc by done.
      * intros _ He. unfold put_answer. cbn [isp_cache]. rewrite decide_False by done. apply lru_peek_put.
      * intros _ He. unfold put_answer. cbn [country_cache]. rewrite decide_False by done. apply lru_peek_put.
      * intros i c _ Hi' Hc'. destruct Hnone; congruence.
  - split; [split; intros k v; rewrite ?Hfi, ?Hfc, ?Hpi, ?Hpc; eauto|]. split; [by left|].
    split; [intros _ k; by rewrite Hfi, Hfc|]. split; [done|]. split; [done|].
    intros i c _ Hi' Hc'. destruct Hnone; congruence.
Qed.
End Geo.

(** * A toy service: the "JSON" is a flat association list *)

#[export] Instance toy_json : JsonLib := {|
  Json := option str;
  json_parse t := if decide (t = []) then None else Some (Some t);
  json_index j k := if decide (k = Lit "connection") then None
                    else if decide (k = Lit "org") then Some (Lit "ExampleNet") else j;
  json_str j := j;
  json_bool j := Some true
|}.
Definition toy_geo_get (c : ()) (url : str) : Z * option (Z * option str) := (50, Some (200, Some (Lit " sg "))).
Definition toy_geo : GeoState (L:=toy_lru) := mkGeo (lru_new 4) (lru_new 4) 0.

Example toy_lookup :
  (lookup_within () (fun _ => Some ()) toy_geo_get (Lit "1.2.3.4") LOOKUP_TIMEOUT toy_geo).1
  = mkLookup (Lit "ExampleNet") (Lit "SG").
Proof. vm_compute. reflexivity. Qed.

Lemma geo_lookup_spec_witness :
  let '(l, g') := lookup_within () (fun _ => Some ()) toy_geo_get (Lit "1.2.3.4") LOOKUP_TIMEOUT toy_geo in
  geo_ok g' ∧ (country l = [] ∨ is_country_code (country l) = true).
Proof.
  assert (geo_ok toy_geo) as H by (split; discriminate).
  pose proof (geo_lookup_spec () (fun _ => Some ()) toy_geo_get (Lit "1.2.3.4") LOOKUP_TIMEOUT toy_geo H) as Hs.
  destruct (lookup_within _ _ _ _ _ _) as [l g']. split; [exact (proj1 Hs)|exact (proj1 (proj2 Hs))].
Defined.
