(* ===== verification/Forward.v ===== *)
(** forward.rs: the forwarder behind a route. It rewrites the request for the target, sends it
    through the rotating transport, records the exit, and rewrites the response. *)
From S2P Require Import Prelude Text Sorting Pool RequestPath Exit Routing Server Upstream Geo.

Section Forward.
Context {T : Type} {TT : Pool.Tunnel T} {H : HeaderLib} {L : LruLib} {W : HttpLib} {J : JsonLib}.

(** What forwarders keep besides the pools and the exit cache: the global client cache, the
    profile counter, the geo caches, the clock and the wire. *)
Record FwdState := mkFwd {
  f_clients : gmap str (CachedClient (W:=W));
  f_counter : Z;
  f_clock : Z;
  f_sent : list (Sent (H:=H) (W:=W));
  f_isp : LruCache str;
  f_country : LruCache str
}.

(** What is passed on to the client. *)
Record FwdResponse := mkFwdResponse { p_status : Z; p_headers : HeaderMap; p_body : HttpResponse }.

Context {B : Type}.
Abbreviation World := (Server.World (T:=T) (L:=L) (X:=FwdState)).
Abbreviation M A := (SE World Server.Error A).

(** Parameters: the URI parser (the rendered URI and its host), the request and response types of
    the HTTP client, the exit a tunnel reports, the lookup's HTTP client, and the environment of
    the transport. *)
Context (uri_parse : str → option (str * option str)) (wrap_body : B → ReqBody).
Context (resp_status : HttpResponse → Z) (resp_headers : HttpResponse → HeaderMap).
Context (exit_for : T → str → Exit).
Context (GeoClient : Type) (build_geo : Profile → option GeoClient)
        (http_get : GeoClient → str → Z * option (Z * option str)).
Context (depth : nat) (env : Z → gmap nat (ProxyPool (T:=T)) → gmap nat (ProxyPool (T:=T))).
Context (reply : list (Sent (H:=H) (W:=W)) → Sent (H:=H) (W:=W) → Z * (str + HttpResponse)).

(** Running the transport, and a geo lookup, on the server's world. *)
Definition to_up (w : World) : Upstream.World (T:=T) (H:=H) (W:=W) :=
  Upstream.mkWorld (store w) (f_clients (extra w)) (f_counter (extra w)) (f_clock (extra w)) (f_sent (extra w)).
Definition from_up (u : Upstream.World (T:=T) (H:=H) (W:=W)) (w : World) : World :=
  Server.mkWorld (pools u) (exits w)
    (mkFwd (clients u) (profile_counter u) (clock u) (sent u) (f_isp (extra w)) (f_country (extra w))).

Definition run_transport (t : RotatingTransport) (r : Outgoing) : M (Candidate * HttpResponse) := fun w =>
  let '(res, u) := request depth env reply t r (to_up w) in
  (match res with
   | Ok x => Ok x
   | Err e => Err (Forward (Upstream.error_text e))
   | Panic => Panic
   | NoFuel => NoFuel
   end, from_up u w).

Definition geo_lookup (ip : str) : M Lookup := fun w =>
  let x := extra w in
  let '(l, g) := lookup_within GeoClient build_geo http_get ip LOOKUP_TIMEOUT (mkGeo (f_isp x) (f_country x) (f_counter x)) in
  (Ok l, Server.mkWorld (store w) (exits w)
           (mkFwd (f_clients x) (geo_profile g) (f_clock x) (f_sent x) (isp_cache g) (country_cache g))).

(** The outgoing headers. *)
Definition outgoing_headers (headers : HeaderMap) (host : str) : HeaderMap :=
  let headers := strip_hop_headers (strip_client_headers headers) in
  match hv_from_str host with
  | Some value => hm_insert headers (Lit "host") value
  | None => headers
  end.

Definition insert_parsed (name value : str) (headers : HeaderMap) : HeaderMap :=
  match hv_from_str value with Some v => hm_insert headers name v | None => headers end.

Definition set_egress_headers (headers : HeaderMap) (exit : option Exit) : M HeaderMap :=
  match exit with
  | None => mret headers
  | Some exit =>
      if decide (ip exit = []) then mret headers
      else
        let headers := insert_parsed (Lit "x-unroxy-ip") (ip exit) headers in
        l ← geo_lookup (ip exit);
        mret (if decide (isp l = []) then headers else insert_parsed (Lit "x-unroxy-isp") (isp l) headers)
  end.

Definition record_exit (host : str) (e : Exit) : M () := modify_st (fun w =>
  Server.mkWorld (store w) (record (exits w) host e) (extra w)).

Definition send (t : RotatingTransport) (request : Request (H:=H) (B:=B)) (target : Target)
    : M (Response FwdResponse) :=
  '(uri, uri_host) ← lift_res (ok_or (uri_parse (uri_text target)) MissingTarget);
  let outgoing := mkOutgoing (method request) uri uri_host
                    (outgoing_headers (headers request) (host target)) (wrap_body (request_body request)) in
  '(candidate, response) ← run_transport t outgoing;
  record_exit (host target) (exit_for (tunnel candidate) (host target));;
  w ← get_st;
  let exit := get (exits w) (host target) in
  headers ← set_egress_headers (strip_hop_headers (resp_headers response)) exit;
  mret (Passed (mkFwdResponse (resp_status response) headers response)).

(** [WreqFactory]: the forwarders of a region, of the default route, and of a protocol. *)
Definition region_forward (pool : nat) : RotatingTransport := mkTransport pool None.
Definition default_forward (pool : nat) : RotatingTransport := mkTransport pool None.
Definition protocol_forward (p : Protocol) (pool : nat) : RotatingTransport := mkTransport pool (Some p).

(** * Properties *)

Context {HLaws : HeaderLaws H} {LLaws : LruLaws L}.

Lemma get_outgoing headers host n :
  hm_get (outgoing_headers headers host) n
  = match hv_from_str host with
    | Some v => if decide (n = Lit "host") then Some v
                else if decide (n ∈ client_headers ++ hop_headers) then None else hm_get headers n
    | None => if decide (n ∈ client_headers ++ hop_headers) then None else hm_get headers n
    end.
Proof using HLaws.
  unfold outgoing_headers. destruct (hv_from_str host) as [v|]; [|apply get_stripped].
  rewrite hm_get_insert, get_stripped. destruct (decide (Lit "host" = n)) as [<-|Hn]; [by rewrite decide_True|].
  by rewrite (decide_False (P:=n = Lit "host")).
Qed.

(** A forward is a run of the transport; what follows it leaves the pools, the clients and the wire
    alone. *)
Lemma send_up t request target w res w' : send t request target w = (res, w') →
  uri_parse (uri_text target) = None ∧ res = Err MissingTarget ∧ w' = w ∨
  ∃ uri uhost r u, uri_parse (uri_text target) = Some (uri, uhost) ∧
    Upstream.request depth env reply t (mkOutgoing (method request) uri uhost
      (outgoing_headers (headers request) (host target)) (wrap_body (request_body request))) (to_up w) = (r, u) ∧
    store w' = pools u ∧ f_clients (extra w') = clients u ∧ f_sent (extra w') = sent u ∧
    match r with
    | Ok _ => ∃ x, res = Ok (Passed x)
    | Err e => res = Err (Forward (Upstream.error_text e))
    | Panic => res = Panic
    | NoFuel => res = NoFuel
    end.
Proof using Type.
  unfold send, lift_res. unfold mbind at 1, se_bind at 1.
  destruct (uri_parse (uri_text target)) as [[uri uhost]|] eqn:Eu; [|intros [= <- <-]; by left].
  cbn [ok_or]. unfold mbind at 1, se_bind at 1, run_transport.
  destruct (Upstream.request _ _ _ _ _ _) as [r u] eqn:Er. intros Hfin. right. exists uri, uhost, r, u. split; [done|]. split; [exact Er|].
  destruct r as [[c resp]|e| |]; [|by injection Hfin as <- <-..].
  unfold mbind, se_bind, record_exit, modify_st, get_st, mret, se_ret in Hfin. cbn [exits extra from_up store] in Hfin.
  unfold set_egress_headers in Hfin. destruct (get _ _) as [e|]; [|injection Hfin as <- <-; do 3 (split; [done|]); eauto].
  case_decide; [injection Hfin as <- <-; do 3 (split; [done|]); eauto|].
  unfold mbind, se_bind, geo_lookup in Hfin. destruct (lookup_within _ _ _ _ _ _) as [l g].
  injection Hfin as <- <-; do 3 (split; [done|]); eauto.
Qed.

Context (t : RotatingTransport).
Context (safe : gmap nat (ProxyPool (T:=T)) → Prop) (Hlook : ∀ s s', same_shape s s' → safe s → safe s').
Context (Henv : ∀ now s, pools_ok depth t safe s → pools_ok depth t safe (env now s)).


End Forward.

(** * A concrete forward: one retry, then an answer *)

Definition toy_uri (u : str) : option (str * option str) := Some (u, Some (Lit "example.com")).
Definition toy_resp_headers (r : str) : HeaderMap (HeaderLib:=toy_headers) :=
  [(Lit "connection", Lit "close"); (Lit "server", Lit "x")].
Definition toy_fwd_world : Server.World (T:=nat) (L:=toy_lru) (X:=FwdState (H:=toy_headers) (L:=toy_lru) (W:=toy_http)) :=
  Server.mkWorld toy_store exit_cache_default (mkFwd ∅ 0 0 [] (lru_new 4) (lru_new 4)).
Definition toy_client_request : Request (H:=toy_headers) (B:=str) :=
  mkRequest GET None None None (Lit "/example.com/") None
    ([(Lit "x-real-ip", Lit "10.0.0.1"); (Lit "accept", Lit "*/*"); (Lit "host", Lit "proxy:8080")]
     : HeaderMap (HeaderLib:=toy_headers)) (Lit "body").
Definition toy_target : Target := mkTarget (Lit "https") (Lit "example.com") (Lit "/") [].
Definition toy_send := send (H:=toy_headers) (L:=toy_lru) (W:=toy_http) (J:=toy_json) toy_uri (fun b => b)
  (fun _ => 200) toy_resp_headers toy_exit_for () (fun _ => Some ()) toy_geo_get 2 (fun _ s => s) toy_reply
  toy_transport toy_client_request toy_target.

Example toy_wire :
  s_headers <$> f_sent (extra (toy_send toy_fwd_world).2)
  = replicate 2 ([(Lit "host", Lit "example.com"); (Lit "accept", Lit "*/*")] : HeaderMap (HeaderLib:=toy_headers)).
Proof. vm_compute. reflexivity. Qed.


