(* ===== verification/Socks.v ===== *)
(** The SOCKS5 bridges of ssh/socks.rs ([handle]) and vpn/provider.rs ([serve_socks]): both speak
    the same protocol on a local connection and differ in how they dial. The client's bytes are
    given up to the end of its stream. *)
From S2P Require Import Prelude Text.

(** [read_exact]: an error when the stream ends first. *)
Definition read_exact (n : nat) (l : list byte) : option (list byte * list byte) :=
  if (length l <? n)%nat then None else Some (take n l, drop n l).

(** * [Ipv4Addr] and [Ipv6Addr] as text *)

Definition show_ipv4 (a : list byte) : str :=
  match a with
  | [a; b; c; d] => show_uint (b2z a) ++ Lit "." ++ show_uint (b2z b) ++ Lit "." ++ show_uint (b2z c)
                    ++ Lit "." ++ show_uint (b2z d)
  | _ => []
  end.

Definition hex_digit (d : Z) : byte := u8 (if d <? 10 then 48 + d else 87 + d).
(** [{:x}] of a 16-bit group *)
Definition show_hex16 (z : Z) : str :=
  let digits := [z / 4096; z / 256 mod 16; z / 16 mod 16; z mod 16] in
  let fix strip l := match l with
                     | [d] => [d]
                     | d :: r => if d =? 0 then strip r else l
                     | [] => []
                     end in
  hex_digit <$> strip digits.

Fixpoint groups16 (l : list byte) : list Z :=
  match l with
  | a :: b :: r => (b2z a * 256 + b2z b) :: groups16 r
  | _ => []
  end.

Fixpoint join (sep : str) (l : list str) : str :=
  match l with
  | [] => []
  | [x] => x
  | x :: l => x ++ sep ++ join sep l
  end.

(** The first longest run of zero groups: its start and length. *)
Fixpoint zero_run (i : nat) (cur best : nat * nat) (l : list Z) : nat * nat :=
  match l with
  | [] => best
  | g :: l =>
      if g =? 0 then
        let cur := ((if (cur.2 =? 0)%nat then i else cur.1), S cur.2) in
        zero_run (S i) cur (if (best.2 <? cur.2)%nat then cur else best) l
      else zero_run (S i) (0%nat, 0%nat) best l
  end.

Definition show_ipv6 (a : list byte) : str :=
  if decide (take 12 a = replicate 10 x00 ++ [xff; xff]) then Lit "::ffff:" ++ show_ipv4 (drop 12 a)
  else
    let gs := groups16 a in
    let '(start, len) := zero_run 0 (0%nat, 0%nat) (0%nat, 0%nat) gs in
    let show l := join (Lit ":") (show_hex16 <$> l) in
    if (1 <? len)%nat then show (take start gs) ++ Lit "::" ++ show (drop (start + len) gs) else show gs.

Example show_ipv6_examples :
  map show_ipv6 [replicate 15 x00 ++ [x01]; [x20; x01; x0d; xb8] ++ replicate 10 x00 ++ [x00; x2a];
                 replicate 10 x00 ++ [xff; xff; x0a; x00; x00; x01]]
  = [Lit "::1"; Lit "2001:db8::2a"; Lit "::ffff:10.0.0.1"].
Proof. vm_compute. reflexivity. Qed.

(** * The protocol *)

(** The client's request: what was written before it was complete, and the target with the bytes
    that follow it ([None] when the connection is dropped). *)
Definition greeting_reply : list byte := [x05; x00].

Definition read_host (kind : byte) (l : list byte) : option (str * list byte) :=
  match kind with
  | x01 => '(a, l) ← read_exact 4 l; Some (show_ipv4 a, l)
  | x04 => '(a, l) ← read_exact 16 l; Some (show_ipv6 a, l)
  | x03 => '(n, l) ← read_exact 1 l;
           '(a, l) ← read_exact (Z.to_nat (from_be n)) l;
           Some (from_utf8_lossy a, l)
  | _ => None
  end.

Definition read_request (l : list byte) : option (str * Z * list byte) :=
  '(request, l) ← read_exact 4 l;
  match request with
  | [x05; x01; _; kind] =>
      '(host, l) ← read_host kind l;
      '(port, l) ← read_exact 2 l;
      Some (host, from_be port, l)
  | _ => None
  end.

Definition handshake (l : list byte) : list byte * option (str * Z * list byte) :=
  match ('(greeting, l) ← read_exact 2 l;
         match greeting with
         | [x05; n] => '(_, l) ← read_exact (Z.to_nat (b2z n)) l; Some l
         | _ => None
         end) with
  | None => ([], None)
  | Some l => (greeting_reply, read_request l)
  end.

Definition success_reply : list byte := [x05; x00; x00; x01] ++ replicate 6 x00.
Definition failure_reply : list byte := [x05; x01; x00; x01] ++ replicate 6 x00.

(** The bridge: what is written to the client, and the connection that is then spliced with the
    rest of the client's bytes. *)
Definition serve {C} (dial : str → Z → option C) (l : list byte) : list byte * option (C * list byte) :=
  match handshake l with
  | (out, None) => (out, None)
  | (out, Some (host, port, rest)) =>
      match dial host port with
      | Some c => (out ++ success_reply, Some (c, rest))
      | None => (out ++ failure_reply, None)
      end
  end.

(** [socks::serve] and [spawn_socks]: a task for each client that is accepted, until one is not. *)
Fixpoint accept_clients {E C} (accepts : list (E + C)) : list C :=
  match accepts with
  | inr client :: accepts => client :: accept_clients accepts
  | _ => []
  end.
(** One failed accept ends the bridge for good. *)
Lemma bridge_ends {E C} (clients : list C) (e : E) later : accept_clients ((inr <$> clients) ++ inl e :: later) = clients.
Proof. induction clients as [|c clients IH]; [done|]. cbn. by rewrite IH. Qed.

(** * Properties *)

(** An address as a client encodes it (RFC 1928), and the text the bridge dials. *)
Inductive address := V4 (a : list byte) | V6 (a : list byte) | Domain (name : list byte).
Definition encode_address (a : address) : list byte :=
  match a with
  | V4 a => x01 :: a
  | V6 a => x04 :: a
  | Domain n => x03 :: u8 (Z.of_nat (length n)) :: n
  end.
Definition address_text (a : address) : str :=
  match a with V4 a => show_ipv4 a | V6 a => show_ipv6 a | Domain n => n end.
Definition address_ok (a : address) : Prop :=
  match a with
  | V4 a => length a = 4%nat
  | V6 a => length a = 16%nat
  | Domain n => Z.of_nat (length n) < 256 ∧ Forall (fun b => b2z b < 128) n
  end.

(** A client's greeting and CONNECT request. *)
Definition encode_request (methods : list byte) (a : address) (port : Z) : list byte :=
  [x05; u8 (Z.of_nat (length methods))] ++ methods ++ [x05; x01; x00] ++ encode_address a ++ be16 port.

Lemma take_exact_app p r : read_exact (length p) (p ++ r) = Some (p, r).
Proof.
  unfold read_exact. rewrite length_app. case_cmp; [lia|].
  by rewrite take_app_length, drop_app_length.
Qed.

Lemma take_exact_app' n p r : length p = n → read_exact n (p ++ r) = Some (p, r).
Proof. intros <-. apply take_exact_app. Qed.

Lemma u8_length n : Z.of_nat n < 256 → Z.to_nat (b2z (u8 (Z.of_nat n))) = n.
Proof. intros H. rewrite b2z_u8, Z.mod_small by lia. lia. Qed.

Lemma from_be_single b : from_be [b] = b2z b.
Proof. rewrite from_be_cons. pose proof (from_be_range []). simpl in *. lia. Qed.

Lemma read_host_encode a kind rest l :
  address_ok a → encode_address a = kind :: rest → read_host kind (rest ++ l) = Some (address_text a, l).
Proof.
  destruct a as [a|a|n]; simpl; intros Ha [= <- <-]; cbn [read_host].
  - by rewrite (take_exact_app' 4).
  - by rewrite (take_exact_app' 16).
  - destruct Ha as [Hlen Hascii]. change (u8 (Z.of_nat (length n)) :: n) with ([u8 (Z.of_nat (length n))] ++ n).
    rewrite <- app_assoc, (take_exact_app' 1) by done. cbn [mbind option_bind].
    rewrite from_be_single, u8_length, take_exact_app by done. cbn. by rewrite from_utf8_lossy_ascii.
Qed.

(** The SOCKS5 bridge. Whatever methods a client offers, its CONNECT request for an IPv4,
    IPv6 or domain target is dialled with exactly that host and port; it gets the method reply and
    then the success or failure reply, and on success the bytes it sent after the request are the
    first to reach the target. Any other version or command is dropped without a reply code. *)
Theorem socks_serve_spec {C} (dial : str → Z → option C) methods a port rest :
  Z.of_nat (length methods) < 256 → address_ok a → is_u16 port →
  serve dial (encode_request methods a port ++ rest)
  = match dial (address_text a) port with
    | Some c => (greeting_reply ++ success_reply, Some (c, rest))
    | None => (greeting_reply ++ failure_reply, None)
    end ∧
  (∀ b l, b ≠ x05 → serve dial (b :: l) = ([], None)) ∧
  (∀ cmd l, cmd ≠ x01 →
     serve dial ([x05; u8 (Z.of_nat (length methods))] ++ methods ++ [x05; cmd] ++ l) = (greeting_reply, None)).
Proof.
  intros Hm Ha Hp.
  assert (∀ l, handshake ([x05; u8 (Z.of_nat (length methods))] ++ methods ++ l)
            = (greeting_reply, read_request l)) as Hgreet.
  { intros l. unfold handshake. rewrite (take_exact_app' 2) by done. cbn [mbind option_bind].
    by rewrite u8_length, take_exact_app by done. }
  split; [|split].
  - unfold serve, encode_request. rewrite <- !app_assoc, Hgreet.
    destruct (encode_address a) as [|kind enc] eqn:Ea; [by destruct a|].
    assert (read_request ([x05; x01; x00] ++ (kind :: enc) ++ be16 port ++ rest) = Some (address_text a, port, rest)) as ->.
    { unfold read_request.
      change ([x05; x01; x00] ++ (kind :: enc) ++ be16 port ++ rest)
        with ([x05; x01; x00; kind] ++ enc ++ be16 port ++ rest).
      rewrite (take_exact_app' 4) by done. cbn [mbind option_bind].
      rewrite (read_host_encode a kind enc) by done. cbn [mbind option_bind].
      rewrite (take_exact_app' 2) by apply be_bytes_length. cbn [mbind option_bind].
      by rewrite from_be16. }
    by destruct (dial _ _).
  - intros b l Hb. unfold serve, handshake, read_exact.
    destruct (length (b :: l) <? 2)%nat; [done|]. cbn [take mbind option_bind].
    destruct l as [|c l]; destruct b; done.
  - intros cmd l Hc. unfold serve. rewrite Hgreet. unfold read_request, read_exact.
    destruct (length ([x05; cmd] ++ l) <? 4)%nat; [done|]. cbn [take mbind option_bind app].
    destruct l as [|x [|y l]]; destruct cmd; done.
Qed.

Definition toy_dial (h : str) (p : Z) : option Z := if decide (h = Lit "example.com") then Some p else None.
Lemma socks_serve_spec_witness :
  serve toy_dial (encode_request [x00; x02] (Domain (Lit "example.com")) 443 ++ Lit "GET /")
  = (greeting_reply ++ success_reply, Some (443, Lit "GET /")).
Proof.
  refine (eq_trans (proj1 (socks_serve_spec toy_dial [x00; x02] (Domain (Lit "example.com")) 443 (Lit "GET /") _ _ _)) _);
    [vm_compute; reflexivity|split; [vm_compute; reflexivity|repeat constructor]
    |vm_compute; split; congruence|vm_compute; reflexivity].
Defined.
