(* ===== verification/VpnAccount.v ===== *)
(** vpn/account.rs: from an account file to a tunnel profile. The TOML parser and the embedded
    files are parameters. *)
From S2P Require Import Prelude Text Sorting OvpnConfig.

Record Remote := mkRemote { r_port : option Z; r_protocol : option str }.

Record Account := mkAccount {
  a_region : str;
  a_cipher : option str;
  a_auth : option str;
  a_ca : str;
  a_cert : str;
  a_key : str;
  a_remotes : list Remote
}.

(** [embedded]: the file name's stem is the address; files that do not parse are skipped. The
    [BTreeMap] is an association list sorted by address. *)
Definition embed (parse : str → option Account) (accounts : list (str * Account)) (f : option str * option str) : list (str * Account) :=
  match f with
  | (Some ip, Some text) => match parse text with
                            | Some account => bt_set ip account accounts
                            | None => accounts
                            end
  | _ => accounts
  end.
Definition embedded (parse : str → option Account) (files : list (option str * option str)) : list (str * Account) :=
  foldl (embed parse) [] files.

Definition protocol_of (value : option str) : Protocol :=
  match value with
  | Some v => if decide (v = Lit "tcp" ∨ v = Lit "tcp-client" ∨ v = Lit "tcp-server") then Tcp else Udp
  | None => Udp
  end.

Definition pem (value label : str) : str :=
  let value := trim value in
  let begin := Lit "-----BEGIN " ++ label ++ Lit "-----" in
  let finish := Lit "-----END " ++ label ++ Lit "-----" in
  if starts_with begin value && ends_with finish value then value ++ [x0a] else value.

(** [Vec::dedup_by]: an element goes when it is the same as the last one kept. *)
Fixpoint dedup_from {A} (same : A → A → bool) (prev : A) (l : list A) : list A :=
  match l with
  | [] => []
  | x :: l => if same x prev then dedup_from same prev l else x :: dedup_from same x l
  end.
Definition dedup_by {A} (same : A → A → bool) (l : list A) : list A :=
  match l with [] => [] | x :: l => x :: dedup_from same x l end.

Definition same_server (a b : Server) : bool :=
  (port a =? port b) && bool_decide (protocol a = protocol b).

(** [sort_by_key(|server| server.protocol != Udp)] *)
Definition udp_first (s : Server) : Z := match protocol s with Udp => 0 | Tcp => 1 end.

Definition remote_server (host : str) (r : Remote) : Server :=
  mkServer host (default 1194 (r_port r)) (protocol_of (r_protocol r)).

Definition profile (a : Account) (host : str) : res str Profile :=
  cipher ← match a_cipher a with
           | Some name => ok_or (Cipher.parse name) (Lit "cipher " ++ name)
           | None => Ok Aes256Gcm
           end;
  let auth := default Sha1 (a_auth a ≫= Auth.parse) in
  let servers := remote_server host <$> a_remotes a in
  let servers := match servers with [] => [mkServer host 1194 Udp] | _ => servers end in
  Ok {| servers := dedup_by same_server (sort_by_key udp_first servers);
        cipher := cipher; auth := auth;
        credentials := {| ca := pem (a_ca a) (Lit "CERTIFICATE");
                          cert := pem (a_cert a) (Lit "CERTIFICATE");
                          key := pem (a_key a) (Lit "PRIVATE KEY") |} |}.

(** * Properties *)

Lemma dedup_from_spec {A} (same : A → A → bool) prev l :
  (∀ x, same x x = true) → (∀ x y z, same x y = true → same y z = true → same x z = true) →
  (dedup_from same prev l `sublist_of` l) ∧
  (∀ x, x ∈ l → ∃ y, y ∈ prev :: dedup_from same prev l ∧ same x y = true) ∧
  (∀ i x y, (prev :: dedup_from same prev l) !! i = Some x → (prev :: dedup_from same prev l) !! S i = Some y →
     same y x = false).
Proof.
  intros Hr Ht. revert prev. induction l as [|a l IH]; intros prev; simpl.
  - split; [constructor|]. split; [intros x Hx; by apply elem_of_nil in Hx|done].
  - destruct (same a prev) eqn:Ea.
    + destruct (IH prev) as (H1 & H2 & H3). split; [by constructor|]. split; [|exact H3].
      intros x [->|Hx]%elem_of_cons; [|by apply H2]. exists prev. split; [by left|done].
    + destruct (IH a) as (H1 & H2 & H3). split; [by constructor|]. split.
      * intros x [->|Hx]%elem_of_cons.
        -- exists a. split; [right; by left|apply Hr].
        -- destruct (H2 x Hx) as (y & Hy & ?). exists y. split; [by right|done].
      * intros [|i] x y; simpl; [|apply H3].
        intros [= <-] [= <-]. done.
Qed.

Lemma dedup_by_spec {A} (same : A → A → bool) l :
  (∀ x, same x x = true) → (∀ x y z, same x y = true → same y z = true → same x z = true) →
  (dedup_by same l `sublist_of` l) ∧
  (∀ x, x ∈ l → ∃ y, y ∈ dedup_by same l ∧ same x y = true) ∧
  (∀ i x y, dedup_by same l !! i = Some x → dedup_by same l !! S i = Some y → same y x = false).
Proof.
  intros Hr Ht. destruct l as [|a l]; simpl.
  - split; [constructor|]. split; [intros x Hx; by apply elem_of_nil in Hx|done].
  - destruct (dedup_from_spec same a l Hr Ht) as (H1 & H2 & H3). split; [by constructor|]. split; [|exact H3].
    intros x [->|Hx]%elem_of_cons; [exists a; split; [by left|apply Hr]|by apply H2].
Qed.

Lemma same_server_refl s : same_server s s = true.
Proof. unfold same_server. by rewrite Z.eqb_refl, bool_decide_eq_true_2. Qed.
Lemma same_server_spec a b : same_server a b = true ↔ port a = port b ∧ protocol a = protocol b.
Proof. unfold same_server. by rewrite andb_true_iff, Z.eqb_eq, bool_decide_eq_true. Qed.

Lemma ordered_sublist {A} (key : A → Z) l l' : l' `sublist_of` l → ordered key l → ordered key l'.
Proof.
  induction 1 as [|x l1 l2 Hs IH|x l1 l2 Hs IH]; intros Ho.
  - done.
  - apply ordered_cons in Ho as [Hx Ho]. apply ordered_cons. split; [|by apply IH].
    intros y Hy. apply Hx. by eapply elem_of_sublist.
  - apply ordered_cons in Ho as [_ Ho]. by apply IH.
Qed.

(** Tunnel profiles. An account fails only on an unknown cipher name (no name means
    AES-256-GCM, an unknown digest SHA1). Its profile always has a server, all of them at the
    account's address; every remote of the account is represented by a server of the same port and
    protocol and no others are invented (a single UDP 1194 when there are no remotes); UDP servers
    come before TCP ones, and no two neighbours are the same endpoint. *)
Theorem profile_spec a host p :
  profile a host = Ok p →
  servers p ≠ [] ∧ (∀ s, s ∈ servers p → OvpnConfig.host s = host) ∧
  (∀ r, r ∈ a_remotes a → ∃ s, s ∈ servers p ∧ port s = default 1194 (r_port r) ∧
                               protocol s = protocol_of (r_protocol r)) ∧
  (∀ s, s ∈ servers p → (∃ r, r ∈ a_remotes a ∧ s = remote_server host r) ∨
                        a_remotes a = [] ∧ s = mkServer host 1194 Udp) ∧
  (∀ i j x y, (i < j)%nat → servers p !! i = Some x → servers p !! j = Some y →
     protocol x = Tcp → protocol y = Tcp) ∧
  (∀ i x y, servers p !! i = Some x → servers p !! S i = Some y →
     port x ≠ port y ∨ protocol x ≠ protocol y) ∧
  (match a_cipher a with Some n => Cipher.parse n = Some (cipher p) | None => cipher p = Aes256Gcm end) ∧
  auth p = default Sha1 (a_auth a ≫= Auth.parse).
Proof.
  unfold profile. intros Hp. apply res_bind_ok in Hp as (c & Hc & [= <-]). cbn [servers cipher auth].
  set (base := match remote_server host <$> a_remotes a with [] => _ | _ => _ end).
  set (sorted := sort_by_key udp_first base).
  destruct (dedup_by_spec same_server sorted same_server_refl) as (Hsub & Hrep & Hadj).
  { intros x y z. rewrite !same_server_spec. intros [-> ->]. done. }
  assert (∀ s, s ∈ base → (∃ r, r ∈ a_remotes a ∧ s = remote_server host r) ∨
                          a_remotes a = [] ∧ s = mkServer host 1194 Udp) as Hbase.
  { intros s. unfold base. destruct (a_remotes a) as [|r rs]; simpl.
    - intros [->|H]%elem_of_cons; [by right|by apply elem_of_nil in H].
    - intros Hs. left. change (_ :: _) with (remote_server host <$> (r :: rs)) in Hs.
      apply list_elem_of_fmap in Hs as (r' & -> & ?). eauto. }
  assert (∀ r, r ∈ a_remotes a → remote_server host r ∈ base) as Hin.
  { intros r Hr. unfold base. destruct (a_remotes a) as [|r0 rs]; [by apply elem_of_nil in Hr|].
    by apply (list_elem_of_fmap_2 (remote_server host)) in Hr. }
  assert (∀ s, s ∈ dedup_by same_server sorted → s ∈ base) as Hback.
  { intros s Hs. rewrite <- (sort_by_key_perm udp_first base). by eapply elem_of_sublist. }
  split; [|split; [|split; [|split; [|split; [|split; [|split]]]]]].
  - assert (base ≠ []) as Hne by (unfold base; by destruct (a_remotes a)).
    assert (sorted ≠ []) as Hsne.
    { intros Hs. apply Hne. apply Permutation_nil_r. rewrite <- Hs. symmetry. apply sort_by_key_perm. }
    by destruct sorted.
  - intros s Hs%Hback%Hbase. by destruct Hs as [(r & _ & ->)|[_ ->]].
  - intros r Hr. assert (remote_server host r ∈ sorted) as Hs.
    { unfold sorted. rewrite (sort_by_key_perm udp_first base). by apply Hin. }
    destruct (Hrep _ Hs) as (y & Hy & [? ?]%same_server_spec). exists y. by repeat split.
  - intros s Hs%Hback. by apply Hbase.
  - assert (ordered udp_first (dedup_by same_server sorted)) as Ho
      by (eapply ordered_sublist; [exact Hsub|apply sort_by_key_ordered]).
    intros i j x y Hij Hx Hy Hpx. pose proof (Ho i j x y Hij Hx Hy) as Hle.
    unfold udp_first in Hle. rewrite Hpx in Hle. destruct (protocol y); [lia|done].
  - intros i x y Hx Hy. pose proof (Hadj i x y Hx Hy) as Hs.
    destruct (decide (port x = port y)) as [E1|]; [|by left].
    destruct (decide (protocol x = protocol y)) as [E2|]; [|by right].
    by rewrite (proj2 (same_server_spec y x)) in Hs.
  - destruct (a_cipher a) as [n|]; [|by injection Hc].
    destruct (Cipher.parse n); simpl in Hc; congruence.
  - done.
Qed.

Definition toy_account : Account :=
  mkAccount (Lit "SG") None (Some (Lit "MD4")) [] [] []
    [mkRemote (Some 443) (Some (Lit "tcp")); mkRemote None None; mkRemote (Some 1194) (Some (Lit "udp"))].
Lemma profile_spec_witness :
  ∃ p, profile toy_account (Lit "198.51.100.1") = Ok p ∧ servers p ≠ [] ∧
    servers p = [mkServer (Lit "198.51.100.1") 1194 Udp; mkServer (Lit "198.51.100.1") 443 Tcp].
Proof.
  eexists. split; [reflexivity|]. split; [|vm_compute; reflexivity].
  exact (proj1 (profile_spec toy_account (Lit "198.51.100.1") _ eq_refl)).
Defined.
