(* ===== verification/VpnProvider.v ===== *)
(** vpn/provider.rs: the life cycle of one VPN account. A tunnel is brought up on demand, counted
    by the connections through it, closed when idle, and retried with backoff; every change of
    tunnel changes the generation that the HTTP clients are cached under. *)
From S2P Require Import Prelude Text Exit OvpnConfig VpnAccount.

(** [struct Live]: its connection count is a wrapping [usize]; [idle] is the instant of
    [idle_since] in milliseconds. Live tunnels are shared ([Arc]), so they are named. *)
Record Live := mkLive { connections : Z; idle_since : option Z }.

(** The mutable state of [Account]; [slot] is the mutex-protected tunnel. *)
Record AccountState := mkState {
  slot : option nat;
  lives : gmap nat Live;
  socks_port : Z;
  failures : Z;
  not_before : Z;
  generation : Z;
  ready : bool
}.
Definition initial : AccountState := mkState None ∅ 0 0 0 0 false.

(** [backoff_delay], in seconds. *)
Definition backoff_delay (failures : Z) : Z := Z.shiftl 1 (Z.min failures 8).

(** What [VpnTunnel::connect] and the SOCKS bridge answer. *)
Inductive attempt := Up (port : Z) | SocksFailed (msg : str) | ConnectFailed (msg : str).

Abbreviation M A := (SE AccountState str A).

Definition connect (now : Z) (a : attempt) : M nat := fun s =>
  match a with
  | Up port =>
      let id := fresh (dom (lives s)) in
      (Ok id, mkState (Some id) (<[id := mkLive 0 None]> (lives s)) port 0 (not_before s) (generation s) true)
  | SocksFailed msg => (Err msg, s)
  | ConnectFailed msg =>
      let f := wrap64 (failures s + 1) in
      (Err msg, mkState (slot s) (lives s) (socks_port s) f (now + backoff_delay f * 1000)
                        (wrap64 (generation s + 1)) false)
  end.

Definition set_idle (id : nat) (i : option Z) (s : AccountState) : AccountState :=
  mkState (slot s) (alter (fun l => mkLive (connections l) i) id (lives s)) (socks_port s) (failures s)
          (not_before s) (generation s) (ready s).

Definition live (now : Z) (a : attempt) : M nat := fun s =>
  match slot s with
  | Some id => (Ok id, set_idle id None s)
  | None => if now <? not_before s then (Err (Lit "backoff"), s) else connect now a s
  end.

Definition bridge_ready (s : AccountState) : bool := ready s && negb (socks_port s =? 0).

(** [warm] drops the tunnel it got. *)
Definition warm (now : Z) (a : attempt) (s : AccountState) : AccountState := (live now a s).2.

(** [open], in two parts, because other tasks run while the stream is opened: getting the live
    tunnel, and counting the connection of the guard once the stream is there. *)
Definition open_begin := live.
Definition open_end (id : nat) (s : AccountState) : AccountState :=
  mkState (slot s) (alter (fun l => mkLive (wrap64 (connections l + 1)) (idle_since l)) id (lives s))
          (socks_port s) (failures s) (not_before s) (generation s) (ready s).

(** [Guard::drop] *)
Definition guard_drop (id : nat) (now : Z) (s : AccountState) : AccountState :=
  let drop l := let n := wrap64 (connections l - 1) in
                mkLive n (if n =? 0 then Some now else idle_since l) in
  mkState (slot s) (alter drop id (lives s)) (socks_port s) (failures s) (not_before s) (generation s) (ready s).

(** [idle_expired] starts the idle clock when it is not running. *)
Definition idle_expired (l : Live) (now timeout : Z) : bool * Live :=
  if 0 <? connections l then (false, l)
  else
    let since := default now (idle_since l) in
    (timeout <=? Z.max 0 (now - since), mkLive (connections l) (Some since)).

Definition reap (timeout now : Z) (s : AccountState) : AccountState :=
  match slot s with
  | None => s
  | Some id =>
      match lives s !! id with
      | None => s
      | Some l =>
          let '(expired, l) := idle_expired l now timeout in
          if negb expired then
            mkState (slot s) (<[id := if 0 <? connections l then mkLive (connections l) None else l]> (lives s))
                    (socks_port s) (failures s) (not_before s) (generation s) (ready s)
          else
            mkState None (<[id := mkLive (connections l) None]> (lives s)) 0 (failures s) (not_before s)
                    (wrap64 (generation s + 1)) false
      end
  end.

(** [impl Tunnel for Account] *)
Definition target_pool (s : AccountState) : nat := 1.
Definition active_tunnels (s : AccountState) : nat := if ready s then 1 else 0.
Definition proxy_url (s : AccountState) : option str :=
  if socks_port s =? 0 then None else Some (Lit "socks5h://127.0.0.1:" ++ show_uint (socks_port s)).
Definition exit_for (ip region : str) : Exit := mkExit ip region (Lit "openvpn").

(** [Account::new] *)
Definition account_region (file : VpnAccount.Account) : str :=
  if decide (a_region file = []) then Lit "UN" else a_region file.
Definition account_new (ip : str) (file : VpnAccount.Account) : res str (Profile * str * AccountState) :=
  p ← profile file ip; Ok (p, account_region file, initial).

(** * All interleavings *)

(** The tasks' steps; a guard holds the tunnel it was opened through. *)
Inductive event :=
| Warm (now : Z) (a : attempt)
| OpenBegin (now : Z) (a : attempt)
| OpenEnd (id : nat)
| Drop (guard : nat) (now : Z)
| Reap (now : Z).

(** The account, the tunnels handed to [open]s in progress, and the guards. *)
Record VState := mkV { acc : AccountState; opening : list nat; guards : list nat }.

Definition step (timeout : Z) (v : VState) (e : event) : VState :=
  match e with
  | Warm now a => mkV (warm now a (acc v)) (opening v) (guards v)
  | OpenBegin now a =>
      match open_begin now a (acc v) with
      | (Ok id, s) => mkV s (id :: opening v) (guards v)
      | (_, s) => mkV s (opening v) (guards v)
      end
  | OpenEnd id => if decide (id ∈ opening v) then mkV (open_end id (acc v)) (opening v) (id :: guards v) else v
  | Drop g now =>
      match guards v !! g with
      | Some id => mkV (guard_drop id now (acc v)) (opening v) (delete g (guards v))
      | None => v
      end
  | Reap now => mkV (reap timeout now (acc v)) (opening v) (guards v)
  end.

(** A listener's port is not zero. *)
Definition event_ok (e : event) : Prop :=
  match e with Warm _ (Up p) | OpenBegin _ (Up p) => 0 < p < 65536 | _ => True end.

Definition run (timeout : Z) (v : VState) (es : list event) : VState := foldl (step timeout) v es.

Definition count_of (id : nat) (l : list nat) : Z := Z.of_nat (length (filter (eq id) l)).

Record account_inv (v : VState) : Prop := {
  ai_down : slot (acc v) = None → ready (acc v) = false ∧ socks_port (acc v) = 0;
  ai_up id : slot (acc v) = Some id → ready (acc v) = true ∧ 0 < socks_port (acc v) < 65536 ∧ is_Some (lives (acc v) !! id);
  ai_held id : id ∈ opening v ++ guards v → is_Some (lives (acc v) !! id);
  ai_count id l : lives (acc v) !! id = Some l → connections l = wrap64 (count_of id (guards v));
  ai_generation : 0 <= generation (acc v) < 2 ^ 64
}.

Lemma wrap64_range z : 0 <= wrap64 z < 2 ^ 64.
Proof. apply Z.mod_pos_bound. lia. Qed.
Lemma wrap64_add a b : wrap64 (wrap64 a + b) = wrap64 (a + b).
Proof. unfold wrap64. by rewrite Z.add_mod_idemp_l by lia. Qed.

Lemma count_cons id g l : count_of id (g :: l) = (if decide (id = g) then 1 else 0) + count_of id l.
Proof. unfold count_of. rewrite filter_cons. case_decide; simpl; lia. Qed.

Lemma count_delete id g i l : l !! i = Some g → count_of id l = (if decide (id = g) then 1 else 0) + count_of id (delete i l).
Proof.
  intros Hi. rewrite <- count_cons. unfold count_of. f_equal.
  apply Permutation_length. apply filter_Permutation. symmetry. symmetry. by apply delete_Permutation.
Qed.

Lemma count_none id l : id ∉ l → count_of id l = 0.
Proof.
  induction l as [|g l IH]; [done|]. intros [Hg Hl]%not_elem_of_cons.
  rewrite count_cons, IH by done. by rewrite decide_False.
Qed.

Lemma count_pos id l : id ∈ l → 0 < count_of id l.
Proof.
  induction l as [|g l IH]; [intros H; by apply elem_of_nil in H|].
  rewrite count_cons. assert (0 <= count_of id l) by (unfold count_of; lia).
  intros [->|Hl]%elem_of_cons; [rewrite decide_True by done; lia|]. specialize (IH Hl). case_decide; lia.
Qed.

Lemma lookup_alter_is_Some (f : Live → Live) i j (m : gmap nat Live) :
  is_Some (alter f i m !! j) ↔ is_Some (m !! j).
Proof.
  destruct (decide (i = j)) as [->|Hne].
  - rewrite lookup_alter_eq, fmap_is_Some. done.
  - by rewrite lookup_alter_ne.
Qed.

(** An operation that only edits one live tunnel keeps everything but that tunnel's count. *)
Lemma live_inv v now a : account_inv v → event_ok (Warm now a) →
  account_inv (mkV (live now a (acc v)).2 (opening v) (guards v)) ∧
  ∀ id, (live now a (acc v)).1 = Ok id → is_Some (lives (live now a (acc v)).2 !! id).
Proof.
  intros [H1 H2 H3 H4 H5] Hev. unfold live. destruct (slot (acc v)) as [id|] eqn:Es; cbn [fst snd].
  - destruct (H2 id eq_refl) as (Hr & Hp & Hl). split.
    + split; cbn [acc opening guards slot lives socks_port ready generation set_idle]; rewrite ?Es; try done.
      * intros i [= <-]. split; [done|]. split; [done|]. by apply lookup_alter_is_Some.
      * intros i Hi. apply lookup_alter_is_Some. by apply H3.
      * intros i l Hi. destruct (decide (id = i)) as [->|Hne].
        -- rewrite lookup_alter_eq in Hi. apply fmap_Some in Hi as (l0 & Hl0 & ->). simpl. by apply H4.
        -- rewrite lookup_alter_ne in Hi by done. by apply H4.
    + intros i [= <-]. by apply lookup_alter_is_Some.
  - case_cmp; cbn [fst snd]; [split; [by split; cbn [acc opening guards]; rewrite ?Es|done]|].
    destruct a as [p|m|m]; cbn [connect fst snd].
    + set (i := fresh (dom (lives (acc v)))).
      assert (lives (acc v) !! i = None) as Hi by (apply not_elem_of_dom, is_fresh).
      assert (i ∉ guards v) as Hng.
      { intros Hg. destruct (H3 i) as [? ?]; [apply elem_of_app; by right|]. congruence. }
      split; [|intros j [= <-]; simpl; rewrite lookup_insert_eq; eauto].
      split; cbn [acc opening guards slot lives socks_port ready generation]; try done.
      * intros j [= <-]. rewrite lookup_insert_eq. split; [done|]. split; [exact Hev|eauto].
      * intros j Hj. apply lookup_insert_is_Some'. right. by apply H3.
      * intros j l [[<- <-]|[? Hj]]%lookup_insert_Some; [|by apply H4].
        simpl. by rewrite count_none.
    + split; [by split; cbn [acc opening guards]; rewrite ?Es|done].
    + split; [|done]. destruct (H1 eq_refl) as [_ Hp].
      split; cbn [acc opening guards slot lives socks_port ready generation]; rewrite ?Es; try done.
      apply wrap64_range.
Qed.

(** Editing one live tunnel in place, with the guards changed accordingly. *)
Lemma edit_inv v id f gs op :
  account_inv v →
  (∀ i, i ∈ op ++ gs → i ∈ opening v ++ guards v) →
  (∀ l, lives (acc v) !! id = Some l → connections (f l) = wrap64 (count_of id gs)) →
  (∀ i, i ≠ id → count_of i gs = count_of i (guards v)) →
  account_inv (mkV (mkState (slot (acc v)) (alter f id (lives (acc v))) (socks_port (acc v)) (failures (acc v))
                     (not_before (acc v)) (generation (acc v)) (ready (acc v))) op gs).
Proof.
  intros [H1 H2 H3 H4 H5] Hheld Hcount Hother.
  split; cbn [acc opening guards slot lives socks_port ready generation]; try done.
  - intros i Hi. destruct (H2 i Hi) as (? & ? & ?). by rewrite lookup_alter_is_Some.
  - intros i Hi. apply lookup_alter_is_Some. by apply H3, Hheld.
  - intros i l Hi. destruct (decide (id = i)) as [->|Hne].
    + rewrite lookup_alter_eq in Hi. apply fmap_Some in Hi as (l0 & Hl0 & ->). by apply Hcount.
    + rewrite lookup_alter_ne in Hi by done. rewrite Hother by done. by apply H4.
Qed.

Lemma reap_inv v timeout now : account_inv v →
  account_inv (mkV (reap timeout now (acc v)) (opening v) (guards v)).
Proof.
  intros Hinv. pose proof Hinv as [H1 H2 H3 H4 H5]. unfold reap.
  destruct (slot (acc v)) as [id|] eqn:Es; [|by split; cbn [acc opening guards]; rewrite ?Es].
  destruct (lives (acc v) !! id) as [l|] eqn:El; [|by split; cbn [acc opening guards]; rewrite ?Es].
  destruct (idle_expired l now timeout) as [expired l'] eqn:Ei.
  assert (connections l' = connections l) as Hc.
  { unfold idle_expired in Ei. destruct (0 <? connections l); by simplify_eq/=. }
  assert (∀ x, connections x = connections l →
            (∀ i l0, <[id:=x]> (lives (acc v)) !! i = Some l0 → connections l0 = wrap64 (count_of i (guards v))) ∧
            (∀ i, is_Some (lives (acc v) !! i) → is_Some (<[id:=x]> (lives (acc v)) !! i))) as Hins.
  { intros x Hx. split.
    - intros i l0 [[<- <-]|[? Hi]]%lookup_insert_Some; [rewrite Hx|]; by apply H4.
    - intros i Hi. apply lookup_insert_is_Some'. by right. }
  destruct expired; cbn [negb].
  - destruct (Hins (mkLive (connections l') None)) as [Hi1 Hi2]; [done|].
    split; cbn [acc opening guards slot lives socks_port ready generation]; try done.
    + intros i Hi. by apply Hi2, H3.
    + apply wrap64_range.
  - set (x := if 0 <? connections l' then _ else _).
    destruct (Hins x) as [Hi1 Hi2]; [unfold x; by destruct (0 <? connections l')|].
    split; cbn [acc opening guards slot lives socks_port ready generation]; try done.
    + intros i [= <-]. destruct (H2 id eq_refl) as (? & ? & ?). split; [done|]. split; [done|]. by apply Hi2.
    + intros i Hi. by apply Hi2, H3.
Qed.

Lemma step_inv timeout v e : account_inv v → event_ok e → account_inv (step timeout v e).
Proof.
  intros Hinv He. destruct e as [now a|now a|id|g now|now]; cbn [step].
  - by apply live_inv.
  - destruct (live_inv v now a Hinv He) as [Hl Hid]. unfold open_begin.
    destruct (live now a (acc v)) as [[id|m| |] s]; cbn [fst snd] in *; try done.
    destruct Hl as [H1 H2 H3 H4 H5]. split; cbn [acc opening guards] in *; try done.
    intros i [->|Hi]%elem_of_cons; [by apply Hid|by apply H3].
  - case_decide as Hin; [|done]. apply edit_inv; [done| | |].
    + intros i. rewrite !elem_of_app, elem_of_cons. naive_solver.
    + intros l Hl. simpl. rewrite (ai_count _ Hinv id l Hl), wrap64_add, count_cons, decide_True by done.
      f_equal. lia.
    + intros i Hi. rewrite count_cons, decide_False by done. lia.
  - destruct (guards v !! g) as [id|] eqn:Eg; [|done]. apply edit_inv; [done| | |].
    + intros i. rewrite !elem_of_app. intros [?|Hi]; [by left|right].
      by eapply elem_of_sublist, sublist_delete.
    + intros l Hl. simpl. rewrite (ai_count _ Hinv id l Hl), (count_delete id id g _ Eg), decide_True by done.
      unfold Z.sub. rewrite wrap64_add. f_equal. lia.
    + intros i Hi. rewrite (count_delete i id g _ Eg), decide_False by done. lia.
  - by apply reap_inv.
Qed.

Lemma initial_inv : account_inv (mkV initial [] []).
Proof. split; cbn; try done. intros i Hi. by apply elem_of_nil in Hi. Qed.

Lemma run_inv timeout v es : account_inv v → Forall event_ok es → account_inv (run timeout v es).
Proof. intros Hv Hes. revert v Hv. induction Hes as [|e es He _ IH]; intros v Hv; [done|]. by apply IH, step_inv. Qed.

Lemma reachable_inv timeout es : Forall event_ok es → account_inv (run timeout (mkV initial [] []) es).
Proof. apply run_inv, initial_inv. Qed.



(** [k] changes of tunnel after generation [g], when the tunnel was [id] behind port [p]. *)
Definition tracks (g : Z) (id : nat) (p k : Z) (s : AccountState) : Prop :=
  generation s = wrap64 (g + k) ∧ (k = 0 → slot s = Some id ∧ socks_port s = p).

Lemma live_tracks g id p k s now a : 0 <= k → tracks g id p k s →
  ∃ k1, (k1 = k ∨ k1 = k + 1) ∧ tracks g id p k1 (live now a s).2.
Proof.
  intros Hk [Hg H0]. unfold live. destruct (slot s) as [j|] eqn:Es.
  - exists k. split; [by left|]. split; cbn; [done|]. by rewrite Es.
  - assert (k ≠ 0) as Hne by (intros ->; destruct (H0 eq_refl); congruence).
    case_cmp; [exists k; split; [by left|done]|].
    destruct a; [exists k; split; [by left|done]|exists k; split; [by left|done]|].
    exists (k + 1). split; [by right|]. split; cbn; [rewrite Hg, wrap64_add; f_equal; lia|lia].
Qed.

Lemma reap_tracks g id p k s timeout now : 0 <= k → tracks g id p k s →
  ∃ k1, (k1 = k ∨ k1 = k + 1) ∧ tracks g id p k1 (reap timeout now s).
Proof.
  intros Hk Ht. pose proof Ht as [Hg H0]. unfold reap.
  destruct (slot s) as [j|] eqn:Es; [|exists k; split; [by left|done]].
  destruct (lives s !! j) as [l|]; [|exists k; split; [by left|done]].
  destruct (idle_expired l now timeout) as [[] l']; cbn [negb].
  - exists (k + 1). split; [by right|]. split; cbn; [rewrite Hg, wrap64_add; f_equal; lia|lia].
  - exists k. split; [by left|]. split; cbn; [done|]. by rewrite ?Es.
Qed.

Lemma step_tracks g id p k timeout v e : 0 <= k → tracks g id p k (acc v) →
  ∃ k1, (k1 = k ∨ k1 = k + 1) ∧ tracks g id p k1 (acc (step timeout v e)).
Proof.
  intros Hk Ht. destruct e as [now a|now a|j|i now|now]; cbn [step].
  - by apply live_tracks.
  - unfold open_begin. destruct (live_tracks g id p k (acc v) now a Hk Ht) as (k1 & Hk1 & Hrest).
    exists k1. split; [done|]. by destruct (live now a (acc v)) as [[x|m| |] s].
  - exists k. split; [by left|]. by case_decide.
  - exists k. split; [by left|]. by destruct (guards v !! i).
  - by apply reap_tracks.
Qed.

Lemma run_tracks g id p timeout es v k : 0 <= k → tracks g id p k (acc v) →
  ∃ k1, 0 <= k1 <= k + Z.of_nat (length es) ∧ tracks g id p k1 (acc (run timeout v es)).
Proof.
  revert v k. induction es as [|e es IH]; intros v k Hk Ht; [exists k; split; [simpl; lia|done]|].
  destruct (step_tracks g id p k timeout v e Hk Ht) as (k1 & Hk1 & Ht1).
  destruct (IH (step timeout v e) k1) as (k2 & Hk2 & Ht2); [lia|done|].
  exists k2. split; [simpl length; lia|done].
Qed.

(** Generations. A generation never names two different bridges: if, after any further
    steps (fewer than 2^64), the account has the generation it had while it offered a proxy URL,
    and offers one now, it is the same tunnel behind the same URL. *)
Theorem generation_names_bridge timeout es es' :
  Forall event_ok es → Forall event_ok es' → Z.of_nat (length es') < 2 ^ 64 →
  let v := run timeout (mkV initial [] []) es in
  let v' := run timeout v es' in
  is_Some (proxy_url (acc v)) → is_Some (proxy_url (acc v')) → generation (acc v') = generation (acc v) →
  proxy_url (acc v') = proxy_url (acc v) ∧ slot (acc v') = slot (acc v).
Proof.
  intros Hes Hes' Hlen v v' Hu Hu' Hgen. pose proof (reachable_inv timeout es Hes) as Hinv. fold v in Hinv.
  assert (is_Some (slot (acc v))) as [id Hs].
  { destruct (slot (acc v)) eqn:Es; [eauto|]. destruct (ai_down _ Hinv Es) as [_ Hp].
    unfold proxy_url in Hu. rewrite Hp in Hu. by destruct Hu. }
  destruct (run_tracks (generation (acc v)) id (socks_port (acc v)) timeout es' v 0) as (k & Hk & Hg & H0); [lia| |].
  { split; [|done]. rewrite Z.add_0_r. symmetry. apply Z.mod_small. apply (ai_generation _ Hinv). }
  fold v' in Hg, H0. assert (k = 0) as ->.
  { rewrite Hg in Hgen. pose proof (ai_generation _ Hinv) as Hr.
    unfold wrap64 in Hgen. destruct (decide (generation (acc v) + k < 2 ^ 64)) as [Hlt|Hge].
    - rewrite Z.mod_small in Hgen by lia. lia.
    - replace (generation (acc v) + k) with ((generation (acc v) + k - 2 ^ 64) + 1 * 2 ^ 64) in Hgen by lia.
      rewrite Z.mod_add, Z.mod_small in Hgen by lia. lia. }
  destruct (H0 eq_refl) as [Hsl Hp]. unfold proxy_url. rewrite Hp, Hsl, Hs. done.
Qed.

(** Backoff. A failed connection makes the account wait twice as long as the failure before,
    from two seconds up to 256 s, and until then no connection is attempted: whatever the network
    would have answered, the answer is "backoff" and nothing changes. *)
Theorem backoff_honoured now now' msg a s :
  slot s = None → 0 <= failures s < 2 ^ 64 - 1 →
  let s' := (live now (ConnectFailed msg) s).2 in
  now >= not_before s →
  slot s' = None ∧ not_before s' = now + 1000 * 2 ^ Z.min (failures s + 1) 8 ∧
  2000 <= not_before s' - now <= 256000 ∧
  (now' < not_before s' → live now' a s' = (Err (Lit "backoff"), s')).
Proof.
  intros Hs Hf s' Hnow. unfold s', live. rewrite Hs. rewrite (proj2 (Z.ltb_ge _ _)) by lia. cbn.
  unfold backoff_delay, wrap64. rewrite Z.mod_small by lia. rewrite Z.shiftl_1_l.
  assert (2 ^ 1 <= 2 ^ Z.min (failures s + 1) 8 <= 2 ^ 8) as Hp.
  { split; apply Z.pow_le_mono_r; lia. }
  change (2 ^ 1) with 2 in Hp. change (2 ^ 8) with 256 in Hp.
  split; [done|]. split; [lia|]. split; [lia|]. intros Hlt. rewrite Hs.
  by rewrite (proj2 (Z.ltb_lt _ _)) by done.
Qed.

(** * Concrete runs *)

Definition toy_events : list event := [Warm 0 (Up 1080); OpenBegin 1 (Up 1081); OpenEnd 0; Drop 0 500].
Lemma toy_events_ok : Forall event_ok toy_events.
Proof. repeat constructor. Qed.



Lemma generation_names_bridge_witness :
  let v := run 1000 (mkV initial [] []) toy_events in
  proxy_url (acc (run 1000 v [Reap 600; Warm 700 (Up 9)])) = proxy_url (acc v).
Proof.
  cbv zeta.
  apply (generation_names_bridge 1000 toy_events [Reap 600; Warm 700 (Up 9)] toy_events_ok);
    [repeat constructor|vm_compute; reflexivity|vm_compute; eauto|vm_compute; eauto|vm_compute; reflexivity].
Defined.

Lemma backoff_honoured_witness :
  live 3000 (Up 1080) (live 1500 (ConnectFailed (Lit "x")) initial).2
  = (Err (Lit "backoff"), (live 1500 (ConnectFailed (Lit "x")) initial).2).
Proof.
  apply (backoff_honoured 1500 3000 (Lit "x") (Up 1080) initial);
    [reflexivity|vm_compute; split; congruence|vm_compute; congruence|vm_compute; reflexivity].
Defined.
