(* ===== verification/VpnMod.v ===== *)
(** vpn/mod.rs: attaching the VPN accounts to the routing tables, and the supervisor that keeps
    each region's pool equal to its usable accounts. *)
From S2P Require Import Prelude Text Sorting Pool Routing.

Definition SUPERVISE_INTERVAL : Z := 5000.

Section Vpn.
Context {T : Type} {TT : Pool.Tunnel T}.

Abbreviation Store := (gmap nat (ProxyPool (T:=T))).
Abbreviation M A := (SE Store Empty_set A).

(** What the supervisor reads of an account: its name, region, and whether its bridge is ready. *)
Record VpnAccount := mkVpnAccount { va_name : str; va_region : str; va_ready : bool; va_tunnel : T }.

Definition proxy_key (a : VpnAccount) : str := Lit "openvpn://" ++ va_name a.
Definition proxy_for (a : VpnAccount) : PoolProxy := mkProxy (proxy_key a) (va_tunnel a) 0 Pool.Vpn.

(** [attach]: first the pools by region, then a region entry for each, in the map's order. *)
Fixpoint attach_pools (accounts : list VpnAccount) (regions : list (str * nat)) : M (list (str * nat)) :=
  match accounts with
  | [] => mret regions
  | a :: accounts =>
      '(pool, regions) ← (match bt_get (va_region a) regions with
                          | Some pool => mret (pool, regions)
                          | None => pool ← Pool.new []; mret (pool, bt_set (va_region a) pool regions)
                          end);
      (if va_ready a then push pool (proxy_for a) else mret ());;
      attach_pools accounts regions
  end.

Fixpoint attach_regions {F} (region_forward : str → nat → option F) (regions : list (str * nat)) (x : Proxy (F:=F)) : M (Proxy (F:=F)) :=
  match regions with
  | [] => mret x
  | (region, pool) :: regions =>
      entry ← Region_new region region;
      entry ← Region_add entry Pool.Vpn pool (region_forward region pool);
      x ← add_region x entry;
      attach_regions region_forward regions x
  end.

Definition attach {F} (region_forward : str → nat → option F) (accounts : list VpnAccount) (x : Proxy (F:=F)) : M (Proxy (F:=F) * list (str * nat)) :=
  regions ← attach_pools accounts [];
  x ← attach_regions region_forward regions x;
  mret (x, regions).

(** One tick of [supervise]. *)
Definition supervise_one (pools : list (str * nat)) (a : VpnAccount) : M () :=
  match bt_get (va_region a) pools with
  | None => mret ()
  | Some pool =>
      present ← contains 1 pool (proxy_key a);
      match va_ready a, present with
      | true, false => push pool (proxy_for a)
      | false, true => remove pool (proxy_key a)
      | _, _ => mret ()
      end
  end.
Fixpoint supervise (pools : list (str * nat)) (accounts : list VpnAccount) : M () :=
  match accounts with
  | [] => mret ()
  | a :: accounts => supervise_one pools a;; supervise pools accounts
  end.

(** * Properties *)

Definition pool_keys (s : Store) (id : nat) : list str :=
  match (s : gmap nat (ProxyPool (T:=T))) !! id with Some p => pp_key <$> proxies p | None => [] end.

(** The supervised pools are leaves of the graph. *)
Record supervised (rank : nat → nat) (pools : list (str * nat)) (s : Store) : Prop := {
  sv_store : wf_store rank s;
  sv_leaf r p : bt_get r pools = Some p → ∃ q, s !! p = Some q ∧ children q = []
}.

Lemma contains_leaf (s : Store) id p k : s !! id = Some p → children p = [] →
  contains 1 id k s = (Ok (bool_decide (k ∈ pp_key <$> proxies p)), s).
Proof.
  intros Hp Hc. unfold contains. cbn [all]. unfold mbind, se_bind. rewrite (get_pool_ok _ _ _ Hp), Hc. done.
Qed.

(** Replacing a leaf pool by a leaf pool with unique keys. *)
Lemma supervised_update rank pools (s : Store) id p p' : supervised rank pools s → s !! id = Some p → children p = [] →
  children p' = [] → NoDup (pp_key <$> proxies p') → supervised rank pools (<[id := p']> s).
Proof.
  intros [W Hl] Hp Hc Hc' Hnd. split; [|intros r q Hq].
  - apply (wf_update rank s id p); try done; rewrite Hc'; [constructor|intros c Hin; by apply elem_of_nil in Hin].
  - destruct (decide (q = id)) as [->|Hne]; [rewrite lookup_insert_eq; eauto|].
    rewrite lookup_insert_ne by done. eauto.
Qed.

Lemma supervise_one_spec rank pools s a pool :
  supervised rank pools s → bt_get (va_region a) pools = Some pool →
  ∃ s', supervise_one pools a s = (Ok (), s') ∧ supervised rank pools s' ∧
    (∀ k, k ∈ pool_keys s' pool ↔ if decide (k = proxy_key a) then va_ready a = true else k ∈ pool_keys s pool) ∧
    (∀ id, id ≠ pool → s' !! id = s !! id).
Proof.
  intros Hsv Hb. destruct (sv_leaf _ _ _ Hsv _ _ Hb) as (p & Hp & Hc).
  pose proof (wf_keys _ _ (sv_store _ _ _ Hsv) _ _ Hp) as Hnd.
  unfold supervise_one. rewrite Hb. unfold mbind, se_bind. rewrite (contains_leaf s pool p) by done.
  assert (∀ k, k ∈ pool_keys s pool ↔ k ∈ pp_key <$> proxies p) as Hkeys by (intros k; unfold pool_keys; by rewrite Hp).
  destruct (va_ready a) eqn:Er.
  - case_bool_decide as Hin.
    + exists s. split; [done|]. split; [done|]. split; [|done]. intros k. rewrite Hkeys. case_decide; rewrite ?Hkeys; subst; done.
    + eexists. unfold push, mbind, se_bind. rewrite (get_pool_ok _ _ _ Hp), decide_False by done. split; [done|].
      split; [|split].
      * apply (supervised_update _ _ _ _ p); try done. simpl. rewrite fmap_app. apply NoDup_app.
        split; [done|]. split; [|apply NoDup_singleton]. intros k Hk [->|Hn]%elem_of_cons; [done|by apply elem_of_nil in Hn].
      * intros k. unfold pool_keys at 1. rewrite lookup_insert_eq. simpl. rewrite fmap_app, elem_of_app.
        simpl. rewrite elem_of_cons, elem_of_nil. case_decide; rewrite ?Hkeys; naive_solver.
      * intros id Hid. by rewrite lookup_insert_ne.
  - case_bool_decide as Hin.
    + eexists. unfold remove, mbind, se_bind. rewrite (get_pool_ok _ _ _ Hp). split; [done|]. split; [|split].
      * apply (supervised_update _ _ _ _ p); try done. simpl.
        apply (sublist_NoDup _ (pp_key <$> proxies p)); [done|]. apply fmap_sublist, sublist_filter.
      * intros k. unfold pool_keys at 1. rewrite lookup_insert_eq. simpl. case_decide as Hk; rewrite ?Hkeys, !list_elem_of_fmap;
          setoid_rewrite list_elem_of_filter; [|naive_solver].
        split; [|done]. intros (x & -> & Hne & _). done.
      * intros id Hid. by rewrite lookup_insert_ne.
    + exists s. split; [done|]. split; [done|]. split; [|done]. intros k. rewrite Hkeys. case_decide; rewrite ?Hkeys; subst; done.
Qed.

Lemma supervise_ok rank pools s accounts :
  supervised rank pools s → NoDup (va_name <$> accounts) →
  ∃ s', supervise pools accounts s = (Ok (), s') ∧ supervised rank pools s' ∧
    (∀ a pool, a ∈ accounts → bt_get (va_region a) pools = Some pool →
       (proxy_key a ∈ pool_keys s' pool ↔ va_ready a = true)) ∧
    (∀ id k, (∀ a, a ∈ accounts → bt_get (va_region a) pools = Some id → k ≠ proxy_key a) →
       (k ∈ pool_keys s' id ↔ k ∈ pool_keys s id)).
Proof.
  revert s. induction accounts as [|a accounts IH]; intros s Hsv Hnd.
  - exists s. split; [done|]. split; [done|]. split; [intros a p H; by apply elem_of_nil in H|done].
  - rewrite fmap_cons in Hnd. apply NoDup_cons in Hnd as [Hna Hnd].
    assert (∀ b, b ∈ accounts → proxy_key b ≠ proxy_key a) as Hdiff.
    { intros b Hb Heq. apply app_inv_head in Heq. apply Hna. rewrite <- Heq. apply list_elem_of_fmap. eauto. }
    cbn [supervise]. destruct (bt_get (va_region a) pools) as [pool|] eqn:Eb.
    + destruct (supervise_one_spec rank pools s a pool Hsv Eb) as (s1 & H1 & Hsv1 & Hk1 & Ho1).
      destruct (IH s1 Hsv1 Hnd) as (s2 & H2 & Hsv2 & Ha2 & Ho2).
      exists s2. split; [unfold mbind, se_bind; rewrite H1; exact H2|]. split; [done|]. split.
      * intros b p [->|Hb]%elem_of_cons Hp; [|by apply Ha2].
        rewrite Ho2.
        -- replace p with pool by congruence. rewrite Hk1. by rewrite decide_True.
        -- intros b Hb _ Heq. by apply (Hdiff b Hb).
      * intros id k Hk. rewrite Ho2 by (intros b Hb; apply Hk; by right).
        destruct (decide (id = pool)) as [->|Hid].
        -- rewrite Hk1. rewrite decide_False; [done|]. apply Hk; [by left|done].
        -- unfold pool_keys. by rewrite Ho1.
    + destruct (IH s Hsv Hnd) as (s2 & H2 & Hsv2 & Ha2 & Ho2). exists s2.
      split; [unfold mbind, se_bind, supervise_one; rewrite Eb; exact H2|]. split; [done|]. split.
      * intros b p [->|Hb]%elem_of_cons Hp; [congruence|by apply Ha2].
      * intros id k Hk. apply Ho2. intros b Hb. apply Hk. by right.
Qed.

(** Supervision converges. After one tick, whatever the pools held before, the pool of each
    account's region contains the account exactly when its bridge is ready; entries of no account
    (and pools of other regions) are left alone, and the store stays well-formed. *)
Theorem supervise_converges rank pools s accounts :
  supervised rank pools s → NoDup (va_name <$> accounts) →
  ∃ s', supervise pools accounts s = (Ok (), s') ∧ supervised rank pools s' ∧
    (∀ a pool, a ∈ accounts → bt_get (va_region a) pools = Some pool →
       (proxy_key a ∈ pool_keys s' pool ↔ va_ready a = true)) ∧
    (∀ id k, (∀ a, a ∈ accounts → bt_get (va_region a) pools = Some id → k ≠ proxy_key a) →
       (k ∈ pool_keys s' id ↔ k ∈ pool_keys s id)).
Proof. apply supervise_ok. Qed.
End Vpn.

(** * A concrete supervisor *)

Definition toy_accounts : list (VpnAccount (T:=nat)) :=
  [mkVpnAccount (Lit "1.1.1.1") (Lit "CA") true 2%nat; mkVpnAccount (Lit "2.2.2.2") (Lit "US") false 2%nat;
   mkVpnAccount (Lit "3.3.3.3") (Lit "ZZ") true 2%nat].
Definition toy_pools : list (str * nat) := [(Lit "CA", 1%nat); (Lit "US", 2%nat)].

Lemma toy_supervised : supervised toy_rank toy_pools toy_store.
Proof.
  split; [exact toy_store_wf|].
  intros r p. unfold toy_pools. simpl. repeat case_decide; intros [= <-].
  - exists toy_left. split; reflexivity.
  - exists toy_right. split; reflexivity.
Qed.

Lemma supervise_converges_witness :
  ∃ s', supervise toy_pools toy_accounts toy_store = (Ok (), s') ∧
    (Lit "openvpn://1.1.1.1" ∈ pool_keys s' 1).
Proof.
  destruct (supervise_converges toy_rank toy_pools toy_store toy_accounts toy_supervised) as (s' & H & _ & Ha & _).
  - apply (bool_decide_eq_true_1 _). vm_compute. reflexivity.
  - exists s'. split; [exact H|].
    apply (Ha (mkVpnAccount (Lit "1.1.1.1") (Lit "CA") true 2%nat) 1%nat); [left|reflexivity|reflexivity].
Defined.

Example attach_example :
  (fun r => match r with
            | Ok (x, rs) => (rs.*1, username <$> regions x, Region_protocols <$> regions x)
            | _ => ([], [], [])
            end) (attach (T:=nat) (fun r p => Some r) toy_accounts (Proxy_new 0 None) toy_store).1
  = ([Lit "CA"; Lit "US"; Lit "ZZ"], [Lit "CA"; Lit "US"; Lit "ZZ"], [[Vpn]; [Vpn]; [Vpn]]).
Proof. vm_compute. reflexivity. Qed.
