(* ===== verification/VpnAccounts.v ===== *)
(** vpn/provider.rs and vpn/mod.rs: all the accounts together. How they are loaded, the reaper that
    visits them every thirty seconds, the supervisor that moves them into and out of the pools, and
    what becomes of an account that was closed. *)
From Stdlib Require Import Sorted.
From S2P Require Import Prelude Text Sorting OvpnConfig Pool VpnAccount VpnProvider VpnMod.

(** [Config], and config.rs; milliseconds. *)
Record Config := mkConfig { connect_timeout : Z; idle_timeout : Z }.
Definition config_default : Config := mkConfig 20000 300000.
Definition VPN_CONNECT_TIMEOUT : Z := 20000.
Definition VPN_IDLE_TIMEOUT : Z := 300000.
Definition vpn_config : Config := mkConfig VPN_CONNECT_TIMEOUT VPN_IDLE_TIMEOUT.
(** The ticker of [spawn_reaper]. *)
Definition REAP_INTERVAL : Z := 30000.

(** [Account]: what never changes, and its state. *)
Record Entry := mkEntry { ip : str; region : str; e_profile : Profile; state : AccountState }.

(** [impl Tunnel for Account] *)
#[export] Instance vpn_tunnel : Pool.Tunnel Entry := {|
  Pool.target_pool e := VpnProvider.target_pool (state e);
  Pool.active_tunnels e := VpnProvider.active_tunnels (state e);
  Pool.is_ready e := bridge_ready (state e);
  Pool.generation e := VpnProvider.generation (state e);
  Pool.proxy_url e := VpnProvider.proxy_url (state e)
|}.
#[export] Instance vpn_tunnel_laws : TunnelLaws Entry.
Proof.
  split; intros e [Hr Hp]%andb_prop; cbn in *.
  - unfold VpnProvider.active_tunnels. rewrite Hr. lia.
  - unfold VpnProvider.proxy_url. destruct (socks_port (state e) =? 0); [done|by eexists].
Qed.

(** [Accounts::load]: an account whose cipher is unknown is left out. *)
Definition load (files : list (str * VpnAccount.Account)) : list Entry :=
  omap (fun f => match account_new f.1 f.2 with
                 | Ok (p, r, s) => Some (mkEntry f.1 r p s)
                 | _ => None
                 end) files.
(** [Vpn::load], from the text of the embedded files. *)
Definition load_embedded (parse : str → option VpnAccount.Account) (files : list (option str * option str)) : list Entry :=
  load (embedded parse files).

(** One tick of [spawn_reaper]; each account reads the clock when its turn comes. *)
Definition reap_entry (timeout now : Z) (e : Entry) : Entry := mkEntry (ip e) (region e) (e_profile e) (reap timeout now (state e)).
Definition reaper_tick (c : Config) (es : list Entry) (clock : nat → Z) : list Entry :=
  imap (fun i => reap_entry (idle_timeout c) (clock i)) es.
Definition reaper (c : Config) (es : list Entry) (ticks : list (nat → Z)) : list Entry := foldl (reaper_tick c) es ticks.

(** [Guard]: a stream that counts as a connection; once it is closed, reads end and writes fail. *)
Record Guard (S : Type) := mkGuard { g_stream : option S; g_live : nat }.
#[global] Arguments mkGuard {S}.
#[global] Arguments g_stream {S}.
#[global] Arguments g_live {S}.
Definition guard_read {S} (poll_read : nat → S → list byte * S) (room : nat) (g : Guard S) : list byte * Guard S :=
  match g_stream g with
  | Some s => let '(bytes, s) := poll_read room s in (bytes, mkGuard (Some s) (g_live g))
  | None => ([], g)
  end.
Definition guard_write {S} (poll_write : list byte → S → res str nat * S) (buf : list byte) (g : Guard S) : res str nat * Guard S :=
  match g_stream g with
  | Some s => let '(r, s) := poll_write buf s in (r, mkGuard (Some s) (g_live g))
  | None => (Err (Lit "stream closed"), g)
  end.

(** * Loading *)

Lemma embedded_sorted parse files : bt_sorted (embedded parse files).
Proof.
  unfold embedded. induction files as [|[[name|] [text|]] files IH] using rev_ind; [constructor|..]; rewrite foldl_app; cbn [foldl embed]; try done.
  case_match; [by apply bt_set_sorted|done].
Qed.
Lemma embedded_last parse before after name text file : parse text = Some file → Forall (fun f => f.1 ≠ Some name) after →
  bt_get name (embedded parse (before ++ (Some name, Some text) :: after)) = Some file.
Proof.
  intros Hp. unfold embedded. induction after as [|[[n|] [t|]] after IH] using rev_ind; intros Ha.
  { rewrite foldl_app. cbn [foldl embed]. rewrite Hp, bt_get_set. by rewrite decide_True. }
  all: apply Forall_app in Ha as [Ha Hn]; apply Forall_cons in Hn as [Hn _]; cbn [fst] in Hn.
  all: rewrite (app_comm_cons after), (app_assoc before), foldl_app; cbn [foldl embed]; try by apply IH.
  destruct (parse t); [|by apply IH]. rewrite bt_get_set. case_decide; [congruence|by apply IH].
Qed.
Lemma embedded_source parse files name file : bt_get name (embedded parse files) = Some file →
  ∃ text, (Some name, Some text) ∈ files ∧ parse text = Some file.
Proof.
  unfold embedded. induction files as [|[[n|] [t|]] files IH] using rev_ind; [done|..]; rewrite foldl_app; cbn [foldl embed].
  all: setoid_rewrite elem_of_app; try (intros H; destruct (IH H) as (text & ? & ?); eauto).
  destruct (parse t) as [a|] eqn:Et; [|intros H; destruct (IH H) as (text & ? & ?); eauto]. rewrite bt_get_set. case_decide as Hd.
  - intros [= ->]. subst n. exists t. split; [right; by left|done].
  - intros H. destruct (IH H) as (text & ? & ?). eauto.
Qed.

Lemma vpn_load_elem e files : e ∈ load files ↔ ∃ file, (ip e, file) ∈ files ∧ account_new (ip e) file = Ok (e_profile e, region e, state e).
Proof.
  unfold load. rewrite list_elem_of_omap. split.
  - intros ([name file] & Hin & H). cbn [fst snd] in H. destruct (account_new name file) as [[[p r] s]|?| |] eqn:E; try done.
    injection H as <-. cbn. eauto.
  - intros (file & Hin & H). exists (ip e, file). split; [done|]. cbn [fst snd]. rewrite H. by destruct e.
Qed.
Lemma load_names files : ip <$> load files `sublist_of` files.*1.
Proof.
  unfold load. induction files as [|[name file] files IH]; [constructor|]. cbn [omap list_omap fmap list_fmap fst snd] in *.
  destruct (account_new name file) as [[[p r] s]|?| |]; by constructor.
Qed.
Lemma sorted_sublist {A} (R : A → A → Prop) l k : l `sublist_of` k → StronglySorted R k → StronglySorted R l.
Proof.
  induction 1 as [|x l k H IH|x l k H IH]; [done|..]; intros [Hs Hf]%StronglySorted_inv; [|by apply IH].
  constructor; [by apply IH|]. apply Forall_forall. intros y Hy. rewrite Forall_forall in Hf. apply Hf. by eapply elem_of_submseteq, sublist_submseteq.
Qed.

(** The accounts. Every embedded file whose name and text can be read and that parses becomes
    at most one account, the last of its address, and exactly when its profile can be built; the
    accounts are in the order of their addresses, all different, down, and never without a region. *)
Theorem load_spec parse files :
  let es := load_embedded parse files in
  StronglySorted (fun a b => str_ltb a b = true) (ip <$> es) ∧
  Forall (fun e => region e ≠ [] ∧ state e = initial) es ∧
  (∀ e, e ∈ es → ∃ text file, (Some (ip e), Some text) ∈ files ∧ parse text = Some file ∧ profile file (ip e) = Ok (e_profile e)) ∧
  (∀ before after name text file p, files = before ++ (Some name, Some text) :: after → parse text = Some file →
     Forall (fun f => f.1 ≠ Some name) after → profile file name = Ok p → ∃ e, e ∈ es ∧ ip e = name ∧ e_profile e = p).
Proof.
  cbv zeta. unfold load_embedded. pose proof (embedded_sorted parse files) as Hs. split_and!.
  - apply (sorted_sublist _ _ _ (load_names _)). unfold bt_sorted in Hs. induction Hs as [|x l _ IH Hf]; constructor; [done|]. by apply Forall_fmap.
  - apply Forall_forall. intros e (file & _ & H)%vpn_load_elem. unfold account_new in H.
    apply res_bind_ok in H as (p & _ & H). injection H as _ Hr Hst. split; [|done]. rewrite <- Hr. unfold account_region. by case_decide.
  - intros e (file & Hin & H)%vpn_load_elem. apply bt_get_elem in Hin; [|done]. destruct (embedded_source _ _ _ _ Hin) as (text & Ht & Hp).
    exists text, file. split; [done|]. split; [done|]. unfold account_new in H. apply res_bind_ok in H as (p & Hpr & H). injection H as <- _ _. done.
  - intros before after name text file p -> Hp Ha Hpr. exists (mkEntry name (account_region file) p initial).
    split; [|done]. apply vpn_load_elem. exists file. cbn. split; [apply bt_get_elem; [done|]; by apply embedded_last|].
    unfold account_new. by rewrite Hpr.
Qed.

(** * The reaper *)

Lemma reaper_lookup c ticks es i : reaper c es ticks !! i =
  (fun e => mkEntry (ip e) (region e) (e_profile e) (foldl (fun s now => reap (idle_timeout c) now s) (state e) ((fun clock => clock i) <$> ticks))) <$> es !! i.
Proof.
  unfold reaper. revert es. induction ticks as [|clock ticks IH]; intros es; cbn [foldl fmap list_fmap].
  - destruct (es !! i) as [[]|]; done.
  - rewrite IH. unfold reaper_tick. rewrite list_lookup_imap. by destruct (es !! i).
Qed.

(** An idle tunnel and since when. *)
Definition idle_at (s0 : AccountState) (id : nat) (since : Z) (s : AccountState) : Prop :=
  slot s = Some id ∧ lives s !! id = Some (mkLive 0 (Some since)) ∧
  generation s = generation s0 ∧ bridge_ready s = bridge_ready s0 ∧ proxy_url s = proxy_url s0.

(** One visit: it starts the idle clock, or leaves it, or closes the tunnel. *)
Lemma reap_idle timeout now s id l : slot s = Some id → lives s !! id = Some l → connections l = 0 →
  let since := default now (idle_since l) in
  if timeout <=? Z.max 0 (now - since)
  then let s' := reap timeout now s in slot s' = None ∧ bridge_ready s' = false ∧ generation s' = wrap64 (generation s + 1)
  else idle_at s id since (reap timeout now s).
Proof.
  intros Hs Hl Hc. cbv zeta. unfold reap, idle_expired. rewrite Hs, Hl, Hc. cbn [Z.ltb Z.compare connections].
  case_cmp; [done|]. cbn [negb]. unfold idle_at. cbn [slot lives generation connections Z.ltb Z.compare].
  rewrite lookup_insert_eq. done.
Qed.

Lemma reap_down timeout ticks s : slot s = None → foldl (fun s now => reap timeout now s) s ticks = s.
Proof. intros H. induction ticks as [|t ticks IH]; [done|]. cbn [foldl]. unfold reap at 2. rewrite H. exact IH. Qed.

Lemma last_ge t ts : StronglySorted Z.le (t :: ts) → t <= default t (last ts).
Proof.
  intros [_ Hf]%StronglySorted_inv. destruct (last ts) as [u|] eqn:E; cbn; [|lia].
  rewrite Forall_forall in Hf. apply Hf. by apply last_Some_elem_of.
Qed.

(** The visits of an idle account: closed as soon as one comes after the timeout. *)
Lemma reap_visits timeout id s l t0 ts : 0 < timeout → slot s = Some id → lives s !! id = Some l → connections l = 0 →
  StronglySorted Z.le (t0 :: ts) →
  let since := default t0 (idle_since l) in
  since <= t0 →
  let s' := foldl (fun s now => reap timeout now s) s (t0 :: ts) in
  if timeout <=? default t0 (last ts) - since
  then slot s' = None ∧ bridge_ready s' = false ∧ generation s' = wrap64 (generation s + 1)
  else idle_at s id since s'.
Proof.
  intros Ht. revert s l t0. induction ts as [|t1 ts IH]; intros s l t0 Hs Hl Hc Hsort since Hsince s'.
  - pose proof (reap_idle timeout t0 s id l Hs Hl Hc) as H. fold since in H. cbn [last default].
    cbv zeta in H. replace (Z.max 0 (t0 - since)) with (t0 - since) in H by lia. exact H.
  - pose proof (reap_idle timeout t0 s id l Hs Hl Hc) as H. fold since in H. cbv zeta in H.
    replace (Z.max 0 (t0 - since)) with (t0 - since) in H by lia.
    pose proof (last_ge _ _ Hsort) as Hge. apply StronglySorted_inv in Hsort as [Hsort Hf].
    assert (default t0 (last (t1 :: ts)) = default t1 (last ts)) as El by (rewrite last_cons; by destruct (last ts)).
    rewrite El in Hge |- *. change s' with (foldl (fun s now => reap timeout now s) (reap timeout t0 s) (t1 :: ts)). clear s'.
    destruct (timeout <=? t0 - since) eqn:E.
    + apply Z.leb_le in E. rewrite (proj2 (Z.leb_le _ _)) by lia. rewrite reap_down by apply H. exact H.
    + destruct H as (I1 & I2 & I3 & I4 & I5). apply Forall_cons in Hf as [H01 _].
      specialize (IH (reap timeout t0 s) (mkLive 0 (Some since)) t1 I1 I2 eq_refl Hsort). cbn [idle_since] in IH.
      change (default t1 (Some since)) with since in IH. specialize (IH (Z.le_trans _ _ _ Hsince H01)). cbv zeta in IH. destruct (timeout <=? default t1 (last ts) - since).
      * by rewrite I3 in IH.
      * destruct IH as (J1 & J2 & J3 & J4 & J5). split_and!; congruence.
Qed.


(** * An account, its pool and its users *)

Section System.
Context {T : Type} {TT : Pool.Tunnel T}.

Abbreviation Store := (gmap nat (ProxyPool (T:=T))).

(** What the supervisor reads of an account. *)
Definition supervised_account (e : Entry) (t : T) : VpnAccount := mkVpnAccount (ip e) (region e) (bridge_ready (state e)) t.

Record System := mkSystem { entry : Entry; opening : list nat; guards : list nat; store : Store }.

(** [Bridged]: a client of the account's SOCKS bridge, that is the HTTP client, opens a stream:
    [serve_socks] goes to the tunnel itself. [Dialled]: a CONNECT chose the account from its pool;
    [Reached], [Dropped]: its stream is open, is closed. *)
Inductive happening :=
| Bridged
| Dialled (now : Z) (a : attempt)
| Reached (id : nat)
| Dropped (guard : nat) (now : Z)
| Reaped (now : Z)
| Supervised.

Definition with_v (x : System) (v : VState) : System :=
  mkSystem (mkEntry (ip (entry x)) (region (entry x)) (e_profile (entry x)) (acc v)) (VpnProvider.opening v) (VpnProvider.guards v) (store x).
Definition v_of (x : System) : VState := mkV (state (entry x)) (opening x) (guards x).

Definition pooled (pools : list (str * nat)) (t : T) (x : System) : bool :=
  match bt_get (region (entry x)) pools with
  | Some pool => bool_decide (proxy_key (supervised_account (entry x) t) ∈ pool_keys (store x) pool)
  | None => false
  end.

Definition happen (c : Config) (pools : list (str * nat)) (t : T) (x : System) (h : happening) : System :=
  match h with
  | Bridged => x
  | Dialled now a => if pooled pools t x then with_v x (step (idle_timeout c) (v_of x) (OpenBegin now a)) else x
  | Reached id => with_v x (step (idle_timeout c) (v_of x) (OpenEnd id))
  | Dropped g now => with_v x (step (idle_timeout c) (v_of x) (Drop g now))
  | Reaped now => with_v x (step (idle_timeout c) (v_of x) (Reap now))
  | Supervised => mkSystem (entry x) (opening x) (guards x) (supervise_one pools (supervised_account (entry x) t) (store x)).2
  end.
Definition happens (c : Config) (pools : list (str * nat)) (t : T) (x : System) (hs : list happening) : System := foldl (happen c pools t) x hs.

Definition down (s : AccountState) : Prop := slot s = None ∧ bridge_ready s = false.

Lemma ready_step c v e : (∀ now a, e ≠ OpenBegin now a ∧ e ≠ Warm now a) → down (acc v) → down (acc (step c v e)).
Proof using Type.
  intros He [Hs Hr]. destruct e as [now a|now a|id|g now|now]; cbn [step].
  - by destruct (He now a) as [_ []].
  - by destruct (He now a) as [[] _].
  - case_decide; done.
  - destruct (VpnProvider.guards v !! g); done.
  - cbn [acc]. unfold reap. rewrite Hs. done.
Qed.

(** An account that is down and in no pool. *)
Definition lost (pools : list (str * nat)) (t : T) (x : System) : Prop := down (state (entry x)) ∧ pooled pools t x = false.

Lemma lost_happen c pools t x h rank : supervised rank pools (store x) → lost pools t x →
  lost pools t (happen c pools t x h) ∧ supervised rank pools (store (happen c pools t x h)) ∧
  ip (entry (happen c pools t x h)) = ip (entry x) ∧ region (entry (happen c pools t x h)) = region (entry x).
Proof using Type.
  intros Hsv [Hd Hp]. destruct h as [|now a|id|g now|now|]; cbn [happen]; rewrite ?Hp; try done.
  1-3: split; [|done]; split; [apply (ready_step (idle_timeout c) (v_of x)); done|exact Hp].
  unfold lost, pooled in *. cbn [entry store region ip]. destruct (bt_get (region (entry x)) pools) as [pool|] eqn:Eb.
  - destruct (supervise_one_spec rank pools (store x) (supervised_account (entry x) t) pool Hsv Eb) as (s' & E & Hsv' & Hk & _).
    rewrite E. cbn [snd]. split; [|done]. split; [done|]. apply bool_decide_eq_false. rewrite Hk, decide_True by done.
    cbn [supervised_account va_ready]. destruct Hd as [_ ->]. done.
  - unfold supervise_one. cbn [supervised_account va_region]. rewrite Eb. done.
Qed.

Lemma lost_happens c pools t x hs rank : supervised rank pools (store x) → lost pools t x → lost pools t (happens c pools t x hs).
Proof using Type.
  unfold happens. revert x. induction hs as [|h hs IH]; intros x Hsv Hl; [done|]. cbn [foldl].
  destruct (lost_happen c pools t x h rank Hsv Hl) as (H1 & H2 & _). by apply IH.
Qed.

(** Only the reaper and the users of the bridge are about: the times of the reaper's visits. *)
Definition visits (hs : list happening) : list Z := omap (fun h => match h with Reaped now => Some now | _ => None end) hs.
Definition quiet (h : happening) : Prop := match h with Bridged | Reaped _ => True | _ => False end.

Lemma quiet_happens c pools t x hs : Forall quiet hs →
  happens c pools t x hs =
  mkSystem (mkEntry (ip (entry x)) (region (entry x)) (e_profile (entry x)) (foldl (fun s now => reap (idle_timeout c) now s) (state (entry x)) (visits hs)))
           (opening x) (guards x) (store x).
Proof using Type.
  unfold happens, visits. intros H. revert x. induction H as [|h hs Hq _ IH]; intros x; [by destruct x as [[] ? ? ?]|].
  cbn [foldl omap list_omap]. rewrite IH. by destruct h.
Qed.

(** C26: Traffic through the bridge does not keep an account. However busy its bridge is: when no
    CONNECT is open through the account, the reaper closes it at its first visit after the idle
    timeout, the supervisor's next tick takes it out of its pool, and from then on nothing brings
    it back: not its users, not the reaper, not the supervisor. *)
Theorem bridged_account_lost rank c pools t x pool id l t0 ts hs later :
  0 < idle_timeout c → supervised rank pools (store x) → bt_get (region (entry x)) pools = Some pool →
  slot (state (entry x)) = Some id → lives (state (entry x)) !! id = Some l → connections l = 0 →
  Forall quiet hs → visits hs = t0 :: ts → StronglySorted Z.le (t0 :: ts) →
  default t0 (idle_since l) <= t0 → default t0 (idle_since l) + idle_timeout c <= default t0 (last ts) →
  lost pools t (happens c pools t x (hs ++ [Supervised] ++ later)).
Proof using Type.
  intros Ht Hsv Hpool Hs Hl Hc Hq Hv Hsort Hsince Hf. unfold happens. rewrite foldl_app. cbn [foldl app].
  change (foldl (happen c pools t) x hs) with (happens c pools t x hs). rewrite (quiet_happens _ _ _ _ _ Hq), Hv.
  pose proof (reap_visits (idle_timeout c) id (state (entry x)) l t0 ts Ht Hs Hl Hc Hsort Hsince) as H. cbv zeta in H.
  rewrite (proj2 (Z.leb_le _ _)) in H by lia. destruct H as (H1 & H2 & _).
  set (s' := foldl _ (state (entry x)) (t0 :: ts)) in *. set (x1 := mkSystem _ _ _ _).
  destruct (supervise_one_spec rank pools (store x1) (supervised_account (entry x1) t) pool Hsv Hpool) as (st & E & Hsv' & Hk & _).
  apply (lost_happens c pools t _ later rank); cbn [happen store]; rewrite E; cbn [snd]; [done|].
  split; [done|]. unfold pooled. cbn [entry store region x1]. rewrite Hpool. apply bool_decide_eq_false. rewrite Hk, decide_True by done.
  cbn [supervised_account va_ready]. change (bridge_ready s' ≠ true). by rewrite H2.
Qed.
End System.

(** * Example: a Canadian account that only serves its bridge *)

Definition toy_up : AccountState := (live 0 (Up 1080) initial).2.
Definition toy_profile : Profile :=
  {| servers := [mkServer (Lit "1.1.1.1") 1194 Udp]; OvpnConfig.cipher := Aes128Gcm; OvpnConfig.auth := Sha1;
     credentials := {| ca := []; cert := []; OvpnConfig.key := [] |} |}.
Definition toy_entry : Entry := mkEntry (Lit "1.1.1.1") (Lit "CA") toy_profile toy_up.
Definition toy_ticks (n : nat) : list (nat → Z) := (fun k _ => 30000 * Z.of_nat k) <$> seq 1 n.


Definition toy_busy : list happening := foldr (fun k hs => [Bridged; Reaped (30000 * Z.of_nat k); Bridged] ++ hs) [] (seq 0 11).
Definition toy_system : System (T:=nat) := mkSystem toy_entry [] [] toy_store.
Lemma bridged_account_lost_witness :
  lost toy_pools 2%nat (happens vpn_config toy_pools 2%nat toy_system (toy_busy ++ [Supervised] ++ [Bridged; Dialled 400000 (Up 1081); Supervised])).
Proof.
  apply (bridged_account_lost toy_rank vpn_config toy_pools 2%nat toy_system 1 0 (mkLive 0 None) 0
           ((fun k => 30000 * Z.of_nat k) <$> seq 1 10) toy_busy [Bridged; Dialled 400000 (Up 1081); Supervised]).
  1: reflexivity. 1: exact toy_supervised. 1-4: reflexivity. 2: reflexivity. 3,4: vm_compute; congruence.
  - repeat constructor.
  - repeat (constructor; [|repeat (constructor; [vm_compute; congruence|]); constructor]). constructor.
Defined.
