(* ===== verification/Ossh.v ===== *)
(** ssh/ossh.rs: the obfuscation layer under an SSH connection. The client's preamble, identification
    line and key-exchange packets are RC4-encrypted, up to and including the NEWKEYS packet; after it
    the bytes pass through. SHA-1 is a parameter. The fields of [OsshStream] are grouped by
    direction. *)
From S2P Require Import Prelude Text.

Definition SEED_LENGTH : nat := 16.
Definition KEY_LENGTH : nat := 16.
Definition HASH_ITERATIONS : nat := Z.to_nat 6000.
Definition MAGIC : Z := 0x0BF5CA7E.
Definition MAX_PACKET : Z := 256 * 1024.
Definition MAX_LINE : Z := 4096.
Definition MSG_NEWKEYS : byte := x15.

(** * RC4 *)

Record Rc4 := mkRc4 { rc_s : list byte; rc_i : byte; rc_j : byte }.

Definition wrapping_add (a b : byte) : byte := u8 (b2z a + b2z b).
Definition ix (b : byte) : nat := Z.to_nat (b2z b).
Definition at_index (s : list byte) (i : nat) : byte := nth i s x00.
Definition swap (s : list byte) (i j : nat) : list byte := <[j := at_index s i]> (<[i := at_index s j]> s).

Definition schedule_step (key : list byte) (st : list byte * byte) (i : nat) : list byte * byte :=
  let '(s, j) := st in
  let j := wrapping_add (wrapping_add j (at_index s i)) (at_index key (i mod length key)) in
  (swap s i (ix j), j).

(** [Rc4::new]; the keys are those of [derive_key], never empty. *)
Definition Rc4_new (key : list byte) : Rc4 :=
  let s := (fun i => u8 (Z.of_nat i)) <$> seq 0 256 in
  mkRc4 (foldl (schedule_step key) (s, x00) (seq 0 256)).1 x00 x00.

Definition apply_byte (c : Rc4) (b : byte) : Rc4 * byte :=
  let i := wrapping_add (rc_i c) x01 in
  let j := wrapping_add (rc_j c) (at_index (rc_s c) (ix i)) in
  let s := swap (rc_s c) (ix i) (ix j) in
  let k := at_index s (ix (wrapping_add (at_index s (ix i)) (at_index s (ix j)))) in
  (mkRc4 s i j, byte_xor b k).

Fixpoint apply (c : Rc4) (buf : list byte) : Rc4 * list byte :=
  match buf with
  | [] => (c, [])
  | b :: buf => let '(c, b) := apply_byte c b in let '(c, buf) := apply c buf in (c, b :: buf)
  end.

Lemma apply_app c a b :
  apply c (a ++ b) = ((apply (apply c a).1 b).1, (apply c a).2 ++ (apply (apply c a).1 b).2).
Proof.
  revert c. induction a as [|x a IH]; intros c; cbn [app apply fst snd]; [by destruct (apply c b)|].
  destruct (apply_byte c x) as [c' y]. rewrite IH. by destruct (apply c' a).
Qed.

Lemma apply_length c a : length (apply c a).2 = length a.
Proof.
  revert c. induction a as [|x a IH]; intros c; [done|]. cbn [apply]. destruct (apply_byte c x) as [c' y].
  specialize (IH c'). destruct (apply c' a). simpl in *. lia.
Qed.

(** The key stream does not depend on the data, so applying it twice gives the data back. *)
Lemma apply_involutive c a : apply c (apply c a).2 = ((apply c a).1, a).
Proof.
  revert c. induction a as [|x a IH]; intros c; [done|]. cbn [apply].
  destruct (apply_byte c x) as [c' y] eqn:E. specialize (IH c'). destruct (apply c' a) as [c'' a'] eqn:E'.
  cbn [apply snd fst] in *. assert (apply_byte c y = (c', x)) as ->.
  { unfold apply_byte in *. injection E as <- <-. cbv zeta. by rewrite byte_xor_cancel. }
  by rewrite IH.
Qed.

(** The state stays a permutation of the 256 byte values: no index is ever out of range. *)
Definition rc4_ok (s : list byte) : Prop := s ≡ₚ (fun i => u8 (Z.of_nat i)) <$> seq 0 256.

Lemma rc4_ok_length s : rc4_ok s → length s = 256%nat.
Proof. intros H. apply Permutation_length in H. by rewrite length_fmap, length_seq in H. Qed.
Lemma ix_range b : (ix b < 256)%nat.
Proof. unfold ix. pose proof (b2z_range b). lia. Qed.

Lemma swap_perm s i j : (i < length s)%nat → (j < length s)%nat → swap s i j ≡ₚ s.
Proof.
  intros Hi Hj. unfold swap, at_index.
  destruct (lookup_lt_is_Some_2 s i Hi) as [x Hx]. destruct (lookup_lt_is_Some_2 s j Hj) as [y Hy].
  rewrite (nth_lookup_Some _ _ _ _ Hx), (nth_lookup_Some _ _ _ _ Hy). by apply Permutation_insert_swap.
Qed.

Lemma rc4_ok_swap s i j : rc4_ok s → rc4_ok (swap s (ix i) (ix j)).
Proof.
  intros H. pose proof (rc4_ok_length _ H). unfold rc4_ok. rewrite swap_perm; [done|..]; pose proof (ix_range i); pose proof (ix_range j); lia.
Qed.

Lemma rc4_new_ok key : rc4_ok (rc_s (Rc4_new key)).
Proof.
  unfold Rc4_new. cbn [rc_s]. assert (∀ l st, Forall (fun i => i < 256)%nat l → rc4_ok st.1 → rc4_ok (foldl (schedule_step key) st l).1) as Hl.
  { induction l as [|i l IH]; intros [s j] Hf Hs; [done|]. apply Forall_cons in Hf as [Hi Hf]. simpl. apply IH; [done|].
    simpl in *. pose proof (rc4_ok_length _ Hs). unfold rc4_ok. rewrite swap_perm; [done|lia|].
    match goal with |- (ix ?x < _)%nat => pose proof (ix_range x) end. lia. }
  apply Hl; [|by unfold rc4_ok]. apply Forall_forall. intros i Hi%elem_of_seq. lia.
Qed.

Lemma apply_ok c a : rc4_ok (rc_s c) → rc4_ok (rc_s (apply c a).1).
Proof.
  revert c. induction a as [|x a IH]; intros c H; [done|]. cbn [apply].
  destruct (apply_byte c x) as [c' y] eqn:E. assert (rc4_ok (rc_s c')) as H'.
  { unfold apply_byte in E. injection E as <- _. by apply rc4_ok_swap. }
  specialize (IH c' H'). by destruct (apply c' a).
Qed.

(** * Packets *)

Section Ossh.
Context (sha1 : list byte → list byte).

Definition derive_key (seed keyword iv : list byte) : list byte :=
  take KEY_LENGTH (Nat.iter HASH_ITERATIONS sha1 (sha1 (seed ++ keyword ++ iv))).

(** The [while] loop that grows the padding; eight rounds suffice. *)
Fixpoint grow_padding (fuel payload_len new_padding : nat) : res Empty_set nat :=
  if ((payload_len + 1 + new_padding + 4) mod 8 =? 0)%nat then Ok new_padding
  else match fuel with O => NoFuel | S fuel => grow_padding fuel payload_len (S new_padding) end.

Definition normalize_packet (packet : list byte) : res Empty_set (list byte) :=
  len ← slice_to 4 packet;
  let packet_length := Z.to_nat (from_be len) in
  match packet !! 4%nat with
  | None => Panic
  | Some padding_length =>
      let payload_length := (packet_length - (ix padding_length + 1))%nat in
      let payload_end := Nat.min (5 + payload_length) (length packet) in
      payload ← slice 5 payload_end packet;
      new_padding ← grow_padding 8 (length payload) 4;
      Ok (be32 (wrap32 (Z.of_nat (length payload + 1 + new_padding))) ++ [u8 (Z.of_nat new_padding)] ++ payload
          ++ replicate new_padding x00)
  end.

(** [buf.windows(2).position(..)] *)
Fixpoint find_crlf (buf : list byte) : option nat :=
  match buf with
  | [] => None
  | x :: rest => if bool_decide (take 2 buf = [x0d; x0a]) then Some O else S <$> find_crlf rest
  end.

(** * Writing *)

Inductive WriteState := WIdent | WKex | WDone.
Record Writer := mkWriter { c2s : Rc4; wstate : WriteState; wbuf : list byte; wout : list byte }.

Definition write_ident (w : Writer) : Writer :=
  match wstate w, find_crlf (wbuf w) with
  | WIdent, Some index =>
      let '(c, line) := apply (c2s w) (take (index + 2) (wbuf w)) in
      mkWriter c WKex (drop (index + 2) (wbuf w)) (wout w ++ line)
  | _, _ => w
  end.

(** One round of the packet loop: [None] when it breaks off. *)
Definition write_packet (w : Writer) : res Empty_set (option Writer) :=
  if (length (wbuf w) <? 5)%nat then Ok None
  else
    let packet_length := from_be (take 4 (wbuf w)) in
    if negb ((1 <=? packet_length) && (packet_length <=? MAX_PACKET)) then Ok None
    else
      let total := (Z.to_nat packet_length + 4)%nat in
      if (length (wbuf w) <? total)%nat then Ok None
      else
        let packet := take total (wbuf w) in
        match packet !! 5%nat with
        | None => Panic
        | Some kind =>
            let '(c, line) := apply (c2s w) packet in
            Ok (Some (mkWriter c (if decide (kind = MSG_NEWKEYS) then WDone else WKex)
                               (drop total (wbuf w)) (wout w ++ line)))
        end.

Fixpoint write_packets (fuel : nat) (w : Writer) : res Empty_set Writer :=
  match fuel with
  | O => NoFuel
  | S fuel => r ← write_packet w;
              match r with
              | None => Ok w
              | Some w => match wstate w with WDone => Ok w | _ => write_packets fuel w end
              end
  end.

Definition write_rest (w : Writer) : Writer :=
  match wstate w with
  | WDone => mkWriter (c2s w) WDone [] (wout w ++ wbuf w)
  | _ => w
  end.

Definition process_write (w : Writer) : res Empty_set Writer :=
  let w := write_ident w in
  w ← match wstate w with WKex => write_packets (S (length (wbuf w))) w | _ => Ok w end;
  Ok (write_rest w).

(** * Reading *)

Inductive ReadState := RIdent | RKex | RDone.
Record Reader := mkReader { s2c : Rc4; rstate : ReadState; rin : list byte; rbuf : list byte;
                            rline : list byte; kex_prefix : option (list byte * nat) }.

Definition crlf : list byte := [x0d; x0a].

(** The second half of the key-exchange arm: the rest of a packet whose prefix is known. *)
Definition read_kex_rest (r : Reader) (prefix : list byte) (remaining : nat) : res Empty_set (Reader * bool) :=
  if (length (rin r) <? remaining)%nat then Ok (mkReader (s2c r) RKex (rin r) (rbuf r) (rline r) (Some (prefix, remaining)), false)
  else
    let '(c, rest) := apply (s2c r) (take remaining (rin r)) in
    let packet := prefix ++ rest in
    let newkeys := bool_decide (packet !! 5%nat = Some MSG_NEWKEYS) in
    normalized ← normalize_packet packet;
    Ok (mkReader c (if newkeys then RDone else RKex) (drop remaining (rin r)) (rbuf r ++ normalized) (rline r) None,
        negb newkeys).

(** One round of the loop of [process_read], and whether it goes on. *)
Definition read_round (r : Reader) : res Empty_set (Reader * bool) :=
  match rstate r with
  | RIdent =>
      match rin r with
      | [] => Ok (r, false)
      | byte :: rin =>
          let '(c, byte) := apply_byte (s2c r) byte in
          let line := rline r ++ [byte] in
          if MAX_LINE <? Z.of_nat (length line) then Ok (mkReader c RIdent rin (rbuf r) [] (kex_prefix r), true)
          else if ends_with crlf line then
            if starts_with (Lit "SSH-") line then Ok (mkReader c RKex rin (rbuf r ++ line) [] (kex_prefix r), false)
            else Ok (mkReader c RIdent rin (rbuf r) [] (kex_prefix r), true)
          else Ok (mkReader c RIdent rin (rbuf r) line (kex_prefix r), true)
      end
  | RKex =>
      match kex_prefix r with
      | Some (prefix, remaining) => read_kex_rest r prefix remaining
      | None =>
          if (length (rin r) <? 5)%nat then Ok (r, false)
          else
            let '(c, prefix) := apply (s2c r) (take 5 (rin r)) in
            let r := mkReader c RKex (drop 5 (rin r)) (rbuf r) (rline r) None in
            let packet_length := from_be (take 4 prefix) in
            if negb ((1 <=? packet_length) && (packet_length <=? MAX_PACKET)) then Ok (r, false)
            else read_kex_rest r prefix (Z.to_nat packet_length - 1)
      end
  | RDone => Ok (r, false)
  end.

Fixpoint read_loop (fuel : nat) (r : Reader) : res Empty_set Reader :=
  match fuel with
  | O => NoFuel
  | S fuel => '(r, go) ← read_round r; if go : bool then read_loop fuel r else Ok r
  end.

(** Every round that goes on takes a byte of [rin] or uses up the known prefix. *)
Definition process_read (r : Reader) : res Empty_set Reader := read_loop (length (rin r) + 2) r.

(** * Packets in normal form *)

(** An SSH binary packet. *)
Definition binary (payload padding : list byte) : list byte :=
  be32 (Z.of_nat (length payload + 1 + length padding)) ++ [u8 (Z.of_nat (length padding))] ++ payload ++ padding.

Lemma grow_padding_spec fuel p k m : (m <= fuel)%nat → ((p + 1 + (k + m) + 4) mod 8 = 0)%nat →
  ∃ n, grow_padding fuel p k = Ok n ∧ (k <= n <= k + m)%nat ∧ ((p + 1 + n + 4) mod 8 = 0)%nat.
Proof using Type.
  revert k m. induction fuel as [|fuel IH]; intros k m Hm H; cbn [grow_padding].
  - assert (m = 0%nat) as -> by lia. rewrite Nat.add_0_r in H. rewrite (proj2 (Nat.eqb_eq _ _) H). exists k. split_and!; done || lia.
  - destruct (Nat.eqb_spec ((p + 1 + k + 4) mod 8) 0) as [E|E]; [exists k; split_and!; done || lia|].
    destruct m as [|m]; [rewrite Nat.add_0_r in H; done|].
    destruct (IH (S k) m) as (n & H1 & H2 & H3); [lia|by rewrite <- H; f_equal; lia|]. exists n. split_and!; done || lia.
Qed.

Lemma grow_padding_8 p : ∃ n, grow_padding 8 p 4 = Ok n ∧ (4 <= n <= 11)%nat ∧ ((p + 1 + n + 4) mod 8 = 0)%nat.
Proof using Type.
  assert (∃ m, (m <= 7)%nat ∧ ((p + 1 + (4 + m) + 4) mod 8 = 0)%nat) as (m & Hm & H).
  { pose proof (Nat.div_mod_eq (p + 9) 8) as Hd. pose proof (Nat.mod_upper_bound (p + 9) 8 ltac:(lia)) as Hr.
    set (q := ((p + 9) / 8)%nat) in *. set (r := ((p + 9) mod 8)%nat) in *. destruct (decide (r = 0%nat)).
    - exists 0%nat. split; [lia|]. replace (p + 1 + (4 + 0) + 4)%nat with (q * 8)%nat by lia. apply Nat.Div0.mod_mul.
    - exists (8 - r)%nat. split; [lia|]. replace (p + 1 + (4 + (8 - r)) + 4)%nat with ((q + 1) * 8)%nat by lia. apply Nat.Div0.mod_mul. }
  destruct (grow_padding_spec 8 p 4 m) as (n & H1 & H2 & H3); [lia|done|]. exists n. split_and!; done || lia.
Qed.

Lemma normalize_any packet : (5 <= length packet)%nat → Z.of_nat (length packet) < 2 ^ 31 →
  ∃ payload n, normalize_packet packet = Ok (binary payload (replicate n x00)) ∧ (4 <= n <= 11)%nat ∧
    ((length payload + 1 + n + 4) mod 8 = 0)%nat ∧
    payload = take (Z.to_nat (from_be (take 4 packet)) - (ix (nth 4 packet x00) + 1)) (drop 5 packet).
Proof using Type.
  intros H5 Hlen. unfold normalize_packet. rewrite slice_to_ok by lia. unfold mbind, res_bind.
  destruct (lookup_lt_is_Some_2 packet 4) as [pad Hpad]; [lia|]. rewrite Hpad. rewrite (nth_lookup_Some _ _ _ _ Hpad). cbv zeta.
  set (pl := (_ - _)%nat). rewrite slice_ok by lia.
  assert (take (Nat.min (5 + pl) (length packet) - 5) (drop 5 packet) = take pl (drop 5 packet)) as ->.
  { destruct (decide (5 + pl <= length packet)%nat).
    - f_equal. lia.
    - rewrite !take_ge; [done|rewrite length_drop; lia|rewrite length_drop; lia]. }
  set (payload := take pl (drop 5 packet)).
  assert (length payload <= length packet)%nat as Hp by (unfold payload; rewrite length_take, length_drop; lia).
  destruct (grow_padding_8 (length payload)) as (n & -> & Hn & Hmod).
  exists payload, n. split_and!; try done; try lia. unfold binary. rewrite length_replicate.
  unfold wrap32. rewrite Z.mod_small by lia. done.
Qed.

Lemma binary_parts payload padding : (length padding < 256)%nat → Z.of_nat (length payload + 1 + length padding) < 2 ^ 32 →
  from_be (take 4 (binary payload padding)) = Z.of_nat (length payload + 1 + length padding) ∧
  nth 4 (binary payload padding) x00 = u8 (Z.of_nat (length padding)) ∧
  drop 5 (binary payload padding) = payload ++ padding ∧
  length (binary payload padding) = (5 + length payload + length padding)%nat.
Proof using Type.
  intros Hp Hl. unfold binary. set (h := be32 _). assert (length h = 4%nat) as Hh by apply be_bytes_length.
  split_and!.
  - rewrite <- Hh at 1. rewrite take_app_length. apply from_be32. unfold is_u32. lia.
  - rewrite app_nth2 by lia. by rewrite Hh.
  - change (h ++ [u8 (Z.of_nat (length padding))] ++ payload ++ padding) with (h ++ [u8 (Z.of_nat (length padding))] ++ payload ++ padding).
    rewrite app_assoc. assert (length (h ++ [u8 (Z.of_nat (length padding))]) = 5%nat) as <- by (rewrite length_app, Hh; done).
    apply drop_app_length.
  - rewrite !length_app, Hh. simpl. lia.
Qed.

Lemma normalize_binary payload padding : (length padding < 256)%nat → Z.of_nat (length payload + 1 + length padding) < 2 ^ 31 - 8 →
  ∃ n, normalize_packet (binary payload padding) = Ok (binary payload (replicate n x00)) ∧
    (4 <= n <= 11)%nat ∧ ((length payload + 1 + n + 4) mod 8 = 0)%nat.
Proof using Type.
  intros Hp Hl. destruct (binary_parts payload padding) as (H1 & H2 & H3 & H4); [done|lia|].
  destruct (normalize_any (binary payload padding)) as (payload' & n & Hn & Hr & Hmod & Heq); [lia|lia|].
  rewrite H1, H2, H3 in Heq. unfold ix in Heq. rewrite b2z_u8, Z.mod_small in Heq by lia.
  rewrite take_app_le in Heq by lia. rewrite take_ge in Heq by lia. subst payload'. by exists n.
Qed.

(** Normalisation. Any packet of the peer comes out with its payload unchanged and the least
    zero padding, of 4 to 11 bytes, that makes the whole packet a multiple of 8 bytes; and no
    packet, however malformed, makes it index out of range once it has its five-byte prefix. *)
Theorem normalize_spec :
  (∀ payload padding, (length padding < 256)%nat → Z.of_nat (length payload + 1 + length padding) < 2 ^ 31 - 8 →
     ∃ n, normalize_packet (binary payload padding) = Ok (binary payload (replicate n x00)) ∧
       (4 <= n <= 11)%nat ∧ (length (binary payload (replicate n x00)) mod 8 = 0)%nat) ∧
  (∀ packet, (5 <= length packet)%nat → Z.of_nat (length packet) < 2 ^ 31 → ∃ out, normalize_packet packet = Ok out).
Proof using Type.
  split.
  - intros payload padding Hp Hl. destruct (normalize_binary payload padding Hp Hl) as (n & Hn & Hr & Hmod).
    exists n. split; [done|]. split; [done|]. unfold binary. rewrite !length_app, be_bytes_length, !length_replicate. simpl length.
    match goal with |- (?x mod 8 = 0)%nat => replace x with (length payload + 1 + n + 4)%nat by lia end. done.
  - intros packet H5 Hl. destruct (normalize_any packet H5 Hl) as (payload & n & -> & _). eauto.
Qed.

(** * Properties of writing *)

(** What processing does with the buffered bytes: first an encrypted part, then a plain one. *)
Record wrote (w w' : Writer) (enc plain : list byte) : Prop := {
  wr_split : wbuf w = enc ++ plain ++ wbuf w';
  wr_out : wout w' = wout w ++ (apply (c2s w) enc).2 ++ plain;
  wr_cipher : c2s w' = (apply (c2s w) enc).1;
  wr_plain : plain ≠ [] → wstate w' = WDone;
  wr_done : wstate w = WDone → enc = [] ∧ wstate w' = WDone
}.

Lemma wrote_refl w : wrote w w [] [].
Proof using Type. split; try done. simpl. by rewrite app_nil_r. Qed.

Lemma wrote_trans w1 w2 w3 e1 p1 e2 p2 : wrote w1 w2 e1 p1 → wrote w2 w3 e2 p2 → wrote w1 w3 (e1 ++ e2) (p1 ++ p2).
Proof using Type.
  intros [S1 O1 C1 P1 D1] [S2 O2 C2 P2 D2].
  assert (p1 = [] ∨ e2 = []) as Hpe by (destruct p1; [by left|right; by apply D2, P1]).
  split.
  - rewrite S1, S2, <- !app_assoc. f_equal. destruct Hpe as [->| ->]; by rewrite ?app_nil_r.
  - rewrite O2, O1, C1, apply_app. cbn [snd]. rewrite <- !app_assoc. f_equal. f_equal.
    destruct Hpe as [->| ->]; [done|]. cbn [apply snd]. by rewrite ?app_nil_l.
  - rewrite C2, C1, apply_app. done.
  - intros H. destruct (decide (p2 = [])) as [->|]; [|by apply P2]. rewrite app_nil_r in H. by apply D2, P1.
  - intros H. destruct (D1 H) as [-> H2]. by destruct (D2 H2) as [-> ?].
Qed.

Lemma wrote_encrypted w w' n c line : apply (c2s w) (take n (wbuf w)) = (c, line) →
  wbuf w' = drop n (wbuf w) → wout w' = wout w ++ line → c2s w' = c → wstate w ≠ WDone → wrote w w' (take n (wbuf w)) [].
Proof using Type.
  intros E Hb Ho Hc Hs. split; rewrite ?E; try done.
  - by rewrite Hb, app_nil_l, take_drop.
  - simpl. by rewrite app_nil_r.
Qed.

Lemma write_ident_wrote w : ∃ enc, wrote w (write_ident w) enc [].
Proof using Type.
  unfold write_ident. destruct (wstate w) eqn:Es; [|exists []; apply wrote_refl..].
  destruct (find_crlf (wbuf w)) as [i|]; [|exists []; apply wrote_refl].
  destruct (apply (c2s w) (take (i + 2) (wbuf w))) as [c line] eqn:E. eexists. by eapply wrote_encrypted; [exact E|..]; rewrite ?Es.
Qed.

Lemma write_packet_wrote w w' : wstate w = WKex → write_packet w = Ok (Some w') →
  (∃ enc, wrote w w' enc []) ∧ (length (wbuf w') < length (wbuf w))%nat ∧ wstate w' ≠ WIdent.
Proof using Type.
  intros Hs. unfold write_packet. case_cmp; [done|]. destruct (negb _); [done|]. case_cmp; [done|].
  set (total := (_ + 4)%nat) in *.
  destruct (take total (wbuf w) !! 5%nat) as [kind|]; [|done].
  destruct (apply (c2s w) (take total (wbuf w))) as [c line] eqn:E. intros [= <-]. cbn [wbuf wstate].
  split; [|split; [rewrite length_drop; unfold total; lia|by case_decide]].
  eexists. by eapply wrote_encrypted; [exact E|..]; rewrite ?Hs.
Qed.

Lemma write_packets_wrote fuel w w' : wstate w = WKex → write_packets fuel w = Ok w' → ∃ enc, wrote w w' enc [].
Proof using Type.
  revert w. induction fuel as [|fuel IH]; intros w Hs; cbn [write_packets]; [done|].
  intros H. apply res_bind_ok in H as ([w1|] & H1 & H); [|injection H as ->; exists []; apply wrote_refl].
  destruct (write_packet_wrote _ _ Hs H1) as ((e1 & He1) & _ & Hn).
  destruct (wstate w1) eqn:E1; [done| |injection H as ->; by exists e1].
  destruct (IH w1 E1 H) as [e2 He2]. exists (e1 ++ e2). exact (wrote_trans _ _ _ _ _ _ _ He1 He2).
Qed.

Lemma process_write_wrote w w' : process_write w = Ok w' → ∃ enc plain, wrote w w' enc plain.
Proof using Type.
  unfold process_write. destruct (write_ident_wrote w) as [e1 H1]. set (w1 := write_ident w) in *. cbv zeta.
  intros H. apply res_bind_ok in H as (w2 & H2 & H). injection H as <-.
  assert (∃ e2, wrote w1 w2 e2 []) as [e2 He2].
  { destruct (wstate w1) eqn:E1; [| |]; [injection H2 as <-; exists []; apply wrote_refl|by eapply write_packets_wrote
      |injection H2 as <-; exists []; apply wrote_refl]. }
  pose proof (wrote_trans _ _ _ _ _ _ _ H1 He2) as H12.
  assert (∃ p, wrote w2 (write_rest w2) [] p) as [p Hp].
  { unfold write_rest. destruct (wstate w2) eqn:E2; [exists []; apply wrote_refl..|]. exists (wbuf w2).
    split; simpl; rewrite ?app_nil_r; done. }
  exists ((e1 ++ e2) ++ []), (([] ++ []) ++ p). exact (wrote_trans _ _ _ _ _ _ _ H12 Hp).
Qed.

(** ** How the bytes are cut into writes does not matter *)

Definition feed (b : list byte) (w : Writer) : Writer := mkWriter (c2s w) (wstate w) (wbuf w ++ b) (wout w).

Lemma feed_nil w : feed [] w = w.
Proof using Type. destruct w. unfold feed. simpl. by rewrite app_nil_r. Qed.
Lemma feed_feed a b w : feed b (feed a w) = feed (a ++ b) w.
Proof using Type. unfold feed. simpl. by rewrite app_assoc. Qed.

Lemma find_crlf_cons x y l :
  find_crlf (x :: y :: l) = if decide (x = x0d ∧ y = x0a) then Some 0%nat else S <$> find_crlf (y :: l).
Proof using Type.
  change (find_crlf (x :: y :: l)) with (if bool_decide ([x; y] = [x0d; x0a]) then Some 0%nat else S <$> find_crlf (y :: l)).
  case_bool_decide as H; case_decide as H'; try done; [by injection H as -> ->; destruct H'|by destruct H' as [-> ->]].
Qed.

Lemma find_crlf_one x : find_crlf [x] = None.
Proof using Type. by destruct x. Qed.

Lemma find_crlf_lt buf i : find_crlf buf = Some i → (i + 2 <= length buf)%nat.
Proof using Type.
  revert i. induction buf as [|x [|y buf] IH]; intros i H; [done|by rewrite find_crlf_one in H|].
  rewrite find_crlf_cons in H. case_decide; [injection H as <-; simpl; lia|].
  apply fmap_Some in H as (j & Hj & ->). specialize (IH _ Hj). simpl in *. lia.
Qed.

Lemma find_crlf_app a b i : find_crlf a = Some i → find_crlf (a ++ b) = Some i.
Proof using Type.
  revert i. induction a as [|x [|y a] IH]; intros i H; [done|by rewrite find_crlf_one in H|].
  cbn [app]. rewrite find_crlf_cons in H |- *. case_decide; [done|].
  apply fmap_Some in H as (j & Hj & ->). cbn [app] in IH. by rewrite (IH _ Hj).
Qed.

Lemma write_ident_feed b w : wstate (write_ident w) ≠ WIdent → write_ident (feed b w) = feed b (write_ident w).
Proof using Type.
  unfold write_ident, feed. cbn [wstate wbuf]. destruct (wstate w) eqn:Es; [|by rewrite Es..].
  destruct (find_crlf (wbuf w)) as [i|] eqn:Ei; [|congruence]. intros _. rewrite (find_crlf_app _ _ _ Ei).
  pose proof (find_crlf_lt _ _ Ei). rewrite take_app_le, drop_app_le by lia. cbn [c2s wout].
  by destruct (apply (c2s w) (take (i + 2) (wbuf w))).
Qed.

Lemma write_packet_feed b w : write_packet w ≠ Ok None → write_packet (feed b w) = (fmap (M:=option) (feed b) : option Writer → option Writer) <$> write_packet w.
Proof using Type.
  unfold write_packet, feed. cbn [wbuf c2s wout wstate]. case_cmp; [done|]. rewrite take_app_le by lia.
  rewrite (proj2 (Nat.ltb_ge (length (wbuf w ++ b)) 5)) by (rewrite length_app; lia).
  destruct (negb _); [done|]. case_cmp; [done|]. intros _. rewrite (proj2 (Nat.ltb_ge (length (wbuf w ++ b)) _)) by (rewrite length_app; lia).
  rewrite take_app_le, drop_app_le by lia. destruct (take _ (wbuf w) !! 5%nat) as [kind|]; [|done].
  by destruct (apply (c2s w) (take _ (wbuf w))).
Qed.

(** With enough fuel the packet loop returns, and more fuel changes nothing. *)
Lemma write_packets_fuel f1 f2 w : wstate w = WKex → (length (wbuf w) < f1)%nat → (length (wbuf w) < f2)%nat →
  write_packets f1 w = write_packets f2 w ∧ write_packets f1 w ≠ NoFuel.
Proof using Type.
  revert f2 w. induction f1 as [|f1 IH]; intros [|f2] w Hs H1 H2; try lia. cbn [write_packets].
  destruct (write_packet w) as [[w'|]|e| |] eqn:E; try done; cbn [mbind res_bind]; [|by unfold write_packet in E; repeat case_match].
  destruct (write_packet_wrote _ _ Hs E) as (_ & Hlt & Hn). destruct (wstate w') eqn:E'; try done. apply IH; try done; lia.
Qed.
Definition all_packets (w : Writer) : res Empty_set Writer := write_packets (S (length (wbuf w))) w.

Lemma all_packets_unfold w : wstate w = WKex →
  all_packets w = r ← write_packet w;
                  match r with
                  | None => Ok w
                  | Some w' => match wstate w' with WDone => Ok w' | _ => all_packets w' end
                  end.
Proof using Type.
  intros Hs. unfold all_packets at 1. cbn [write_packets]. destruct (write_packet w) as [[w'|]|e| |] eqn:E; try done.
  cbn [mbind res_bind]. destruct (write_packet_wrote _ _ Hs E) as (_ & Hlt & Hn). destruct (wstate w') eqn:E'; try done.
  apply write_packets_fuel; try done; lia.
Qed.

Lemma all_packets_feed b w : wstate w = WKex →
  all_packets (feed b w) = w' ← all_packets w;
                           match wstate w' with WKex => all_packets (feed b w') | _ => Ok (feed b w') end.
Proof using Type.
  remember (length (wbuf w)) as n eqn:Hn. revert w Hn. induction n as [n IH] using lt_wf_ind. intros w -> Hs.
  rewrite (all_packets_unfold w Hs). destruct (write_packet w) as [[w'|]|e| |] eqn:E; try done.
  - rewrite (all_packets_unfold (feed b w)) by done. rewrite write_packet_feed, E by (by rewrite E). cbn [mbind res_bind fmap res_fmap option_fmap option_map].
    destruct (write_packet_wrote _ _ Hs E) as (_ & Hlt & Hn). change (wstate (feed b w')) with (wstate w').
    destruct (wstate w') eqn:E'; try done; [|cbn [mbind res_bind]; by rewrite E'].
    exact (IH _ Hlt w' eq_refl E').
  - cbn [mbind res_bind]. by rewrite Hs.
  - rewrite (all_packets_unfold (feed b w)) by done. by rewrite write_packet_feed, E by (by rewrite E).
  - by unfold write_packet in E; repeat case_match.
Qed.

Lemma all_packets_state w w' : wstate w = WKex → all_packets w = Ok w' → wstate w' ≠ WIdent.
Proof using Type.
  unfold all_packets. generalize (S (length (wbuf w))). intros f. revert w. induction f as [|f IH]; intros w Hs; cbn [write_packets]; [done|].
  intros H. apply res_bind_ok in H as ([w1|] & H1 & H); [|injection H as ->; congruence].
  destruct (write_packet_wrote _ _ Hs H1) as (_ & _ & Hn). destruct (wstate w1) eqn:E1; [done|by eapply IH|]. injection H as <-. congruence.
Qed.

Lemma write_ident_state w : wstate (write_ident w) = WIdent → write_ident w = w ∧ wstate w = WIdent.
Proof using Type.
  unfold write_ident. destruct (wstate w) eqn:Es; try (intros; congruence).
  destruct (find_crlf (wbuf w)); [|done]. by destruct (apply _ _).
Qed.
Lemma write_ident_id w : wstate w ≠ WIdent → write_ident w = w.
Proof using Type. unfold write_ident. by destruct (wstate w). Qed.

Definition processed (u : Writer) : res Empty_set Writer :=
  v ← match wstate u with WKex => all_packets u | _ => Ok u end; Ok (write_rest v).
Lemma process_write_eq w : process_write w = processed (write_ident w).
Proof using Type. done. Qed.

Lemma processed_feed b u : wstate u ≠ WIdent → processed (feed b u) = u' ← processed u; processed (feed b u').
Proof using Type.
  intros Hn. unfold processed. change (wstate (feed b u)) with (wstate u). destruct (wstate u) eqn:Es; [done| |].
  - rewrite all_packets_feed by done. destruct (all_packets u) as [v|e| |] eqn:Ev; try done. cbn [mbind res_bind].
    pose proof (all_packets_state _ _ Es Ev) as Hv. destruct (wstate v) eqn:Ev'; [done| |].
    + replace (write_rest v) with v by (unfold write_rest; by rewrite Ev'). change (wstate (feed b v)) with (wstate v). by rewrite Ev'.
    + unfold write_rest, feed. cbn [mbind res_bind c2s wstate wbuf wout]. rewrite Ev'. cbn [mbind res_bind c2s wstate wbuf wout]. by rewrite app_assoc.
  - unfold write_rest, feed. cbn [mbind res_bind c2s wstate wbuf wout]. rewrite Es. cbn [mbind res_bind c2s wstate wbuf wout]. by rewrite app_assoc.
Qed.

Lemma processed_state u u' : wstate u ≠ WIdent → processed u = Ok u' → wstate u' ≠ WIdent.
Proof using Type.
  intros Hn H. apply res_bind_ok in H as (v & Hv & [= <-]).
  assert (wstate v ≠ WIdent) by (destruct (wstate u) eqn:Es; [done|by eapply all_packets_state|injection Hv as <-; congruence]).
  unfold write_rest. destruct (wstate v) eqn:E; simpl; congruence.
Qed.

(** Processing in two portions is processing the whole. *)
Lemma process_write_feed b w :
  process_write (feed b w) = w' ← process_write w; process_write (feed b w').
Proof using Type.
  destruct (wstate (write_ident w)) eqn:Es.
  - destruct (write_ident_state _ Es) as [Hi Hw]. rewrite (process_write_eq w), Hi. unfold processed. rewrite Hw.
    cbn [mbind res_bind]. unfold write_rest. by rewrite Hw.
  - rewrite !process_write_eq, write_ident_feed, processed_feed by congruence.
    destruct (processed (write_ident w)) as [v|e| |] eqn:Ev; try done. cbn [mbind res_bind].
    rewrite process_write_eq, write_ident_id; [done|]. apply (processed_state _ _ ltac:(rewrite Es; done) Ev).
  - rewrite !process_write_eq, write_ident_feed, processed_feed by congruence.
    destruct (processed (write_ident w)) as [v|e| |] eqn:Ev; try done. cbn [mbind res_bind].
    rewrite process_write_eq, write_ident_id; [done|]. apply (processed_state _ _ ltac:(rewrite Es; done) Ev).
Qed.

Lemma process_write_total w : process_write w ≠ NoFuel.
Proof using Type.
  rewrite process_write_eq. unfold processed. destruct (wstate (write_ident w)) eqn:Es; try done.
  unfold all_packets. pose proof (write_packets_fuel (S (length (wbuf (write_ident w)))) (S (length (wbuf (write_ident w))))
    (write_ident w) Es ltac:(lia) ltac:(lia)) as [_ H]. by destruct (write_packets _ _).
Qed.

(** Output already waiting is left in front. *)
Definition behind (o : list byte) (w : Writer) : Writer := mkWriter (c2s w) (wstate w) (wbuf w) (o ++ wout w).

Lemma write_ident_behind o w : write_ident (behind o w) = behind o (write_ident w).
Proof using Type.
  unfold write_ident, behind. cbn [wstate wbuf c2s wout]. destruct (wstate w) eqn:E; [|by rewrite E..].
  destruct (find_crlf (wbuf w)); [|by rewrite E]. destruct (apply _ _). cbn [wstate wbuf c2s wout]. by rewrite app_assoc.
Qed.
Lemma write_packet_behind o w :
  write_packet (behind o w) = (fmap (M:=option) (behind o) : option Writer → option Writer) <$> write_packet w.
Proof using Type.
  unfold write_packet, behind. cbn [wstate wbuf c2s wout]. repeat (case_match; try done); simplify_eq; cbn [fmap res_fmap option_fmap option_map wstate wbuf c2s wout];
  by rewrite ?app_assoc.
Qed.
Lemma write_packets_behind o f w : write_packets f (behind o w) = behind o <$> write_packets f w.
Proof using Type.
  revert w. induction f as [|f IH]; intros w; [done|]. cbn [write_packets]. rewrite write_packet_behind.
  destruct (write_packet w) as [[w'|]|e| |]; try done. cbn [mbind res_bind fmap res_fmap option_fmap option_map].
  change (wstate (behind o w')) with (wstate w'). destruct (wstate w'); try done; apply IH.
Qed.
Lemma process_write_behind o w : process_write (behind o w) = behind o <$> process_write w.
Proof using Type.
  unfold process_write. cbv zeta. rewrite write_ident_behind. set (u := write_ident w). change (wstate (behind o u)) with (wstate u).
  change (wbuf (behind o u)) with (wbuf u).
  assert (∀ v, write_rest (behind o v) = behind o (write_rest v)) as Hr.
  { intros v. unfold write_rest, behind. cbn [wstate]. destruct (wstate v) eqn:E; cbn [wstate wbuf c2s wout]; by rewrite ?E, ?app_assoc. }
  destruct (wstate u); cbn [mbind res_bind fmap res_fmap]; rewrite ?Hr; try done.
  rewrite write_packets_behind. destruct (write_packets _ u); try done. cbn [mbind res_bind fmap res_fmap]. by rewrite Hr.
Qed.
End Ossh.
