(* ===== verification/OsshStream.v ===== *)
(** ssh/ossh.rs: the stream itself, its [AsyncWrite] and [AsyncRead] sides over the stream below.
    What the stream below answers to each poll is a script; a script that has run out answers
    [Pending]. *)
From S2P Require Import Prelude Text Ossh.

Inductive io_error := WriteZero | Inner (e : str).

Section OsshStream.
Context (sha1 : list byte → list byte).

(** [OsshStream::new], with the seed and the padding [rand::fill] drew. *)
Definition new_writer (seed padding keyword : list byte) : Writer :=
  let c2s := Rc4_new (derive_key sha1 seed keyword (Lit "client_to_server")) in
  let '(c2s, encrypted) := apply c2s (be32 MAGIC ++ be32 (wrap32 (Z.of_nat (length padding))) ++ padding) in
  mkWriter c2s WIdent [] (seed ++ encrypted).
Definition new_reader (seed keyword : list byte) : Reader :=
  mkReader (Rc4_new (derive_key sha1 seed keyword (Lit "server_to_client"))) RIdent [] [] [] None.
End OsshStream.

(** * Writing *)

(** The stream below: its answers to [poll_write] to come, and the bytes it has taken. *)
Record Sink := mkSink { answers : list (poll (io_error + nat)); sunk : list byte }.

(** It never takes more bytes than it is offered. *)
Definition sink_write (s : Sink) (buf : list byte) : poll (io_error + nat) * Sink :=
  match answers s with
  | [] => (Pending, s)
  | Ready (inr n) :: rest =>
      let n := Nat.min n (length buf) in (Ready (inr n), mkSink rest (sunk s ++ take n buf))
  | answer :: rest => (answer, mkSink rest (sunk s))
  end.

Definition advance (n : nat) (w : Writer) : Writer := mkWriter (c2s w) (wstate w) (wbuf w) (drop n (wout w)).

Fixpoint flush_loop (fuel : nat) (s : Sink) (w : Writer) : res Empty_set (poll (option io_error) * Sink * Writer) :=
  match wout w with
  | [] => Ok (Ready None, s, w)
  | _ =>
      match fuel with
      | O => NoFuel
      | S fuel =>
          match sink_write s (wout w) with
          | (Pending, s) => Ok (Pending, s, w)
          | (Ready (inr O), s) => Ok (Ready (Some WriteZero), s, w)
          | (Ready (inr n), s) => flush_loop fuel s (advance n w)
          | (Ready (inl e), s) => Ok (Ready (Some e), s, w)
          end
      end
  end.
(** Every round that goes on takes a byte of [wout]. *)
Definition flush_out (s : Sink) (w : Writer) := flush_loop (length (wout w)) s w.

(** [poll_write]; an error of the first flush is ignored. *)
Definition poll_write (buf : list byte) (s : Sink) (w : Writer)
    : res Empty_set (poll (io_error + nat) * Sink * Writer) :=
  '(first, s, w) ← flush_out s w;
  match first with
  | Pending => Ok (Pending, s, w)
  | Ready _ =>
      w ← process_write (mkWriter (c2s w) (wstate w) (wbuf w ++ buf) (wout w));
      '(second, s, w) ← flush_out s w;
      match second with
      | Ready (Some e) => Ok (Ready (inl e), s, w)
      | _ => Ok (Ready (inr (length buf)), s, w)
      end
  end.

(** [poll_flush] and [poll_shutdown], with the same call of the stream below: everything is written
    before that stream is asked. *)
Definition after_flush (below : Sink → poll (option io_error) * Sink) (s : Sink) (w : Writer)
    : res Empty_set (poll (option io_error) * Sink * Writer) :=
  '(first, s, w) ← flush_out s w;
  match first with
  | Ready None => let '(r, s) := below s in Ok (r, s, w)
  | r => Ok (r, s, w)
  end.
Definition poll_flush := after_flush.
Definition poll_shutdown := after_flush.

(** * Reading *)

(** [Ready (inr [])] is the end of the stream below. *)
Abbreviation read_answer := (poll (io_error + list byte)).

(** [poll_read] into a buffer with [room] bytes left: the bytes put there, and the answers left.
    A round that goes on takes an answer, or the next one returns. *)
Fixpoint poll_read_loop (room : nat) (source : list read_answer) (fuel : nat) (r : Reader)
    : res Empty_set (read_answer * list read_answer * Reader) :=
  match fuel with
  | O => NoFuel
  | S fuel =>
      r ← process_read r;
      match rbuf r with
      | _ :: _ =>
          let n := Nat.min room (length (rbuf r)) in
          Ok (Ready (inr (take n (rbuf r))), source, mkReader (s2c r) (rstate r) (rin r) (drop n (rbuf r)) (rline r) (kex_prefix r))
      | [] =>
          match rstate r, rin r with
          | RDone, _ :: _ => poll_read_loop room source fuel (mkReader (s2c r) RDone [] (rin r) (rline r) (kex_prefix r))
          | _, _ =>
              match source with
              | [] => Ok (Pending, [], r)
              | Ready (inr []) :: source => Ok (Ready (inr []), source, r)
              | Ready (inr chunk) :: source =>
                  poll_read_loop room source fuel (mkReader (s2c r) (rstate r) (rin r ++ chunk) (rbuf r) (rline r) (kex_prefix r))
              | answer :: source => Ok (answer, source, r)
              end
          end
      end
  end.

Definition poll_read (room : nat) (source : list read_answer) (r : Reader) := poll_read_loop room source (length source + 2) r.

(** A run of calls of [poll_read]: the bytes handed to the caller, the answers left and the reader. *)
Fixpoint read_run (rooms : list nat) (source : list read_answer) (r : Reader)
    : res Empty_set (list byte * list read_answer * Reader) :=
  match rooms with
  | [] => Ok ([], source, r)
  | room :: rooms =>
      '(a, source, r) ← poll_read room source r;
      '(got, source, r) ← read_run rooms source r;
      Ok ((match a with Ready (inr bytes) => bytes | _ => [] end) ++ got, source, r)
  end.

(** A run of calls of [poll_write]: the bytes taken, the stream below and the writer. *)
Fixpoint write_run (bufs : list (list byte)) (s : Sink) (w : Writer) : res Empty_set (list byte * Sink * Writer) :=
  match bufs with
  | [] => Ok ([], s, w)
  | buf :: bufs =>
      '(p, s, w) ← poll_write buf s w;
      '(taken, s, w) ← write_run bufs s w;
      Ok ((match p with Pending => [] | Ready _ => buf end) ++ taken, s, w)
  end.

(** * Properties of writing *)

Definition settled (w : Writer) : Prop := process_write w = Ok w.

Lemma process_settles w w' : process_write w = Ok w' → settled w'.
Proof. intros H. pose proof (process_write_feed [] w) as Hf. by rewrite feed_nil, H in Hf; cbn [mbind res_bind] in Hf; rewrite feed_nil in Hf. Qed.

Lemma behind_nil w : behind [] w = w.
Proof. by destruct w. Qed.
Lemma behind_behind a b w : behind a (behind b w) = behind (a ++ b) w.
Proof. unfold behind. simpl. by rewrite app_assoc. Qed.
Lemma feed_behind a b w : feed a (behind b w) = behind b (feed a w).
Proof. done. Qed.

(** [w'] is [w] after the sink took the first bytes of its output. *)
Definition drained (s : Sink) (w : Writer) (s' : Sink) (w' : Writer) : Prop :=
  ∃ o, w = behind o w' ∧ sunk s' = sunk s ++ o.

Lemma advance_behind n w : behind (take n (wout w)) (advance n w) = w.
Proof. unfold behind, advance. simpl. rewrite take_drop. by destruct w. Qed.

Lemma flush_loop_spec fuel s w : (length (wout w) <= fuel)%nat →
  ∃ p s' w', flush_loop fuel s w = Ok (p, s', w') ∧ drained s w s' w' ∧ (p = Ready None → wout w' = []).
Proof.
  revert s w. induction fuel as [|fuel IH]; intros s w Hf; cbn [flush_loop]; destruct (wout w) as [|b l] eqn:Ew;
    try (simpl in Hf; lia); [exists (Ready None), s, w; split_and!; try done; exists []; by rewrite behind_nil, app_nil_r..|].
  assert (∀ rest, drained s w (mkSink rest (sunk s)) w) as Hid by (intros; exists []; by rewrite behind_nil, app_nil_r).
  unfold sink_write. destruct (answers s) as [|[[e|n]|] rest]; [eexists _, _, _; split_and!; try done; by destruct s..| | |].
  - eexists _, _, _. split_and!; try done.
  - destruct (Nat.min n (length (b :: l))) as [|m] eqn:Em; [eexists _, _, _; split_and!; try done|].
    + exists []. by rewrite behind_nil.
    + destruct (IH (mkSink rest (sunk s ++ take (S m) (b :: l))) (advance (S m) w)) as (p & s' & w' & H1 & (o & H2 & H3) & H4).
      { unfold advance. cbn [wout]. rewrite length_drop, Ew. simpl in *. lia. }
      exists p, s', w'. split_and!; try done. exists (take (S m) (b :: l) ++ o). split.
      * by rewrite <- behind_behind, <- H2, <- Ew, advance_behind.
      * by rewrite H3; cbn [sunk]; rewrite <- app_assoc.
  - eexists _, _, _. split_and!; try done.
Qed.

Lemma flush_out_spec s w : ∃ p s' w', flush_out s w = Ok (p, s', w') ∧ drained s w s' w' ∧ (p = Ready None → wout w' = []).
Proof. by apply flush_loop_spec. Qed.

(** A flush or shutdown that is done has handed everything down first. *)
Lemma after_flush_spec below s w : (∀ s, sunk (below s).2 = sunk s) →
  ∃ p s' w' s1, after_flush below s w = Ok (p, s', w') ∧ drained s w s1 w' ∧ sunk s' = sunk s1 ∧ (p = Ready None → wout w' = []).
Proof.
  intros Hb. unfold after_flush. destruct (flush_out_spec s w) as (p & s1 & w1 & -> & Hd & Hw). cbn [mbind res_bind].
  destruct p as [[e|]|]; [by eexists _, s1, w1, s1| |by eexists _, s1, w1, s1].
  specialize (Hb s1). destruct (below s1) as [r s2]. exists r, s2, w1, s1. split_and!; try done. intros _. by apply Hw.
Qed.

Lemma poll_write_spec buf s w :
  match poll_write buf s w with
  | Ok (Pending, s', w') => drained s w s' w'
  | Ok (Ready _, s', w') => ∃ w1, process_write (feed buf w) = Ok w1 ∧ drained s w1 s' w'
  | Panic => process_write (feed buf w) = Panic
  | _ => False
  end.
Proof.
  unfold poll_write. destruct (flush_out_spec s w) as (p & s1 & w1 & -> & (o & -> & H1) & _). cbn [mbind res_bind].
  destruct p as [p|]; [|by exists o]. change (mkWriter _ _ _ _) with (feed buf w1). rewrite feed_behind, process_write_behind.
  destruct (process_write (feed buf w1)) as [w2|[]| |] eqn:E2; cbn [mbind res_bind fmap res_fmap]; [|done|].
  - destruct (flush_out_spec s1 w2) as (q & s3 & w3 & -> & (o' & -> & H3) & _). cbn [mbind res_bind].
    assert (∃ w1, Ok (E:=Empty_set) (behind o (behind o' w3)) = Ok w1 ∧ drained s w1 s3 w3) as Hd.
    { eexists. split; [done|]. exists (o ++ o'). by rewrite behind_behind, H3, H1, app_assoc. }
    by destruct q as [[e|]|].
  - exact (process_write_total _ E2).
Qed.

Lemma process_feed_app a b w w1 : process_write (feed a w) = Ok w1 → process_write (feed (a ++ b) w) = process_write (feed b w1).
Proof. intros H. by rewrite <- feed_feed, process_write_feed, H. Qed.

Lemma write_run_spec bufs s w : settled w →
  match write_run bufs s w with
  | Ok (taken, s', w') => ∃ w1, process_write (feed taken w) = Ok w1 ∧ drained s w1 s' w'
  | Panic => ∃ taken, process_write (feed taken w) = Panic
  | _ => False
  end.
Proof.
  revert s w. induction bufs as [|buf bufs IH]; intros s w Hw; cbn [write_run].
  { exists w. rewrite feed_nil. split; [done|]. exists []. by rewrite behind_nil, app_nil_r. }
  pose proof (poll_write_spec buf s w) as Hp. destruct (poll_write buf s w) as [[[p s1] w1]| | |]; cbn [mbind res_bind]; try done;
    [|by exists buf].
  assert (∃ a o, (match p with Pending => [] | Ready _ => buf end) = a ∧ process_write (feed a w) = Ok (behind o w1)
                 ∧ sunk s1 = sunk s ++ o) as (a & o & -> & Ha & Ho).
  { destruct p; [destruct Hp as (w2 & H & o & -> & Ho); by exists buf, o|]. destruct Hp as (o & -> & Ho). exists [], o.
    by rewrite feed_nil. }
  assert (settled w1) as H1.
  { apply process_settles in Ha. unfold settled in *. rewrite process_write_behind in Ha. destruct (process_write w1) as [w2| | |]; try done.
    injection Ha as E1 E2 E3 E4. apply app_inv_head in E4. destruct w2, w1. simpl in *. congruence. }
  specialize (IH s1 w1 H1). destruct (write_run bufs s1 w1) as [[[taken s2] w2]| | |]; cbn [mbind res_bind]; try done.
  - destruct IH as (w3 & H3 & o3 & -> & Ho3). exists (behind o (behind o3 w2)). split.
    + by rewrite (process_feed_app _ _ _ _ Ha), feed_behind, process_write_behind, H3.
    + exists (o ++ o3). by rewrite behind_behind, Ho3, Ho, app_assoc.
  - destruct IH as [taken H]. exists (a ++ taken). by rewrite (process_feed_app _ _ _ _ Ha), feed_behind, process_write_behind, H.
Qed.

Lemma settled_ident c o : settled (mkWriter c WIdent [] o).
Proof. done. Qed.
#[local] Opaque Rc4_new derive_key.

Section Wire.
Context (sha1 : list byte → list byte) (seed padding keyword : list byte).

Definition c2s_key : Rc4 := Rc4_new (derive_key sha1 seed keyword (Lit "client_to_server")).
Definition s2c_key : Rc4 := Rc4_new (derive_key sha1 seed keyword (Lit "server_to_client")).
(** What follows the seed. *)
Definition hello : list byte := be32 MAGIC ++ be32 (wrap32 (Z.of_nat (length padding))) ++ padding.
Abbreviation w0 := (new_writer sha1 seed padding keyword).

Lemma new_writer_eq : w0 = mkWriter (apply c2s_key hello).1 WIdent [] (seed ++ (apply c2s_key hello).2).
Proof using Type. unfold new_writer, hello, c2s_key. cbv zeta. by destruct (apply _ _). Qed.
#[local] Opaque new_writer c2s_key hello.

End Wire.

(** * Handshakes as SSH defines them *)

(** Payload and padding of a binary packet; the first byte of the payload is the message type. *)
Definition packet_ok (p : list byte * list byte) : Prop :=
  p.1 ≠ [] ∧ (length p.2 < 256)%nat ∧ Z.of_nat (length p.1 + 1 + length p.2) <= MAX_PACKET.
Definition wire_packet (p : list byte * list byte) : list byte := binary p.1 p.2.
Definition is_newkeys (p : list byte * list byte) : bool := bool_decide (head p.1 = Some MSG_NEWKEYS).

(** The key-exchange packets: NEWKEYS is the last and only the last. *)
Fixpoint kex_ok (ps : list (list byte * list byte)) : Prop :=
  match ps with
  | [] => False
  | p :: ps => packet_ok p ∧ if is_newkeys p then ps = [] else kex_ok ps
  end.
Definition kex_bytes (ps : list (list byte * list byte)) : list byte := concat (wire_packet <$> ps).

(** A line with CRLF at its end and nowhere before. *)
Definition line_ok (l : list byte) : Prop := (2 <= length l)%nat ∧ find_crlf l = Some (length l - 2)%nat.

Lemma packet_parts p : packet_ok p →
  from_be (take 4 (wire_packet p)) = Z.of_nat (length p.1 + 1 + length p.2) ∧
  length (wire_packet p) = (5 + length p.1 + length p.2)%nat ∧
  wire_packet p !! 5%nat = head p.1 ∧ (1 <= length p.1)%nat.
Proof.
  destruct p as [payload padding]. intros (H1 & H2 & H3). simpl in *. unfold MAX_PACKET in H3.
  destruct (binary_parts payload padding) as (L & _ & D & Hl); [done|lia|]. split_and!; [done|done| |by destruct payload; simpl in *; [done|lia]].
  unfold wire_packet. cbn [fst snd]. rewrite <- (take_drop 5 (binary payload padding)), D, lookup_app_r by (rewrite length_take; lia).
  rewrite length_take, Hl. replace (5 - 5 `min` (5 + length payload + length padding))%nat with 0%nat by lia.
  by destruct payload.
Qed.

Lemma write_packet_wire p rest w : packet_ok p → wbuf w = wire_packet p ++ rest →
  write_packet w = Ok (Some (mkWriter (apply (c2s w) (wire_packet p)).1 (if is_newkeys p then WDone else WKex) rest
                                      (wout w ++ (apply (c2s w) (wire_packet p)).2))).
Proof.
  intros Hp Hb. destruct (packet_parts p Hp) as (H1 & H2 & H3 & H4). destruct Hp as (Hn & _ & Hm).
  unfold write_packet. rewrite Hb, length_app. case_cmp; [lia|].
  rewrite take_app_le by lia. rewrite H1. rewrite (proj2 (Z.leb_le _ _)) by lia. rewrite (proj2 (Z.leb_le _ _)) by lia.
  cbn [negb andb]. cbv zeta. rewrite Nat2Z.id.
  replace (length p.1 + 1 + length p.2 + 4)%nat with (length (wire_packet p)) by lia.
  case_cmp; [lia|]. rewrite take_app_length, drop_app_length, H3.
  unfold is_newkeys. destruct (head p.1) as [kind|] eqn:Ek; [|by destruct p.1]. destruct (apply (c2s w) (wire_packet p)).
  cbn [fst snd]. by do 2 case_match; simplify_eq; repeat case_bool_decide; simplify_eq.
Qed.

Lemma all_packets_kex ps rest w : kex_ok ps → wstate w = WKex → wbuf w = kex_bytes ps ++ rest →
  all_packets w = Ok (mkWriter (apply (c2s w) (kex_bytes ps)).1 WDone rest (wout w ++ (apply (c2s w) (kex_bytes ps)).2)).
Proof.
  revert w. induction ps as [|p ps IH]; intros w Hk Hs Hb; [done|]. destruct Hk as [Hp Hk].
  unfold kex_bytes in Hb |- *. rewrite fmap_cons in Hb |- *. cbn [concat] in *. rewrite <- app_assoc in Hb.
  rewrite all_packets_unfold by done. rewrite (write_packet_wire _ _ _ Hp Hb). cbn [mbind res_bind].
  rewrite (apply_app (c2s w) (wire_packet p)). cbn [fst snd]. destruct (is_newkeys p) eqn:En.
  - subst ps. cbn [wstate fmap list_fmap concat app apply fst snd]. by rewrite app_nil_r.
  - cbn [wstate]. rewrite (IH (mkWriter _ _ _ _) Hk eq_refl eq_refl). cbn [c2s wout]. by rewrite app_assoc.
Qed.

Section Handshake.
Context (sha1 : list byte → list byte) (seed padding keyword : list byte).
Abbreviation w0 := (new_writer sha1 seed padding keyword).

Lemma write_handshake line ps rest : line_ok line → kex_ok ps →
  process_write (feed (line ++ kex_bytes ps ++ rest) w0) =
    Ok (mkWriter (apply (c2s w0) (line ++ kex_bytes ps)).1 WDone []
                 ((wout w0 ++ (apply (c2s w0) (line ++ kex_bytes ps)).2) ++ rest)).
Proof using Type.
  intros [Hl Hc] Hk. rewrite process_write_eq, new_writer_eq. unfold feed. cbn [wbuf c2s wout wstate app].
  set (c := (apply _ _).1). set (o := seed ++ _). clearbody c o. unfold write_ident. cbn [wbuf c2s wout wstate].
  rewrite (find_crlf_app _ _ _ Hc). replace (length line - 2 + 2)%nat with (length line) by lia.
  rewrite take_app_length, drop_app_length, (apply_app c line). destruct (apply c line) as [c1 out1]. cbn [fst snd].
  unfold processed. cbn [wstate]. rewrite (all_packets_kex ps rest) by done. cbn [mbind res_bind c2s wout].
  unfold write_rest. cbn [wstate wout wbuf c2s]. by rewrite (app_assoc o).
Qed.

(** The client's handshake. Sending an identification line, key-exchange packets up to
    NEWKEYS and any further bytes never fails at any point of the stream; once all is written,
    nothing is held back, the encryption covers exactly the line and the key exchange, and what
    follows goes out as it is. *)
Theorem handshake_written line ps rest : line_ok line → kex_ok ps →
  (∀ k, ∃ w, process_write (feed (take k (line ++ kex_bytes ps ++ rest)) w0) = Ok w) ∧
  ∃ w, process_write (feed (line ++ kex_bytes ps ++ rest) w0) = Ok w ∧ wbuf w = [] ∧ wstate w = WDone ∧
    wout w = seed ++ (apply (c2s_key sha1 seed keyword) (hello padding ++ line ++ kex_bytes ps)).2 ++ rest.
Proof using Type.
  intros Hl Hk. pose proof (write_handshake line ps rest Hl Hk) as H. split.
  - intros k. rewrite <- (take_drop k (line ++ _)), <- feed_feed, process_write_feed in H.
    destruct (process_write (feed (take k _) w0)) as [w| | |]; [by exists w|done..].
  - eexists. split; [exact H|]. split_and!; [done..|]. cbn [wout]. rewrite new_writer_eq. cbn [wout c2s].
    rewrite (apply_app (c2s_key sha1 seed keyword) (hello padding)). cbn [snd].
    rewrite <- !(app_assoc seed), <- !app_assoc. reflexivity.
Qed.
End Handshake.

(** A packet whose length field is 1 is cut to five bytes and indexed at the sixth. *)
Lemma length_one_panics c x o : process_write (mkWriter c WKex (be32 1 ++ [x]) o) = Panic.
Proof.
  unfold process_write, write_ident. cbn [wstate wbuf write_packets]. unfold write_packet. cbn [wbuf wstate].
  rewrite length_app, be_bytes_length, take_app_le, take_ge, from_be32 by (rewrite ?be_bytes_length; done || lia).
  cbn [length]. case_cmp; [lia|]. reflexivity.
Qed.

(** * Properties of reading *)

Definition normal_padding (n : nat) : nat := (4 + (8 - (n + 9) mod 8) mod 8)%nat.
(** A packet as the reader passes it on. *)
Definition normal_packet (p : list byte * list byte) : list byte :=
  binary p.1 (replicate (normal_padding (length p.1)) x00).
Definition normal_bytes (ps : list (list byte * list byte)) : list byte := concat (normal_packet <$> ps).

Lemma normal_padding_unique p n : (4 <= n <= 11)%nat → ((p + 1 + n + 4) mod 8 = 0)%nat → n = normal_padding p.
Proof.
  unfold normal_padding. intros H1 H2. pose proof (Nat.div_mod_eq (p + 1 + n + 4) 8). pose proof (Nat.div_mod_eq (p + 9) 8).
  pose proof (Nat.mod_upper_bound (p + 9) 8 ltac:(lia)). set (r := ((p + 9) mod 8)%nat) in *.
  destruct (decide (r = 0%nat)) as [->|]; [change ((8 - 0) mod 8)%nat with 0%nat; lia|rewrite (Nat.mod_small (8 - r)) by lia; lia].
Qed.

Lemma normalize_wire p : packet_ok p → normalize_packet (wire_packet p) = Ok (normal_packet p).
Proof.
  intros Hp. destruct p as [payload padding]. destruct Hp as (_ & H2 & H3). simpl in *. unfold MAX_PACKET in H3.
  destruct (normalize_binary payload padding) as (n & Hn & Hr & Hm); [done|lia|].
  unfold wire_packet, normal_packet. cbn [fst snd]. by rewrite Hn, <- (normal_padding_unique _ n Hr Hm).
Qed.

(** Reading [n] bytes of an encrypted stream. *)
Lemma decrypt_prefix c n todo rin future rest : (n <= length rin)%nat → (n <= length todo)%nat →
  rin ++ future = (apply c todo).2 ++ rest →
  apply c (take n rin) = ((apply c (take n todo)).1, take n todo) ∧
  drop n rin ++ future = (apply (apply c (take n todo)).1 (drop n todo)).2 ++ rest.
Proof.
  intros Hr Ht H. rewrite <- (take_drop n todo), apply_app in H. cbn [snd] in H.
  rewrite <- (take_drop n rin), <- !app_assoc in H. apply app_inj_1 in H as [H1 H2];
    [|rewrite apply_length, !length_take; lia].
  by rewrite H1, apply_involutive.
Qed.

Lemma ends_with_app p l : ends_with p (l ++ p) = true.
Proof. unfold ends_with. apply bool_decide_eq_true_2. rewrite length_app. replace (_ - _)%nat with (length l) by lia. by rewrite drop_app_length. Qed.
Lemma ends_with_true p l : ends_with p l = true → ∃ r, l = r ++ p.
Proof. unfold ends_with. intros H%bool_decide_eq_true_1. exists (take (length l - length p) l). etrans; [symmetry; apply (take_drop (length l - length p))|]. by rewrite H. Qed.

(** A proper prefix of a line does not end with CRLF. *)
Lemma find_crlf_le p q : ∃ i, find_crlf (p ++ crlf ++ q) = Some i ∧ (i <= length p)%nat.
Proof.
  induction p as [|x p (i & Hi & Hle)]; [exists 0%nat; split; [done|simpl; lia]|].
  assert (∃ y l, p ++ crlf ++ q = y :: l) as (y & l & E) by (destruct p; simpl; eauto).
  cbn [app]. rewrite E in *. rewrite find_crlf_cons. case_decide; [exists 0%nat; split; [done|lia]|].
  rewrite Hi. exists (S i). split; [done|simpl; lia].
Qed.

Lemma line_ok_prefix p q : line_ok (p ++ q) → q ≠ [] → ends_with crlf p = false.
Proof.
  intros [_ Hc] Hq. destruct (ends_with crlf p) eqn:E; [|done]. apply ends_with_true in E as [r ->].
  rewrite <- app_assoc in Hc. destruct (find_crlf_le r q) as (i & Hi & Hle). rewrite Hc in Hi. injection Hi as <-.
  rewrite !length_app in Hle. destruct q; [done|]. simpl in *. lia.
Qed.

Lemma find_crlf_at l i : find_crlf l = Some i → take 2 (drop i l) = crlf.
Proof.
  revert i. induction l as [|x [|y l] IH]; intros i H; [done|by rewrite find_crlf_one in H|].
  rewrite find_crlf_cons in H. case_decide as Hd; [injection H as <-; by destruct Hd as [-> ->]|].
  apply fmap_Some in H as (j & Hj & ->). exact (IH _ Hj).
Qed.
Lemma line_ok_ends l : line_ok l → ends_with crlf l = true.
Proof.
  intros [Hl Hc]. apply find_crlf_at in Hc. rewrite take_ge in Hc by (rewrite length_drop; lia).
  rewrite <- (take_drop (length l - 2) l), Hc. apply ends_with_app.
Qed.

(** What the server sends before the key exchange: lines that are not its identification, which the
    reader drops, and the identification. *)
Fixpoint lines_ok (lines : list (list byte)) : Prop :=
  match lines with
  | [] => False
  | l :: lines => line_ok l ∧ Z.of_nat (length l) <= MAX_LINE ∧ if starts_with (Lit "SSH-") l then lines = [] else lines_ok lines
  end.
Definition identification (lines : list (list byte)) : list byte := default [] (list.last lines).

(** [reading r todo out]: the reader is at a point of the server's stream with [todo] still to
    be decrypted, from which [out] is still to be passed on. *)
Definition reading_line (got todo out : list byte) : Prop :=
  ∃ line lines ps, lines_ok (line :: lines) ∧ kex_ok ps ∧ (length got < length line)%nat ∧
    got ++ todo = line ++ concat lines ++ kex_bytes ps ∧ out = identification (line :: lines) ++ normal_bytes ps.
Definition reading_kex (prefix : option (list byte * nat)) (todo out : list byte) : Prop :=
  ∃ p ps, kex_ok (p :: ps) ∧ out = normal_bytes (p :: ps) ∧
    match prefix with
    | None => todo = kex_bytes (p :: ps)
    | Some (prefix, n) => prefix = take 5 (wire_packet p) ∧ todo = drop 5 (wire_packet p) ++ kex_bytes ps ∧ (n + 5)%nat = length (wire_packet p)
    end.
Definition reading (r : Reader) (todo out : list byte) : Prop :=
  match rstate r with
  | RIdent => kex_prefix r = None ∧ reading_line (rline r) todo out
  | RKex => reading_kex (kex_prefix r) todo out
  | RDone => todo = [] ∧ out = []
  end.

(** [stream r future total]: with [future] still to arrive, [total] is still to be passed on. *)
Definition stream (r : Reader) (future total : list byte) : Prop :=
  ∃ todo out rest, reading r todo out ∧ rin r ++ future = (apply (s2c r) todo).2 ++ rest ∧ total = rbuf r ++ out ++ rest.

(** The reader has something to pass on, or waits for more, or only passes bytes through. *)
Definition rested (r : Reader) (future : list byte) : Prop := rbuf r ≠ [] ∨ rstate r = RDone ∨ future ≠ [].

Lemma kex_start ps : kex_ok ps → reading_kex None (kex_bytes ps) (normal_bytes ps).
Proof. destruct ps as [|p ps]; [done|]. intros H. by exists p, ps. Qed.

Lemma normal_packet_nonempty p : normal_packet p ≠ [].
Proof. unfold normal_packet, binary. intros H. apply (f_equal length) in H. rewrite !length_app, be_bytes_length in H. simpl in H. lia. Qed.

Lemma waiting c todo rin future rest (n : nat) : rin ++ future = (apply c todo).2 ++ rest → (length rin < n)%nat → (n <= length todo)%nat → future ≠ [].
Proof.
  intros H Hr Hn ->. rewrite app_nil_r in H. apply (f_equal length) in H. rewrite length_app, apply_length in H. lia.
Qed.

(** The rest of a packet. *)
Lemma read_kex_rest_stream c i o l p ps n future total rest : kex_ok (p :: ps) → (n + 5)%nat = length (wire_packet p) →
  i ++ future = (apply c (drop 5 (wire_packet p) ++ kex_bytes ps)).2 ++ rest →
  total = o ++ normal_bytes (p :: ps) ++ rest → ∀ old,
  ∃ r go, read_kex_rest (mkReader c RKex i o l old) (take 5 (wire_packet p)) n = Ok (r, go) ∧ stream r future total ∧
    (go = false → rested r future).
Proof.
  intros [Hp Hk] Hn Hi -> old. pose proof (packet_parts p Hp) as (_ & Hlen & Hkind & H1).
  unfold read_kex_rest. cbn [rin s2c rbuf rline]. case_cmp.
  - eexists _, _. split; [done|]. split.
    + exists (drop 5 (wire_packet p) ++ kex_bytes ps), (normal_bytes (p :: ps)), rest. split_and!; try done. by exists p, ps.
    + intros _. right. right. eapply (waiting _ _ _ _ _ n); [exact Hi|lia|]. rewrite length_app, length_drop. lia.
  - destruct (decrypt_prefix c n (drop 5 (wire_packet p) ++ kex_bytes ps) i future rest) as [E Hr];
      [lia|rewrite length_app, length_drop; lia|exact Hi|]. rewrite E.
    assert (length (drop 5 (wire_packet p)) = n) as Hd by (rewrite length_drop; lia).
    rewrite <- Hd, take_app_length in *. rewrite drop_app_length in Hr. rewrite (take_drop 5), Hkind, (normalize_wire p Hp). cbn [mbind res_bind].
    change (bool_decide (head p.1 = Some MSG_NEWKEYS)) with (is_newkeys p).
    assert (stream (mkReader (apply c (drop 5 (wire_packet p))).1 (if is_newkeys p then RDone else RKex) (drop (length (drop 5 (wire_packet p))) i)
      (o ++ normal_packet p) l None) future (o ++ normal_bytes (p :: ps) ++ rest)) as Hs.
    { exists (kex_bytes ps), (normal_bytes ps), rest. split_and!; [|done|by unfold normal_bytes; rewrite fmap_cons; cbn [concat rbuf]; rewrite <- !app_assoc].
      unfold reading. destruct (is_newkeys p); cbn [rstate kex_prefix]; [by subst ps|by apply kex_start]. }
    eexists _, _. split; [done|]. split; [exact Hs|]. intros _. left. cbn [rbuf]. intros [_ He]%app_nil. by apply (normal_packet_nonempty p).
Qed.

(** One byte of a line. *)
Lemma read_line_stream c x xs o l line lines ps future rest : lines_ok (line :: lines) → kex_ok ps → (length l < length line)%nat →
  (∃ b todo, l ++ b :: todo = line ++ concat lines ++ kex_bytes ps ∧ x :: xs ++ future = (apply c (b :: todo)).2 ++ rest) →
  ∃ r go, read_round (mkReader c RIdent (x :: xs) o l None) = Ok (r, go) ∧
    stream r future (o ++ (identification (line :: lines) ++ normal_bytes ps) ++ rest) ∧ (go = false → rested r future).
Proof.
  intros (Hline & Hmax & Hnext) Hk Hlt (b & todo & Hl & Hx). unfold read_round. cbn [rstate rin s2c rline rbuf kex_prefix].
  cbn [apply] in Hx. destruct (apply_byte c b) as [c1 y] eqn:Eb. destruct (apply c1 todo) as [c2 ys] eqn:Et. cbn [snd app] in Hx.
  injection Hx as -> Hx.
  assert (apply_byte c y = (c1, b)) as ->.
  { pose proof (apply_involutive c [b]) as Hi. cbn [apply] in Hi. rewrite Eb in Hi. cbn [snd fst apply] in Hi.
    destruct (apply_byte c y). by injection Hi as -> ->. }
  assert (xs ++ future = (apply c1 todo).2 ++ rest) as Hxs by (by rewrite Et).
  assert (∃ q, line = (l ++ [b]) ++ q ∧ todo = q ++ concat lines ++ kex_bytes ps) as (q & Hq & Htodo).
  { change (b :: todo) with ([b] ++ todo) in Hl. rewrite app_assoc in Hl. exists (drop (length (l ++ [b])) line).
    assert (length (l ++ [b]) <= length line)%nat by (rewrite length_app; simpl; lia).
    assert (take (length (l ++ [b])) line = l ++ [b]) as Ht.
    { apply (f_equal (take (length (l ++ [b])))) in Hl. by rewrite take_app_length, take_app_le in Hl. }
    rewrite <- Ht at 1. rewrite take_drop. split; [done|].
    apply (f_equal (drop (length (l ++ [b])))) in Hl. by rewrite drop_app_length, drop_app_le in Hl. }
  assert (length (l ++ [b]) <= length line)%nat as Hle by (rewrite Hq, (length_app _ q); lia).
  case_cmp; [lia|]. destruct (decide (q = [])) as [->|Hne].
  - rewrite app_nil_r in Hq. rewrite <- Hq, (line_ok_ends _ Hline). cbn [app] in Htodo.
    destruct (starts_with (Lit "SSH-") line).
    + subst lines. eexists _, _. split; [done|]. split; [|intros _; left; cbn [rbuf]; intros [_ ->]%app_nil; by destruct l].
      exists todo, (normal_bytes ps), rest. split_and!; [|done|cbn [rbuf]; unfold identification; cbn; by rewrite <- !app_assoc].
      unfold reading. cbn [rstate kex_prefix]. rewrite Htodo. by apply kex_start.
    + eexists _, _. split; [done|]. split; [|done]. exists todo, (identification lines ++ normal_bytes ps), rest.
      destruct lines as [|l2 lines]; [done|]. split_and!; [|done|done]. split; [done|].
      exists l2, lines, ps. split; [done|]. split; [done|]. cbn [rline length app]. split; [destruct Hnext as ([] & _); lia|].
      split; [|done]. rewrite Htodo. cbn [concat]. by rewrite <- app_assoc.
  - rewrite (line_ok_prefix (l ++ [b]) q) by (by rewrite <- ?Hq). eexists _, _. split; [done|]. split; [|done].
    exists todo, (identification (line :: lines) ++ normal_bytes ps), rest. split_and!; [|done|done]. split; [done|].
    exists line, lines, ps. split; [done|]. split; [done|]. split; [|split; [|done]].
    + cbn [rline]. rewrite Hq, (length_app _ q). destruct q; [done|]. simpl. lia.
    + cbn [rline]. by rewrite Htodo, Hq, <- !app_assoc.
Qed.

Lemma read_round_stream r future total : stream r future total → rstate r ≠ RDone →
  ∃ r' go, read_round r = Ok (r', go) ∧ stream r' future total ∧ (go = false → rested r' future).
Proof.
  destruct r as [c st i o l old]. intros (todo & out & rest & Hr & Hi & ->) Hs. cbn [rstate rin s2c rbuf] in *. destruct st; [| |done].
  - destruct Hr as [Hold (line & lines & ps & Hl & Hk & Hlt & Heq & ->)]. cbn [kex_prefix rline] in *. subst old.
    assert (∃ b todo', todo = b :: todo') as (b & todo' & ->).
    { destruct todo; [|eauto]. apply (f_equal length) in Heq. rewrite !length_app in Heq. simpl in Heq. lia. }
    destruct i as [|x xs].
    + eexists _, _. split; [done|]. split; [|intros _; right; right; apply (waiting _ _ _ _ _ 1 Hi); simpl; lia].
      eexists _, _, rest. split_and!; [|exact Hi|done]. split; [done|]. by exists line, lines, ps.
    + apply (read_line_stream c x xs o l line lines ps future rest Hl Hk Hlt). by exists b, todo'.
  - destruct Hr as (p & ps & Hk & -> & Hp). cbn [kex_prefix] in Hp. unfold read_round. cbn [rstate kex_prefix].
    pose proof Hk as [Hpok _]. pose proof (packet_parts p Hpok) as (Hfrom & Hlen & _ & H1).
    destruct old as [[prefix n]|].
    + destruct Hp as (-> & -> & Hn). by eapply read_kex_rest_stream.
    + subst todo. cbn [rin]. unfold kex_bytes in Hi. rewrite fmap_cons in Hi. cbn [concat] in Hi.
      change (concat (wire_packet <$> ps)) with (kex_bytes ps) in Hi. case_cmp.
      * eexists _, _. split; [done|]. split; [by exists (kex_bytes (p :: ps)), (normal_bytes (p :: ps)), rest; split_and!; try done; exists p, ps|].
        intros _. right. right. eapply (waiting _ _ _ _ _ 5 Hi); [lia|rewrite length_app; lia].
      * cbn [s2c rin rbuf rline]. destruct (decrypt_prefix c 5 (wire_packet p ++ kex_bytes ps) i future rest) as [E Hrest]; [lia|rewrite length_app; lia|done|].
        rewrite E. rewrite take_app_le, drop_app_le in * by lia. cbv zeta. rewrite take_take. change (4 `min` 5)%nat with 4%nat. rewrite Hfrom.
        destruct Hpok as (_ & _ & Hm). rewrite (proj2 (Z.leb_le _ _)) by lia. rewrite (proj2 (Z.leb_le _ _)) by lia. cbn [negb andb].
        eapply read_kex_rest_stream; [done|lia|done|done].
Qed.

(** Rounds that go on, left in [rin] and the known prefix. *)
Definition left (r : Reader) : nat := (length (rin r) + match kex_prefix r with Some _ => 1 | None => 0 end)%nat.

Lemma read_kex_rest_left r prefix n r' : read_kex_rest r prefix n = Ok (r', true) → (left r' <= length (rin r))%nat.
Proof.
  unfold read_kex_rest. case_cmp; [done|]. destruct (apply _ _). intros H1. apply res_bind_ok in H1 as (x & _ & [= <- _]).
  unfold left. cbn [rin kex_prefix]. rewrite length_drop. lia.
Qed.

Lemma read_round_left r r' : read_round r = Ok (r', true) → (left r' < left r)%nat.
Proof.
  unfold read_round. destruct (rstate r); [| |done].
  - unfold left. destruct (rin r) as [|x xs] eqn:E; [done|]. destruct (apply_byte _ _).
    repeat case_match; intros [= <-]; cbn [rin kex_prefix length]; simplify_eq; rewrite ?H0; try lia.
  - destruct (kex_prefix r) as [[prefix n]|] eqn:Ek.
    + intros H%read_kex_rest_left. unfold left at 2. rewrite Ek. lia.
    + case_cmp; [done|]. destruct (apply _ _). destruct (negb _); [done|]. intros H1%read_kex_rest_left. cbn [rin] in H1.
      rewrite length_drop in H1. unfold left at 2. lia.
Qed.

Lemma read_loop_stream fuel r future total : stream r future total → rstate r ≠ RDone → (left r < fuel)%nat →
  ∃ r', read_loop fuel r = Ok r' ∧ stream r' future total ∧ rested r' future.
Proof.
  revert r. induction fuel as [|fuel IH]; intros r Hr Hs Hf; [lia|]. cbn [read_loop].
  destruct (read_round_stream r future total Hr Hs) as (r' & go & E & Hr' & Hgo). rewrite E. cbn [mbind res_bind].
  destruct go; [|by exists r'; auto]. pose proof (read_round_left _ _ E).
  destruct (rstate r') eqn:E'; [apply IH; [done|congruence|lia]..|].
  destruct fuel as [|fuel]; [lia|]. cbn [read_loop]. unfold read_round. rewrite E'. cbn [mbind res_bind]. exists r'.
  split_and!; try done. right. by left.
Qed.

Lemma process_read_stream r future total : stream r future total →
  ∃ r', process_read r = Ok r' ∧ stream r' future total ∧ rested r' future.
Proof.
  intros H. unfold process_read. destruct (rstate r) eqn:E; [apply read_loop_stream; [done|congruence|unfold left; case_match; lia]..|].
  rewrite Nat.add_comm. cbn [Nat.add read_loop]. unfold read_round. rewrite E. cbn [mbind res_bind]. exists r. split_and!; try done. right. by left.
Qed.

(** The bytes a script brings. *)
Definition incoming (source : list read_answer) : list byte :=
  concat ((fun a : read_answer => match a with Ready (inr chunk) => chunk | _ => [] end) <$> source).

Lemma stream_feed r chunk future total : stream r (chunk ++ future) total →
  stream (mkReader (s2c r) (rstate r) (rin r ++ chunk) (rbuf r) (rline r) (kex_prefix r)) future total.
Proof. intros (todo & out & rest & H1 & H2 & H3). exists todo, out, rest. split_and!; try done. cbn [rin s2c]. by rewrite <- app_assoc. Qed.

Lemma stream_take n r future total : stream r future total →
  ∃ total', total = take n (rbuf r) ++ total' ∧
    stream (mkReader (s2c r) (rstate r) (rin r) (drop n (rbuf r)) (rline r) (kex_prefix r)) future total'.
Proof.
  intros (todo & out & rest & H1 & H2 & ->). exists (drop n (rbuf r) ++ out ++ rest). split; [by rewrite (app_assoc (take n _)), take_drop|].
  by exists todo, out, rest.
Qed.

Lemma stream_through r future total : stream r future total → rstate r = RDone → rbuf r = [] →
  total = rin r ++ future ∧ stream (mkReader (s2c r) RDone [] (rin r) (rline r) (kex_prefix r)) future total.
Proof.
  intros (todo & out & rest & H1 & H2 & ->) E Eb. unfold reading in H1. rewrite E in H1. destruct H1 as [-> ->].
  cbn [apply snd app] in *. rewrite Eb. split; [by rewrite H2|]. exists [], [], future. split_and!; try done.
Qed.

Lemma process_read_done r : rstate r = RDone → process_read r = Ok r.
Proof. intros E. unfold process_read. rewrite Nat.add_comm. cbn [Nat.add read_loop]. unfold read_round. rewrite E. done. Qed.

Lemma incoming_cons a source : incoming (a :: source) = (match a with Ready (inr chunk) => chunk | _ => [] end) ++ incoming source.
Proof. done. Qed.

(** One call, whatever the stream below has for it. *)
Definition answered (future : list byte) (a : read_answer) (source : list read_answer) (r : Reader) (total : list byte) : Prop :=
  ∃ total', total = (match a with Ready (inr bytes) => bytes | _ => [] end) ++ total' ∧
    stream r (incoming source ++ future) total' ∧ (a = Pending → source = [] → future = [] → total' = []).

Lemma poll_read_stream room source fuel r future total :
  stream r (incoming source ++ future) total → (length source + 2 <= fuel)%nat →
  ∃ a source' r', poll_read_loop room source fuel r = Ok (a, source', r') ∧ answered future a source' r' total.
Proof.
  assert (∀ r source total, stream r (incoming source ++ future) total →
    answered future (Ready (inr (take (room `min` length (rbuf r)) (rbuf r)))) source
      (mkReader (s2c r) (rstate r) (rin r) (drop (room `min` length (rbuf r)) (rbuf r)) (rline r) (kex_prefix r)) total) as Hgive.
  { intros r1 src t H1. destruct (stream_take (room `min` length (rbuf r1)) _ _ _ H1) as (total' & Ht & H). by exists total'. }
  revert source r. induction fuel as [|fuel IH]; intros source r Hr Hf; [lia|]. cbn [poll_read_loop].
  destruct (process_read_stream _ _ _ Hr) as (r1 & -> & H1 & Hrest). cbn [mbind res_bind].
  destruct (rbuf r1) as [|x l] eqn:Eb; [|rewrite <- Eb; eexists _, _, _; split; [done|by apply Hgive]].
  assert ((rstate r1 = RDone ∧ rin r1 ≠ []) ∨ ¬ (rstate r1 = RDone ∧ rin r1 ≠ [])) as [[Hd Hin]|Hd].
  { destruct (rstate r1), (rin r1); naive_solver. }
  - rewrite Hd. destruct (rin r1) as [|y ys] eqn:Ei; [done|]. rewrite <- Ei.
    destruct (stream_through _ _ _ H1 Hd Eb) as [_ H2]. destruct fuel as [|fuel]; [lia|]. cbn [poll_read_loop].
    rewrite process_read_done by done. cbn [mbind res_bind]. cbn [rbuf]. rewrite Ei in H2 |- *.
    eexists _, _, _. split; [done|]. exact (Hgive _ _ _ H2).
  - assert (∀ a : read_answer, a = Pending ∨ (∃ e, a = Ready (inl e)) ∨ a = Ready (inr []) → ∀ source', incoming source = incoming source' →
      (source' = [] → future = [] → incoming source ++ future = []) → answered future a source' r1 total) as Hsame.
    { intros a Ha source' Hinc Hempty. exists total. split; [by destruct Ha as [-> |[[e ->]| ->]]|]. rewrite <- Hinc. split; [done|].
      intros _ Hs Hfut. specialize (Hempty Hs Hfut). destruct Hrest as [?|[E|?]]; [done| |done].
      destruct (stream_through _ _ _ H1 E Eb) as [-> _]. rewrite Hempty. destruct (rin r1); [done|]. by destruct Hd. }
    match goal with |- context [match rstate r1 with RIdent => ?next | _ => _ end] =>
      assert (∃ a source' r', next = Ok (a, source', r') ∧ answered future a source' r' total) as Hnext end.
    { destruct source as [|[[e|[|y ys]]|] source].
      - eexists _, _, _. split; [done|]. apply Hsame; [by left|done|by intros _ ->].
      - eexists _, _, _. split; [done|]. apply Hsame; [by right; left; eexists|done|by intros -> ->].
      - eexists _, _, _. split; [done|]. apply Hsame; [by right; right|done|by intros -> ->].
      - apply IH; [|simpl in Hf; lia]. rewrite <- Eb. apply stream_feed. rewrite incoming_cons, <- app_assoc in H1. exact H1.
      - eexists _, _, _. split; [done|]. apply Hsame; [by left|done|by intros -> ->]. }
    destruct (rstate r1); [exact Hnext..|]. destruct (rin r1); [exact Hnext|]. by destruct Hd.
Qed.

Definition expected (lines : list (list byte)) (ps : list (list byte * list byte)) (tail : list byte) : list byte :=
  identification lines ++ normal_bytes ps ++ tail.

Lemma read_run_stream rooms source r future total : stream r (incoming source ++ future) total →
  ∃ got source' r' total', read_run rooms source r = Ok (got, source', r') ∧ total = got ++ total' ∧
    stream r' (incoming source' ++ future) total'.
Proof.
  revert source r total. induction rooms as [|room rooms IH]; intros source r total Hr; cbn [read_run].
  - by exists [], source, r, total.
  - destruct (poll_read_stream room source _ r future total Hr (Nat.le_refl _)) as (a & s1 & r1 & E & t1 & -> & H1 & _).
    unfold poll_read. rewrite E. cbn [mbind res_bind]. destruct (IH _ _ _ H1) as (got & s2 & r2 & t2 & -> & -> & H2). cbn [mbind res_bind].
    eexists _, s2, r2, t2. split; [done|]. by rewrite app_assoc.
Qed.

Lemma stream_new sha1 seed keyword lines ps tail : lines_ok lines → kex_ok ps →
  stream (new_reader sha1 seed keyword) ((apply (s2c_key sha1 seed keyword) (concat lines ++ kex_bytes ps)).2 ++ tail) (expected lines ps tail).
Proof.
  intros Hl Hk. exists (concat lines ++ kex_bytes ps), (identification lines ++ normal_bytes ps), tail.
  split; [|split; [done|by unfold expected; rewrite <- app_assoc]]. unfold reading, new_reader. cbn [rstate kex_prefix rline]. split; [done|].
  destruct lines as [|l lines]; [done|]. exists l, lines, ps. split; [done|]. split; [done|]. split; [destruct Hl as ([] & _); simpl; lia|].
  split; [|done]. cbn [concat app]. by rewrite <- app_assoc.
Qed.

(** C16: The server's half of the tunnel. The server sends lines, its identification, key-exchange
    packets up to NEWKEYS, all encrypted, and then plain bytes. However these arrive and however
    they are read, with errors and pending polls in between: no read panics, the bytes the caller
    has got are an initial part of the identification, the packets with normalised padding and the
    plain bytes, and a read that is pending once everything has arrived has delivered all of it. *)
Theorem read_wire sha1 seed keyword lines ps tail source future rooms :
  lines_ok lines → kex_ok ps →
  incoming source ++ future = (apply (s2c_key sha1 seed keyword) (concat lines ++ kex_bytes ps)).2 ++ tail →
  ∃ got source' r,
    read_run rooms source (new_reader sha1 seed keyword) = Ok (got, source', r) ∧
    got `prefix_of` expected lines ps tail ∧
    (∀ room, ∃ a source'' r', poll_read room source' r = Ok (a, source'', r') ∧
       (a = Pending → source'' = [] → future = [] → got = expected lines ps tail)).
Proof.
  intros Hl Hk Hs. pose proof (stream_new sha1 seed keyword lines ps tail Hl Hk) as H. rewrite <- Hs in H.
  destruct (read_run_stream rooms source _ future _ H) as (got & source' & r & total & E & Ht & Hr).
  exists got, source', r. split; [exact E|]. split; [by exists total|]. intros room.
  destruct (poll_read_stream room source' _ r future total Hr (Nat.le_refl _)) as (a & s1 & r1 & E1 & t1 & -> & _ & Hp).
  exists a, s1, r1. split; [exact E1|]. intros -> H1 H2. rewrite (Hp eq_refl H1 H2) in Ht. by rewrite Ht, !app_nil_r.
Qed.

(** * Witnesses *)

Module OsshExample.
Definition toy_sha1 (l : list byte) : list byte := take 20 (reverse l ++ replicate 20 x2a).
Definition keyword : list byte := Lit "keyword".
Definition seed : list byte := replicate 16 x07.
Definition lines : list (list byte) := [Lit "welcome" ++ crlf; Lit "SSH-2.0-server" ++ crlf].
Definition packets : list (list byte * list byte) := [([x14; x01; x02], replicate 9 xee); ([MSG_NEWKEYS], replicate 10 xaa)].
Definition wire : list byte := (apply (s2c_key toy_sha1 seed keyword) (concat lines ++ kex_bytes packets)).2 ++ Lit "plain".
Definition source : list read_answer := [Ready (inr (take 30 wire)); Pending; Ready (inr (drop 30 wire))].

Lemma packets_ok : kex_ok packets.
Proof. vm_compute. split_and!; try done; lia. Qed.
Lemma lines_good : lines_ok lines.
Proof. vm_compute. split_and!; try done; lia. Qed.
End OsshExample.
Import OsshExample.

(** The client sends the same packets and a few bytes more. *)
Lemma handshake_written_witness :
  line_ok (Lit "SSH-2.0-client" ++ crlf) ∧ kex_ok packets ∧
  ∃ w, process_write (feed ((Lit "SSH-2.0-client" ++ crlf) ++ kex_bytes packets ++ Lit "rest") (new_writer toy_sha1 seed [x01] keyword)) = Ok w ∧ wbuf w = [].
Proof.
  assert (line_ok (Lit "SSH-2.0-client" ++ crlf)) as Hl by (split; [vm_compute; lia|done]).
  split; [exact Hl|]. split; [exact packets_ok|].
  destruct (handshake_written toy_sha1 seed [x01] keyword _ packets (Lit "rest") Hl packets_ok) as [_ (w & H & Hb & _)].
  exists w. exact (conj H Hb).
Defined.

(** Four reads of up to 20 bytes. *)
Lemma read_wire_witness :
  lines_ok lines ∧ kex_ok packets ∧ incoming source ++ [] = (apply (s2c_key toy_sha1 seed keyword) (concat lines ++ kex_bytes packets)).2 ++ Lit "plain" ∧
  ∃ got source' r, read_run [20; 20; 20; 20]%nat source (new_reader toy_sha1 seed keyword) = Ok (got, source', r) ∧
    got `prefix_of` expected lines packets (Lit "plain").
Proof.
  split; [exact lines_good|]. split; [exact packets_ok|]. assert (incoming source ++ [] = (apply (s2c_key toy_sha1 seed keyword) (concat lines ++ kex_bytes packets)).2 ++ Lit "plain") as Hs by (vm_compute; reflexivity).
  split; [exact Hs|].
  destruct (read_wire toy_sha1 seed keyword lines packets (Lit "plain") source [] [20; 20; 20; 20]%nat lines_good packets_ok Hs)
    as (got & source' & r & H & Hp & _). exists got, source', r. exact (conj H Hp).
Defined.
