(* ===== verification/SshAccount.v ===== *)
(** ssh/account.rs: the embedded SSH accounts, their selection by region and their grouping. The
    TOML parser and the embedded files are parameters. *)
From S2P Require Import Prelude Text Sorting.

Record Account := mkAccount {
  a_ip : str; a_region : str; a_ssh_port : Z; a_ossh_port : Z; a_ssh_username : str;
  a_ssh_password : str; a_ssh_host_key : str; a_ssh_obfuscated_key : str
}.

(** The contents of an account file; the ports are u16. *)
Record File := mkFile {
  f_region : str; f_ssh_port : Z; f_ossh_port : Z; f_ssh_username : str; f_ssh_password : str;
  f_ssh_host_key : str; f_ssh_obfuscated_key : str
}.

Definition account_of (ip : str) (f : File) : Account :=
  mkAccount ip (f_region f) (f_ssh_port f) (f_ossh_port f) (f_ssh_username f) (f_ssh_password f)
            (f_ssh_host_key f) (f_ssh_obfuscated_key f).

(** [load]: a file is its stem and its text, either of which may not be UTF-8. *)
Fixpoint load (toml : str → option File) (files : list (option str * option str)) : list Account :=
  match files with
  | [] => []
  | (stem, text) :: files =>
      match text with
      | None => load toml files
      | Some text =>
          match toml text, stem with
          | Some f, Some ip => account_of ip f :: load toml files
          | _, _ => load toml files
          end
      end
  end.

(** [parse]: the accounts of a region, all of them for the empty name. *)
Definition parse (accounts : list Account) (region : str) : list Account :=
  filter (fun a => region = [] ∨ a_region a = region) accounts.

Definition group_step (grouped : list (str * list Account)) (a : Account) : list (str * list Account) :=
  if decide (a_region a = []) then grouped
  else bt_set (a_region a) (default [] (bt_get (a_region a) grouped) ++ [a]) grouped.
Definition group_by_region (accounts : list Account) : list (str * list Account) := foldl group_step [] accounts.

(** * Properties *)

Lemma group_get accounts r :
  bt_get r (group_by_region accounts) =
    match filter (fun a => a_region a = r) accounts with
    | [] => None
    | l => if decide (r = []) then None else Some l
    end.
Proof.
  unfold group_by_region. induction accounts as [|a accounts IH] using rev_ind; [done|].
  rewrite foldl_app, filter_app, filter_cons, filter_nil. cbn [foldl]. unfold group_step at 1.
  destruct (decide (a_region a = [])) as [E|E].
  - rewrite IH, E. destruct (decide ([] = r)) as [<-|Hr]; [|by rewrite app_nil_r].
    by destruct (filter _ accounts).
  - rewrite bt_get_set, IH. destruct (decide (r = a_region a)) as [->|Hr].
    + rewrite (decide_True (P := a_region a = a_region a)) by done.
      destruct (filter _ accounts) eqn:Ef; cbn [app]; rewrite !(decide_False (P := a_region a = [])) by done; by rewrite IH, ?(decide_False (P := a_region a = [])).
    + rewrite (decide_False (P := a_region a = r)) by congruence. by rewrite app_nil_r.
Qed.

Lemma group_sorted accounts : bt_sorted (group_by_region accounts).
Proof.
  unfold group_by_region. induction accounts as [|a accounts IH] using rev_ind; [constructor|].
  rewrite foldl_app. cbn [foldl]. unfold group_step at 1. case_decide; [done|]. by apply bt_set_sorted.
Qed.

Lemma parse_region accounts r : r ≠ [] → parse accounts r = filter (fun a => a_region a = r) accounts.
Proof. intros Hr. apply list_filter_iff. intros a. naive_solver. Qed.

Lemma group_elem accounts r l : (r, l) ∈ group_by_region accounts ↔ r ≠ [] ∧ l ≠ [] ∧ l = parse accounts r.
Proof.
  rewrite <- (bt_get_elem _ _ _ (group_sorted accounts)), group_get. split.
  - intros E. assert (r ≠ []) as Hr by (intros ->; by destruct (filter _ accounts)). rewrite parse_region by done.
    destruct (filter _ accounts) eqn:Ef; [done|]. rewrite decide_False in E by done. injection E as <-. done.
  - intros (Hr & Hl & ->). rewrite parse_region in * by done. destruct (filter _ accounts) eqn:Ef; [done|]. by rewrite decide_False.
Qed.

(** Grouping. The regions come out in strict byte order, each with exactly its accounts in
    their original order, as [parse] selects them; no region is empty, the accounts without a
    region are in none, and every other account is in the group of its region. *)
Theorem group_by_region_spec accounts :
  bt_sorted (group_by_region accounts) ∧
  (∀ r l, (r, l) ∈ group_by_region accounts ↔ r ≠ [] ∧ l ≠ [] ∧ l = parse accounts r) ∧
  (∀ a, a ∈ accounts → a_region a ≠ [] → ∃ l, (a_region a, l) ∈ group_by_region accounts ∧ a ∈ l).
Proof.
  split; [apply group_sorted|]. split; [intros r l; apply group_elem|]. intros a Ha Hr. exists (parse accounts (a_region a)).
  assert (a ∈ parse accounts (a_region a)) as Hin by (apply list_elem_of_filter; auto).
  split; [apply group_elem; split_and!; [done| |done]|done]. intros E. rewrite E in Hin. by apply elem_of_nil in Hin.
Qed.

(** Loading skips exactly the files that are not text, do not parse or have no usable name. *)
Lemma load_elem toml files a :
  a ∈ load toml files ↔ ∃ ip text f, (Some ip, Some text) ∈ files ∧ toml text = Some f ∧ a = account_of ip f.
Proof.
  induction files as [|[stem text] files IH]; cbn [load].
  - rewrite elem_of_nil. split; [done|]. intros (? & ? & ? & H & _). by apply elem_of_nil in H.
  - setoid_rewrite elem_of_cons.
    assert ((∀ ip t f, stem = Some ip → text = Some t → toml t = Some f → False) →
      a ∈ load toml files ↔ ∃ ip t f, ((Some ip, Some t) = (stem, text) ∨ (Some ip, Some t) ∈ files) ∧ toml t = Some f ∧ a = account_of ip f) as Hskip.
    { intros Hno. rewrite IH. split; intros (ip & t & f & H & H1 & H2); exists ip, t, f; [by auto|].
      destruct H as [[= <- <-]|H]; [destruct (Hno _ _ _ eq_refl eq_refl H1)|done]. }
    destruct text as [text|]; [|apply Hskip; naive_solver]. destruct (toml text) as [f|] eqn:E; [|apply Hskip; naive_solver].
    destruct stem as [ip|]; [|apply Hskip; naive_solver]. rewrite elem_of_cons, IH. split.
    + intros [->|(ip' & t & f' & H & H')]; [by exists ip, text, f; auto|exists ip', t, f'; auto].
    + intros (ip' & t & f' & [[= -> ->]|H] & H1 & ->); [left; congruence|right; by exists ip', t, f'].
Qed.

Definition toy_account (region : str) (n : Z) : Account := mkAccount (show_uint n) region 22 0 [] [] [] [].
Example group_example :
  let a := toy_account (Lit "US") 1 in let b := toy_account (Lit "CA") 2 in let c := toy_account [] 3 in let d := toy_account (Lit "US") 4 in
  group_by_region [a; b; c; d] = [(Lit "CA", [b]); (Lit "US", [a; d])] ∧ length (parse [a; b; c; d] []) = 4%nat.
Proof. split; reflexivity. Qed.
