(* ===== verification/SshManager.v ===== *)
(** ssh/mod.rs: a region's pool of SSH sessions. The manager task, the tasks that connect sessions,
    the tasks that notice a dead session and the callers interleave; each [event] is one of their
    steps between two accesses to shared state that others can see. *)
From S2P Require Import Prelude Text Exit SshAccount.

Definition MANAGER_INTERVAL : Z := 1000.
Definition PICK_TIMEOUT : Z := 10000.
Definition HANDSHAKE_RETRY : Z := 20.
Definition MAX_CONCURRENT_HANDSHAKES : nat := 8.
Definition SSH_EXIT_CACHE_ENTRIES : nat := Z.to_nat 1024.

Record Config := mkConfig {
  cfg_region : str; cfg_pool_size : Z; client_platform : str; sponsor_id : str; propagation_channel_id : str
}.
Definition config_default : Config :=
  mkConfig [] 1 (Lit "Windows") (Lit "FFFFFFFFFFFFFFFF") (Lit "FFFFFFFFFFFFFFFF").

(** A session is a shared object with an identity; whether it is closed is kept beside. *)
Record Session := mkSession { s_id : nat; s_ip : str; s_protocol : str }.
#[export] Instance session_eq_dec : EqDecision Session.
Proof. solve_decision. Defined.

Section Manager.
Context {L : LruLib}.

(** The counters are atomics of 64 bits; the timestamps are milliseconds. *)
Record Inner := mkInner {
  region : str; target_pool : nat; socks_port : Z; sessions : list Session; exits : LruCache Exit;
  accounts : list Account; account_not_before : list Z; account_failures : list Z;
  rotate : Z; terminate_pending : Z; connecting : Z; generation : Z; config : Config
}.

(** [Tunnel::start_with], with the port its listener got. *)
Definition start_with (config : Config) (accounts : list Account) (port : Z) : Inner :=
  mkInner (cfg_region config) (Z.to_nat (Z.max 1 (cfg_pool_size config))) port [] (lru_new SSH_EXIT_CACHE_ENTRIES)
          accounts (replicate (length accounts) 0) (replicate (length accounts) 0) 0 0 0 0 config.
(** [Tunnel::start] *)
Definition start (all : list Account) (config : Config) (port : Z) : Inner :=
  start_with config (parse all (cfg_region config)) port.

Definition with_sessions (i : Inner) (l : list Session) : Inner :=
  mkInner (region i) (target_pool i) (socks_port i) l (exits i) (accounts i) (account_not_before i) (account_failures i)
          (rotate i) (terminate_pending i) (connecting i) (generation i) (config i).
Definition with_exits (i : Inner) (c : LruCache Exit) : Inner :=
  mkInner (region i) (target_pool i) (socks_port i) (sessions i) c (accounts i) (account_not_before i) (account_failures i)
          (rotate i) (terminate_pending i) (connecting i) (generation i) (config i).
Definition with_account (i : Inner) (index : nat) (not_before failures : Z) : Inner :=
  mkInner (region i) (target_pool i) (socks_port i) (sessions i) (exits i) (accounts i)
          (<[index := not_before]> (account_not_before i)) (<[index := failures]> (account_failures i))
          (rotate i) (terminate_pending i) (connecting i) (generation i) (config i).
Definition with_rotate (i : Inner) (n : Z) : Inner :=
  mkInner (region i) (target_pool i) (socks_port i) (sessions i) (exits i) (accounts i) (account_not_before i) (account_failures i)
          n (terminate_pending i) (connecting i) (generation i) (config i).
Definition with_pending (i : Inner) (n : Z) : Inner :=
  mkInner (region i) (target_pool i) (socks_port i) (sessions i) (exits i) (accounts i) (account_not_before i) (account_failures i)
          (rotate i) n (connecting i) (generation i) (config i).
Definition with_connecting (i : Inner) (n : Z) : Inner :=
  mkInner (region i) (target_pool i) (socks_port i) (sessions i) (exits i) (accounts i) (account_not_before i) (account_failures i)
          (rotate i) (terminate_pending i) n (generation i) (config i).
Definition next_generation (i : Inner) : Inner :=
  mkInner (region i) (target_pool i) (socks_port i) (sessions i) (exits i) (accounts i) (account_not_before i) (account_failures i)
          (rotate i) (terminate_pending i) (connecting i) (wrap64 (generation i + 1)) (config i).

Definition is_closed (closed : gset nat) (s : Session) : bool := bool_decide (s_id s ∈ closed).
Definition open_sessions (closed : gset nat) (i : Inner) : list Session := filter (fun s => is_closed closed s = false) (sessions i).

Definition live (i : Inner) : nat := length (sessions i).
Definition ready (closed : gset nat) (i : Inner) : nat := length (open_sessions closed i).
Definition active_tunnels := ready.
Definition is_ready (closed : gset nat) (i : Inner) : bool := (0 <? active_tunnels closed i)%nat.
Definition socks_addr (i : Inner) : str := Lit "127.0.0.1:" ++ show_uint (socks_port i).
Definition proxy_url (i : Inner) : str := Lit "socks5h://" ++ socks_addr i.

(** [fetch_add(1) % len] *)
Definition rotate_mod (i : Inner) (len : nat) : nat * Inner :=
  (Z.to_nat (rotate i mod Z.of_nat len), with_rotate i (wrap64 (rotate i + 1))).

(** One look of [pick_session]. *)
Definition pick_open (closed : gset nat) (i : Inner) : option Session * Inner :=
  match open_sessions closed i with
  | [] => (None, i)
  | open => let '(index, i) := rotate_mod i (length open) in (open !! index, i)
  end.

Definition record_exit (i : Inner) (host : str) (s : Session) : Inner :=
  with_exits i (lru_put (exits i) (to_lowercase host) (mkExit (s_ip s) (region i) (s_protocol s))).
Definition exit_for (i : Inner) (host : str) : Exit := default exit_default (lru_peek (exits i) (to_lowercase host)).

Definition terminate (i : Inner) (count : Z) : Inner := with_pending i (wrap64 (terminate_pending i + count)).

Definition reap (closed : gset nat) (i : Inner) : Inner :=
  if decide (filter (fun s => is_closed closed s = true) (sessions i) = []) then i
  else next_generation (with_sessions i (open_sessions closed i)).

(** The [for] loop of [pick_account]. *)
Fixpoint pick_loop (n : nat) (now : Z) (i : Inner) : res Empty_set (option nat * Inner) :=
  match n with
  | O => Ok (None, i)
  | S n =>
      let '(index, i) := rotate_mod i (length (accounts i)) in
      match account_not_before i !! index with
      | None => Panic
      | Some t => if t <=? now then Ok (Some index, i) else pick_loop n now i
      end
  end.
Definition pick_account (now : Z) (i : Inner) : res Empty_set (option nat * Inner) := pick_loop (length (accounts i)) now i.

(** What a connecting task stores. *)
Definition connected (i : Inner) (index : nat) (s : Session) : Inner :=
  let i := with_account i index 0 0 in with_sessions i (sessions i ++ [s]).
Definition backoff (failures : Z) : Z := Z.min (Z.shiftl 1000 (Z.min failures 6)) 300000.
Definition refused (i : Inner) (index : nat) (now : Z) : Inner :=
  let failures := wrap64 (default 0 (account_failures i !! index) + 1) in
  with_account i index (now + backoff failures) failures.

Definition need (i : Inner) (live : nat) : nat := target_pool i - (live + Z.to_nat (connecting i)).

(** * The tasks *)

(** A connecting task: it runs the handshake, has stored its outcome, or has given its permit back
    and not yet counted itself off. *)
Inductive Phase := Connecting | Stored | Released.
#[export] Instance phase_eq_dec : EqDecision Phase.
Proof. solve_decision. Defined.
Record Task := mkTask { t_account : nat; t_phase : Phase }.

(** Where the manager task is: asleep, retiring sessions ([todo] to go, [retired] popped), at the
    head of its loop, or after it read how many sessions there are. *)
Inductive Pc := Sleeping | Retiring (todo retired : nat) | Head | Counted (live : nat).

(** [others] permits of the process-wide semaphore are held by other regions. *)
Record Manager := mkManager {
  inner : Inner; closed : gset nat; permits : nat; others : nat; tasks : list Task; pc : Pc; now : Z; next_id : nat
}.

Inductive event :=
| Wake              (* the manager's sleep is over: reap, take the terminate count *)
| Retire            (* it pops a session or is done with that *)
| CountLive         (* [inner.live()] *)
| Decide            (* it reads [connecting] and spawns a task, retries or goes to sleep *)
| Connect (k : nat) (ip protocol : str)  (* task [k] has a session *)
| Refuse (k : nat)  (* task [k] has failed *)
| Release (k : nat) (* task [k] drops its permit *)
| Finish (k : nat)  (* task [k] counts itself off and ends *)
| Close (id : nat)  (* the driver of a session ends *)
| Terminate (count : Z)
| Pick
| Dialled (host : str) (s : Session)
| Elapse (ms : Z)
| OtherTake
| OtherGive.

Definition set_inner (m : Manager) (i : Inner) : Manager :=
  mkManager i (closed m) (permits m) (others m) (tasks m) (pc m) (now m) (next_id m).
Definition at_pc (m : Manager) (i : Inner) (p : Pc) : Manager :=
  mkManager i (closed m) (permits m) (others m) (tasks m) p (now m) (next_id m).
Definition set_task (m : Manager) (k : nat) (p : Phase) (i : Inner) (permits next_id : nat) : Manager :=
  mkManager i (closed m) permits (others m) (alter (fun t => mkTask (t_account t) p) k (tasks m)) (pc m) (now m) next_id.

Definition decide_step (m : Manager) (live : nat) : option Manager :=
  let i := inner m in
  match need i live with
  | O => Some (at_pc m i Sleeping)
  | S _ =>
      match pick_account (now m) i with
      | Ok (None, i) => Some (at_pc m i Sleeping)
      | Ok (Some index, i) =>
          match permits m with
          | O => Some (at_pc m i Head)
          | S permits =>
              Some (mkManager (with_connecting i (wrap64 (connecting i + 1))) (closed m) permits (others m)
                              (tasks m ++ [mkTask index Connecting]) Head (now m) (next_id m))
          end
      | _ => None
      end
  end.

(** The step of an event; [None] when it cannot happen now, or would panic. *)
Definition fire (m : Manager) (e : event) : option Manager :=
  let i := inner m in
  match e, pc m with
  | Wake, Sleeping =>
      let i := reap (closed m) i in
      Some (at_pc m (with_pending i 0) (Retiring (Z.to_nat (terminate_pending i)) 0))
  | Retire, Retiring (S todo) retired =>
      match list.last (sessions i) with
      | Some s => Some (mkManager (with_sessions i (removelast (sessions i))) ({[s_id s]} ∪ closed m) (permits m) (others m)
                                  (tasks m) (Retiring todo (S retired)) (now m) (next_id m))
      | None => Some (at_pc m i (Retiring todo retired))
      end
  | Retire, Retiring O retired =>
      let i := if (0 <? retired)%nat then next_generation i else i in
      Some (at_pc m i (match accounts i with [] => Sleeping | _ => Head end))
  | CountLive, Head => Some (at_pc m i (Counted (live i)))
  | Decide, Counted live => decide_step m live
  | Connect k ip protocol, _ =>
      match tasks m !! k with
      | Some (mkTask index Connecting) =>
          Some (set_task m k Stored (connected i index (mkSession (next_id m) ip protocol)) (permits m) (S (next_id m)))
      | _ => None
      end
  | Refuse k, _ =>
      match tasks m !! k with
      | Some (mkTask index Connecting) => Some (set_task m k Stored (refused i index (now m)) (permits m) (next_id m))
      | _ => None
      end
  | Release k, _ =>
      match tasks m !! k with
      | Some (mkTask _ Stored) => Some (set_task m k Released i (S (permits m)) (next_id m))
      | _ => None
      end
  | Finish k, _ =>
      match tasks m !! k with
      | Some (mkTask _ Released) =>
          Some (mkManager (with_connecting i (wrap64 (connecting i - 1))) (closed m) (permits m) (others m)
                          (delete k (tasks m)) (pc m) (now m) (next_id m))
      | _ => None
      end
  | Close id, _ =>
      if (id <? next_id m)%nat then
        Some (mkManager i ({[id]} ∪ closed m) (permits m) (others m) (tasks m) (pc m) (now m) (next_id m))
      else None
  | Terminate count, _ => Some (set_inner m (terminate i count))
  | Pick, _ => Some (set_inner m (pick_open (closed m) i).2)
  | Dialled host s, _ => Some (set_inner m (record_exit i host s))
  | Elapse ms, _ =>
      if 0 <=? ms then Some (mkManager i (closed m) (permits m) (others m) (tasks m) (pc m) (now m + ms) (next_id m)) else None
  | OtherTake, _ =>
      match permits m with
      | S p => Some (mkManager i (closed m) p (S (others m)) (tasks m) (pc m) (now m) (next_id m))
      | O => None
      end
  | OtherGive, _ =>
      match others m with
      | S o => Some (mkManager i (closed m) (S (permits m)) o (tasks m) (pc m) (now m) (next_id m))
      | O => None
      end
  | _, _ => None
  end.

Fixpoint run (m : Manager) (es : list event) : option Manager :=
  match es with
  | [] => Some m
  | e :: es => m' ← fire m e; run m' es
  end.

(** The manager as it is spawned, with [others] permits held elsewhere. *)
Definition spawned (i : Inner) (others : nat) (now : Z) : Manager :=
  mkManager i ∅ (MAX_CONCURRENT_HANDSHAKES - others) others [] Sleeping now 0.

(** * Callers *)

(** [pick_session]: a look every 200 ms; [env] is what all the tasks do meanwhile. *)
Fixpoint pick_loop_session (fuel : nat) (env : Manager → Manager) (deadline : Z) (m : Manager) : res Empty_set (option Session * Manager) :=
  match fuel with
  | O => NoFuel
  | S fuel =>
      let '(picked, i) := pick_open (closed m) (inner m) in
      let m := set_inner m i in
      match picked with
      | Some s => Ok (Some s, m)
      | None => if deadline <=? now m then Ok (None, m) else pick_loop_session fuel env deadline (env m)
      end
  end.
(** Ten seconds of looks every 200 ms. *)
Definition PICK_LOOKS : nat := 51.
Definition pick_session (env : Manager → Manager) (m : Manager) := pick_loop_session PICK_LOOKS env (now m + PICK_TIMEOUT) m.

Inductive Error := Core (what : str) | Socket (what : str) | Timeout | Auth.

(** [dial], with what the session's connection answers. *)
Definition dial {Channel} (open_channel : Session → str → Z → res Error Channel) (env : Manager → Manager) (host : str) (port : Z) (m : Manager)
    : res Empty_set (res Error Channel * Manager) :=
  '(picked, m) ← pick_session env m;
  match picked with
  | None => Ok (Err Timeout, m)
  | Some s =>
      match open_channel s host port with
      | Ok channel => Ok (Ok channel, set_inner m (record_exit (inner m) host s))
      | r => Ok (r, m)
      end
  end.

(** * The invariant *)

Definition count (P : Phase → bool) (l : list Task) : nat := length (filter (fun t => P (t_phase t)) l).
#[local] Arguments count : simpl never.
Definition is_connecting (p : Phase) : bool := match p with Connecting => true | _ => false end.
Definition holds_permit (p : Phase) : bool := match p with Released => false | _ => true end.

Lemma delete_alter {A} (f : A → A) k (l : list A) : delete k (alter f k l) = delete k l.
Proof using Type. revert k. induction l as [|x l IH]; intros [|k]; [done..|]. cbn. by rewrite IH. Qed.

Lemma task_count_cons P t l : count P (t :: l) = ((if P (t_phase t) then 1 else 0) + count P l)%nat.
Proof using Type. unfold count. rewrite filter_cons. destruct (P (t_phase t)); cbn; case_decide; done. Qed.
Lemma count_nil P : count P [] = 0%nat.
Proof using Type. done. Qed.
Lemma count_app P l1 l2 : count P (l1 ++ l2) = (count P l1 + count P l2)%nat.
Proof using Type. unfold count. by rewrite filter_app, length_app. Qed.
Lemma task_count_delete P k t l : l !! k = Some t → count P l = ((if P (t_phase t) then 1 else 0) + count P (delete k l))%nat.
Proof using Type. intros H. rewrite <- task_count_cons. unfold count. apply Permutation_length. by rewrite <- (delete_Permutation l k t). Qed.
Lemma count_alter P k t p l : l !! k = Some t →
  count P (alter (fun t => mkTask (t_account t) p) k l) = ((if P p then 1 else 0) + count P (delete k l))%nat.
Proof using Type.
  intros H. rewrite (task_count_delete P k (mkTask (t_account t) p)).
  - by rewrite delete_alter.
  - rewrite list_lookup_alter, H. by case_decide.
Qed.
Lemma count_le P l : (count P l <= length l)%nat.
Proof using Type. apply length_filter. Qed.
Lemma count_holds l : (count is_connecting l <= count holds_permit l)%nat.
Proof using Type. induction l as [|t l IH]; [done|]. rewrite !task_count_cons. destruct (t_phase t); simpl; lia. Qed.

(** What holds between any two steps. *)
Record inv (m : Manager) : Prop := {
  inv_permits : (permits m + others m + count holds_permit (tasks m) = MAX_CONCURRENT_HANDSHAKES)%nat;
  inv_connecting : connecting (inner m) = Z.of_nat (length (tasks m));
  inv_rotate : 0 <= rotate (inner m) < 2 ^ 64;
  inv_tasks : (length (tasks m) <= target_pool (inner m))%nat;
  inv_target : Z.of_nat (target_pool (inner m)) < 2 ^ 32;
  inv_not_before : length (account_not_before (inner m)) = length (accounts (inner m));
  inv_failures : length (account_failures (inner m)) = length (accounts (inner m));
  inv_accounts : Forall (fun t => t_account t < length (accounts (inner m)))%nat (tasks m);
  inv_ids : NoDup (s_id <$> sessions (inner m)) ∧ Forall (fun s => s_id s < next_id m)%nat (sessions (inner m));
  inv_pool : (live (inner m) + count is_connecting (tasks m) <= target_pool (inner m) + MAX_CONCURRENT_HANDSHAKES)%nat;
  inv_counted l : pc m = Counted l → (l <= live (inner m))%nat ∧
    (live (inner m) - l + count is_connecting (tasks m) <= MAX_CONCURRENT_HANDSHAKES)%nat
}.

Lemma pick_loop_spec n now i : length (account_not_before i) = length (accounts i) → 0 <= rotate i < 2 ^ 64 →
  (n = 0 ∨ 0 < length (accounts i))%nat →
  ∃ r n', pick_loop n now i = Ok (r, with_rotate i n') ∧ 0 <= n' < 2 ^ 64 ∧
    match r with Some index => ∃ t, account_not_before i !! index = Some t ∧ t <= now | None => True end.
Proof using Type.
  revert i. induction n as [|n IH]; intros i Hl Hr Hn; cbn [pick_loop].
  - exists None, (rotate i). split; [by destruct i|]. done.
  - destruct Hn as [|Hn]; [done|]. unfold rotate_mod. set (index := Z.to_nat (rotate i mod Z.of_nat (length (accounts i)))).
    assert (index < length (accounts i))%nat as Hi.
    { unfold index. pose proof (Z.mod_pos_bound (rotate i) (Z.of_nat (length (accounts i))) ltac:(lia)). lia. }
    assert (0 <= wrap64 (rotate i + 1) < 2 ^ 64) as Hw by (apply Z.mod_pos_bound; lia).
    change (account_not_before (with_rotate i _)) with (account_not_before i).
    destruct (lookup_lt_is_Some_2 (account_not_before i) index) as [t Ht]; [lia|]. rewrite Ht. case_cmp.
    + eexists (Some index), _. split; [done|]. split; [done|]. by exists t.
    + destruct (IH (with_rotate i (wrap64 (rotate i + 1)))) as (r & n' & E & Hn' & Hr'); [done|done|by right|].
      exists r, n'. by rewrite E.
Qed.

(** [pick_account] cannot panic under the invariant. *)
Lemma pick_account_ok now i : length (account_not_before i) = length (accounts i) → 0 <= rotate i < 2 ^ 64 →
  ∃ r n', pick_account now i = Ok (r, with_rotate i n') ∧ 0 <= n' < 2 ^ 64 ∧
    match r with Some index => ∃ t, account_not_before i !! index = Some t ∧ t <= now | None => True end.
Proof using Type. intros H1 H2. apply pick_loop_spec; [done|done|lia]. Qed.

Lemma inv_spawned i held now : (held <= MAX_CONCURRENT_HANDSHAKES)%nat →
  ∀ cfg accts port, i = start_with cfg accts port → cfg_pool_size cfg < 2 ^ 32 → inv (spawned i held now).
Proof using Type.
  intros Ho cfg accts port -> Hc. unfold MAX_CONCURRENT_HANDSHAKES in *.
  split; unfold spawned, start_with, MAX_CONCURRENT_HANDSHAKES; cbn [permits others tasks inner connecting rotate target_pool account_not_before
    account_failures accounts sessions next_id pc]; rewrite ?length_replicate; unfold count; try done; try lia; cbn; try lia.
  split; [constructor|done].
Qed.

Lemma inv_wake m : inv m → pc m = Sleeping → ∀ p, (∀ l, p ≠ Counted l) →
  inv (at_pc m (with_pending (reap (closed m) (inner m)) 0) p).
Proof using Type.
  intros [] Hp p Hn. unfold reap, open_sessions. case_decide; split; cbn; try done; try (intros l E; by destruct (Hn l)).
  - split; [by eapply sublist_NoDup, fmap_sublist, sublist_filter; apply inv_ids0|].
    destruct inv_ids0 as [_ Hf]. rewrite Forall_forall in Hf |- *. intros s [_ Hs]%list_elem_of_filter. by apply Hf.
  - unfold live in *. cbn. etrans; [|exact inv_pool0]. apply Nat.add_le_mono_r, length_filter.
Qed.

Lemma inv_retire m m' : inv m → fire m Retire = Some m' → inv m'.
Proof using Type.
  intros [] H. unfold fire in H. destruct (pc m) as [|[|todo] retired| |] eqn:Ep; try done.
  - injection H as <-. destruct (0 <? retired)%nat; split; cbn; try done; intros l; by case_match.
  - destruct (list.last (sessions (inner m))) as [s|] eqn:El; injection H as <-; [|split; cbn; done].
    apply last_Some in El as [ss El]. split; cbn; rewrite ?El, ?removelast_last; try done.
    + destruct inv_ids0 as [Hnd Hf]. rewrite El in Hnd, Hf. rewrite fmap_app in Hnd. apply NoDup_app in Hnd as [? _].
      apply Forall_app in Hf as [? _]. done.
    + unfold live in *. cbn. rewrite El, length_app in inv_pool0. rewrite ?removelast_last. lia.
Qed.

Lemma inv_decide m m' l : inv m → pc m = Counted l → decide_step m l = Some m' → inv m'.
Proof using Type.
  intros HI Hp. pose proof HI as []. unfold decide_step. destruct (need (inner m) l) as [|nd] eqn:En.
  { intros [= <-]. split; cbn; done. }
  destruct (pick_account_ok (now m) (inner m)) as (r & n' & -> & Hn' & Hr); [done|done|].
  destruct r as [index|]; [|intros [= <-]; split; cbn; done].
  destruct (inv_counted0 _ Hp) as [Hl Hb].
  destruct (permits m) as [|p] eqn:Ep; intros [= <-]; [split; cbn; try done; by rewrite Ep|].
  unfold need in En. rewrite inv_connecting0, Nat2Z.id in En. pose proof (count_le is_connecting (tasks m)).
  destruct Hr as (t & Ht & _). apply lookup_lt_Some in Ht. unfold live in *.
  split; cbn; rewrite ?count_app, ?task_count_cons, ?count_nil, ?length_app; cbn; try done; try lia.
  - rewrite inv_connecting0. unfold wrap64. rewrite Z.mod_small by lia. lia.
  - apply Forall_app. split; [done|]. constructor; [cbn; lia|done].
Qed.

Lemma tasks_lt m k t : inv m → tasks m !! k = Some t → (t_account t < length (accounts (inner m)))%nat.
Proof using Type. intros [] H. rewrite Forall_lookup in inv_accounts0. by apply (inv_accounts0 k). Qed.

Lemma inv_store m k index j p n :
  inv m → tasks m !! k = Some (mkTask index Connecting) →
  length (account_not_before j) = length (accounts j) → length (account_failures j) = length (accounts j) →
  accounts j = accounts (inner m) → connecting j = connecting (inner m) → rotate j = rotate (inner m) → target_pool j = target_pool (inner m) →
  NoDup (s_id <$> sessions j) → Forall (fun s => s_id s < n)%nat (sessions j) →
  (length (sessions (inner m)) <= length (sessions j) <= S (length (sessions (inner m))))%nat →
  p = permits m → inv (set_task m k Stored j p n).
Proof using Type.
  intros HI Hk H1 H2 E1 E2 E3 E4 H3 H4 Hlen ->. pose proof HI as [].
  pose proof (task_count_delete is_connecting _ _ _ Hk) as C1. pose proof (task_count_delete holds_permit _ _ _ Hk) as C2.
  pose proof (count_alter is_connecting _ _ Stored _ Hk) as D1. pose proof (count_alter holds_permit _ _ Stored _ Hk) as D2.
  cbn [t_phase is_connecting holds_permit] in *. unfold live in *.
  split; cbn; rewrite ?length_alter, ?E1, ?E2, ?E3, ?E4; try done; try lia; try congruence.
  - apply Forall_alter; [done|]. intros t Ht _. cbn. by apply (tasks_lt m k).
  - unfold live. lia.
  - unfold live. intros l Hl. destruct (inv_counted0 l Hl). lia.
Qed.

Lemma inv_connect m m' k ip protocol : inv m → fire m (Connect k ip protocol) = Some m' → inv m'.
Proof using Type.
  intros HI H. cbn in H. destruct (tasks m !! k) as [[index []]|] eqn:Hk; try done. injection H as <-. pose proof HI as [].
  destruct inv_ids0 as [Hnd Hf]. eapply inv_store; try exact Hk; try done; cbn; rewrite ?length_insert, ?length_app; cbn; try done; try lia.
  - rewrite fmap_app. apply NoDup_app. split; [done|]. split; [|apply NoDup_singleton].
    intros x (s & -> & Hs)%list_elem_of_fmap Hx. apply list_elem_of_singleton in Hx. cbn in Hx. rewrite Forall_forall in Hf.
    specialize (Hf s Hs). lia.
  - apply Forall_app. split; [|constructor; [cbn; lia|done]]. eapply Forall_impl; [exact Hf|]. intros s ?; cbn in *. lia.
Qed.

Lemma inv_refuse m m' k : inv m → fire m (Refuse k) = Some m' → inv m'.
Proof using Type.
  intros HI H. cbn in H. destruct (tasks m !! k) as [[index []]|] eqn:Hk; try done. injection H as <-. pose proof HI as [].
  destruct inv_ids0 as [Hnd Hf]. eapply inv_store; try exact Hk; try done; cbn; rewrite ?length_insert; done || lia.
Qed.

Lemma inv_release m m' k : inv m → fire m (Release k) = Some m' → inv m'.
Proof using Type.
  intros HI H. cbn in H. destruct (tasks m !! k) as [[index []]|] eqn:Hk; try done. injection H as <-. pose proof HI as [].
  pose proof (task_count_delete is_connecting _ _ _ Hk) as C1. pose proof (task_count_delete holds_permit _ _ _ Hk) as C2.
  pose proof (count_alter is_connecting _ _ Released _ Hk) as D1. pose proof (count_alter holds_permit _ _ Released _ Hk) as D2.
  cbn [t_phase is_connecting holds_permit] in *.
  split; cbn; rewrite ?length_alter; try done; try lia.
  - apply Forall_alter; [done|]. intros t Ht _. cbn. by apply (tasks_lt m k).
  - intros l Hl. destruct (inv_counted0 l Hl). lia.
Qed.

Lemma inv_finish m m' k : inv m → fire m (Finish k) = Some m' → inv m'.
Proof using Type.
  intros HI H. cbn in H. destruct (tasks m !! k) as [[index []]|] eqn:Hk; try done. injection H as <-. pose proof HI as [].
  pose proof (task_count_delete is_connecting _ _ _ Hk) as C1. pose proof (task_count_delete holds_permit _ _ _ Hk) as C2.
  pose proof (length_delete (tasks m) k) as Hd. pose proof (lookup_lt_Some _ _ _ Hk).
  cbn [t_phase is_connecting holds_permit] in *.
  split; cbn; rewrite ?Hd by eauto; try done; try lia.
  - rewrite inv_connecting0. unfold wrap64. rewrite Z.mod_small by lia. lia.
  - by apply Forall_delete.
  - unfold live in *. cbn. lia.
  - intros l Hl. destruct (inv_counted0 l Hl). unfold live in *. cbn. lia.
Qed.

Lemma fire_inv m e m' : inv m → fire m e = Some m' → inv m'.
Proof using Type.
  intros HI H. destruct e; try (by eapply inv_retire; [done|exact H]); try (by eapply inv_connect); try (by eapply inv_refuse);
    try (by eapply inv_release); try (by eapply inv_finish); unfold fire in H.
  - destruct (pc m) eqn:Ep; try done. injection H as <-. by apply inv_wake.
  - destruct (pc m) eqn:Ep; try done. injection H as <-. destruct HI. split; cbn; try done.
    intros l [= <-]. pose proof (count_holds (tasks m)). lia.
  - destruct (pc m) eqn:Ep; try done. by eapply inv_decide.
  - destruct (id <? next_id m)%nat; [|done]. injection H as <-. destruct HI; by split.
  - injection H as <-. destruct HI; by split.
  - injection H as <-. unfold pick_open. destruct (open_sessions (closed m) (inner m)) as [|s l]; [destruct HI; by split|].
    destruct HI. split; cbn; try done. apply Z.mod_pos_bound. lia.
  - injection H as <-. destruct HI; by split.
  - destruct (0 <=? ms); [|done]. injection H as <-. destruct HI; by split.
  - destruct (permits m) eqn:Ep; [done|]. injection H as <-. destruct HI. split; cbn; try done. lia.
  - destruct (others m) eqn:Ep; [done|]. injection H as <-. destruct HI. split; cbn; try done. lia.
Qed.

Lemma manager_run_inv m es m' : inv m → run m es = Some m' → inv m'.
Proof using Type.
  revert m. induction es as [|e es IH]; intros m HI H; cbn [run] in H; [by injection H as <-|].
  apply bind_Some in H as (m1 & H1 & H). eapply IH; [|exact H]. by eapply fire_inv.
Qed.

(** C14: The size of the pool. From the start of the manager and under every interleaving: the
    sessions and the handshakes in flight are never more than the target and the eight permits
    together, at most eight handshakes run in the process, the counter of connecting tasks is exact,
    no two sessions are the same, and choosing an account never indexes out of range. *)
Theorem pool_bounded cfg accts port held clock es m :
  (held <= MAX_CONCURRENT_HANDSHAKES)%nat → cfg_pool_size cfg < 2 ^ 32 →
  run (spawned (start_with cfg accts port) held clock) es = Some m →
  (live (inner m) + count is_connecting (tasks m) <= target_pool (inner m) + MAX_CONCURRENT_HANDSHAKES)%nat ∧
  (count holds_permit (tasks m) + others m <= MAX_CONCURRENT_HANDSHAKES)%nat ∧
  connecting (inner m) = Z.of_nat (length (tasks m)) ∧
  NoDup (s_id <$> sessions (inner m)) ∧
  ∃ r, pick_account (now m) (inner m) = Ok r.
Proof using Type.
  intros Ho Hc H. pose proof (manager_run_inv _ _ _ (inv_spawned _ _ clock Ho _ _ _ eq_refl Hc) H) as [].
  split_and!; try done; [lia|apply inv_ids0|]. destruct (pick_account_ok (now m) (inner m)) as (r & n' & -> & _); [done|done|by eexists].
Qed.

(** What became of the sessions of [m0] after [n] steps. *)
Definition since (m0 : Manager) (n : nat) (m : Manager) : Prop :=
  generation (inner m0) <= generation (inner m) <= generation (inner m0) + Z.of_nat n ∧
  (generation (inner m) = generation (inner m0) →
   match pc m with Retiring _ (S _) => True | _ => sessions (inner m0) `prefix_of` sessions (inner m) end).

Definition retiring (m : Manager) : bool := match pc m with Retiring _ (S _) => true | _ => false end.

Lemma pick_loop_same n clock i r j : pick_loop n clock i = Ok (r, j) → generation j = generation i ∧ sessions j = sessions i.
Proof using Type.
  revert i. induction n as [|n IH]; intros i; cbn [pick_loop]; [by intros [= _ <-]|].
  unfold rotate_mod. destruct (account_not_before _ !! _); [|done]. destruct (_ <=? _); [by intros [= _ <-]|].
  intros H%IH. exact H.
Qed.

(** A step keeps the sessions and appends at most one, or counts a generation, or is amid retiring. *)
Lemma fire_sessions m e m' : 0 <= generation (inner m) < 2 ^ 64 - 1 → fire m e = Some m' →
  (generation (inner m') = generation (inner m) ∧ sessions (inner m) `prefix_of` sessions (inner m') ∧ retiring m' = retiring m) ∨
  generation (inner m') = generation (inner m) + 1 ∨
  generation (inner m') = generation (inner m) ∧ retiring m' = true.
Proof using Type.
  intros Hg H. assert (wrap64 (generation (inner m) + 1) = generation (inner m) + 1) as Hw by (apply Z.mod_small; lia).
  destruct e; unfold fire in H.
  - destruct (pc m) eqn:Ep; try done. injection H as <-. unfold reap. case_decide; [left|by right; left].
    unfold retiring. by rewrite Ep.
  - destruct (pc m) as [|[|todo] retired| |] eqn:Ep; try done.
    + injection H as <-. destruct retired as [|r]; [left|by right; left]. unfold retiring. rewrite Ep. cbn. split_and!; [done..|]. by destruct (accounts (inner m)).
    + destruct (list.last _); injection H as <-; [by right; right|]. left. unfold retiring. by rewrite Ep.
  - destruct (pc m) eqn:Ep; try done. injection H as <-. left. unfold retiring. by rewrite Ep.
  - destruct (pc m) eqn:Ep; try done. left. unfold retiring, decide_step in *. rewrite Ep.
    destruct (need _ _); [by injection H as <-|].
    destruct (pick_account _ _) as [[[index|] i]| | |] eqn:E; try done.
    all: destruct (pick_loop_same _ _ _ _ _ E) as [Eg Es].
    + destruct (permits m); injection H as <-; cbn; by rewrite Eg, Es.
    + injection H as <-; cbn. by rewrite Eg, Es.
  - destruct (tasks m !! k) as [[index []]|]; try done. injection H as <-. left. cbn. split_and!; [done|by eexists|done].
  - destruct (tasks m !! k) as [[index []]|]; try done. injection H as <-. by left.
  - destruct (tasks m !! k) as [[index []]|]; try done. injection H as <-. by left.
  - destruct (tasks m !! k) as [[index []]|]; try done. injection H as <-. by left.
  - destruct (id <? next_id m)%nat; [|done]. injection H as <-. by left.
  - injection H as <-. by left.
  - injection H as <-. left. unfold pick_open. by destruct (open_sessions _ _).
  - injection H as <-. by left.
  - destruct (0 <=? ms); [|done]. injection H as <-. by left.
  - destruct (permits m); [done|]. injection H as <-. by left.
  - destruct (others m); [done|]. injection H as <-. by left.
Qed.

Lemma run_since m0 es m : retiring m0 = false → 0 <= generation (inner m0) → generation (inner m0) + Z.of_nat (length es) < 2 ^ 64 →
  run m0 es = Some m → since m0 (length es) m.
Proof using Type.
  intros Hr Hg. revert m. induction es as [|e es IH] using rev_ind; intros m Hb H.
  - injection H as <-. split; [cbn; lia|]. unfold retiring in Hr. intros _. by repeat case_match.
  - assert (∃ m1, run m0 es = Some m1 ∧ fire m1 e = Some m) as (m1 & H1 & H2).
    { clear -H. revert m0 H. induction es as [|e' es IH]; intros m0 H; cbn [run app] in *.
      - apply bind_Some in H as (m1 & H1 & [= ->]). by exists m0.
      - apply bind_Some in H as (m1 & -> & H). exact (IH _ H). }
    rewrite length_app in Hb |- *. cbn in Hb |- *. destruct (IH m1) as [Hge Hs]; [lia|done|].
    destruct (fire_sessions m1 e m) as [(Eg & Hp & Er)|[Eg|[Eg Er]]]; [lia|done|..]; (split; [lia|]); intros E; [|lia|].
    + unfold retiring in Er. rewrite Eg in E. specialize (Hs E). destruct (pc m) as [|? []| |], (pc m1) as [|? []| |]; try done; by etrans.
    + unfold retiring in Er. by destruct (pc m) as [|? []| |].
Qed.


(** ** Choosing an account *)

Definition backing_off (clock : Z) (i : Inner) (index : nat) : Prop := ∃ t, account_not_before i !! index = Some t ∧ clock < t.
(** The account looked at [j]-th. *)
Definition turn (i : Inner) (j : nat) : nat := Z.to_nat ((rotate i + Z.of_nat j) mod Z.of_nat (length (accounts i))).

Lemma pick_loop_turns n clock i : length (account_not_before i) = length (accounts i) → (0 < length (accounts i))%nat →
  0 <= rotate i → rotate i + Z.of_nat n < 2 ^ 64 →
  ∃ r j, pick_loop n clock i = Ok (r, j) ∧
    match r with
    | Some index => ∃ k t, (k < n)%nat ∧ index = turn i k ∧ account_not_before i !! index = Some t ∧ t <= clock ∧
                           (∀ k', (k' < k)%nat → backing_off clock i (turn i k')) ∧ rotate j = rotate i + Z.of_nat k + 1
    | None => ∀ k, (k < n)%nat → backing_off clock i (turn i k)
    end.
Proof using Type.
  intros Hl Hlen. revert i Hl Hlen. induction n as [|n IH]; intros i Hl Hlen Hr Hb; cbn [pick_loop].
  { eexists None, _. split; [done|]. lia. }
  unfold rotate_mod. assert (turn i 0 = Z.to_nat (rotate i mod Z.of_nat (length (accounts i)))) as E0.
  { unfold turn. by rewrite Z.add_0_r. }
  rewrite <- E0. assert (turn i 0 < length (accounts i))%nat as Hlt.
  { rewrite E0. pose proof (Z.mod_pos_bound (rotate i) (Z.of_nat (length (accounts i))) ltac:(lia)). lia. }
  change (account_not_before (with_rotate i _)) with (account_not_before i).
  destruct (lookup_lt_is_Some_2 (account_not_before i) (turn i 0)) as [t Ht]; [lia|]. rewrite Ht.
  assert (wrap64 (rotate i + 1) = rotate i + 1) as Hw by (apply Z.mod_small; lia). rewrite Hw. case_cmp.
  - eexists (Some _), _. split; [done|]. exists 0%nat, t. split_and!; try done; try lia. cbn. lia.
  - destruct (IH (with_rotate i (rotate i + 1))) as (r & j & E & Hj); [done|done|cbn; lia|cbn; lia|].
    exists r, j. split; [exact E|].
    assert (∀ k, turn (with_rotate i (rotate i + 1)) k = turn i (S k)) as Ht'.
    { intros k. unfold turn. cbn [rotate with_rotate accounts]. do 2 f_equal. lia. }
    assert (backing_off clock i (turn i 0)) as H0 by (exists t; split; [done|lia]).
    destruct r as [index|].
    + destruct Hj as (k & t' & Hk & -> & Hlook & Hle & Hbefore & Hrot). rewrite Ht' in Hlook |- *. cbn in Hlook. exists (S k), t'. split_and!; try done; try lia.
      * intros [|k'] Hk'; [done|]. specialize (Hbefore k' ltac:(lia)). by rewrite Ht' in Hbefore.
      * rewrite Hrot. cbn. lia.
    + intros [|k] Hk; [done|]. specialize (Hj k ltac:(lia)). by rewrite Ht' in Hj.
Qed.

Lemma turn_onto i index : (index < length (accounts i))%nat → ∃ k, (k < length (accounts i))%nat ∧ turn i k = index.
Proof using Type.
  intros H. set (n := Z.of_nat (length (accounts i))). exists (Z.to_nat ((Z.of_nat index - rotate i) mod n)).
  pose proof (Z.mod_pos_bound (Z.of_nat index - rotate i) n ltac:(lia)). split; [lia|]. unfold turn. fold n. rewrite Z2Nat.id by lia.
  rewrite Zplus_mod_idemp_r. replace (rotate i + (Z.of_nat index - rotate i)) with (Z.of_nat index) by lia.
  rewrite Z.mod_small by lia. lia.
Qed.

Lemma backoff_doubles f : 0 <= f → backoff (f + 1) = 1000 * 2 ^ Z.min (f + 1) 6 ∧ 2000 <= backoff (f + 1) <= 64000.
Proof using Type.
  intros Hf. unfold backoff. rewrite Z.shiftl_mul_pow2 by lia.
  assert (2 ^ 1 <= 2 ^ Z.min (f + 1) 6 <= 2 ^ 6) as H by (split; apply Z.pow_le_mono_r; lia).
  change (2 ^ 1) with 2 in H. change (2 ^ 6) with 64 in H. lia.
Qed.

(** Accounts that fail. A refused handshake puts its account off by one second doubled with
    each consecutive failure, from 2 to 64 seconds, leaves the other accounts alone, and a success
    clears it. Choosing an account goes round robin from where it stopped, passes over exactly the
    accounts still put off, and finds none only when every account is. *)
Theorem account_backoff i index f clock ip :
  account_failures i !! index = Some f → 0 <= f < 2 ^ 64 - 1 → length (account_not_before i) = length (accounts i) →
  (index < length (accounts i))%nat → 0 <= rotate i → rotate i + Z.of_nat (length (accounts i)) < 2 ^ 64 →
  (let i' := refused i index clock in
   ∃ d, d = 1000 * 2 ^ Z.min (f + 1) 6 ∧ 2000 <= d <= 64000 ∧ account_failures i' !! index = Some (f + 1) ∧
     (∀ t, backing_off t i' index ↔ t < clock + d) ∧
     (∀ other, other ≠ index → account_not_before i' !! other = account_not_before i !! other)) ∧
  (let i' := connected i index ip in account_failures i' !! index = Some 0 ∧ ∀ t, backing_off t i' index ↔ t < 0) ∧
  ∃ r i', pick_account clock i = Ok (r, i') ∧
    match r with
    | Some chosen => ∃ k, (k < length (accounts i))%nat ∧ chosen = turn i k ∧ ¬ backing_off clock i chosen ∧
        (∀ k', (k' < k)%nat → backing_off clock i (turn i k')) ∧ rotate i' = rotate i + Z.of_nat k + 1
    | None => ∀ index, (index < length (accounts i))%nat → backing_off clock i index
    end.
Proof using Type.
  intros Hf Hr Hl Hi Hrot Hb. destruct (backoff_doubles f) as [Hd Hrange]; [lia|]. split; [|split].
  - cbv zeta. exists (backoff (f + 1)). unfold refused, backing_off. rewrite Hf. cbn [from_option id with_account account_failures account_not_before].
    assert (wrap64 (f + 1) = f + 1) as -> by (apply Z.mod_small; lia).
    split; [done|]. split; [done|]. rewrite !list_lookup_insert_eq; [|lia|by eapply lookup_lt_Some].
    split; [done|]. split; [naive_solver|]. intros other Hne. by rewrite list_lookup_insert_ne.
  - cbv zeta. unfold connected, backing_off. cbn. rewrite !list_lookup_insert_eq; [|lia|by eapply lookup_lt_Some]. naive_solver.
  - destruct (pick_loop_turns (length (accounts i)) clock i Hl ltac:(lia) Hrot Hb) as (r & j & E & H). exists r, j. split; [exact E|].
    destruct r as [chosen|].
    + destruct H as (k & t & Hk & -> & Ht & Hle & Hbefore & Hr'). exists k. split_and!; try done. intros (t' & Ht' & Hlt). simplify_eq. lia.
    + intros index' Hi'. destruct (turn_onto i index' Hi') as (k & Hk & <-). by apply H.
Qed.

(** ** Filling the pool *)

Definition round (ip protocol : str) : list event := [CountLive; Decide; Connect 0 ip protocol; Release 0; Finish 0].
Fixpoint rounds (n : nat) (ip protocol : str) : list event :=
  match n with O => [CountLive; Decide] | S n => round ip protocol ++ rounds n ip protocol end.

Lemma run_app m es1 es2 : run m (es1 ++ es2) = run m es1 ≫= fun m => run m es2.
Proof using Type. revert m. induction es1 as [|e es IH]; intros m; cbn [run app]; [done|]. destruct (fire m e); [exact (IH _)|done]. Qed.

(** Ready to connect: at the head of the loop with no task, a permit and every account usable. *)
Record idle (m : Manager) : Prop := {
  idle_inv : inv m;
  idle_pc : pc m = Head;
  idle_tasks : tasks m = [];
  idle_permits : (0 < permits m)%nat;
  idle_accounts : (0 < length (accounts (inner m)))%nat;
  idle_ready : Forall (fun t => t <= now m) (account_not_before (inner m));
  idle_now : 0 <= now m
}.

Lemma pick_ready i clock : length (account_not_before i) = length (accounts i) → 0 <= rotate i < 2 ^ 64 → (0 < length (accounts i))%nat →
  Forall (fun t => t <= clock) (account_not_before i) →
  ∃ index, pick_account clock i = Ok (Some index, with_rotate i (wrap64 (rotate i + 1))) ∧ (index < length (accounts i))%nat.
Proof using Type.
  intros Hl Hr Hn Hf. unfold pick_account. destruct (length (accounts i)) as [|n] eqn:El; [lia|]. cbn [pick_loop]. unfold rotate_mod. rewrite El.
  set (index := Z.to_nat (rotate i mod Z.of_nat (S n))). exists index.
  assert (index < S n)%nat as Hi by (unfold index; pose proof (Z.mod_pos_bound (rotate i) (Z.of_nat (S n)) ltac:(lia)); lia).
  split; [|done]. change (account_not_before (with_rotate i _)) with (account_not_before i).
  destruct (lookup_lt_is_Some_2 (account_not_before i) index) as [t Ht]; [lia|]. rewrite Ht.
  rewrite Forall_lookup in Hf. specialize (Hf _ _ Ht). case_cmp; [done|lia].
Qed.

Lemma fire_count m : pc m = Head → fire m CountLive = Some (at_pc m (inner m) (Counted (live (inner m)))).
Proof using Type. intros E. unfold fire. by rewrite E. Qed.

Lemma round_connects m ip protocol : idle m → (live (inner m) < target_pool (inner m))%nat →
  ∃ m', run m (round ip protocol) = Some m' ∧ idle m' ∧ live (inner m') = S (live (inner m)) ∧
    target_pool (inner m') = target_pool (inner m) ∧ generation (inner m') = generation (inner m).
Proof using Type.
  intros [HI Hpc Ht Hp Ha Hready Hnow] Hlt. pose proof HI as [].
  destruct (pick_ready (inner m) (now m)) as (index & Hpick & Hindex); [done..|].
  destruct (permits m) as [|p] eqn:Ep; [lia|].
  assert (connecting (inner m) = 0) as Hc by (by rewrite inv_connecting0, Ht).
  eassert (run m (round ip protocol) = Some _) as Hrun.
  { unfold round. cbn [run]. rewrite fire_count by done. cbn [mbind option_bind].
    change (fire (at_pc m (inner m) (Counted (live (inner m)))) Decide) with (decide_step (at_pc m (inner m) (Counted (live (inner m)))) (live (inner m))).
    unfold decide_step. cbn [inner at_pc now permits]. unfold need. rewrite Hc. cbn [Z.to_nat]. rewrite Nat.add_0_r.
    destruct (target_pool (inner m) - live (inner m))%nat as [|nd] eqn:En; [lia|]. rewrite Hpick, Ep. cbn [tasks at_pc]. rewrite Ht. cbn. reflexivity. }
  eexists. split; [exact Hrun|]. pose proof (manager_run_inv _ _ _ HI Hrun) as HI'. split; [|split_and!; [|done|done]].
  - split; [exact HI'|done|done|cbn; lia|done| |done]. cbn. apply Forall_insert; [done|lia].
  - unfold live. cbn. rewrite length_app. cbn. lia.
Qed.

(** C15: The pool fills. From an idle manager with a permit and usable accounts, when handshakes
    succeed, each round adds one session, and after as many rounds as sessions are missing the pool
    has its target and the manager goes to sleep; the generation does not change. *)
Theorem pool_fills m ip protocol : idle m →
  ∃ m', run m (rounds (target_pool (inner m) - live (inner m)) ip protocol) = Some m' ∧
    live (inner m') = Nat.max (live (inner m)) (target_pool (inner m)) ∧ pc m' = Sleeping ∧
    generation (inner m') = generation (inner m) ∧ inv m'.
Proof using Type.
  remember (target_pool (inner m) - live (inner m))%nat as n eqn:Hn. revert m Hn.
  induction n as [|n IH]; intros m Hn Hm; cbn [rounds].
  - pose proof Hm as []. pose proof idle_inv0 as [].
    eassert (run m [CountLive; Decide] = Some _) as Hrun.
    { cbn [run]. rewrite fire_count by done. cbn [mbind option_bind].
      change (fire (at_pc m (inner m) (Counted (live (inner m)))) Decide) with (decide_step (at_pc m (inner m) (Counted (live (inner m)))) (live (inner m))).
      unfold decide_step, need. cbn [inner at_pc]. rewrite inv_connecting0, idle_tasks0. cbn [length Z.of_nat Z.to_nat]. rewrite Nat.add_0_r.
      destruct (target_pool (inner m) - live (inner m))%nat eqn:E; [reflexivity|lia]. }
    eexists. split; [exact Hrun|]. split; [cbn; lia|]. split; [done|]. split; [done|]. by eapply manager_run_inv.
  - destruct (round_connects m ip protocol Hm) as (m1 & H1 & Hi & Hl & Ht & Hg); [lia|].
    destruct (IH m1) as (m' & H' & Hlive & Hpc & Hgen & Hinv); [lia|done|].
    exists m'. rewrite run_app, H1. cbn [mbind option_bind]. split; [exact H'|]. split_and!; try done; [lia|congruence].
Qed.

(** ** Dialling *)

Lemma pick_open_spec closed i : match pick_open closed i with
  | (Some s, i') => s ∈ open_sessions closed i ∧ sessions i' = sessions i ∧ exits i' = exits i ∧ region i' = region i
  | (None, i') => open_sessions closed i = [] ∧ i' = i end.
Proof using Type.
  unfold pick_open. destruct (open_sessions closed i) as [|s l] eqn:E; [done|]. unfold rotate_mod.
  set (index := Z.to_nat _). assert (index < length (s :: l))%nat as Hi.
  { unfold index. pose proof (Z.mod_pos_bound (rotate i) (Z.of_nat (length (s :: l))) ltac:(simpl; lia)). lia. }
  destruct (lookup_lt_is_Some_2 (s :: l) index Hi) as [x Hx]. rewrite Hx. split; [by eapply list_elem_of_lookup_2|done].
Qed.

Lemma pick_session_spec fuel env deadline m : (∀ m, now m + 200 <= now (env m)) → deadline <= now m + 200 * (Z.of_nat fuel - 1) → (0 < fuel)%nat →
  ∃ r m', pick_loop_session fuel env deadline m = Ok (r, m') ∧
    match r with
    | Some s => s ∈ open_sessions (closed m') (inner m')
    | None => deadline <= now m' ∧ open_sessions (closed m') (inner m') = []
    end.
Proof using Type.
  intros Henv. revert m. induction fuel as [|fuel IH]; intros m Hd Hf; [lia|]. cbn [pick_loop_session].
  pose proof (pick_open_spec (closed m) (inner m)) as Hp. destruct (pick_open (closed m) (inner m)) as [[s|] i].
  - eexists _, _. split; [done|]. destruct Hp as (Hs & Es & _). cbn. unfold open_sessions in *. by rewrite Es.
  - destruct Hp as [Ho ->]. cbn [now set_inner]. case_cmp; [by eexists _, _|].
    destruct fuel as [|fuel]; [lia|]. apply IH; [|lia]. cbn [set_inner]. specialize (Henv (set_inner m (inner m))). cbn [now set_inner] in Henv. lia.
Qed.

End Manager.

(** * Examples *)

Definition toy_accounts : list Account := [mkAccount (Lit "192.0.2.1") (Lit "US") 22 0 [] [] [] []; mkAccount (Lit "192.0.2.2") (Lit "US") 22 0 [] [] [] []].
Definition toy_config : Config := mkConfig (Lit "US") 1 [] [] [].
Definition toy_manager : Manager (L:=toy_lru) := spawned (start_with toy_config toy_accounts 1080) 3 0.
Definition after (es : list event) : Manager (L:=toy_lru) := default toy_manager (run toy_manager es).
Lemma after_run es : (if run toy_manager es then true else false) = true → run toy_manager es = Some (after es).
Proof. unfold after. by destruct (run toy_manager es). Qed.
Definition toy_filled : list event := [Wake; Retire] ++ rounds 1 (Lit "192.0.2.1") (Lit "SSH").

(** The manager counts the sessions, then a handshake completes, then it reads the counter of
    connecting tasks: a second session is opened for a target of one, and stays. *)
Definition toy_race : list event :=
  [Wake; Retire; CountLive; Decide; CountLive; Connect 0 (Lit "192.0.2.1") (Lit "SSH"); Release 0; Finish 0; Decide;
   CountLive; Connect 0 (Lit "192.0.2.2") (Lit "SSH"); Release 0; Finish 0; Decide].
Lemma count_race : ∃ m, run toy_manager toy_race = Some m ∧ target_pool (inner m) = 1%nat ∧ live (inner m) = 2%nat ∧ pc m = Sleeping.
Proof. exists (after toy_race). split; [by apply after_run; vm_compute|]. repeat split; vm_compute; reflexivity. Qed.

Lemma pool_bounded_witness : ∃ m, run toy_manager toy_race = Some m ∧ (live (inner m) <= 9)%nat.
Proof.
  destruct count_race as (m & H & Ht & Hl & _). exists m. split; [exact H|].
  destruct (pool_bounded (L:=toy_lru) toy_config toy_accounts 1080 3 0 toy_race m) as (Hb & _); [vm_compute; lia|reflexivity|exact H|].
  rewrite Ht in Hb. unfold MAX_CONCURRENT_HANDSHAKES in Hb. lia.
Defined.


Lemma account_backoff_witness :
  ∃ r i', pick_account 5 (refused (inner toy_manager) 0 0) = Ok (r, i') ∧ r = Some 1%nat.
Proof.
  destruct (account_backoff (L:=toy_lru) (refused (inner toy_manager) 0 0) 0 1 5 (mkSession 0 [] [])) as (_ & _ & r & i' & H & _);
    [reflexivity|lia|reflexivity|cbn; lia|cbn; lia|cbn; lia|].
  exists r, i'. split; [exact H|]. apply (f_equal (fun x => match x with Ok (r, _) => r | _ => None end)) in H. exact (eq_sym H).
Defined.

Lemma toy_idle : idle (after [Wake; Retire]).
Proof.
  split; [|vm_compute; reflexivity|vm_compute; reflexivity|apply (bool_decide_eq_true_1 _); vm_compute; reflexivity..].
  apply (manager_run_inv toy_manager [Wake; Retire]); [|by apply after_run; vm_compute].
  apply (inv_spawned (start_with toy_config toy_accounts 1080) 3 0 ltac:(vm_compute; lia) toy_config toy_accounts 1080 eq_refl).
  reflexivity.
Qed.
Lemma pool_fills_witness :
  ∃ m m', run toy_manager [Wake; Retire] = Some m ∧ run m (rounds 1 (Lit "192.0.2.1") (Lit "SSH")) = Some m' ∧ live (inner m') = 1%nat.
Proof.
  destruct (pool_fills (after [Wake; Retire]) (Lit "192.0.2.1") (Lit "SSH") toy_idle) as (m' & H & Hl & _).
  exists (after [Wake; Retire]), m'. split; [apply after_run; vm_compute; reflexivity|]. split; [exact H|exact Hl].
Defined.

Definition toy_env (m : Manager (L:=toy_lru)) : Manager := match fire m (Elapse 200) with Some m => m | None => m end.
Definition toy_dial := dial (Channel:=nat) (L:=toy_lru) (fun s _ _ => Ok (s_id s)) toy_env (Lit "Example.org") 443 toy_manager.
Lemma toy_dial_answer r m' : toy_dial = Ok (r, m') → r = Err Timeout.
Proof.
  assert (match toy_dial with Ok (r, _) => r | _ => Err Auth end = Err Timeout) as Hd by (vm_compute; reflexivity).
  intros H. by rewrite H in Hd.
Qed.
