(* ===== verification/SshSession.v ===== *)
(** ssh/session.rs: opening an SSH session for an account. Sockets, base64, JSON and the SSH client
    (makiko) are parameters: what they answer may depend on everything done before. *)
From S2P Require Import Prelude Text SshAccount SshManager Ossh OsshStream.

Record Timeouts := mkTimeouts { connect_timeout : Z; handshake_timeout : Z; auth_timeout : Z }.

(** * The transport under the SSH client *)

(** A TCP stream is the scripts of its two directions. *)
Record Tcp := mkTcp { tcp_out : Sink; tcp_in : list read_answer }.
Inductive Transport :=
| Plain (tcp : Tcp)
| Obfuscated (tcp : Tcp) (writer : Writer) (reader : Reader).

Definition tcp_read (room : nat) (source : list read_answer) : read_answer * list read_answer :=
  match source with
  | [] => (Pending, [])
  | Ready (inr chunk) :: source =>
      (Ready (inr (take room chunk)), match drop room chunk with [] => source | rest => Ready (inr rest) :: source end)
  | answer :: source => (answer, source)
  end.

Definition transport_read (room : nat) (t : Transport) : res Empty_set (read_answer * Transport) :=
  match t with
  | Plain tcp => let '(a, source) := tcp_read room (tcp_in tcp) in Ok (a, Plain (mkTcp (tcp_out tcp) source))
  | Obfuscated tcp w r =>
      '(a, source, r) ← OsshStream.poll_read room (tcp_in tcp) r;
      Ok (a, Obfuscated (mkTcp (tcp_out tcp) source) w r)
  end.

Definition transport_write (buf : list byte) (t : Transport) : res Empty_set (poll (io_error + nat) * Transport) :=
  match t with
  | Plain tcp => let '(a, s) := sink_write (tcp_out tcp) buf in Ok (a, Plain (mkTcp s (tcp_in tcp)))
  | Obfuscated tcp w r =>
      '(a, s, w) ← OsshStream.poll_write buf (tcp_out tcp) w;
      Ok (a, Obfuscated (mkTcp s (tcp_in tcp)) w r)
  end.

(** * Opening a session *)

Inductive json := JStr (s : str) | JList (l : list json).
Definition hex_digit (z : Z) : byte := u8 (if z <? 10 then 48 + z else 87 + z).
(** [format!("{:02x}")] *)
Definition hex2 (b : byte) : str := [hex_digit (b2z b / 16); hex_digit (b2z b mod 16)].

(** What is done to the outside, with the time each may take. *)
Inductive action :=
| TcpConnect (ip : str) (port : Z) (limit : Z)
| SetNodelay
| OpenClient (obfuscation : option (str * Z))  (* keyword and length of the padding *)
| AuthPassword (user payload : str) (limit : Z)
| SendRequest (request_type payload : str)
| AwaitReply (limit : Z).

(** What comes of it; [Rejected] is a login or a request the server turns down. *)
Inductive answer := Succeeds | Rejected | Fails (err : str) | TimesOut.

Record Opened := mkOpened { o_ip : str; o_protocol : str; o_trace : list action }.

Section Connect.
Context (base64 : str → str + list byte) (to_string : list (str * json) → str).
Context (world : list action → action → answer).

Abbreviation M A := (SE (list action) Error A).

Definition act (a : action) : M answer := fun trace => (Ok (world trace a), trace ++ [a]).

Definition obfuscated (a : Account) : bool :=
  negb (bool_decide (a_ssh_obfuscated_key a = [])) && negb (a_ossh_port a =? 0).
Definition session_protocol (a : Account) : str := if obfuscated a then Lit "OSSH" else Lit "SSH".
Definition session_port (a : Account) : Z := if obfuscated a then a_ossh_port a else a_ssh_port a.

Definition session_id (random : list byte) : str := concat (hex2 <$> random).
Definition auth_payload (a : Account) (random : list byte) (sponsor_id : str) : str :=
  to_string [(Lit "SessionId", JStr (session_id random)); (Lit "SshPassword", JStr (a_ssh_password a));
             (Lit "ClientCapabilities", JList [JStr (Lit "server-requests")]); (Lit "SponsorId", JStr sponsor_id)].
Definition handshake_payload (a : Account) (sponsor_id propagation_channel_id client_platform : str) : str :=
  to_string [(Lit "propagation_channel_id", JStr propagation_channel_id); (Lit "sponsor_id", JStr sponsor_id);
             (Lit "client_version", JStr (Lit "0")); (Lit "client_platform", JStr client_platform);
             (Lit "relay_protocol", JStr (session_protocol a))].

(** The event task's verdict on the server's key. *)
Definition accepts (expected pubkey : list byte) : bool := bool_decide (pubkey = expected).

(** [Session::connect], with the sixteen random bytes of the session id. *)
Definition connect (a : Account) (t : Timeouts) (sponsor_id propagation_channel_id client_platform : str)
    (random : list byte) : M Opened :=
  match base64 (a_ssh_host_key a) with
  | inl err => fail_st (Core err)
  | inr expected =>
      tcp ← act (TcpConnect (a_ip a) (session_port a) (connect_timeout t));
      match tcp with
      | TimesOut => fail_st Timeout
      | Fails err => fail_st (Socket err)
      | _ =>
          nodelay ← act SetNodelay;
          match nodelay with
          | Fails err => fail_st (Socket err)
          | _ =>
              opened ← act (OpenClient (if obfuscated a then Some (a_ssh_obfuscated_key a, 64) else None));
              match opened with
              | Fails err => fail_st (Core err)
              | _ =>
                  auth ← act (AuthPassword (a_ssh_username a) (auth_payload a random sponsor_id) (handshake_timeout t + auth_timeout t));
                  match auth with
                  | TimesOut => fail_st Timeout
                  | Fails err => fail_st (Core err)
                  | Rejected => fail_st Auth
                  | Succeeds =>
                      sent ← act (SendRequest (Lit "psiphon-handshake") (handshake_payload a sponsor_id propagation_channel_id client_platform));
                      match sent with
                      | Fails err => fail_st (Core err)
                      | _ =>
                          reply ← act (AwaitReply (handshake_timeout t));
                          match reply with
                          | TimesOut => fail_st Timeout
                          | Fails _ => fail_st (Core (Lit "handshake aborted"))
                          | Rejected => fail_st (Core (Lit "handshake rejected"))
                          | Succeeds => trace ← get_st; mret (mkOpened (a_ip a) (session_protocol a) trace)
                          end
                      end
                  end
              end
          end
      end
  end.

(** [Session::dial]: a tunnel through the client, from a made-up local address. *)
Definition session_dial {Channel} (connect_tunnel : str * Z → str * Z → str + Channel) (host : str) (port : Z) : res Error Channel :=
  match connect_tunnel (host, port) (Lit "127.0.0.1", 0) with
  | inr channel => Ok channel
  | inl err => Err (Core err)
  end.

(** * Properties *)

(** The steps of a session in order, and the error each can end in. *)
Definition plan (a : Account) (t : Timeouts) (sponsor_id propagation_channel_id client_platform : str) (random : list byte)
    : list (action * (answer → option Error)) :=
  let socket r := match r with Fails e => Some (Socket e) | _ => None end in
  let core r := match r with Fails e => Some (Core e) | _ => None end in
  [(TcpConnect (a_ip a) (session_port a) (connect_timeout t), fun r => match r with TimesOut => Some Timeout | _ => socket r end);
   (SetNodelay, socket);
   (OpenClient (if obfuscated a then Some (a_ssh_obfuscated_key a, 64) else None), core);
   (AuthPassword (a_ssh_username a) (auth_payload a random sponsor_id) (handshake_timeout t + auth_timeout t),
    fun r => match r with TimesOut => Some Timeout | Rejected => Some Auth | _ => core r end);
   (SendRequest (Lit "psiphon-handshake") (handshake_payload a sponsor_id propagation_channel_id client_platform), core);
   (AwaitReply (handshake_timeout t), fun r => match r with Succeeds => None | TimesOut => Some Timeout
      | Rejected => Some (Core (Lit "handshake rejected")) | Fails _ => Some (Core (Lit "handshake aborted")) end)].

(** Follows a plan until a step fails. *)
Fixpoint follow (trace : list action) (p : list (action * (answer → option Error))) : option Error * list action :=
  match p with
  | [] => (None, trace)
  | (a, failure) :: p =>
      match failure (world trace a) with
      | Some e => (Some e, trace ++ [a])
      | None => follow (trace ++ [a]) p
      end
  end.

Lemma follow_prefix trace p : ∃ done rest, fst <$> p = done ++ rest ∧ (follow trace p).2 = trace ++ done ∧
  ((follow trace p).1 = None → rest = []).
Proof using Type.
  revert trace. induction p as [|[a f] p IH]; intros trace; cbn [follow]; [exists [], []; by rewrite (app_nil_r trace)|].
  destruct (f (world trace a)) as [e|]; [exists [a], (fst <$> p); done|].
  destruct (IH (trace ++ [a])) as (done & rest & E & H & Hn). exists (a :: done), rest.
  rewrite fmap_cons, E, H, <- app_assoc. done.
Qed.

Lemma connect_follows a t sponsor channel platform random trace expected : base64 (a_ssh_host_key a) = inr expected →
  connect a t sponsor channel platform random trace =
    match follow trace (plan a t sponsor channel platform random) with
    | (Some e, trace) => (Err e, trace)
    | (None, trace) => (Ok (mkOpened (a_ip a) (session_protocol a) trace), trace)
    end.
Proof using Type.
  intros E. unfold connect. rewrite E. cbn [plan follow]. unfold act, fail_st, get_st.
  unfold mbind, se_bind, mret, se_ret. repeat (match goal with |- context [world ?tr ?x] => destruct (world tr x) end; try reflexivity).
Qed.

(** Opening a session. Nothing is done when the account's host key is not base64. Otherwise
    the steps are taken in the order of the plan and only as far as the first that fails; that
    step's error is returned, and a session is returned exactly when every step succeeded, with the
    account's address and the protocol it used. A session is obfuscated, and goes to the OSSH port,
    exactly when the account has both a key and a port for that; and the server's key is accepted
    only when it is the account's. *)
Theorem session_connect a t sponsor channel platform random :
  (∀ err, base64 (a_ssh_host_key a) = inl err → connect a t sponsor channel platform random [] = (Err (Core err), [])) ∧
  (∀ expected, base64 (a_ssh_host_key a) = inr expected →
     ∃ result trace done rest, connect a t sponsor channel platform random [] = (result, trace) ∧
       fst <$> plan a t sponsor channel platform random = done ++ rest ∧ trace = done ∧
       match result with
       | Ok s => rest = [] ∧ s = mkOpened (a_ip a) (session_protocol a) trace
       | Err e => (follow [] (plan a t sponsor channel platform random)).1 = Some e
       | _ => False
       end) ∧
  (obfuscated a = true ↔ a_ssh_obfuscated_key a ≠ [] ∧ a_ossh_port a ≠ 0) ∧
  (∀ expected pubkey, accepts expected pubkey = true ↔ pubkey = expected).
Proof using Type.
  split_and!.
  - intros err E. unfold connect. by rewrite E.
  - intros expected E. rewrite (connect_follows _ _ _ _ _ _ _ _ E).
    destruct (follow_prefix [] (plan a t sponsor channel platform random)) as (done & rest & Hp & Ht & Hn).
    destruct (follow [] _) as [[e|] trace]; cbn [fst snd app] in *; subst trace; eexists _, _, done, rest;
      (split; [reflexivity|]); (split; [exact Hp|]); (split; [reflexivity|]); [reflexivity|]. by split; [apply Hn|].
  - unfold obfuscated. rewrite andb_true_iff, !negb_true_iff, bool_decide_eq_false, Z.eqb_neq. done.
  - intros expected pubkey. apply bool_decide_eq_true.
Qed.
End Connect.

(** The hexadecimal session id names its bytes. *)
Lemma hex2_inj b c : hex2 b = hex2 c → b = c.
Proof.
  assert (∀ x y : Z, 0 <= x < 16 → 0 <= y < 16 → hex_digit x = hex_digit y → x = y) as Hd.
  { intros x y Hx Hy E. apply (f_equal b2z) in E. unfold hex_digit in E. rewrite !b2z_u8 in E.
    destruct (x <? 10) eqn:E1, (y <? 10) eqn:E2; rewrite !Z.mod_small in E by lia; lia. }
  pose proof (b2z_range b). pose proof (b2z_range c). unfold hex2. intros [= H1 H2]. apply (inj b2z).
  apply Hd in H1; [|split; [apply Z.div_pos; lia|apply Z.div_lt_upper_bound; lia]..].
  apply Hd in H2; [|apply Z.mod_pos_bound; lia..].
  rewrite (Z.div_mod (b2z b) 16), (Z.div_mod (b2z c) 16) by lia. congruence.
Qed.
