(* ===== verification/Provider.v ===== *)
(** proxy/provider.rs and the constants of config.rs: the SSH regions are started, each becomes a
    region of the routing tables and a member of the default pool, and a refresh task per region
    rotates its sessions. *)
From S2P Require Import Prelude Text Sorting Exit SshAccount SshManager Pool Routing.

(** [impl Tunnel for SshTunnel] *)
#[export] Instance ssh_tunnel {L : LruLib} : Pool.Tunnel Manager := {|
  Pool.target_pool m := SshManager.target_pool (inner m);
  Pool.active_tunnels m := SshManager.active_tunnels (closed m) (inner m);
  Pool.is_ready m := SshManager.is_ready (closed m) (inner m);
  Pool.generation m := SshManager.generation (inner m);
  Pool.proxy_url m := Some (SshManager.proxy_url (inner m))
|}.

#[export] Instance ssh_tunnel_laws {L : LruLib} : TunnelLaws Manager.
Proof. split; intros m H; [by apply Nat.ltb_lt in H|by eexists]. Qed.

(** [ProviderConfig]; the intervals are milliseconds. *)
Record ProviderConfig := mkProviderConfig {
  state_refresh_interval : Z; tunnel_refresh_interval : Z; tunnel_refresh_count : Z; pc_client_platform : str
}.
Definition provider_config_default : ProviderConfig := mkProviderConfig 2000 600000 1 [].

(** config.rs *)
Definition DEFAULT_PORT : Z := 8080.
Definition TUNNEL_REFRESH_INTERVAL : Z := 600000.
Definition STATE_REFRESH_INTERVAL : Z := 2000.
Definition TUNNEL_REFRESH_COUNT : Z := 1.
Definition provider_config : ProviderConfig := mkProviderConfig STATE_REFRESH_INTERVAL TUNNEL_REFRESH_INTERVAL TUNNEL_REFRESH_COUNT [].

Section Provider.
Context {T F : Type} {TT : Pool.Tunnel T}.

Abbreviation Store := (gmap nat (ProxyPool (T:=T))).
Abbreviation M A := (SE Store Empty_set A).

(** [trait ForwardFactory] *)
Record ForwardFactory := mkFactory {
  region_forward : str → nat → option F;
  default_forward : nat → option F;
  protocol_forward : Pool.Protocol → nat → option F
}.

(** [refreshing]: the refresh tasks that were spawned. *)
Record Provider := mkProvider {
  handler : Proxy (F:=F); primaries : nat; factory : ForwardFactory; config : ProviderConfig; refreshing : list (str * T)
}.

Definition Provider_new (factory : ForwardFactory) (config : ProviderConfig) : M Provider :=
  primaries ← Pool.new [];
  mret (mkProvider (Proxy_new primaries (default_forward factory primaries)) primaries factory config []).

Definition ssh_proxy (region : str) (tunnel : T) : PoolProxy := mkProxy (Lit "ssh://" ++ region) tunnel 0 Pool.Ssh.

Definition add (p : Provider) (region : str) (tunnel : T) : M Provider :=
  let proxy := ssh_proxy region tunnel in
  pool ← Pool.new [proxy];
  let forward := region_forward (factory p) region pool in
  entry ← Region_new region region;
  entry ← Region_add entry Pool.Ssh pool forward;
  handler ← add_region (handler p) entry;
  push (primaries p) proxy;;
  mret (mkProvider handler (primaries p) (factory p) (config p) (refreshing p ++ [(region, tunnel)])).

(** [start_region]: the configuration a region's tunnel is started with. *)
Definition region_config (region : str) (target_pool : nat) (client_platform : str) : Config :=
  mkConfig region (wrap32 (Z.of_nat target_pool))
    (if decide (client_platform = []) then SshManager.client_platform config_default else client_platform)
    (sponsor_id config_default) (propagation_channel_id config_default).

(** The tunnels that could be started; [SshTunnel::start] binds a port and may fail. *)
Definition start_all (start_tunnel : Config → option T) (client_platform : str) (by_region : list (str * list Account)) : list (str * T) :=
  omap (fun e => (fun t => (e.1, t)) <$> start_tunnel (region_config e.1 (length e.2) client_platform)) by_region.

Fixpoint add_all (p : Provider) (started : list (str * T)) : M Provider :=
  match started with
  | [] => mret p
  | (region, tunnel) :: started => p ← add p region tunnel; add_all p started
  end.

Definition start (start_tunnel : Config → option T) (accounts : list Account) (p : Provider) : M (nat * Provider) :=
  let by_region := group_by_region accounts in
  match by_region with
  | [] => mret (0%nat, p)
  | _ =>
      let started := start_all start_tunnel (pc_client_platform (config p)) by_region in
      p ← add_all p started;
      mret (length started, p)
  end.

(** One tick of [spawn_refresh]: the time to the next rotation, and how many sessions to retire. *)
Definition refresh_tick (c : ProviderConfig) (t : T) (until_rotation : Z) : Z * option Z :=
  if state_refresh_interval c <? until_rotation then (until_rotation - state_refresh_interval c, None)
  else if (Pool.active_tunnels t <? Pool.target_pool t)%nat then (tunnel_refresh_interval c, None)
  else (tunnel_refresh_interval c, Some (tunnel_refresh_count c)).
(** The first delay is random, below [refresh_seconds] seconds. *)
Definition refresh_seconds (c : ProviderConfig) : Z := Z.max 1 (tunnel_refresh_interval c / 1000).
Fixpoint refresh_ticks (n : nat) (c : ProviderConfig) (t : T) (until_rotation : Z) : Z * list (option Z) :=
  match n with
  | O => (until_rotation, [])
  | S n => let '(u, r) := refresh_tick c t until_rotation in let '(u, rs) := refresh_ticks n c t u in (u, r :: rs)
  end.

(** * Properties *)

(** Nothing that was there is lost. *)
Definition extends (s s' : Store) : Prop :=
  ∀ id p, s !! id = Some p → ∃ p', s' !! id = Some p' ∧ (∀ x, x ∈ proxies p → x ∈ proxies p') ∧ (∀ c, c ∈ children p → c ∈ children p').
#[export] Instance extends_preorder : PreOrder extends.
Proof using Type.
  split; [intros s id p H; eauto|]. intros s1 s2 s3 H1 H2 id p Hp. destruct (H1 _ _ Hp) as (p' & Hp' & A1 & B1).
  destruct (H2 _ _ Hp') as (p'' & Hp'' & A2 & B2). eauto 10.
Qed.

Lemma grows_extends s s' : grows s s' → extends s s'.
Proof using Type. intros H id p Hp. destruct (H _ _ Hp) as (p' & ? & E & ?). exists p'. rewrite E. eauto. Qed.
Lemma extends_child s s' p c : extends s s' → child_of s p c → child_of s' p c.
Proof using Type. intros H (q & Hq & Hc). destruct (H _ _ Hq) as (q' & ? & _ & ?). exists q'. eauto. Qed.
Lemma extends_visible s s' id x : extends s s' → visible s id x → visible s' id x.
Proof using Type.
  intros H (q & pool & Hq & Hp & Hx). destruct (H _ _ Hp) as (p' & ? & ? & _). exists q, p'. split; [|eauto].
  clear -Hq H. induction Hq; [done|]. eapply rtc_l; [by eapply extends_child|done].
Qed.
Lemma extends_region rank (s s' : Store) (r : Region (F:=F)) : extends s s' → wf_region rank s r → wf_region rank s' r.
Proof using Type.
  intros H [[[m Hm] Hr] H2 H3]. split; [|done|].
  - destruct (H _ _ Hm) as (m' & ? & _). eauto.
  - intros v Hv. destruct (H3 v Hv) as ([p Hp] & ? & ?). destruct (H _ _ Hp) as (p' & ? & _). split; [eauto|]. split; [done|]. by eapply extends_child.
Qed.

(** A fresh pool may have any rank. *)
Definition rank_set (rank : nat → nat) (i n : nat) (j : nat) : nat := if decide (j = i) then n else rank j.

Lemma rank_region rank rank' (s : Store) (r : Region (F:=F)) : (∀ i, is_Some (s !! i) → rank' i = rank i) → wf_region rank s r → wf_region rank' s r.
Proof using Type.
  intros H [[Hm Hr] H2 H3]. split; [by rewrite H|done|]. intros v Hv. destruct (H3 v Hv) as (? & ? & ?). by rewrite H.
Qed.
Lemma rank_store rank rank' (s : Store) : (∀ i, is_Some (s !! i) → rank' i = rank i) → wf_store rank s → wf_store rank' s.
Proof using Type. intros H [W1 W2 W3 W4]. split; [done..|]. intros id p c Hp Hc. rewrite !H by eauto. eauto. Qed.

Lemma new_pool rank (s : Store) x ps n : wf_proxy (F:=F) rank s x → NoDup (pp_key <$> ps) →
  ∃ i s', Pool.new ps s = (Ok i, s') ∧ s !! i = None ∧ s' !! i = Some (mkPool ps [] 0) ∧ extends s s' ∧
    wf_proxy (rank_set rank i n) s' x ∧ (∀ j, is_Some (s !! j) → rank_set rank i n j = rank j) ∧ (∀ j, j ≠ i → s' !! j = s !! j).
Proof using Type.
  intros [W Wr Wn] Hnd. unfold Pool.new. set (i := fresh (dom s)). exists i, (<[i := mkPool ps [] 0]> s).
  assert (s !! i = None) as Hi by (apply not_elem_of_dom, is_fresh).
  assert (∀ j, is_Some (s !! j) → rank_set rank i n j = rank j) as Hrank.
  { intros j Hj. unfold rank_set. rewrite decide_False; [done|]. intros ->. rewrite Hi in Hj. by destruct Hj. }
  assert (extends s (<[i := mkPool ps [] 0]> s)) as He.
  { intros j p Hp. exists p. rewrite lookup_insert_ne by congruence. done. }
  split; [done|]. split; [done|]. split; [apply lookup_insert_eq|]. split; [done|]. split; [|split; [done|by intros j Hj; apply lookup_insert_ne]].
  destruct (rank_store _ _ _ Hrank W) as [W1 W2 W3 W4]. split; [split| |done].
  - intros j q [[<- <-]|[? Hq]]%lookup_insert_Some; eauto.
  - intros j q [[<- <-]|[? Hq]]%lookup_insert_Some; [constructor|eauto].
  - intros j q c [[<- <-]|[? Hq]]%lookup_insert_Some Hin; [by apply elem_of_nil in Hin|].
    rewrite lookup_insert_is_Some'. right. eauto.
  - intros j q c [[<- <-]|[? Hq]]%lookup_insert_Some Hin; [by apply elem_of_nil in Hin|eauto].
  - intros r Hr. apply (extends_region _ s); [done|]. apply (rank_region rank); [done|by apply Wr].
Qed.

(** The default route is the default pool, which exists. *)
Record provider_ok (rank : nat → nat) (s : Store) (p : Provider) : Prop := {
  po_proxy : wf_proxy rank s (handler p);
  po_default : default_pool (handler p) = primaries p;
  po_primaries : is_Some (s !! primaries p)
}.

(** Users of a region's name, in any capitalisation, find a region with the protocol, and reach [x]
    through its merged pool. *)
Definition offered (protocol : Pool.Protocol) (s : Store) (p : Provider) (name : str) (x : PoolProxy) : Prop :=
  ∀ u, u ≠ [] → to_ascii_uppercase u = to_ascii_uppercase name →
  ∃ e, region (handler p) u = Some e ∧ protocol ∈ Region_protocols e ∧ visible s (merged e) x.

Lemma leaf_visible (s : Store) id p x : s !! id = Some p → x ∈ proxies p → visible s id x.
Proof using Type. intros H Hx. exists id, p. by split. Qed.

Lemma visible_child (s : Store) id c x : child_of s id c → visible s c x → visible s id x.
Proof using Type. intros H (q & pool & Hq & Hp & Hx). exists q, pool. split; [by eapply rtc_l|done]. Qed.

(** Registering the new region leaves the earlier ones in place. *)
Lemma offered_add protocol rank' (s s' : Store) p (h : Proxy (F:=F)) name x : offered protocol s p name x → wf_proxy rank' s' h → extends s s' →
  (∀ r0, r0 ∈ regions (handler p) → ∃ r1, r1 ∈ regions h ∧ username r1 = username r0 ∧ merged r1 = merged r0 ∧
       ∀ q, q ∈ Region_protocols r0 → q ∈ Region_protocols r1) →
  ∀ u, u ≠ [] → to_ascii_uppercase u = to_ascii_uppercase name →
  ∃ e, region h u = Some e ∧ protocol ∈ Region_protocols e ∧ visible s' (merged e) x.
Proof using Type.
  intros H Wx He K u Hu Hn. destruct (H u Hu Hn) as (e & Hr & Hp & Hv).
  unfold region in Hr. rewrite decide_False in Hr by done.
  assert (e ∈ filter (fun r => named u r) (regions (handler p))) as Hin by (destruct (filter _ _); [done|injection Hr as ->; by left]).
  apply list_elem_of_filter in Hin as [Hnm Hin]. apply Is_true_true in Hnm. destruct (K e Hin) as (r1 & Hin1 & Eu & Em & Hq).
  exists r1. split; [|split; [by apply Hq|rewrite Em; by eapply extends_visible]].
  apply region_lookup; [apply Wx|done|done|]. unfold named in *. by rewrite Eu.
Qed.

Lemma push_ok rank (s : Store) (h : Proxy (F:=F)) id q x : wf_proxy rank s h → s !! id = Some q →
  ∃ s' q', push id x s = (Ok (), s') ∧ wf_proxy rank s' h ∧ extends s s' ∧ (∀ j, j ≠ id → s' !! j = s !! j) ∧
    s' !! id = Some q' ∧ proxies q' = if decide (pp_key x ∈ pp_key <$> proxies q) then proxies q else proxies q ++ [x].
Proof using Type.
  intros [W Wr Wn] Hq. pose proof (wf_keys _ _ W _ _ Hq) as Hnd. pose proof (wf_children _ _ W _ _ Hq) as Hch.
  set (q' := if decide (pp_key x ∈ pp_key <$> proxies q) then q else mkPool (proxies q ++ [x]) (children q) (rotation q)).
  assert (push id x s = (Ok (), <[id := q']> s)) as E.
  { unfold push, mbind, se_bind. rewrite (get_pool_ok _ _ _ Hq). unfold q'. case_decide; [|done].
    unfold mret, se_ret. by rewrite insert_id. }
  assert (children q' = children q ∧ NoDup (pp_key <$> proxies q') ∧ (∀ y, y ∈ proxies q → y ∈ proxies q') ∧
          proxies q' = if decide (pp_key x ∈ pp_key <$> proxies q) then proxies q else proxies q ++ [x]) as (C & N & I & Q).
  { unfold q'. case_decide as Hin; cbn [children proxies]; [done|]. split; [done|]. split; [|split; [|done]].
    - rewrite fmap_app. apply NoDup_app. split; [done|]. split; [|apply NoDup_singleton].
      intros k Hk ->%list_elem_of_singleton. done.
    - intros y Hy. apply elem_of_app. by left. }
  assert (extends s (<[id := q']> s)) as X.
  { intros j pl Hpl. destruct (decide (j = id)) as [->|Hne]; [|rewrite lookup_insert_ne by done; eauto].
    rewrite lookup_insert_eq. exists q'. simplify_eq. split; [done|]. split; [done|]. by rewrite C. }
  exists (<[id := q']> s), q'. split; [done|]. split; [|split; [done|split; [intros j Hj; by apply lookup_insert_ne|split; [apply lookup_insert_eq|done]]]].
  split; [|intros r Hr; eapply extends_region; [exact X|by apply Wr]|done].
  apply (wf_update rank s id q); rewrite ?C; auto.
Qed.

(** A new region over an existing leaf pool, registered. *)
Lemma register_ok rank (s : Store) h0 name protocol i forward : wf_proxy rank s h0 → is_Some (s !! i) → rank i = 0%nat →
  ∃ m s1 entry s2 h s3 e rank', Region_new name name s = (Ok m, s1) ∧ Region_add m protocol i forward s1 = (Ok entry, s2) ∧
    add_region h0 entry s2 = (Ok h, s3) ∧ wf_proxy (F:=F) rank' s3 h ∧ extends s s3 ∧
    (∀ j, is_Some (s !! j) → rank' j = rank j) ∧
    (∀ id q, s !! id = Some q → ∃ q', s3 !! id = Some q' ∧ proxies q' = proxies q) ∧
    e ∈ regions h ∧ named name e = true ∧ protocol ∈ Region_protocols e ∧ child_of s3 (merged e) i ∧
    (∀ r0, r0 ∈ regions h0 → ∃ r1, r1 ∈ regions h ∧ username r1 = username r0 ∧ merged r1 = merged r0 ∧
       ∀ q, q ∈ Region_protocols r0 → q ∈ Region_protocols r1) ∧
    default_pool h = default_pool h0 ∧ protocol_pools h = protocol_pools h0 ∧ protocol_forwards h = protocol_forwards h0.
Proof using Type.
  intros Wx [qi Hi] Hri.
  destruct (new_pool rank s h0 [] 1 Wx) as (m & s1 & E1 & N1 & P1 & X1 & W1 & R1 & O1); [constructor|].
  set (rank1 := rank_set rank m 1) in *.
  assert (s1 !! i = Some qi) as Pi by (rewrite O1; [done|]; intros ->; congruence).
  assert (wf_region (F:=F) rank1 s1 (mkRegion name name [] m)) as Wr.
  { split; cbn [merged variants]; [split; [eauto|unfold rank1, rank_set; by rewrite decide_True]|constructor|].
    intros v Hv. by apply elem_of_nil in Hv. }
  destruct (region_add_spec rank1 s1 (mkRegion name name [] m) protocol i forward (wp_store _ _ _ W1) Wr)
    as (r & s2 & E2 & W2 & Wr2 & G2 & _ & U2 & _ & _ & Pr2); [eauto|unfold rank1; by rewrite R1 by eauto|].
  assert (wf_proxy rank1 s2 h0) as Wx2.
  { destruct W1 as [_ Wrs Wn]. split; [done| |done]. intros r0 Hr0. eapply grows_region; [exact G2|by apply Wrs]. }
  assert (mkVariant protocol i forward ∈ variants r) as Hv.
  { unfold Region_add in E2. apply se_bind_ok in E2 as (? & ? & _ & [= <- _]). by left. }
  destruct (add_region_full rank1 s2 h0 r Wx2 Wr2) as (h & s3 & e & E3 & Wx3 & G3 & Hin & Hn & Pe & Ce & K & D).
  exists (mkRegion name name [] m), s1, r, s2, h, s3, e, rank1.
  split; [unfold Region_new, mbind, se_bind; by rewrite E1|]. split; [done|]. split; [done|]. split; [done|]. split.
  { etrans; [exact X1|]. etrans; apply grows_extends; eassumption. }
  split; [exact R1|]. split.
  { intros id q Hq. assert (s1 !! id = Some q) as Hq1 by (rewrite O1; [done|]; intros ->; congruence).
    destruct (G2 _ _ Hq1) as (q2 & Hq2 & <- & _). destruct (G3 _ _ Hq2) as (q3 & Hq3 & <- & _). eauto. }
  split; [done|]. split; [by rewrite U2 in Hn|]. split; [apply Pe, Pr2; by left|]. split; [by apply (Ce _ Hv)|]. done.
Qed.

Lemma add_ok rank s p name tunnel : provider_ok rank s p →
  ∃ rank' s' p', add p name tunnel s = (Ok p', s') ∧ provider_ok rank' s' p' ∧ extends s s' ∧
    offered Pool.Ssh s' p' name (ssh_proxy name tunnel) ∧
    (∀ protocol other x, offered protocol s p other x → offered protocol s' p' other x) ∧
    primaries p' = primaries p ∧ factory p' = factory p ∧ config p' = config p ∧ refreshing p' = refreshing p ++ [(name, tunnel)] ∧
    (∀ q, s !! primaries p = Some q → ∃ q', s' !! primaries p = Some q' ∧
       proxies q' = if decide (Lit "ssh://" ++ name ∈ pp_key <$> proxies q) then proxies q else proxies q ++ [ssh_proxy name tunnel]).
Proof using Type.
  intros [Wx Hd [q0 Hq0]]. unfold add.
  destruct (new_pool rank s (handler p) [ssh_proxy name tunnel] 0 Wx) as (i & s1 & E1 & N1 & P1 & X1 & W1 & R1 & O1); [apply NoDup_singleton|].
  destruct (register_ok (rank_set rank i 0) s1 (handler p) name Pool.Ssh i (region_forward (factory p) name i) W1)
    as (m & s2 & entry & s3 & h & s4 & e & rank2 & E2 & E3 & E4 & Wx4 & X2 & R2 & V2 & Hin & Hn & Pe & Ce & K & Dp & _);
    [eauto|unfold rank_set; by rewrite decide_True|].
  assert (extends s s4) as X4 by (by etrans).
  assert (s1 !! primaries p = Some q0) as Hq1 by (rewrite O1; [done|]; intros <-; congruence).
  destruct (V2 _ _ Hq1) as (q4 & Hq4 & Hp4).
  destruct (push_ok rank2 s4 h (primaries p) q4 (ssh_proxy name tunnel) Wx4 Hq4) as (s5 & q5 & E5 & Wx5 & X5 & _ & Hq5 & Q5).
  exists rank2, s5. eexists. split.
  { unfold mbind, se_bind. rewrite E1, E2, E3, E4, E5. reflexivity. }
  cbn [handler primaries factory config refreshing]. split; [split; [done|cbn; congruence|cbn; eauto]|].
  split; [by etrans|]. split; [|split; [|do 4 (split; [done|])]].
  - intros u Hu Hun. exists e. split; [apply region_lookup; [apply Wx4|done|done|]|split; [|]].
    + apply named_upper in Hn. apply named_upper. by rewrite Hn.
    + done.
    + eapply extends_visible; [exact X5|]. eapply visible_child; [exact Ce|].
      eapply extends_visible; [exact X2|]. apply (leaf_visible s1 i _ _ P1). by left.
  - intros protocol other x Ho u Hu Hun. cbn [handler]. eapply (offered_add protocol rank2 s); [exact Ho|exact Wx5|by etrans|exact K|done|done].
  - intros q Hq. exists q5. simplify_eq. rewrite <- Hp4. done.
Qed.

Definition key_of (e : str * T) : str := Lit "ssh://" ++ e.1.

Lemma add_all_ok rank s p started : provider_ok rank s p →
  ∃ rank' s' p', add_all p started s = (Ok p', s') ∧ provider_ok rank' s' p' ∧ extends s s' ∧
    (∀ e, e ∈ started → offered Pool.Ssh s' p' e.1 (ssh_proxy e.1 e.2)) ∧
    (∀ protocol other x, offered protocol s p other x → offered protocol s' p' other x) ∧
    primaries p' = primaries p ∧ factory p' = factory p ∧ config p' = config p ∧ refreshing p' = refreshing p ++ started ∧
    (∀ q, s !! primaries p = Some q → NoDup ((pp_key <$> proxies q) ++ (key_of <$> started)) →
       ∃ q', s' !! primaries p = Some q' ∧ proxies q' = proxies q ++ ((fun e => ssh_proxy e.1 e.2) <$> started)).
Proof using Type.
  revert rank s p. induction started as [|[name tunnel] started IH]; intros rank s p Hp; cbn [add_all].
  - exists rank, s, p. rewrite app_nil_r. split; [done|]. split; [done|]. split; [done|].
    split; [intros e He; by apply elem_of_nil in He|]. do 5 (split; [done|]). intros q Hq _. exists q. by rewrite app_nil_r.
  - destruct (add_ok rank s p name tunnel Hp) as (r1 & s1 & p1 & E1 & H1 & X1 & O1 & K1 & P1 & F1 & C1 & R1 & Q1).
    destruct (IH r1 s1 p1 H1) as (r2 & s2 & p2 & E2 & H2 & X2 & O2 & K2 & P2 & F2 & C2 & R2 & Q2).
    exists r2, s2, p2. unfold mbind, se_bind. rewrite E1, E2. split; [done|]. split; [done|]. split; [by etrans|]. split.
    { intros e [->|He]%elem_of_cons; [by apply K2|by apply O2]. }
    split; [intros protocol other x Ho; by apply K2, K1|]. split; [congruence|]. split; [congruence|]. split; [congruence|]. split.
    { rewrite R2, R1, <- app_assoc. done. }
    intros q Hq Hnd. destruct (Q1 q Hq) as (q1 & Hq1 & Ep). change (key_of <$> (name, tunnel) :: started) with ((Lit "ssh://" ++ name) :: (key_of <$> started)) in Hnd.
    rewrite decide_False in Ep; [|apply NoDup_app in Hnd as (_ & Hnd & _); intros Hin; by destruct (Hnd _ Hin); left].
    rewrite P1 in Q2. destruct (Q2 q1 Hq1) as (q2 & Hq2 & Eq2).
    { rewrite Ep, fmap_app, <- app_assoc. exact Hnd. }
    exists q2. split; [done|]. rewrite Eq2, Ep, <- app_assoc. done.
Qed.

(** The started tunnels, in the regions' order, with unique names. *)
Lemma start_all_sublist start_tunnel platform by_region :
  fst <$> start_all start_tunnel platform by_region `sublist_of` fst <$> by_region.
Proof using Type.
  induction by_region as [|e l IH]; [done|]. unfold start_all. cbn [omap list_omap]. destruct (start_tunnel _); cbn [fmap option_fmap option_map].
  - by apply sublist_skip.
  - by apply sublist_cons.
Qed.

Lemma elem_start_all start_tunnel platform by_region name t :
  (name, t) ∈ start_all start_tunnel platform by_region ↔
  ∃ l, (name, l) ∈ by_region ∧ start_tunnel (region_config name (length l) platform) = Some t.
Proof using Type.
  unfold start_all. rewrite list_elem_of_omap. split.
  - intros ([n l] & Hin & H). apply fmap_Some in H as (t' & Ht & [= -> ->]). eauto.
  - intros (l & Hin & Ht). exists (name, l). split; [done|]. cbn [fst snd]. by rewrite Ht.
Qed.

Lemma sorted_names {A} (m : list (str * A)) : bt_sorted m → NoDup m.*1.
Proof using Type.
  unfold bt_sorted. induction 1 as [|[k v] m Hm IH Hall]; [constructor|]. rewrite fmap_cons. constructor; [|done].
  intros (x & E & Hx)%list_elem_of_fmap. rewrite Forall_forall in Hall. specialize (Hall _ Hx). cbn in E, Hall. subst k.
  by rewrite str_ltb_irrefl in Hall.
Qed.

(** Starting the SSH regions, whatever the accounts are and whichever tunnels could be started. *)
Lemma start_ok rank s p start_tunnel accounts :
  provider_ok rank s p → (∀ q, s !! primaries p = Some q → proxies q = []) →
  ∃ started rank' s' p', start start_tunnel accounts p s = (Ok (length started, p'), s') ∧ provider_ok rank' s' p' ∧ extends s s' ∧
    (∀ name t, (name, t) ∈ started ↔ name ≠ [] ∧ ∃ l, l = parse accounts name ∧ l ≠ [] ∧
       start_tunnel (region_config name (length l) (pc_client_platform (config p))) = Some t) ∧
    (∀ name t, (name, t) ∈ started → offered Pool.Ssh s' p' name (ssh_proxy name t)) ∧
    (∀ protocol other x, offered protocol s p other x → offered protocol s' p' other x) ∧
    (∃ q, s' !! primaries p = Some q ∧ proxies q = (fun e => ssh_proxy e.1 e.2) <$> started) ∧
    primaries p' = primaries p ∧ factory p' = factory p.
Proof using Type.
  intros Hp Hempty. set (started := start_all start_tunnel (pc_client_platform (config p)) (group_by_region accounts)).
  destruct (add_all_ok rank s p started Hp) as (rank' & s' & p' & E & Hp' & X & O & K & Pr & Fa & _ & _ & Q).
  exists started, rank', s', p'. split.
  { unfold SE in *. unfold start. fold started. destruct (group_by_region accounts) eqn:Eg.
    - unfold started in *. cbn in E |- *. unfold mret, se_ret in *. by injection E as <- <-.
    - unfold mbind, se_bind. by rewrite E. }
  split; [done|]. split; [done|]. split.
  { intros name t. unfold started. rewrite elem_start_all. setoid_rewrite group_elem. naive_solver. }
  split; [intros name t Hin; by apply (O (name, t))|]. split; [done|]. split; [|by split].
  destruct (po_primaries _ _ _ Hp) as [q Hq]. specialize (Hempty q Hq).
  destruct (Q q Hq) as (q' & Hq' & Eq'); [|exists q'; by rewrite Eq', Hempty].
  rewrite Hempty. change (NoDup (((fun n => Lit "ssh://" ++ n) ∘ fst : str * T → str) <$> started)). rewrite list_fmap_compose.
  apply NoDup_fmap_2; [intros x y; apply app_inv_head|].
  eapply sublist_NoDup; [exact (sorted_names _ (group_sorted accounts))|apply start_all_sublist].
Qed.

(** ** The refresh task *)

Definition full (t : T) : bool := negb (Pool.active_tunnels t <? Pool.target_pool t)%nat.
(** Ticks before the one that decides. *)
Definition silent_ticks (c : ProviderConfig) (until_rotation : Z) : nat := Z.to_nat ((until_rotation - 1) / state_refresh_interval c).

Lemma refresh_ticks_app n m c t u : refresh_ticks (n + m) c t u =
  ((refresh_ticks m c t (refresh_ticks n c t u).1).1, (refresh_ticks n c t u).2 ++ (refresh_ticks m c t (refresh_ticks n c t u).1).2).
Proof using Type.
  revert u. induction n as [|n IH]; intros u; cbn [Nat.add refresh_ticks fst snd app]; [by destruct (refresh_ticks m c t u)|].
  destruct (refresh_tick c t u) as [u' r]. rewrite IH. by destruct (refresh_ticks n c t u').
Qed.

Lemma refresh_silent n c t u : 0 < state_refresh_interval c → (n = 0%nat ∨ Z.of_nat n * state_refresh_interval c < u) →
  refresh_ticks n c t u = (u - Z.of_nat n * state_refresh_interval c, replicate n None).
Proof using Type.
  intros Hi. revert u. induction n as [|n IH]; intros u Hn; cbn [refresh_ticks]; [f_equal; lia|].
  destruct Hn as [|Hn]; [done|]. set (i := state_refresh_interval c) in *.
  assert (Z.of_nat (S n) * i = Z.of_nat n * i + i) as E by (rewrite Nat2Z.inj_succ; ring).
  assert (0 <= Z.of_nat n * i) by (apply Z.mul_nonneg_nonneg; lia).
  unfold refresh_tick. fold i. rewrite (proj2 (Z.ltb_lt i u)) by lia. rewrite IH; [cbn [replicate]; f_equal; lia|].
  destruct n; [by left|right; lia].
Qed.

Lemma refresh_decides c t u : 0 < state_refresh_interval c → 0 <= u →
  refresh_ticks (silent_ticks c u + 1) c t u =
    (tunnel_refresh_interval c, replicate (silent_ticks c u) None ++ [if full t then Some (tunnel_refresh_count c) else None]).
Proof using Type.
  intros Hi Hu. rewrite refresh_ticks_app. unfold silent_ticks. set (n := Z.to_nat ((u - 1) / state_refresh_interval c)).
  pose proof (Z.mul_div_le (u - 1) (state_refresh_interval c) Hi) as H1.
  pose proof (Z.mul_succ_div_gt (u - 1) (state_refresh_interval c) Hi) as H2.
  rewrite (refresh_silent n); [|done|].
  - cbn [fst snd refresh_ticks]. unfold refresh_tick, full. rewrite (proj2 (Z.ltb_ge _ _)); [by destruct (Pool.active_tunnels t <? Pool.target_pool t)%nat|].
    destruct (Z.le_gt_cases 0 ((u - 1) / state_refresh_interval c)); unfold n; [rewrite Z2Nat.id by done|rewrite Z2Nat.nonpos by lia]; nia.
  - destruct n eqn:En; [by left|right]. rewrite <- En. unfold n. rewrite Z2Nat.id by (unfold n in En; lia). lia.
Qed.

(** Rotation of the sessions. The first decision comes when the random delay is over, then one
    every refresh interval rounded up to ticks, for ever; each retires the configured number of
    sessions exactly when the pool is full, and no other tick retires any. *)
Theorem refresh_rotates c t delay periods :
  0 < state_refresh_interval c → 0 <= tunnel_refresh_interval c → 0 <= delay →
  let decision := if full t then Some (tunnel_refresh_count c) else None in
  let period := replicate (silent_ticks c (tunnel_refresh_interval c)) None ++ [decision] in
  refresh_ticks (silent_ticks c delay + 1 + periods * length period) c t delay =
    (tunnel_refresh_interval c, replicate (silent_ticks c delay) None ++ [decision] ++ concat (replicate periods period)).
Proof using Type.
  intros Hi HR Hd decision period. rewrite refresh_ticks_app, refresh_decides by done. cbn [fst snd]. rewrite <- app_assoc.
  assert (refresh_ticks (periods * length period) c t (tunnel_refresh_interval c) = (tunnel_refresh_interval c, concat (replicate periods period))) as ->; [|done].
  assert (length period = (silent_ticks c (tunnel_refresh_interval c) + 1)%nat) as -> by (unfold period; by rewrite length_app, length_replicate).
  induction periods as [|n IH]; [done|]. rewrite Nat.mul_succ_l, Nat.add_comm, refresh_ticks_app, refresh_decides by done.
  cbn [fst snd replicate concat]. by rewrite IH.
Qed.
End Provider.

(** * Examples *)

(** With the program's constants a full pool loses a session every 300 ticks, which are 600 s. *)
Lemma refresh_rotates_witness :
  silent_ticks provider_config TUNNEL_REFRESH_INTERVAL = 299%nat ∧
  (refresh_ticks (silent_ticks provider_config 5000 + 1 + 0) provider_config 0%nat 5000).2 = [None; None; Some 1].
Proof.
  split; [reflexivity|]. pose proof (refresh_rotates provider_config 0%nat 5000 0) as H.
  cbv zeta in H. rewrite Nat.mul_0_l in H. rewrite H; [reflexivity|vm_compute; reflexivity|vm_compute; congruence|lia].
Defined.
