(* ===== verification/Build.v ===== *)
(** config.rs: [build], the start of the program: the provider, the VPN pools, the SSH regions and
    the protocol routes, in this order, over one store of pools. *)
From S2P Require Import Prelude Text Sorting SshAccount SshManager Pool Routing VpnMod Provider.

Section Build.
Context {T F : Type} {TT : Pool.Tunnel T}.

Abbreviation Store := (gmap nat (ProxyPool (T:=T))).
Abbreviation M A := (SE Store Empty_set A).
Abbreviation Provider := (Provider (T:=T) (F:=F)).
Abbreviation VpnAccount := (VpnAccount (T:=T)).

(** One round of the loop over the protocols. *)
Definition set_route (p : Provider) (protocol : Pool.Protocol) : M Provider :=
  pool ← Pool.new [];
  mret (match protocol_forward (factory p) protocol pool with
        | Some forward => mkProvider (set_protocol_route (handler p) protocol pool forward) (primaries p) (factory p) (config p) (refreshing p)
        | None => p
        end).

(** With the pools that [attach] hands to the supervisor. *)
Definition build_supervised (factory : ForwardFactory (F:=F)) (vpn : list VpnAccount) (start_tunnel : Config → option T) (accounts : list Account)
    : M (Provider * list (str * nat)) :=
  p ← Provider_new factory provider_config;
  '(routes, pools) ← attach (region_forward factory) vpn (handler p);
  '(_, p) ← start start_tunnel accounts (mkProvider routes (primaries p) factory (config p) (refreshing p));
  p ← set_route p Pool.Ssh;
  p ← set_route p Pool.Vpn;
  mret (p, pools).
Definition build (factory : ForwardFactory (F:=F)) (vpn : list VpnAccount) (start_tunnel : Config → option T) (accounts : list Account) : M Provider :=
  r ← build_supervised factory vpn start_tunnel accounts; mret r.1.

(** * The VPN pools *)

(** The pools made so far are leaves apart from the default pool. *)
Definition pools_apart (rank : nat → nat) (s : Store) (prim : nat) (regions : list (str * nat)) : Prop :=
  ∀ r pool, bt_get r regions = Some pool → is_Some (s !! pool) ∧ rank pool = 0%nat ∧ pool ≠ prim.

Definition joined (s : Store) (regions : list (str * nat)) (a : VpnAccount) : Prop :=
  ∃ pool q, bt_get (va_region a) regions = Some pool ∧ s !! pool = Some q ∧ (va_ready a = true → proxy_key a ∈ pp_key <$> proxies q).

Lemma joined_extends s s' regions regions' a : joined s regions a → extends s s' →
  (∀ r pool, bt_get r regions = Some pool → bt_get r regions' = Some pool) → joined s' regions' a.
Proof using Type.
  intros (pool & q & Hb & Hq & Hk) X Hr. destruct (X _ _ Hq) as (q' & Hq' & Hp & _). exists pool, q'.
  split; [by apply Hr|]. split; [done|]. intros Ha. specialize (Hk Ha). rewrite list_elem_of_fmap in Hk |- *.
  destruct Hk as (y & ? & ?). eauto.
Qed.

Lemma attach_pools_ok accounts : ∀ rank (s : Store) (h : Proxy (F:=F)) prim regions,
  wf_proxy rank s h → is_Some (s !! prim) → pools_apart rank s prim regions → bt_sorted regions →
  ∃ rank' s' regions', attach_pools accounts regions s = (Ok regions', s') ∧ wf_proxy rank' s' h ∧ extends s s' ∧
    s' !! prim = s !! prim ∧ pools_apart rank' s' prim regions' ∧ bt_sorted regions' ∧
    (∀ r pool, bt_get r regions = Some pool → bt_get r regions' = Some pool) ∧
    (∀ a, a ∈ accounts → joined s' regions' a).
Proof using Type.
  induction accounts as [|a accounts IH]; intros rank s h prim regions W Hprim Ha Hs; cbn [attach_pools].
  { exists rank, s, regions. do 7 (split; [done|]). intros a Hn. by apply elem_of_nil in Hn. }
  assert (∃ rank1 s1 pool q regions1,
    (match bt_get (va_region a) regions with
     | Some pool => mret (pool, regions)
     | None => pool ← Pool.new []; mret (pool, bt_set (va_region a) pool regions)
     end : M (nat * list (str * nat))) s = (Ok (pool, regions1), s1) ∧ wf_proxy rank1 s1 h ∧ extends s s1 ∧ s1 !! prim = s !! prim ∧
     pools_apart rank1 s1 prim regions1 ∧ bt_sorted regions1 ∧ bt_get (va_region a) regions1 = Some pool ∧ s1 !! pool = Some q ∧ pool ≠ prim ∧
     (∀ r pool, bt_get r regions = Some pool → bt_get r regions1 = Some pool)) as (rank1 & s1 & pool & q & regions1 & E1 & W1 & X1 & P1 & A1 & S1 & B1 & Q1 & N1 & K1).
  { destruct (bt_get (va_region a) regions) as [pool|] eqn:Eb.
    - destruct (Ha _ _ Eb) as ([q Hq] & _ & Hne). exists rank, s, pool, q, regions. done.
    - destruct (new_pool rank s h [] 0 W) as (i & s1 & E & N & P & X & W' & R & O); [constructor|].
      assert (i ≠ prim) as Hip by (intros ->; rewrite N in Hprim; by destruct Hprim).
      eexists (rank_set rank i 0), s1, i, _, (bt_set (va_region a) i regions). split; [unfold mbind, se_bind; by rewrite E|].
      split; [done|]. split; [done|]. split; [by apply O|]. split; [|split; [by apply bt_set_sorted|split; [rewrite bt_get_set; by rewrite decide_True|split; [exact P|split; [done|]]]]].
      + intros r p. rewrite bt_get_set. case_decide; [intros [= <-]; split; [eauto|split; [unfold rank_set; by rewrite decide_True|done]]|].
        intros Hb. destruct (Ha _ _ Hb) as ([qp Hp] & Hr & Hne). destruct (X _ _ Hp) as (qp' & Hp' & _). split; [eauto|]. rewrite R by eauto. done.
      + intros r p Hb. rewrite bt_get_set, decide_False; [done|]. intros ->. congruence. }
  assert (∃ s2 q2, (if va_ready a then push pool (proxy_for a) else mret () : M ()) s1 = (Ok (), s2) ∧ wf_proxy rank1 s2 h ∧ extends s1 s2 ∧
    s2 !! prim = s1 !! prim ∧ s2 !! pool = Some q2 ∧ (va_ready a = true → proxy_key a ∈ pp_key <$> proxies q2))
    as (s2 & q2 & E2 & W2 & X2 & P2 & Q2 & K2).
  { destruct (va_ready a); [|exists s1, q; done].
    destruct (push_ok rank1 s1 h pool q (proxy_for a) W1 Q1) as (s2 & q2 & E2 & W2 & X2 & O2 & Q2 & Eq).
    exists s2, q2. split; [done|]. split; [done|]. split; [done|]. split; [by apply O2|]. split; [done|]. intros _.
    change (pp_key (proxy_for a)) with (proxy_key a) in Eq. destruct (decide _) in Eq; rewrite Eq; [done|]. rewrite fmap_app. apply elem_of_app. right. by left. }
  destruct (IH rank1 s2 h prim regions1 W2) as (rank3 & s3 & regions3 & E3 & W3 & X3 & P3 & A3 & S3 & K3 & J3).
  { rewrite P2, P1. done. }
  { intros r p Hb. destruct (A1 _ _ Hb) as ([qp Hp] & ? & ?). destruct (X2 _ _ Hp) as (qp' & ? & _). eauto. }
  { done. }
  exists rank3, s3, regions3. split.
  { rewrite (se_bind_eq _ _ _ _ _ E1). cbn [fst snd]. rewrite (se_bind_eq _ _ _ _ _ E2). exact E3. }
  split; [done|]. split; [etrans; [exact X1|by etrans]|]. split; [congruence|]. split; [done|]. split; [done|]. split; [auto|].
  intros b [->|Hb]%elem_of_cons; [|by apply J3]. apply (joined_extends s2 s3 regions1 regions3); [|done|done]. by exists pool, q2.
Qed.

Lemma attach_regions_ok (ff : str → nat → option F) regions : ∀ rank (s : Store) (h : Proxy (F:=F)),
  wf_proxy rank s h → (∀ r pool, (r, pool) ∈ regions → is_Some (s !! pool) ∧ rank pool = 0%nat) →
  ∃ rank' s' h', attach_regions ff regions h s = (Ok h', s') ∧ wf_proxy rank' s' h' ∧ extends s s' ∧
    (∀ id q, s !! id = Some q → ∃ q', s' !! id = Some q' ∧ proxies q' = proxies q) ∧
    (∀ r pool, (r, pool) ∈ regions → ∃ e, e ∈ Routing.regions h' ∧ named r e = true ∧ Pool.Vpn ∈ Region_protocols e ∧ child_of s' (merged e) pool) ∧
    (∀ r0, r0 ∈ Routing.regions h → ∃ r1, r1 ∈ Routing.regions h' ∧ username r1 = username r0 ∧ merged r1 = merged r0 ∧
       ∀ q, q ∈ Region_protocols r0 → q ∈ Region_protocols r1) ∧
    default_pool h' = default_pool h.
Proof using Type.
  induction regions as [|[r pool] regions IH]; intros rank s h W Hr; cbn [attach_regions].
  { exists rank, s, h. split; [done|]. split; [done|]. split; [done|]. split; [eauto|]. split; [intros ? ? Hn; by apply elem_of_nil in Hn|]. split; [eauto|done]. }
  destruct (Hr r pool) as [Hp Hrk]; [by left|].
  destruct (register_ok rank s h r Pool.Vpn pool (ff r pool) W Hp Hrk)
    as (m & s1 & entry & s2 & h3 & s3 & e & rank3 & E1 & E2 & E3 & W3 & X3 & R3 & V3 & Hin & Hn & Pe & Ce & K3 & D3 & _).
  destruct (IH rank3 s3 h3 W3) as (rank4 & s4 & h4 & E4 & W4 & X4 & V4 & O4 & K4 & D4).
  { intros r' p' Hin'. destruct (Hr r' p') as [[q Hq] ?]; [by right|]. destruct (X3 _ _ Hq) as (q' & ? & _). rewrite R3 by eauto. eauto. }
  exists rank4, s4, h4. split.
  { unfold mbind, se_bind. rewrite E1, E2, E3. exact E4. }
  split; [done|]. split; [by etrans|]. split; [|split; [|split; [|congruence]]].
  - intros id q Hq. destruct (V3 _ _ Hq) as (q1 & Hq1 & <-). destruct (V4 _ _ Hq1) as (q2 & Hq2 & <-). eauto.
  - intros r' p' [[= -> ->]|Hin']%elem_of_cons; [|by apply O4]. destruct (K4 e Hin) as (e' & Hin' & Eu & Em & Hq). exists e'.
    split; [done|]. split; [unfold named in *; by rewrite Eu|]. split; [by apply Hq|]. rewrite Em. by eapply extends_child.
  - intros r0 Hr0. destruct (K3 r0 Hr0) as (r1 & Hr1 & Eu1 & Em1 & Hq1). destruct (K4 r1 Hr1) as (r2 & Hr2 & Eu2 & Em2 & Hq2).
    exists r2. split; [done|]. split; [congruence|]. split; [congruence|]. auto.
Qed.

Lemma attach_ok (ff : str → nat → option F) accounts rank (s : Store) (h : Proxy (F:=F)) prim : wf_proxy rank s h → is_Some (s !! prim) →
  ∃ rank' s' h' pools, attach ff accounts h s = (Ok (h', pools), s') ∧ wf_proxy rank' s' h' ∧ extends s s' ∧
    (∀ q, s !! prim = Some q → ∃ q', s' !! prim = Some q' ∧ proxies q' = proxies q) ∧ default_pool h' = default_pool h ∧
    (∀ a, a ∈ accounts → ∃ e pool q, e ∈ Routing.regions h' ∧ named (va_region a) e = true ∧ Pool.Vpn ∈ Region_protocols e ∧
       child_of s' (merged e) pool ∧ s' !! pool = Some q ∧ (va_ready a = true → proxy_key a ∈ pp_key <$> proxies q)).
Proof using Type.
  intros W Hp. destruct (attach_pools_ok accounts rank s h prim [] W Hp) as (r1 & s1 & regions & E1 & W1 & X1 & P1 & A1 & S1 & _ & J1).
  { intros r pool Hn. done. }
  { constructor. }
  destruct (attach_regions_ok ff regions r1 s1 h W1) as (r2 & s2 & h' & E2 & W2 & X2 & V2 & O2 & _ & D2).
  { intros r pool Hin. apply (bt_get_elem _ _ _ S1) in Hin. destruct (A1 _ _ Hin) as (? & ? & _). done. }
  exists r2, s2, h', regions. split.
  { unfold attach. rewrite (se_bind_eq _ _ _ _ _ E1), (se_bind_eq _ _ _ _ _ E2). done. }
  split; [done|]. split; [by etrans|]. split; [intros q Hq; apply V2; congruence|]. split; [done|].
  intros a Ha. destruct (J1 a Ha) as (pool & q & Hb & Hq & Hk). apply (bt_get_elem _ _ _ S1) in Hb.
  destruct (O2 _ _ Hb) as (e & Hin & Hn & Hpr & Hc). destruct (V2 _ _ Hq) as (q' & Hq' & Eq).
  exists e, pool, q'. rewrite Eq. done.
Qed.

(** * The routes *)

Lemma set_route_ok rank (s : Store) (p : Provider) protocol : provider_ok rank s p →
  ∃ rank' s' pool, set_route p protocol s = (Ok (match protocol_forward (factory p) protocol pool with
        | Some forward => mkProvider (set_protocol_route (handler p) protocol pool forward) (primaries p) (factory p) (config p) (refreshing p)
        | None => p
        end), s') ∧ provider_ok rank' s' p ∧ extends s s' ∧ (∀ j, is_Some (s !! j) → s' !! j = s !! j) ∧ s' !! pool = Some (mkPool [] [] 0).
Proof using Type.
  intros [W D P]. destruct (new_pool rank s (handler p) [] 0 W) as (i & s1 & E & N & P1 & X & W1 & R & O); [constructor|].
  exists (rank_set rank i 0), s1, i. split; [unfold set_route; by rewrite (se_bind_eq _ _ _ _ _ E)|].
  assert (∀ j, is_Some (s !! j) → s1 !! j = s !! j) as Hj.
  { intros j Hs. apply O. intros ->. rewrite N in Hs. by destruct Hs. }
  split; [split; [done|done|by rewrite Hj]|done].
Qed.

Lemma routed_ok rank (s : Store) (p : Provider) protocol pool forward : provider_ok rank s p →
  provider_ok rank s (mkProvider (set_protocol_route (handler p) protocol pool forward) (primaries p) (factory p) (config p) (refreshing p)).
Proof using Type. intros [[W Wr Wn] D P]. split; [by split|done|done]. Qed.

(** Someone names a region: a proxy with that key can be reached. *)
Definition reaches (protocol : Pool.Protocol) (s : Store) (p : Provider) (name k : str) : Prop :=
  ∃ x, pp_key x = k ∧ offered protocol s p name x.

Lemma offered_same protocol (s s' : Store) (p p' : Provider) name x : Routing.regions (handler p') = Routing.regions (handler p) → extends s s' →
  offered protocol s p name x → offered protocol s' p' name x.
Proof using Type.
  intros E X H u Hu Hn. destruct (H u Hu Hn) as (e & Hr & Hp & Hv). exists e. unfold region in *. rewrite E.
  split; [done|]. split; [done|]. by eapply extends_visible.
Qed.

Lemma empty_pool (s : Store) pool : s !! pool = Some (mkPool [] [] 0) → (candidates 1 pool s).1 = Ok [].
Proof using Type. intros H. unfold candidates. cbn [filtered]. by rewrite (se_bind_eq _ _ _ _ _ (get_pool_ok _ _ _ H)). Qed.

Lemma provider_new_ok factory c :
  ∃ rank (p : Provider) s, Provider_new factory c ∅ = (Ok p, s) ∧ provider_ok rank s p ∧ handler p = Proxy_new (primaries p) (default_forward factory (primaries p)) ∧
    s !! primaries p = Some (mkPool [] [] 0) ∧ Provider.factory p = factory ∧ config p = c ∧ refreshing p = [].
Proof using Type.
  assert (∀ pool f, wf_proxy (F:=F) (fun _ => 0%nat) (∅ : Store) (Proxy_new pool f)) as W.
  { intros pool f. split; [split|intros r Hr; by apply elem_of_nil in Hr|constructor]; done. }
  destruct (new_pool (fun _ => 0%nat) ∅ (Proxy_new 0 None) [] 0 (W _ _)) as (i & s & E & _ & P & _ & W' & _ & _); [constructor|].
  eexists _, _, s. split; [unfold Provider_new; by rewrite (se_bind_eq _ _ _ _ _ E)|]. cbn [handler primaries Provider.factory config refreshing].
  split; [split; [|done|by eexists]|done]. destruct W' as [W1 _ _]. split; [exact W1|intros r Hr; by apply elem_of_nil in Hr|constructor].
Qed.

Lemma build_supervised_ok factory vpn start_tunnel accounts :
  (∀ protocol pool, is_Some (protocol_forward factory protocol pool)) →
  ∃ rank p pools s started, build_supervised factory vpn start_tunnel accounts ∅ = (Ok (p, pools), s) ∧ provider_ok rank s p ∧
    (∀ a, a ∈ vpn → va_region a ≠ [] → va_ready a = true → reaches Pool.Vpn s p (va_region a) (proxy_key a)) ∧
    (∀ name t, (name, t) ∈ started ↔ name ≠ [] ∧ parse accounts name ≠ [] ∧
       start_tunnel (region_config name (length (parse accounts name)) []) = Some t) ∧
    (∀ name t, (name, t) ∈ started → reaches Pool.Ssh s p name (Lit "ssh://" ++ name)) ∧
    (∃ q, s !! default_pool (handler p) = Some q ∧ proxies q = (fun e => ssh_proxy e.1 e.2) <$> started) ∧
    (∀ protocol, ∃ pool, pool_for (handler p) [] (Some protocol) s = (Ok pool, s) ∧ (candidates 1 pool s).1 = Ok []).
Proof using Type.
  intros Hf. destruct (provider_new_ok factory provider_config) as (r0 & p0 & s0 & E0 & [W0 D0 P0] & H0 & Q0 & F0 & C0 & R0).
  destruct (attach_ok (region_forward factory) vpn r0 s0 (handler p0) (primaries p0) W0 P0) as (r1 & s1 & h1 & pools & E1 & W1 & X1 & V1 & D1 & J1).
  set (p1 := mkProvider h1 (primaries p0) factory (config p0) (refreshing p0)).
  destruct (V1 _ Q0) as (q1 & Hq1 & Eq1).
  assert (provider_ok r1 s1 p1) as Hp1 by (split; [done|unfold p1; cbn; congruence|by eexists]).
  destruct (start_ok r1 s1 p1 start_tunnel accounts Hp1) as (started & r2 & s2 & p2 & E2 & Hp2 & X2 & I2 & O2 & K2 & (q2 & Hq2 & Eq2) & Pr2 & F2).
  { intros q Hq. unfold p1 in Hq. cbn [primaries] in Hq. rewrite Hq1 in Hq. injection Hq as <-. by rewrite Eq1. }
  destruct (set_route_ok r2 s2 p2 Pool.Ssh Hp2) as (r3 & s3 & i3 & E3 & Hp3 & X3 & S3 & Q3).
  assert (Provider.factory p2 = factory) as Ef by (by rewrite F2).
  rewrite Ef in E3. destruct (Hf Pool.Ssh i3) as [f3 Hf3]. rewrite Hf3 in E3.
  pose proof (routed_ok r3 s3 p2 Pool.Ssh i3 f3 Hp3) as Hp3'. rewrite Ef in Hp3'. set (p3 := mkProvider (set_protocol_route (handler p2) Pool.Ssh i3 f3) _ _ _ _) in *.
  destruct (set_route_ok r3 s3 p3 Pool.Vpn Hp3') as (r4 & s4 & i4 & E4 & Hp4 & X4 & S4 & Q4).
  change (Provider.factory p3) with factory in E4. destruct (Hf Pool.Vpn i4) as [f4 Hf4]. rewrite Hf4 in E4.
  pose proof (routed_ok r4 s4 p3 Pool.Vpn i4 f4 Hp4) as Hp4'.
  set (p4 := mkProvider (set_protocol_route (handler p3) Pool.Vpn i4 f4) (primaries p3) factory (config p3) (refreshing p3)).
  change (provider_ok r4 s4 p4) in Hp4'.
  assert (extends s2 s4) as X24 by (by etrans).
  assert (∀ protocol name x, offered protocol s2 p2 name x → offered protocol s4 p4 name x) as Hkeep by (intros ???; by apply offered_same).
  exists r4, p4, pools, s4, started. split.
  { unfold build_supervised. rewrite (se_bind_eq _ _ _ _ _ E0), (se_bind_eq _ _ _ _ _ E1). fold p1.
    rewrite (se_bind_eq _ _ _ _ _ E2). rewrite (se_bind_eq _ _ _ _ _ E3), (se_bind_eq _ _ _ _ _ E4). done. }
  split; [exact Hp4'|]. split; [|split; [|split; [|split]]].
  - intros a Ha Hr Hy. destruct (J1 a Ha) as (e & pool & q & Hin & Hn & Hpr & Hc & Hq & Hk).
    specialize (Hk Hy). apply list_elem_of_fmap in Hk as (x & Ex & Hx). exists x. split; [done|]. apply Hkeep, K2.
    intros u Hu Hun. exists e. split; [apply region_lookup; [apply W1|done|done|apply named_upper in Hn; apply named_upper; by rewrite Hn]|].
    split; [done|]. eapply visible_child; [exact Hc|]. by eapply leaf_visible.
  - intros name t. rewrite I2. unfold p1. cbn [config]. rewrite C0. split; [intros (? & l & -> & ? & ?); done|intros (? & ? & ?); eauto].
  - intros name t Hin. exists (ssh_proxy name t). split; [done|]. by apply Hkeep, O2.
  - exists q2. unfold p4, p3. cbn [handler set_protocol_route default_pool]. rewrite (po_default _ _ _ Hp2), Pr2. cbn [primaries p1].
    assert (is_Some (s2 !! primaries p0)) as Hs by (by exists q2). assert (s3 !! primaries p0 = Some q2) as Hs3 by (by rewrite S3).
    split; [|done]. rewrite S4; [done|by exists q2].
  - intros protocol. unfold pool_for, region. rewrite decide_True by done. unfold p4, p3. cbn [handler set_protocol_route protocol_pools].
    rewrite !assoc_set. destruct protocol.
    + rewrite decide_False, decide_True by done. exists i3. split; [done|]. apply empty_pool. rewrite S4; [done|by eexists].
    + rewrite decide_True by done. exists i4. split; [done|]. by apply empty_pool.
Qed.

(** C18: The program starts: nothing panics and the tables are well-formed; every VPN account that is
    ready and every SSH tunnel that started is reached by the name of its region in any
    capitalisation, also when a region has both; the default pool holds the SSH tunnels; and the
    pool of a protocol route is empty, so a request that names a protocol and no region finds no
    candidate. *)
Theorem build_spec factory vpn start_tunnel accounts :
  (∀ protocol pool, is_Some (protocol_forward factory protocol pool)) →
  ∃ rank p s started, build factory vpn start_tunnel accounts ∅ = (Ok p, s) ∧ provider_ok rank s p ∧
    (∀ a, a ∈ vpn → va_region a ≠ [] → va_ready a = true → reaches Pool.Vpn s p (va_region a) (proxy_key a)) ∧
    (∀ name t, (name, t) ∈ started ↔ name ≠ [] ∧ parse accounts name ≠ [] ∧
       start_tunnel (region_config name (length (parse accounts name)) []) = Some t) ∧
    (∀ name t, (name, t) ∈ started → reaches Pool.Ssh s p name (Lit "ssh://" ++ name)) ∧
    (∃ q, s !! default_pool (handler p) = Some q ∧ proxies q = (fun e => ssh_proxy e.1 e.2) <$> started) ∧
    (∀ protocol, ∃ pool, pool_for (handler p) [] (Some protocol) s = (Ok pool, s) ∧ (candidates 1 pool s).1 = Ok []).
Proof using Type.
  intros Hf. destruct (build_supervised_ok factory vpn start_tunnel accounts Hf) as (rank & p & pools & s & started & E & H).
  exists rank, p, s, started. split; [unfold build; by rewrite (se_bind_eq _ _ _ _ _ E)|exact H].
Qed.
End Build.

(** * Example *)

Definition toy_factory : ForwardFactory (F:=str) := mkFactory (fun r _ => Some r) (fun _ => Some []) (fun _ _ => Some []).
Definition toy_started (c : SshManager.Config) : option nat := if decide (cfg_region c = Lit "DE") then None else Some (Z.to_nat (cfg_pool_size c)).
Definition toy_ssh_accounts : list Account := (fun r => mkAccount [] r 22 0 [] [] [] []) <$> [Lit "US"; Lit "CA"; Lit "DE"; Lit "US"].
Definition toy_vpn : list (VpnAccount (T:=nat)) := [mkVpnAccount (Lit "192.0.2.9") (Lit "US") true 5%nat; mkVpnAccount (Lit "192.0.2.8") (Lit "JP") false 6%nat].

(** The United States have both kinds of exits; Germany's tunnel did not start. *)
Lemma build_spec_witness :
  ∃ p s, build toy_factory toy_vpn toy_started toy_ssh_accounts ∅ = (Ok p, s) ∧
    reaches Pool.Vpn s p (Lit "US") (Lit "openvpn://192.0.2.9") ∧ reaches Pool.Ssh s p (Lit "US") (Lit "ssh://US") ∧
    reaches Pool.Ssh s p (Lit "CA") (Lit "ssh://CA").
Proof.
  destruct (build_spec toy_factory toy_vpn toy_started toy_ssh_accounts) as (rank & p & s & started & E & _ & Hv & Hin & Hs & _).
  { intros protocol pool. by eexists. }
  exists p, s. split; [exact E|]. split; [|split].
  - apply (Hv (mkVpnAccount (Lit "192.0.2.9") (Lit "US") true 5%nat)); [by left|done|done].
  - apply (Hs (Lit "US") 2%nat), Hin. split_and!; vm_compute; done.
  - apply (Hs (Lit "CA") 1%nat), Hin. split_and!; vm_compute; done.
Defined.
