(* ===== verification/Confined.v ===== *)
(** Which exits can be reached from which pool: a ghost label for every pool says whose it is, and
    everything that builds or changes the pools and the routing tables keeps to the labels. *)
From S2P Require Import Prelude Text Sorting SshAccount SshManager Pool Routing VpnMod Provider Build.

Lemma nodup_snoc {A} (l : list A) x : NoDup l → x ∉ l → NoDup (l ++ [x]).
Proof. intros Hl Hx. apply NoDup_app. split; [done|]. split; [|apply NoDup_singleton]. by intros y Hy ->%list_elem_of_singleton. Qed.

(** Pools that do not exist are [Unused]; a pool holds the exits of one protocol in one region, or
    is the merged pool of a region, the default pool, or nobody's. Names are in capitals. *)
Inductive Label := Unused | Exits (p : Pool.Protocol) (name : str) | Merged (name : str) | Primary | Nobody.
Definition Owner : Type := nat → Label.

Definition kept (o o' : Owner) : Prop := ∀ id, o id ≠ Unused → o' id = o id.
#[export] Instance kept_preorder : PreOrder kept.
Proof. split; [by intros o id|]. intros o1 o2 o3 H1 H2 id H. rewrite <- (H1 id H). apply H2. by rewrite H1. Qed.
Lemma kept_label o o' id l : kept o o' → o id = l → l ≠ Unused → o' id = l.
Proof. intros H <- Hl. by apply H. Qed.
Create HintDb confined.
#[export] Hint Extern 1 (?o' ?id = _) => (eapply kept_label; [eassumption|eassumption|discriminate]) : confined.

Abbreviation caps := to_ascii_uppercase.

Section Confined.
Context {T F : Type} {TT : Pool.Tunnel T}.
(** [mine p name x]: [x] is an exit of protocol [p] in the region; [pool_of f]: where a forwarder
    takes its exits from. *)
Context (mine : Pool.Protocol → str → PoolProxy (T:=T) → Prop) (pool_of : F → nat).

Abbreviation Store := (gmap nat (ProxyPool (T:=T))).

Definition holds (o : Owner) (l : Label) (q : ProxyPool (T:=T)) : Prop :=
  match l with
  | Unused => False
  | Exits p name => children q = [] ∧ ∀ x, x ∈ proxies q → mine p name x
  | Merged name => proxies q = [] ∧ ∀ c, c ∈ children q → ∃ p, o c = Exits p name
  | Primary => children q = [] ∧ ∀ x, x ∈ proxies q → ∃ name, mine Pool.Ssh name x
  | Nobody => children q = [] ∧ proxies q = []
  end.

Definition unrepeated (q : ProxyPool (T:=T)) : Prop := NoDup (pp_key <$> proxies q) ∧ NoDup (children q).

Record confined (o : Owner) (s : Store) : Prop := {
  co_holds id q : s !! id = Some q → holds o (o id) q;
  co_unrepeated id q : s !! id = Some q → unrepeated q;
  co_used id : s !! id = None → o id = Unused
}.

Lemma holds_kept o o' l q : kept o o' → holds o l q → holds o' l q.
Proof using Type.
  intros H. destruct l; simpl; try done. intros [-> Hc]. split; [done|]. intros c Hin. destruct (Hc c Hin) as [p Hp]. exists p. eauto with confined.
Qed.

(** * What a pool lets through *)

Definition lets (l : Label) (x : PoolProxy (T:=T)) : Prop :=
  match l with
  | Exits p name => mine p name x
  | Merged name => ∃ p, mine p name x
  | Primary => ∃ name, mine Pool.Ssh name x
  | Unused | Nobody => False
  end.

Lemma visible_leaf (s : Store) id q x : s !! id = Some q → children q = [] → visible s id x → x ∈ proxies q.
Proof using Type.
  intros Hq Hc Hv. rewrite (visible_unfold _ _ _ _ Hq), Hc in Hv. destruct Hv as [?|(c & Hn & _)]; [done|by apply elem_of_nil in Hn].
Qed.

Lemma visible_exists (s : Store) id x : visible s id x → is_Some (s !! id).
Proof using Type. intros (q & pool & Hr & Hp & _). inversion Hr as [|? ? ? (pl & ? & _)]; subst; eauto. Qed.

Lemma leaf_lets o (s : Store) id x : confined o s → (∀ name, o id ≠ Merged name) → visible s id x → lets (o id) x.
Proof using Type.
  intros C Hm Hv. destruct (visible_exists _ _ _ Hv) as [q Hq]. pose proof (co_holds _ _ C _ _ Hq) as Hh.
  destruct (o id) as [|p name|name| |]; simpl in *; [done| |by destruct (Hm name)| |];
    destruct Hh as [Hc Hx]; pose proof (visible_leaf _ _ _ _ Hq Hc Hv) as Hin.
  - by apply Hx.
  - by apply Hx.
  - rewrite Hx in Hin. by apply elem_of_nil in Hin.
Qed.

(** Everything that can be seen from a pool is let through by its label. *)
Lemma confined_visible o (s : Store) id x : confined o s → visible s id x → lets (o id) x.
Proof using Type.
  intros C Hv. destruct (visible_exists _ _ _ Hv) as [q Hq]. pose proof (co_holds _ _ C _ _ Hq) as Hh.
  destruct (o id) as [|p name|name| |] eqn:El; try (rewrite <- El; apply (leaf_lets _ s); [done|congruence|done]).
  destruct Hh as [Hp Hc]. rewrite (visible_unfold _ _ _ _ Hq), Hp in Hv. destruct Hv as [Hn|(c & Hin & Hv)]; [by apply elem_of_nil in Hn|].
  destruct (Hc c Hin) as [p Hpc]. exists p. pose proof (leaf_lets o s c x C) as H. rewrite Hpc in H. by apply H.
Qed.

(** * Steps that keep to the labels *)

(** After [m] from a confined store the store is confined, with labels for what is new, and a
    result satisfies [Q]. *)
Definition wp {E A} (m : SE Store E A) (Q : A → Owner → Prop) (o : Owner) : Prop :=
  ∀ s, confined o s → let '(r, s') := m s in
  ∃ o', kept o o' ∧ confined o' s' ∧ match r with Ok a => Q a o' | _ => True end.

Lemma wp_ret {E A} (a : A) (Q : A → Owner → Prop) o : Q a o → wp (E:=E) (mret a) Q o.
Proof using Type. intros H s C. exists o. by split. Qed.

Lemma wp_bind {E A A'} (m : SE Store E A) (f : A → SE Store E A') P Q o :
  wp m P o → (∀ a o', kept o o' → P a o' → wp (f a) Q o') → wp (m ≫= f) Q o.
Proof using Type.
  intros Hm Hf s C. specialize (Hm s C). unfold mbind, se_bind. destruct (m s) as [r s1]. destruct Hm as (o1 & K1 & C1 & H1).
  destruct r as [a|e| |]; try (exists o1; by split). specialize (Hf a o1 K1 H1 s1 C1). destruct (f a s1) as [r2 s2].
  destruct Hf as (o2 & K2 & C2 & H2). exists o2. split; [by etrans|done].
Qed.

Lemma wp_weaken {E A} (m : SE Store E A) (P Q : A → Owner → Prop) o :
  wp m P o → (∀ a o', kept o o' → P a o' → Q a o') → wp m Q o.
Proof using Type.
  intros Hm HPQ s C. specialize (Hm s C). destruct (m s) as [r s1]. destruct Hm as (o1 & K1 & C1 & H1). exists o1.
  split; [done|]. split; [done|]. destruct r; auto.
Qed.

(** What an operation that reads its pool's record relies on. *)
Lemma wp_get {A} id (f : ProxyPool → SE Store Empty_set A) Q o :
  (∀ q, holds o (o id) q → unrepeated q → wp (f q) Q o) → wp (p ← get_pool id; f p) Q o.
Proof using Type.
  intros Hf s C. unfold mbind, se_bind, get_pool. destruct (s !! id) as [q|] eqn:Hq; [|exists o; by split].
  apply (Hf q); [by eapply co_holds|by eapply co_unrepeated|done].
Qed.

(** Replacing the record of a pool that is labelled. *)
Lemma wp_put id q' o : o id ≠ Unused → holds o (o id) q' → unrepeated q' → wp (put_pool id q') (fun _ _ => True) o.
Proof using Type.
  intros Hu Hh Hn s [C1 C3 C2]. exists o. split; [done|]. split; [|done]. split.
  - intros j q [[<- <-]|[_ Hq]]%lookup_insert_Some; [done|by apply C1].
  - intros j q [[<- <-]|[_ Hq]]%lookup_insert_Some; [done|by eapply C3].
  - intros j Hj. apply lookup_insert_None in Hj as [Hj _]. by apply C2.
Qed.

Definition label (o : Owner) (id : nat) (l : Label) : Owner := fun j => if decide (j = id) then l else o j.

Lemma wp_new l ps o : l ≠ Unused → holds o l (mkPool ps [] 0) → NoDup (pp_key <$> ps) → wp (Pool.new ps) (fun id o' => o' id = l) o.
Proof using Type.
  intros Hl Hh Hn s C. unfold Pool.new. set (i := fresh (dom s)). assert (s !! i = None) as Hi by (apply not_elem_of_dom, is_fresh).
  assert (kept o (label o i l)) as K.
  { intros j Hj. unfold label. case_decide; [|done]. subst j. by rewrite (co_used _ _ C) in Hj. }
  exists (label o i l). assert (label o i l i = l) as Ei by (unfold label; by rewrite decide_True).
  split; [done|]. split; [|done]. split.
  - intros j q [[<- <-]|[Hne Hq]]%lookup_insert_Some; [rewrite Ei; by eapply holds_kept|].
    unfold label at 2. rewrite decide_False by done. eapply holds_kept; [done|by eapply co_holds].
  - intros j q [[<- <-]|[_ Hq]]%lookup_insert_Some; [split; [done|constructor]|by eapply co_unrepeated].
  - intros j Hj. apply lookup_insert_None in Hj as [Hj Hne]. unfold label. rewrite decide_False by done. by apply (co_used _ _ C).
Qed.
Lemma wp_new_empty l o : l ≠ Unused → wp (Pool.new []) (fun id o' => o' id = l) o.
Proof using Type.
  intros Hl. apply wp_new; [done| |constructor]. destruct l; try done; (split; [done|]); intros c Hc; by apply elem_of_nil in Hc.
Qed.

Lemma wp_add_child id c p name o : o id = Merged name → o c = Exits p name → wp (add_child id c) (fun _ _ => True) o.
Proof using Type.
  intros Hm Hc. unfold add_child. apply wp_get. intros q Hh [Hk Hn]. case_decide as Hin; [by apply wp_ret|].
  apply wp_put; rewrite ?Hm; [done| |].
  - rewrite Hm in Hh. destruct Hh as [-> Hch]. split; [done|]. cbn [children].
    intros d [Hd| ->%list_elem_of_singleton]%elem_of_app; eauto.
  - split; [done|]. by apply nodup_snoc.
Qed.

Lemma wp_push id x o : (∃ p name, o id = Exits p name ∧ mine p name x) ∨ (o id = Primary ∧ ∃ name, mine Pool.Ssh name x) →
  wp (push id x) (fun _ _ => True) o.
Proof using Type.
  intros Hl. unfold push. apply wp_get. intros q Hh [Hk Hn]. case_decide as Hin; [by apply wp_ret|].
  assert (unrepeated (mkPool (proxies q ++ [x]) (children q) (rotation q))) as Hu by (split; [cbn; rewrite fmap_app; by apply nodup_snoc|done]).
  destruct Hl as [(p & name & El & Hx)|(El & Hx)]; apply wp_put; rewrite El in *; try done; destruct Hh as [-> Hp]; (split; [done|]); cbn [proxies];
    intros y [Hy| ->%list_elem_of_singleton]%elem_of_app; auto.
Qed.

Lemma wp_remove id k o : o id ≠ Unused → wp (Pool.remove id k) (fun _ _ => True) o.
Proof using Type.
  intros Hu. unfold Pool.remove. apply wp_get. intros q Hh [Hk Hn]. apply wp_put; [done| |split; [|done]].
  2: { eapply sublist_NoDup; [exact Hk|]. apply fmap_sublist, sublist_filter. }
  destruct (o id) as [|p name|name| |]; simpl in *; try done; destruct Hh as [-> Hp]; (split; [done|]);
    try (intros x [_ Hx]%list_elem_of_filter; by apply Hp); try (by rewrite Hp); exact Hp.
Qed.

(** Looking moves only rotation counters. *)
Lemma confined_same o (s s' : Store) : same_shape s s' → confined o s → confined o s'.
Proof using Type.
  intros H [C1 C3 C2]. split.
  2: { intros id q' Hq'. destruct (same_shape_lookup s' s id q') as (q & Hq & Ep & Ec); [by symmetry|done|].
    unfold unrepeated. rewrite <- Ep, <- Ec. by eapply C3. }
  - intros id q' Hq'. destruct (same_shape_lookup s' s id q') as (q & Hq & Ep & Ec); [by symmetry|done|].
    specialize (C1 _ _ Hq). destruct (o id); simpl in *; by rewrite <- ?Ep, <- ?Ec.
  - intros id Hid. apply C2. destruct (s !! id) as [q|] eqn:Hq; [|done].
    destruct (same_shape_lookup _ _ _ _ H Hq) as (? & ? & _). congruence.
Qed.

Lemma wp_fold_m {A B} (f : A → B → SE Store Empty_set A) (I : A → Owner → Prop) l : ∀ a o,
  I a o → (∀ a b o', kept o o' → b ∈ l → I a o' → wp (f a b) I o') → wp (fold_m f a l) I o.
Proof using Type.
  induction l as [|b l IH]; intros a o Ha Hf; cbn [fold_m]; [by apply wp_ret|].
  eapply wp_bind; [apply Hf; [done|by left|done]|]. intros a1 o1 K H1. apply IH; [done|].
  intros a' b' o' K' Hb. apply Hf; [by etrans|by right].
Qed.

Lemma wp_all fuel : ∀ id o, wp (all fuel id) (fun _ _ => True) o.
Proof using Type.
  induction fuel as [|fuel IH]; intros id o; cbn [all]; [intros s C; by exists o|]. apply wp_get. intros q _ _.
  apply wp_fold_m; [done|]. intros ps c o1 _ _ _. eapply wp_bind; [apply IH|]. intros more o2 _ _. by apply wp_ret.
Qed.
Lemma wp_contains fuel id k o : wp (contains fuel id k) (fun _ _ => True) o.
Proof using Type. unfold contains. eapply wp_bind; [apply wp_all|]. intros l o1 _ _. by apply wp_ret. Qed.

(** * The routing tables *)

Definition variant_ok (o : Owner) (name : str) (v : Variant (F:=F)) : Prop :=
  o (v_pool v) = Exits (v_protocol v) name ∧ ∃ f, v_forward v = Some f ∧ o (pool_of f) = Exits (v_protocol v) name.
Record region_ok (o : Owner) (r : Region (F:=F)) : Prop := {
  ro_merged : o (merged r) = Merged (caps (username r));
  ro_variants v : v ∈ variants r → variant_ok o (caps (username r)) v
}.
Record tabled (o : Owner) (h : Proxy (F:=F)) : Prop := {
  ta_default : o (default_pool h) = Primary;
  ta_default_forward f : Routing.default_forward h = Some f → o (pool_of f) = Primary;
  ta_pools p i : (p, i) ∈ protocol_pools h → o i = Nobody;
  ta_forwards p f : (p, f) ∈ protocol_forwards h → o (pool_of f) = Nobody;
  ta_regions r : r ∈ regions h → region_ok o r ∧ variants r ≠ []
}.

Lemma variant_kept o o' name v : kept o o' → variant_ok o name v → variant_ok o' name v.
Proof using Type. intros K (H1 & f & Hf & H2). split; [eauto with confined|]. exists f. split; [done|]. eauto with confined. Qed.
Lemma region_kept o o' r : kept o o' → region_ok o r → region_ok o' r.
Proof using Type. intros K [H1 H2]. split; [eauto with confined|]. intros v Hv. eapply variant_kept; eauto. Qed.
Lemma tabled_kept o o' h : kept o o' → tabled o h → tabled o' h.
Proof using Type.
  intros K [H1 H2 H3 H4 H5]. split.
  - eauto with confined.
  - intros f Hf. specialize (H2 f Hf). eauto with confined.
  - intros p i Hi. specialize (H3 p i Hi). eauto with confined.
  - intros p f Hf. specialize (H4 p f Hf). eauto with confined.
  - intros r Hr. destruct (H5 r Hr). split; [by eapply region_kept|done].
Qed.

(** * Building the tables *)

(** A factory makes forwarders for the pools it is given. *)
Record factory_ok (c : ForwardFactory (F:=F)) : Prop := {
  fa_region name i : ∃ f, region_forward c name i = Some f ∧ pool_of f = i;
  fa_default i f : Provider.default_forward c i = Some f → pool_of f = i;
  fa_protocol p i f : protocol_forward c p i = Some f → pool_of f = i
}.

Lemma add_variant_ok o name vs p pool f :
  (∀ v, v ∈ vs → variant_ok o name v) → o pool = Exits p name → o (pool_of f) = Exits p name →
  ∀ v, v ∈ Region_add_variant vs p pool (Some f) → variant_ok o name v.
Proof using Type.
  intros Hvs Hp Hf. induction vs as [|w vs IH]; cbn [Region_add_variant].
  - intros v ->%list_elem_of_singleton. split; [done|]. eauto.
  - case_decide as Hw; intros v [->|Hv]%elem_of_cons.
    + destruct (Hvs w) as [H1 (g & Hg & H2)]; [by left|]. rewrite Hg. split; [done|]. eauto.
    + apply Hvs. by right.
    + apply Hvs. by left.
    + apply IH; [|done]. intros u Hu. apply Hvs. by right.
Qed.
Lemma add_variant_some vs p pool (f : option F) : Region_add_variant vs p pool f ≠ [].
Proof using Type. destruct vs; cbn [Region_add_variant]; [done|]. by case_decide. Qed.

Lemma wp_Region_new name user o : wp (E:=Empty_set) (Region_new name user)
  (fun r o' => region_ok o' r ∧ username r = user ∧ variants r = []) o.
Proof using Type.
  unfold Region_new. eapply wp_bind; [by apply (wp_new_empty (Merged (caps user)))|]. intros m o1 K Hm. cbn beta in Hm. apply wp_ret.
  split; [|done]. split; [done|]. intros v Hv. by apply elem_of_nil in Hv.
Qed.

Lemma wp_Region_add r p pool f o : region_ok o r → o pool = Exits p (caps (username r)) → o (pool_of f) = Exits p (caps (username r)) →
  wp (Region_add r p pool (Some f)) (fun r' o' => region_ok o' r' ∧ username r' = username r ∧ variants r' ≠ []) o.
Proof using Type.
  intros [H1 H2] Hp Hf. unfold Region_add. eapply wp_bind; [by eapply wp_add_child|]. intros _ o1 K _. apply wp_ret.
  split; [|split; [done|apply add_variant_some]]. split; cbn [merged variants username]; [eauto with confined|].
  apply add_variant_ok; [|eauto with confined..]. intros v Hv. eapply variant_kept; eauto.
Qed.

Lemma wp_merge_into e r o : region_ok o e → variants e ≠ [] → region_ok o r → caps (username r) = caps (username e) →
  wp (merge_into e r) (fun e' o' => region_ok o' e' ∧ username e' = username e ∧ variants e' ≠ []) o.
Proof using Type.
  intros He Hne Hr Hn. unfold merge_into.
  eapply (wp_fold_m _ (fun e' o' => region_ok o' e' ∧ username e' = username e ∧ variants e' ≠ [])); [done|].
  intros a p o1 K Hp (Ha & Hu & Hv). cbn beta.
  destruct (proj2 (find_variant_is_Some p (variants r)) Hp) as [v Hf]. pose proof (find_variant_Some _ _ _ Hf) as [Hin <-].
  pose proof (region_kept _ _ _ K Hr) as [_ Hvs]. destruct (Hvs v Hin) as [Hpool (f & Hff & Hpf)].
  unfold Region_pool, Region_forward. rewrite Hf. cbn [mbind option_bind]. rewrite Hff.
  rewrite Hn, <- Hu in Hpool, Hpf.
  eapply wp_bind; [by apply (wp_ret _ (fun i o' => o' = o1 ∧ i = v_pool v))|]. intros i o2 K2 [-> ->].
  eapply wp_weaken; [by apply wp_Region_add|]. intros a' o3 K3 (? & -> & ?). done.
Qed.

Lemma wp_add_region_to r : ∀ rs o, (∀ e, e ∈ rs → region_ok o e ∧ variants e ≠ []) → region_ok o r → variants r ≠ [] →
  wp (add_region_to rs r) (fun rs' o' => ∀ e, e ∈ rs' → region_ok o' e ∧ variants e ≠ []) o.
Proof using Type.
  induction rs as [|e rs IH]; intros o Hrs Hr Hv; cbn [add_region_to].
  { apply wp_ret. intros e ->%list_elem_of_singleton. done. }
  destruct (Hrs e) as [He Hve]; [by left|]. assert (∀ o', kept o o' → ∀ e, e ∈ rs → region_ok o' e ∧ variants e ≠ []) as Hrest.
  { intros o' K d Hd. destruct (Hrs d) as [Hd1 Hd2]; [by right|]. split; [by eapply region_kept|done]. }
  destruct (named (username r) e) eqn:En.
  - eapply wp_bind; [apply wp_merge_into; [done|done|done|]|].
    { apply named_upper in En. by rewrite En. }
    intros e' o1 K (He' & Hu & Hv'). apply wp_ret. intros d [->|Hd]%elem_of_cons; [done|by apply Hrest].
  - eapply wp_bind; [apply IH; [apply Hrest; done|done|done]|]. intros rs' o1 K Hrs'. apply wp_ret.
    intros d [->|Hd]%elem_of_cons; [split; [by eapply region_kept|done]|by apply Hrs'].
Qed.

Lemma wp_add_region h r o : tabled o h → region_ok o r → variants r ≠ [] → wp (add_region h r) (fun h' o' => tabled o' h') o.
Proof using Type.
  intros Ht Hr Hv. unfold add_region. eapply wp_bind; [apply wp_add_region_to; [apply Ht|done|done]|].
  intros rs o1 K Hrs. apply wp_ret. destruct (tabled_kept _ _ _ K Ht) as [H1 H2 H3 H4 _]. by split.
Qed.

(** A region's entry over one pool, registered. *)
Lemma wp_register {A} (k : Proxy (F:=F) → SE Store Empty_set A) Q h name p i f o :
  tabled o h → o i = Exits p (caps name) → pool_of f = i → (∀ h' o', kept o o' → tabled o' h' → wp (k h') Q o') →
  wp (entry ← Region_new name name; entry ← Region_add entry p i (Some f); h' ← add_region h entry; k h') Q o.
Proof using Type.
  intros Ht Hi Hf Hk. eapply wp_bind; [apply wp_Region_new|]. intros e o1 K1 (He & Hu & Hv).
  eapply wp_bind; [apply wp_Region_add; [done|rewrite Hu; eauto with confined|rewrite Hu, Hf; eauto with confined]|].
  intros e2 o2 K2 (He2 & Hu2 & Hv2). assert (kept o o2) as K by (by etrans).
  eapply wp_bind; [apply wp_add_region; [by eapply tabled_kept|done|done]|]. intros h' o3 K3 Hh. apply Hk; [by etrans|done].
Qed.

(** * The provider *)

Record provided (o : Owner) (p : Provider (T:=T) (F:=F)) : Prop := {
  pr_tabled : tabled o (handler p);
  pr_primaries : o (primaries p) = Primary;
  pr_factory : factory_ok (factory p)
}.

Lemma wp_Provider_new c cfg o : factory_ok c → wp (Provider_new c cfg) (fun p o' => provided o' p ∧ factory p = c) o.
Proof using Type.
  intros Hc. unfold Provider_new. eapply wp_bind; [by apply (wp_new_empty Primary)|]. intros i o1 K Hi. cbn beta in Hi. apply wp_ret.
  split; [|done]. split; [|done|done]. split; try done.
  - intros f Hf. cbn in Hf. rewrite (fa_default _ Hc _ _ Hf). done.
  - intros p j Hn. by apply elem_of_nil in Hn.
  - intros p j Hn. by apply elem_of_nil in Hn.
  - intros r Hn. by apply elem_of_nil in Hn.
Qed.

Lemma wp_add p region tunnel o : provided o p → mine Pool.Ssh (caps region) (ssh_proxy region tunnel) →
  wp (add p region tunnel) (fun p' o' => provided o' p' ∧ factory p' = factory p) o.
Proof using Type.
  intros [Ht Hp Hf] Hm. unfold add. eapply wp_bind; [apply (wp_new (Exits Pool.Ssh (caps region))); [done| |]|].
  { split; [done|]. intros x ->%list_elem_of_singleton. done. }
  { apply NoDup_singleton. }
  intros i o1 K1 Hi. cbn beta in Hi. destruct (fa_region _ Hf region i) as (f & Ef & Epf). rewrite Ef.
  apply wp_register; [by eapply tabled_kept|done|done|]. intros h o2 K2 Hh. assert (kept o o2) by (by etrans).
  eapply wp_bind; [apply wp_push; right; split; [eauto with confined|eauto]|]. intros _ o3 K3 _. assert (kept o o3) by (by etrans). apply wp_ret.
  split; [|done]. split; [exact (tabled_kept _ _ _ K3 Hh)|cbn [primaries]; eauto with confined|done].
Qed.

Lemma wp_add_all started : ∀ p o, provided o p → (∀ name t, (name, t) ∈ started → mine Pool.Ssh (caps name) (ssh_proxy name t)) →
  wp (add_all p started) (fun p' o' => provided o' p' ∧ factory p' = factory p) o.
Proof using Type.
  induction started as [|[name t] started IH]; intros p o Hp Hm; cbn [add_all]; [by apply wp_ret|].
  eapply wp_bind; [apply wp_add; [done|apply Hm; by left]|]. intros p1 o1 K (H1 & Ef).
  eapply wp_weaken; [apply IH; [done|intros n u Hin; apply Hm; by right]|]. cbn beta. intros p2 o2 K2 (? & ->). done.
Qed.

Lemma wp_start start_tunnel accounts p o : provided o p →
  (∀ name n platform t, start_tunnel (region_config name n platform) = Some t → mine Pool.Ssh (caps name) (ssh_proxy name t)) →
  wp (start start_tunnel accounts p) (fun r o' => provided o' r.2 ∧ factory r.2 = factory p) o.
Proof using Type.
  intros Hp Hm. unfold start. destruct (group_by_region accounts) as [|e by_region]; [by apply wp_ret|].
  eapply wp_bind; [apply wp_add_all; [done|]|intros p1 o1 K H; by apply wp_ret].
  intros name t (l & _ & Ht)%elem_start_all. by eapply Hm.
Qed.

(** * The VPN pools *)

Abbreviation VpnAccount := (VpnAccount (T:=T)).
Definition pools_owned (o : Owner) (regions : list (str * nat)) : Prop :=
  ∀ name pool, bt_get name regions = Some pool → o pool = Exits Pool.Vpn (caps name).
Definition account_mine (a : VpnAccount) : Prop := mine Pool.Vpn (caps (va_region a)) (proxy_for a).

Lemma pools_kept o o' regions : kept o o' → pools_owned o regions → pools_owned o' regions.
Proof using Type. intros K H name pool Hb. specialize (H _ _ Hb). eauto with confined. Qed.

Lemma wp_attach_pools accounts : ∀ regions o, pools_owned o regions → bt_sorted regions → (∀ a, a ∈ accounts → account_mine a) →
  wp (attach_pools accounts regions) (fun r o' => pools_owned o' r ∧ bt_sorted r) o.
Proof using Type.
  induction accounts as [|a accounts IH]; intros regions o Ho Hs Ha; cbn [attach_pools]; [by apply wp_ret|].
  eapply (wp_bind _ _ (fun r o' => pools_owned o' r.2 ∧ bt_sorted r.2 ∧ o' r.1 = Exits Pool.Vpn (caps (va_region a)))).
  { destruct (bt_get (va_region a) regions) as [pool|] eqn:Eb; [apply wp_ret; cbn [fst snd]; eauto|].
    eapply wp_bind; [by apply (wp_new_empty (Exits Pool.Vpn (caps (va_region a))))|]. intros i o1 K Hi. apply wp_ret. cbn [fst snd].
    split; [|split; [by apply bt_set_sorted|done]]. intros name pool. rewrite bt_get_set. case_decide; [by intros [= <-]; subst name|]. by apply (pools_kept o). }
  intros [pool regions1] o1 K (H1 & H2 & H3). cbn [fst snd] in *.
  eapply (wp_bind _ _ (fun _ _ => True)).
  { destruct (va_ready a); [|by apply wp_ret]. apply wp_push. left. eexists _, _. split; [done|]. apply Ha. by left. }
  intros _ o2 K2 _. apply IH; [by eapply pools_kept|done|]. intros b Hb. apply Ha. by right.
Qed.

Lemma wp_attach_regions c regions : ∀ h o, factory_ok c → tabled o h → (∀ name pool, (name, pool) ∈ regions → o pool = Exits Pool.Vpn (caps name)) →
  wp (attach_regions (region_forward c) regions h) (fun h' o' => tabled o' h') o.
Proof using Type.
  induction regions as [|[name pool] regions IH]; intros h o Hc Ht Hr; cbn [attach_regions]; [by apply wp_ret|].
  destruct (fa_region _ Hc name pool) as (f & Ef & Epf). rewrite Ef.
  apply wp_register; [done|apply Hr; by left|done|]. intros h' o' K Ht'. apply IH; [done|done|].
  intros n q Hin. assert (o q = Exits Pool.Vpn (caps n)) by (apply Hr; by right). eauto with confined.
Qed.

Lemma wp_attach c accounts h o : factory_ok c → tabled o h → (∀ a, a ∈ accounts → account_mine a) →
  wp (attach (region_forward c) accounts h) (fun r o' => tabled o' r.1 ∧ pools_owned o' r.2) o.
Proof using Type.
  intros Hc Ht Ha. unfold attach. eapply wp_bind; [apply wp_attach_pools; [intros n p Hn; done|constructor|done]|].
  intros regions o1 K1 [H1 H2]. eapply wp_bind; [apply wp_attach_regions; [done|by eapply tabled_kept|]|].
  { intros n q Hin. apply H1. by apply bt_get_elem. }
  intros h' o2 K2 H3. apply wp_ret. split; [done|]. by eapply pools_kept.
Qed.

(** The supervisor keeps to the labels. *)
Lemma wp_supervise pools accounts : ∀ o, pools_owned o pools → (∀ a, a ∈ accounts → account_mine a) →
  wp (supervise pools accounts) (fun _ _ => True) o.
Proof using Type.
  induction accounts as [|a accounts IH]; intros o Ho Ha; cbn [supervise]; [by apply wp_ret|].
  eapply (wp_bind _ _ (fun _ _ => True)); [|intros _ o1 K _; apply IH; [by eapply pools_kept|intros b Hb; apply Ha; by right]].
  unfold supervise_one. destruct (bt_get (va_region a) pools) as [pool|] eqn:Eb; [|by apply wp_ret]. specialize (Ho _ _ Eb).
  eapply wp_bind; [apply wp_contains|]. intros present o1 K _. assert (o1 pool = Exits Pool.Vpn (caps (va_region a))) as Hp by eauto with confined.
  destruct (va_ready a), present; try by apply wp_ret.
  - apply wp_push. left. eexists _, _. split; [done|]. apply Ha. by left.
  - apply wp_remove. by rewrite Hp.
Qed.

(** * The program's start *)

Lemma wp_set_route p protocol o : provided o p → wp (set_route p protocol) (fun p' o' => provided o' p' ∧ factory p' = factory p) o.
Proof using Type.
  intros Hp. unfold set_route. eapply wp_bind; [by apply (wp_new_empty Nobody)|]. intros i o1 K Hi. cbn beta in Hi. apply wp_ret.
  destruct Hp as [Ht Hpr Hf]. pose proof (tabled_kept _ _ _ K Ht) as Ht1.
  destruct (protocol_forward (factory p) protocol i) as [f|] eqn:Ef; [|split; [|done]; split; [done|eauto with confined|done]].
  split; [|done]. split; [|cbn [primaries]; eauto with confined|done]. destruct Ht1 as [H1 H2 H3 H4 H5]. split; [done|done| | |done].
  - intros q j [[_ Hj]%list_elem_of_filter|[= _ ->]%list_elem_of_singleton]%elem_of_app; [by eapply H3|done].
  - intros q g [[_ Hg]%list_elem_of_filter|[= _ ->]%list_elem_of_singleton]%elem_of_app; [by eapply H4|]. by rewrite (fa_protocol _ Hf _ _ _ Ef).
Qed.

Lemma wp_build_supervised c vpn start_tunnel accounts o : factory_ok c → (∀ a, a ∈ vpn → account_mine a) →
  (∀ name n platform t, start_tunnel (region_config name n platform) = Some t → mine Pool.Ssh (caps name) (ssh_proxy name t)) →
  wp (build_supervised c vpn start_tunnel accounts) (fun r o' => provided o' r.1 ∧ pools_owned o' r.2) o.
Proof using Type.
  intros Hc Hv Hs. unfold build_supervised. eapply wp_bind; [by apply wp_Provider_new|]. intros p o1 K1 [[Ht Hp Hf] Ef].
  rewrite <- Ef. eapply wp_bind; [by apply wp_attach|]. intros [h pools] o2 K2 [Ht2 Hp2]. cbn [fst snd] in Ht2, Hp2.
  eapply wp_bind; [apply wp_start; [|done]|].
  { split; cbn [handler primaries factory]; [done|eauto with confined|done]. }
  intros [n p2] o3 K3 [H3 _]. cbn [snd] in H3. eapply wp_bind; [by apply wp_set_route|]. intros p3 o4 K4 [H4 _].
  eapply wp_bind; [by apply wp_set_route|]. intros p5 o5 K5 [H5 _]. apply wp_ret. split; [done|].
  apply (pools_kept o2); [|done]. etrans; [exact K3|]. by etrans.
Qed.

(** * What a route reaches *)

(** The exits a request may use that names the region [u] and the protocol [pr]: those of the region
    and the protocol; without a protocol those of the region; if there is no such region, SSH exits
    of any region, and none when a protocol is named. *)
Definition permitted (h : Proxy (F:=F)) (u : str) (pr : option Pool.Protocol) (x : PoolProxy (T:=T)) : Prop :=
  match region h u, pr with
  | Some _, Some p => mine p (caps u) x
  | Some _, None => ∃ p, mine p (caps u) x
  | None, Some _ => False
  | None, None => ∃ name, mine Pool.Ssh name x
  end.

Lemma region_some (h : Proxy (F:=F)) u r : region h u = Some r → r ∈ regions h ∧ caps (username r) = caps u.
Proof using Type.
  unfold region. case_decide; [done|]. intros Hr.
  assert (r ∈ filter (fun r => named u r) (regions h)) as Hin by (destruct (filter _ _); [done|injection Hr as ->; by left]).
  apply list_elem_of_filter in Hin as [Hn Hin]. apply Is_true_true, named_upper in Hn. done.
Qed.

Lemma assoc_elem {A} p (l : list (Pool.Protocol * A)) a : assoc p l = Some a → (p, a) ∈ l.
Proof using Type.
  unfold assoc. intros ([q b] & Hh & ->)%fmap_Some. cbn [fst snd] in *.
  assert ((q, b) ∈ filter (fun e => e.1 = p) l) as Hin by (destruct (filter _ _); [done|injection Hh as ->; by left]).
  by apply list_elem_of_filter in Hin as [<- ?].
Qed.

Lemma find_variant_ok o r p v : region_ok o r → find_variant p (variants r) = Some v → variant_ok o (caps (username r)) v ∧ v_protocol v = p.
Proof using Type. intros [_ H] [Hin <-]%find_variant_Some. auto. Qed.

(** Without a protocol the SSH variant is preferred; there is always one. *)
Lemma Region_forward_label o r p : region_ok o r → variants r ≠ [] →
  match Region_forward r p with
  | Some f => ∃ q, o (pool_of f) = Exits q (caps (username r)) ∧ (∀ w, p = Some w → q = w)
  | None => ∃ w, p = Some w
  end.
Proof using Type.
  intros Hr Hne. unfold Region_forward. destruct p as [w|].
  - destruct (find_variant w (variants r)) as [v|] eqn:Ev; cbn [mbind option_bind]; [|eauto].
    destruct (find_variant_ok _ _ _ _ Hr Ev) as [(_ & f & -> & Hf) <-]. exists (v_protocol v). split; [done|]. by intros w [= <-].
  - assert (∃ v, v ∈ variants r ∧ (match find_variant Pool.Ssh (variants r) with Some v => Some v | None => head (variants r) end) = Some v) as (v & Hin & ->).
    { destruct (find_variant Pool.Ssh (variants r)) as [v|] eqn:Ev; [apply find_variant_Some in Ev as [? _]; eauto|].
      destruct (variants r) as [|v vs]; [done|]. exists v. split; [by left|done]. }
    cbn [mbind option_bind]. destruct (ro_variants _ _ Hr v Hin) as (_ & f & -> & Hf). exists (v_protocol v). by split.
Qed.

(** The forwarder a request is given takes its exits from a pool that lets only those through. *)
Lemma forward_permitted o h u pr f : tabled o h → forward_for h u pr = Some f →
  o (pool_of f) ≠ Unused ∧ ∀ x, lets (o (pool_of f)) x → permitted h u pr x.
Proof using Type.
  intros [_ H2 _ H4 H5]. unfold forward_for, permitted. destruct (region h u) as [r|] eqn:Er; cbn [mbind option_bind].
  - destruct (region_some _ _ _ Er) as [Hin <-]. destruct (H5 r Hin) as [Hr Hne]. pose proof (Region_forward_label o r pr Hr Hne) as Hl.
    destruct (Region_forward r pr) as [g|].
    + destruct Hl as (q & Hq & Hpr). intros [= <-]. rewrite Hq. split; [done|]. cbn [lets]. destruct pr as [w|]; [by rewrite (Hpr w)|eauto].
    + destruct Hl as [w ->]. intros Hf%assoc_elem. by rewrite (H4 _ _ Hf).
  - destruct pr as [w|]; intros Hf; [apply assoc_elem in Hf; by rewrite (H4 _ _ Hf)|by rewrite (H2 _ Hf)].
Qed.

Lemma wp_pool_for h u pr o : tabled o h →
  wp (pool_for h u pr) (fun id o' => o' id ≠ Unused ∧ ∀ x, lets (o' id) x → permitted h u pr x) o.
Proof using Type.
  intros [H1 _ H3 _ H5]. unfold pool_for, permitted.
  assert (∀ (P : PoolProxy → Prop), wp (Pool.new []) (fun id o' => o' id ≠ Unused ∧ ∀ x, lets (o' id) x → P x) o) as Hnew.
  { intros P. eapply wp_weaken; [by apply (wp_new_empty Nobody)|]. cbn beta. intros i o' _ ->. done. }
  destruct (region h u) as [r|] eqn:Er.
  - destruct (region_some _ _ _ Er) as [Hin <-]. destruct (H5 r Hin) as [Hr Hne]. unfold Region_pool. destruct pr as [w|].
    + destruct (find_variant w (variants r)) as [v|] eqn:Ev; [|apply Hnew]. apply wp_ret.
      destruct (find_variant_ok _ _ _ _ Hr Ev) as [[-> _] <-]. done.
    + apply wp_ret. by rewrite (ro_merged _ _ Hr).
  - destruct pr as [w|]; [|apply wp_ret; by rewrite H1].
    destruct (assoc w (protocol_pools h)) as [i|] eqn:Ea; [|apply Hnew]. apply assoc_elem in Ea. apply wp_ret. by rewrite (H3 _ _ Ea).
Qed.

(** The labels bound the graph: merged pools are one above the others. *)
Definition rank_of (o : Owner) (id : nat) : nat := match o id with Merged _ => 1 | _ => 0 end.
Lemma rank_of_small o id : (rank_of o id < 2)%nat.
Proof using Type. unfold rank_of. destruct (o id); lia. Qed.
Lemma confined_child o (s : Store) id q c : confined o s → s !! id = Some q → c ∈ children q →
  (∃ name, o id = Merged name) ∧ ∃ p name, o c = Exits p name.
Proof using Type.
  intros C Hq Hc. pose proof (co_holds _ _ C _ _ Hq) as Hh.
  destruct (o id) as [|p n|n| |]; simpl in Hh; try done; destruct Hh as [H1 H2];
    try (rewrite H1 in Hc; by apply elem_of_nil in Hc). destruct (H2 c Hc). eauto.
Qed.
Lemma confined_exists o (s : Store) id : confined o s → o id ≠ Unused → is_Some (s !! id).
Proof using Type. intros C Hu. destruct (s !! id) as [q|] eqn:Hq; [eauto|]. by apply (co_used _ _ C) in Hq. Qed.
Lemma confined_wf o (s : Store) : confined o s → wf_store (rank_of o) s.
Proof using Type.
  intros C. split.
  - intros id q Hq. by eapply co_unrepeated.
  - intros id q Hq. by eapply co_unrepeated.
  - intros id q c Hq Hc. destruct (confined_child _ _ _ _ _ C Hq Hc) as (_ & p & n & E). by apply (confined_exists o); [|rewrite E].
  - intros id q c Hq Hc. destruct (confined_child _ _ _ _ _ C Hq Hc) as ((n & E1) & p & m & E2). unfold rank_of. rewrite E1, E2. lia.
Qed.

(** ** Later labels *)

(** The pools keep to labels that extend these. *)
Definition keeping (o : Owner) (s : Store) : Prop := ∃ o', kept o o' ∧ confined o' s.

Lemma keeping_look o (s s' : Store) : same_shape s s' → keeping o s → keeping o s'.
Proof using Type. intros H (o' & K & C). exists o'. split; [done|]. by eapply confined_same. Qed.
Lemma keeping_run {E A} (m : SE Store E A) Q o s : (∀ o', kept o o' → wp m (Q o') o') → keeping o s → keeping o (m s).2.
Proof using Type.
  intros Hm (o1 & K & C). specialize (Hm o1 K s C). destruct (m s) as [r s']. destruct Hm as (o2 & K2 & C2 & _). exists o2. split; [by etrans|done].
Qed.
(** A labelled pool can be searched with two levels of fuel. *)
Lemma keeping_searched o (s : Store) id : keeping o s → o id ≠ Unused →
  (∃ rank, wf_store rank s ∧ (rank id < 2)%nat) ∧ is_Some (s !! id).
Proof using Type.
  intros (o' & K & C) Hu. split; [exists (rank_of o'); split; [by apply confined_wf|apply rank_of_small]|].
  apply (confined_exists o'); [done|]. by rewrite K.
Qed.
Lemma keeping_visible o (s : Store) id x : keeping o s → o id ≠ Unused → visible s id x → lets (o id) x.
Proof using Type. intros (o' & K & C) Hu Hv. rewrite <- (K id Hu). by eapply confined_visible. Qed.

(** Every exit's tunnel moves on to a later state: the pools share it. *)
Definition evolve (f : str → T → T) (s : Store) : Store :=
  (fun q => mkPool ((fun x => mkProxy (pp_key x) (f (pp_key x) (pp_tunnel x)) (pp_priority x) (pp_protocol x)) <$> proxies q) (children q) (rotation q)) <$> s.
End Confined.

(** If the exits of each label are so after the change, the pools keep to the labels. *)
Lemma evolve_confined {T} (mine mine' : Pool.Protocol → str → PoolProxy (T:=T) → Prop) f o (s : gmap nat (ProxyPool (T:=T))) :
  (∀ p name x, mine p name x → mine' p name (mkProxy (pp_key x) (f (pp_key x) (pp_tunnel x)) (pp_priority x) (pp_protocol x))) →
  confined mine o s → confined mine' o (evolve f s).
Proof.
  intros Hf [C1 C3 C2]. unfold evolve. split.
  - intros id q'. rewrite lookup_fmap. intros (q & Hq & ->)%fmap_Some. specialize (C1 _ _ Hq).
    destruct (o id) as [|p n|n| |]; simpl in *; try done; destruct C1 as [H1 H2]; (split; [try done; by rewrite H1|]); try done.
    + intros x (y & -> & Hy)%list_elem_of_fmap. by apply Hf, H2.
    + intros x (y & -> & Hy)%list_elem_of_fmap. destruct (H2 y Hy) as [n Hn]. exists n. by apply Hf.
    + by rewrite H2.
  - intros id q'. rewrite lookup_fmap. intros (q & Hq & ->)%fmap_Some. destruct (C3 _ _ Hq) as [Hk Hc]. split; [|done].
    cbn [proxies]. by rewrite <- list_fmap_compose.
  - intros id. rewrite lookup_fmap. intros Hn%fmap_None. by apply C2.
Qed.
Lemma evolve_keeping {T} (mine : Pool.Protocol → str → PoolProxy (T:=T) → Prop) f o s :
  (∀ p name x, mine p name x → mine p name (mkProxy (pp_key x) (f (pp_key x) (pp_tunnel x)) (pp_priority x) (pp_protocol x))) →
  keeping mine o s → keeping mine o (evolve f s).
Proof. intros Hf (o' & K & C). exists o'. split; [done|]. by eapply evolve_confined. Qed.
