(* ===== verification/Program.v ===== *)
(** main.rs: the program put together. The routes that config.rs builds, the handlers of
    proxy/server.rs, the forwarders of forward.rs over the rotating transport, and the supervisor of
    the VPN pools, all over one store of pools; then what this means for a request: through which
    exits it can leave. A request is run to its answer; what it shares with the others at the same
    time, the counters of the pools, may change while it waits. *)
From S2P Require Import Prelude Text Sorting SshAccount SshManager VpnMod Provider Build Confined Pool RequestPath Exit Routing Server Upstream Geo Forward.

Section Program.
Context {T : Type} {TT : Pool.Tunnel T} {H : HeaderLib} {L : LruLib} {W : HttpLib} {J : JsonLib} {B : Type}.

Abbreviation Store := (gmap nat (ProxyPool (T:=T))).
Abbreviation World := (Server.World (T:=T) (L:=L) (X:=FwdState (H:=H) (W:=W) (L:=L))).
Abbreviation M A := (SE World Server.Error A).
Abbreviation Request := (Request (H:=H) (B:=B)).
Abbreviation Proxy := (Proxy (F:=RotatingTransport)).
Abbreviation Account := (VpnMod.VpnAccount (T:=T)).

(** The parameters of Forward and Server. *)
Context (uri_parse : str → option (str * option str)) (wrap_body : B → ReqBody).
Context (resp_status : HttpResponse → Z) (resp_headers : HttpResponse → HeaderMap).
Context (exit_for : T → str → Exit) (Conn : Type) (dial : T → str → Z → str + Conn).
Context (GeoClient : Type) (build_geo : Profile → option GeoClient)
        (http_get : GeoClient → str → Z * option (Z * option str)).
Context (reply : list (Sent (H:=H) (W:=W)) → Sent (H:=H) (W:=W) → Z * (str + HttpResponse)).

(** [impl ForwardFactory for WreqFactory] *)
Definition wreq_factory : ForwardFactory (F:=RotatingTransport) := {|
  Provider.region_forward _ pool := Some (Forward.region_forward pool);
  Provider.default_forward pool := Some (Forward.default_forward pool);
  Provider.protocol_forward protocol pool := Some (Forward.protocol_forward protocol pool)
|}.

(** Time passes: other requests look at the pools, the tunnels change their state, and the supervisor
    makes its round over the accounts as they are then. *)
Record Tick := mkTick { looks : Store → Store; changes : str → T → T; accounts : list Account }.
Definition pass (pools : list (str * nat)) (k : Tick) (s : Store) : Store := (supervise pools (accounts k) (evolve (changes k) (looks k s))).2.

(** What passes while a request waits: [during] until a time of the transport's clock, [polling]
    between two looks of a CONNECT, of which there are at most [polls]. *)
Context (during : Z → Tick) (polls : nat) (polling : nat → Tick).

Definition forwarder (pools : list (str * nat)) (t : RotatingTransport) (r : Request) (target : Target) : M (Response FwdResponse) :=
  Forward.send uri_parse wrap_body resp_status resp_headers exit_for GeoClient build_geo http_get
    2 (fun now => pass pools (during now)) reply t r target.

Definition dial_res (t : T) (host : str) (port : Z) : res str Conn :=
  match dial t host port with inr c => Ok c | inl e => Err e end.

(** One request of a connection, answered by the server. *)
Definition answer (pools : list (str * nat)) (h : Proxy) (r : Request) : M (Response FwdResponse * option Conn) :=
  Server.handle (forwarder pools) Conn dial_res exit_for polls 2 (fun n => pass pools (polling n)) h r.

Inductive Event := Arrives (r : Request) | Passes (k : Tick).
Definition requests (es : list Event) : list Request := omap (fun e => match e with Arrives r => Some r | Passes _ => None end) es.

Fixpoint run (pools : list (str * nat)) (h : Proxy) (es : list Event) (w : World)
    : list (res Server.Error (Response FwdResponse * option Conn)) * World :=
  match es with
  | [] => ([], w)
  | Arrives r :: es =>
      let '(a, w) := answer pools h r w in
      let '(answers, w) := run pools h es w in (a :: answers, w)
  | Passes k :: es => run pools h es (Server.mkWorld (pass pools k (Server.store w)) (exits w) (extra w))
  end.

(** The server starts with empty caches and nothing on the wire. *)
Definition start_world (s : Store) : World :=
  Server.mkWorld s exit_cache_default (mkFwd ∅ 0 0 [] (lru_new capacity) (lru_new capacity)).

(** [main]: the routes are built, the listener is bound, and the server answers what comes. *)
Definition main (listen : str + ()) (vpn : list Account) (start_tunnel : Config → option T) (ssh : list SshAccount.Account) (es : list Event)
    : res str (list (res Server.Error (Response FwdResponse * option Conn)) * World) :=
  match build_supervised wreq_factory vpn start_tunnel ssh ∅ with
  | (Ok (p, pools), s) =>
      match listen with
      | inr _ => Ok (run pools (handler p) es (start_world s))
      | inl err => Err err
      end
  | (Err e, _) => match e with end
  | (Panic, _) => Panic
  | (NoFuel, _) => NoFuel
  end.

(** * Properties *)

(** What is known of the exits: [roster] lists the VPN accounts by name and region, and
    [bridge k u] says that [u] is an address of the local proxy of the exit with key [k]. *)
Context (roster : list (str * str)) (bridge : str → str → Prop).

Definition in_region (p : Pool.Protocol) (name k : str) : Prop :=
  match p with
  | Pool.Ssh => ∃ r, caps r = name ∧ k = Lit "ssh://" ++ r
  | Pool.Vpn => ∃ a r, (a, r) ∈ roster ∧ caps r = name ∧ k = Lit "openvpn://" ++ a
  end.
Definition bridged (k : str) (t : T) : Prop := ∀ u, Pool.proxy_url t = Some u → bridge k u.
(** [x] is an exit of the protocol in the region. *)
Definition mine (p : Pool.Protocol) (name : str) (x : PoolProxy (T:=T)) : Prop :=
  pp_protocol x = p ∧ in_region p name (pp_key x) ∧ bridged (pp_key x) (pp_tunnel x).

(** A client whose traffic goes through the exit with this key. *)
Definition leads (k : str) (c : Client) : Prop :=
  ∃ u px pr, bridge k u ∧ proxy_all u = inr px ∧ build_client pr px = inr c.

Definition account_ok (a : Account) : Prop := (va_name a, va_region a) ∈ roster ∧ bridged (proxy_key a) (va_tunnel a).
Record tick_ok (k : Tick) : Prop := {
  tk_looks s : same_shape s (looks k s);
  tk_changes key t : bridged key t → bridged key (changes k key t);
  tk_accounts a : a ∈ accounts k → account_ok a
}.

Lemma account_is_mine a : account_ok a → account_mine mine a.
Proof using Type. intros [Hr Hb]. split; [done|]. split; [|done]. exists (va_name a), (va_region a). done. Qed.
Lemma wreq_factory_ok : factory_ok t_pool wreq_factory.
Proof using Type. split; [intros name i; eexists; by split|by intros i f [= <-]|by intros p i f [= <-]]. Qed.

Abbreviation keeping := (keeping mine).
Abbreviation tabled := (tabled t_pool).
Abbreviation permitted := (permitted mine).

(** Time keeps to the labels. *)
Lemma pass_keeping o pools k s : pools_owned o pools → tick_ok k → keeping o s → keeping o (pass pools k s).
Proof using Type.
  intros Ho [Hl Hc Ha] Hs%(keeping_look _ _ _ _ (Hl s)). unfold pass. apply (keeping_run mine _ (fun _ _ _ => True)).
  - intros o' K. apply wp_supervise; [by eapply pools_kept|]. intros a Hin. by apply account_is_mine, Ha.
  - apply evolve_keeping; [|done]. intros p name x (Hp & Hr & Hb). split; [done|]. split; [done|]. by apply Hc.
Qed.

Section Running.
Context (o : Owner) (pools : list (str * nat)) (h : Proxy).
Context (Ht : tabled o h) (Hpools : pools_owned o pools) (Hduring : ∀ now, tick_ok (during now)) (Hpolling : ∀ n, tick_ok (polling n)).

(** What holds of the server between two events. *)
Definition sound (w : World) : Prop := keeping o (Server.store w) ∧ cache_ok leads (to_up w).
Definition wire (u : str) (pr : option Pool.Protocol) (w w' : World) : Prop :=
  ∃ ss, f_sent (extra w') = f_sent (extra w) ++ ss ∧
        Forall (fun s => ∃ x, permitted h u pr x ∧ leads (pp_key x) (s_client s)) ss.

Lemma mine_leads p name x : mine p name x → leads_out leads x.
Proof using Type. intros (_ & _ & Hb) u px pr c Hu Hp Hc. exists u, px, pr. split; [by apply Hb|done]. Qed.
Lemma permitted_leads u pr x : permitted h u pr x → leads_out leads x.
Proof using Type.
  unfold Confined.permitted. destruct (region h u), pr as [p|]; [|intros [p Hm]|done|intros [n Hm]]; eauto using mine_leads.
Qed.

(** The pool a forwarder is over can be searched at any time. *)
Lemma keeping_pools_ok t s : o (t_pool t) ≠ Unused → keeping o s → pools_ok 2 t (keeping o) s.
Proof using Type. intros Hu Hs. destruct (keeping_searched _ _ _ _ Hs Hu). by split_and!. Qed.

Lemma forwarder_sound u pr t r target w : forward_for h u pr = Some t → sound w →
  ∃ res w', forwarder pools t r target w = (res, w') ∧ sound w' ∧ wire u pr w w' ∧
    match res with Ok _ | Err _ => True | _ => False end.
Proof using Ht Hpools Hduring.
  intros Hf [Hs Hc]. destruct (forward_permitted mine t_pool o h u pr t Ht Hf) as [Hu Hl].
  assert (∀ now s, pools_ok 2 t (keeping o) s → pools_ok 2 t (keeping o) (pass pools (during now) s)) as Henv.
  { intros now s (_ & _ & Hk). apply keeping_pools_ok; [done|]. by apply pass_keeping. }
  assert (∀ s x, keeping o s → visible s (t_pool t) x → wanted (t_protocol t) x = true → permitted h u pr x ∧ leads_out leads x) as Hallowed.
  { intros s x Hk Hv _. assert (permitted h u pr x) as Hp by (by apply Hl; eapply keeping_visible). split; [done|]. by eapply permitted_leads. }
  unfold forwarder. destruct (Forward.send _ _ _ _ _ _ _ _ _ _ _ t r target w) as [res w'] eqn:E. exists res, w'. split; [done|].
  apply send_up in E as [(_ & -> & ->)|(uri & uhost & rr & up & _ & Hrun & E1 & E2 & E3 & Hres)].
  { split; [done|]. split; [|done]. exists []. by rewrite app_nil_r. }
  unfold Upstream.request in Hrun.
  pose proof (keeping_pools_ok t (Server.store w) Hu Hs) as Hok.
  set (out := mkOutgoing _ _ _ _ _) in Hrun.
  destruct (attempts_loop_spec 2 (fun now => pass pools (during now)) reply t _ (keeping_look mine o) Henv (if retryable (o_method out) then MAX_ATTEMPTS else 1%nat) out
    (to_lowercase (default [] (o_host out))) (Some (o_body out)) [] None (to_up w) Hok) as (r1 & u1 & ss1 & E & Hok1 & _ & _ & Hr1).
  rewrite Hrun in E. injection E as <- <-.
  destruct (attempts_loop_leads 2 (fun now => pass pools (during now)) reply t _ (keeping_look mine o) Henv leads _ Hallowed _ _ _ _ _ _ (to_up w) _ _ Hok Hc Hrun) as (Hc' & ss & Hss & Hall).
  split; [split; [rewrite E1; apply Hok1|]|split; [exists ss; by rewrite E3|]].
  - intros k cc. cbn [clients to_up]. rewrite E2. by apply Hc'.
  - destruct rr as [x|e| |]; [destruct Hres as [y ->]; done|by rewrite Hres|done|done].
Qed.

(** The index page looks at the pools of the regions. *)
Lemma all_runs id s : keeping o s → o id ≠ Unused → ∃ l s', all 2 id s = (Ok l, s') ∧ keeping o s'.
Proof using Type.
  intros Hs Hu. destruct (keeping_searched _ _ _ _ Hs Hu) as ((rank & W0 & Hr) & Hex).
  destruct (all_spec rank 2 id s W0 Hex Hr) as (l & s' & E & Hsh & _). exists l, s'. split; [done|]. by eapply keeping_look.
Qed.

Lemma stats_run rs s : keeping o s → (∀ r, r ∈ rs → o (merged r) ≠ Unused) →
  ∃ ss s', region_stats (F:=RotatingTransport) 2 rs s = (Ok ss, s') ∧ keeping o s'.
Proof using Type.
  revert s. induction rs as [|r rs IH]; intros s Hs Hm; cbn [region_stats]; [by exists [], s|].
  assert (o (merged r) ≠ Unused) as Hr by (apply Hm; by left).
  destruct (all_runs _ s Hs Hr) as (l1 & s1 & E1 & H1), (all_runs _ s1 H1 Hr) as (l2 & s2 & E2 & H2), (all_runs _ s2 H2 Hr) as (l3 & s3 & E3 & H3).
  destruct (IH s3 H3) as (ss & s4 & E4 & H4); [intros r' Hin; apply Hm; by right|]. eexists _, s4. split; [|done].
  unfold region_stat, Region_pool, count, tunnel_count, usable_count, mbind, se_bind, mret, se_ret. by rewrite E1, E2, E3, E4.
Qed.

Lemma index_runs hd w : sound w → ∃ resp w', index_page (R:=FwdResponse) 2 h hd w = (Ok resp, w') ∧ sound w' ∧ f_sent (extra w') = f_sent (extra w).
Proof using Ht.
  intros [Hs Hc]. destruct (stats_run (regions h) (Server.store w) Hs) as (ss & s' & E & Hk).
  { intros r Hr. destruct (ta_regions _ _ _ Ht r Hr) as [[-> _] _]. done. }
  unfold index_page, on_store, stats, mbind, se_bind. rewrite E. eexists _, _. split; [done|]. split; [|done]. by split.
Qed.

(** Which region and protocol a request names. *)
Definition named_by (r : Request) : str * option Pool.Protocol :=
  match uri_host r with
  | Some _ => (auth_username (headers r), None)
  | None => match parse_path (uri_path r) (uri_query r) with
            | Some (route, _) => (route_region route, r_protocol route)
            | None => ([], None)
            end
  end.

Lemma plain_sound r w : is_connect r = false → sound w →
  ∃ resp w', answer pools h r w = (Ok (resp, None), w') ∧ sound w' ∧ wire (named_by r).1 (named_by r).2 w w'.
Proof using Ht Hpools Hduring.
  intros Hr Hw. assert (∀ u pr w', f_sent (extra w') = f_sent (extra w) → wire u pr w w') as Hsilent.
  { intros u pr w' E. exists []. by rewrite E, app_nil_r. }
  assert (∃ (a : res Server.Error (Response FwdResponse)) w', (match uri_host r with
      | Some _ => absolute (forwarder pools) h r | None => rewrite (forwarder pools) 2 h r end) w = (a, w') ∧
    sound w' ∧ wire (named_by r).1 (named_by r).2 w w' ∧ match a with Ok _ | Err _ => True | _ => False end) as (a & w' & E & Hw' & Hwire & Ha).
  { unfold named_by. destruct (uri_host r) as [hst|].
    - unfold absolute. destruct (negb _ && negb _); [exists (Err UnsupportedScheme), w; auto|].
      unfold mbind, se_bind, lift_res. destruct (forward_for h _ None) as [t|] eqn:Ef; [|exists (Err ForwardUnavailable), w; auto].
      cbn [ok_or]. by apply (forwarder_sound _ None).
    - unfold rewrite. destruct (parse_path _ _) as [[route target]|].
      + unfold mbind, se_bind, lift_res. destruct (forward_for h _ _) as [t|] eqn:Ef; [|exists (Err ForwardUnavailable), w; auto].
        cbn [ok_or]. by apply forwarder_sound.
      + destruct (index_runs (hm_get (headers r) (Lit "host")) w Hw) as (resp & w' & E & ? & ?). exists (Ok resp), w'. auto. }
  unfold answer, handle. rewrite Hr. unfold mbind at 1, se_bind at 1, or_error. rewrite E.
  destruct a as [resp|e| |]; [by exists resp, w'|by exists (error_response e), w'|done|done].
Qed.

(** A CONNECT looks for an exit, again and again while none is ready. *)
Lemma select_runs o1 n id s : kept o o1 → o1 id ≠ Unused → keeping o1 s →
  ∃ r s', select n 2 (fun n => pass pools (polling n)) id None s = (r, s') ∧ keeping o1 s' ∧
    match r with
    | Ok (Some c) => candidate_ready c = true ∧ ∃ x, lets mine (o1 id) x ∧ c = to_candidate x
    | Ok None | NoFuel => True
    | _ => False
    end.
Proof using Hpools Hpolling.
  intros K Hu. revert s. induction n as [|n IH]; intros s Hs; cbn [select]; [by exists NoFuel, s|].
  destruct (keeping_searched _ _ _ _ Hs Hu) as ((rank & W0 & Hr) & Hex).
  destruct (filtered_spec rank 2 id None s W0 Hex Hr) as (l0 & s1 & i & E & Hsh & Hrep).
  assert (keeping o1 s1) as Hs1 by (by eapply keeping_look). unfold mbind at 1, se_bind at 1. rewrite E.
  set (l := rotate_left i _). assert (∀ c, c ∈ l → ∃ x, lets mine (o1 id) x ∧ c = to_candidate x) as Hl.
  { intros c. unfold l. rewrite (rotate_left_perm i), sort_by_key_perm. intros Hc.
    destruct (proj1 (proj2 Hrep) c Hc) as (x & [Hv _] & -> & _). exists x. split; [exact (keeping_visible mine o1 s id x Hs Hu Hv)|done]. }
  clearbody l. destruct l as [|c0 l']; [by exists (Ok None), s1|].
  destruct (list_find candidate_ready (c0 :: l')) as [[j c]|] eqn:Ef.
  - apply list_find_Some in Ef as (Hj & Hready & _). apply list_elem_of_lookup_2 in Hj. exists (Ok (Some c)), s1. split; [done|]. split; [done|].
    split; [by apply Is_true_true|]. by apply Hl.
  - unfold mbind, se_bind, modify_st. apply IH. apply pass_keeping; [by eapply pools_kept|done|done].
Qed.

Lemma pool_for_runs o0 u s : kept o o0 → confined mine o0 s →
  ∃ id s' o1, pool_for h u None s = (Ok id, s') ∧ kept o o1 ∧ confined mine o1 s' ∧ o1 id ≠ Unused ∧
    ∀ x, lets mine (o1 id) x → permitted h u None x.
Proof using Ht.
  intros K C. pose proof (wp_pool_for mine t_pool h u None o0 (tabled_kept _ _ _ _ K Ht) s C) as Hp.
  assert (∃ id s', pool_for h u None s = (Ok id, s')) as (id & s' & E).
  { unfold pool_for. destruct (region h u) as [r|]; [|by eexists _, _]. unfold Region_pool. by eexists _, _. }
  rewrite E in Hp. destruct Hp as (o1 & K1 & C1 & Hu & Hl). exists id, s', o1. split; [done|]. split; [by etrans|done].
Qed.

Lemma connect_sound r w : is_connect r = true → sound w →
  ∃ a w', answer pools h r w = (a, w') ∧ sound w' ∧ f_sent (extra w') = f_sent (extra w) ∧
    match a with
    | Ok (_, Some c) => ∃ x host port, permitted h (auth_username (headers r)) None x ∧
        Pool.is_ready (pp_tunnel x) = true ∧ dial (pp_tunnel x) host port = inr c
    | Ok (_, None) | NoFuel => True
    | _ => False
    end.
Proof using Ht Hpools Hpolling.
  intros Hr [Hs Hc]. unfold answer, handle. rewrite Hr. unfold handle_connect.
  destruct (match uri_authority r with Some _ => _ | None => _ end) as [authority|]; [|by eexists _, w].
  destruct (split_authority authority (Lit "https")) as [host port]. set (u := auth_username (headers r)).
  destruct Hs as (o0 & K0 & C0). destruct (pool_for_runs o0 u _ K0 C0) as (id & s1 & o1 & E1 & K & C1 & Hu & Hl).
  unfold mbind at 1, se_bind at 1, on_store at 1. rewrite E1. unfold mbind at 1, se_bind at 1, on_store at 1, pick.
  destruct (select_runs o1 polls id s1 K Hu) as (rc & s2 & E2 & (o2 & K2 & C2) & Hrc); [by exists o1|].
  cbn [Server.store exits extra]. rewrite E2.
  assert (keeping o s2) as Hk by (exists o2; split; [by etrans|done]).
  destruct rc as [[c|]|[]| |]; [|by eexists _, _|done|by eexists _, _].
  destruct Hrc as (Hready & x & Hx & ->). unfold dial_res. destruct (dial _ host port) as [e|conn] eqn:Ed; [by eexists _, _|].
  eexists _, _. split; [reflexivity|]. split; [done|]. split; [done|]. exists x, host, port. split; [by apply Hl|done].
Qed.

(** ** Every event *)

Lemma run_passes es k w : (run pools h (es ++ [Passes k]) w).2 =
  let w' := (run pools h es w).2 in Server.mkWorld (pass pools k (Server.store w')) (exits w') (extra w').
Proof using Type.
  revert w. induction es as [|[r|j] es IH]; intros w; cbn [app run]; [done| |apply IH].
  destruct (answer pools h r w) as [a w1]. specialize (IH w1).
  destruct (run pools h (es ++ [Passes k]) w1), (run pools h es w1). exact IH.
Qed.

Definition event_ok (e : Event) : Prop := match e with Arrives _ => True | Passes k => tick_ok k end.
Definition answered (r : Request) (a : res Server.Error (Response FwdResponse * option Conn)) : Prop :=
  if is_connect r then match a with Ok _ | NoFuel => True | _ => False end
  else match a with Ok (_, None) => True | _ => False end.

Lemma run_sound es w : sound w → Forall event_ok es →
  sound (run pools h es w).2 ∧ Forall2 answered (requests es) (run pools h es w).1.
Proof using Ht Hpools Hduring Hpolling.
  intros Hw Hes. revert w Hw. induction Hes as [|e es He Hes IH]; intros w Hw; [by split; [|constructor]|].
  destruct e as [r|k]; cbn [run].
  - assert (∃ a w1, answer pools h r w = (a, w1) ∧ sound w1 ∧ answered r a) as (a & w1 & E & Hw1 & Ha).
    { unfold answered. destruct (is_connect r) eqn:Er.
      - destruct (connect_sound r w Er Hw) as (a & w1 & E & Hw1 & _ & Ha). exists a, w1. split; [done|]. split; [done|]. by destruct a as [[]| | |].
      - destruct (plain_sound r w Er Hw) as (resp & w1 & E & Hw1 & _). by eexists _, w1. }
    rewrite E. specialize (IH w1 Hw1). destruct (run pools h es w1) as [answers w2]. destruct IH as [H1 H2].
    split; [done|]. cbn [requests omap list_omap]. by constructor.
  - apply IH. destruct Hw as [Hs Hc]. split; [by apply pass_keeping|done].
Qed.
End Running.

(** * The whole program *)

Definition inputs_ok (vpn : list Account) (start_tunnel : Config → option T) : Prop :=
  (∀ a, a ∈ vpn → account_ok a) ∧
  (∀ name n platform t, start_tunnel (region_config name n platform) = Some t → bridged (Lit "ssh://" ++ name) t).

Lemma start_sound vpn start_tunnel ssh : inputs_ok vpn start_tunnel →
  ∃ o p pools s, build_supervised wreq_factory vpn start_tunnel ssh ∅ = (Ok (p, pools), s) ∧
    tabled o (handler p) ∧ pools_owned o pools ∧ sound o (start_world s).
Proof using Type.
  intros [Hv Hs]. destruct (build_supervised_ok wreq_factory vpn start_tunnel ssh) as (_ & p & pools & s & _ & E & _); [by eexists|].
  assert (wp mine (build_supervised wreq_factory vpn start_tunnel ssh) (fun r o' => provided t_pool o' r.1 ∧ pools_owned o' r.2) (fun _ => Unused)) as Hwp.
  { apply wp_build_supervised; [exact wreq_factory_ok|intros a Ha; by apply account_is_mine, Hv|].
    intros name n platform t Ht. split; [done|]. split; [by exists name|]. by eapply Hs. }
  specialize (Hwp ∅). rewrite E in Hwp. destruct Hwp as (o & _ & C & Hp & Ho); [by split|].
  exists o, p, pools, s. split; [done|]. split; [apply Hp|]. split; [done|]. split; [by exists o|]. intros k cc Hk. change ((∅ : gmap str (CachedClient (W:=W))) !! k = Some cc) in Hk. by rewrite lookup_empty in Hk.
Qed.

Context (Hduring : ∀ now, tick_ok (during now)) (Hpolling : ∀ n, tick_ok (polling n)).


(** C1: Requests leave as named. At any time of a run, everything that is sent for a request that
    names a region and a protocol goes out through clients of exits of that protocol in that
    region, retries included; without a protocol, of that region; if the region is unknown, of SSH
    exits, and of none when a protocol was named. A CONNECT is dialled through a ready exit of the
    region of its credentials. *)
Theorem exits_as_named vpn start_tunnel ssh : inputs_ok vpn start_tunnel →
  ∃ p pools s, build_supervised wreq_factory vpn start_tunnel ssh ∅ = (Ok (p, pools), s) ∧
  ∀ es r, Forall event_ok es →
    let w := (run pools (handler p) es (start_world s)).2 in
    (is_connect r = false → ∃ resp w', answer pools (handler p) r w = (Ok (resp, None), w') ∧
       wire (handler p) (named_by r).1 (named_by r).2 w w') ∧
    (is_connect r = true → ∃ a w', answer pools (handler p) r w = (a, w') ∧ f_sent (extra w') = f_sent (extra w) ∧
       match a with
       | Ok (_, Some c) => ∃ x host port, permitted (handler p) (auth_username (headers r)) None x ∧
           Pool.is_ready (pp_tunnel x) = true ∧ dial (pp_tunnel x) host port = inr c
       | _ => True
       end).
Proof using Hduring Hpolling.
  intros Hin. destruct (start_sound vpn start_tunnel ssh Hin) as (o & p & pools & s & E & Ht & Ho & Hw).
  exists p, pools, s. split; [done|]. intros es r Hes w.
  destruct (run_sound o pools (handler p) Ht Ho Hduring Hpolling es (start_world s) Hw Hes) as [Hsound _]. fold w in Hsound. split; intros Hr.
  - destruct (plain_sound o pools (handler p) Ht Ho Hduring r w Hr Hsound) as (resp & w' & ? & _ & ?). eauto.
  - destruct (connect_sound o pools (handler p) Ht Ho Hpolling r w Hr Hsound) as (a & w' & ? & _ & ? & Ha). exists a, w'.
    split; [done|]. split; [done|]. by destruct a as [[? [c|]]| | |].
Qed.
End Program.

(** * A concrete run *)

(** A tunnel that is the URL of its proxy and whether it is ready. *)
#[export] Instance url_tunnel : Pool.Tunnel (str * bool) := {|
  Pool.target_pool t := 1%nat;
  Pool.active_tunnels (t : str * bool) := if t.2 then 1%nat else 0%nat;
  Pool.is_ready (t : str * bool) := t.2;
  Pool.generation t := 1;
  Pool.proxy_url (t : str * bool) := Some t.1
|}.

Definition toy_account (ready : bool) : VpnMod.VpnAccount (T:=str * bool) :=
  mkVpnAccount (Lit "192.0.2.9") (Lit "US") ready (Lit "openvpn://192.0.2.9", ready).
Definition toy_tick : Tick (T:=str * bool) := mkTick (fun s => s) (fun _ t => t) [toy_account true].
Definition toy_starts (c : SshManager.Config) : option (str * bool) := Some (Lit "ssh://" ++ cfg_region c, true).
Definition toy_visit (connect : bool) (path : str) : Request (H:=toy_headers) (B:=str) :=
  mkRequest (if connect then CONNECT else GET) None (if connect then Some (Lit "example.com:443") else None) None path None
    ([] : HeaderMap (HeaderLib:=toy_headers)) (Lit "body").
Definition toy_open (t : str * bool) (host : str) (port : Z) : str + str := inr t.1.
Definition toy_exits (t : str * bool) (host : str) : Exit := mkExit (Lit "9.9.9.9") (Lit "US") (Lit "vpn").

Definition toy_main := main (H:=toy_headers) (L:=toy_lru) (W:=toy_http) (J:=toy_json) toy_uri (fun b => b)
  (fun _ => 200) toy_resp_headers toy_exits str toy_open () (fun _ => Some ()) toy_geo_get toy_reply
  (fun _ => toy_tick) 1 (fun _ => toy_tick) (inr ()) [toy_account false] toy_starts toy_ssh_accounts.
Definition toy_events : list (Event (T:=str * bool) (H:=toy_headers) (B:=str)) :=
  [Arrives (toy_visit false (Lit "/vpn/us/example.com/")); Passes toy_tick;
   Arrives (toy_visit false (Lit "/vpn/us/example.com/")); Arrives (toy_visit false (Lit "/ca/example.com/"));
   Arrives (toy_visit true []); Arrives (toy_visit false (Lit "/"))].

Definition toy_view (a : res Server.Error (Response (FwdResponse (H:=toy_headers) (W:=toy_http)) * option str)) : option (Z * option str) :=
  match a with
  | Ok (Own p, c) => Some (status p, c)
  | Ok (Passed r, c) => Some (p_status r, c)
  | _ => None
  end.

Definition toy_report (r : res str (list (res Server.Error (Response (FwdResponse (H:=toy_headers) (W:=toy_http)) * option str)) * _))
    : list str * list (option (Z * option str)) :=
  match r with
  | Ok (answers, w) => ((fun s => (s_client s).2) <$> f_sent (extra (T:=str * bool) (L:=toy_lru) w), toy_view <$> answers)
  | _ => ([], [])
  end.

(** The VPN exit is not there at first; it is after the supervisor's round. *)
Example toy_main_runs : toy_report (toy_main toy_events) =
  ([Lit "openvpn://192.0.2.9"; Lit "openvpn://192.0.2.9"; Lit "ssh://CA"],
   [Some (502, None); Some (200, None); Some (200, None); Some (200, Some (Lit "ssh://CA")); Some (200, None)]).
Proof. vm_compute. reflexivity. Qed.

(** The address of an exit's proxy is its key. *)
Definition toy_roster : list (str * str) := [(Lit "192.0.2.9", Lit "US")].
Definition toy_bridge (k u : str) : Prop := u = k.

Lemma toy_account_ok ready : account_ok toy_roster toy_bridge (toy_account ready).
Proof. split; [by left|by intros u [= <-]]. Qed.
Lemma toy_tick_ok : tick_ok toy_roster toy_bridge toy_tick.
Proof. split; [done|done|]. intros a ->%list_elem_of_singleton. apply toy_account_ok. Qed.
Lemma toy_inputs_ok : inputs_ok toy_roster toy_bridge [toy_account false] toy_starts.
Proof. split; [intros a ->%list_elem_of_singleton; apply toy_account_ok|]. intros name n platform t [= <-] u [= <-]. done. Qed.
Lemma toy_run_ok : Forall (event_ok (H:=toy_headers) toy_roster toy_bridge) toy_events.
Proof. unfold toy_events. repeat first [apply Forall_nil_2|apply Forall_cons_2]; try exact I. apply toy_tick_ok. Qed.


(** What is sent for /vpn/us/ goes through the VPN exit of the region. *)
Lemma exits_as_named_witness :
  ∃ p pools s, build_supervised wreq_factory [toy_account false] toy_starts toy_ssh_accounts ∅ = (Ok (p, pools), s) ∧
  let r := toy_visit false (Lit "/vpn/us/example.com/") in
  let w := (run (L:=toy_lru) (W:=toy_http) (J:=toy_json) toy_uri (fun b => b) (fun _ => 200) toy_resp_headers toy_exits str toy_open
              () (fun _ => Some ()) toy_geo_get toy_reply (fun _ => toy_tick) 1 (fun _ => toy_tick) pools (handler p) [Passes toy_tick] (start_world s)).2 in
  ∃ resp w' ss, answer toy_uri (fun b => b) (fun _ => 200) toy_resp_headers toy_exits str toy_open () (fun _ => Some ()) toy_geo_get toy_reply
      (fun _ => toy_tick) 1 (fun _ => toy_tick) pools (handler p) r w = (Ok (resp, None), w') ∧
    f_sent (extra w') = f_sent (extra w) ++ ss ∧ Forall (fun s => (s_client s).2 = Lit "openvpn://192.0.2.9") ss.
Proof.
  destruct (exits_as_named (H:=toy_headers) (L:=toy_lru) (W:=toy_http) (J:=toy_json) toy_uri (fun b => b)
    (fun _ => 200) toy_resp_headers toy_exits str toy_open () (fun _ => Some ()) toy_geo_get toy_reply
    (fun _ => toy_tick) 1 (fun _ => toy_tick) toy_roster toy_bridge (fun _ => toy_tick_ok) (fun _ => toy_tick_ok)
    [toy_account false] toy_starts toy_ssh_accounts toy_inputs_ok) as (p & pools & s & E & Hrun).
  exists p, pools, s. split; [exact E|]. cbv zeta.
  destruct (Hrun [Passes toy_tick] (toy_visit false (Lit "/vpn/us/example.com/"))) as [Hplain _]; [apply Forall_cons_2; [apply toy_tick_ok|apply Forall_nil_2]|].
  destruct (Hplain eq_refl) as (resp & w' & Ha & ss & Hss & Hall). exists resp, w', ss. split; [exact Ha|]. split; [exact Hss|].
  assert (bool_decide (is_Some (region (handler p) (Lit "US")) ) = true) as Hr.
  { transitivity (match (build_supervised (T:=str * bool) wreq_factory [toy_account false] toy_starts toy_ssh_accounts ∅).1 with
      | Ok (p, _) => bool_decide (is_Some (region (handler p) (Lit "US"))) | _ => false end); [by rewrite E|vm_compute; reflexivity]. }
  apply bool_decide_eq_true_1 in Hr as [e He].
  eapply Forall_impl; [exact Hall|]. intros snt (x & Hp & u & px & pr & Hu & Hpx & Hc).
  match type of Hp with permitted _ _ (fst ?n) _ _ => assert (n = (Lit "US", Some Pool.Vpn)) as Hn by (vm_compute; reflexivity) end.
  rewrite Hn in Hp. cbn [fst snd] in Hp. unfold permitted in Hp. rewrite He in Hp. destruct Hp as (_ & (a & r & Hin & _ & Hk) & _).
  apply list_elem_of_singleton in Hin. injection Hin as -> ->. unfold toy_bridge in Hu. subst u.
  injection Hpx as <-. injection Hc as <-. exact Hk.
Defined.
