(* ===== verification/Served.v ===== *)
(** What the program owes a user: a VPN account that can be used serves its region. The route of a
    region and protocol leads to the pool that the supervisor fills, through all of the start; and
    after one round of the supervisor the account is in it. *)
From S2P Require Import Prelude Text Sorting SshAccount SshManager VpnMod Provider Build Confined Pool RequestPath Exit Routing Server Upstream Geo Forward Program.

(** * Routes stay *)

Section Routes.
Context {T F : Type} {TT : Pool.Tunnel T}.
Abbreviation Store := (gmap nat (ProxyPool (T:=T))).

(** A variant with a forwarder survives every change of a region. *)
Definition holds_on (r r' : Region (F:=F)) : Prop :=
  username r' = username r ∧ ∀ v f, v ∈ variants r → v_forward v = Some f → v ∈ variants r'.
#[export] Instance holds_on_preorder : PreOrder holds_on.
Proof using Type.
  split; [by intros r|]. intros r1 r2 r3 [U1 H1] [U2 H2]. split; [congruence|]. intros v f Hv Hf. eapply H2; [by eapply H1|done].
Qed.

Lemma add_variant_keeps (vs : list (Variant (F:=F))) p pool f v g : v ∈ vs → v_forward v = Some g → v ∈ Region_add_variant vs p pool f.
Proof using Type.
  intros Hv Hg. induction vs as [|w vs IH]; [by apply elem_of_nil in Hv|]. cbn [Region_add_variant].
  apply elem_of_cons in Hv as [<-|Hv]; case_decide; [rewrite Hg; by left|by left|by right|right; by apply IH].
Qed.
Lemma add_variant_new (vs : list (Variant (F:=F))) p pool f : p ∉ v_protocol <$> vs → mkVariant p pool f ∈ Region_add_variant vs p pool f.
Proof using Type.
  induction vs as [|w vs IH]; intros Hn; cbn [Region_add_variant]; [by left|]. rewrite fmap_cons in Hn. apply not_elem_of_cons in Hn as [Hw Hn].
  rewrite decide_False; [right; by apply IH|]. unfold has_protocol. congruence.
Qed.

Lemma Region_add_holds_on r p pool f (s : Store) r' s' : Region_add r p pool f s = (Ok r', s') →
  holds_on r r' ∧ variants r' = Region_add_variant (variants r) p pool f.
Proof using Type.
  unfold Region_add. intros ([] & s1 & _ & [= <- _])%se_bind_ok. split; [|done]. split; [done|].
  intros v g Hv Hg. by eapply add_variant_keeps.
Qed.

Lemma merge_into_holds_on r (ps : list Pool.Protocol) : ∀ e (s : Store) e' s',
  fold_m (fun e p => pool ← Region_pool r (Some p); Region_add e p pool (Region_forward r (Some p))) e ps s = (Ok e', s') → holds_on e e'.
Proof using Type.
  induction ps as [|p ps IH]; intros e s e' s'; cbn [fold_m]; [by intros [= <- _]|].
  intros (e1 & s1 & (pool & s2 & _ & [H1 _]%Region_add_holds_on)%se_bind_ok & H2)%se_bind_ok. etrans; [exact H1|]. by eapply IH.
Qed.

Definition all_hold_on (rs rs' : list (Region (F:=F))) : Prop := ∀ r, r ∈ rs → ∃ r', r' ∈ rs' ∧ holds_on r r'.

Lemma add_region_to_holds_on (r : Region (F:=F)) rs : ∀ (s : Store) rs' s', add_region_to rs r s = (Ok rs', s') → all_hold_on rs rs'.
Proof using Type.
  induction rs as [|e rs IH]; intros s rs' s'; cbn [add_region_to]; [intros _ x Hx; by apply elem_of_nil in Hx|].
  destruct (named (username r) e).
  - intros (e' & s1 & He%merge_into_holds_on & [= <- _])%se_bind_ok x [->|Hx]%elem_of_cons; [exists e'; by split; [left|]|exists x; by split; [right|]].
  - intros (rs1 & s1 & H1 & [= <- _])%se_bind_ok x [->|Hx]%elem_of_cons; [exists e; by split; [left|]|].
    destruct (IH _ _ _ H1 x Hx) as (x' & ? & ?). exists x'. by split; [right|].
Qed.
Lemma add_region_to_new (r : Region (F:=F)) rs : ∀ (s : Store), (∀ e, e ∈ rs → named (username r) e = false) → add_region_to rs r s = (Ok (rs ++ [r]), s).
Proof using Type.
  induction rs as [|e rs IH]; intros s Hn; cbn [add_region_to]; [done|]. rewrite (Hn e) by (by left).
  unfold mbind, se_bind. rewrite IH; [done|]. intros d Hd. apply Hn. by right.
Qed.

(** The route of a region and protocol, and where it leads. *)
Definition routed (h : Proxy (F:=F)) (p : Pool.Protocol) (name : str) (pool : nat) (f : F) : Prop :=
  ∃ r v, r ∈ regions h ∧ caps (username r) = caps name ∧ v ∈ variants r ∧ v_protocol v = p ∧ v_pool v = pool ∧ v_forward v = Some f.

Lemma routed_holds_on h h' p name pool f : all_hold_on (regions h) (regions h') → routed h p name pool f → routed h' p name pool f.
Proof using Type.
  intros Hall (r & v & Hr & Hn & Hv & Hp & Hpool & Hf). destruct (Hall r Hr) as (r' & Hr' & Hu & Hk).
  exists r', v. rewrite Hu. split_and!; try done. by eapply Hk.
Qed.

Lemma add_region_holds_on h r (s : Store) h' s' : add_region h r s = (Ok h', s') → all_hold_on (regions h) (regions h').
Proof using Type. unfold add_region. intros (rs & s1 & H & [= <- _])%se_bind_ok. by eapply add_region_to_holds_on. Qed.

Lemma routed_forward rank (s : Store) h p name u pool f : wf_proxy rank s h → routed h p name pool f → u ≠ [] → caps u = caps name →
  forward_for h u (Some p) = Some f.
Proof using Type.
  intros [_ Wr Wn] (r & v & Hr & Hn & Hv & <- & _ & Hf) Hu Hc. unfold forward_for.
  rewrite (region_lookup h u Wn Hu r Hr) by (apply named_upper; congruence). cbn [mbind option_bind]. unfold Region_forward.
  rewrite (find_variant_unique _ _ (wr_protocols _ _ _ (Wr r Hr)) Hv). cbn [mbind option_bind]. by rewrite Hf.
Qed.

(** ** Through the start *)

Lemma add_holds_on p region tunnel (s : Store) p' s' : add (F:=F) p region tunnel s = (Ok p', s') →
  all_hold_on (regions (handler p)) (regions (handler p')).
Proof using Type.
  unfold add. intros (i & s1 & _ & (e & s2 & _ & (e2 & s3 & _ & (h & s4 & Ha & ([] & s5 & _ & [= <- _])%se_bind_ok)%se_bind_ok)%se_bind_ok)%se_bind_ok)%se_bind_ok.
  by eapply add_region_holds_on.
Qed.

Lemma all_hold_on_refl rs : all_hold_on rs rs.
Proof using Type. intros r Hr. by exists r. Qed.
Lemma all_hold_on_trans rs1 rs2 rs3 : all_hold_on rs1 rs2 → all_hold_on rs2 rs3 → all_hold_on rs1 rs3.
Proof using Type. intros H1 H2 r Hr. destruct (H1 r Hr) as (r' & Hr' & K1). destruct (H2 r' Hr') as (r2 & ? & ?). exists r2. split; [done|by etrans]. Qed.

Lemma add_all_holds_on started : ∀ p (s : Store) p' s', add_all (F:=F) p started s = (Ok p', s') →
  all_hold_on (regions (handler p)) (regions (handler p')).
Proof using Type.
  induction started as [|[region tunnel] started IH]; intros p s p' s'; cbn [add_all]; [intros [= <- _]; apply all_hold_on_refl|].
  intros (p1 & s1 & H1%add_holds_on & H2)%se_bind_ok. eapply all_hold_on_trans; [exact H1|]. by eapply IH.
Qed.

Lemma start_holds_on start_tunnel accounts p (s : Store) r s' : start (F:=F) start_tunnel accounts p s = (Ok r, s') →
  all_hold_on (regions (handler p)) (regions (handler r.2)).
Proof using Type.
  unfold start. destruct (group_by_region accounts); [intros [= <- _]; apply all_hold_on_refl|].
  intros (p' & s1 & H & [= <- _])%se_bind_ok. by eapply add_all_holds_on.
Qed.

Lemma set_route_regions p protocol (s : Store) p' s' : set_route (F:=F) p protocol s = (Ok p', s') →
  regions (handler p') = regions (handler p) ∧ factory p' = factory p.
Proof using Type. unfold set_route. intros (i & s1 & _ & [= <- _])%se_bind_ok. by destruct (Provider.protocol_forward _ _ _). Qed.

Abbreviation Account := (VpnMod.VpnAccount (T:=T)).

(** The pools of the supervisor: one for the region of each account, and no other. *)
Lemma attach_pools_regions accounts : ∀ regions (s : Store) regions' s',
  attach_pools (T:=T) accounts regions s = (Ok regions', s') → bt_sorted regions →
  bt_sorted regions' ∧ (∀ name, is_Some (bt_get name regions') ↔ is_Some (bt_get name regions) ∨ ∃ a, a ∈ accounts ∧ va_region a = name).
Proof using Type.
  induction accounts as [|a accounts IH]; intros regions s regions' s'; cbn [attach_pools].
  { intros [= <- _] Hs. split; [done|]. intros name. split; [by left|]. intros [?|(a & Hn & _)]; [done|by apply elem_of_nil in Hn]. }
  intros ([pool regions1] & s1 & H1 & ([] & s2 & _ & H2)%se_bind_ok)%se_bind_ok Hs.
  assert (bt_sorted regions1 ∧ ∀ name, is_Some (bt_get name regions1) ↔ is_Some (bt_get name regions) ∨ va_region a = name) as [Hs1 Hn1].
  { destruct (bt_get (va_region a) regions) as [p|] eqn:Eb.
    - injection H1 as _ <- _. split; [done|]. intros name. split; [by left|]. intros [?|<-]; [done|by rewrite Eb].
    - apply se_bind_ok in H1 as (i & s3 & _ & [= _ <- _]). split; [by apply bt_set_sorted|]. intros name. rewrite bt_get_set.
      case_decide; [subst name; split; [by right|eauto]|]. split; [by left|]. intros [?|?]; [done|congruence]. }
  destruct (IH _ _ _ _ H2 Hs1) as [Hs2 Hn2]. split; [done|]. intros name. rewrite Hn2, Hn1. split.
  - intros [[?|<-]|(b & ? & <-)]; [by left|right; exists a; by split; [left|]|right; exists b; by split; [right|]].
  - intros [?|(b & [->|?]%elem_of_cons & <-)]; [by left; left|by left; right|right; eauto].
Qed.

(** The entry of a region that is not in the tables yet. *)
Lemma register_routed h name p pool f (s s1 s2 s3 : Store) e e2 h' : (∀ e, e ∈ regions h → caps (username e) ≠ caps name) →
  Region_new name name s = (Ok e, s1) → Region_add (F:=F) e p pool (Some f) s1 = (Ok e2, s2) → add_region h e2 s2 = (Ok h', s3) →
  routed h' p name pool f ∧ all_hold_on (regions h) (regions h') ∧ ∀ e, e ∈ regions h' → e ∈ regions h ∨ username e = name.
Proof using Type.
  intros Hn (m & s4 & _ & [= <- <-])%se_bind_ok [[Hu _] Hv]%Region_add_holds_on H.
  cbn [variants Region_add_variant] in Hv. cbn [username] in Hu. unfold add_region in H.
  assert (∀ e, e ∈ regions h → named (username e2) e = false) as Hne.
  { intros e He. apply not_true_iff_false. rewrite named_upper, Hu. by apply Hn. }
  rewrite (se_bind_eq _ _ _ _ _ (add_region_to_new e2 (regions h) s2 Hne)) in H. injection H as <- _. cbn [regions]. split; [|split].
  - exists e2, (mkVariant p pool (Some f)). rewrite Hu, Hv. split_and!; try done; [apply elem_of_app; right; by left|by left].
  - intros r Hr. exists r. split; [apply elem_of_app; by left|done].
  - intros d [Hd|Hd%list_elem_of_singleton]%elem_of_app; [by left|right; by subst d].
Qed.

Definition apart (regions : list (str * nat)) : Prop := NoDup ((fun e => caps e.1) <$> regions).

Lemma attach_regions_routed (c : ForwardFactory (F:=F)) regions : ∀ h (s : Store) h' s',
  (∀ name i, is_Some (Provider.region_forward c name i)) → apart regions → (∀ e x, e ∈ Routing.regions h → x ∈ regions → caps (username e) ≠ caps x.1) →
  attach_regions (Provider.region_forward c) regions h s = (Ok h', s') →
  all_hold_on (Routing.regions h) (Routing.regions h') ∧
  ∀ name pool, (name, pool) ∈ regions → ∃ f, Provider.region_forward c name pool = Some f ∧ routed h' Pool.Vpn name pool f.
Proof using Type.
  induction regions as [|[name pool] regions IH]; intros h s h' s' Hc Hnd Hn; cbn [attach_regions].
  { intros [= <- _]. split; [apply all_hold_on_refl|]. intros ? ? Hx. by apply elem_of_nil in Hx. }
  destruct (Hc name pool) as [f Ef]. rewrite Ef. unfold apart in Hnd. rewrite fmap_cons in Hnd. apply NoDup_cons in Hnd as [Hna Hnd].
  intros (e & s1 & E1 & (e2 & s2 & E2 & (h1 & s3 & E3 & E4)%se_bind_ok)%se_bind_ok)%se_bind_ok.
  destruct (register_routed h name Pool.Vpn pool f s s1 s2 s3 e e2 h1) as (R1 & K1 & N1); [intros d Hd; apply (Hn d (name, pool) Hd); by left|done|done|done|].
  destruct (IH h1 s3 h' s' Hc Hnd) as [K2 R2]; [|exact E4|].
  { intros d x Hd Hx. destruct (N1 d Hd) as [Hd'|Hu]; [apply (Hn d x Hd'); by right|]. rewrite Hu. intros Heq. apply Hna.
    apply list_elem_of_fmap. exists x. split; [exact Heq|done]. }
  split; [by eapply all_hold_on_trans|]. intros n q [[= -> ->]|Hin]%elem_of_cons; [|by apply R2].
  exists f. split; [done|]. by eapply routed_holds_on.
Qed.

(** After the start the route of every account's region leads to the pool of the supervisor. *)
Lemma build_routed (c : ForwardFactory (F:=F)) vpn start_tunnel ssh (p : Provider (T:=T) (F:=F)) pools (s : Store) :
  (∀ name i, is_Some (Provider.region_forward c name i)) →
  (∀ a b : Account, a ∈ vpn → b ∈ vpn → caps (va_region a) = caps (va_region b) → va_region a = va_region b) →
  build_supervised c vpn start_tunnel ssh ∅ = (Ok (p, pools), s) →
  ∀ a, a ∈ vpn → ∃ pool f, bt_get (va_region a) pools = Some pool ∧ Provider.region_forward c (va_region a) pool = Some f ∧
    routed (handler p) Pool.Vpn (va_region a) pool f.
Proof using Type.
  intros Hc Hinj. unfold build_supervised.
  intros (p0 & s0 & E0 & ([h1 pools1] & s1 & E1 & ([n p2] & s2 & E2 & (p3 & s3 & E3 & (p4 & s4 & E4 & [= <- <- _])%se_bind_ok)%se_bind_ok)%se_bind_ok)%se_bind_ok)%se_bind_ok a Ha.
  unfold Provider_new in E0. apply se_bind_ok in E0 as (i & s5 & _ & [= <- _]). cbn [handler Proxy_new] in E1.
  unfold attach in E1. apply se_bind_ok in E1 as (rs & s6 & A1 & (h & s7 & A2 & [= <- <- _])%se_bind_ok).
  destruct (attach_pools_regions _ _ _ _ _ A1) as [Hs Hn]; [constructor|].
  assert (apart rs) as Hap.
  { unfold apart. apply NoDup_fmap_2_strong; [|by apply (NoDup_fmap_1 fst), sorted_names].
    intros [n1 q1] [n2 q2] H1 H2 Heq. cbn [fst] in Heq. apply (bt_get_elem _ _ _ Hs) in H1, H2.
    destruct (proj1 (Hn n1)) as [[? ?]|(b1 & B1 & <-)]; [by exists q1|done|]. destruct (proj1 (Hn n2)) as [[? ?]|(b2 & B2 & <-)]; [by exists q2|done|].
    rewrite (Hinj b1 b2 B1 B2 Heq) in *. congruence. }
  assert (∀ (e : Region (F:=F)) (x : str * nat), e ∈ Routing.regions (Proxy_new i (Provider.default_forward c i)) → x ∈ rs → caps (username e) ≠ caps x.1) as Hnone
    by (intros e x He; by apply elem_of_nil in He).
  destruct (attach_regions_routed c rs _ s6 h s7 Hc Hap Hnone A2) as [_ R].
  destruct (proj2 (Hn (va_region a))) as [pool Hpool]; [right; by exists a|].
  destruct (R (va_region a) pool) as (f & Hf & Hr); [by apply bt_get_elem|]. exists pool, f. split; [done|]. split; [done|].
  apply start_holds_on in E2. apply set_route_regions in E3 as [E3 _]. apply set_route_regions in E4 as [E4 _].
  apply (routed_holds_on (handler p2)); [rewrite E4, E3; apply all_hold_on_refl|]. by apply (routed_holds_on h); [exact E2|].
Qed.
End Routes.

(** * A usable account serves its region *)

Section Served.
Context {T : Type} {TT : Pool.Tunnel T} {TL : Pool.TunnelLaws T} {H : HeaderLib} {L : LruLib} {W : HttpLib} {J : JsonLib} {B : Type}.
Context (uri_parse : str → option (str * option str)) (wrap_body : B → ReqBody).
Context (resp_status : HttpResponse → Z) (resp_headers : HttpResponse → HeaderMap).
Context (exit_for : T → str → Exit) (Conn : Type) (dial : T → str → Z → str + Conn).
Context (GeoClient : Type) (build_geo : Profile → option GeoClient)
        (http_get : GeoClient → str → Z * option (Z * option str)).
Context (reply : list (Sent (H:=H) (W:=W)) → Sent (H:=H) (W:=W) → Z * (str + HttpResponse)).
Context (during : Z → Tick (T:=T)) (polls : nat) (polling : nat → Tick (T:=T)) (roster : list (str * str)) (bridge : str → str → Prop).

Abbreviation mine := (Program.mine roster bridge).
Abbreviation tick_ok := (Program.tick_ok roster bridge).

(** The pools share the tunnels of the accounts, whose names are distinct. *)
Definition shares (k : Tick (T:=T)) : Prop :=
  NoDup (va_name <$> accounts k) ∧ ∀ a t, a ∈ accounts k → changes k (proxy_key a) t = va_tunnel a.
(** The library takes every proxy, and the network answers. *)
Definition network_up : Prop :=
  (∀ u, ∃ px, proxy_all u = inr px) ∧ (∀ p px, ∃ c, build_client p px = inr c) ∧ ∀ log s, ∃ d resp, reply log s = (d, inr resp).

Lemma same_name (k : Tick (T:=T)) a b : shares k → a ∈ accounts k → b ∈ accounts k → proxy_key a = proxy_key b → va_tunnel a = va_tunnel b.
Proof using Type. intros [_ Hc] Ha Hb E. rewrite <- (Hc a (va_tunnel a) Ha), <- (Hc b (va_tunnel a) Hb). by rewrite E. Qed.

(** After a round of the supervisor the account is in its region's pool, with the tunnel it has. *)
Lemma pass_serves o pools k s a pool : keeping mine o s → pools_owned o pools → tick_ok k → shares k →
  a ∈ accounts k → va_ready a = true → bt_get (va_region a) pools = Some pool →
  ∃ x, visible (pass pools k s) pool x ∧ pp_protocol x = Pool.Vpn ∧
    ∀ y, visible (pass pools k s) pool y → pp_key y = pp_key x → pp_tunnel y = va_tunnel a.
Proof using Type.
  intros Hkeep Ho Hk Hsh Ha Hready Hb. destruct (keeping_look _ _ _ _ (tk_looks _ _ _ Hk s) Hkeep) as (o1 & K1 & C1). pose proof (pools_kept _ _ _ K1 Ho) as Ho1.
  set (mine' := fun p name (x : PoolProxy (T:=T)) => mine p name x ∧ ∀ b, b ∈ accounts k → pp_key x = proxy_key b → pp_tunnel x = va_tunnel b).
  assert (confined mine' o1 (evolve (changes k) (looks k s))) as C2.
  { apply (evolve_confined mine); [|done]. intros p name x (Hp & Hr & Hbr). split.
    - split; [done|]. split; [done|]. by apply (tk_changes _ _ _ Hk).
    - intros b Hin Hkey. cbn [pp_key pp_tunnel] in *. rewrite Hkey. by apply Hsh. }
  assert (supervised (rank_of o1) pools (evolve (changes k) (looks k s))) as Hsv.
  { split; [by eapply confined_wf|]. intros name p Hp. specialize (Ho1 _ _ Hp).
    destruct (confined_exists _ _ _ p C2) as [q Hq]; [by rewrite Ho1|]. exists q. split; [done|].
    pose proof (co_holds _ _ _ C2 _ _ Hq) as Hh. rewrite Ho1 in Hh. apply Hh. }
  destruct (supervise_ok _ _ _ (accounts k) Hsv (proj1 Hsh)) as (s' & E & _ & Hin & _).
  assert (∀ b, b ∈ accounts k → account_mine mine' b) as Hmine.
  { intros b Hin'. split; [by apply account_is_mine, Hk|]. intros c Hc Hkey. by apply (same_name k b c). }
  pose proof (wp_supervise mine' pools (accounts k) o1 Ho1 Hmine _ C2) as Hwp. rewrite E in Hwp. destruct Hwp as (o2 & K2 & C3 & _).
  assert (o2 pool = Exits Pool.Vpn (caps (va_region a))) as El by (apply (pools_kept _ _ _ K2 Ho1 _ _ Hb)).
  assert (∀ y, visible s' pool y → mine' Pool.Vpn (caps (va_region a)) y) as Hvis.
  { intros y Hy. pose proof (confined_visible mine' o2 s' pool y C3 Hy) as Hl. by rewrite El in Hl. }
  unfold pass. rewrite E. cbn [snd].
  pose proof (proj2 (Hin a pool Ha Hb) Hready) as Hkey.
  unfold pool_keys in Hkey. destruct (s' !! pool) as [q|] eqn:Hq; [|by apply elem_of_nil in Hkey].
  apply list_elem_of_fmap in Hkey as (x & Ex & Hx). pose proof (leaf_visible s' pool q x Hq Hx) as Hv.
  exists x. split; [done|]. split; [apply (Hvis x Hv)|]. intros y Hy Ey. apply (Hvis y Hy); [done|]. by rewrite Ey, <- Ex.
Qed.

Abbreviation answer := (Program.answer uri_parse wrap_body resp_status resp_headers exit_for Conn dial GeoClient build_geo http_get reply during polls polling).
Abbreviation run := (Program.run uri_parse wrap_body resp_status resp_headers exit_for Conn dial GeoClient build_geo http_get reply during polls polling).
Abbreviation sound := (Program.sound roster bridge).
Context (Hduring : ∀ now, tick_ok (during now)) (Hpolling : ∀ n, tick_ok (polling n)).

(** A forwarder over a pool with a ready exit passes on what the network answers. *)
Lemma forwarder_serves o pools t r target w x : pools_owned o pools → o (t_pool t) ≠ Unused → sound o w → network_up →
  is_Some (uri_parse (uri_text target)) → visible (store w) (t_pool t) x → wanted (t_protocol t) x = true →
  (∀ y, visible (store w) (t_pool t) y → pp_key y = pp_key x → Pool.is_ready (pp_tunnel y) = true) →
  ∃ resp w', Program.forwarder uri_parse wrap_body resp_status resp_headers exit_for GeoClient build_geo http_get reply during pools t r target w
             = (Ok (Passed resp), w').
Proof using TL.
  intros Ho Hu [Hs _] (Hpx & Hbc & Hreply) [[uri uhost] Euri] Hv Hw Hy. unfold Program.forwarder.
  destruct (Forward.send _ _ _ _ _ _ _ _ _ _ _ t r target w) as [res w'] eqn:E.
  apply send_up in E as [(En & _)|(uri' & uhost' & rr & up & _ & Hrun & _ & _ & _ & Hres)]; [congruence|].
  pose proof (keeping_pools_ok roster bridge o t (store w) Hu Hs) as Hok.
  destruct (request_served 2 (fun now => pass pools (during now)) reply t (keeping mine o)
    (mkOutgoing (method r) uri' uhost' (outgoing_headers (headers r) (host target)) (wrap_body (request_body r)))
    (to_up w) x Hok Hv Hw Hy Hpx Hbc Hreply) as (c & resp & w2 & E).
  rewrite E in Hrun. injection Hrun as <- _. destruct Hres as [y ->]. by exists y, w'.
Qed.

(** C5: A usable account serves. At any time of a run, once the supervisor has made its round, an
    account of the start whose bridge is ready serves its region: a request that names the region,
    in any capitalisation, and the protocol is answered with what the network says, whatever
    happened before and whatever the state of the other exits. *)
Theorem usable_account_serves vpn start_tunnel ssh : inputs_ok roster bridge vpn start_tunnel → network_up →
  (∀ a b, a ∈ vpn → b ∈ vpn → caps (va_region a) = caps (va_region b) → va_region a = va_region b) →
  ∃ p pools s, build_supervised wreq_factory vpn start_tunnel ssh ∅ = (Ok (p, pools), s) ∧
  ∀ es k a b r route target, Forall (event_ok roster bridge) es → tick_ok k → shares k →
    a ∈ accounts k → va_ready a = true → Pool.is_ready (va_tunnel a) = true → b ∈ vpn → va_region b = va_region a →
    is_connect r = false → uri_host r = None → parse_path (uri_path r) (uri_query r) = Some (route, target) →
    route_region route ≠ [] → caps (route_region route) = caps (va_region a) → r_protocol route = Some Pool.Vpn →
    is_Some (uri_parse (uri_text target)) →
    ∃ resp w', answer pools (handler p) r (run pools (handler p) (es ++ [Passes k]) (start_world s)).2 = (Ok (Passed resp, None), w').
Proof using TL Hduring Hpolling.
  intros Hin Hnet Hinj. destruct (start_sound roster bridge vpn start_tunnel ssh Hin) as (o & p & pools & s & E & Ht & Ho & Hw).
  destruct (build_supervised_ok (T:=T) wreq_factory vpn start_tunnel ssh) as (rank & p' & pools' & s' & _ & E' & [Hwf _ _] & _); [by eexists|].
  rewrite E in E'. injection E' as <- <- <-. exists p, pools, s. split; [done|].
  intros es k a b r route target Hes Hk Hsh Ha Hready Htun Hb Hab Hplain Huri Hpath Hne Hcaps Hproto Hparse.
  destruct (build_routed wreq_factory vpn start_tunnel ssh p pools s) with (a := b) as (pool & f & Hpool & [= <-] & Hrouted); [by eexists|done|done|done|].
  rewrite Hab in Hpool, Hrouted.
  pose proof (routed_forward rank s (handler p) Pool.Vpn _ (route_region route) pool _ Hwf Hrouted Hne Hcaps) as Hf.
  destruct (run_sound uri_parse wrap_body resp_status resp_headers exit_for Conn dial GeoClient build_geo http_get reply during polls polling
    roster bridge o pools (handler p) Ht Ho Hduring Hpolling es (start_world s) Hw Hes) as [Hsound _].
  assert ((run pools (handler p) (es ++ [Passes k]) (start_world s)).2 =
    let w := (run pools (handler p) es (start_world s)).2 in Server.mkWorld (pass pools k (store w)) (exits w) (extra w)) as -> by apply run_passes.
  set (w := (run pools (handler p) es (start_world s)).2) in *. cbv zeta. set (w1 := Server.mkWorld _ _ _).
  assert (sound o w1) as Hw1 by (destruct Hsound; split; [by apply pass_keeping|done]).
  destruct (pass_serves o pools k (store w) a pool) as (x & Hv & Hp & Hy); [apply Hsound|done..|].
  destruct (forwarder_serves o pools (Forward.region_forward pool) r target w1 x) as (resp & w' & Er); [done| |done|done|done|exact Hv|done| |].
  { cbn [t_pool Forward.region_forward]. by rewrite (Ho _ _ Hpool). }
  { intros y Hvy Ey. by rewrite (Hy y Hvy Ey). }
  exists resp, w'. unfold Program.answer, handle. rewrite Hplain, Huri. unfold mbind at 1, se_bind at 1, or_error, rewrite. rewrite Hpath, Hproto, Hf.
  unfold mbind at 1, se_bind at 1, lift_res. cbn [ok_or]. by rewrite Er.
Qed.
End Served.

(** * A concrete account *)

#[export] Instance url_tunnel_laws : Pool.TunnelLaws (str * bool).
Proof. split; intros [u r]; cbn; [intros ->; lia|eauto]. Qed.

(** The account's tunnel becomes ready. *)
Definition toy_up_tick : Tick (T:=str * bool) :=
  mkTick (fun s => s) (fun k t => if decide (k = Lit "openvpn://192.0.2.9") then (Lit "openvpn://192.0.2.9", true) else t) [toy_account true].
Lemma toy_up_tick_ok : Program.tick_ok toy_roster toy_bridge toy_up_tick.
Proof.
  split; [done| |intros a ->%list_elem_of_singleton; apply toy_account_ok]. intros key t Ht. cbn [changes toy_up_tick].
  case_decide; [|done]. subst key. by intros u [= <-].
Qed.
Definition toy_answers (log : list (Sent (H:=toy_headers) (W:=toy_http))) (s : Sent (H:=toy_headers) (W:=toy_http)) : Z * (str + str) :=
  (5, inr (Lit "hello")).

Lemma usable_account_serves_witness :
  ∃ p pools s, build_supervised wreq_factory [toy_account false] toy_starts toy_ssh_accounts ∅ = (Ok (p, pools), s) ∧
  ∃ resp w', answer toy_uri (fun b => b) (fun _ => 200) toy_resp_headers toy_exits str toy_open () (fun _ => Some ()) toy_geo_get toy_answers
      (fun _ => toy_up_tick) 1 (fun _ => toy_up_tick) pools (handler p) (toy_visit false (Lit "/vpn/us/example.com/"))
      (run toy_uri (fun b => b) (fun _ => 200) toy_resp_headers toy_exits str toy_open () (fun _ => Some ()) toy_geo_get toy_answers
        (fun _ => toy_up_tick) 1 (fun _ => toy_up_tick) pools (handler p)
        ([Arrives (toy_visit false (Lit "/vpn/us/example.com/"))] ++ [Passes toy_up_tick]) (start_world s)).2 = (Ok (Passed resp, None), w').
Proof.
  destruct (usable_account_serves (H:=toy_headers) (L:=toy_lru) (W:=toy_http) (J:=toy_json) toy_uri (fun b => b)
    (fun _ => 200) toy_resp_headers toy_exits str toy_open () (fun _ => Some ()) toy_geo_get toy_answers
    (fun _ => toy_up_tick) 1 (fun _ => toy_up_tick) toy_roster toy_bridge (fun _ => toy_up_tick_ok) (fun _ => toy_up_tick_ok)
    [toy_account false] toy_starts toy_ssh_accounts toy_inputs_ok) as (p & pools & s & E & Hserve).
  - split; [intros u; eexists; reflexivity|]. split; [intros pr px; eexists; reflexivity|]. intros log snt. eexists _, _. reflexivity.
  - intros a b Ha%list_elem_of_singleton Hb%list_elem_of_singleton. by subst.
  - exists p, pools, s. split; [exact E|].
    destruct (parse_path (Lit "/vpn/us/example.com/") None) as [[route target]|] eqn:Ep; [|vm_compute in Ep; discriminate Ep].
    apply (Hserve [Arrives (toy_visit false (Lit "/vpn/us/example.com/"))] toy_up_tick (toy_account true) (toy_account false)
      (toy_visit false (Lit "/vpn/us/example.com/")) route target).
    1: apply Forall_cons_2; [exact I|apply Forall_nil_2].
    1: exact toy_up_tick_ok.
    1: split; [apply NoDup_singleton|intros a t ->%list_elem_of_singleton; vm_compute; reflexivity].
    1: by left.
    1, 2: reflexivity.
    1: by left.
    1, 2, 3: reflexivity.
    1: exact Ep.
    all: vm_compute in Ep; injection Ep as <- <-.
    + discriminate.
    + vm_compute. reflexivity.
    + reflexivity.
    + by eexists.
Defined.
