(* ===== verification/Stack.v ===== *)
(** openvpn/stack.rs: the streams of the user-space TCP stack. Each connection has a bounded queue
    in both directions between the stack's task and the stream its client holds; smoltcp's sockets
    and interface are parameters. *)
From S2P Require Import Prelude Text.

Definition MTU : nat := Z.to_nat 1500.
Definition QUEUE : nat := 16.
Definition CHUNK : nat := Z.to_nat (16 * 1024).
Definition SOCKET_BUFFER : nat := Z.to_nat (32 * 1024).
Definition TICK : Z := 2.

(** * The device between smoltcp and the tunnel: two queues of packets *)

Record DeviceState := mkDevice { inbound : list (list byte); outbound : list (list byte) }.

(** [StackDevice::receive] and [StackRx::consume]: the packet smoltcp gets. *)
Definition device_receive (d : DeviceState) : option (list byte * DeviceState) :=
  match inbound d with
  | [] => None
  | packet :: rest => Some (packet, mkDevice rest (outbound d))
  end.
(** [StackDevice::transmit] and [StackTx::consume]. *)
Definition device_transmit (packet : list byte) (d : DeviceState) : DeviceState := mkDevice (inbound d) (outbound d ++ [packet]).
(** A packet of the tunnel; a full queue drops it. *)
Definition device_deliver (packet : list byte) (d : DeviceState) : DeviceState :=
  if (length (inbound d) <? QUEUE)%nat then mkDevice (inbound d ++ [packet]) (outbound d) else d.

(** * Bounded channels *)

Record Chan := mkChan { queue : list (list byte); senders : bool; receiver : bool }.
Definition chan_new : Chan := mkChan [] true true.
Definition capacity (c : Chan) : nat := QUEUE - length (queue c).

Inductive try_send_result := Sent | Full | Closed.
Definition try_send (x : list byte) (c : Chan) : try_send_result * Chan :=
  if negb (receiver c) then (Closed, c)
  else if (length (queue c) <? QUEUE)%nat then (Sent, mkChan (queue c ++ [x]) (senders c) (receiver c))
  else (Full, c).

(** [Ready None] when the queue is empty and the senders are gone. *)
Definition poll_recv (c : Chan) : poll (option (list byte)) * Chan :=
  match queue c with
  | x :: rest => (Ready (Some x), mkChan rest (senders c) (receiver c))
  | [] => (if senders c then Pending else Ready None, c)
  end.

(** * A connection and its stream *)

(** What the code uses of smoltcp's TCP socket. *)
Class SmolTcp := {
  Socket : Type;
  can_recv : Socket → bool;
  recv_slice : nat → Socket → option (list byte) * Socket;
  can_send : Socket → bool;
  send_slice : list byte → Socket → option nat * Socket;
  is_open : Socket → bool
}.

Section Stack.
Context {Tcp : SmolTcp}.

(** [Conn] on the stack's side, [Stream] on the client's, and the channels they share. *)
Record Link := mkLink {
  socket : Socket; to_client : Chan; from_client : Chan; closed : bool;
  pending : list byte; offset : nat
}.

Definition link_new (s : Socket) : Link := mkLink s chan_new chan_new false [] 0.

(** [Stream::poll_read] into a buffer with [room] bytes; no bytes are the end of the stream. *)
Definition poll_read (room : nat) (l : Link) : poll (list byte) * Link :=
  if (offset l <? length (pending l))%nat then
    let n := Nat.min (length (pending l) - offset l) room in
    let bytes := take n (drop (offset l) (pending l)) in
    if (offset l + n =? length (pending l))%nat
    then (Ready bytes, mkLink (socket l) (to_client l) (from_client l) (closed l) [] 0)
    else (Ready bytes, mkLink (socket l) (to_client l) (from_client l) (closed l) (pending l) (offset l + n))
  else
    match poll_recv (to_client l) with
    | (Ready (Some chunk), c) =>
        let n := Nat.min (length chunk) room in
        (Ready (take n chunk),
         if (n <? length chunk)%nat then mkLink (socket l) c (from_client l) (closed l) chunk n
         else mkLink (socket l) c (from_client l) (closed l) (pending l) (offset l))
    | (Ready None, c) => (Ready [], mkLink (socket l) c (from_client l) (closed l) (pending l) (offset l))
    | (Pending, c) => (Pending, mkLink (socket l) c (from_client l) (closed l) (pending l) (offset l))
    end.

(** [Stream::poll_write]; [None] is the error "tunnel closed". *)
Definition poll_write (buf : list byte) (l : Link) : poll (option nat) * Link :=
  let '(r, c) := try_send buf (from_client l) in
  (match r with Sent => Ready (Some (length buf)) | Full => Pending | Closed => Ready None end,
   mkLink (socket l) (to_client l) c (closed l) (pending l) (offset l)).

(** The stack's turn with a connection: one chunk from the socket, *)
Definition service_recv (l : Link) : Link :=
  if can_recv (socket l) && (0 <? capacity (to_client l))%nat then
    match recv_slice CHUNK (socket l) with
    | (Some (b :: bytes), s) => mkLink s (try_send (b :: bytes) (to_client l)).2 (from_client l) (closed l) (pending l) (offset l)
    | (_, s) => mkLink s (to_client l) (from_client l) (closed l) (pending l) (offset l)
    end
  else l.

(** then the client's chunks until one is not taken whole; the rest of that one goes to the client. *)
Fixpoint send_chunks (chunks : list (list byte)) (s : Socket) (to_client : Chan) : Socket * Chan * list (list byte) :=
  match chunks with
  | [] => (s, to_client, [])
  | chunk :: chunks =>
      match send_slice chunk s with
      | (Some written, s) =>
          if (written =? length chunk)%nat then send_chunks chunks s to_client
          else (s, (try_send (drop written chunk) to_client).2, chunks)
      | (None, s) => (s, to_client, chunks)
      end
  end.
Definition service_send (l : Link) : Link :=
  if can_send (socket l) then
    let '(s, down, rest) := send_chunks (queue (from_client l)) (socket l) (to_client l) in
    mkLink s down (mkChan rest (senders (from_client l)) (receiver (from_client l))) (closed l) (pending l) (offset l)
  else l.

Definition service (l : Link) : Link :=
  let l := service_send (service_recv l) in
  mkLink (socket l) (to_client l) (from_client l) (closed l || negb (is_open (socket l))) (pending l) (offset l).

(** The client drops its stream; the stack drops the connection. *)
Definition drop_stream (l : Link) : Link :=
  mkLink (socket l) (mkChan (queue (to_client l)) (senders (to_client l)) false)
         (mkChan (queue (from_client l)) false (receiver (from_client l))) (closed l) (pending l) (offset l).
Definition drop_conn (l : Link) : Link :=
  mkLink (socket l) (mkChan (queue (to_client l)) false (receiver (to_client l)))
         (mkChan (queue (from_client l)) (senders (from_client l)) false) (closed l) (pending l) (offset l).

(** * One round of the task *)

(** The connections by their identity, and the device. *)
Record Stack := mkStack { device : DeviceState; conns : list (nat * Link); next_conn : nat }.

(** What woke the task. *)
Inductive arm := Command (connected : str + Socket) | Packet (packet : option (list byte)) | Ticked.

(** The reply to a command, the stack, and [iface] as smoltcp's poll of the interface, which may
    take packets from the device, put packets there and change the sockets. *)
Definition take_arm (a : arm) (st : Stack) : option (str + nat) * Stack :=
  match a with
  | Command (inr s) => (Some (inr (next_conn st)), mkStack (device st) (conns st ++ [(next_conn st, link_new s)]) (S (next_conn st)))
  | Command (inl err) => (Some (inl err), st)
  | Packet (Some packet) => (None, mkStack (device_deliver packet (device st)) (conns st) (next_conn st))
  | Packet None | Ticked => (None, st)
  end.

(** [send_data] for each packet of smoltcp; after an error the rest stays for the next round. *)
Fixpoint send_outbound {W} (send : list byte → W → bool * W) (packets : list (list byte)) (w : W) : list (list byte) * W :=
  match packets with
  | [] => ([], w)
  | p :: packets => match send p w with
                    | (true, w) => send_outbound send packets w
                    | (false, w) => (packets, w)
                    end
  end.

Definition round {W} (iface : DeviceState → list (nat * Link) → DeviceState * list (nat * Link)) (send : list byte → W → bool * W)
    (a : arm) (st : Stack) (w : W) : option (str + nat) * Stack * list (nat * Link) * W :=
  let '(reply, st) := take_arm a st in
  let '(d, cs) := iface (device st) (conns st) in
  let '(rest, w) := send_outbound send (outbound d) w in
  let cs := (fun c => (c.1, service c.2)) <$> cs in
  (* the last component: the connections removed, whose channels' ends are dropped *)
  (reply, mkStack (mkDevice (inbound d) rest) (filter (fun c => closed c.2 = false) cs) (next_conn st),
   (fun c => (c.1, drop_conn c.2)) <$> filter (fun c => closed c.2 = true) cs, w).

(** * What passes through a connection *)

(** The bytes one turn takes from the socket, and the bytes it gives to it. *)
Definition recv_bytes (l : Link) : list byte :=
  if can_recv (socket l) && (0 <? capacity (to_client l))%nat then default [] (recv_slice CHUNK (socket l)).1 else [].
Fixpoint sent_bytes (chunks : list (list byte)) (s : Socket) : list byte * bool :=
  match chunks with
  | [] => ([], true)
  | chunk :: chunks =>
      match send_slice chunk s with
      | (Some written, s) =>
          if (written =? length chunk)%nat then let '(bytes, whole) := sent_bytes chunks s in (chunk ++ bytes, whole)
          else (take written chunk, false)
      | (None, s) => ([], false)
      end
  end.

(** A connection with everything that went through: read and written by the client, received from
    and sent to the socket, and whether the socket took every chunk whole. *)
Record Trace := mkTrace { link : Link; read : list byte; written : list byte; received : list byte; sent : list byte; whole : bool }.

Inductive event := Service | Read (room : nat) | Write (buf : list byte) | Network (s : Socket) | DropConn.

Definition step (t : Trace) (e : event) : Trace :=
  let l := link t in
  match e with
  | Service =>
      if senders (to_client l) then
        let l1 := service_recv l in
        let '(bytes, ok) := if can_send (socket l1) then sent_bytes (queue (from_client l1)) (socket l1) else ([], true) in
        mkTrace (service l) (read t) (written t) (received t ++ recv_bytes l) (sent t ++ bytes) (whole t && ok)
      else t
  | Read room =>
      let '(a, l) := poll_read room l in
      mkTrace l (read t ++ match a with Ready bytes => bytes | Pending => [] end) (written t) (received t) (sent t) (whole t)
  | Write buf =>
      let '(a, l) := poll_write buf l in
      mkTrace l (read t) (written t ++ match a with Ready (Some n) => take n buf | _ => [] end) (received t) (sent t) (whole t)
  | Network s => mkTrace (mkLink s (to_client l) (from_client l) (closed l) (pending l) (offset l)) (read t) (written t) (received t) (sent t) (whole t)
  | DropConn => mkTrace (drop_conn l) (read t) (written t) (received t) (sent t) (whole t)
  end.
Definition trace_new (s : Socket) : Trace := mkTrace (link_new s) [] [] [] [] true.

Record flows (t : Trace) : Prop := {
  fl_receiver : receiver (to_client (link t)) = true;
  fl_down : whole t = true → received t = read t ++ drop (offset (link t)) (pending (link t)) ++ concat (queue (to_client (link t)));
  fl_up : whole t = true → senders (to_client (link t)) = true → written t = sent t ++ concat (queue (from_client (link t)));
  fl_lost : whole t = true → senders (to_client (link t)) = false → sent t `prefix_of` written t;
  fl_ends : receiver (from_client (link t)) = senders (to_client (link t));
  fl_bounds : (length (queue (to_client (link t))) <= QUEUE)%nat ∧ (length (queue (from_client (link t))) <= QUEUE)%nat
}.

Lemma flows_new s : flows (trace_new s).
Proof using Type. split; unfold trace_new, QUEUE; cbn; done || lia. Qed.

Lemma send_chunks_whole chunks s c s' c' rest bytes : send_chunks chunks s c = (s', c', rest) → sent_bytes chunks s = (bytes, true) →
  c' = c ∧ rest = [] ∧ bytes = concat chunks.
Proof using Type.
  revert s bytes. induction chunks as [|chunk chunks IH]; intros s bytes; cbn [send_chunks sent_bytes]; [by intros [= -> -> <-] [= <-]|].
  destruct (send_slice chunk s) as [[w|] s1]; [|done]. destruct (w =? length chunk)%nat; [|done].
  destruct (sent_bytes chunks s1) as [bytes1 ok] eqn:E. intros H1 [= <- ->]. destruct (IH _ _ H1 E) as (-> & -> & ->). done.
Qed.

Lemma try_send_bounds x c : receiver (try_send x c).2 = receiver c ∧ senders (try_send x c).2 = senders c ∧
  ((length (queue c) <= QUEUE)%nat → (length (queue (try_send x c).2) <= QUEUE)%nat).
Proof using Type.
  unfold try_send. destruct (receiver c) eqn:E; cbn [negb]; [|done]. case_cmp; cbn [snd queue senders receiver]; [|done].
  split_and!; try done. intros _. rewrite length_app. cbn [length]. lia.
Qed.

Lemma send_chunks_bounds chunks s c s' c' rest : send_chunks chunks s c = (s', c', rest) →
  (length rest <= length chunks)%nat ∧ receiver c' = receiver c ∧ senders c' = senders c ∧
  ((length (queue c) <= QUEUE)%nat → (length (queue c') <= QUEUE)%nat).
Proof using Type.
  revert s. induction chunks as [|chunk chunks IH]; intros s; cbn [send_chunks]; [by intros [= -> -> <-]|].
  destruct (send_slice chunk s) as [[w|] s1]; [|intros [= -> -> ->]; cbn; split_and!; done || lia].
  destruct (w =? length chunk)%nat; [intros H; destruct (IH _ H) as (? & ?); cbn; split; [lia|done]|].
  intros [= <- <- <-]. split; [cbn; lia|]. apply try_send_bounds.
Qed.

Lemma service_recv_flows l : receiver (to_client l) = true →
  to_client (service_recv l) = mkChan (queue (to_client l) ++ match recv_bytes l with [] => [] | bytes => [bytes] end) (senders (to_client l)) true ∧
  from_client (service_recv l) = from_client l ∧ pending (service_recv l) = pending l ∧ offset (service_recv l) = offset l ∧
  ((length (queue (to_client l)) <= QUEUE)%nat → (length (queue (to_client (service_recv l))) <= QUEUE)%nat).
Proof using Type.
  intros Hr. unfold service_recv, recv_bytes.
  assert (to_client l = mkChan (queue (to_client l) ++ []) (senders (to_client l)) true) as Hid.
  { rewrite app_nil_r. destruct (to_client l). simpl in *. by subst. }
  destruct (can_recv (socket l)); cbn [andb]; [|done]. destruct (0 <? capacity (to_client l))%nat eqn:Ec; [|done].
  apply Nat.ltb_lt in Ec. unfold capacity in Ec. destruct (recv_slice CHUNK (socket l)) as [[[|b bytes]|] s]; cbn [fst from_option id to_client from_client pending offset]; try done.
  unfold try_send. rewrite Hr. cbn [negb]. case_cmp; [|lia]. cbn [snd queue]. split_and!; try done. intros _. rewrite length_app. cbn. lia.
Qed.

Lemma flows_service t : flows t → flows (step t Service).
Proof using Type.
  intros HF. cbn [step]. destruct (senders (to_client (link t))) eqn:Es; [|done]. destruct HF as [Hr Hd Hu _ He [B1 B2]].
  set (l := link t) in *. destruct (service_recv_flows l Hr) as (Ed & Eu & Ep & Eo & Hb).
  set (l1 := service_recv l) in *. specialize (Hb B1). rewrite Es in Ed, He.
  assert (∃ s down rest bytes ok, (if can_send (socket l1) then sent_bytes (queue (from_client l1)) (socket l1) else ([], true)) = (bytes, ok) ∧
    service_send l1 = mkLink s down (mkChan rest (senders (from_client l1)) (receiver (from_client l1))) (closed l1) (pending l1) (offset l1) ∧
    receiver down = true ∧ senders down = true ∧ (length (queue down) <= QUEUE)%nat ∧ (length rest <= QUEUE)%nat ∧
    (ok = true → queue down = queue (to_client l1) ∧ concat (queue (from_client l1)) = bytes ++ concat rest))
    as (s & down & rest & bytes & ok & Eb & Ess & Dr & Ds & Dl & Rl & Hok).
  { unfold service_send. destruct (can_send (socket l1)).
    - destruct (send_chunks _ _ _) as [[s down] rest] eqn:E. destruct (sent_bytes _ _) as [bytes ok] eqn:Es'.
      destruct (send_chunks_bounds _ _ _ _ _ _ E) as (L1 & L2 & L3 & L4). exists s, down, rest, bytes, ok.
      rewrite L2, L3, Ed. cbn [receiver senders]. split_and!; try done; [by apply L4|rewrite Eu in L1; lia|].
      intros ->. destruct (send_chunks_whole _ _ _ _ _ _ _ E Es') as (-> & -> & ->). cbn [concat]. rewrite app_nil_r, Ed. done.
    - exists (socket l1), (to_client l1), (queue (from_client l1)), [], true. rewrite Ed at 2 3. cbn [receiver senders]. split_and!; try done.
      + destruct l1 as [? ? [] ? ? ?]. done.
      + by rewrite Eu. }
  rewrite Eb. cbn zeta. unfold service. fold l1. rewrite Ess. cbn [socket to_client from_client closed pending offset].
  split; cbn [link read written received sent whole to_client from_client pending offset queue senders receiver]; try done.
  - intros Hw. apply andb_true_iff in Hw as [Hw ->]. destruct (Hok eq_refl) as [-> _]. rewrite Hd, Ep, Eo, Ed by done. cbn [queue].
    rewrite concat_app. rewrite <- !app_assoc. do 3 f_equal. destruct (recv_bytes l); cbn; [done|by rewrite app_nil_r].
  - intros Hw _. apply andb_true_iff in Hw as [Hw ->]. destruct (Hok eq_refl) as [_ Ec]. rewrite Hu, <- app_assoc by done. by rewrite <- Ec, Eu.
  - congruence.
  - by rewrite Eu, He, Ds.
Qed.

Lemma flows_read t room : flows t → flows (step t (Read room)).
Proof using Type.
  intros [Hr Hd Hu Hl He [B1 B2]]. cbn [step]. unfold poll_read. set (l := link t) in *.
  destruct (offset l <? length (pending l))%nat eqn:Eo; [apply Nat.ltb_lt in Eo|apply Nat.ltb_ge in Eo].
  - set (n := Nat.min (length (pending l) - offset l) room).
    assert (take n (drop (offset l) (pending l)) ++ drop (offset l + n) (pending l) = drop (offset l) (pending l)) as Hs.
    { rewrite <- drop_drop. apply take_drop. }
    destruct (offset l + n =? length (pending l))%nat eqn:En.
    + apply Nat.eqb_eq in En. rewrite En, drop_all, app_nil_r in Hs. split; cbn [link read written received sent whole to_client from_client pending offset]; try done.
      intros Hw. rewrite Hd by done. rewrite Hs, <- app_assoc. done.
    + split; cbn [link read written received sent whole to_client from_client pending offset]; try done.
      intros Hw. rewrite Hd by done. rewrite <- Hs at 1. rewrite <- !app_assoc. done.
  - assert (drop (offset l) (pending l) = []) as Hp by (apply drop_ge; lia). rewrite Hp in Hd. cbn [app] in Hd.
    unfold poll_recv. destruct (queue (to_client l)) as [|chunk rest] eqn:Eq.
    + destruct (senders (to_client l)) eqn:Es; (split; cbn [link read written received sent whole to_client from_client pending offset]; rewrite ?app_nil_r, ?Hp, ?Eq, ?Es in *; try done; intros Hw; rewrite Hd by done; cbn; by rewrite app_nil_r).
    + set (n := Nat.min (length chunk) room). cbn [concat] in Hd. cbn [length] in B1.
      assert (∀ p o, drop o p = drop n chunk → flows (mkTrace (mkLink (socket l) (mkChan rest (senders (to_client l)) (receiver (to_client l))) (from_client l) (closed l) p o)
        (read t ++ take n chunk) (written t) (received t) (sent t) (whole t))) as H.
      { intros p o E. split; cbn [link read written received sent whole to_client from_client pending offset queue senders receiver]; try done; [|lia].
        intros Hw. rewrite Hd, E by done. rewrite <- !app_assoc. f_equal. rewrite (app_assoc (take n chunk)), take_drop. done. }
      destruct (n <? length chunk)%nat eqn:En; apply H; [done|]. apply Nat.ltb_ge in En. rewrite Hp, drop_ge by lia. done.
Qed.

Lemma flows_write t buf : flows t → flows (step t (Write buf)).
Proof using Type.
  intros [Hr Hd Hu Hl He [B1 B2]]. cbn [step]. unfold poll_write. set (l := link t) in *.
  pose proof (try_send_bounds buf (from_client l)) as (T1 & T2 & T3). specialize (T3 B2). revert T1 T2 T3. unfold try_send.
  destruct (receiver (from_client l)) eqn:Er; cbn [negb].
  - case_cmp; cbn [snd queue]; intros _ _ T3;
      (split; cbn [link read written received sent whole to_client from_client pending offset queue senders receiver]; rewrite ?app_nil_r, ?firstn_all; try done).
    + intros Hw Hs. rewrite Hu, concat_app by done. cbn [concat]. by rewrite app_nil_r, app_assoc.
    + intros Hw Hs. by rewrite Hs in He.
    + congruence.
  - cbn [snd]. intros _ _ _. split; cbn [link read written received sent whole to_client from_client pending offset]; rewrite ?app_nil_r; try done. congruence.
Qed.

Lemma flows_drop t : flows t → flows (step t DropConn).
Proof using Type.
  intros [Hr Hd Hu Hl He [B1 B2]]. cbn [step]. split; unfold drop_conn; cbn [link read written received sent whole to_client from_client pending offset queue senders receiver]; try done.
  intros Hw _. destruct (senders (to_client (link t))) eqn:Es; [|by apply Hl]. rewrite Hu by done. by eexists.
Qed.

Lemma flows_step t e : flows t → flows (step t e).
Proof using Type.
  destruct e; [apply flows_service|apply flows_read|apply flows_write| |apply flows_drop]. intros []. by split.
Qed.

Lemma flows_run es s : flows (foldl step (trace_new s) es).
Proof using Type.
  induction es as [|e es IH] using rev_ind; [apply flows_new|]. rewrite foldl_app. by apply flows_step.
Qed.

(** C19: A connection's bytes. However the stack's turns, the client's polls and the network
    interleave, and with reads of any size: as long as the socket takes every chunk it is offered
    whole, what the client has read is what the socket received, in order and without loss, except
    what still waits for it; what was sent is what the client wrote except the chunks still queued;
    neither queue exceeds its sixteen chunks; and a read that returns nothing, into a buffer with
    room, means the connection is gone and everything received has been read. *)
Theorem stack_fifo es s :
  let t := foldl step (trace_new s) es in
  let l := link t in
  whole t = true →
  received t = read t ++ drop (offset l) (pending l) ++ concat (queue (to_client l)) ∧
  (senders (to_client l) = true → written t = sent t ++ concat (queue (from_client l))) ∧
  sent t `prefix_of` written t ∧
  (length (queue (to_client l)) <= QUEUE)%nat ∧ (length (queue (from_client l)) <= QUEUE)%nat ∧
  (∀ room, (0 < room)%nat → (poll_read room l).1 = Ready [] → Forall (fun c => c ≠ []) (queue (to_client l)) →
     senders (to_client l) = false ∧ read t = received t).
Proof using Type.
  intros t l Hw. destruct (flows_run es s) as [Hr Hd Hu Hl He [B1 B2]]. fold t in Hr, Hd, Hu, Hl, He, B1, B2. fold l in Hr, Hd, Hu, Hl, He, B1, B2.
  split; [by apply Hd|]. split; [by apply Hu|]. split.
  { destruct (senders (to_client l)) eqn:Es; [|by apply Hl]. rewrite Hu by done. by eexists. }
  split; [done|]. split; [done|]. intros room Hroom Hread Hne. unfold poll_read in Hread.
  destruct (offset l <? length (pending l))%nat eqn:Eo; [apply Nat.ltb_lt in Eo|apply Nat.ltb_ge in Eo].
  - exfalso. assert (take (Nat.min (length (pending l) - offset l) room) (drop (offset l) (pending l)) = []) as H by (destruct (_ =? _)%nat; by injection Hread).
    apply (f_equal length) in H. rewrite length_take, length_drop in H. change (length (@nil byte)) with 0%nat in H. lia.
  - unfold poll_recv in Hread. destruct (queue (to_client l)) as [|chunk rest] eqn:Eq.
    + destruct (senders (to_client l)); [done|]. split; [done|]. rewrite Hd by done. rewrite drop_ge by lia. cbn. by rewrite app_nil_r.
    + exfalso. cbn [fst] in Hread. injection Hread as H. apply Forall_cons in Hne as [Hc _].
      apply (f_equal length) in H. rewrite length_take in H. change (length (@nil byte)) with 0%nat in H. destruct chunk; [done|]. cbn [length] in H. lia.
Qed.

(** What a turn does with a chunk the socket takes only in part: the rest is never sent, it is put
    into the queue the client reads from. *)
Lemma partial_send_echoes l chunk rest n s : can_send (socket l) = true → queue (from_client l) = chunk :: rest →
  send_slice chunk (socket l) = (Some n, s) → (n < length chunk)%nat → receiver (to_client l) = true → (0 < capacity (to_client l))%nat →
  queue (from_client (service_send l)) = rest ∧ queue (to_client (service_send l)) = queue (to_client l) ++ [drop n chunk].
Proof using Type.
  intros Hc Hq Hs Hn Hr Hcap. unfold service_send. rewrite Hc, Hq. cbn [send_chunks]. rewrite Hs.
  rewrite (proj2 (Nat.eqb_neq n (length chunk))) by lia. cbn [to_client from_client queue]. split; [done|].
  unfold try_send. rewrite Hr. cbn [negb]. unfold capacity in Hcap. rewrite (proj2 (Nat.ltb_lt _ _)) by lia. done.
Qed.

(** The device: packets come out in order; at most sixteen wait, and only those beyond are dropped. *)
Lemma device_bounded d packet : (length (inbound d) <= QUEUE)%nat →
  (length (inbound (device_deliver packet d)) <= QUEUE)%nat ∧ inbound d `prefix_of` inbound (device_deliver packet d) ∧
  ((length (inbound d) < QUEUE)%nat → inbound (device_deliver packet d) = inbound d ++ [packet]).
Proof using Type.
  intros H. unfold device_deliver. case_cmp; cbn [inbound]; [rewrite length_app; cbn [length]; split_and!; [lia|by eexists|done]|split_and!; [done|done|lia]].
Qed.
End Stack.

(** * Example: a socket with a send buffer *)

(** What has arrived, what was sent, and the room left to send. *)
#[export] Instance toy_tcp : SmolTcp := {|
  Socket := (list byte * list byte * nat);
  can_recv s := negb (bool_decide (s.1.1 = []));
  recv_slice n s := (Some (take n s.1.1), (drop n s.1.1, s.1.2, s.2));
  can_send s := (0 <? s.2)%nat;
  send_slice chunk s := let n := Nat.min (length chunk) s.2 in (Some n, (s.1.1, s.1.2 ++ take n chunk, (s.2 - n)%nat));
  is_open s := true
|}.

Definition toy_run : list event :=
  [Write (Lit "GET /"); Service; Network (Lit "200 OK", Lit "GET /", 5%nat); Service; Read 3; Read 10; Write (Lit "more"); Service].
Lemma stack_fifo_witness :
  let t := foldl step (trace_new (Tcp:=toy_tcp) ([], [], 10%nat)) toy_run in
  whole t = true ∧ read t = Lit "200 OK" ∧ sent t `prefix_of` written t.
Proof.
  intros t. assert (whole t = true) as Hw by (vm_compute; reflexivity). split; [exact Hw|]. split; [vm_compute; reflexivity|].
  apply (stack_fifo (Tcp:=toy_tcp) toy_run ([], [], 10%nat) Hw).
Defined.

(** With a full send buffer the client reads its own request. *)
Example echo_example :
  read (foldl step (trace_new (Tcp:=toy_tcp) ([], [], 3%nat)) [Write (Lit "GET /"); Service; Read 100]) = Lit " /".
Proof. reflexivity. Qed.
