(* ===== verification/StackRun.v ===== *)
(** openvpn/stack.rs: opening a stream through the stack, and the stack's task from its start to
    the end of its commands. *)
From S2P Require Import Prelude Text OvpnConfig Ossh Stack.

Section StackRun.
Context {Tcp : SmolTcp}.

(** [resolve]; [lookup] is the operating system's resolver, run on a blocking thread: the error of
    that thread, or the first address it finds. *)
Definition resolve (lookup : str → str + option IpAddr) (host : str) : res Error IpAddr :=
  match parse_ip_addr host with
  | Some address => Ok address
  | None =>
      match lookup host with
      | inr (Some address) => Ok address
      | inr None => Err (Transport (Lit "dns resolution failed"))
      | inl err => Err (Transport err)
      end
  end.

(** * The task *)

(** smoltcp's poll of the interface at one moment. *)
Abbreviation interface := (DeviceState → list (nat * Link) → DeviceState * list (nat * Link)).
(** What the task answers to commands, the streams it let go, and the far side of the tunnel. *)
Record Task (W : Type) := mkTask { stack : Stack; replies : list (str + nat); removed : list (nat * Link); world : W }.
#[global] Arguments mkTask {W}.
#[global] Arguments stack {W}.
#[global] Arguments replies {W}.
#[global] Arguments removed {W}.
#[global] Arguments world {W}.

Definition stack_new : Stack := mkStack (mkDevice [] []) [] 0.

Definition run_round {W} (send : list byte → W → bool * W) (t : Task W) (x : arm * interface) : Task W :=
  let '(reply, st, gone, w) := round x.2 send x.1 (stack t) (world t) in
  mkTask st (replies t ++ option_list reply) (removed t ++ gone) w.
Definition run_rounds {W} (send : list byte → W → bool * W) (xs : list (arm * interface)) (t : Task W) : Task W :=
  foldl (run_round send) t xs.

(** [run], once the last handle of the stack is dropped: the connections go with the task. *)
Definition end_task {W} (t : Task W) : Task W :=
  mkTask (mkStack (device (stack t)) [] (next_conn (stack t))) (replies t)
         (removed t ++ ((fun c => (c.1, drop_conn c.2)) <$> conns (stack t))) (world t).
Definition run {W} (send : list byte → W → bool * W) (xs : list (arm * interface)) (w : W) : Task W :=
  end_task (run_rounds send xs (mkTask stack_new [] [] w)).

(** [Stack::open], answered by the round that takes the command; [connect] is smoltcp's. *)
Definition open {W} (lookup : str → str + option IpAddr) (connect : IpAddr → Z → str + Socket) (poll : interface)
    (send : list byte → W → bool * W) (alive : bool) (host : str) (port : Z) (t : Task W) : res Error nat * Task W :=
  match resolve lookup host with
  | Ok address =>
      if alive then
        let t' := run_round send t (Command (connect address port), poll) in
        match list.last (replies t') with
        | Some (inr id) => (Ok id, t')
        | Some (inl err) => (Err (Transport err), t')
        | None => (Err (Transport (Lit "tunnel closed")), t')
        end
      else (Err (Transport (Lit "tunnel closed")), t)
  | Err e => (Err e, t)
  | Panic => (Panic, t)
  | NoFuel => (NoFuel, t)
  end.

(** * Every stream has one owner *)

(** What smoltcp may do: it works on the device and the sockets, not on the channels. *)
Definition same_ends (a b : nat * Link) : Prop :=
  a.1 = b.1 ∧ to_client a.2 = to_client b.2 ∧ from_client a.2 = from_client b.2 ∧ closed a.2 = closed b.2 ∧
  pending a.2 = pending b.2 ∧ offset a.2 = offset b.2.
Definition poll_ok (poll : interface) : Prop := ∀ d cs,
  (length (inbound (poll d cs).1) <= length (inbound d))%nat ∧ Forall2 same_ends (poll d cs).2 cs.

Definition ids (l : list (nat * Link)) : list nat := fst <$> l.
Definition opened (l : list (str + nat)) : list nat := omap (fun r => match r with inr id => Some id | inl _ => None end) l.
(** Both ends of a stream the stack let go know it. *)
Definition hung_up (c : nat * Link) : Prop := senders (to_client c.2) = false ∧ receiver (from_client c.2) = false.

Record task_ok {W} (t : Task W) : Prop := {
  to_opened : opened (replies t) = seq 0 (next_conn (stack t));
  to_owned : ids (conns (stack t)) ++ ids (removed t) ≡ₚ opened (replies t);
  to_open : Forall (fun c => closed c.2 = false) (conns (stack t));
  to_gone : Forall hung_up (removed t);
  to_inbound : (length (inbound (device (stack t))) <= QUEUE)%nat
}.

Lemma ids_ends cs cs' : Forall2 same_ends cs cs' → ids cs = ids cs'.
Proof using Type. unfold ids. induction 1 as [|a b l l' (E & _) _ IH]; cbn; [done|]. by rewrite E, IH. Qed.
Lemma ids_service (cs : list (nat * Link)) : ids ((fun c => (c.1, service c.2)) <$> cs) = ids cs.
Proof using Type. unfold ids. by rewrite <- list_fmap_compose. Qed.
Lemma ids_split (cs : list (nat * Link)) :
  ids (filter (fun c => closed c.2 = false) cs) ++ ids ((fun c => (c.1, drop_conn c.2)) <$> filter (fun c => closed c.2 = true) cs) ≡ₚ ids cs.
Proof using Type.
  unfold ids. induction cs as [|[i l] cs IH]; [done|]. rewrite !filter_cons. cbn [snd].
  destruct (closed l); do 2 (case_decide; try done); cbn [fmap list_fmap fst app].
  - rewrite <- Permutation_middle. by apply Permutation_cons.
  - by apply Permutation_cons.
Qed.
Lemma hung_up_drop (cs : list (nat * Link)) : Forall hung_up ((fun c => (c.1, drop_conn c.2)) <$> cs).
Proof using Type. apply Forall_fmap, Forall_true. intros c. done. Qed.

(** Waking up keeps the books: a new stream is entered under the number it is answered with. *)
Lemma take_arm_ok a st : (length (inbound (device st)) <= QUEUE)%nat →
  let '(reply, st') := take_arm a st in
  ids (conns st') = ids (conns st) ++ opened (option_list reply) ∧
  opened (option_list reply) = seq (next_conn st) (next_conn st' - next_conn st) ∧ (next_conn st <= next_conn st')%nat ∧
  (length (inbound (device st')) <= QUEUE)%nat.
Proof using Type.
  intros Hi. destruct a as [[err|s]|[packet|]|]; cbn [take_arm]; unfold opened, ids;
    cbn [option_list omap list_omap conns next_conn device]; rewrite ?app_nil_r, ?Nat.sub_diag, ?fmap_app; try (split_and!; done).
  - replace (S (next_conn st) - next_conn st)%nat with 1%nat by lia. split_and!; try done. lia.
  - split_and!; try done. by apply device_bounded.
Qed.

Lemma run_round_ok {W} send (t : Task W) a poll : poll_ok poll → task_ok t → task_ok (run_round send t (a, poll)).
Proof using Type.
  intros Hp [H1 H2 H3 H4 H5]. unfold run_round, round. cbn [fst snd].
  pose proof (take_arm_ok a (stack t) H5) as Ha. destruct (take_arm a (stack t)) as [reply st]. destruct Ha as (A1 & A2 & A3 & A4).
  destruct (Hp (device st) (conns st)) as [P1 P2]. destruct (poll (device st) (conns st)) as [d cs]. cbn [fst snd] in P1, P2.
  destruct (send_outbound send (outbound d) (world t)) as [rest w].
  set (served := (fun c => (c.1, service c.2)) <$> cs).
  assert (opened (replies t ++ option_list reply) = opened (replies t) ++ opened (option_list reply)) as Happ by apply omap_app.
  split; cbn [stack replies removed world conns next_conn device inbound].
  - rewrite Happ, H1, A2, <- seq_app. f_equal. lia.
  - rewrite Happ, <- H2. unfold ids at 2. rewrite fmap_app. fold (ids (removed t)).
    assert (ids (filter (fun c => closed c.2 = false) served) ++ ids ((fun c => (c.1, drop_conn c.2)) <$> filter (fun c => closed c.2 = true) served)
            ≡ₚ ids (conns (stack t)) ++ opened (option_list reply)) as Hs
      by (rewrite ids_split; unfold served; by rewrite ids_service, (ids_ends _ _ P2), A1).
    unfold ids in Hs at 2. rewrite (Permutation_app_comm (ids (removed t))), app_assoc, Hs. unfold ids. solve_Permutation.
  - apply Forall_forall. intros c [Hc _]%list_elem_of_filter. exact Hc.
  - apply Forall_app. split; [done|apply hung_up_drop].
  - lia.
Qed.

Lemma run_rounds_ok {W} send xs (t : Task W) : Forall (fun x => poll_ok x.2) xs → task_ok t → task_ok (run_rounds send xs t).
Proof using Type.
  intros Hx. revert t. induction Hx as [|[a poll] xs Hp _ IH]; intros t Ht; [done|]. apply IH. by apply run_round_ok.
Qed.

Lemma task_new_ok {W} (w : W) : task_ok (mkTask stack_new [] [] w).
Proof using Type. split; try done. unfold QUEUE. cbn. lia. Qed.

Lemma run_round_reply {W} send (t : Task W) poll (answer : str + Socket) :
  let t' := run_round send t (Command answer, poll) in
  match answer with
  | inr _ => replies t' = replies t ++ [inr (next_conn (stack t))] ∧ next_conn (stack t') = S (next_conn (stack t))
  | inl err => replies t' = replies t ++ [inl err] ∧ next_conn (stack t') = next_conn (stack t)
  end.
Proof using Type.
  unfold run_round, round. destruct answer as [err|s]; cbn [fst snd take_arm device conns]; destruct (poll _ _) as [d cs];
    destruct (send_outbound _ _ _) as [rest w]; done.
Qed.

End StackRun.

(** * Example: one stream is opened, a packet arrives, and the tunnel is dropped *)

Definition idle_poll : DeviceState → list (nat * Link (Tcp:=toy_tcp)) → DeviceState * list (nat * Link (Tcp:=toy_tcp)) := fun d cs => (mkDevice [] (outbound d), cs).
Lemma idle_poll_ok : poll_ok idle_poll.
Proof.
  intros d cs. split; [cbn; lia|]. cbn [snd idle_poll]. induction cs; constructor; [done|assumption].
Qed.
Definition toy_connect (address : IpAddr) (port : Z) : str + Socket (SmolTcp:=toy_tcp) :=
  if port =? 0 then inl (Lit "Unaddressable") else inr (Lit "hi", [], 10%nat).
Definition toy_lookup (host : str) : str + option IpAddr := inr (if decide (host = Lit "example.com") then Some (Ipv4 (93, 184, 216, 34)) else None).
Definition toy_send_data (packet : list byte) (sent : list (list byte)) : bool * list (list byte) := (true, sent ++ [packet]).
Definition toy_rounds : list (arm (Tcp:=toy_tcp) * (DeviceState → list (nat * Link (Tcp:=toy_tcp)) → DeviceState * list (nat * Link (Tcp:=toy_tcp)))) :=
  [(Command (toy_connect (Ipv4 (1, 1, 1, 1)) 80), idle_poll); (Packet (Some (Lit "ip")), idle_poll); (Ticked, idle_poll)].

