(* ===== verification/Tunnel.v ===== *)
(** openvpn/tunnel.rs: the set-up of a tunnel, from the profile to the user-space stack. *)
From S2P Require Import Prelude Text OvpnConfig Replay Keys DataCipher Packet Framing TlsChannel Control ControlTermination ControlData.

Abbreviation ipv4 := (Z * Z * Z * Z)%type.

Section Tunnel.
Context {T : TlsLib}.
Context (hmac_md5 hmac_sha1 : list byte → list byte → list byte).

(** What the stack is spawned with. *)
Record Tunnel := mkTunnel {
  t_control : Control (T:=T); t_local : ipv4; t_remote : option ipv4; t_protocol : Protocol; t_cipher : Cipher
}.
(** The stack's default route. *)
Definition gateway (t : Tunnel) : ipv4 := default (10, 8, 0, 1) (t_remote t).

(** [Tunnel::connect]; [attempt] is one server's [connect_to]. *)
Definition tunnel_connect (attempt : Server → res Error (Control (T:=T))) (p : Profile) : res Error Tunnel :=
  control ← connect attempt p;
  match (reply ← push_request; modify_st (apply_push reply);; install_keys hmac_md5 hmac_sha1;; mret reply) control with
  | (Ok reply, control) =>
      let pushed := parse_push reply in
      match servers p with
      | [] => Panic
      | s :: _ => Ok (mkTunnel control (default (10, 8, 0, 2) (pushed_local pushed)) (pushed_remote pushed) (protocol s) (cipher control))
      end
  | (Err e, _) => Err e
  | (Panic, _) => Panic
  | (NoFuel, _) => NoFuel
  end.

(** * What a connected tunnel is *)

(** The answer of [connect]: the first server that does not refuse decides. *)
Lemma connect_servers_spec (attempt : Server → res Error (Control (T:=T))) ss last :
  (Forall (fun s => ∃ e, attempt s = Err e) ss ∧ ∃ e, connect_servers attempt ss last = Err e) ∨
  ∃ refused s rest, ss = refused ++ s :: rest ∧ Forall (fun s => ∃ e, attempt s = Err e) refused ∧
    (∀ e, attempt s ≠ Err e) ∧ connect_servers attempt ss last = attempt s.
Proof using Type.
  revert last. induction ss as [|s ss IH]; intros last; cbn [connect_servers].
  { left. split; [constructor|by eexists]. }
  destruct (attempt s) as [c|e| |] eqn:E.
  2: { destruct (IH (Some e)) as [[H1 H2]|(pre & s' & rest & -> & H1 & H2 & H3)].
       - left. split; [|done]. constructor; eauto.
       - right. exists (s :: pre), s', rest. split_and!; [done|constructor; eauto|done|done]. }
  all: right; exists [], s, ss; rewrite E; done.
Qed.

Context (md5_length : ∀ k x, length (hmac_md5 k x) = 16%nat).
Context (sha1_length : ∀ k x, length (hmac_sha1 k x) = 20%nat).
Context {Laws : TlsLaws T}.

(** After the push reply nothing can fail: the seed is there and the keys have the right sizes. *)
Lemma set_up_ok p dr start n c c1 reply :
  connect_to p dr start n = Ok c → push_request c = (Ok reply, c1) →
  ∃ c2, install_keys hmac_md5 hmac_sha1 (apply_push reply c1) = (Ok (), c2) ∧ keys_ok c2 ∧
    cipher c2 = default (OvpnConfig.cipher p) (pushed_cipher (parse_push reply)) ∧
    peer_id c2 = default NONE (pushed_peer_id (parse_push reply)) ∧
    send_counter c2 = 0 ∧ replay c2 = Replay.new.
Proof using md5_length sha1_length.
  intros H Hp. destruct (connect_to_session _ _ _ _ _ H) as (S1 & S2 & S3 & S4 & S5 & S6 & S7 & sd & Hsd & _).
  pose proof (keeps_push c) as [K1 K2 K3 K4 K5 K6 K7 K8 K9]. rewrite Hp in *. cbn [snd] in *.
  set (c2 := apply_push reply c1).
  assert (seed c2 = seed c1 ∧ send_counter c2 = send_counter c1 ∧ replay c2 = replay c1 ∧
          cipher c2 = default (cipher c1) (pushed_cipher (parse_push reply)) ∧
          peer_id c2 = default (peer_id c1) (pushed_peer_id (parse_push reply))) as (P1 & P2 & P3 & P4 & P5).
  { unfold c2, apply_push. by destruct (parse_push reply) as [[?|] [?|] ? ?]. }
  destruct (install_keys_ok hmac_md5 hmac_sha1 md5_length sha1_length sd c2)
    as (c3 & Hi & Hok & _ & I1 & _ & I3 & I4 & I5 & _); [congruence|].
  exists c3. split_and!; try done; congruence.
Qed.

(** C10: Connecting a tunnel, on every path. The servers are tried in order and the first that does
    not refuse decides. The tunnel that results has data keys for the pushed (else configured)
    cipher, a packet counter at zero, an empty replay window, the pushed peer id and the pushed
    local address (else 10.8.0.2) and remote one; its protocol is that of the FIRST server of the
    profile, whichever answered. The call fails exactly when all servers refuse or the push
    exchange fails: installing the keys never does, and the push exchange never runs forever. *)
Theorem tunnel_connect_spec attempt p :
  (∀ s c, attempt s = Ok c → ∃ dr start n, connect_to p dr start n = Ok c) →
  (Forall (fun s => ∃ e, attempt s = Err e) (servers p) ∧ ∃ e, tunnel_connect attempt p = Err e) ∨
  ∃ refused s rest, servers p = refused ++ s :: rest ∧ Forall (fun s => ∃ e, attempt s = Err e) refused ∧
    match attempt s with
    | Ok c =>
        match push_request c with
        | (Ok reply, _) =>
            let pushed := parse_push reply in
            ∃ t first, tunnel_connect attempt p = Ok t ∧ head (servers p) = Some first ∧
              t_protocol t = protocol first ∧
              keys_ok (t_control t) ∧ t_cipher t = cipher (t_control t) ∧
              t_cipher t = default (OvpnConfig.cipher p) (pushed_cipher pushed) ∧
              peer_id (t_control t) = default NONE (pushed_peer_id pushed) ∧
              send_counter (t_control t) = 0 ∧ replay (t_control t) = Replay.new ∧
              t_local t = default (10, 8, 0, 2) (pushed_local pushed) ∧ t_remote t = pushed_remote pushed
        | (Err e, _) => tunnel_connect attempt p = Err e
        | (Panic, _) => tunnel_connect attempt p = Panic
        | (NoFuel, _) => False
        end
    | Err _ => False
    | Panic => tunnel_connect attempt p = Panic
    | NoFuel => tunnel_connect attempt p = NoFuel
    end.
Proof using md5_length sha1_length Laws.
  intros Ha. unfold tunnel_connect, connect.
  destruct (connect_servers_spec attempt (servers p) None) as [[H1 [e H2]]|(pre & s & rest & Hs & H1 & H2 & H3)].
  { left. rewrite H2. split; [done|by exists e]. }
  right. exists pre, s, rest. split; [done|]. split; [done|]. rewrite H3.
  destruct (attempt s) as [c|e| |] eqn:E; [|by eapply H2|done..].
  destruct (Ha _ _ E) as (dr & start & n & Hc).
  destruct (push_request_ends c) as (Hf & _ & _).
  match goal with |- context [Ok c ≫= ?f] => change (Ok c ≫= f) with (f c) end. cbv beta.
  destruct (push_request c) as [[reply|e| |] c1] eqn:Ep; [|unfold mbind, se_bind; by rewrite Ep..|by destruct Hf].
  destruct (set_up_ok _ _ _ _ _ _ _ Hc Ep) as (c2 & Hi & Hok & Hci & Hpeer & Hsc & Hre).
  rewrite (se_bind_eq _ _ _ _ _ Ep), (se_bind_eq (modify_st (apply_push reply)) _ _ _ _ eq_refl), (se_bind_eq _ _ _ _ _ Hi).
  cbv zeta. destruct (servers p) as [|first others]; [by destruct pre|].
  eexists _, first. split; [reflexivity|]. by split_and!.
Qed.
End Tunnel.

(** The first server refuses, the second completes the handshake and pushes a configuration. *)
Definition toy_push : str :=
  Lit "PUSH_REPLY,ifconfig 10.9.0.6 10.9.0.5,peer-id 7,cipher AES-256-GCM" ++ [x00].
Definition toy_push_net : Net :=
  mkNet Udp 0 (incoming toy_handshake_net ++ [(70, Bytes (server_packet 3 toy_push))]) (mkStream [] false) [] None.
Definition toy_two_servers : Profile :=
  {| servers := [mkServer (Lit "gone") 443 Tcp; mkServer (Lit "h") 1194 Udp]; OvpnConfig.cipher := Aes128Gcm;
     OvpnConfig.auth := Sha1; credentials := {| ca := []; cert := []; key := [] |} |}.
Definition toy_attempt (s : Server) : res Error (Control (T:=toy_tls)) :=
  if bool_decide (protocol s = Tcp) then Err Timeout
  else connect_to toy_two_servers toy_draws (Ok Mem.default) toy_push_net.

Lemma toy_attempt_handshake s c : toy_attempt s = Ok c → ∃ dr start n, connect_to (T:=toy_tls) toy_two_servers dr start n = Ok c.
Proof. unfold toy_attempt. case_bool_decide; [done|]. intros Hc. by exists toy_draws, (Ok Mem.default), toy_push_net. Qed.

Lemma tunnel_connect_spec_witness :
  ∃ t, tunnel_connect toy_hmac16 toy_hmac20 toy_attempt toy_two_servers = Ok t ∧ keys_ok (t_control t) ∧
    t_cipher t = Aes256Gcm ∧ t_local t = (10, 9, 0, 6) ∧ t_remote t = Some (10, 9, 0, 5) ∧ peer_id (t_control t) = 7.
Proof.
  destruct (tunnel_connect_spec (T:=toy_tls) toy_hmac16 toy_hmac20 (toy_hmac_length 16) (toy_hmac_length 20)
              (Laws:=toy_tls_laws) toy_attempt toy_two_servers toy_attempt_handshake)
    as [[_ [e H]]|([|s1 [|s2 pre]] & s & rest & Hs & Hf & H)]; [vm_compute in H; discriminate H|..].
  { injection Hs as <- <-. vm_compute in H. destruct H. }
  2: { apply (f_equal length) in Hs. rewrite length_app in Hs. cbn [length] in Hs. simpl in Hs. lia. }
  injection Hs as <- <- <-. clear Hf.
  destruct (toy_attempt (mkServer (Lit "h") 1194 Udp)) as [c|e| |] eqn:Ec; [|vm_compute in Ec; discriminate Ec..].
  destruct (push_request c) as [[reply|e| |] c1] eqn:Ep.
  - destruct H as (t & first & H1 & _ & _ & H2 & _ & H3 & H4 & _ & _ & H5 & H6).
    assert (reply = Lit "PUSH_REPLY,ifconfig 10.9.0.6 10.9.0.5,peer-id 7,cipher AES-256-GCM") as ->.
    { vm_compute in Ec. injection Ec as <-. vm_compute in Ep. injection Ep as <- _. reflexivity. }
    exists t. rewrite H3, H4, H5, H6. split; [exact H1|]. split; [exact H2|]. repeat split; vm_compute; reflexivity.
  - vm_compute in Ec. injection Ec as <-. vm_compute in Ep. discriminate Ep.
  - vm_compute in Ec. injection Ec as <-. vm_compute in Ep. discriminate Ep.
  - destruct H.
Defined.
